(* ===== verification/_CoqProject ===== *)
-Q . S2P
Prelude.v
JsString.v
StateMachine.v
Timelocks.v
SendPolicy.v
ReceivePolicy.v
OnchainPolicy.v
EvmPolicy.v
EvmPlan.v
BlockTime.v
Prog.v
SwapDb.v
EvmRow.v
Invoice.v
Store.v
Corridor.v
Lockup.v
LockupFunding.v
BaseStore.v
LnSendStore.v
LnReceiveStore.v
OnchainSendStore.v
EvmStore.v
World.v
ChainClock.v
EvmService.v
EvmExample.v
UnrolledSpend.v
SweptRefund.v
Covenant.v
Pricing.v
OnchainRail.v
LnSendService.v
LnReceiveService.v
OnchainSendService.v
EvmSendService.v
EvmReceiveService.v
Discipline.v
Rules.v
EvmRules.v
BaseRules.v
CorridorRules.v
UnrolledRules.v
Refinement.v
LnSendProof.v
LnSendSafety.v
LnReceiveProof.v
LnReceiveSafety.v
OnchainSendProof.v
OnchainSendSafety.v
EvmSendProof.v
EvmSendSafety.v
EvmReceiveProof.v
EvmReceiveSafety.v
Admission.v
AdmissionRace.v
RateLimit.v
Page.v
Quote.v
QuoteRules.v
QuoteService.v
QuoteProof.v
QuoteSafety.v
LnSendQuote.v
LnSendQuoteProof.v
LnSendQuoteSafety.v
LnReceiveQuote.v
LnReceiveQuoteProof.v
LnReceiveQuoteSafety.v
OnchainSendQuote.v
OnchainSendQuoteProof.v
OnchainSendQuoteSafety.v
