(* ===== verification/Prelude.v ===== *)
(** * Verification of the intent-solver swap provider

    The program (a TypeScript monorepo, [packages/]) is a swap provider: it
    quotes a swap between bitcoin on Arkade and another rail (Lightning, the
    bitcoin chain, an ERC20 on an EVM chain), both legs locked to one payment
    hash, and drives each swap to its end with money of its own at risk in
    between. A corridor is a service ([quote], [tick], sweeps) over a table of
    swaps; the decisions it takes are pure functions of [solver-core], the rest
    is I/O. The solver means to pay second, and to get its money back or the
    preimage that pays it; the theorems say what of that the services guarantee,
    and exhibit the runs of several instances that get past it.

    ** The files, from the leaves up

    Language and libraries. [Prelude]: fallible code as [result], JavaScript
    numbers as [num], rounding. [JsString]: the string functions and [Number].
    [Prog]: handlers as programs over events, interleaving and crashing of any
    number of them, and the rely-guarantee proof rules.

    Decisions ([solver-core/src/core]). [StateMachine]: [stateMachine.ts], the
    three bitcoin lifecycles, [evmSwapState.ts]. [Timelocks]: [timelocks.ts].
    [SendPolicy], [ReceivePolicy], [OnchainPolicy]: the acceptance and money
    gates [send.ts], [receive.ts], [onchainSend.ts]. [EvmPolicy]: [evmSend.ts],
    [evmReceive.ts]. [EvmPlan]: the planners [evmSendPlan.ts] and
    [evmReceivePlan.ts]. [BlockTime]: [solver-rails-evm/src/evm/blockTime.ts].
    [Pricing]: [corridorPolicy.ts], [pricing.ts], [priceFeed.ts], [limits.ts].
    [Admission]: [admission.ts] with its strategies. [RateLimit]: [rateLimit.ts].
    [Page]: [page.ts]. [Invoice]: [invoice/decode.ts], over the bech32 library.

    Storage. [SwapDb]: a swap table and its event log, one statement at a time.
    [Store]: the statements as events and the queries every store has.
    [EvmStore]: [EvmSwapStore] and its two tables. [BaseStore]: [BaseSwapStore],
    shared by the Bitcoin corridors. [LnSendStore], [LnReceiveStore],
    [OnchainSendStore]: the Lightning and onchain tables.
    [EvmRow]: what a row rebuilds (the ERC20 lock, the covenant row, the funding
    binding). [Covenant]: the parameters [CovenantSwapScript] accepts and the
    script of a row.

    The services. [World]: the world a service runs in and the helpers every
    corridor uses ([guardedTick], [sweep], [askApproval]). [ChainClock]:
    [chainClock.ts]. [Lockup], [UnrolledSpend]: which outputs of an Arkade
    lockup a spend takes, and the spends of those that were put on L1.
    [LockupFunding]: which coins of the solver fund a lockup
    ([lockupFunding.ts]) and the ledger that pins them ([reservations.ts]).
    [SweptRefund]: [sweptLockupRefund.ts]. [LnSendService]: the Lightning send
    service of [solver-corridors/src/send/orchestrator.ts]. [LnReceiveService]:
    the Lightning receive service of [receive/orchestrator.ts] with
    [fundLockup.ts], [claimPacket.ts], [lockupPreimage.ts] and [arkadeOps.ts];
    [Corridor]: what the Bitcoin services share. [OnchainRail]: the onchain HTLC,
    its spends, their sizes and the price of replacing one
    ([solver-rails/src/onchain]). [OnchainSendService]: the onchain send service
    of [send/onchainOrchestrator.ts] and the claim recovery of
    [solver-app/src/ops/claims.ts] that goes with it. [EvmService]
    ([provenDepth]), [EvmSendService], [EvmReceiveService]: the services of
    [solver-corridors-evm/src]. [Quote]: the steps every [quote] shares;
    [QuoteService], [LnSendQuote], [LnReceiveQuote], [OnchainSendQuote]: [quote]
    of the EVM services, of the two Lightning services and of the onchain one.

    Proofs about them. [Discipline]: the interface (an order on states, a row
    invariant, what licenses each irreversible request, which requests one
    thread alone may send) and its laws. [Rules] has the proof rules that follow
    from the laws; [EvmRules] and [BaseRules] those of the two kinds of store, [CorridorRules]
    what the handlers of the Bitcoin corridors know of their row,
    [UnrolledRules] the steps of the claims of unrolled outputs.
    [Refinement] is the abstract lifecycle and the simulation, for any
    discipline. [LnSendProof], [LnReceiveProof], [OnchainSendProof],
    [EvmSendProof] and [EvmReceiveProof] instantiate the interface; the five
    [*Safety] files of the same names state the guarantees. [QuoteRules] has the rules of quotes and the
    ledger of what they open outside, [QuoteProof], [LnSendQuoteProof],
    [LnReceiveQuoteProof] and [OnchainSendQuoteProof] apply them, and the
    [*QuoteSafety] files of the same names state what a quote promises;
    [AdmissionRace] runs concurrent quotes against one cap. [EvmExample] holds
    the swaps of the example runs.

    ** How state and operations correspond

    A table is a list of rows in rowid order plus its events ([SwapDb.Db]); a
    row is its lifecycle state, timestamps, the write-once quote (a record) and
    a map of the other columns. A store method is a program of SQL statements,
    each one event and atomic; nothing makes two atomic, because nothing in the
    source does. A service method is a program whose events are those
    statements, the clock, the reads of the chain and of the Arkade server, and
    the irreversible requests; [World] is the database, the ledger of requests
    that may have taken effect, and each process's memory ([inFlight],
    [lockSequence], [lateLockReported], [sweepInFlight]). [reachable] closes
    the empty world under: an instance starts a method, some running method
    takes its next event, a method dies. Every read answers anything (a
    preimage only of the hash asked for) and fails at will, every request and
    every statement may fail before or after taking effect.

    ** What the theorems show

    - The Lightning send service, in every interleaving and crash: an invoice
      is paid only for a swap past [funded], whose row has the key and the moment
      of the payment and the lockup on disk, under the one idempotency key of
      its payment hash, within its budgets and while its lockup can be claimed
      ([lightning_payments_are_licensed]); a lockup is collected only
      with a preimage of the hash ([lightning_claims_are_backed]); a client is
      refunded only when the payment is off, so never as well as collected from
      ([lightning_refunds_exclude_claims]); rows mean what they say
      ([lightning_rows_keep_their_promises]); a run is a run of the lifecycle
      ([lightning_refines_lifecycle]). One interleaving of two instances takes a
      swap that is paid for to refused and refunds it while the payment is under
      way, on a backend that cannot be asked about a hash
      ([overtaken_submission_refunds_a_paid_swap]).
    - The Lightning receive service, likewise: a lockup is funded at most once
      per swap, under the funding lease, for the row's own terms and while the
      payer's payment is held long enough ([inbound_lockup_is_funded_once]), out
      of coins that are really there ([lockup_funding_is_sound],
      [reservations_are_exact]); a payment is settled only with a published
      preimage of its hash ([inbound_settles_what_was_claimed]); a lockup is
      taken back only from [funded] on, with the lockup on the row, or of a
      parked swap ([inbound_refunds_are_licensed]); rows mean what they say
      ([inbound_rows_keep_their_promises]); a run is a run of the lifecycle
      ([inbound_refines_lifecycle]). One interleaving of two workers closes a
      swap that the other is funding ([stale_worker_refuses_a_funded_swap]).
    - The onchain send service, likewise: an HTLC is funded by one transaction
      ever, recorded before it is broadcast ([onchain_funding_is_single]); a
      lockup is collected only with the preimage a spend of the row's own
      outpoint revealed ([onchain_claims_are_backed]) and given back, unless an
      operator orders it, only if nothing was funded or the solver's own refund
      of the HTLC confirmed ([onchain_returns_exclude_payouts]); a reclaim
      spends the row's own output, leaves no dust and pays for its relay
      ([onchain_reclaims_spend_their_own_htlc]), everything but the dust when
      the deadline is near ([replacement_pays_for_its_deadline]); rows mean what
      they say ([onchain_rows_keep_their_promises]); a run is a run of the
      lifecycle ([onchain_refines_lifecycle]). Two instances replacing one
      refund at once can lose track of it, and then only an operator gives the
      lockup back ([concurrent_replacements_lose_a_refund]).
    - The EVM services, likewise: the ERC20 is locked and the Arkade lockup
      funded at most once per swap and for the row's own terms
      ([erc20_locked_at_most_once], [arkade_funded_at_most_once]); nothing is
      claimed without a preimage already on disk ([claims_are_backed],
      [erc20_claims_are_backed]); a client handed back its lockup got nothing
      else ([refunded_lockup_is_all]); a sent lock stays watched
      ([sent_lock_stays_watched]); rows mean what they say
      ([rows_keep_their_promises], [receive_rows_keep_their_promises]); and a
      run of the receive service is a run of the abstract lifecycle
      ([receive_refines_lifecycle]).
    - Quotes: all or nothing, with a row that keeps every inequality the
      deadlines rest on and rebuilds its covenant
      ([send_quote_keeps_its_word], [receive_quote_keeps_its_word],
      [lightning_quote_keeps_its_word], [onchain_quote_keeps_its_word],
      [hold_quote_keeps_its_word]); no preparation of external funding is left
      open by a quote that did not land, unless abandoning it failed, and every
      hold invoice is accounted for, though only a backend with [cancelHold] is
      asked to close the ones no swap will use; a Lightning quote that
      was accepted passes every gate of the tick that pays it while it is open
      ([lightning_quote_is_payable]), one the other way the gate that funds
      it ([quoted_hold_is_fundable]), and the HTLC of an onchain one can be
      funded in time and always taken back ([quoted_payout_is_recoverable]).
    - Invoices: one reading, whichever case it came in and whoever reads it
      ([stored_invoice_reads_back]), within the client's CLTV ceiling, its route
      totals exact ([decoded_invoice_is_bounded]).
    - Exposure: a claim is all or nothing ([admit_all_or_nothing]); concurrent
      quotes stay within the cap when no reservation is released during a read
      of the committed total ([exposure_bounded]), and without that proviso a
      run passes it ([exposure_cap_overrun]).
    - Decisions: the planners and gates exactly, and what composing them gives
      (a paid invoice fits the client's deadline, deadlines are ordered, ladders
      share a unit and cover each other).
    - Lifecycles: exposure is irrevocable, paths are bounded, a table that loads
      is closed.
    - Data: round trips of rows and cursors, pages that enumerate each row once,
      queries that are parameterised, prices that never leak a unit, quota and
      memory bounds of the rate limiter, BIP68 and block-time bounds.

    ** Bounds and fuel

    Quantities are [Z] where the source keeps them below 2^53 and doubles are
    exact; where it tests for integers or finiteness they are [num], a rational
    or a non-finite double. [guardedTick] loops while a step reports progress;
    [drive] takes fuel and the safety theorems hold for every fuel. A receive
    tick of the EVM corridor is over within three passes ([receive_tick_ends]), a
    Lightning tick within six ([lightning_tick_ends], [inbound_tick_ends]), an
    onchain tick within seven ([onchain_tick_ends]); the
    look for a funded output has as many reads as pauses fit in its budget
    ([confirm_looks]); an EVM send tick reads
    the world again under its lock and starts over when the two readings
    disagree, so nothing bounds its passes but the readings agreeing.
    [giveSatsFor] takes fuel and needs none ([giveSatsFor_least] has it at
    zero). Everything else is structural.

    ** Parameters

    Code outside the repository is a class or an argument with its documented
    behaviour: [EvmHtlcBackend] (calldata), [Arkade] (addresses, the taproot
    compiler, ripemd160), [Bolt11Decoder] (bech32 sections), [sha256], SQL's [LIKE] ([LikeRules]), price feeds,
    [JSON] of the columns kept as text ([Json]). [ln_port] states what the
    Lightning and Arkade ports promise about a payment: one reported failed,
    unless for want of a record, or returned, is void, and no preimage of a void
    payment is ever revealed; it lets a submission take effect even when it is
    said not to have started, which the port rules out, so the guarantees rest on
    less than the port documents, and no run exhibited uses it. [lr_port] does so for the receive side: a payment
    said to be held is held, a preimage handed over was published and opens its
    hash, and a refusal for an amount too low means nothing was submitted.
    [onchain_port] for the bitcoin chain: what a read says was spent, confirmed
    or paid was, and what the wallet signs is a payment of what it was asked to
    sign. Script encoding, taproot, signatures and transaction parsing are
    classes ([BtcSigner], [TxParser]); fee rates are exact rationals and the
    power of the fee ramp is any function that interpolates ([interpolates]);
    sizes of spends depend on lengths alone ([Sized]).

    ** Not modelled

    The text [unilateralExitRecourse] writes
    (the class [Recourse]); asset corridors, analytics and wire schemas; the
    Arkade client, the adapters of the rails and the transports, which are I/O behind the ports
    taken here as events; the application, its configuration and its admin
    front end. *)
From stdpp Require Export base tactics option list numbers strings gmap pretty.
From Stdlib Require Export ZArith Lia.
From Stdlib Require Import QArith_base Qround Sorting.Sorted.

#[global] Open Scope Z_scope.
#[export] Set Warnings "-clear-no-such-hyp".

(** ** Fallible code

    A TypeScript function that may throw is a function into [result E A]:
    [Err e] is the thrown error, [Ok a] the value returned. *)

Inductive result (E A : Type) : Type :=
  | Ok (a : A)
  | Err (e : E).
Arguments Ok {E A} a.
Arguments Err {E A} e.

#[global] Instance result_ret {E} : MRet (result E) := fun A a => Ok a.
#[global] Instance result_bind {E} : MBind (result E) :=
  fun A B f r => match r with Ok a => f a | Err e => Err e end.
#[global] Instance result_fmap {E} : FMap (result E) :=
  fun A B f r => match r with Ok a => Ok (f a) | Err e => Err e end.

#[global] Instance result_eq_dec {E A} `{EqDecision E, EqDecision A} :
  EqDecision (result E A).
Proof. solve_decision. Defined.

Definition is_ok {E A} (r : result E A) : bool :=
  match r with Ok _ => true | Err _ => false end.

(** [throw_if c e] is [if (c) throw e]. *)
Definition throw_if {E} (c : bool) (e : E) : result E unit :=
  if c then Err e else Ok tt.

Lemma bind_Ok {E A B} (r : result E A) (f : A → result E B) (b : B) :
  (r ≫= f) = Ok b ↔ ∃ a, r = Ok a ∧ f a = Ok b.
Proof. destruct r; cbn; naive_solver. Qed.

Lemma throw_if_Ok {E} (c : bool) (e : E) : throw_if c e = Ok tt ↔ c = false.
Proof. destruct c; cbn; naive_solver. Qed.

Lemma throw_if_bind {E A} (c : bool) (e : E) (k : result E A) (a : A) :
  (_ ← throw_if c e; k) = Ok a ↔ c = false ∧ k = Ok a.
Proof. destruct c; cbn; naive_solver. Qed.

(** Dropping elements keeps an order. *)
Lemma StronglySorted_filter {A} (R : A → A → Prop) (P : A → Prop) `{∀ x, Decision (P x)} l :
  StronglySorted R l → StronglySorted R (filter P l).
Proof.
  induction 1 as [|x l Hl IH Hx]; [constructor|]. rewrite filter_cons. case_decide; [|done].
  constructor; [done|]. rewrite Forall_forall in *. intros y [_ Hy]%list_elem_of_filter. auto.
Qed.

(** ** JavaScript numbers

    Most quantities of the program are integers below 2^53 (seconds, blocks,
    sats), for which a double is exact; they are [Z] here. Where the source
    tests [Number.isFinite] or [Number.isInteger], the argument is a [num]:
    a finite rational, or one of the three non-finite doubles. *)

Inductive num : Type :=
  | Fin (q : Q)
  | NaN
  | Infinity (negative : bool).
#[global] Instance Q_eq_dec : EqDecision Q.
Proof. solve_decision. Defined.
#[global] Instance num_eq_dec : EqDecision num.
Proof. solve_decision. Defined.

Definition of_Z (z : Z) : num := Fin (inject_Z z).

Definition isFinite (n : num) : bool :=
  match n with Fin _ => true | _ => false end.

(** The integer a finite number is, when it is one ([Number.isInteger]). *)
Definition integer (n : num) : option Z :=
  match n with
  | Fin q => if (Qnum q mod Zpos (Qden q) =? 0) then Some (Qnum q / Zpos (Qden q)) else None
  | _ => None
  end.

Definition isInteger (n : num) : bool :=
  match integer n with Some _ => true | None => false end.

(** [a < b] on doubles: false as soon as one side is NaN. *)
Definition num_lt (a b : num) : bool :=
  match a, b with
  | NaN, _ | _, NaN => false
  | Fin p, Fin q => (Qnum p * Zpos (Qden q) <? Qnum q * Zpos (Qden p))
  | Infinity n, Infinity m => n && negb m
  | Infinity n, Fin _ => n
  | Fin _, Infinity m => negb m
  end.

(** [a <= b] on doubles. *)
Definition num_le (a b : num) : bool :=
  match a, b with
  | NaN, _ | _, NaN => false
  | Fin p, Fin q => (Qnum p * Zpos (Qden q) <=? Qnum q * Zpos (Qden p))
  | Infinity n, Infinity m => n || negb m
  | Infinity n, Fin _ => n
  | Fin _, Infinity m => negb m
  end.

(** [Math.max] and [Math.min]: NaN as soon as one argument is NaN. *)
Definition num_max (a b : num) : num :=
  match a, b with
  | NaN, _ | _, NaN => NaN
  | _, _ => if num_lt a b then b else a
  end.

Definition num_min (a b : num) : num :=
  match a, b with
  | NaN, _ | _, NaN => NaN
  | _, _ => if num_lt b a then b else a
  end.

(** [Math.trunc] on a finite number. *)
Definition trunc (q : Q) : Z := Z.quot (Qnum q) (Zpos (Qden q)).

Lemma integer_of_Z z : integer (of_Z z) = Some z.
Proof. unfold integer, of_Z; cbn. by rewrite Z.mod_1_r, Z.div_1_r. Qed.

Lemma isInteger_of_Z z : isInteger (of_Z z) = true.
Proof. unfold isInteger. by rewrite integer_of_Z. Qed.

Lemma num_lt_of_Z a b : num_lt (of_Z a) (of_Z b) = (a <? b).
Proof. cbn. by rewrite !Z.mul_1_r. Qed.

Lemma num_le_of_Z a b : num_le (of_Z a) (of_Z b) = (a <=? b).
Proof. cbn. by rewrite !Z.mul_1_r. Qed.

Lemma trunc_of_Z z : trunc (inject_Z z) = z.
Proof. unfold trunc; cbn. apply Z.quot_1_r. Qed.

(** Comparisons of finite numbers are total. *)
Lemma num_not_le_lt a b : isFinite a = true → num_le a (of_Z b) = false → num_lt (of_Z b) a = true.
Proof. destruct a; cbn; try done. intros _ ?%Z.leb_gt. apply Z.ltb_lt. lia. Qed.

Lemma num_not_lt_le a b :
  isFinite a = true → isFinite b = true → num_lt a b = false → num_le b a = true.
Proof. destruct a, b; cbn; try done. intros _ _ ?%Z.ltb_ge. apply Z.leb_le. lia. Qed.

(** [Math.ceil (a / b)] and [Math.floor (a / b)] on integers. *)
Definition ceil_div (a b : Z) : Z := - ((- a) / b).

Lemma ceil_div_spec a b : 0 < b → b * (ceil_div a b - 1) < a ≤ b * ceil_div a b.
Proof.
  intros Hb. unfold ceil_div.
  pose proof (Z.div_mod (- a) b ltac:(lia)). pose proof (Z.mod_pos_bound (- a) b Hb). nia.
Qed.

Lemma ceil_div_le a b c : 0 < b → a ≤ b * c → ceil_div a b ≤ c.
Proof. intros Hb Ha. pose proof (ceil_div_spec a b Hb). nia. Qed.

Lemma ceil_div_mono a a' b : 0 < b → a ≤ a' → ceil_div a b ≤ ceil_div a' b.
Proof.
  intros Hb Ha. apply ceil_div_le; [done|]. pose proof (ceil_div_spec a' b Hb). nia.
Qed.

(** ** Reachability

    Components that react to events are step relations; [rtc] of stdpp closes
    them. An invariant established initially and kept by each step holds in
    every reachable state. *)
Lemma rtc_invariant {S : Type} (step : S → S → Prop) (I : S → Prop) :
  (∀ s s', step s s' → I s → I s') → ∀ s s', rtc step s s' → I s → I s'.
Proof. induction 2; eauto. Qed.

(** A list whose images differ holds one element per image. *)
Lemma NoDup_fmap_eq {A B} (f : A → B) (l : list A) x y :
  NoDup (f <$> l) → x ∈ l → y ∈ l → f x = f y → x = y.
Proof.
  intros Hnd [n Hn]%list_elem_of_lookup [m Hm]%list_elem_of_lookup Hxy.
  assert (n = m) as <-; [|congruence].
  eapply (NoDup_lookup _ _ _ (f x) Hnd); rewrite list_lookup_fmap; [by rewrite Hn|].
  rewrite Hm. cbn. by rewrite Hxy.
Qed.

(** ** Automation *)

Create HintDb solver.
Create Rewrite HintDb solver.
#[export] Hint Rewrite integer_of_Z isInteger_of_Z num_lt_of_Z num_le_of_Z trunc_of_Z : solver.

(** Turn the boolean comparisons of the hypotheses and the goal into
    propositions, so that [lia] reads them. *)
Ltac bool_to_prop :=
  repeat match goal with
  | H : (_ && _) = true |- _ => apply andb_true_iff in H; destruct H
  | H : (_ || _) = false |- _ => apply orb_false_iff in H; destruct H
  | H : (_ && _) = false |- _ => apply andb_false_iff in H
  | H : (_ || _) = true |- _ => apply orb_true_iff in H
  | H : negb _ = true |- _ => apply negb_true_iff in H
  | H : negb _ = false |- _ => apply negb_false_iff in H
  | H : (_ <? _) = true |- _ => apply Z.ltb_lt in H
  | H : (_ <? _) = false |- _ => apply Z.ltb_ge in H
  | H : (_ <=? _) = true |- _ => apply Z.leb_le in H
  | H : (_ <=? _) = false |- _ => apply Z.leb_gt in H
  | H : (_ >? _) = _ |- _ => rewrite Z.gtb_ltb in H
  | H : (_ >=? _) = _ |- _ => rewrite Z.geb_leb in H
  | H : (_ =? _) = true |- _ => apply Z.eqb_eq in H
  | H : (_ =? _) = false |- _ => apply Z.eqb_neq in H
  end.

(** Split every [if] and [match] of the named hypothesis, discarding the
    branches that contradict it. *)
Ltac split_cases H :=
  repeat (case_match; try discriminate H); simplify_eq/=.

(** Case analysis on every remaining conditional, then arithmetic. *)
Ltac solve_gate := repeat case_match; simplify_eq/=; bool_to_prop; try lia; eauto.
