(* ===== verification/JsString.v ===== *)
(** * JavaScript strings and [Number]

    What the source uses of the language's strings: white space and [trim],
    [split] on one character, [replaceAll] of one character, runs of decimal
    digits, and [Number(s)] on a string without a decimal point, rounded to a
    double as the language does. Characters are UTF-16 code units below 256,
    one [ascii] each. *)
From Stdlib Require Import QArith_base Ascii.
From S2P Require Import Prelude.
#[local] Open Scope Z_scope.

(** ** White space, [trim], [split], [replaceAll] *)

Definition js_space (c : ascii) : bool :=
  let n := nat_of_ascii c in (n =? 32)%nat || (9 <=? n)%nat && (n <=? 13)%nat || (n =? 160)%nat.

Fixpoint trim_start (s : string) : string :=
  match s with
  | String c rest => if js_space c then trim_start rest else s
  | EmptyString => s
  end.
Fixpoint trim_end (s : string) : string :=
  match s with
  | EmptyString => EmptyString
  | String c rest =>
      match trim_end rest with
      | EmptyString => if js_space c then EmptyString else String c EmptyString
      | rest => String c rest
      end
  end.
Definition trim (s : string) : string := trim_end (trim_start s).

(** [s.split(c)]: never empty. *)
Fixpoint split (sep : ascii) (s : string) : list string :=
  match s with
  | EmptyString => [EmptyString]
  | String c rest =>
      if decide (c = sep) then EmptyString :: split sep rest
      else match split sep rest with
           | part :: parts => String c part :: parts
           | [] => [String c EmptyString]
           end
  end.

(** [s.replaceAll(c, by)] *)
Fixpoint replaceAll (c : ascii) (by_ s : string) : string :=
  match s with
  | EmptyString => EmptyString
  | String d rest =>
      if decide (d = c) then by_ +:+ replaceAll c by_ rest else String d (replaceAll c by_ rest)
  end.

(** [parts.join(sep)] *)
Fixpoint join (sep : string) (parts : list string) : string :=
  match parts with
  | [] => EmptyString
  | [part] => part
  | part :: rest => part +:+ sep +:+ join sep rest
  end.

Lemma append_assoc (s t u : string) : s +:+ t +:+ u = (s +:+ t) +:+ u.
Proof. induction s as [|c s IH]; [done|].
  change (String c (s +:+ t +:+ u) = String c ((s +:+ t) +:+ u)). by rewrite IH.
Qed.

(** ** Digits *)

Definition decimal_digit (c : ascii) : option Z :=
  let n := Z.of_nat (nat_of_ascii c) in
  if (48 <=? n) && (n <=? 57) then Some (n - 48) else None.

Definition hex_digit_value (c : ascii) : option Z :=
  let n := Z.of_nat (nat_of_ascii c) in
  if (48 <=? n) && (n <=? 57) then Some (n - 48)
  else if (97 <=? n) && (n <=? 102) then Some (n - 87)
  else if (65 <=? n) && (n <=? 70) then Some (n - 55) else None.

(** A digit of a base up to sixteen. *)
Definition base_digit (base : Z) (c : ascii) : option Z :=
  d ← hex_digit_value c; if d <? base then Some d else None.

(** A run of digits, read after [acc]: its value, its length, what follows. *)
Fixpoint digits_from (s : string) (acc count : Z) : Z * Z * string :=
  match s with
  | String c rest =>
      match decimal_digit c with Some d => digits_from rest (10 * acc + d) (count + 1) | None => (acc, count, s) end
  | EmptyString => (acc, count, s)
  end.

Fixpoint base_number (base : Z) (s : string) (acc : Z) : option Z :=
  match s with
  | EmptyString => Some acc
  | String c rest => d ← base_digit base c; base_number base rest (base * acc + d)
  end.

(** ** Doubles *)

(** Round half to even. *)
Definition round_even (n d : Z) : Z :=
  let q := n / d in
  match 2 * (n mod d) ?= d with Lt => q | Gt => q + 1 | Eq => if Z.even q then q else q + 1 end.

(** The double nearest to the positive rational [n / d]: a multiple of
    [2 ^ u], [u] the exponent of the last of its 53 significant bits. *)
Definition double_exponent (n d : Z) : Z :=
  let e := Z.log2 n - Z.log2 d in
  let e := if n * 2 ^ Z.max 0 (- e) <? d * 2 ^ Z.max 0 e then e - 1 else e in
  Z.max (e - 52) (-1074).

Definition round_double (negative : bool) (n d : Z) : num :=
  if n =? 0 then of_Z 0
  else
    let u := double_exponent n d in
    let m := round_even (n * 2 ^ Z.max 0 (- u)) (d * 2 ^ Z.max 0 u) in
    if 2 ^ 1024 <=? m * 2 ^ Z.max 0 u then Infinity negative
    else Fin (Qmake ((if negative then -1 else 1) * m * 2 ^ Z.max 0 u) (Z.to_pos (2 ^ Z.max 0 (- u)))).

(** [m * 10 ^ e] *)
Definition decimal_double (negative : bool) (m e : Z) : num :=
  round_double negative (m * 10 ^ Z.max 0 e) (10 ^ Z.max 0 (- e)).

(** ** [Number] *)

(** An unsigned decimal literal without a point. *)
Definition unsigned_literal (negative : bool) (s : string) : num :=
  if decide (s = "Infinity") then Infinity negative
  else
    let '(m, count, rest) := digits_from s 0 0 in
    if count =? 0 then NaN
    else match rest with
    | EmptyString => decimal_double negative m 0
    | String c rest =>
        if bool_decide (c = "e"%char) || bool_decide (c = "E"%char) then
          let '(minus, rest) :=
            match rest with
            | String "+"%char r => (false, r)
            | String "-"%char r => (true, r)
            | r => (false, r)
            end in
          let '(e, count, rest) := digits_from rest 0 0 in
          if (count =? 0) || negb (bool_decide (rest = EmptyString)) then NaN
          else decimal_double negative m (if minus : bool then - e else e)
        else NaN
    end.

Definition based_literal (base : Z) (digits : string) : num :=
  match digits with
  | EmptyString => NaN
  | _ => match base_number base digits 0 with Some n => round_double false n 1 | None => NaN end
  end.

(** [Number(s)], for [s] without a ["."]. *)
Definition Number (s : string) : num :=
  match trim s with
  | EmptyString => of_Z 0
  | String "0"%char (String "x"%char r) | String "0"%char (String "X"%char r) => based_literal 16 r
  | String "0"%char (String "o"%char r) | String "0"%char (String "O"%char r) => based_literal 8 r
  | String "0"%char (String "b"%char r) | String "0"%char (String "B"%char r) => based_literal 2 r
  | String "+"%char r => unsigned_literal false r
  | String "-"%char r => unsigned_literal true r
  | r => unsigned_literal false r
  end.

Example Number_examples :
  integer (Number "12") = Some 12 ∧ integer (Number " -7 ") = Some (-7) ∧ integer (Number "") = Some 0 ∧
  integer (Number "1e3") = Some 1000 ∧ integer (Number "0x1F") = Some 31 ∧ Number "1x" = NaN ∧
  integer (Number "15e-1") = None ∧ integer (Number "9007199254740993") = Some 9007199254740992 ∧
  Number "1e309" = Infinity false ∧ Number "-Infinity" = Infinity true ∧ Number "--1" = NaN.
Proof. vm_compute. by split_and!. Qed.

(** ** Printed integers read back *)

Fixpoint all_digits (s : string) : bool :=
  match s with
  | EmptyString => true
  | String c rest => bool_decide (is_Some (decimal_digit c)) && all_digits rest
  end.

(** The ten digits, case by case. *)
Ltac digit_cases c H :=
  destruct c as [[] [] [] [] [] [] [] []]; vm_compute in H; try discriminate H.

Lemma pretty_N_char_digit m :
  (m < 10)%N → decimal_digit (pretty_N_char m) = Some (Z.of_N m).
Proof. intros Hm. destruct m as [|m]; [done|]. do 9 (destruct m as [m|m|]; try done; try lia). Qed.

Lemma pretty_go_all_digits n : ∀ s, all_digits s = true → all_digits (pretty_N_go n s) = true.
Proof.
  induction (N.lt_wf_0 n) as [n _ IH]. intros s Hs.
  destruct (decide (n = 0%N)) as [->|Hn]; [by rewrite pretty_N_go_0|].
  rewrite pretty_N_go_step by lia. apply IH; [apply N.div_lt; lia|]. cbn [all_digits].
  rewrite pretty_N_char_digit by (apply N.mod_lt; lia). done.
Qed.

Lemma digits_from_pretty_go n : ∀ s c, ∃ k, 0 ≤ k ∧ (n ≠ 0%N → 0 < k) ∧
  digits_from (pretty_N_go n s) 0 c = digits_from s (Z.of_N n) (c + k).
Proof.
  induction (N.lt_wf_0 n) as [n _ IH]. intros s c.
  destruct (decide (n = 0%N)) as [->|Hn].
  { exists 0. rewrite pretty_N_go_0, Z.add_0_r. by split_and!. }
  rewrite pretty_N_go_step by lia.
  destruct (IH (n `div` 10)%N ltac:(apply N.div_lt; lia) (String (pretty_N_char (n `mod` 10)) s) c)
    as (k & Hk & _ & ->).
  exists (k + 1). split_and!; [lia|lia|]. cbn [digits_from].
  rewrite pretty_N_char_digit by (apply N.mod_lt; lia).
  f_equal; [|lia]. pose proof (N.div_mod n 10 ltac:(lia)). lia.
Qed.

Lemma pretty_nonneg n : 0 ≤ n → pretty n = pretty (Z.to_N n).
Proof. unfold pretty, pretty_Z. destruct n; done || lia. Qed.

Lemma pretty_digits n : 0 ≤ n →
  all_digits (pretty n) = true ∧ ∃ k, 0 < k ∧ digits_from (pretty n) 0 0 = (n, k, EmptyString).
Proof.
  intros Hn. rewrite pretty_nonneg by done. unfold pretty, pretty_N. case_decide as H0.
  - split; [done|]. exists 1. split; [done|]. vm_compute. repeat f_equal. lia.
  - split; [by apply pretty_go_all_digits|].
    destruct (digits_from_pretty_go (Z.to_N n) "" 0) as (k & _ & Hk & ->).
    exists k. split; [by apply Hk|]. cbn. repeat f_equal. lia.
Qed.

Lemma digit_no_space c : is_Some (decimal_digit c) → js_space c = false.
Proof. intros [d H]. digit_cases c H; done. Qed.

Lemma trim_end_digits s : all_digits s = true → trim_end s = s.
Proof.
  induction s as [|c s IH]; [done|]. cbn. intros [Hc%bool_decide_eq_true Hs]%andb_true_iff.
  rewrite IH by done. destruct s; [|done]. by rewrite digit_no_space.
Qed.

Lemma trim_digits s : all_digits s = true → trim s = s.
Proof.
  intros Hs. unfold trim. destruct s as [|c s]; [done|]. cbn [trim_start].
  pose proof Hs as [Hc%bool_decide_eq_true _]%andb_true_iff. rewrite digit_no_space by done.
  by apply trim_end_digits.
Qed.

Lemma Number_digits s : s ≠ EmptyString → all_digits s = true → Number s = unsigned_literal false s.
Proof.
  intros Hne Hs. unfold Number. rewrite trim_digits by done. destruct s as [|c s]; [done|].
  apply andb_true_iff in Hs as [[d Hc]%bool_decide_eq_true Hs]. digit_cases c Hc; try reflexivity.
  destruct s as [|c s]; [done|]. apply andb_true_iff in Hs as [[d' Hc']%bool_decide_eq_true Hs].
  digit_cases c Hc'; reflexivity.
Qed.

Lemma Number_minus s : s ≠ EmptyString → all_digits s = true → Number (String "-" s) = unsigned_literal true s.
Proof.
  intros Hne Hs. unfold Number, trim. cbn [trim_start js_space]. change (js_space "-") with false. cbn iota beta.
  cbn [trim_end]. rewrite trim_end_digits by done. destruct s; [done|reflexivity].
Qed.

Lemma round_double_exact negative n : 0 ≤ n < 2 ^ 53 →
  integer (round_double negative n 1) = Some (if negative then - n else n).
Proof.
  intros [Hn0 Hn]. unfold round_double. destruct (n =? 0) eqn:H0; bool_to_prop.
  { subst. by destruct negative. }
  set (u := double_exponent n 1). set (k := Z.max 0 (- u)).
  assert (Z.log2 n < 53) as Hlog by (apply Z.log2_lt_pow2; lia).
  assert (u ≤ 0) as Hu.
  { unfold u, double_exponent. change (Z.log2 1) with 0. rewrite Z.sub_0_r. case_match; lia. }
  assert (-1074 ≤ u) as Hu' by (unfold u, double_exponent; lia).
  rewrite (Z.max_l 0 u) by done. change (2 ^ 0) with 1. rewrite !Z.mul_1_r.
  assert (round_even (n * 2 ^ k) 1 = n * 2 ^ k) as ->.
  { unfold round_even. rewrite Z.mod_1_r, Z.div_1_r. done. }
  assert (0 < 2 ^ k) as Hk by (apply Z.pow_pos_nonneg; lia).
  assert (n * 2 ^ k < 2 ^ 1024) as Hsmall.
  { assert (k ≤ 971 ∨ 971 < k) as [Hk'|Hk'] by lia.
    - assert (2 ^ k ≤ 2 ^ 971) by (apply Z.pow_le_mono_r; lia).
      assert (2 ^ 1024 = 2 ^ 53 * 2 ^ 971) by (rewrite <- Z.pow_add_r by lia; done). nia.
    - exfalso. unfold k, u, double_exponent in Hk'. change (Z.log2 1) with 0 in Hk'.
      pose proof (Z.log2_nonneg n). case_match; lia. }
  destruct (2 ^ 1024 <=? n * 2 ^ k) eqn:Hle; bool_to_prop; [lia|].
  unfold integer. cbn [Qnum Qden]. rewrite Z2Pos.id by done.
  replace ((if negative then -1 else 1) * (n * 2 ^ k)) with ((if negative then - n else n) * 2 ^ k)
    by (destruct negative; lia).
  rewrite Z.mod_mul, Z.div_mul by lia. done.
Qed.

(** A safe integer survives being printed and read. *)
Lemma Number_pretty z : Z.abs z < 2 ^ 53 → integer (Number (pretty z)) = Some z.
Proof.
  intros Hz. assert (∀ negative n, 0 ≤ n < 2 ^ 53 →
    pretty n ≠ EmptyString ∧ all_digits (pretty n) = true ∧
    integer (unsigned_literal negative (pretty n)) = Some (if negative then - n else n)) as Hu.
  { intros negative n Hn. destruct (pretty_digits n) as (Ha & k & Hk & Hd); [lia|].
    assert (pretty n ≠ EmptyString) as Hne.
    { intros He. rewrite He in Hd. cbn in Hd. by simplify_eq. }
    split_and!; [done..|]. unfold unsigned_literal. rewrite decide_False.
    - rewrite Hd. destruct (k =? 0) eqn:H0; bool_to_prop; [lia|].
      unfold decimal_double. change (n * 10 ^ Z.max 0 0) with (n * 1). rewrite Z.mul_1_r.
      by apply round_double_exact.
    - intros He. rewrite He in Ha. vm_compute in Ha. discriminate. }
  destruct (Z.lt_ge_cases z 0) as [Hneg|Hpos].
  - destruct (Hu true (- z)) as (Hne & Ha & Hi); [lia|].
    assert (pretty z = String "-" (pretty (- z))) as -> by (destruct z; lia || done).
    rewrite Number_minus, Hi by done. f_equal. lia.
  - destruct (Hu false z) as (Hne & Ha & Hi); [lia|]. by rewrite Number_digits.
Qed.

(** A printed integer has no point in it. *)
Lemma split_digits sep s : decimal_digit sep = None → all_digits s = true → split sep s = [s].
Proof.
  intros Hsep. induction s as [|c s IH]; [done|]. cbn [split all_digits]. intros [[d Hc]%bool_decide_eq_true Hs]%andb_true_iff.
  rewrite decide_False by congruence. by rewrite IH.
Qed.

Lemma split_app sep s t : split sep s = [s] → split sep (s +:+ String sep t) = s :: split sep t.
Proof.
  induction s as [|c s IH]; intros H.
  { change ("" +:+ String sep t) with (String sep t). cbn [split]. by rewrite decide_True. }
  change (String c s +:+ String sep t) with (String c (s +:+ String sep t)). cbn [split] in *.
  case_decide; [done|]. destruct (split sep s) as [|part parts] eqn:He; [by destruct s; cbn in He; repeat case_match|].
  simplify_eq. by rewrite IH.
Qed.

(** Splitting what was joined. *)
Lemma split_join sep l :
  l ≠ [] → Forall (λ s, split sep s = [s]) l → split sep (join (String sep EmptyString) l) = l.
Proof.
  intros Hn Hl. revert Hn. induction Hl as [|s l Hs Hl IH]; [done|]. intros _. destruct l as [|s' l]; [done|].
  change (join _ (s :: s' :: l)) with (s +:+ String sep (join (String sep EmptyString) (s' :: l))).
  by rewrite split_app, IH.
Qed.

Lemma split_pretty (z : Z) : split "." (pretty z) = [pretty z].
Proof.
  destruct (Z.lt_ge_cases z 0) as [Hneg|Hpos].
  - assert (pretty z = String "-" (pretty (- z))) as -> by (destruct z; lia || done).
    cbn. rewrite split_digits; [done..|]. apply pretty_digits. lia.
  - apply split_digits; [done|]. by apply pretty_digits.
Qed.
