(* ===== verification/StateMachine.v ===== *)
(** * The lifecycle framework and the lifecycles of the corridors

    [packages/solver-core/src/core/stateMachine.ts] declares a lifecycle as a
    table from states to specifications and validates it at load time;
    [packages/solver-corridors/src/machines] holds the three Bitcoin
    lifecycles, [core/evmSwapState.ts] the states of the two EVM ones. *)
From S2P Require Import Prelude.

(** ** [defineMachine] and [stepFor] *)

Record StateSpec (S : Type) : Type := mkSpec {
  live : bool;
  exposed : bool;
  (** the additional flags the specification sets to [true] *)
  flags : list string;
  to : list S;
}.
Arguments mkSpec {S} live exposed flags to.
Arguments live {S} s.
Arguments exposed {S} s.
Arguments flags {S} s.
Arguments to {S} s.

(** A table is the object literal given to [defineMachine], in declaration
    order. *)
Definition Table (S : Type) : Type := list (S * StateSpec S).

Inductive MachineError (S : Type) : Type :=
  | ExposedNotLive (state : S)
  | EdgeToUnknown (state to : S)
  | LiveButNoStep (state : S)
  | TerminalButStep (state : S).
Arguments ExposedNotLive {S} state.
Arguments EdgeToUnknown {S} state to.
Arguments LiveButNoStep {S} state.
Arguments TerminalButStep {S} state.

Record StateMachine (S : Type) : Type := mkMachine {
  states : list S;
  live_states : list S;
  exposed_states : list S;
  terminal_states : list S;
  edges : S → list S;
  where_flag : string → list S;
}.
Arguments mkMachine {S} states live_states exposed_states terminal_states edges where_flag.
Arguments states {S} s.
Arguments live_states {S} s.
Arguments exposed_states {S} s.
Arguments terminal_states {S} s.
Arguments edges {S} s.
Arguments where_flag {S} s.

Section define.
Context {S : Type} `{EqDecision S}.

Definition table_lookup (t : Table S) (s : S) : option (StateSpec S) :=
  snd <$> head (filter (λ p, p.1 = s) t).

Definition in_table (t : Table S) (s : S) : bool := bool_decide (s ∈ t.*1).

(** The inner loop of [defineMachine]: the first edge out of the table. *)
Fixpoint check_edges (t : Table S) (from : S) (targets : list S) : result (MachineError S) unit :=
  match targets with
  | [] => Ok tt
  | target :: rest =>
      _ ← throw_if (negb (in_table t target)) (EdgeToUnknown from target);
      check_edges t from rest
  end.

(** The validation loop of [defineMachine]. *)
Fixpoint check_table (t rest : Table S) : result (MachineError S) unit :=
  match rest with
  | [] => Ok tt
  | (s, spec) :: rest =>
      _ ← throw_if (exposed spec && negb (live spec)) (ExposedNotLive s);
      _ ← check_edges t s (to spec);
      check_table t rest
  end.

Definition pick (t : Table S) (test : StateSpec S → bool) : list S :=
  (filter (λ p, test p.2 = true) t).*1.

Definition defineMachine (t : Table S) : result (MachineError S) (StateMachine S) :=
  _ ← check_table t t;
  Ok {|
    states := t.*1;
    live_states := pick t live;
    exposed_states := pick t exposed;
    terminal_states := pick t (λ spec, negb (live spec));
    edges := λ s, from_option to [] (table_lookup t s);
    where_flag := λ flag, pick t (λ spec, bool_decide (flag ∈ flags spec));
  |}.

Definition isLive (m : StateMachine S) (s : S) : bool := bool_decide (s ∈ live_states m).
Definition isTerminal (m : StateMachine S) (s : S) : bool := negb (isLive m s).
Definition isExposed (m : StateMachine S) (s : S) : bool := bool_decide (s ∈ exposed_states m).
Definition canTransition (m : StateMachine S) (from target : S) : bool :=
  bool_decide (target ∈ edges m from).

(** [sqlList], given how a state is spelled. *)
Definition sqlList (name : S → string) (l : list S) : string :=
  String.concat "," ((λ s, "'" +:+ name s +:+ "'") <$> l).

(** The loop of [stepFor]: handlers on exactly the live states. *)
Fixpoint check_handlers {A} (m : StateMachine S) (handlers : S → option A) (l : list S)
  : result (MachineError S) unit :=
  match l with
  | [] => Ok tt
  | s :: rest =>
      _ ← throw_if (negb (eqb (isLive m s) (bool_decide (is_Some (handlers s)))))
            (if isLive m s then LiveButNoStep s else TerminalButStep s);
      check_handlers m handlers rest
  end.

(** [stepFor]: the handlers' results live in the monad [M]; a state without
    a handler answers [false] and does nothing. *)
Definition stepFor {M : Type → Type} `{MRet M} {Row : Type} (state_of : Row → S)
    (m : StateMachine S) (handlers : S → option (Row → M bool))
  : result (MachineError S) (Row → M bool) :=
  _ ← check_handlers m handlers (states m);
  Ok (λ row, match handlers (state_of row) with Some h => h row | None => mret false end).

(** What a table must satisfy, stated independently of the loops. *)
Definition well_formed (t : Table S) : Prop :=
  ∀ s spec, (s, spec) ∈ t →
    (exposed spec = true → live spec = true) ∧ (∀ s', s' ∈ to spec → s' ∈ t.*1).

Lemma check_edges_Ok t from l : check_edges t from l = Ok tt ↔ ∀ s, s ∈ l → s ∈ t.*1.
Proof.
  induction l as [|x l IH]; cbn; [set_solver|].
  unfold in_table. case_bool_decide; cbn; [rewrite IH|]; set_solver.
Qed.

Lemma check_table_Ok t rest :
  check_table t rest = Ok tt ↔
  ∀ s spec, (s, spec) ∈ rest →
    (exposed spec = true → live spec = true) ∧ (∀ s', s' ∈ to spec → s' ∈ t.*1).
Proof.
  induction rest as [|[s spec] rest IH]; cbn.
  { split; [|done]. intros _ s spec Hin. inversion Hin. }
  rewrite bind_Ok. setoid_rewrite bind_Ok. split.
  - intros ([] & H1%throw_if_Ok & [] & H2 & H3) s' spec' Hin. rewrite check_edges_Ok in H2.
    apply elem_of_cons in Hin as [[= -> ->]|Hin]; [|exact (proj1 IH H3 _ _ Hin)].
    split; [|done]. by destruct (exposed spec), (live spec).
  - intros H. exists tt. rewrite throw_if_Ok. split.
    { specialize (H s spec). destruct (exposed spec), (live spec); cbn; [done| |done|done].
      symmetry. apply H; [left|done]. }
    exists tt. rewrite check_edges_Ok, IH. split; [apply (H s spec); left|].
    intros s' spec' Hin. apply (H s' spec'). by right.
Qed.

Lemma elem_of_pick t test s :
  s ∈ pick t test ↔ ∃ spec, (s, spec) ∈ t ∧ test spec = true.
Proof.
  unfold pick. rewrite list_elem_of_fmap. split.
  - intros ([s' spec] & -> & [? ?]%list_elem_of_filter). eauto.
  - intros (spec & Hin & Ht). exists (s, spec). split; [done|].
    by apply list_elem_of_filter.
Qed.
End define.

Section define_theorems.
Context {S : Type} `{EqDecision S}.
Implicit Types (t : Table S) (m : StateMachine S).

Lemma defineMachine_fields t m :
  defineMachine t = Ok m →
  well_formed t ∧ states m = t.*1 ∧ live_states m = pick t live ∧
  exposed_states m = pick t exposed ∧
  (terminal_states m = pick t (λ spec, negb (live spec))) ∧
  edges m = (λ s, from_option to [] (table_lookup t s)).
Proof.
  unfold defineMachine. rewrite bind_Ok. intros ([] & Ht & [= <-]).
  split; [|done]. by rewrite check_table_Ok in Ht.
Qed.

Lemma table_lookup_Some t s spec : table_lookup t s = Some spec → (s, spec) ∈ t.
Proof.
  unfold table_lookup. destruct (filter _ t) as [|[s' spec'] l] eqn:Hf; [done|].
  intros [= <-]. assert ((s', spec') ∈ filter (λ p, p.1 = s) t) as Hin.
  { rewrite Hf. left. }
  apply list_elem_of_filter in Hin as [Heq ?]. cbn in Heq. by subst.
Qed.

Lemma unique_spec t s spec spec' :
  NoDup t.*1 → (s, spec) ∈ t → (s, spec') ∈ t → spec = spec'.
Proof.
  intros Hnd H1 H2. induction t as [|[s0 spec0] t IH]; [inversion H1|].
  cbn in Hnd. apply NoDup_cons in Hnd as [Hnew Hnd].
  assert (∀ spec1, (s0, spec1) ∉ t) as Hout.
  { intros spec1 Hin. apply Hnew, list_elem_of_fmap. by exists (s0, spec1). }
  apply elem_of_cons in H1, H2. naive_solver.
Qed.

(** A table is accepted exactly when it is well formed. *)
Lemma defineMachine_Ok_iff t : (∃ m, defineMachine t = Ok m) ↔ well_formed t.
Proof.
  unfold defineMachine, well_formed. rewrite <- check_table_Ok. split.
  - intros [m Hm]. apply bind_Ok in Hm as ([] & ? & _). done.
  - intros ->. cbn. eauto.
Qed.

(** C40: what every machine built by [defineMachine] guarantees: each declared
    state is exactly one of live and terminal, an exposed state is live, and
    a transition allowed by [canTransition] stays inside the declared
    states. *)
Theorem defineMachine_sound t m :
  NoDup t.*1 → defineMachine t = Ok m →
  (∀ s, s ∈ states m →
     (s ∈ live_states m ∧ s ∉ terminal_states m) ∨ (s ∈ terminal_states m ∧ s ∉ live_states m)) ∧
  (∀ s, isExposed m s = true → isLive m s = true) ∧
  (∀ s s', canTransition m s s' = true → s ∈ states m ∧ s' ∈ states m).
Proof.
  intros Hnd (Hwf & Hst & Hl & He & Ht & Hed)%defineMachine_fields.
  unfold isExposed, isLive, canTransition. rewrite Hst, Hl, He, Ht, Hed.
  split_and!.
  - intros s ([s' spec] & -> & Hin)%list_elem_of_fmap. rewrite !elem_of_pick. cbn.
    destruct (live spec) eqn:Hlive; [left|right]; (split; [|]).
    + eauto.
    + intros (spec' & Hin' & Hn). rewrite (unique_spec t s' spec' spec) in Hn by done.
      by rewrite Hlive in Hn.
    + exists spec. by rewrite Hlive.
    + intros (spec' & Hin' & Hn). rewrite (unique_spec t s' spec' spec) in Hn by done. congruence.
  - intros s Hs%bool_decide_eq_true. apply bool_decide_eq_true.
    apply elem_of_pick in Hs as (spec & Hin & Hx). apply elem_of_pick.
    exists spec. split; [done|]. by apply (Hwf s spec Hin).
  - intros s s' Hs%bool_decide_eq_true. destruct (table_lookup t s) as [spec|] eqn:Hlk;
      cbn in Hs; [|inversion Hs].
    apply table_lookup_Some in Hlk. split; [apply list_elem_of_fmap; by exists (s, spec)|].
    by apply (Hwf s spec Hlk).
Qed.

Lemma check_handlers_Ok {A} m (handlers : S → option A) l :
  check_handlers m handlers l = Ok tt ↔
  ∀ s, s ∈ l → isLive m s = true ↔ is_Some (handlers s).
Proof.
  induction l as [|x l IH]; cbn; [set_solver|]. rewrite bind_Ok. split.
  - intros ([] & Hx%throw_if_Ok & Hl) s Hs. rewrite IH in Hl.
    apply elem_of_cons in Hs as [->|Hs]; [|by apply Hl].
    apply negb_false_iff, eqb_prop in Hx. rewrite Hx. by rewrite bool_decide_eq_true.
  - intros Hall. exists tt. rewrite throw_if_Ok, IH. split; [|set_solver].
    specialize (Hall x ltac:(left)). apply negb_false_iff, eqb_true_iff.
    case_bool_decide; [by apply Hall|]. destruct (isLive m x); [|done]. by exfalso; apply H, Hall.
Qed.

(** [stepFor] accepts a handler table exactly when the live states, and no
    others, have a step; the dispatcher it then returns runs the handler of
    a live row and leaves a terminal row alone, answering [false]. *)
Theorem stepFor_dispatch {M : Type → Type} `{MRet M} {Row} (state_of : Row → S)
    m (handlers : S → option (Row → M bool)) :
  (∀ step, stepFor state_of m handlers = Ok step →
     ∀ row, state_of row ∈ states m →
       if isLive m (state_of row)
       then (∃ h, handlers (state_of row) = Some h ∧ step row = h row)
       else step row = mret false) ∧
  ((∃ step, stepFor state_of m handlers = Ok step) ↔
   ∀ s, s ∈ states m → isLive m s = true ↔ is_Some (handlers s)).
Proof.
  rewrite <- check_handlers_Ok. unfold stepFor. split.
  - intros step ([] & Hc & [= <-])%bind_Ok row Hrow. rewrite check_handlers_Ok in Hc.
    specialize (Hc _ Hrow). destruct (isLive m (state_of row)).
    + destruct (proj1 Hc eq_refl) as [h Hh]. exists h. by rewrite Hh.
    + destruct (handlers (state_of row)); [|done]. discriminate (proj2 Hc (mk_is_Some _ _ eq_refl)).
  - split; [intros [? ([] & ? & _)%bind_Ok]; done|]. intros ->. cbn. eauto.
Qed.
End define_theorems.

(** ** The Lightning receive lifecycle, [machines/lnReceive.ts] *)
Module LnReceive.
Inductive state :=
  | quoted | armed | funded | claimed | refunding | settled | refunded | refused | stuck.
#[global] Instance state_eq_dec : EqDecision state.
Proof. solve_decision. Defined.

Definition table : Table state := [
  (quoted, mkSpec true false [] [armed; refused]);
  (armed, mkSpec true false [] [funded; refused; stuck]);
  (funded, mkSpec true true [] [claimed; refunding; refunded; stuck]);
  (claimed, mkSpec true true [] [settled; stuck]);
  (refunding, mkSpec true true [] [refunded; claimed; stuck]);
  (settled, mkSpec false false [] []);
  (refunded, mkSpec false false [] []);
  (refused, mkSpec false false [] []);
  (stuck, mkSpec false false [] [])
].
End LnReceive.

(** ** The Lightning send lifecycle, [machines/lnSend.ts] *)
Module LnSend.
Inductive state :=
  | quoted | funded | paying | paid | claiming | claimed | refused | stuck.
#[global] Instance state_eq_dec : EqDecision state.
Proof. solve_decision. Defined.

Definition table : Table state := [
  (quoted, mkSpec true false [] [funded; refused]);
  (funded, mkSpec true false [] [paying; claiming; refused]);
  (paying, mkSpec true true [] [paid; stuck; refused]);
  (paid, mkSpec true true [] [claiming; stuck; refused]);
  (claiming, mkSpec true true [] [claimed; stuck]);
  (claimed, mkSpec false false [] []);
  (refused, mkSpec false false [] []);
  (stuck, mkSpec false false [] [claiming; refused])
].
End LnSend.

(** ** The onchain send lifecycle, [machines/onchainSend.ts] *)
Module OnchainSend.
Inductive state :=
  | quoted | funded | funding_onchain | awaiting_claim | claiming | refunding_onchain
  | claimed | refunded | refused | stuck.
#[global] Instance state_eq_dec : EqDecision state.
Proof. solve_decision. Defined.

Definition table : Table state := [
  (quoted, mkSpec true false ["owesPayout"] [funded; refused]);
  (funded, mkSpec true false ["owesPayout"; "outgoing"] [funding_onchain; refused]);
  (funding_onchain,
    mkSpec true true ["owesPayout"; "outgoing"] [awaiting_claim; refused; stuck]);
  (awaiting_claim, mkSpec true true ["outgoing"] [claiming; refunding_onchain; stuck]);
  (claiming, mkSpec true true ["outgoing"] [claimed; stuck]);
  (refunding_onchain, mkSpec true true ["outgoing"] [claiming; refunded; stuck]);
  (claimed, mkSpec false false [] []);
  (refunded, mkSpec false false [] []);
  (refused, mkSpec false false [] []);
  (stuck, mkSpec false false ["outgoing"] [claiming])
].
End OnchainSend.

(** Every constructor of a lifecycle is one of its declared states. *)
Ltac all_states := intros []; apply list_elem_of_In; vm_compute; tauto.

(** A machine of a table that is known to be accepted. *)
Definition machine_of {S} `{EqDecision S} (t : Table S) : StateMachine S :=
  match defineMachine t with
  | Ok m => m
  | Err _ => mkMachine [] [] [] [] (λ _, []) (λ _, [])
  end.

Definition LnReceiveMachine := machine_of LnReceive.table.
Definition LnSendMachine := machine_of LnSend.table.
Definition OnchainSendMachine := machine_of OnchainSend.table.

(** ** The EVM lifecycles, [core/evmSwapState.ts] *)
Module EvmSend.
Inductive state :=
  | quoted | funded | locking_evm | awaiting_claim | claiming | claimed | refunding_evm
  | refunded | refused | stuck.
#[global] Instance state_eq_dec : EqDecision state.
Proof. solve_decision. Defined.

Definition EVM_SEND_NON_TERMINAL : list state :=
  [quoted; funded; locking_evm; awaiting_claim; claiming; refunding_evm].
Definition EVM_SEND_EXPOSED : list state :=
  [locking_evm; awaiting_claim; claiming; refunding_evm].
End EvmSend.

Module EvmReceive.
Inductive state :=
  | quoted | awaiting_lock | locked | funding_arkade | awaiting_claim | claiming | claimed
  | refunding_arkade | refunded | refused | stuck.
#[global] Instance state_eq_dec : EqDecision state.
Proof. solve_decision. Defined.

Definition EVM_RECEIVE_NON_TERMINAL : list state :=
  [quoted; awaiting_lock; locked; funding_arkade; awaiting_claim; claiming; refunding_arkade].
Definition EVM_RECEIVE_EXPOSED : list state :=
  [funding_arkade; awaiting_claim; claiming; refunding_arkade].
End EvmReceive.

Section lifecycles.
Context {S : Type} `{EqDecision S}.

(** One legal transition of a machine. *)
Definition legal (m : StateMachine S) (s s' : S) : Prop := canTransition m s s' = true.

(** [forward m rank]: legal transitions never decrease [rank], except out of
    a state a human put aside. *)
Definition step_ranks (m : StateMachine S) (rank : S → nat) (aside : S → bool) : bool :=
  forallb (λ s, aside s || forallb (λ s', Nat.ltb (rank s) (rank s')) (edges m s)) (states m).

Lemma step_ranks_spec m rank aside s s' :
  step_ranks m rank aside = true → s ∈ states m → legal m s s' → aside s = false →
  (rank s < rank s')%nat.
Proof.
  unfold step_ranks, legal, canTransition. rewrite bool_decide_eq_true, forallb_forall.
  intros Hall Hs Hs' Ha. specialize (Hall s (proj1 (list_elem_of_In _ _) Hs)).
  rewrite Ha in Hall. cbn in Hall. rewrite forallb_forall in Hall.
  apply Nat.ltb_lt, Hall. by apply list_elem_of_In.
Qed.
End lifecycles.

(** The three tables are accepted, so [machine_of] never falls back. *)
Lemma lifecycles_defined :
  defineMachine LnReceive.table = Ok LnReceiveMachine ∧
  defineMachine LnSend.table = Ok LnSendMachine ∧
  defineMachine OnchainSend.table = Ok OnchainSendMachine.
Proof. done. Qed.

(** A state that owes nothing any more, or is counted as exposed. *)
Definition exposed_or_closed {S} `{EqDecision S} (m : StateMachine S) (s : S) : bool :=
  isExposed m s || isTerminal m s.

(** Every edge out of a state satisfying [P] leads to one. *)
Definition closed_under {S} (m : StateMachine S) (P : S → bool) : bool :=
  forallb (λ s, implb (P s) (forallb P (edges m s))) (states m).

Lemma closed_under_rtc {S} `{EqDecision S} (m : StateMachine S) (P : S → bool) s s' :
  (∀ x, x ∈ states m) → closed_under m P = true → rtc (legal m) s s' → P s = true → P s' = true.
Proof.
  intros Hall Hc. apply (rtc_invariant _ (λ x, P x = true)). intros x y Hxy Hx.
  unfold closed_under in Hc. rewrite forallb_forall in Hc.
  specialize (Hc x (proj1 (list_elem_of_In _ _) (Hall x))). rewrite Hx in Hc. cbn in Hc.
  rewrite forallb_forall in Hc. apply Hc, list_elem_of_In.
  by apply bool_decide_eq_true in Hxy.
Qed.

Lemma defineMachine_sound_witness :
  NoDup LnSend.table.*1 ∧ defineMachine LnSend.table = Ok LnSendMachine ∧
  isLive LnSendMachine LnSend.claiming = true.
Proof.
  assert (NoDup LnSend.table.*1) as Hn by (apply (bool_decide_unpack _); vm_compute; exact I).
  assert (defineMachine LnSend.table = Ok LnSendMachine) as Hd by reflexivity.
  split; [exact Hn|]. split; [exact Hd|].
  apply (proj1 (proj2 (defineMachine_sound _ _ Hn Hd))). reflexivity.
Defined.

(** Once the solver is exposed, no sequence of legal transitions brings the
    row back to a live state in which it counts as unexposed: it stays exposed
    until it is terminal. True of the three Bitcoin lifecycles, the operator's
    recovery edges out of [stuck] included. *)
Theorem exposure_irrevocable :
  (∀ s s', rtc (legal LnReceiveMachine) s s' → isExposed LnReceiveMachine s = true →
     exposed_or_closed LnReceiveMachine s' = true) ∧
  (∀ s s', rtc (legal LnSendMachine) s s' → isExposed LnSendMachine s = true →
     exposed_or_closed LnSendMachine s' = true) ∧
  (∀ s s', rtc (legal OnchainSendMachine) s s' → isExposed OnchainSendMachine s = true →
     exposed_or_closed OnchainSendMachine s' = true).
Proof.
  split_and!; intros s s' Hr Hs;
    refine (closed_under_rtc _ (exposed_or_closed _) s s' _ _ Hr _);
    first [by vm_compute | by unfold exposed_or_closed; rewrite Hs | all_states].
Qed.

(** Ranks that every unattended transition increases. *)
Definition rank_receive (s : LnReceive.state) : nat :=
  match s with
  | LnReceive.quoted => 0 | LnReceive.armed => 1 | LnReceive.funded => 2
  | LnReceive.refunding => 3 | LnReceive.claimed => 4 | _ => 5
  end.
Definition rank_send (s : LnSend.state) : nat :=
  match s with
  | LnSend.quoted => 0 | LnSend.funded => 1 | LnSend.paying => 2 | LnSend.paid => 3
  | LnSend.claiming => 4 | _ => 5
  end.
Definition rank_onchain (s : OnchainSend.state) : nat :=
  match s with
  | OnchainSend.quoted => 0 | OnchainSend.funded => 1 | OnchainSend.funding_onchain => 2
  | OnchainSend.awaiting_claim => 3 | OnchainSend.refunding_onchain => 4
  | OnchainSend.claiming => 5 | _ => 6
  end.

(** A transition the program takes on its own, that is not out of [stuck]. *)
Definition unattended {S} `{EqDecision S} (m : StateMachine S) (stuck : S) (s s' : S) : Prop :=
  legal m s s' ∧ s ≠ stuck.

Lemma ranked_path_bounded {S} `{EqDecision S} (m : StateMachine S) (stuck : S) (rank : S → nat) n s s' :
  (∀ x, x ∈ states m) → step_ranks m rank (λ x, bool_decide (x = stuck)) = true →
  nsteps (unattended m stuck) n s s' → (rank s + n ≤ rank s')%nat.
Proof.
  intros Hall Hr. induction 1 as [|n x y z [Hxy Hx] _ IH]; [lia|].
  pose proof (step_ranks_spec m rank _ x y Hr (Hall x) Hxy ltac:(by apply bool_decide_eq_false)).
  lia.
Qed.

(** A swap cannot cycle on its own: without an operator taking it out of
    [stuck], a Lightning swap makes at most five transitions and an onchain one
    at most six, so every sequence of sweeps ends. *)
Theorem lifecycle_bounded :
  (∀ n s s', nsteps (unattended LnReceiveMachine LnReceive.stuck) n s s' → (n ≤ 5)%nat) ∧
  (∀ n s s', nsteps (unattended LnSendMachine LnSend.stuck) n s s' → (n ≤ 5)%nat) ∧
  (∀ n s s', nsteps (unattended OnchainSendMachine OnchainSend.stuck) n s s' → (n ≤ 6)%nat).
Proof.
  split_and!; intros n s s' Hp.
  - pose proof (ranked_path_bounded LnReceiveMachine LnReceive.stuck rank_receive n s s' ltac:(all_states)
      ltac:(by vm_compute) Hp). destruct s'; cbn in *; lia.
  - pose proof (ranked_path_bounded LnSendMachine LnSend.stuck rank_send n s s' ltac:(all_states)
      ltac:(by vm_compute) Hp). destruct s'; cbn in *; lia.
  - pose proof (ranked_path_bounded OnchainSendMachine OnchainSend.stuck rank_onchain n s s' ltac:(all_states)
      ltac:(by vm_compute) Hp). destruct s'; cbn in *; lia.
Qed.
