(* ===== verification/Timelocks.v ===== *)
(** * Timelock arithmetic

    [packages/solver-core/src/core/timelocks.ts]: BIP68 relative delays and
    BIP65 absolute locktimes, both self-describing (the unit is read off the
    magnitude), the ladder of unilateral delays of a covenant, and the
    conversions between block heights and unix seconds. *)
From S2P Require Import Prelude.

Definition LOCKTIME_THRESHOLD : Z := 500000000.
Definition SEQUENCE_GRANULARITY_SECONDS : Z := 512.
Definition NOMINAL_BLOCK_SECONDS : Z := 600.
Definition MINUTE : Z := 60.
Definition HOUR : Z := 60 * MINUTE.

Inductive TimelockUnit := seconds | blocks.
#[global] Instance TimelockUnit_eq_dec : EqDecision TimelockUnit.
Proof. solve_decision. Defined.

Record RelativeDelay := mkRelativeDelay { unit_of : TimelockUnit; value : Z }.

Definition relativeDelayFrom (raw : Z) : RelativeDelay :=
  {| unit_of := if raw >=? SEQUENCE_GRANULARITY_SECONDS then seconds else blocks; value := raw |}.

Definition relativeDelaySeconds (delay : RelativeDelay) : Z :=
  match unit_of delay with
  | seconds => value delay
  | blocks => value delay * NOMINAL_BLOCK_SECONDS
  end.

Definition rawDelaySeconds (raw : Z) : Z := relativeDelaySeconds (relativeDelayFrom raw).

Definition isEncodableRelativeDelay (s : num) : bool :=
  match integer s with
  | Some z => (z >? 0) && (Z.rem z SEQUENCE_GRANULARITY_SECONDS =? 0)
  | None => false
  end.

(** [isEncodableDelay] on an integer, the only kind its callers build. *)
Definition isEncodableDelay (raw : Z) : bool :=
  match unit_of (relativeDelayFrom raw) with
  | blocks => raw >? 0
  | seconds => isEncodableRelativeDelay (of_Z raw)
  end.

Record UnilateralDelays := mkDelays {
  unilateralClaimDelay : Z;
  unilateralRefundDelay : Z;
  unilateralRefundWithoutReceiverDelay : Z;
}.

Definition SOLO_REFUND_HEADROOM_SECONDS : Z := 8 * SEQUENCE_GRANULARITY_SECONDS.
Definition SOLO_REFUND_HEADROOM_BLOCKS : Z := 8.
Definition MAX_BIP68_SECONDS : Z := 65535 * SEQUENCE_GRANULARITY_SECONDS.
Definition MAX_BIP68_BLOCKS : Z := SEQUENCE_GRANULARITY_SECONDS - SOLO_REFUND_HEADROOM_BLOCKS - 1.

Definition ceilToGranularity (s : Z) : Z :=
  ceil_div s SEQUENCE_GRANULARITY_SECONDS * SEQUENCE_GRANULARITY_SECONDS.

Definition secondsForBlockRung (n : Z) : Z := ceilToGranularity (n * NOMINAL_BLOCK_SECONDS).

Inductive TimelockError :=
  | ExitDelayNotPositive (got : num)
  | ExitDelayNotWhole (got : num)
  | ExitDelayBlocksTooLarge (got : Z)
  | ExitDelaySecondsTooLarge (got : Z)
  | LocktimeNotInteger (label : string) (got : num)
  | LocktimeNotPositive (label : string) (got : Z)
  | LocktimeReadsAsHeight (label : string) (got : Z)
  | LocktimeReadsAsSeconds (label : string) (got : Z)
  | RefundHeightReadsAsSeconds (height : Z)
  | LadderMixesUnits (base : UnilateralDelays)
  | HorizonUnencodable (delay : Z).

Definition deriveUnilateralDelays (serverExitDelay : num) : result TimelockError UnilateralDelays :=
  _ ← throw_if (negb (isFinite serverExitDelay) || num_le serverExitDelay (of_Z 0))
        (ExitDelayNotPositive serverExitDelay);
  match integer serverExitDelay with
  | None => Err (ExitDelayNotWhole serverExitDelay)
  | Some delay =>
      match unit_of (relativeDelayFrom delay) with
      | blocks =>
          _ ← throw_if (delay >? MAX_BIP68_BLOCKS) (ExitDelayBlocksTooLarge delay);
          Ok {| unilateralClaimDelay := delay;
                unilateralRefundDelay := delay;
                unilateralRefundWithoutReceiverDelay := delay + SOLO_REFUND_HEADROOM_BLOCKS |}
      | seconds =>
          _ ← throw_if (delay >? MAX_BIP68_SECONDS) (ExitDelaySecondsTooLarge delay);
          let base := ceilToGranularity delay in
          Ok {| unilateralClaimDelay := base;
                unilateralRefundDelay := base;
                unilateralRefundWithoutReceiverDelay := base + SOLO_REFUND_HEADROOM_SECONDS |}
      end
  end.

Definition absoluteLocktimeUnit (locktime : Z) : TimelockUnit :=
  if locktime >=? LOCKTIME_THRESHOLD then seconds else blocks.

Definition assertAbsoluteLocktime (locktime : num) (label : string) (expected : TimelockUnit)
  : result TimelockError unit :=
  match integer locktime with
  | None => Err (LocktimeNotInteger label locktime)
  | Some l =>
      _ ← throw_if (l <=? 0) (LocktimeNotPositive label l);
      if decide (absoluteLocktimeUnit l = expected) then Ok tt
      else match expected with
           | seconds => Err (LocktimeReadsAsHeight label l)
           | blocks => Err (LocktimeReadsAsSeconds label l)
           end
  end.

Record ChainMoment := mkMoment { now : Z; tipHeight : Z }.

Definition absoluteLocktimeSeconds (locktime : Z) (at_ : ChainMoment) : Z :=
  match absoluteLocktimeUnit locktime with
  | seconds => locktime
  | blocks => now at_ + (locktime - tipHeight at_) * NOMINAL_BLOCK_SECONDS
  end.

Definition absoluteLocktimeReached (locktime : Z) (at_ : ChainMoment) : bool :=
  match absoluteLocktimeUnit locktime with
  | seconds => now at_ >=? locktime
  | blocks => tipHeight at_ >=? locktime
  end.

Definition absoluteLocktimeIn (deadlineSeconds : Z) (u : TimelockUnit) (at_ : ChainMoment)
  : result TimelockError Z :=
  match u with
  | seconds => Ok deadlineSeconds
  | blocks =>
      let height := tipHeight at_ + ceil_div (deadlineSeconds - now at_) NOMINAL_BLOCK_SECONDS in
      _ ← throw_if (height >=? LOCKTIME_THRESHOLD) (RefundHeightReadsAsSeconds height);
      Ok height
  end.

(** ** Unfolding of the constants and of the unit tests *)

Ltac unfold_timelocks :=
  unfold rawDelaySeconds, relativeDelaySeconds, relativeDelayFrom, secondsForBlockRung,
    absoluteLocktimeUnit, SOLO_REFUND_HEADROOM_SECONDS, MAX_BIP68_SECONDS, MAX_BIP68_BLOCKS,
    SOLO_REFUND_HEADROOM_BLOCKS, SEQUENCE_GRANULARITY_SECONDS, LOCKTIME_THRESHOLD,
    NOMINAL_BLOCK_SECONDS, HOUR, MINUTE in *; cbn in *.

Lemma rawDelaySeconds_blocks raw : raw < 512 → rawDelaySeconds raw = raw * 600.
Proof. intros. unfold_timelocks. solve_gate. Qed.

Lemma rawDelaySeconds_seconds raw : 512 ≤ raw → rawDelaySeconds raw = raw.
Proof. intros. unfold_timelocks. solve_gate. Qed.

Lemma rawDelaySeconds_nonneg raw : 0 ≤ raw → 0 ≤ rawDelaySeconds raw.
Proof. intros. unfold_timelocks. solve_gate. Qed.

(** The deadline arithmetic never reads a delay as shorter than the raw value. *)
Lemma rawDelaySeconds_ge raw : 0 ≤ raw → raw ≤ rawDelaySeconds raw.
Proof. intros. unfold_timelocks. solve_gate. Qed.

Lemma ceilToGranularity_spec s :
  s ≤ ceilToGranularity s < s + 512 ∧ (512 | ceilToGranularity s).
Proof.
  unfold ceilToGranularity, SEQUENCE_GRANULARITY_SECONDS.
  pose proof (ceil_div_spec s 512 ltac:(lia)). split; [lia|]. by eexists.
Qed.

Lemma ceilToGranularity_mono s s' : s ≤ s' → ceilToGranularity s ≤ ceilToGranularity s'.
Proof.
  intros. unfold ceilToGranularity, SEQUENCE_GRANULARITY_SECONDS.
  pose proof (ceil_div_mono s s' 512 ltac:(lia) ltac:(lia)). lia.
Qed.

Lemma isEncodableDelay_iff raw :
  isEncodableDelay raw = true ↔ 0 < raw ∧ (512 ≤ raw → (512 | raw)).
Proof.
  unfold isEncodableDelay, isEncodableRelativeDelay, relativeDelayFrom, SEQUENCE_GRANULARITY_SECONDS.
  cbn [unit_of]. rewrite integer_of_Z, Z.geb_leb, !Z.gtb_ltb.
  destruct (512 <=? raw) eqn:Hu; bool_to_prop.
  - rewrite andb_true_iff, Z.ltb_lt, Z.eqb_eq. split; intros [H1 H2]; split; [done| |done|].
    + intros _. by apply Z.rem_divide.
    + apply Z.rem_divide; [done|]. apply H2. lia.
  - rewrite Z.ltb_lt. lia.
Qed.

(** ** The ladder *)

(** [deriveUnilateralDelays] on a whole number: it answers exactly for 1 to
    503 blocks and for 512 to 0xffff * 512 seconds. The claim and the
    two-signature refund are level and open no earlier than the server's own
    minimum; the funder's solo refund opens at least 4096 seconds of wall clock
    after them; every rung is in the unit of the base, and the two lower rungs
    are encodable. *)
Theorem deriveUnilateralDelays_spec (d : Z) :
  ((∃ l, deriveUnilateralDelays (of_Z d) = Ok l) ↔ 0 < d ≤ 503 ∨ 512 ≤ d ≤ 33553920) ∧
  (∀ l, deriveUnilateralDelays (of_Z d) = Ok l →
     unilateralClaimDelay l = unilateralRefundDelay l ∧
     rawDelaySeconds d ≤ rawDelaySeconds (unilateralClaimDelay l) ∧
     rawDelaySeconds (unilateralClaimDelay l) + 4096 ≤
       rawDelaySeconds (unilateralRefundWithoutReceiverDelay l) ∧
     unit_of (relativeDelayFrom (unilateralClaimDelay l)) = unit_of (relativeDelayFrom d) ∧
     unit_of (relativeDelayFrom (unilateralRefundWithoutReceiverDelay l)) =
       unit_of (relativeDelayFrom d) ∧
     isEncodableDelay (unilateralClaimDelay l) = true ∧
     isEncodableDelay (unilateralRefundWithoutReceiverDelay l) = true).
Proof.
  pose proof (ceilToGranularity_spec d) as [Hc [k Hk]].
  unfold deriveUnilateralDelays. rewrite integer_of_Z, num_le_of_Z. cbn [isFinite of_Z negb orb].
  destruct (d <=? 0) eqn:H0; bool_to_prop; cbn [throw_if mbind result_bind].
  { split; [split; [intros [? [=]]|lia]|done]. }
  unfold throw_if.
  destruct (unit_of (relativeDelayFrom d)) eqn:Hu;
    unfold relativeDelayFrom, SEQUENCE_GRANULARITY_SECONDS in Hu; cbn in Hu;
    (case_match eqn:Hge; try discriminate Hu); rewrite Z.geb_leb in Hge; bool_to_prop;
    unfold MAX_BIP68_SECONDS, MAX_BIP68_BLOCKS, SEQUENCE_GRANULARITY_SECONDS,
      SOLO_REFUND_HEADROOM_BLOCKS, SOLO_REFUND_HEADROOM_SECONDS, SEQUENCE_GRANULARITY_SECONDS;
    cbn; case_match eqn:Hmax; rewrite Z.gtb_ltb in Hmax; bool_to_prop; cbn.
  all: split; [split; [intros [? [=]]; lia | intros; first [lia | by eexists]] |].
  all: intros l [= <-]; cbn; rewrite !isEncodableDelay_iff.
  - rewrite !rawDelaySeconds_seconds by lia.
    unfold relativeDelayFrom, SEQUENCE_GRANULARITY_SECONDS; cbn.
    split_and!; [done|lia|lia| | |lia| |lia|].
    + case_match; [done|]. rewrite Z.geb_leb in *; bool_to_prop; lia.
    + case_match; [done|]. rewrite Z.geb_leb in *; bool_to_prop; lia.
    + intros _. by exists k.
    + intros _. exists (k + 8). lia.
  - rewrite !rawDelaySeconds_blocks by lia.
    unfold relativeDelayFrom, SEQUENCE_GRANULARITY_SECONDS; cbn.
    split_and!; try lia; try done; (case_match; [|done]; rewrite Z.geb_leb in *; bool_to_prop; lia).
Qed.

(** C38: the guard of [deriveUnilateralDelays] on the seconds side bounds the base
    rung, not the top one: the largest accepted server delays give a solo
    refund past the longest relative timelock BIP68 can encode, and every base
    up to 4096 seconds below the bound does not. *)
Theorem solo_rung_bip68_bound (d : Z) :
  512 ≤ d ≤ MAX_BIP68_SECONDS →
  ∃ l, deriveUnilateralDelays (of_Z d) = Ok l ∧
       (unilateralRefundWithoutReceiverDelay l ≤ MAX_BIP68_SECONDS ↔
        d ≤ MAX_BIP68_SECONDS - SOLO_REFUND_HEADROOM_SECONDS).
Proof.
  intros Hd. pose proof (ceilToGranularity_spec d) as [Hc [k Hk]].
  unfold deriveUnilateralDelays, relativeDelayFrom, throw_if.
  rewrite integer_of_Z, num_le_of_Z. cbn [isFinite of_Z negb orb unit_of].
  unfold MAX_BIP68_SECONDS, SOLO_REFUND_HEADROOM_SECONDS, SEQUENCE_GRANULARITY_SECONDS in *.
  rewrite (proj2 (Z.leb_gt d 0)), Z.geb_leb, (proj2 (Z.leb_le 512 d)) by lia. cbn.
  rewrite Z.gtb_ltb, (proj2 (Z.ltb_ge _ d)) by lia. cbn. eexists. split; [done|]. cbn. lia.
Qed.

Lemma solo_rung_bip68_bound_witness :
  512 ≤ 33553920 ≤ MAX_BIP68_SECONDS ∧
  ∃ l, deriveUnilateralDelays (of_Z 33553920) = Ok l ∧
       (unilateralRefundWithoutReceiverDelay l ≤ MAX_BIP68_SECONDS ↔
        33553920 ≤ MAX_BIP68_SECONDS - SOLO_REFUND_HEADROOM_SECONDS).
Proof. split; [by vm_compute|]. apply (solo_rung_bip68_bound 33553920). by vm_compute. Defined.

(** ** Absolute locktimes *)

(** [assertAbsoluteLocktime] accepts exactly the positive integers a verifier
    reads in the unit meant. *)
Theorem assertAbsoluteLocktime_iff (n : num) (label : string) (u : TimelockUnit) :
  assertAbsoluteLocktime n label u = Ok tt ↔
  ∃ l, integer n = Some l ∧ 0 < l ∧
       (u = seconds → 500000000 ≤ l) ∧ (u = blocks → l < 500000000).
Proof.
  unfold assertAbsoluteLocktime. destruct (integer n) as [l|]; [|naive_solver].
  unfold absoluteLocktimeUnit, LOCKTIME_THRESHOLD, throw_if.
  rewrite Z.geb_leb. destruct (l <=? 0) eqn:H0; bool_to_prop; cbn.
  { split; [done|]. intros (? & [= <-] & ? & _). lia. }
  destruct u, (500000000 <=? l) eqn:Ht; bool_to_prop; cbn;
    (split; [intros Heq; try discriminate Heq; exists l; split_and!; done || lia
            | intros (? & [= <-] & ? & Hs & Hb); try done;
              first [specialize (Hs eq_refl) | specialize (Hb eq_refl)]; lia]).
Qed.

Lemma assert_seconds_Ok l label :
  assertAbsoluteLocktime (of_Z l) label seconds = Ok tt ↔ LOCKTIME_THRESHOLD ≤ l.
Proof.
  unfold assertAbsoluteLocktime, absoluteLocktimeUnit, LOCKTIME_THRESHOLD, throw_if.
  rewrite integer_of_Z, Z.geb_leb.
  destruct (l <=? 0) eqn:H0, (500000000 <=? l) eqn:Ht; bool_to_prop; cbn; split; done || lia.
Qed.

(** A deadline converted with [absoluteLocktimeIn] is read back in the unit it
    was written in, at most 600 seconds later than the deadline and never
    earlier; and when the chain has not moved, [absoluteLocktimeReached] on it
    is the clock having passed that projection. *)
Theorem absoluteLocktimeIn_roundtrip (deadline : Z) (u : TimelockUnit) (at_ : ChainMoment) (l : Z) :
  500000000 ≤ deadline → absoluteLocktimeIn deadline u at_ = Ok l →
  absoluteLocktimeUnit l = u ∧
  deadline ≤ absoluteLocktimeSeconds l at_ < deadline + 600 ∧
  (absoluteLocktimeReached l at_ = true ↔ absoluteLocktimeSeconds l at_ ≤ now at_).
Proof.
  unfold absoluteLocktimeIn, absoluteLocktimeReached, absoluteLocktimeSeconds, throw_if. intros Hd.
  assert (absoluteLocktimeUnit deadline = seconds) as Hu.
  { unfold absoluteLocktimeUnit, LOCKTIME_THRESHOLD. solve_gate. }
  destruct u; cbn.
  - intros [= <-]. rewrite Hu, Z.geb_leb, Z.leb_le. split_and!; [done|lia..].
  - pose proof (ceil_div_spec (deadline - now at_) 600 ltac:(lia)) as Hc.
    unfold NOMINAL_BLOCK_SECONDS. case_match eqn:Hh; [done|]. intros [= <-].
    assert (absoluteLocktimeUnit (tipHeight at_ + ceil_div (deadline - now at_) 600) = blocks) as Hb.
    { unfold absoluteLocktimeUnit. by rewrite Hh. }
    rewrite Hb, Z.geb_leb, Z.leb_le. split_and!; [done|lia..].
Qed.

Lemma absoluteLocktimeIn_roundtrip_witness :
  500000000 ≤ 1700000000 ∧
  absoluteLocktimeIn 1700000000 blocks (mkMoment 1699990000 850000) = Ok 850017 ∧
  absoluteLocktimeUnit 850017 = blocks ∧
  1700000000 ≤ absoluteLocktimeSeconds 850017 (mkMoment 1699990000 850000) < 1700000000 + 600 ∧
  (absoluteLocktimeReached 850017 (mkMoment 1699990000 850000) = true ↔
   absoluteLocktimeSeconds 850017 (mkMoment 1699990000 850000) ≤ 1699990000).
Proof.
  split; [lia|]. split; [by vm_compute|].
  apply (absoluteLocktimeIn_roundtrip 1700000000 blocks (mkMoment 1699990000 850000) 850017);
    [lia|by vm_compute].
Defined.
