(* ===== verification/SendPolicy.v ===== *)
(** * The money gates of the Lightning send leg

    [packages/solver-core/src/core/send.ts]: the refund deadline quoted to the
    client, the CLTV ceiling a payment is made with, the ladder of covenant
    delays of a quote, and the two decisions — quoting a swap, and paying its
    invoice. *)
From S2P Require Import Prelude Timelocks.

Definition MIN_INVOICE_WINDOW : Z := 2 * MINUTE.
Definition MIN_CLAIM_WINDOW : Z := 90 * MINUTE.
Definition DEFAULT_LOCKUP_TIMEOUT : Z := 15 * MINUTE.
Definition SECONDS_PER_BLOCK : Z := 10 * MINUTE.
Definition ROUTE_CLTV_BUDGET_BLOCKS : Z := 432.
Definition REFUND_SAFETY_MARGIN : Z := 2 * HOUR.
Definition UNENFORCED_ROUTE_CLTV_BUDGET_BLOCKS : Z := 2016.
Definition MAX_LOCKUP_TIMEOUT : Z := REFUND_SAFETY_MARGIN.
(** [invoice/decode.ts] *)
Definition MAX_CLIENT_CLTV_BLOCKS : Z := 288.

(** ** Coupled deadlines *)

Inductive CouplingDeadlineDecision := Couple | CoupledDeadlineUnsafe.

Definition evaluateCouplingDeadlines (sendRefundLocktime receiveRefundLocktime : Z)
  : CouplingDeadlineDecision :=
  if sendRefundLocktime - receiveRefundLocktime >=? MIN_CLAIM_WINDOW then Couple
  else CoupledDeadlineUnsafe.

(** ** Deadlines *)

Definition lockupDeadlineFor (quotedAt invoiceExpiresAt lockupTimeout : Z) : Z :=
  Z.min (quotedAt + lockupTimeout) (invoiceExpiresAt - MIN_INVOICE_WINDOW).

Record HtlcCltv := mkHtlcCltv {
  minFinalCltvBlocks : Z;
  worstRouteHintCltvBlocks : Z;
  bestRouteHintCltvBlocks : Z;
  routeCltvBudgetBlocks : Z;
  enforcesRouteCltv : bool;
}.

Definition hintCltvBlocks (cltv : HtlcCltv) : Z :=
  if enforcesRouteCltv cltv then bestRouteHintCltvBlocks cltv else worstRouteHintCltvBlocks cltv.

Definition worstCaseHtlcBlocks (cltv : HtlcCltv) : Z :=
  minFinalCltvBlocks cltv + hintCltvBlocks cltv + routeCltvBudgetBlocks cltv.

Definition payableCltvBlocks (cltv : HtlcCltv) (refundLocktime now : Z) : Z :=
  Z.min (worstCaseHtlcBlocks cltv)
        ((refundLocktime - now - REFUND_SAFETY_MARGIN) / SECONDS_PER_BLOCK).

Definition deadlineContainsHtlc (cltv : HtlcCltv) (refundLocktime now : Z) : bool :=
  payableCltvBlocks cltv refundLocktime now >=? worstCaseHtlcBlocks cltv.

Definition refundLocktimeFor (cltv : HtlcCltv) (unilateralClaimDelay now lockupTimeout : Z) : Z :=
  let fundingWindow := if enforcesRouteCltv cltv then 0 else lockupTimeout in
  let htlcBound :=
    now + worstCaseHtlcBlocks cltv * SECONDS_PER_BLOCK + fundingWindow + REFUND_SAFETY_MARGIN in
  let unilateralBound := now + rawDelaySeconds unilateralClaimDelay + REFUND_SAFETY_MARGIN in
  Z.max htlcBound unilateralBound.

(** ** The ladder of a quote *)

Definition ladder_units (base : UnilateralDelays) : list TimelockUnit :=
  (λ rung, unit_of (relativeDelayFrom rung)) <$>
    [unilateralClaimDelay base; unilateralRefundDelay base;
     unilateralRefundWithoutReceiverDelay base].

Definition unilateralLadderFor (base : UnilateralDelays) (refundLocktime quotedAt : Z)
  : result TimelockError UnilateralDelays :=
  _ ← throw_if (negb (bool_decide (length (remove_dups (ladder_units base)) = 1%nat)))
        (LadderMixesUnits base);
  let horizon := Z.max 0 (refundLocktime - quotedAt) in
  if bool_decide (seconds ∈ ladder_units base) then
    let solo := Z.max (unilateralRefundWithoutReceiverDelay base) (ceilToGranularity horizon) in
    _ ← throw_if (negb (isEncodableDelay solo) || (solo >? MAX_BIP68_SECONDS))
          (HorizonUnencodable solo);
    Ok (mkDelays (unilateralClaimDelay base) (unilateralRefundDelay base) solo)
  else
    let requiredBlocks := ceil_div horizon NOMINAL_BLOCK_SECONDS in
    let solo := Z.max (unilateralRefundWithoutReceiverDelay base) requiredBlocks in
    if solo <? SEQUENCE_GRANULARITY_SECONDS then
      Ok (mkDelays (unilateralClaimDelay base) (unilateralRefundDelay base) solo)
    else
      let ladder := mkDelays
        (secondsForBlockRung (unilateralClaimDelay base))
        (secondsForBlockRung (unilateralRefundDelay base))
        (Z.max (secondsForBlockRung (unilateralRefundWithoutReceiverDelay base))
               (ceilToGranularity horizon)) in
      _ ← throw_if (negb (isEncodableDelay (unilateralRefundWithoutReceiverDelay ladder)) ||
                    (unilateralRefundWithoutReceiverDelay ladder >? MAX_BIP68_SECONDS))
            (HorizonUnencodable (unilateralRefundWithoutReceiverDelay ladder));
      Ok ladder.

Definition refundWithoutReceiverDelayCovers (delay refundLocktime quotedAt : Z) : bool :=
  rawDelaySeconds delay >=? refundLocktime - quotedAt.

(** ** Accepting a swap *)

Inductive SendAcceptanceRefusal :=
  | acceptance_invoice_expired
  | acceptance_invoice_expires_too_soon
  | wrong_network
  | amount_out_of_range
  | zero_amount_invoice
  | cltv_too_large.

Record SendAcceptanceInput := mkAcceptance {
  ac_invoiceExpiresAt : Z;
  ac_invoiceAmountSats : num;
  ac_invoiceNetwork : string;
  ac_providerNetwork : string;
  ac_minSats : Z;
  ac_maxSats : Z;
  ac_cltv : HtlcCltv;
  ac_unilateralClaimDelay : Z;
  ac_lockupTimeout : Z;
  ac_now : Z;
}.

Inductive SendAcceptanceDecision :=
  | Accept (refundLocktime lockupDeadline : Z)
  | RefuseAcceptance (reason : SendAcceptanceRefusal).

Definition evaluateSendAcceptance (i : SendAcceptanceInput) : SendAcceptanceDecision :=
  if negb (String.eqb (ac_invoiceNetwork i) (ac_providerNetwork i)) then
    RefuseAcceptance wrong_network
  else if negb (isFinite (ac_invoiceAmountSats i)) || num_le (ac_invoiceAmountSats i) (of_Z 0) then
    RefuseAcceptance zero_amount_invoice
  else if num_lt (ac_invoiceAmountSats i) (of_Z (ac_minSats i)) ||
          num_lt (of_Z (ac_maxSats i)) (ac_invoiceAmountSats i) then
    RefuseAcceptance amount_out_of_range
  else if ac_now i >=? ac_invoiceExpiresAt i then
    RefuseAcceptance acceptance_invoice_expired
  else
    let lockupDeadline :=
      lockupDeadlineFor (ac_now i) (ac_invoiceExpiresAt i) (ac_lockupTimeout i) in
    if lockupDeadline <=? ac_now i then
      RefuseAcceptance acceptance_invoice_expires_too_soon
    else if negb (enforcesRouteCltv (ac_cltv i)) &&
            (minFinalCltvBlocks (ac_cltv i) + worstRouteHintCltvBlocks (ac_cltv i)
               >? MAX_CLIENT_CLTV_BLOCKS) then
      RefuseAcceptance cltv_too_large
    else
      Accept (refundLocktimeFor (ac_cltv i) (ac_unilateralClaimDelay i) (ac_now i)
                (ac_lockupTimeout i))
             lockupDeadline.

(** ** Paying the invoice *)

Inductive SendPaymentRefusal :=
  | invoice_expired
  | invoice_expires_too_soon
  | claim_window_too_short
  | cltv_budget_too_short
  | uncapped_route_deadline_too_short
  | lockup_insufficient.

Record SendPaymentInput := mkPayment {
  pay_invoiceExpiresAt : Z;
  pay_refundLocktime : Z;
  pay_lockedSats : num;
  pay_expectedSats : num;
  pay_cltv : HtlcCltv;
  pay_now : Z;
}.

Inductive SendPaymentDecision := Pay | RefusePayment (reason : SendPaymentRefusal).

Definition evaluateSendPayment (i : SendPaymentInput) : SendPaymentDecision :=
  if negb (isFinite (pay_lockedSats i)) || negb (isFinite (pay_expectedSats i)) ||
     num_le (pay_expectedSats i) (of_Z 0) || num_lt (pay_lockedSats i) (pay_expectedSats i) then
    RefusePayment lockup_insufficient
  else if pay_now i >=? pay_invoiceExpiresAt i then RefusePayment invoice_expired
  else if pay_invoiceExpiresAt i - pay_now i <? MIN_INVOICE_WINDOW then
    RefusePayment invoice_expires_too_soon
  else if pay_refundLocktime i - pay_now i <? MIN_CLAIM_WINDOW then
    RefusePayment claim_window_too_short
  else
    let cltv := pay_cltv i in
    let budget := payableCltvBlocks cltv (pay_refundLocktime i) (pay_now i) in
    if budget <=? minFinalCltvBlocks cltv + hintCltvBlocks cltv then
      RefusePayment cltv_budget_too_short
    else if negb (enforcesRouteCltv cltv) &&
            negb (deadlineContainsHtlc cltv (pay_refundLocktime i) (pay_now i)) then
      RefusePayment uncapped_route_deadline_too_short
    else Pay.

(** ** Theorems *)

Ltac unfold_send :=
  unfold MIN_INVOICE_WINDOW, MIN_CLAIM_WINDOW, REFUND_SAFETY_MARGIN, SECONDS_PER_BLOCK,
    MAX_LOCKUP_TIMEOUT, ROUTE_CLTV_BUDGET_BLOCKS, NOMINAL_BLOCK_SECONDS, REFUND_SAFETY_MARGIN,
    HOUR, MINUTE in *.

(** The longest the outbound HTLC can live when paid at [now]: the ceiling a
    capping rail is handed, the worst route the network carries otherwise. *)
Definition htlc_lifetime_blocks (cltv : HtlcCltv) (refundLocktime now : Z) : Z :=
  if enforcesRouteCltv cltv then payableCltvBlocks cltv refundLocktime now
  else worstCaseHtlcBlocks cltv.

Lemma payable_within_deadline cltv refundLocktime now :
  now + payableCltvBlocks cltv refundLocktime now * 600 + 7200 ≤ refundLocktime.
Proof.
  unfold payableCltvBlocks. unfold_send.
  pose proof (Z.mul_div_le (refundLocktime - now - 2 * (60 * 60)) (10 * 60) ltac:(lia)). lia.
Qed.

Lemma payable_le_worst cltv refundLocktime now :
  payableCltvBlocks cltv refundLocktime now ≤ worstCaseHtlcBlocks cltv.
Proof. unfold payableCltvBlocks. lia. Qed.

Lemma deadlineContainsHtlc_iff cltv refundLocktime now :
  deadlineContainsHtlc cltv refundLocktime now = true ↔
  now + worstCaseHtlcBlocks cltv * 600 + 7200 ≤ refundLocktime.
Proof.
  unfold deadlineContainsHtlc. rewrite Z.geb_leb, Z.leb_le.
  pose proof (payable_le_worst cltv refundLocktime now) as Hle.
  split; intros H.
  - pose proof (payable_within_deadline cltv refundLocktime now). nia.
  - unfold payableCltvBlocks. apply Z.min_glb; [done|]. unfold_send.
    apply Z.div_le_lower_bound; lia.
Qed.

Lemma evaluateSendPayment_Pay i :
  evaluateSendPayment i = Pay ↔
  isFinite (pay_lockedSats i) = true ∧ isFinite (pay_expectedSats i) = true ∧
  num_le (pay_expectedSats i) (of_Z 0) = false ∧
  num_lt (pay_lockedSats i) (pay_expectedSats i) = false ∧
  pay_now i + 120 ≤ pay_invoiceExpiresAt i ∧
  pay_now i + 5400 ≤ pay_refundLocktime i ∧
  minFinalCltvBlocks (pay_cltv i) + hintCltvBlocks (pay_cltv i) <
    payableCltvBlocks (pay_cltv i) (pay_refundLocktime i) (pay_now i) ∧
  (enforcesRouteCltv (pay_cltv i) = false →
   deadlineContainsHtlc (pay_cltv i) (pay_refundLocktime i) (pay_now i) = true).
Proof.
  unfold evaluateSendPayment. unfold_send.
  destruct (isFinite (pay_lockedSats i)), (isFinite (pay_expectedSats i)),
    (num_le (pay_expectedSats i) (of_Z 0)), (num_lt (pay_lockedSats i) (pay_expectedSats i));
    cbn; try (split; [done|naive_solver]).
  rewrite Z.geb_leb.
  destruct (Z.leb_spec (pay_invoiceExpiresAt i) (pay_now i)); [split; [done|lia]|].
  destruct (Z.ltb_spec (pay_invoiceExpiresAt i - pay_now i) (2 * 60)); [split; [done|lia]|].
  destruct (Z.ltb_spec (pay_refundLocktime i - pay_now i) (90 * 60)); [split; [done|lia]|].
  destruct (Z.leb_spec (payableCltvBlocks (pay_cltv i) (pay_refundLocktime i) (pay_now i))
    (minFinalCltvBlocks (pay_cltv i) + hintCltvBlocks (pay_cltv i))); [split; [done|lia]|].
  destruct (enforcesRouteCltv (pay_cltv i)), (deadlineContainsHtlc _ _ _); cbn;
    first [by split; [discriminate | intros (_ & _ & _ & _ & _ & _ & _ & Hd); specialize (Hd eq_refl)]
          | split; [intros _; split_and!; done || lia | done]].
Qed.

(** The double-collect window is shut. Whenever the gate says [Pay], the
    longest-lived HTLC the payment can create ends a full safety margin (two
    hours) before the client's refund opens, on a rail that caps the route and
    on one that does not; the invoice is live for two minutes more, and the
    client has locked up the full positive amount. *)
Theorem pay_closes_double_collect (i : SendPaymentInput) :
  evaluateSendPayment i = Pay →
  pay_now i + htlc_lifetime_blocks (pay_cltv i) (pay_refundLocktime i) (pay_now i)
    * SECONDS_PER_BLOCK + REFUND_SAFETY_MARGIN ≤ pay_refundLocktime i ∧
  pay_now i + MIN_INVOICE_WINDOW ≤ pay_invoiceExpiresAt i ∧
  num_lt (of_Z 0) (pay_expectedSats i) = true ∧
  num_le (pay_expectedSats i) (pay_lockedSats i) = true.
Proof.
  intros (Hl & He & H0 & Hlt & Hinv & _ & _ & Hcap)%evaluateSendPayment_Pay.
  unfold htlc_lifetime_blocks. unfold_send. split_and!.
  - destruct (enforcesRouteCltv (pay_cltv i)).
    + pose proof (payable_within_deadline (pay_cltv i) (pay_refundLocktime i) (pay_now i)). lia.
    + specialize (Hcap eq_refl). apply deadlineContainsHtlc_iff in Hcap. lia.
  - lia.
  - by apply num_not_le_lt.
  - by apply num_not_lt_le.
Qed.

(** Funded in full before the lockup deadline, and with the refund no earlier
    than accepted, the payment gate is open. *)
Lemma accepted_payable (i : SendAcceptanceInput) (refundLocktime lockupDeadline deadline t locked sats : Z) :
  evaluateSendAcceptance i = Accept refundLocktime lockupDeadline →
  0 ≤ ac_lockupTimeout i ≤ MAX_LOCKUP_TIMEOUT →
  ROUTE_CLTV_BUDGET_BLOCKS ≤ routeCltvBudgetBlocks (ac_cltv i) →
  0 ≤ minFinalCltvBlocks (ac_cltv i) → 0 ≤ hintCltvBlocks (ac_cltv i) →
  ac_now i ≤ t ≤ lockupDeadline → refundLocktime ≤ deadline → 0 < sats ≤ locked →
  evaluateSendPayment (mkPayment (ac_invoiceExpiresAt i) deadline (of_Z locked) (of_Z sats) (ac_cltv i) t) = Pay.
Proof.
  unfold evaluateSendAcceptance. intros Hacc Ht Hroute Hfin Hhint Hnow Hdl Hsats.
  repeat (case_match; try discriminate Hacc). injection Hacc as <- <-.
  apply evaluateSendPayment_Pay. cbn [pay_invoiceExpiresAt pay_refundLocktime pay_lockedSats
    pay_expectedSats pay_cltv pay_now].
  rewrite num_le_of_Z, num_lt_of_Z, Z.leb_gt, Z.ltb_ge, deadlineContainsHtlc_iff.
  unfold lockupDeadlineFor, refundLocktimeFor, worstCaseHtlcBlocks in *. unfold_send.
  set (uni := rawDelaySeconds _) in *.
  split_and!; try done; try lia.
  - destruct (enforcesRouteCltv (ac_cltv i)); lia.
  - unfold payableCltvBlocks, worstCaseHtlcBlocks. unfold_send.
    apply Z.min_glb_lt; [lia|]. apply Z.lt_le_trans with
      (minFinalCltvBlocks (ac_cltv i) + hintCltvBlocks (ac_cltv i) + 1); [lia|].
    apply Z.div_le_lower_bound; [lia|]. destruct (enforcesRouteCltv (ac_cltv i)); lia.
  - intros He. rewrite He in *. lia.
Qed.

(** The deadline a quote carries is payable for as long as it is open. A
    client who funds an accepted quote in full at any moment up to its lockup
    deadline finds the payment gate open, whatever the rail, as long as the
    operator kept the funding window within its bound and the rail's route
    budget is at least the default. *)
Theorem accepted_quote_is_payable (i : SendAcceptanceInput) (refundLocktime lockupDeadline t sats : Z) :
  evaluateSendAcceptance i = Accept refundLocktime lockupDeadline →
  0 ≤ ac_lockupTimeout i ≤ MAX_LOCKUP_TIMEOUT →
  ROUTE_CLTV_BUDGET_BLOCKS ≤ routeCltvBudgetBlocks (ac_cltv i) →
  0 ≤ minFinalCltvBlocks (ac_cltv i) → 0 ≤ hintCltvBlocks (ac_cltv i) →
  ac_now i ≤ t ≤ lockupDeadline →
  0 < sats →
  evaluateSendPayment {|
    pay_invoiceExpiresAt := ac_invoiceExpiresAt i; pay_refundLocktime := refundLocktime;
    pay_lockedSats := of_Z sats; pay_expectedSats := of_Z sats;
    pay_cltv := ac_cltv i; pay_now := t |} = Pay.
Proof. intros. by eapply accepted_payable. Qed.

Definition example_cltv (enforces : bool) : HtlcCltv :=
  mkHtlcCltv 40 150 20 (if enforces then ROUTE_CLTV_BUDGET_BLOCKS
                        else UNENFORCED_ROUTE_CLTV_BUDGET_BLOCKS) enforces.

Definition example_payment : SendPaymentInput :=
  mkPayment 1700003600 1701000000 (of_Z 50000) (of_Z 50000) (example_cltv true) 1700000000.

Lemma pay_closes_double_collect_witness :
  evaluateSendPayment example_payment = Pay ∧
  pay_now example_payment + htlc_lifetime_blocks (pay_cltv example_payment)
    (pay_refundLocktime example_payment) (pay_now example_payment)
    * SECONDS_PER_BLOCK + REFUND_SAFETY_MARGIN ≤ pay_refundLocktime example_payment ∧
  pay_now example_payment + MIN_INVOICE_WINDOW ≤ pay_invoiceExpiresAt example_payment ∧
  num_lt (of_Z 0) (pay_expectedSats example_payment) = true ∧
  num_le (pay_expectedSats example_payment) (pay_lockedSats example_payment) = true.
Proof.
  split; [by vm_compute|]. apply (pay_closes_double_collect example_payment). by vm_compute.
Defined.

Definition example_acceptance : SendAcceptanceInput :=
  mkAcceptance 1700003600 (of_Z 50000) "bc" "bc" 1000 100000 (example_cltv false) 604672 900
    1700000000.

Lemma accepted_quote_is_payable_witness :
  evaluateSendAcceptance example_acceptance = Accept 1701331700 1700000900 ∧
  evaluateSendPayment (mkPayment 1700003600 1701331700 (of_Z 50000) (of_Z 50000)
    (example_cltv false) 1700000900) = Pay.
Proof.
  split; [by vm_compute|].
  apply (accepted_quote_is_payable example_acceptance 1701331700 1700000900 1700000900 50000);
    vm_compute; done.
Defined.

(** A ladder as [deriveUnilateralDelays] builds it: rungs of one unit, ordered,
    each encodable. *)
Definition ladder_wf (l : UnilateralDelays) : Prop :=
  (∃ u, ladder_units l = [u; u; u]) ∧
  0 < unilateralClaimDelay l ∧
  unilateralClaimDelay l ≤ unilateralRefundDelay l ≤ unilateralRefundWithoutReceiverDelay l ∧
  isEncodableDelay (unilateralClaimDelay l) = true ∧
  isEncodableDelay (unilateralRefundDelay l) = true ∧
  isEncodableDelay (unilateralRefundWithoutReceiverDelay l) = true.

Ltac simpl_delays :=
  cbn [unilateralClaimDelay unilateralRefundDelay unilateralRefundWithoutReceiverDelay] in *.

Lemma relativeDelayFrom_seconds raw : unit_of (relativeDelayFrom raw) = seconds ↔ 512 ≤ raw.
Proof. unfold_timelocks. rewrite Z.geb_leb. destruct (Z.leb_spec 512 raw); split; done || lia. Qed.

Lemma relativeDelayFrom_blocks raw : unit_of (relativeDelayFrom raw) = blocks ↔ raw < 512.
Proof.
  unfold_timelocks. rewrite Z.geb_leb. destruct (Z.leb_spec 512 raw); split; done || lia.
Qed.

Lemma ladder_units_eq l u :
  ladder_units l = [u; u; u] ↔
  unit_of (relativeDelayFrom (unilateralClaimDelay l)) = u ∧
  unit_of (relativeDelayFrom (unilateralRefundDelay l)) = u ∧
  unit_of (relativeDelayFrom (unilateralRefundWithoutReceiverDelay l)) = u.
Proof. unfold ladder_units; cbn. split; [by intros [= -> -> ->]|by intros (-> & -> & ->)]. Qed.

Lemma secondsForBlockRung_spec n :
  0 < n → 512 ≤ secondsForBlockRung n ∧ n * 600 ≤ secondsForBlockRung n ∧
          (512 | secondsForBlockRung n).
Proof.
  intros. pose proof (ceilToGranularity_spec (n * 600)) as [? ?].
  unfold secondsForBlockRung, NOMINAL_BLOCK_SECONDS. split_and!; [lia|lia|done].
Qed.

Lemma secondsForBlockRung_mono n n' : n ≤ n' → secondsForBlockRung n ≤ secondsForBlockRung n'.
Proof. intros. apply ceilToGranularity_mono. unfold NOMINAL_BLOCK_SECONDS. lia. Qed.

(** The solo rung is the larger of the base's and the horizon's; what that
    gives the quote, for rungs [c], [r] that do not open before the base's. *)
Lemma ladder_covers base c r solo u refundLocktime quotedAt :
  (∃ v, ladder_units (mkDelays c r solo) = [v; v; v]) →
  0 < c → c ≤ r ≤ solo →
  isEncodableDelay c = true → isEncodableDelay r = true → isEncodableDelay solo = true →
  u = Z.max 0 (refundLocktime - quotedAt) → u ≤ rawDelaySeconds solo →
  rawDelaySeconds (unilateralClaimDelay base) ≤ rawDelaySeconds c →
  rawDelaySeconds (unilateralRefundDelay base) ≤ rawDelaySeconds r →
  ladder_wf (mkDelays c r solo) ∧
  refundWithoutReceiverDelayCovers solo refundLocktime quotedAt = true ∧
  rawDelaySeconds (unilateralClaimDelay base) ≤ rawDelaySeconds c ∧
  rawDelaySeconds (unilateralRefundDelay base) ≤ rawDelaySeconds r.
Proof.
  intros. split; [by unfold ladder_wf; cbn; split_and!; done || lia|].
  split_and!; [|done|done].
  unfold refundWithoutReceiverDelayCovers. rewrite Z.geb_leb. apply Z.leb_le. lia.
Qed.

(** A stretched ladder is well formed and covers the quote. *)
Lemma ladder_sound (base l : UnilateralDelays) (refundLocktime quotedAt : Z) :
  ladder_wf base → unilateralLadderFor base refundLocktime quotedAt = Ok l →
  ladder_wf l ∧
  refundWithoutReceiverDelayCovers (unilateralRefundWithoutReceiverDelay l) refundLocktime quotedAt
    = true ∧
  rawDelaySeconds (unilateralClaimDelay base) ≤ rawDelaySeconds (unilateralClaimDelay l) ∧
  rawDelaySeconds (unilateralRefundDelay base) ≤ rawDelaySeconds (unilateralRefundDelay l).
Proof.
  intros ([u Hu] & Hpos & Hord & He1 & He2 & He3) Hl.
  unfold unilateralLadderFor in Hl. rewrite throw_if_bind, Hu in Hl. destruct Hl as [_ Hl].
  destruct base as [c r s]. cbn [unilateralClaimDelay unilateralRefundDelay
    unilateralRefundWithoutReceiverDelay] in *.
  pose proof (ceilToGranularity_spec (Z.max 0 (refundLocktime - quotedAt))) as [Hc _].
  pose proof (ceil_div_spec (Z.max 0 (refundLocktime - quotedAt)) 600 ltac:(lia)) as Hd.
  unfold NOMINAL_BLOCK_SECONDS, SEQUENCE_GRANULARITY_SECONDS in Hl.
  destruct u; cbn -[mbind throw_if Z.max ceil_div] in Hl; apply ladder_units_eq in Hu as (Hu1 & Hu2 & Hu3);
    simpl_delays.
  - rewrite relativeDelayFrom_seconds in Hu1, Hu2, Hu3.
    change (bool_decide (seconds ∈ [seconds; seconds; seconds])) with true in Hl. cbv iota in Hl.
    apply throw_if_bind in Hl as [Hz Hl]. injection Hl as <-. bool_to_prop.
    apply (ladder_covers (mkDelays c r s) _ _ _ (Z.max 0 (refundLocktime - quotedAt)));
      simpl_delays; try done; try lia.
    + exists seconds. apply (ladder_units_eq (mkDelays _ _ _)). rewrite !relativeDelayFrom_seconds. simpl_delays. lia.
    + rewrite rawDelaySeconds_seconds; lia.
  - rewrite relativeDelayFrom_blocks in Hu1, Hu2, Hu3.
    change (bool_decide (seconds ∈ [blocks; blocks; blocks])) with false in Hl. cbv iota in Hl.
    case_match eqn:Hz; bool_to_prop.
    + injection Hl as <-.
      apply (ladder_covers (mkDelays c r s) _ _ _ (Z.max 0 (refundLocktime - quotedAt)));
      simpl_delays; try done; try lia.
      * exists blocks. apply (ladder_units_eq (mkDelays _ _ _)). rewrite !relativeDelayFrom_blocks. simpl_delays. lia.
      * apply isEncodableDelay_iff. lia.
      * rewrite rawDelaySeconds_blocks by lia. lia.
    + apply throw_if_bind in Hl as [Hz2 Hl]. injection Hl as <-. bool_to_prop.
      pose proof (secondsForBlockRung_spec c ltac:(lia)) as (Hc1 & Hc2 & Hc3).
      pose proof (secondsForBlockRung_spec r ltac:(lia)) as (Hr1 & Hr2 & Hr3).
      pose proof (secondsForBlockRung_mono c r ltac:(lia)).
      pose proof (secondsForBlockRung_mono r s ltac:(lia)).
      apply (ladder_covers (mkDelays c r s) _ _ _ (Z.max 0 (refundLocktime - quotedAt)));
      simpl_delays; try done; try lia.
      * exists seconds. apply (ladder_units_eq (mkDelays _ _ _)). rewrite !relativeDelayFrom_seconds. simpl_delays. lia.
      * apply isEncodableDelay_iff. split; [lia|done].
      * apply isEncodableDelay_iff. split; [lia|done].
      * rewrite rawDelaySeconds_seconds; lia.
      * rewrite rawDelaySeconds_blocks, rawDelaySeconds_seconds; lia.
      * rewrite rawDelaySeconds_blocks, rawDelaySeconds_seconds; lia.
Qed.

(** Stretching a ladder to a quote keeps it well formed: from a well-formed
    base, every ladder [unilateralLadderFor] answers is again of one unit,
    ordered and encodable, its solo refund does not open before the quoted
    absolute refund, and its two lower rungs open no earlier than the base's —
    also where the ladder flips from blocks to seconds. *)
Theorem unilateralLadderFor_sound (base l : UnilateralDelays) (refundLocktime quotedAt : Z) :
  ladder_wf base → unilateralLadderFor base refundLocktime quotedAt = Ok l →
  ladder_wf l ∧
  refundWithoutReceiverDelayCovers (unilateralRefundWithoutReceiverDelay l) refundLocktime quotedAt
    = true ∧
  rawDelaySeconds (unilateralClaimDelay base) ≤ rawDelaySeconds (unilateralClaimDelay l) ∧
  rawDelaySeconds (unilateralRefundDelay base) ≤ rawDelaySeconds (unilateralRefundDelay l).
Proof. apply ladder_sound. Qed.

Lemma unilateralLadderFor_sound_witness :
  let base := mkDelays 20 20 28 in
  let l := mkDelays 12288 12288 402944 in
  ladder_wf base ∧ unilateralLadderFor base 1700402700 1700000000 = Ok l ∧
  ladder_wf l ∧
  refundWithoutReceiverDelayCovers (unilateralRefundWithoutReceiverDelay l) 1700402700 1700000000
    = true ∧
  rawDelaySeconds (unilateralClaimDelay base) ≤ rawDelaySeconds (unilateralClaimDelay l) ∧
  rawDelaySeconds (unilateralRefundDelay base) ≤ rawDelaySeconds (unilateralRefundDelay l).
Proof.
  assert (ladder_wf (mkDelays 20 20 28)) as Hwf.
  { split; [by exists blocks|]. vm_compute. split_and!; done. }
  split; [exact Hwf|]. split; [by vm_compute|].
  apply (unilateralLadderFor_sound (mkDelays 20 20 28) (mkDelays 12288 12288 402944)
    1700402700 1700000000 Hwf). by vm_compute.
Defined.
