(* ===== verification/ReceivePolicy.v ===== *)
(** * The money gates of the Lightning receive leg

    [packages/solver-core/src/core/receive.ts]: the final CLTV delta asked of
    the payer, the largest exit delay the corridor serves, and the decision to
    fund the Arkade side of an armed payment. *)
From S2P Require Import Prelude Timelocks.

Definition MIN_SETTLE_WINDOW : Z := 90 * MINUTE.
Definition SETTLE_SAFETY_MARGIN : Z := 15 * MINUTE.
Definition UNILATERAL_RECOURSE_MARGIN : Z := 30 * MINUTE.
Definition MAX_FINAL_CLTV_BLOCKS : Z := 2016.
Definition HTLC_SECONDS_PER_BLOCK : Z := 150.
Definition MAX_REFUND_HORIZON : Z := 2 * HOUR.

Definition minHtlcWindowFor (soloDelay : Z) (acceptUnilateralGap : bool) : Z :=
  Z.max MIN_SETTLE_WINDOW
    (Z.max (MAX_REFUND_HORIZON + SETTLE_SAFETY_MARGIN)
           (if acceptUnilateralGap then 0 else rawDelaySeconds soloDelay + UNILATERAL_RECOURSE_MARGIN)).

Definition minFinalCltvBlocksFor (soloDelay : Z) (acceptUnilateralGap : bool) : Z :=
  ceil_div (minHtlcWindowFor soloDelay acceptUnilateralGap) HTLC_SECONDS_PER_BLOCK.

Definition htlcDeadlineFromHeight (timeoutHeight currentHeight now : Z) : Z :=
  now + (timeoutHeight - currentHeight) * HTLC_SECONDS_PER_BLOCK.

Inductive ExitDelayError :=
  | NoExitDelayServable
  | LadderError (e : TimelockError).

(** The loop of [maxServableExitDelay], counting [unit] down to one. *)
Fixpoint servable_from (unit : nat) : result ExitDelayError Z :=
  match unit with
  | O => Err NoExitDelayServable
  | S rest =>
      let delay := Z.of_nat unit * SEQUENCE_GRANULARITY_SECONDS in
      match deriveUnilateralDelays (of_Z delay) with
      | Err e => Err (LadderError e)
      | Ok l =>
          if minFinalCltvBlocksFor (unilateralRefundWithoutReceiverDelay l) false
               <=? MAX_FINAL_CLTV_BLOCKS
          then Ok delay
          else servable_from rest
      end
  end.

Definition maxServableExitDelay : result ExitDelayError Z :=
  servable_from (Z.to_nat
    (MAX_FINAL_CLTV_BLOCKS * HTLC_SECONDS_PER_BLOCK / SEQUENCE_GRANULARITY_SECONDS)).

Inductive ReceiveFundingRefusal :=
  | invoice_expired
  | htlc_not_armed
  | settle_window_too_short
  | refund_deadline_too_late
  | unilateral_recourse_after_htlc.

Record ReceiveFundingInput := mkFunding {
  fu_invoiceExpiresAt : Z;
  fu_htlcExpiresAt : option Z;
  fu_refundLocktime : Z;
  fu_soloDelay : Z;
  fu_acceptUnilateralGap : bool;
  fu_now : Z;
}.

Inductive ReceiveFundingDecision := Fund | RefuseFunding (reason : ReceiveFundingRefusal).

(** [Err]: the assertion on the stored locktime threw. *)
Definition evaluateReceiveFunding (i : ReceiveFundingInput)
  : result TimelockError ReceiveFundingDecision :=
  if fu_now i >=? fu_invoiceExpiresAt i then Ok (RefuseFunding invoice_expired)
  else match fu_htlcExpiresAt i with
  | None => Ok (RefuseFunding htlc_not_armed)
  | Some htlcExpiresAt =>
      if htlcExpiresAt - fu_now i <? MIN_SETTLE_WINDOW then
        Ok (RefuseFunding settle_window_too_short)
      else
        _ ← assertAbsoluteLocktime (of_Z (fu_refundLocktime i)) "refundLocktime" seconds;
        if fu_refundLocktime i >? htlcExpiresAt - SETTLE_SAFETY_MARGIN then
          Ok (RefuseFunding refund_deadline_too_late)
        else if negb (fu_acceptUnilateralGap i) &&
                (fu_now i + rawDelaySeconds (fu_soloDelay i) + UNILATERAL_RECOURSE_MARGIN
                   >? htlcExpiresAt) then
          Ok (RefuseFunding unilateral_recourse_after_htlc)
        else Ok Fund
  end.

(** ** Theorems *)

Ltac unfold_receive :=
  unfold MIN_SETTLE_WINDOW, SETTLE_SAFETY_MARGIN, UNILATERAL_RECOURSE_MARGIN,
    MAX_REFUND_HORIZON, MAX_FINAL_CLTV_BLOCKS, HTLC_SECONDS_PER_BLOCK, HOUR, MINUTE in *.

(** The exact condition under which the Arkade side is funded: the invoice is
    live, the payment is armed with at least 90 minutes to settle it, the
    solver's committed refund opens 15 minutes before that deadline [E], and
    so does its solo recourse, 30 minutes before [E], unless the operator
    accepted that gap. *)
Theorem fund_iff (i : ReceiveFundingInput) :
  evaluateReceiveFunding i = Ok Fund ↔
  ∃ E, fu_htlcExpiresAt i = Some E ∧
    fu_now i < fu_invoiceExpiresAt i ∧
    fu_now i + 90 * MINUTE ≤ E ∧
    LOCKTIME_THRESHOLD ≤ fu_refundLocktime i ∧
    fu_refundLocktime i + 15 * MINUTE ≤ E ∧
    (fu_acceptUnilateralGap i = false →
     fu_now i + rawDelaySeconds (fu_soloDelay i) + 30 * MINUTE ≤ E).
Proof.
  unfold evaluateReceiveFunding. unfold_receive.
  rewrite Z.geb_leb.
  destruct (Z.leb_spec (fu_invoiceExpiresAt i) (fu_now i)); [split; [done|naive_solver lia]|].
  destruct (fu_htlcExpiresAt i) as [E|]; [|naive_solver].
  destruct (Z.ltb_spec (E - fu_now i) (90 * 60)).
  { split; [done|]. intros (? & [= <-] & ?). lia. }
  rewrite bind_Ok. setoid_rewrite Z.gtb_ltb. split.
  - intros ([] & Ha%assert_seconds_Ok & Hk). exists E.
    case_match eqn:Hr; [done|]. case_match eqn:Hg; [done|]. bool_to_prop.
    split_and!; try done; try lia. intros Hn. rewrite Hn in Hg.
    destruct Hg; [done|]. bool_to_prop. lia.
  - intros (? & [= <-] & _ & _ & Ha & Hr & Hg). exists tt. split; [by apply assert_seconds_Ok|].
    case_match eqn:Hr1; [rewrite ?Z.gtb_ltb in Hr1; bool_to_prop; lia|].
    case_match eqn:Hg1; [|done]. rewrite ?Z.gtb_ltb in Hg1. bool_to_prop.
    specialize (Hg ltac:(done)). lia.
Qed.

(** An invoice minted to the chooser cannot be refused by a gate the chooser
    forgot: if the payer honours the final delta of [minFinalCltvBlocksFor],
    the deadline computed from the timeout height passes every gate at the
    moment of arming, for any refund deadline within the horizon. *)
Theorem minted_invoice_is_fundable (soloDelay now height invoiceExpiresAt refundLocktime : Z) (gap : bool) :
  LOCKTIME_THRESHOLD ≤ refundLocktime ≤ now + MAX_REFUND_HORIZON →
  now < invoiceExpiresAt →
  evaluateReceiveFunding {|
    fu_invoiceExpiresAt := invoiceExpiresAt;
    fu_htlcExpiresAt :=
      Some (htlcDeadlineFromHeight (height + minFinalCltvBlocksFor soloDelay gap) height now);
    fu_refundLocktime := refundLocktime; fu_soloDelay := soloDelay;
    fu_acceptUnilateralGap := gap; fu_now := now |} = Ok Fund.
Proof.
  intros Hr Hi. apply fund_iff. cbn [fu_htlcExpiresAt fu_now fu_invoiceExpiresAt
    fu_refundLocktime fu_acceptUnilateralGap fu_soloDelay].
  unfold htlcDeadlineFromHeight, minFinalCltvBlocksFor.
  pose proof (ceil_div_spec (minHtlcWindowFor soloDelay gap) 150 ltac:(lia)) as Hc.
  unfold minHtlcWindowFor in *. unfold_receive. eexists. split; [done|].
  set (w := rawDelaySeconds soloDelay) in *.
  split_and!; try lia. intros ->. lia.
Qed.

Lemma minted_invoice_is_fundable_witness :
  (LOCKTIME_THRESHOLD ≤ 1700007200 ≤ 1700000000 + MAX_REFUND_HORIZON ∧ 1700000000 < 1700003600) ∧
  evaluateReceiveFunding (mkFunding 1700003600
    (Some (htlcDeadlineFromHeight (850000 + minFinalCltvBlocksFor 90624 false) 850000 1700000000))
    1700007200 90624 false 1700000000) = Ok Fund.
Proof.
  split; [by vm_compute|].
  apply (minted_invoice_is_fundable 90624 1700000000 850000 1700003600 1700007200 false);
    by vm_compute.
Defined.

Lemma minFinalCltvBlocksFor_seconds d :
  512 ≤ d → minFinalCltvBlocksFor d false ≤ 2016 ↔ d ≤ 300600.
Proof.
  intros Hd. unfold minFinalCltvBlocksFor, minHtlcWindowFor. rewrite rawDelaySeconds_seconds by done.
  unfold_receive. set (w := Z.max _ _) in *. pose proof (ceil_div_spec w 150 ltac:(lia)). lia.
Qed.

(** The downward search of [maxServableExitDelay] returns, and what it returns
    is exact: an exit delay in seconds has a ladder whose invoice stays within
    the 2016-block ceiling if and only if it is at most that bound. *)
Theorem maxServableExitDelay_exact :
  ∃ bound, maxServableExitDelay = Ok bound ∧
    ∀ d l, 512 ≤ d → deriveUnilateralDelays (of_Z d) = Ok l →
      minFinalCltvBlocksFor (unilateralRefundWithoutReceiverDelay l) false ≤ MAX_FINAL_CLTV_BLOCKS
        ↔ d ≤ bound.
Proof.
  exists 296448. split; [by vm_compute|]. intros d l Hd Hl.
  pose proof (ceilToGranularity_spec d) as [Hc [k Hk]].
  assert (unilateralRefundWithoutReceiverDelay l = ceilToGranularity d + 4096) as ->.
  { unfold deriveUnilateralDelays in Hl. rewrite throw_if_bind, integer_of_Z in Hl.
    destruct Hl as [_ Hl]. unfold relativeDelayFrom, SEQUENCE_GRANULARITY_SECONDS in Hl.
    rewrite Z.geb_leb, (proj2 (Z.leb_le 512 d)) in Hl by done. cbn [unit_of] in Hl.
    by apply throw_if_bind in Hl as [_ [= <-]]. }
  unfold MAX_FINAL_CLTV_BLOCKS. rewrite minFinalCltvBlocksFor_seconds by lia. lia.
Qed.
