(* ===== verification/OnchainPolicy.v ===== *)
(** * The money gates of the onchain send leg

    [packages/solver-core/src/core/onchainSend.ts]: the deadlines of a quote,
    the gate re-asked before the onchain HTLC is funded, and the batch-expiry
    check on the client's lockup. *)
From S2P Require Import Prelude Timelocks.

Definition DEFAULT_ONCHAIN_LOCKUP_TIMEOUT : Z := 15 * MINUTE.
Definition DEFAULT_MIN_CONFIRMATIONS : Z := 1.
Definition ONCHAIN_SECONDS_PER_BLOCK : Z := 600.
Definition ONCHAIN_CLAIM_MARGIN_SECONDS : Z := 90 * MINUTE.
Definition ONCHAIN_ORDER_MARGIN_SECONDS : Z := 2 * HOUR.
Definition MAX_MIN_CONFIRMATIONS : Z := 6.
Definition MIN_MIN_CONFIRMATIONS : Z := 1.
Definition HTLC_REFUND_MTP_MARGIN : Z := 90 * MINUTE.
Definition ARKADE_CLAIM_WINDOW_SECONDS : Z := 90 * MINUTE.
Definition MIN_ONCHAIN_FUND_WINDOW : Z := 90 * MINUTE.

Definition clampMinConfirmations (requested : option num) : Z :=
  match requested with
  | Some (Fin q) => Z.max MIN_MIN_CONFIRMATIONS (Z.min (trunc q) MAX_MIN_CONFIRMATIONS)
  | _ => DEFAULT_MIN_CONFIRMATIONS
  end.

Definition htlcLocktimeFor (minConfirmations now : Z) : Z :=
  now + minConfirmations * ONCHAIN_SECONDS_PER_BLOCK + 2 * ONCHAIN_CLAIM_MARGIN_SECONDS.

Definition latestClaimArrival (htlcLocktime : Z) : Z := htlcLocktime + HTLC_REFUND_MTP_MARGIN.

Definition arkadeClaimDeadline (htlcLocktime : Z) : Z :=
  latestClaimArrival htlcLocktime + ARKADE_CLAIM_WINDOW_SECONDS.

Definition onchainRefundLocktimeFor (htlcLocktime unilateralClaimDelay now : Z) : Z :=
  let chainBound := htlcLocktime + 2 * ONCHAIN_ORDER_MARGIN_SECONDS in
  let serverIndependentBound :=
    now + rawDelaySeconds unilateralClaimDelay + ONCHAIN_ORDER_MARGIN_SECONDS in
  Z.max chainBound (Z.max serverIndependentBound (arkadeClaimDeadline htlcLocktime)).

Definition onchainRefundConfirmDeadline (refundLocktime : Z) : Z :=
  refundLocktime - ARKADE_CLAIM_WINDOW_SECONDS.

Definition arkadeClaimTimeLeft (refundLocktime now : Z) : Z := refundLocktime - now.

(** An output is its [expiresAt], when it has one. *)
Definition expiryBeforeClaimDeadline (outputs : list (option Z)) (htlcLocktime : Z) : option Z :=
  let deadline := arkadeClaimDeadline htlcLocktime in
  let early := omap (λ o, match o with
                          | Some e => if e <? deadline then Some e else None
                          | None => None
                          end) outputs in
  match early with
  | [] => None
  | e :: rest => Some (foldl Z.min e rest)
  end.

Inductive OnchainSendAcceptance :=
  | AcceptOnchain (refundLocktime htlcLocktime minConfirmations lockupDeadline : Z)
  | OnchainAmountOutOfRange.

Definition evaluateOnchainSendAcceptance (amountSats minSats maxSats unilateralClaimDelay now : Z)
    (minConfirmations : option num) : OnchainSendAcceptance :=
  if (amountSats <? minSats) || (amountSats >? maxSats) then OnchainAmountOutOfRange
  else
    let minConfirmations := clampMinConfirmations minConfirmations in
    let htlcLocktime := htlcLocktimeFor minConfirmations now in
    AcceptOnchain (onchainRefundLocktimeFor htlcLocktime unilateralClaimDelay now)
      htlcLocktime minConfirmations (now + DEFAULT_ONCHAIN_LOCKUP_TIMEOUT).

Inductive OnchainSendFundingDecision :=
  | FundOnchain
  | RefundWindowClosing
  | InsideClaimWindow (left claimWindow : Z).

Definition evaluateOnchainSendFunding (refundLocktime htlcLocktime minConfirmations now : Z)
  : OnchainSendFundingDecision :=
  if now >=? refundLocktime - MIN_ONCHAIN_FUND_WINDOW then RefundWindowClosing
  else
    let claimWindow := minConfirmations * ONCHAIN_SECONDS_PER_BLOCK + ONCHAIN_CLAIM_MARGIN_SECONDS in
    if htlcLocktime - now <=? claimWindow then InsideClaimWindow (htlcLocktime - now) claimWindow
    else FundOnchain.

(** ** Theorems *)

Ltac unfold_onchain :=
  unfold arkadeClaimDeadline, latestClaimArrival, htlcLocktimeFor in *;
  unfold DEFAULT_ONCHAIN_LOCKUP_TIMEOUT, ONCHAIN_SECONDS_PER_BLOCK, ONCHAIN_CLAIM_MARGIN_SECONDS,
    ONCHAIN_ORDER_MARGIN_SECONDS, HTLC_REFUND_MTP_MARGIN, ARKADE_CLAIM_WINDOW_SECONDS,
    MIN_ONCHAIN_FUND_WINDOW,
    MIN_MIN_CONFIRMATIONS, MAX_MIN_CONFIRMATIONS, DEFAULT_MIN_CONFIRMATIONS, HOUR, MINUTE in *.

Lemma clampMinConfirmations_range requested : 1 ≤ clampMinConfirmations requested ≤ 6.
Proof. unfold clampMinConfirmations. unfold_onchain. destruct requested as [[q| |]|]; cbv iota; [generalize (trunc q)|..]; lia. Qed.

(** Every accepted onchain quote orders its deadlines so that the solver can
    always answer: a client claim arriving at the last instant the HTLC allows
    (its locktime plus the median-time-past lag) still leaves the full 90
    minute claim window before the client's Arkade refund opens, that refund
    outlasts the solver's own unilateral claim by two hours, and the depth the
    client asked for, whatever the number it sent, was brought into 1..6. *)
Theorem onchain_quote_ordered (amount lo hi delay now r h c d : Z) (requested : option num) :
  evaluateOnchainSendAcceptance amount lo hi delay now requested = AcceptOnchain r h c d →
  lo ≤ amount ≤ hi ∧ 1 ≤ c ≤ 6 ∧
  now < d < h ∧
  latestClaimArrival h + ARKADE_CLAIM_WINDOW_SECONDS ≤ r ∧
  latestClaimArrival h < onchainRefundConfirmDeadline r ∧
  now + rawDelaySeconds delay + 2 * HOUR ≤ r.
Proof.
  unfold evaluateOnchainSendAcceptance. intros H. case_match eqn:Hr; [done|].
  pose proof (clampMinConfirmations_range requested). injection H as <- <- <- <-.
  rewrite Z.gtb_ltb in Hr. bool_to_prop.
  unfold onchainRefundLocktimeFor, onchainRefundConfirmDeadline. unfold_onchain. lia.
Qed.

Lemma onchain_quote_ordered_witness :
  evaluateOnchainSendAcceptance 50000 1000 100000 604672 1700000000 (Some NaN)
    = AcceptOnchain 1700611872 1700011400 1 1700000900 ∧
  1000 ≤ 50000 ≤ 100000 ∧ 1 ≤ 1 ≤ 6 ∧
  1700000000 < 1700000900 < 1700011400 ∧
  latestClaimArrival 1700011400 + ARKADE_CLAIM_WINDOW_SECONDS ≤ 1700611872 ∧
  latestClaimArrival 1700011400 < onchainRefundConfirmDeadline 1700611872 ∧
  1700000000 + rawDelaySeconds 604672 + 2 * HOUR ≤ 1700611872.
Proof.
  split; [by vm_compute|].
  apply (onchain_quote_ordered 50000 1000 100000 604672 1700000000 1700611872 1700011400 1
    1700000900 (Some NaN)). by vm_compute.
Defined.

(** The funding gate, exactly: the onchain HTLC is funded if and only if more
    than 90 minutes remain before the client's refund and strictly more than
    the client's own claim guardrail before the HTLC's locktime; an accepted
    quote passes it at every moment its lockup may still be funded. *)
Theorem onchain_funding_gate :
  (∀ r h c now, evaluateOnchainSendFunding r h c now = FundOnchain ↔
     now + 90 * MINUTE < r ∧ now + c * 600 + 90 * MINUTE < h) ∧
  (∀ amount lo hi delay now requested r h c d t,
     evaluateOnchainSendAcceptance amount lo hi delay now requested = AcceptOnchain r h c d →
     now ≤ t ≤ d → evaluateOnchainSendFunding r h c t = FundOnchain).
Proof.
  assert (∀ r h c now, evaluateOnchainSendFunding r h c now = FundOnchain ↔
     now + 90 * MINUTE < r ∧ now + c * 600 + 90 * MINUTE < h) as Hiff.
  { intros r h c now. unfold evaluateOnchainSendFunding. unfold_onchain. rewrite Z.geb_leb.
    destruct (Z.leb_spec (r - 90 * 60) now); [split; [done|lia]|].
    destruct (Z.leb_spec (h - now) (c * 600 + 90 * 60)); split; done || lia. }
  split; [exact Hiff|]. intros * Hacc Ht. apply Hiff.
  unfold evaluateOnchainSendAcceptance in Hacc. case_match; [done|].
  pose proof (clampMinConfirmations_range requested). injection Hacc as <- <- <- <-.
  unfold onchainRefundLocktimeFor. unfold_onchain. lia.
Qed.

Lemma foldl_min_spec (e : Z) (l : list Z) :
  foldl Z.min e l ∈ e :: l ∧ ∀ x, x ∈ e :: l → foldl Z.min e l ≤ x.
Proof.
  revert e. induction l as [|y l IH]; intros e; cbn.
  { split; [left|]. intros x [->|H]%elem_of_cons; [lia|inversion H]. }
  destruct (IH (Z.min e y)) as [Hin Hle]. split.
  - apply elem_of_cons in Hin as [->|Hin]; [|by do 2 right].
    destruct (Z.min_spec e y) as [[_ ->]|[_ ->]]; [left|right; left].
  - pose proof (Hle (Z.min e y) ltac:(left)).
    intros x [->|[->|Hx]%elem_of_cons]%elem_of_cons; [lia|lia|]. apply Hle. by right.
Qed.

(** The batch-expiry check finds the earliest expiry that would sweep the
    lockup before the solver's last claim, if there is one; outputs without an
    expiry are not judged. *)
Theorem expiryBeforeClaimDeadline_spec (outputs : list (option Z)) (h : Z) :
  match expiryBeforeClaimDeadline outputs h with
  | Some e => Some e ∈ outputs ∧ e < arkadeClaimDeadline h ∧
              ∀ e', Some e' ∈ outputs → e ≤ e'
  | None => ∀ e', Some e' ∈ outputs → arkadeClaimDeadline h ≤ e'
  end.
Proof.
  unfold expiryBeforeClaimDeadline. set (early := omap _ outputs).
  assert (∀ e, e ∈ early ↔ Some e ∈ outputs ∧ e < arkadeClaimDeadline h) as Hearly.
  { intros e. unfold early. rewrite list_elem_of_omap. split.
    - intros ([e'|] & Hin & He); [|done]. case_match eqn:Hlt; simplify_eq. bool_to_prop. done.
    - intros [Hin Hlt]. exists (Some e). split; [done|]. by rewrite (proj2 (Z.ltb_lt _ _) Hlt). }
  destruct early as [|e0 rest].
  - intros e' Hin. destruct (Z.lt_ge_cases e' (arkadeClaimDeadline h)) as [Hlt|]; [|done].
    pose proof (proj2 (Hearly e') (conj Hin Hlt)) as Hnil. inversion Hnil.
  - destruct (foldl_min_spec e0 rest) as [Hin Hle]. pose proof (proj1 (Hearly _) Hin) as [? ?].
    split_and!; [done|done|]. intros e' Hin'.
    destruct (Z.lt_ge_cases e' (arkadeClaimDeadline h)) as [Hlt|]; [|lia].
    apply Hle, Hearly. done.
Qed.
