(* ===== verification/EvmPolicy.v ===== *)
(** * The deadline gates of the EVM corridors

    [packages/solver-core/src/core/evmSend.ts] and [core/evmReceive.ts]. The
    solver always moves second: on the send side its token lock must time out
    a margin before the client's Arkade refund, on the receive side its Arkade
    refund must open a margin before the client's token refund. *)
From S2P Require Import Prelude Timelocks.

Definition EVM_ORDER_MARGIN_SECONDS : Z := 2 * HOUR.
Definition EVM_MIN_CLAIM_WINDOW_SECONDS : Z := 30 * MINUTE.
Definition EVM_MAX_CLIENT_TIMEOUT_SECONDS : Z := 24 * HOUR.

(** ** Send *)

Inductive EvmSendLockRefusal :=
  | evm_timeout_in_past
  | claim_window_too_short
  | recourse_after_refund_deadline
  | send_deadlines_cannot_be_ordered.

Inductive EvmSendLockDecision := LockOk | RefuseLock (reason : EvmSendLockRefusal).

Definition evaluateEvmSendLock (evmTimeout refundLocktime nowSeconds orderMarginSeconds
    minClaimWindowSeconds : Z) : result TimelockError EvmSendLockDecision :=
  _ ← assertAbsoluteLocktime (of_Z refundLocktime) "refundLocktime" seconds;
  _ ← assertAbsoluteLocktime (of_Z evmTimeout) "evmTimeout" seconds;
  Ok (if evmTimeout <=? nowSeconds then RefuseLock evm_timeout_in_past
      else
        let earliestSafe := nowSeconds + minClaimWindowSeconds in
        let latestSafe := refundLocktime - orderMarginSeconds in
        if earliestSafe >? latestSafe then RefuseLock send_deadlines_cannot_be_ordered
        else if evmTimeout <? earliestSafe then RefuseLock claim_window_too_short
        else if evmTimeout >? latestSafe then RefuseLock recourse_after_refund_deadline
        else LockOk).

Inductive EvmSendAcceptance :=
  | AcceptEvmSend (refundLocktime evmTimeout : Z)
  | EvmAmountOutOfRange
  | RefuseEvmSend (reason : EvmSendLockRefusal).

Definition evaluateEvmSendAcceptance (amountSats minSats maxSats unilateralClaimDelay nowSeconds : Z)
    (orderMarginSeconds minClaimWindowSeconds : option Z) : result TimelockError EvmSendAcceptance :=
  if (amountSats <? minSats) || (amountSats >? maxSats) then Ok EvmAmountOutOfRange
  else
    let orderMargin := default EVM_ORDER_MARGIN_SECONDS orderMarginSeconds in
    let minClaimWindow := default EVM_MIN_CLAIM_WINDOW_SECONDS minClaimWindowSeconds in
    let refundLocktime := nowSeconds + Z.max unilateralClaimDelay minClaimWindow + orderMargin in
    let evmTimeout := refundLocktime - orderMargin in
    decision ← evaluateEvmSendLock evmTimeout refundLocktime nowSeconds orderMargin minClaimWindow;
    Ok (match decision with
        | LockOk => AcceptEvmSend refundLocktime evmTimeout
        | RefuseLock reason => RefuseEvmSend reason
        end).

(** ** Receive *)

Inductive EvmReceiveFundRefusal :=
  | evm_lock_expired
  | evm_timeout_too_far_out
  | client_claim_window_too_short
  | recourse_after_evm_timeout
  | receive_deadlines_cannot_be_ordered.

Inductive EvmReceiveFundDecision := FundOk | RefuseFund (reason : EvmReceiveFundRefusal).

Definition evaluateEvmReceiveFund (evmTimeout refundLocktime nowSeconds orderMarginSeconds
    minClaimWindowSeconds : Z) : result TimelockError EvmReceiveFundDecision :=
  _ ← assertAbsoluteLocktime (of_Z refundLocktime) "refundLocktime" seconds;
  _ ← assertAbsoluteLocktime (of_Z evmTimeout) "evmTimeout" seconds;
  Ok (if evmTimeout <=? nowSeconds + orderMarginSeconds then RefuseFund evm_lock_expired
      else if evmTimeout >? nowSeconds + EVM_MAX_CLIENT_TIMEOUT_SECONDS then
        RefuseFund evm_timeout_too_far_out
      else
        let earliestSafe := nowSeconds + minClaimWindowSeconds in
        let latestSafe := evmTimeout - orderMarginSeconds in
        if earliestSafe >? latestSafe then RefuseFund receive_deadlines_cannot_be_ordered
        else if refundLocktime <? earliestSafe then RefuseFund client_claim_window_too_short
        else if refundLocktime >? latestSafe then RefuseFund recourse_after_evm_timeout
        else FundOk).

Definition arkadeRefundLocktimeFor (evmTimeout nowSeconds : Z)
    (orderMarginSeconds minClaimWindowSeconds : option Z) : result TimelockError (option Z) :=
  let orderMargin := default EVM_ORDER_MARGIN_SECONDS orderMarginSeconds in
  let latestSafe := evmTimeout - orderMargin in
  decision ← evaluateEvmReceiveFund evmTimeout latestSafe nowSeconds orderMargin
    (default EVM_MIN_CLAIM_WINDOW_SECONDS minClaimWindowSeconds);
  Ok (match decision with FundOk => Some latestSafe | RefuseFund _ => None end).

(** ** Theorems *)

Ltac unfold_evm :=
  unfold EVM_ORDER_MARGIN_SECONDS, EVM_MIN_CLAIM_WINDOW_SECONDS, EVM_MAX_CLIENT_TIMEOUT_SECONDS,
    HOUR, MINUTE in *.

Lemma evaluateEvmSendLock_ok_iff T R now order claim :
  evaluateEvmSendLock T R now order claim = Ok LockOk ↔
  LOCKTIME_THRESHOLD ≤ R ∧ LOCKTIME_THRESHOLD ≤ T ∧ now < T ∧ now + claim ≤ T ∧ T + order ≤ R.
Proof.
  unfold evaluateEvmSendLock. rewrite !bind_Ok. split.
  - intros ([] & HR%assert_seconds_Ok & Hk). apply bind_Ok in Hk as ([] & HT%assert_seconds_Ok & [= Hk]).
    repeat case_match; try done. rewrite ?Z.gtb_ltb in *. bool_to_prop. lia.
  - intros (HR & HT & Hn & Hc & Ho). exists tt. split; [by apply assert_seconds_Ok|].
    rewrite (proj2 (assert_seconds_Ok _ _) HT). cbn [mbind result_bind]. f_equal.
    repeat case_match; try done; rewrite ?Z.gtb_ltb in *; bool_to_prop; lia.
Qed.

Lemma evaluateEvmReceiveFund_ok_iff T R now order claim :
  evaluateEvmReceiveFund T R now order claim = Ok FundOk ↔
  LOCKTIME_THRESHOLD ≤ R ∧ LOCKTIME_THRESHOLD ≤ T ∧ now + order < T ∧
  T ≤ now + EVM_MAX_CLIENT_TIMEOUT_SECONDS ∧ now + claim ≤ R ∧ R + order ≤ T.
Proof.
  unfold evaluateEvmReceiveFund. rewrite !bind_Ok. split.
  - intros ([] & HR%assert_seconds_Ok & Hk). apply bind_Ok in Hk as ([] & HT%assert_seconds_Ok & [= Hk]).
    repeat case_match; try done. rewrite ?Z.gtb_ltb in *. bool_to_prop. lia.
  - intros (HR & HT & Hn & Hc & Ho). exists tt. split; [by apply assert_seconds_Ok|].
    rewrite (proj2 (assert_seconds_Ok _ _) HT). cbn [mbind result_bind]. f_equal.
    repeat case_match; try done; rewrite ?Z.gtb_ltb in *; bool_to_prop; lia.
Qed.

(** The two corridors invert the same ordering. A send lock is allowed exactly
    when the solver's token timeout lies in the client's claim window and a
    margin before the client's Arkade refund; a receive is funded exactly when
    the solver's Arkade refund lies in the client's claim window and a margin
    before the client's token timeout, itself at most a day away. *)
Theorem evm_gates_ordered T R now order claim :
  (evaluateEvmSendLock T R now order claim = Ok LockOk ↔
     LOCKTIME_THRESHOLD ≤ R ∧ LOCKTIME_THRESHOLD ≤ T ∧ now < T ∧ now + claim ≤ T ∧ T + order ≤ R) ∧
  (evaluateEvmReceiveFund T R now order claim = Ok FundOk ↔
     LOCKTIME_THRESHOLD ≤ R ∧ LOCKTIME_THRESHOLD ≤ T ∧ now + order < T ∧
     T ≤ now + EVM_MAX_CLIENT_TIMEOUT_SECONDS ∧ now + claim ≤ R ∧ R + order ≤ T).
Proof. split; [apply evaluateEvmSendLock_ok_iff|apply evaluateEvmReceiveFund_ok_iff]. Qed.

(** Quoting an EVM send is total and safe: at any clock past the locktime
    threshold, with default margins, every amount in range is accepted, with a
    pair of deadlines its own lock gate passes, exactly the order margin apart
    and at least half an hour of claim window. *)
Theorem evm_send_acceptance_total (amount lo hi delay now : Z) :
  LOCKTIME_THRESHOLD ≤ now → lo ≤ amount ≤ hi →
  ∃ R T, evaluateEvmSendAcceptance amount lo hi delay now None None = Ok (AcceptEvmSend R T) ∧
    evaluateEvmSendLock T R now EVM_ORDER_MARGIN_SECONDS EVM_MIN_CLAIM_WINDOW_SECONDS = Ok LockOk ∧
    T + EVM_ORDER_MARGIN_SECONDS = R ∧ now + EVM_MIN_CLAIM_WINDOW_SECONDS ≤ T ∧ now + delay ≤ T.
Proof.
  intros Hnow Ha. unfold evaluateEvmSendAcceptance.
  rewrite (proj2 (Z.ltb_ge amount lo)), Z.gtb_ltb, (proj2 (Z.ltb_ge hi amount)) by lia.
  cbn [orb default from_option].
  set (R := now + Z.max delay EVM_MIN_CLAIM_WINDOW_SECONDS + EVM_ORDER_MARGIN_SECONDS).
  exists R, (R - EVM_ORDER_MARGIN_SECONDS).
  assert (evaluateEvmSendLock (R - EVM_ORDER_MARGIN_SECONDS) R now EVM_ORDER_MARGIN_SECONDS
    EVM_MIN_CLAIM_WINDOW_SECONDS = Ok LockOk) as Hok.
  { apply evaluateEvmSendLock_ok_iff. subst R. unfold LOCKTIME_THRESHOLD in *. unfold_evm. lia. }
  split; [by cbn; rewrite Hok|]. split; [done|]. subst R. unfold_evm. lia.
Qed.

Lemma evm_send_acceptance_total_witness :
  (LOCKTIME_THRESHOLD ≤ 1700000000 ∧ 1000 ≤ 50000 ≤ 100000) ∧
  ∃ R T, evaluateEvmSendAcceptance 50000 1000 100000 604672 1700000000 None None
      = Ok (AcceptEvmSend R T) ∧
    evaluateEvmSendLock T R 1700000000 EVM_ORDER_MARGIN_SECONDS EVM_MIN_CLAIM_WINDOW_SECONDS
      = Ok LockOk ∧
    T + EVM_ORDER_MARGIN_SECONDS = R ∧ 1700000000 + EVM_MIN_CLAIM_WINDOW_SECONDS ≤ T ∧
    1700000000 + 604672 ≤ T.
Proof.
  split; [by vm_compute|].
  apply (evm_send_acceptance_total 50000 1000 100000 604672 1700000000); by vm_compute.
Defined.

(** The anchor of an EVM send quote is the solver's own recourse, but the
    delay is added raw: on a block-typed server (a delay below 512) the quoted
    refund lets the client out before the solver's unilateral claim could
    open, for every delay of 16 blocks or more; on a seconds-typed one the
    refund opens a full margin after it. *)
Theorem evm_send_recourse_bound (amount lo hi delay now R T : Z) :
  evaluateEvmSendAcceptance amount lo hi delay now None None = Ok (AcceptEvmSend R T) →
  (512 ≤ delay → now + rawDelaySeconds delay + EVM_ORDER_MARGIN_SECONDS ≤ R) ∧
  (16 ≤ delay < 512 → R < now + rawDelaySeconds delay).
Proof.
  unfold evaluateEvmSendAcceptance. intros H. case_match; [done|].
  apply bind_Ok in H as (dec & _ & [= H]). destruct dec; [|done]. injection H as <- _.
  cbn [default from_option].
  split; intros Hd.
  - rewrite rawDelaySeconds_seconds by lia. unfold_evm. lia.
  - rewrite rawDelaySeconds_blocks by lia. unfold_evm. lia.
Qed.

Lemma evm_send_recourse_bound_witness :
  evaluateEvmSendAcceptance 50000 1000 100000 20 1700000000 None None
    = Ok (AcceptEvmSend 1700009000 1700001800) ∧
  (512 ≤ 20 → 1700000000 + rawDelaySeconds 20 + EVM_ORDER_MARGIN_SECONDS ≤ 1700009000) ∧
  (16 ≤ 20 < 512 → 1700009000 < 1700000000 + rawDelaySeconds 20).
Proof.
  split; [by vm_compute|].
  apply (evm_send_recourse_bound 50000 1000 100000 20 1700000000 1700009000 1700001800).
  by vm_compute.
Defined.

(** The Arkade refund proposed on a receive is the latest one the gate accepts:
    it is proposed exactly when some refund deadline is acceptable, and no
    acceptable one is later. *)
Theorem arkadeRefundLocktimeFor_latest (T now r : Z) :
  arkadeRefundLocktimeFor T now None None = Ok (Some r) ↔
  evaluateEvmReceiveFund T r now EVM_ORDER_MARGIN_SECONDS EVM_MIN_CLAIM_WINDOW_SECONDS = Ok FundOk ∧
  ∀ r', evaluateEvmReceiveFund T r' now EVM_ORDER_MARGIN_SECONDS EVM_MIN_CLAIM_WINDOW_SECONDS
          = Ok FundOk → r' ≤ r.
Proof.
  unfold arkadeRefundLocktimeFor. cbn [default from_option].
  setoid_rewrite evaluateEvmReceiveFund_ok_iff. rewrite bind_Ok. split.
  - intros (dec & Hdec & [= Hr]). destruct dec; [|done]. injection Hr as <-.
    apply evaluateEvmReceiveFund_ok_iff in Hdec. split; [done|lia].
  - intros [Hok Hmax]. exists FundOk. split.
    + apply evaluateEvmReceiveFund_ok_iff. lia.
    + specialize (Hmax (T - EVM_ORDER_MARGIN_SECONDS) ltac:(lia)). do 2 f_equal. lia.
Qed.
