(* ===== verification/EvmPlan.v ===== *)
(** * What an EVM swap does next

    The two planners, [packages/solver-core/src/core/evmSendPlan.ts] and
    [core/evmReceivePlan.ts]: pure functions from a row and an observation of
    the world to the next action. *)
From S2P Require Import Prelude StateMachine.

(** [EvmTransactionOutcome] of [ports/evm.ts]. *)
Inductive EvmTransactionOutcome := pending | success | reverted.
#[global] Instance EvmTransactionOutcome_eq_dec : EqDecision EvmTransactionOutcome.
Proof. solve_decision. Defined.

(** [a ?? b] on nullable values. *)
Definition coalesce {A} (a b : option A) : option A :=
  match a with Some x => Some x | None => b end.

(** ** Send *)
Module SendPlan.
Import EvmSend.

Record EvmSendPlanRow := mkRow {
  row_state : state;
  refundLocktime : Z;
  evmTimeout : Z;
  validUntil : Z;
  minConfirmations : Z;
  minAgeSeconds : Z;
  row_preimage : option string;
  evmRefundTxid : option string;
}.

Record EvmSendObservation := mkSeen {
  arkadeLockupFunded : bool;
  evmLockPresent : bool;
  evmLockReverted : bool;
  evmRefundOutcome : EvmTransactionOutcome;
  evmRefundLanded : bool;
  evmLockConfirmations : Z;
  evmLockAgeSeconds : Z;
  seen_preimage : option string;
  nowSeconds : Z;
  evmTimelockHeight : Z;
}.

Inductive EvmSendAction :=
  | wait
  | lock_evm
  | await_claim
  | claim_arkade (preimage : string)
  | refund_evm
  | record_refund
  | refuse (reason : string)
  | stick (reason : string).
#[global] Instance EvmSendAction_eq_dec : EqDecision EvmSendAction.
Proof. solve_decision. Defined.

Definition TERMINAL : list state := [claimed; refunded; refused; stuck].

Definition planEvmSend (row : EvmSendPlanRow) (seen : EvmSendObservation) : EvmSendAction :=
  if bool_decide (row_state row ∈ TERMINAL) then wait
  else match coalesce (seen_preimage seen) (row_preimage row) with
  | Some preimage =>
      if nowSeconds seen >=? refundLocktime row
      then stick "preimage revealed but the Arkade refund window has closed"
      else claim_arkade preimage
  | None =>
      match row_state row with
      | quoted =>
          if negb (arkadeLockupFunded seen) then
            if nowSeconds seen >=? validUntil row
            then refuse "quote expired before the client funded"
            else if nowSeconds seen >=? refundLocktime row
            then refuse "client never funded the Arkade lockup"
            else wait
          else if nowSeconds seen >=? validUntil row
          then refuse "lockup funded after the quote expired"
          else lock_evm
      | funded => lock_evm
      | locking_evm =>
          if negb (evmLockPresent seen) && evmLockReverted seen
          then stick "the ERC20 lock transaction reverted; no lock was created"
          else if evmTimelockHeight seen >=? evmTimeout row then refund_evm
          else if negb (evmLockPresent seen) then wait
          else if (evmLockConfirmations seen >=? minConfirmations row) &&
                  (evmLockAgeSeconds seen >=? minAgeSeconds row)
          then await_claim
          else wait
      | awaiting_claim =>
          if evmTimelockHeight seen >=? evmTimeout row then refund_evm else wait
      | refunding_evm =>
          if bool_decide (evmRefundOutcome seen = success) then record_refund
          else if bool_decide (evmRefundOutcome seen = reverted) && evmLockPresent seen
          then stick "the ERC20 refund transaction reverted; the lock is still funded"
          else if bool_decide (evmRefundTxid row = None) && evmLockPresent seen &&
                  (evmTimelockHeight seen >=? evmTimeout row)
          then refund_evm
          else if evmRefundLanded seen then record_refund
          else wait
      | _ => wait
      end
  end.

Definition plan_preimage (row : EvmSendPlanRow) (seen : EvmSendObservation) : option string :=
  coalesce (seen_preimage seen) (row_preimage row).

Definition is_terminal (s : state) : bool :=
  match s with claimed | refunded | refused | stuck => true | _ => false end.

Lemma is_terminal_spec s : bool_decide (s ∈ TERMINAL) = is_terminal s.
Proof. by destruct s. Qed.

(** Expand the planner at a concrete state, one goal per branch. *)
Ltac plan_cases :=
  unfold planEvmSend, plan_preimage in *; rewrite is_terminal_spec; cbn [is_terminal row_state];
  repeat case_match; rewrite ?Z.geb_leb in *; bool_to_prop;
  repeat match goal with
  | H : bool_decide _ = true |- _ => apply bool_decide_eq_true in H
  | H : bool_decide _ = false |- _ => apply bool_decide_eq_false in H
  end.

(** Both directions of a characterisation, in one branch. *)
Ltac plan_branch :=
  split; intros; destruct_and?; destruct_or?; destruct_and?; simplify_eq/=;
  first [done | congruence | lia | intuition (congruence || lia)].

Ltac plan_iff row :=
  destruct row as [[] ?????? []]; plan_cases; plan_branch.

Lemma plan_lock_iff row seen :
  planEvmSend row seen = lock_evm ↔
  plan_preimage row seen = None ∧
  (row_state row = funded ∨
   row_state row = quoted ∧ arkadeLockupFunded seen = true ∧ nowSeconds seen < validUntil row).
Proof. destruct row as [[] ?????? []]; plan_cases; plan_branch. Qed.

Lemma plan_claim_iff row seen p :
  planEvmSend row seen = claim_arkade p ↔
  is_terminal (row_state row) = false ∧ plan_preimage row seen = Some p ∧
  nowSeconds seen < refundLocktime row.
Proof. destruct row as [[] ?????? []]; plan_cases; plan_branch. Qed.

Lemma plan_refund_iff row seen :
  planEvmSend row seen = refund_evm ↔
  plan_preimage row seen = None ∧ evmTimeout row ≤ evmTimelockHeight seen ∧
  (row_state row = awaiting_claim ∨
   row_state row = locking_evm ∧ (evmLockPresent seen = true ∨ evmLockReverted seen = false) ∨
   row_state row = refunding_evm ∧ evmRefundOutcome seen = pending ∧
     evmRefundTxid row = None ∧ evmLockPresent seen = true).
Proof.
  destruct row as [[] ?????? []]; plan_cases; try plan_branch.
  all: destruct (evmLockPresent seen), (evmLockReverted seen), (evmRefundOutcome seen);
    plan_branch.
Qed.

Lemma plan_record_refund_iff row seen :
  planEvmSend row seen = record_refund ↔
  plan_preimage row seen = None ∧ row_state row = refunding_evm ∧
  (evmRefundOutcome seen = success ∨
   evmRefundLanded seen = true ∧
     (evmLockPresent seen = false ∨
      evmRefundOutcome seen = pending ∧
        (evmRefundTxid row ≠ None ∨ evmTimelockHeight seen < evmTimeout row))).
Proof.
  destruct row as [[] ?????? []]; plan_cases; try plan_branch.
  all: destruct (evmLockPresent seen), (evmRefundLanded seen), (evmRefundOutcome seen);
    plan_branch.
Qed.

Lemma plan_refuse row seen r :
  planEvmSend row seen = refuse r →
  row_state row = quoted ∧ plan_preimage row seen = None ∧
  (validUntil row ≤ nowSeconds seen ∨ refundLocktime row ≤ nowSeconds seen).
Proof. destruct row as [[] ?????? []]; plan_cases; intros; simplify_eq; tauto. Qed.

Lemma plan_await_iff row seen :
  planEvmSend row seen = await_claim ↔
  plan_preimage row seen = None ∧ row_state row = locking_evm ∧
  evmTimelockHeight seen < evmTimeout row ∧ evmLockPresent seen = true ∧
  minConfirmations row ≤ evmLockConfirmations seen ∧ minAgeSeconds row ≤ evmLockAgeSeconds seen.
Proof. destruct row as [[] ?????? []]; plan_cases; plan_branch. Qed.

Lemma plan_stick row seen r : planEvmSend row seen = stick r → is_terminal (row_state row) = false.
Proof. destruct row as [[] ?????? []]; plan_cases; intros; by simplify_eq/=. Qed.

(** Which observation licenses which irreversible action, exactly, for the
    send planner: locking the ERC20 (rules 1 and 5), claiming the Arkade
    lockup (2 and 4), refunding the ERC20 (3, 6 and 8), recording a refund
    (7 and 9), and refusing the swap, which only a quoted row with no
    preimage can be. *)
Theorem plan_send_exact row seen :
  (planEvmSend row seen = lock_evm ↔
     plan_preimage row seen = None ∧
     (row_state row = funded ∨
      row_state row = quoted ∧ arkadeLockupFunded seen = true ∧
        nowSeconds seen < validUntil row)) ∧
  (∀ p, planEvmSend row seen = claim_arkade p ↔
     is_terminal (row_state row) = false ∧ plan_preimage row seen = Some p ∧
     nowSeconds seen < refundLocktime row) ∧
  (planEvmSend row seen = refund_evm ↔
     plan_preimage row seen = None ∧ evmTimeout row ≤ evmTimelockHeight seen ∧
     (row_state row = awaiting_claim ∨
      row_state row = locking_evm ∧ (evmLockPresent seen = true ∨ evmLockReverted seen = false) ∨
      row_state row = refunding_evm ∧ evmRefundOutcome seen = pending ∧
        evmRefundTxid row = None ∧ evmLockPresent seen = true)) ∧
  (planEvmSend row seen = record_refund ↔
     plan_preimage row seen = None ∧ row_state row = refunding_evm ∧
     (evmRefundOutcome seen = success ∨
      evmRefundLanded seen = true ∧
        (evmLockPresent seen = false ∨
         evmRefundOutcome seen = pending ∧
           (evmRefundTxid row ≠ None ∨ evmTimelockHeight seen < evmTimeout row)))) ∧
  (∀ r, planEvmSend row seen = refuse r →
     row_state row = quoted ∧ plan_preimage row seen = None ∧
     (validUntil row ≤ nowSeconds seen ∨ refundLocktime row ≤ nowSeconds seen)).
Proof.
  split_and!; [apply plan_lock_iff|intros; apply plan_claim_iff|apply plan_refund_iff
              |apply plan_record_refund_iff|intros; by eapply plan_refuse].
Qed.

(** C37: no send row waits past its deadlines: once the quote has expired and the
    lock's timeout height is reached, a row that is quoted, funded, locking
    or awaiting a claim gets an action. *)
Theorem plan_send_no_stall row seen :
  row_state row ∈ [quoted; funded; locking_evm; awaiting_claim] →
  validUntil row ≤ nowSeconds seen → evmTimeout row ≤ evmTimelockHeight seen →
  planEvmSend row seen ≠ wait.
Proof.
  destruct row as [st ?????? pre]. intros Hs%list_elem_of_In Hv Ht.
  destruct Hs as [Hs|[Hs|[Hs|[Hs|[]]]]]; cbn in Hs, Hv, Ht; subst st; destruct pre;
    plan_cases; cbn in *; try done; lia.
Qed.

Lemma plan_send_no_stall_witness :
  let row := mkRow awaiting_claim 1700009000 20000000 1700000060 12 60 None None in
  let seen := mkSeen true true false pending false 30 400 None 1700005000 20000000 in
  (row_state row ∈ [quoted; funded; locking_evm; awaiting_claim] ∧
   validUntil row ≤ nowSeconds seen ∧ evmTimeout row ≤ evmTimelockHeight seen) ∧
  planEvmSend row seen ≠ wait.
Proof.
  intros row seen.
  assert (row_state row ∈ [quoted; funded; locking_evm; awaiting_claim]) as Hs.
  { apply list_elem_of_In. cbn. tauto. }
  split; [by split; [exact Hs|vm_compute]|].
  apply (plan_send_no_stall row seen Hs); by vm_compute.
Defined.
End SendPlan.

(** ** Receive *)
Module ReceivePlan.
Import EvmReceive.

Record EvmReceivePlanRow := mkRow {
  row_state : state;
  refundLocktime : Z;
  evmTimeout : Z;
  validUntil : Z;
  minConfirmations : Z;
  minAgeSeconds : Z;
  row_preimage : option string;
  evmClaimTxid : option string;
}.

Definition EVM_RECEIVE_FUND_LANDING_BLOCKS : Z := 20.
Definition EVM_RECEIVE_CLAIM_LANDING_BLOCKS : Z := 40.
Definition EVM_RECEIVE_CLAIM_MARGIN_BLOCKS : Z :=
  EVM_RECEIVE_FUND_LANDING_BLOCKS + EVM_RECEIVE_CLAIM_LANDING_BLOCKS.
Definition EVM_RECEIVE_FUND_WINDOW_REFUSAL : string :=
  "client ERC20 timeout too close to fund against".

Definition evmReceiveFundWindowClosed (evmTimelockHeight evmTimeout : Z) : bool :=
  evmTimelockHeight + EVM_RECEIVE_CLAIM_MARGIN_BLOCKS >=? evmTimeout.

Record EvmReceiveObservation := mkSeen {
  evmLockPresent : bool;
  evmLockConfirmations : Z;
  evmLockAgeSeconds : Z;
  arkadeLockupFunded : bool;
  evmClaimOutcome : EvmTransactionOutcome;
  seen_preimage : option string;
  nowSeconds : Z;
  evmTimelockHeight : Z;
}.

Inductive EvmReceiveAction :=
  | wait
  | fund_arkade
  | await_claim
  | claim_evm (preimage : string)
  | record_claim
  | refund_arkade
  | refuse (reason : string)
  | stick (reason : string).
#[global] Instance EvmReceiveAction_eq_dec : EqDecision EvmReceiveAction.
Proof. solve_decision. Defined.

Definition TERMINAL : list state := [claimed; refunded; refused; stuck].

Definition planEvmReceive (row : EvmReceivePlanRow) (seen : EvmReceiveObservation)
  : EvmReceiveAction :=
  if bool_decide (row_state row ∈ TERMINAL) then wait
  else match coalesce (seen_preimage seen) (row_preimage row) with
  | Some preimage =>
      if bool_decide (evmClaimTxid row ≠ None) && bool_decide (evmClaimOutcome seen = success)
      then record_claim
      else if evmTimelockHeight seen >=? evmTimeout row
      then stick "preimage revealed but the client ERC20 timeout has passed"
      else if bool_decide (evmClaimTxid row ≠ None) then
        if bool_decide (evmClaimOutcome seen = reverted)
        then stick "the ERC20 claim transaction reverted; the solver has not been paid"
        else wait
      else claim_evm preimage
  | None =>
      match row_state row with
      | quoted | awaiting_lock =>
          if negb (evmLockPresent seen) then
            if nowSeconds seen >=? validUntil row
            then refuse "quote expired before the client locked"
            else if nowSeconds seen >=? refundLocktime row
            then refuse "client never locked the ERC20"
            else wait
          else if nowSeconds seen >=? validUntil row
          then refuse "ERC20 lock observed after the quote expired"
          else if (evmLockConfirmations seen <? minConfirmations row) ||
                  (evmLockAgeSeconds seen <? minAgeSeconds row)
          then wait
          else if evmReceiveFundWindowClosed (evmTimelockHeight seen) (evmTimeout row)
          then refuse EVM_RECEIVE_FUND_WINDOW_REFUSAL
          else fund_arkade
      | locked => fund_arkade
      | funding_arkade => if arkadeLockupFunded seen then await_claim else wait
      | awaiting_claim =>
          if nowSeconds seen >=? refundLocktime row then refund_arkade else wait
      | refunding_arkade => if arkadeLockupFunded seen then refund_arkade else wait
      | _ => wait
      end
  end.

Definition plan_preimage (row : EvmReceivePlanRow) (seen : EvmReceiveObservation) : option string :=
  coalesce (seen_preimage seen) (row_preimage row).

Definition is_terminal (s : state) : bool :=
  match s with claimed | refunded | refused | stuck => true | _ => false end.

Lemma receive_is_terminal_spec s : bool_decide (s ∈ TERMINAL) = is_terminal s.
Proof. by destruct s. Qed.

Ltac plan_cases :=
  unfold planEvmReceive, plan_preimage in *; rewrite receive_is_terminal_spec; cbn [is_terminal row_state];
  repeat case_match; rewrite ?Z.geb_leb in *; bool_to_prop;
  repeat match goal with
  | H : bool_decide _ = true |- _ => apply bool_decide_eq_true in H
  | H : bool_decide _ = false |- _ => apply bool_decide_eq_false in H
  end.

Ltac plan_branch :=
  split; intros; destruct_and?; destruct_or?; destruct_and?;
  repeat match goal with
  | H : bool_decide _ = false |- _ => apply bool_decide_eq_false in H
  end; simplify_eq/=;
  first [done | congruence | lia | intuition (congruence || lia)].

Lemma plan_fund_iff row seen :
  planEvmReceive row seen = fund_arkade ↔
  plan_preimage row seen = None ∧
  (row_state row = locked ∨
   (row_state row = quoted ∨ row_state row = awaiting_lock) ∧
     evmLockPresent seen = true ∧ nowSeconds seen < validUntil row ∧
     minConfirmations row ≤ evmLockConfirmations seen ∧
     minAgeSeconds row ≤ evmLockAgeSeconds seen ∧
     evmReceiveFundWindowClosed (evmTimelockHeight seen) (evmTimeout row) = false).
Proof. destruct row as [[] ?????? []]; plan_cases; plan_branch. Qed.

Lemma receive_plan_claim_iff row seen p :
  planEvmReceive row seen = claim_evm p ↔
  is_terminal (row_state row) = false ∧ plan_preimage row seen = Some p ∧
  evmTimelockHeight seen < evmTimeout row ∧ evmClaimTxid row = None.
Proof. destruct row as [[] ?????? []]; plan_cases; plan_branch. Qed.

Lemma plan_record_claim_iff row seen :
  planEvmReceive row seen = record_claim ↔
  is_terminal (row_state row) = false ∧ plan_preimage row seen ≠ None ∧
  evmClaimTxid row ≠ None ∧ evmClaimOutcome seen = success.
Proof. destruct row as [[] ?????? []]; plan_cases; plan_branch. Qed.

Lemma receive_plan_refund_iff row seen :
  planEvmReceive row seen = refund_arkade ↔
  plan_preimage row seen = None ∧
  (row_state row = awaiting_claim ∧ refundLocktime row ≤ nowSeconds seen ∨
   row_state row = refunding_arkade ∧ arkadeLockupFunded seen = true).
Proof. destruct row as [[] ?????? []]; plan_cases; plan_branch. Qed.

Lemma receive_plan_await_iff row seen :
  planEvmReceive row seen = await_claim ↔
  plan_preimage row seen = None ∧ row_state row = funding_arkade ∧ arkadeLockupFunded seen = true.
Proof. destruct row as [[] ?????? []]; plan_cases; plan_branch. Qed.

Lemma receive_plan_refuse row seen r :
  planEvmReceive row seen = refuse r →
  (row_state row = quoted ∨ row_state row = awaiting_lock) ∧ plan_preimage row seen = None.
Proof. destruct row as [[] ?????? []]; plan_cases; intros; simplify_eq; tauto. Qed.

Lemma receive_plan_stick row seen r :
  planEvmReceive row seen = stick r → is_terminal (row_state row) = false.
Proof. destruct row as [[] ?????? []]; plan_cases; intros; simplify_eq; done. Qed.

(** A row whose funding request failed has no way on of its own: without its
    lockup and without a preimage it waits at every time and height. *)
Lemma funding_without_lockup_waits row seen :
  row_state row = funding_arkade → plan_preimage row seen = None → arkadeLockupFunded seen = false →
  planEvmReceive row seen = wait.
Proof. unfold planEvmReceive, plan_preimage. by intros -> -> ->. Qed.

(** Which observation licenses which irreversible action, exactly, for the
    receive planner: the sats go out only against a lock of proven depth and
    age, quoted terms still binding and both landings' worth of blocks left
    (rules 1, 2 and 5); the ERC20 is claimed as soon as the preimage is known
    and only once, before the client's timeout (3 and 4); the row says
    [claimed] only over a mined claim (6); the solver's sats come back only
    without a preimage; and a swap is refused only before anything moved. *)
Theorem plan_receive_exact row seen :
  (planEvmReceive row seen = fund_arkade ↔
     plan_preimage row seen = None ∧
     (row_state row = locked ∨
      (row_state row = quoted ∨ row_state row = awaiting_lock) ∧
        evmLockPresent seen = true ∧ nowSeconds seen < validUntil row ∧
        minConfirmations row ≤ evmLockConfirmations seen ∧
        minAgeSeconds row ≤ evmLockAgeSeconds seen ∧
        evmTimelockHeight seen + EVM_RECEIVE_CLAIM_MARGIN_BLOCKS < evmTimeout row)) ∧
  (∀ p, planEvmReceive row seen = claim_evm p ↔
     is_terminal (row_state row) = false ∧ plan_preimage row seen = Some p ∧
     evmTimelockHeight seen < evmTimeout row ∧ evmClaimTxid row = None) ∧
  (planEvmReceive row seen = record_claim ↔
     is_terminal (row_state row) = false ∧ plan_preimage row seen ≠ None ∧
     evmClaimTxid row ≠ None ∧ evmClaimOutcome seen = success) ∧
  (planEvmReceive row seen = refund_arkade ↔
     plan_preimage row seen = None ∧
     (row_state row = awaiting_claim ∧ refundLocktime row ≤ nowSeconds seen ∨
      row_state row = refunding_arkade ∧ arkadeLockupFunded seen = true)) ∧
  (∀ r, planEvmReceive row seen = refuse r →
     (row_state row = quoted ∨ row_state row = awaiting_lock) ∧ plan_preimage row seen = None).
Proof.
  split_and!; [|intros; apply receive_plan_claim_iff|apply plan_record_claim_iff|apply receive_plan_refund_iff
              |intros; by eapply receive_plan_refuse].
  rewrite plan_fund_iff. unfold evmReceiveFundWindowClosed. rewrite Z.geb_leb, Z.leb_gt. reflexivity.
Qed.
End ReceivePlan.
