(* ===== verification/BlockTime.v ===== *)
(** * EVM block heights and seconds

    [packages/solver-rails-evm/src/evm/blockTime.ts]: a cadence is the pair of
    the fastest and the slowest pace, in seconds per block, and each direction
    of the conversion takes the pessimistic one. Quotients are exact
    rationals. *)
From Stdlib Require Import QArith Qround Lqa.
From S2P Require Import Prelude.
#[local] Open Scope Z_scope.

Record EvmBlockCadence := mkCadence {
  fastestSecondsPerBlock : num;
  slowestSecondsPerBlock : num;
}.

Inductive CadenceError :=
  | NotPositive (name : string) (value : num)
  | FastAboveSlow (fast slow : num)
  | DurationNotPositive (seconds : num).

Definition zero : num := of_Z 0.

Definition assertCadence (c : EvmBlockCadence) : result CadenceError unit :=
  let fast := fastestSecondsPerBlock c in
  let slow := slowestSecondsPerBlock c in
  _ ← throw_if (negb (isFinite fast) || num_le fast zero) (NotPositive "fastestSecondsPerBlock" fast);
  _ ← throw_if (negb (isFinite slow) || num_le slow zero) (NotPositive "slowestSecondsPerBlock" slow);
  throw_if (num_lt slow fast) (FastAboveSlow fast slow).

Definition finite (n : num) : Q := match n with Fin q => q | _ => 0%Q end.

Definition deadlineSecondsForBlock (timeoutBlock currentBlock nowSeconds : Z) (c : EvmBlockCadence)
    : result CadenceError Q :=
  _ ← assertCadence c;
  let remaining := timeoutBlock - currentBlock in
  Ok (inject_Z nowSeconds + inject_Z remaining * finite (fastestSecondsPerBlock c))%Q.

Definition blocksForDuration (seconds : num) (c : EvmBlockCadence) : result CadenceError Z :=
  _ ← assertCadence c;
  _ ← throw_if (negb (isFinite seconds) || num_le seconds zero) (DurationNotPositive seconds);
  let blocks := Qfloor (finite seconds / finite (slowestSecondsPerBlock c)) in
  Ok (Z.max 1 blocks).

(** ** What each direction errs towards *)

Lemma positive_num n : negb (isFinite n) || num_le n zero = false ↔ ∃ q, n = Fin q ∧ (0 < q)%Q.
Proof.
  destruct n as [q| |b]; cbn; [|split; [done|by intros (? & ? & ?)]..].
  unfold Qlt. cbn. rewrite Z.leb_gt, !Z.mul_1_r. split.
  - intros Hq. exists q. split; [done|]. lia.
  - intros (q' & [= <-] & Hq). lia.
Qed.

Lemma assertCadence_Ok c :
  assertCadence c = Ok tt ↔
  ∃ f s, fastestSecondsPerBlock c = Fin f ∧ slowestSecondsPerBlock c = Fin s ∧ (0 < f)%Q ∧ (f <= s)%Q.
Proof.
  unfold assertCadence. rewrite throw_if_bind, throw_if_bind, throw_if_Ok, !positive_num. split.
  - intros ((f & Hf & Hf0) & (s & Hs & Hs0) & Hlt). exists f, s. rewrite Hf, Hs in Hlt.
    split_and!; [done..|]. unfold Qle. cbn in Hlt. apply Z.ltb_ge in Hlt. lia.
  - intros (f & s & Hf & Hs & Hf0 & Hfs). split_and!; [by exists f| |].
    + exists s. split; [done|]. by eapply Qlt_le_trans.
    + rewrite Hf, Hs. cbn. apply Z.ltb_ge. unfold Qle in Hfs. lia.
Qed.

(** A timelock sized by [blocksForDuration] never outlives the deadline it
    was sized against: at any pace up to the slowest, its blocks take at most
    the duration, one more block could exceed it, and the only exception is the
    one-block minimum. Read back with [deadlineSecondsForBlock] the timelock
    falls at or before the deadline, and that reading is never later than the
    block itself at any pace the chain can keep. *)
Theorem timelock_conversions_err_safely d c n :
  blocksForDuration (Fin d) c = Ok n →
  ∃ f s, fastestSecondsPerBlock c = Fin f ∧ slowestSecondsPerBlock c = Fin s ∧
    1 ≤ n ∧
    (d < inject_Z (n + 1) * s)%Q ∧
    (n = 1 ∨ ∀ pace, (0 <= pace)%Q → (pace <= s)%Q → (inject_Z n * pace <= d)%Q) ∧
    ∀ height now, ∃ q, deadlineSecondsForBlock (height + n) height now c = Ok q ∧
      (n = 1 ∨ (q <= inject_Z now + d)%Q) ∧
      ∀ pace, (f <= pace)%Q → (q <= inject_Z now + inject_Z n * pace)%Q.
Proof.
  unfold blocksForDuration, deadlineSecondsForBlock. intros ([] & Hc & Hb)%bind_Ok.
  apply throw_if_bind in Hb as [Hd Hn]. apply positive_num in Hd as (d' & [= <-] & Hd).
  pose proof Hc as (f & s & Hf & Hs & Hf0 & Hfs)%assertCadence_Ok. exists f, s.
  rewrite Hs in Hn. cbn [finite] in Hn. injection Hn as Hn.
  assert (0 < s)%Q as Hs0 by (by eapply Qlt_le_trans).
  change (Z.max 1 (Qfloor (d / s)) = n) in Hn.
  assert (inject_Z (Qfloor (d / s)) * s <= d)%Q as Hlow.
  { pose proof (Qfloor_le (d / s)) as H. apply (Qmult_le_compat_r _ _ s) in H; [|lra].
    unfold Qdiv in H. rewrite <- Qmult_assoc, (Qmult_comm (/ s)), Qmult_inv_r, Qmult_1_r in H by lra. exact H. }
  assert (d < inject_Z (Qfloor (d / s) + 1) * s)%Q as Hhigh.
  { pose proof (Qlt_floor (d / s)) as H. apply (Qmult_lt_compat_r _ _ s) in H; [|done].
    unfold Qdiv in H. rewrite <- Qmult_assoc, (Qmult_comm (/ s)), Qmult_inv_r, Qmult_1_r in H by lra. exact H. }
  revert Hn Hlow Hhigh. generalize (Qfloor (d / s)). intros k Hn Hlow Hhigh.
  assert (k + 1 ≤ n + 1) as Hkn by lia.
  assert (0 <= inject_Z n)%Q as Hn0 by (change 0%Q with (inject_Z 0); rewrite <- Zle_Qle; lia).
  split_and!; [done|done|lia| | |].
  - eapply Qlt_le_trans; [exact Hhigh|]. apply Qmult_le_compat_r; [|lra]. by rewrite <- Zle_Qle.
  - destruct (decide (n = 1)) as [|Hne]; [by left|right]. assert (n = k) as -> by lia.
    intros pace Hp0 Hp. eapply Qle_trans; [|exact Hlow]. rewrite !(Qmult_comm (inject_Z k)).
    by apply Qmult_le_compat_r.
  - intros height now. rewrite Hc, Hf. cbn [mbind result_bind finite].
    replace (height + n - height) with n by lia. eexists. split; [done|]. split.
    + destruct (decide (n = 1)) as [|Hne]; [by left|right]. assert (n = k) as -> by lia.
      apply Qplus_le_compat; [apply Qle_refl|]. eapply Qle_trans; [|exact Hlow].
      rewrite !(Qmult_comm (inject_Z k)). by apply Qmult_le_compat_r.
    + intros pace Hp. apply Qplus_le_compat; [apply Qle_refl|].
      rewrite !(Qmult_comm (inject_Z n)). by apply Qmult_le_compat_r.
Qed.

(** Arbitrum-like blocks, a quarter to one second, and a two-hour lock. *)
Lemma timelock_conversions_err_safely_witness :
  let c := mkCadence (Fin (1 # 4)) (of_Z 1) in
  blocksForDuration (of_Z 7200) c = Ok 7200 ∧ 1 ≤ 7200.
Proof.
  intros c. assert (blocksForDuration (of_Z 7200) c = Ok 7200) as H by reflexivity. split; [exact H|].
  destruct (timelock_conversions_err_safely _ _ _ H) as (f & s & _ & _ & H1 & _). exact H1.
Defined.
