(* ===== verification/Prog.v ===== *)
(** * Effectful code as programs over events

    The handlers of the services are asynchronous: between any two of their
    awaits another instance of the service may act on the same store, and the
    process may die. Such a handler is a [prog], a finite tree whose nodes are
    the individual external events — one database statement, one read of a
    chain, one broadcast — in the order the code performs them.

    [handle] says what an event may do to the world and what it may answer.
    A configuration is a world with any number of running programs; its steps
    interleave them event by event, start new ones and drop running ones (a
    crash). [wp] is the proof rule: a program all of whose events keep the
    invariant, whatever the others do in between, can be run by any number of
    instances, and the invariant holds at every point of every interleaving. *)
From S2P Require Import Prelude.

Inductive prog (E : Type → Type) (A : Type) : Type :=
  | Ret (a : A)
  | Vis (X : Type) (e : E X) (k : X → prog E A).
Arguments Ret {E A} a.
Arguments Vis {E A X} e k.

Fixpoint prog_bind {E A B} (p : prog E A) (f : A → prog E B) : prog E B :=
  match p with
  | Ret a => f a
  | Vis e k => Vis e (λ x, prog_bind (k x) f)
  end.

Definition trigger {E X} (e : E X) : prog E X := Vis e Ret.

(** ** Programs that may throw *)

Definition io (E : Type → Type) (X A : Type) : Type := prog E (result X A).

Section io.
Context {E : Type → Type} {X : Type}.

Definition ret {A} (a : A) : io E X A := Ret (Ok a).
Definition throw {A} (e : X) : io E X A := Ret (Err e).

Definition bind {A B} (p : io E X A) (f : A → io E X B) : io E X B :=
  prog_bind p (λ r, match r with Ok a => f a | Err e => throw e end).

(** [try p catch (e) h e] *)
Definition try_catch {A} (p : io E X A) (h : X → io E X A) : io E X A :=
  prog_bind p (λ r, match r with Ok a => ret a | Err e => h e end).

(** [try p finally q], [q] not throwing *)
Definition finally {A} (p : io E X A) (q : prog E unit) : io E X A :=
  prog_bind p (λ r, prog_bind q (λ _, Ret r)).

(** An event that cannot throw, and one whose answer may be an error. *)
Definition call {Y} (e : E Y) : io E X Y := Vis e (λ y, ret y).
Definition attempt {Y} (e : E (result X Y)) : io E X Y := Vis e Ret.

(** [for (const a of l) body], collecting what the passes push. *)
Fixpoint for_each {A B} (l : list A) (body : A → io E X (option B)) : io E X (list B) :=
  match l with
  | [] => ret []
  | a :: rest =>
      bind (body a) (λ pushed, bind (for_each rest body) (λ others,
        ret (match pushed with Some b => b :: others | None => others end)))
  end.
End io.

Declare Scope io_scope.
Delimit Scope io_scope with io.
Notation "x <- p ;; q" := (bind p (λ x, q))
  (at level 100, p at next level, right associativity) : io_scope.
Notation "p ;;; q" := (bind p (λ _, q)) (at level 100, right associativity) : io_scope.

(** Running a program against a deterministic world. *)
Fixpoint run {E : Type → Type} {W A : Type} (h : ∀ X, E X → W → X * W) (p : prog E A) (w : W)
  : A * W :=
  match p with
  | Ret a => (a, w)
  | Vis e k => let '(x, w') := h _ e w in run h (k x) w'
  end.

(** The same, the world free to refuse an event. *)
Fixpoint play {E : Type → Type} {W A : Type} (h : ∀ X, E X → W → option (X * W)) (p : prog E A) (w : W)
  : option (A * W) :=
  match p with
  | Ret a => Some (a, w)
  | Vis e k => match h _ e w with Some (x, w') => play h (k x) w' | None => None end
  end.

(** A program run for its effect. *)
Definition forget {E A} (p : prog E A) : prog E unit := prog_bind p (λ _, Ret tt).

(** ** Concurrency

    Every running program is a thread with an identity, so that what one
    instance alone may do can be told apart from what the others may. *)
Class Preorders {W : Type} (R : nat → W → W → Prop) : Prop := {
  Rely_refl t w : R t w w;
  Rely_trans t w1 w2 w3 : R t w1 w2 → R t w2 w3 → R t w1 w3;
}.

Section concurrency.
Context {E : Type → Type} {W : Type}.
(** [handle t X e w w' x]: issued by thread [t] in world [w], the event [e] may
    leave [w'] and answer [x]. *)
Context (handle : nat → ∀ X, E X → W → W → X → Prop).
(** What holds of every world; what thread [t] may assume of the others. *)
Context (Inv : W → Prop) (Rely : nat → W → W → Prop).

(** Thread [t] takes the world from [w] to [w'] by a move all others tolerate. *)
Definition guarantees (t : nat) (w w' : W) : Prop := ∀ u, u ≠ t → Rely u w w'.

(** [wp t p Q w]: started by [t] in any world the others may have brought about
    from [w], each event of [p] keeps [Inv] and is tolerated by the others, and
    [Q] holds of the result. *)
Fixpoint wp {A} (t : nat) (p : prog E A) (Q : A → W → Prop) (w : W) : Prop :=
  match p with
  | Ret a => ∀ w', Rely t w w' → Inv w' → Q a w'
  | Vis e k =>
      ∀ w', Rely t w w' → Inv w' → ∀ w'' x, handle t _ e w' w'' x →
        Inv w'' ∧ guarantees t w' w'' ∧ wp t (k x) Q w''
  end.

Context `{!Preorders Rely}.

Lemma wp_stable {A} t (p : prog E A) Q w w' : Rely t w w' → wp t p Q w → wp t p Q w'.
Proof.
  destruct p as [a|X e k]; cbn; intros Hr Hp; intros w2 H2; apply Hp; by eapply Rely_trans.
Qed.

Lemma wp_mono {A} t (p : prog E A) (Q Q' : A → W → Prop) w :
  (∀ a w', Inv w' → Q a w' → Q' a w') → wp t p Q w → wp t p Q' w.
Proof.
  intros HQ. revert w. induction p as [a|X e k IH]; cbn; intros w Hp.
  - intros w' Hr Hi. auto.
  - intros w' Hr Hi w'' x Hh. destruct (Hp w' Hr Hi w'' x Hh) as (? & ? & ?). auto.
Qed.

Lemma wp_bind {A B} t (p : prog E A) (f : A → prog E B) (Q : B → W → Prop) w :
  wp t p (λ a w', wp t (f a) Q w') w → wp t (prog_bind p f) Q w.
Proof.
  revert w. induction p as [a|X e k IH]; cbn; intros w Hp.
  - assert (∀ w', Rely t w w' → Inv w' → wp t (f a) Q w') as Ha by exact Hp. clear Hp.
    pose proof (Rely_refl t w) as Hr.
    destruct (f a) as [b|X e k]; cbn in *; intros w' Hr' Hi'.
    + by apply (Ha w' Hr' Hi' w'); [apply Rely_refl|].
    + by apply (Ha w' Hr' Hi' w'); [apply Rely_refl|].
  - intros w' Hr Hi w'' x Hh. destruct (Hp w' Hr Hi w'' x Hh) as (? & ? & ?). auto.
Qed.

(** *** Assertions and triples *)

(** Assertions the other threads cannot falsify. *)
Class Stable (t : nat) (K : W → Prop) : Prop :=
  stable_rely w w' : Rely t w w' → Inv w' → K w → K w'.

#[export] Instance Stable_const t (P : Prop) : Stable t (λ _, P).
Proof. by intros w w' _ _. Qed.
#[export] Instance Stable_and t K1 K2 : Stable t K1 → Stable t K2 → Stable t (λ w, K1 w ∧ K2 w).
Proof. intros H1 H2 w w' Hr Hi [??]. split; [by eapply H1|by eapply H2]. Qed.
#[export] Instance Stable_impl t (P : Prop) K : Stable t K → Stable t (λ w, P → K w).
Proof. intros H w w' Hr Hi HK HP. eapply H; eauto. Qed.
#[export] Instance Stable_exists {A} t (K : A → W → Prop) :
  (∀ a, Stable t (K a)) → Stable t (λ w, ∃ a, K a w).
Proof. intros H w w' Hr Hi [a Ha]. exists a. by eapply H. Qed.
#[export] Instance Stable_forall {A} t (K : A → W → Prop) :
  (∀ a, Stable t (K a)) → Stable t (λ w, ∀ a, K a w).
Proof. intros H w w' Hr Hi Ha a. by eapply H. Qed.

Section triples.
Context {X : Type}.

(** [hoare t K p P F]: started by [t] where [K] holds, [p] is safe, [P] holds
    of what it returns and [F] of what it throws. *)
Definition outcome {A} (P : A → W → Prop) (F : X → W → Prop) (r : result X A) : W → Prop :=
  match r with Ok a => P a | Err e => F e end.

Definition hoare {A} (t : nat) (K : W → Prop) (p : io E X A) (P : A → W → Prop) (F : X → W → Prop)
    : Prop := ∀ w, Inv w → K w → wp t p (outcome P F) w.

Lemma hoare_ret {A} t (a : A) (K : W → Prop) (P : A → W → Prop) F :
  Stable t K → (∀ w, Inv w → K w → P a w) → hoare t K (ret a) P F.
Proof. intros Hs HP w Hi HK w' Hr Hi'. apply HP; [done|]. by eapply Hs. Qed.

Lemma hoare_throw {A} t (e : X) (K : W → Prop) (P : A → W → Prop) (F : X → W → Prop) :
  Stable t K → (∀ w, Inv w → K w → F e w) → hoare t K (throw e) P F.
Proof. intros Hs HP w Hi HK w' Hr Hi'. apply HP; [done|]. by eapply Hs. Qed.

Lemma hoare_conseq {A} t (K K' : W → Prop) (p : io E X A) (P P' : A → W → Prop) (F F' : X → W → Prop) :
  hoare t K' p P' F' → (∀ w, Inv w → K w → K' w) →
  (∀ a w, Inv w → P' a w → P a w) → (∀ e w, Inv w → F' e w → F e w) → hoare t K p P F.
Proof.
  intros Hp HK HP HF w Hi Hw. eapply wp_mono; [|by apply Hp; [|apply HK]].
  intros [] w' Hi'; cbn; auto.
Qed.

Lemma hoare_pre {A} t (K K' : W → Prop) (p : io E X A) (P : A → W → Prop) (F : X → W → Prop) :
  (∀ w, Inv w → K w → K' w) → hoare t K' p P F → hoare t K p P F.
Proof. intros HK Hp w Hi Hw. apply Hp; auto. Qed.

(** What is known and does not depend on the world. *)
Lemma hoare_pure {A} t (φ : Prop) (K : W → Prop) (p : io E X A) (P : A → W → Prop) (F : X → W → Prop) :
  (φ → hoare t K p P F) → hoare t (λ w, K w ∧ φ) p P F.
Proof. intros Hp w Hi [HK Hφ]. by apply Hp. Qed.

Lemma hoare_bind {A B} t (K : W → Prop) (p : io E X A) (f : A → io E X B) (P : A → W → Prop)
    (R : B → W → Prop) (F : X → W → Prop) :
  (∀ e, Stable t (F e)) →
  hoare t K p P F → (∀ a, hoare t (P a) (f a) R F) → hoare t K (bind p f) R F.
Proof.
  intros HF Hp Hf w Hi HK. apply wp_bind. eapply wp_mono; [|by apply Hp].
  intros [a|e] w' Hi'; cbn.
  - intros HP. by apply Hf.
  - intros He w2 Hr2 Hi2. by eapply HF.
Qed.

Lemma hoare_seq {A B} t (K : W → Prop) (p : io E X A) (f : A → io E X B) (P : A → W → Prop)
    (R : B → W → Prop) (F F' : X → W → Prop) :
  (∀ e, Stable t (F e)) →
  hoare t K p P F' → (∀ e w, Inv w → F' e w → F e w) → (∀ a, hoare t (P a) (f a) R F) →
  hoare t K (bind p f) R F.
Proof. intros HF Hp HF' Hf. eapply hoare_bind; eauto. eapply hoare_conseq; eauto. Qed.

Lemma hoare_catch {A} t (K : W → Prop) (p : io E X A) (h : X → io E X A) (P : A → W → Prop)
    (F G : X → W → Prop) :
  (∀ a, Stable t (P a)) →
  hoare t K p P F → (∀ e, hoare t (F e) (h e) P G) → hoare t K (try_catch p h) P G.
Proof.
  intros HP Hp Hh w Hi HK. apply wp_bind. eapply wp_mono; [|by apply Hp].
  intros [a|e] w' Hi'; cbn.
  - intros Ha w2 Hr2 Hi2. by eapply HP.
  - intros He. by apply Hh.
Qed.

Lemma hoare_attempt {Y} t (e : E (result X Y)) (K : W → Prop) (P : Y → W → Prop) (F : X → W → Prop) :
  Stable t K → (∀ y, Stable t (P y)) → (∀ x, Stable t (F x)) →
  (∀ w, Inv w → K w → ∀ w' x, handle t _ e w w' x →
     Inv w' ∧ guarantees t w w' ∧ outcome P F x w') →
  hoare t K (attempt e) P F.
Proof.
  intros HK HP HF He w Hi Hw w1 Hr1 Hi1 w2 x Hh.
  destruct (He w1 Hi1 (HK _ _ Hr1 Hi1 Hw) w2 x Hh) as (Hi2 & Hg & Hx). split_and!; [done|done|].
  intros w3 Hr3 Hi3. destruct x; cbn in *; [by eapply HP|by eapply HF].
Qed.

Lemma hoare_call {Y} t (e : E Y) (K : W → Prop) (P : Y → W → Prop) (F : X → W → Prop) :
  Stable t K → (∀ y, Stable t (P y)) →
  (∀ w, Inv w → K w → ∀ w' y, handle t _ e w w' y → Inv w' ∧ guarantees t w w' ∧ P y w') →
  hoare t K (call e) P F.
Proof.
  intros HK HP He w Hi Hw w1 Hr1 Hi1 w2 x Hh.
  destruct (He w1 Hi1 (HK _ _ Hr1 Hi1 Hw) w2 x Hh) as (Hi2 & Hg & Hx). split_and!; [done|done|].
  intros w3 Hr3 Hi3. by eapply HP.
Qed.

(** [try p finally q], [q] one event: what [p] leaves, [q] takes further. *)
Lemma hoare_ensure {A} t (K : W → Prop) (p : io E X A) (q : E unit) (P P' : A → W → Prop)
    (F F' : X → W → Prop) :
  (∀ a, Stable t (P a)) → (∀ e, Stable t (F e)) → (∀ a, Stable t (P' a)) → (∀ e, Stable t (F' e)) →
  hoare t K p P F →
  (∀ r w, Inv w → outcome P F r w → ∀ w' u, handle t _ q w w' u →
     Inv w' ∧ guarantees t w w' ∧ outcome P' F' r w') →
  hoare t K (finally p (trigger q)) P' F'.
Proof.
  intros HP HF HP' HF' Hp Hq w Hi HK. apply wp_bind. eapply wp_mono; [|by apply Hp].
  assert (∀ r, Stable t (outcome P F r)) as Hs by (intros []; apply _).
  assert (∀ r, Stable t (outcome P' F' r)) as Hs' by (intros []; apply _).
  intros r w1 Hi1 Hr. apply wp_bind. intros w2 Hr2 Hi2 w3 u Hh.
  destruct (Hq r w2 Hi2 (Hs r _ _ Hr2 Hi2 Hr) w3 u Hh) as (Hi3 & Hg & Hr3).
  split_and!; [done|done|]. intros w4 Hr4 Hi4 w5 Hr5 Hi5. eapply Hs'; [exact Hr5|done|]. by eapply Hs'.
Qed.

Lemma hoare_finally {A} t (K : W → Prop) (p : io E X A) (q : E unit) (P : A → W → Prop) (F : X → W → Prop) :
  (∀ a, Stable t (P a)) → (∀ e, Stable t (F e)) →
  hoare t K p P F →
  (∀ r w, Inv w → outcome P F r w → ∀ w' u, handle t _ q w w' u →
     Inv w' ∧ guarantees t w w' ∧ outcome P F r w') →
  hoare t K (finally p (trigger q)) P F.
Proof. intros HP HF Hp Hq. by apply (hoare_ensure t K p q P P F F). Qed.

(** One pass of a [for] loop per element, the invariant of the loop holding
    whether or not the pass threw. *)
Lemma hoare_for_each {A B} t (K : W → Prop) (body : A → io E X (option B)) (l : list A) :
  Stable t K →
  (∀ a, a ∈ l → hoare t K (body a) (λ _, K) (λ _, K)) →
  hoare t K (for_each l body) (λ _, K) (λ _, K).
Proof.
  intros HK Hb. induction l as [|a l IH]; cbn.
  - by apply hoare_ret.
  - eapply hoare_bind; [apply _|apply Hb; by left|]. intros o.
    eapply hoare_bind; [apply _|apply IH; intros; apply Hb; by right|]. intros os.
    by apply hoare_ret.
Qed.
End triples.
End concurrency.

Section interleaving.
Context {E : Type → Type} {W : Type}.
Context (handle : nat → ∀ X, E X → W → W → X → Prop).
(** The programs an instance may start: its ticks, sweeps and requests. *)
Context (startable : prog E unit → Prop).

Definition config : Type := W * list (nat * prog E unit).

Inductive cstep : config → config → Prop :=
  | cstep_event w w' l1 l2 t X (e : E X) k x :
      handle t X e w w' x →
      cstep (w, l1 ++ (t, Vis e k) :: l2) (w', l1 ++ (t, k x) :: l2)
  | cstep_start w l t p : startable p → t ∉ l.*1 → cstep (w, l) (w, (t, p) :: l)
  | cstep_crash w l1 p l2 : cstep (w, l1 ++ p :: l2) (w, l1 ++ l2).

Lemma cstep_threads c c' : cstep c c' → NoDup c.2.*1 → NoDup c'.2.*1.
Proof.
  destruct 1 as [w w' l1 l2 t X e k x _|w l t p _ Hn|w l1 p l2]; cbn; rewrite ?fmap_app; cbn.
  - done.
  - by constructor.
  - intros (H1 & H2 & [_ H3]%NoDup_cons)%NoDup_app. apply NoDup_app. split_and!; [done| |done].
    intros t Ht ?. apply (H2 t Ht). by right.
Qed.

(** A configuration all of whose threads are safe where they stand. *)
Section sound.
Context (Inv : W → Prop) (Rely : nat → W → W → Prop) `{!Preorders Rely}.
Context (startable_safe : ∀ t p, startable p → ∀ w, Inv w → wp handle Inv Rely t p (λ _ _, True) w).

Definition sound (c : config) : Prop :=
  NoDup c.2.*1 ∧ Inv c.1 ∧
  Forall (λ tp, wp handle Inv Rely tp.1 tp.2 (λ _ _, True) c.1) c.2.

(** Every step keeps it, and changes the world only as one thread may. *)
Lemma cstep_sound c c' :
  cstep c c' → sound c → sound c' ∧ (c'.1 = c.1 ∨ ∃ t, guarantees Rely t c.1 c'.1).
Proof.
  intros Hstep (Hnd & Hinv & Hwp). pose proof (cstep_threads _ _ Hstep Hnd) as Hnd'.
  unfold sound. destruct Hstep as [w w' l1 l2 t X e k x Hh|w l t p Hp Hn|w l1 p l2]; cbn in *.
  - apply Forall_app in Hwp as [Hl1 Hwp]. apply Forall_cons in Hwp as [He Hl2].
    destruct (He w (Rely_refl t w) Hinv w' x Hh) as (Hi & Hg & Hk). cbn in *.
    rewrite fmap_app in Hnd. apply NoDup_app in Hnd as (_ & Hd & [Ht _]%NoDup_cons).
    assert (∀ (l : list (nat * prog E unit)) u p, (u, p) ∈ l → (u ∈ l.*1)) as Hfst.
    { intros l u p Hin. apply list_elem_of_fmap. by exists (u, p). }
    split; [|by right; exists t]. split_and!; [done|done|]. apply Forall_app. rewrite Forall_cons.
    split_and!; [|done|]; apply Forall_forall; intros [u p] Hin.
    + rewrite Forall_forall in Hl1. specialize (Hl1 _ Hin). eapply wp_stable; [done| |exact Hl1].
      cbn. apply Hg. intros ->. apply (Hd t); [by eapply Hfst|by left].
    + rewrite Forall_forall in Hl2. specialize (Hl2 _ Hin). eapply wp_stable; [done| |exact Hl2].
      cbn. apply Hg. intros ->. apply Ht. by eapply Hfst.
  - split; [|by left]. split_and!; [done|done|]. apply Forall_cons. split; [by apply startable_safe|done].
  - split; [|by left]. split_and!; [done|done|].
    apply Forall_app in Hwp as [? [? ?]%Forall_cons]. by apply Forall_app.
Qed.

(** What every interleaving of any number of instances keeps. *)
Lemma interleaving_sound c c' : rtc cstep c c' → sound c → sound c'.
Proof. induction 1 as [c|c c1 c' Hstep _ IH]; [done|]. intros Hs. by apply IH, (cstep_sound c). Qed.

(** Whatever order all threads respect, every run respects. *)
Lemma run_ordered (R : W → W → Prop) c c' :
  (∀ w, R w w) → (∀ w1 w2 w3, R w1 w2 → R w2 w3 → R w1 w3) → (∀ t w w', Rely t w w' → R w w') →
  rtc cstep c c' → sound c → R c.1 c'.1.
Proof.
  intros Hrefl Htrans HR. induction 1 as [c|c c1 c' Hstep _ IH]; [done|]. intros Hs.
  destruct (cstep_sound c c1 Hstep Hs) as [Hs1 Hw]. eapply Htrans; [|by apply IH].
  destruct Hw as [->|[t Hg]]; [done|]. apply (HR (S t)), Hg. lia.
Qed.
End sound.

(** A program advanced by [n] of its events, nobody in between. *)
Fixpoint advance {A} (n : nat) (h : ∀ X, E X → W → option (X * W)) (p : prog E A) (w : W)
  : option (prog E A * W) :=
  match n, p with
  | S n, Vis e k => match h _ e w with Some (x, w') => advance n h (k x) w' | None => None end
  | _, _ => Some (p, w)
  end.

Lemma advance_steps t n h l1 l2 (p : prog E unit) w p' w' :
  (∀ X e w x w', h X e w = Some (x, w') → handle t X e w w' x) →
  advance n h p w = Some (p', w') → rtc cstep (w, l1 ++ (t, p) :: l2) (w', l1 ++ (t, p') :: l2).
Proof.
  intros Hh. revert p w. induction n as [|n IH]; intros p w; [by intros [= -> ->]|].
  destruct p as [a|X e k]; cbn; [by intros [= <- ->]|].
  destruct (h X e w) as [[x w1]|] eqn:He; [|done]. intros Hp.
  eapply rtc_l; [apply cstep_event, Hh, He|]. by apply IH.
Qed.

(** One thread from start to end with nobody in between is an interleaving. *)
Lemma play_steps t (h : ∀ X, E X → W → option (X * W)) l1 l2 (p : prog E unit) w a w' :
  (∀ X e w x w', h X e w = Some (x, w') → handle t X e w w' x) →
  play h p w = Some (a, w') → rtc cstep (w, l1 ++ (t, p) :: l2) (w', l1 ++ (t, Ret a) :: l2).
Proof.
  intros Hh. revert w. induction p as [a0|X e k IH]; cbn; intros w Hp; [by simplify_eq|].
  destruct (h X e w) as [[x w1]|] eqn:He; [|done].
  eapply rtc_l; [apply cstep_event, Hh, He|]. by apply IH.
Qed.

Lemma play_session t h (p : prog E unit) w a w' :
  (∀ X e w x w', h X e w = Some (x, w') → handle t X e w w' x) →
  startable p → play h p w = Some (a, w') → rtc cstep (w, []) (w', []).
Proof.
  intros Hh Hp Hw. eapply rtc_l; [by apply (cstep_start w [] t p); [|apply not_elem_of_nil]|].
  etransitivity; [by eapply (play_steps t h [] [])|]. apply rtc_once. apply (cstep_crash w' []).
Qed.

(** One thread overtaken by another between two of its events. *)
Lemma overtaken_midway t u n h1 h2 (p q : prog E unit) w p' w1 b w2 :
  (∀ X e w x w', h1 X e w = Some (x, w') → handle t X e w w' x) →
  (∀ X e w x w', h2 X e w = Some (x, w') → handle u X e w w' x) →
  t ≠ u → startable p → startable q →
  advance n h1 p w = Some (p', w1) → play h2 q w1 = Some (b, w2) → rtc cstep (w, []) (w2, [(t, p')]).
Proof.
  intros H1 H2 Htu Hp Hq Hadv Hplay.
  eapply rtc_l; [by apply (cstep_start w [] t p); [|apply not_elem_of_nil]|].
  etransitivity; [by eapply (advance_steps t n h1 [] [])|].
  eapply rtc_l; [apply (cstep_start w1 _ u q); [done|]|].
  { cbn. intros ->%list_elem_of_singleton. done. }
  etransitivity; [by eapply (play_steps u h2 [] [(t, p')])|].
  apply rtc_once, (cstep_crash w2 []).
Qed.

(** The only thread left runs to its end. *)
Lemma resumed_session t h (p : prog E unit) w a w' :
  (∀ X e w x w', h X e w = Some (x, w') → handle t X e w w' x) →
  play h p w = Some (a, w') → rtc cstep (w, [(t, p)]) (w', []).
Proof.
  intros Hh Hplay. etransitivity; [by eapply (play_steps t h [] [])|]. apply rtc_once. apply (cstep_crash w' []).
Qed.

Lemma overtaken_session t u n h1 h2 h3 (p q : prog E unit) w p' w1 b w2 a w3 :
  (∀ X e w x w', h1 X e w = Some (x, w') → handle t X e w w' x) →
  (∀ X e w x w', h2 X e w = Some (x, w') → handle u X e w w' x) →
  (∀ X e w x w', h3 X e w = Some (x, w') → handle t X e w w' x) →
  t ≠ u → startable p → startable q →
  advance n h1 p w = Some (p', w1) → play h2 q w1 = Some (b, w2) → play h3 p' w2 = Some (a, w3) →
  rtc cstep (w, []) (w3, []).
Proof.
  intros H1 H2 H3 Htu Hp Hq Hadv Hplay Hrest.
  etransitivity; [exact (overtaken_midway t u n h1 h2 p q w p' w1 b w2 H1 H2 Htu Hp Hq Hadv Hplay)|by eapply resumed_session].
Qed.
End interleaving.
