(* ===== verification/SwapDb.v ===== *)
(** * The SQL tables of the swap stores

    One swap table and its event table, as the stores of
    [packages/solver-corridors/src/db] and [packages/solver-corridors-evm/src/db]
    use them. A row has its lifecycle state, its timestamps, the quote it was
    inserted with — columns no later statement may name — and its other
    columns, [NULL] where absent from the map. Rows are in rowid order, events
    in id order. [exec] is one statement, atomic, which is all SQLite
    guarantees here: no handler opens a transaction. *)
From S2P Require Import Prelude.

(** INTEGER, REAL and TEXT. *)
Inductive sqlval := VInt (z : Z) | VReal (n : num) | VText (s : string).
#[global] Instance sqlval_eq_dec : EqDecision sqlval.
Proof. solve_decision. Defined.

(** [fields]: the columns a statement sets, [None] for [NULL]. *)
Definition fields := list (string * option sqlval).

(** The write-once columns the shared queries read. *)
Class QuoteColumns (Q : Type) := {
  payment_hash : Q → string;
  rfq_id : Q → option string;
  pk_script : Q → string;
  amount_sats : Q → Z;
}.

Record Row (S Q : Type) := mkRow {
  row_id : string;
  state : S;
  created_at : Z;
  updated_at : Z;
  quote : Q;
  cols : gmap string sqlval;
}.
Arguments mkRow {S Q} row_id state created_at updated_at quote cols.
Arguments row_id {S Q} r.
Arguments state {S Q} r.
Arguments created_at {S Q} r.
Arguments updated_at {S Q} r.
Arguments quote {S Q} r.
Arguments cols {S Q} r.

Record Event (S : Type) := mkEvent {
  ev_swap : string;
  ev_at : Z;
  ev_from : option S;
  ev_to : S;
  ev_detail : option string;
}.
Arguments mkEvent {S} ev_swap ev_at ev_from ev_to ev_detail.
Arguments ev_swap {S} e.
Arguments ev_at {S} e.
Arguments ev_from {S} e.
Arguments ev_to {S} e.
Arguments ev_detail {S} e.

Record Db (S Q : Type) := mkDb { rows : list (Row S Q); events : list (Event S) }.
Arguments mkDb {S Q} rows events.
Arguments rows {S Q} d.
Arguments events {S Q} d.

(** The text of a value; of a REAL no query asks it. *)
Definition value_text (v : sqlval) : option string :=
  match v with VText s => Some s | VInt z => Some (pretty z) | VReal _ => None end.
Definition text_col {S Q} (r : Row S Q) (column : string) : option string :=
  match cols r !! column with Some v => value_text v | None => None end.

Fixpoint set_columns (f : fields) (m : gmap string sqlval) : gmap string sqlval :=
  match f with
  | [] => m
  | (column, Some v) :: rest => set_columns rest (<[column := v]> m)
  | (column, None) :: rest => set_columns rest (delete column m)
  end.

(** The statements of the stores; [InsertUnless] is an [INSERT … SELECT … WHERE
    NOT EXISTS] over the same table, [ClaimLease] an [UPDATE] of a row whose
    column is NULL or holds a time not after [stale]; [UpdateStateIfNull] and
    [UpdateIfNullIn] are updates of a row in a state whose column is NULL. *)
Inductive stmt (S Q : Type) :=
  | InsertRow (r : Row S Q)
  | InsertUnless (blocks : Row S Q → bool) (r : Row S Q)
  | UpdateState (i : string) (from to : S) (f : fields) (at_ : Z)
  | UpdateStateIfNull (i : string) (from to : S) (f : fields) (at_ : Z) (column : string)
  | UpdateColumns (i : string) (f : fields) (at_ : Z)
  | UpdateIfNull (i : string) (column : string) (v : sqlval) (at_ : Z)
  | UpdateIfNullIn (i : string) (from : S) (column : string) (v : sqlval) (at_ : Z)
  | ClaimLease (i : string) (from : S) (column : string) (leased_at at_ stale : Z)
  | ClearColumn (i : string) (column : string)
  | InsertEvent (e : Event S).
Arguments InsertRow {S Q} r.
Arguments InsertUnless {S Q} blocks r.
Arguments UpdateState {S Q} i from to f at_.
Arguments UpdateStateIfNull {S Q} i from to f at_ column.
Arguments UpdateColumns {S Q} i f at_.
Arguments UpdateIfNull {S Q} i column v at_.
Arguments UpdateIfNullIn {S Q} i from column v at_.
Arguments ClaimLease {S Q} i from column leased_at at_ stale.
Arguments ClearColumn {S Q} i column.
Arguments InsertEvent {S Q} e.

(** [column IS NULL OR column <= stale]: a text is greater than every integer. *)
Definition lease_free (v : option sqlval) (stale : Z) : bool :=
  match v with
  | None => true
  | Some (VInt z) => z <=? stale
  | Some (VReal n) => num_le n (of_Z stale)
  | Some (VText _) => false
  end.
Definition leased {S Q} (column : string) (leased_at at_ : Z) (r : Row S Q) : Row S Q :=
  mkRow (row_id r) (state r) (created_at r) at_ (quote r) (<[column := VInt leased_at]> (cols r)).

Inductive DbError := UniqueConstraint | PrimaryKey.

Section db.
Context {S Q : Type} `{EqDecision S, QuoteColumns Q}.
(** The state the partial unique index leaves out. *)
Context (refused : S).
Implicit Types (d : Db S Q) (r : Row S Q).

Definition find_row d (i : string) : option (Row S Q) :=
  snd <$> list_find (λ r, row_id r = i) (rows d).

(** [UNIQUE (payment_hash) WHERE state != 'refused'] *)
Definition live_hashes (l : list (Row S Q)) : list string :=
  (λ r, payment_hash (quote r)) <$> filter (λ r, state r ≠ refused) l.

Definition unique_ok (l : list (Row S Q)) : bool := bool_decide (NoDup (live_hashes l)).

Definition update_where (test : Row S Q → bool) (f : Row S Q → Row S Q) d : result DbError nat * Db S Q :=
  let rows' := (λ r, if test r then f r else r) <$> rows d in
  if unique_ok rows' then (Ok (length (filter (λ r, test r = true) (rows d))), mkDb rows' (events d))
  else (Err UniqueConstraint, d).

Definition insert_row r d : result DbError nat * Db S Q :=
  if bool_decide (row_id r ∈ row_id <$> rows d) then (Err PrimaryKey, d)
  else if unique_ok (rows d ++ [r]) then (Ok 1%nat, mkDb (rows d ++ [r]) (events d))
  else (Err UniqueConstraint, d).

Definition exec (s : stmt S Q) d : result DbError nat * Db S Q :=
  match s with
  | InsertRow r => insert_row r d
  | InsertUnless blocks r => if existsb blocks (rows d) then (Ok 0%nat, d) else insert_row r d
  | UpdateState i from to f at_ =>
      update_where (λ r, bool_decide (row_id r = i) && bool_decide (state r = from))
        (λ r, mkRow (row_id r) to (created_at r) at_ (quote r) (set_columns f (cols r))) d
  | UpdateStateIfNull i from to f at_ column =>
      update_where (λ r, bool_decide (row_id r = i) && bool_decide (state r = from) && bool_decide (cols r !! column = None))
        (λ r, mkRow (row_id r) to (created_at r) at_ (quote r) (set_columns f (cols r))) d
  | UpdateColumns i f at_ =>
      update_where (λ r, bool_decide (row_id r = i))
        (λ r, mkRow (row_id r) (state r) (created_at r) at_ (quote r) (set_columns f (cols r))) d
  | UpdateIfNull i column v at_ =>
      update_where (λ r, bool_decide (row_id r = i) && bool_decide (cols r !! column = None))
        (λ r, mkRow (row_id r) (state r) (created_at r) at_ (quote r) (<[column := v]> (cols r))) d
  | UpdateIfNullIn i from column v at_ =>
      update_where (λ r, bool_decide (row_id r = i) && bool_decide (state r = from) && bool_decide (cols r !! column = None))
        (λ r, mkRow (row_id r) (state r) (created_at r) at_ (quote r) (<[column := v]> (cols r))) d
  | ClaimLease i from column leased_at at_ stale =>
      update_where (λ r, bool_decide (row_id r = i) && bool_decide (state r = from) && lease_free (cols r !! column) stale)
        (leased column leased_at at_) d
  | ClearColumn i column =>
      update_where (λ r, bool_decide (row_id r = i))
        (λ r, mkRow (row_id r) (state r) (created_at r) (updated_at r) (quote r) (delete column (cols r))) d
  | InsertEvent e => (Ok 1%nat, mkDb (rows d) (events d ++ [e]))
  end.

(** What the schema enforces. *)
Definition db_wf d : Prop := NoDup (row_id <$> rows d) ∧ NoDup (live_hashes (rows d)).
End db.
#[global] Arguments find_row : simpl never.

Section db_lemmas.
Context {S Q : Type} `{EqDecision S, QuoteColumns Q}.
Context (refused : S).
Implicit Types (d : Db S Q) (r : Row S Q).

#[local] Abbreviation exec := (exec refused).

Lemma find_row_Some d i r : find_row d i = Some r → row_id r = i ∧ r ∈ rows d.
Proof.
  unfold find_row. intros ([n r'] & Hf & [= <-])%fmap_Some.
  apply list_find_Some in Hf as (Hl & Hid & _). split; [done|]. by eapply list_elem_of_lookup_2.
Qed.

Lemma find_row_None d i : find_row d i = None ↔ i ∉ row_id <$> rows d.
Proof.
  unfold find_row. rewrite fmap_None, list_find_None, Forall_forall. split.
  - intros Hall (r & -> & Hin)%list_elem_of_fmap. by eapply Hall.
  - intros Hni r Hin Hid. apply Hni, list_elem_of_fmap. eauto.
Qed.

Lemma find_row_In d r : NoDup (row_id <$> rows d) → r ∈ rows d → find_row d (row_id r) = Some r.
Proof.
  intros Hnd Hin. destruct (find_row d (row_id r)) as [r'|] eqn:Hf.
  - apply find_row_Some in Hf as [Hid Hin']. f_equal.
    by eapply (NoDup_fmap_eq row_id (rows d)).
  - apply find_row_None in Hf. exfalso. apply Hf, list_elem_of_fmap. eauto.
Qed.

(** At most one row with a payment hash is not refused. *)
Lemma live_hash_unique d r1 r2 :
  db_wf refused d → r1 ∈ rows d → r2 ∈ rows d → state r1 ≠ refused → state r2 ≠ refused →
  payment_hash (quote r1) = payment_hash (quote r2) → r1 = r2.
Proof.
  intros [_ Hnd] H1 H2 S1 S2. unfold live_hashes in Hnd.
  apply (NoDup_fmap_eq _ _ _ _ Hnd); by apply list_elem_of_filter.
Qed.

(** A row as an update leaves it. *)
Definition updated (test : Row S Q → bool) (f : Row S Q → Row S Q) (r : Row S Q) : Row S Q :=
  if test r then f r else r.

Lemma find_row_updated test f l ev i :
  (∀ r, row_id (f r) = row_id r) →
  find_row (mkDb (updated test f <$> l) ev) i = updated test f <$> find_row (mkDb l ev) i.
Proof.
  intros Hf. unfold find_row; cbn. induction l as [|r l IH]; cbn; [done|].
  assert (row_id (updated test f r) = row_id r) as Hid by (unfold updated; case_match; auto).
  destruct (decide (row_id r = i)) as [He|Hne].
  - rewrite !decide_True by congruence. done.
  - rewrite !decide_False by congruence.
    revert IH. destruct (list_find _ l) as [[]|], (list_find _ (updated test f <$> l)) as [[]|]; cbn;
      congruence.
Qed.

Lemma ids_updated test f (l : list (Row S Q)) :
  (∀ r, row_id (f r) = row_id r) → row_id <$> (updated test f <$> l) = row_id <$> l.
Proof.
  intros Hf. rewrite <- list_fmap_compose. apply list_fmap_ext. intros n r _. cbn.
  unfold updated. case_match; auto.
Qed.

Lemma update_where_spec test f d n d' :
  (∀ r, row_id (f r) = row_id r) → update_where refused test f d = (n, d') →
  (∃ k, n = Ok k ∧ rows d' = updated test f <$> rows d ∧ events d' = events d ∧
        NoDup (live_hashes refused (rows d')) ∧
        ((0 < k)%nat ↔ ∃ r, r ∈ rows d ∧ test r = true)) ∨
  (n = Err UniqueConstraint ∧ d' = d).
Proof.
  intros Hf. unfold update_where, unique_ok. case_bool_decide as Hu; intros [= <- <-]; [left|by right].
  eexists. split_and!; [done..|]. split.
  - destruct (filter _ (rows d)) as [|r l] eqn:Hfl; cbn; [lia|]. intros _. exists r.
    assert (r ∈ filter (λ r, test r = true) (rows d)) as Hin by (rewrite Hfl; left).
    by apply list_elem_of_filter in Hin as [? ?].
  - intros (r & Hin & Ht). destruct (filter _ (rows d)) as [|] eqn:Hfl; cbn; [|lia].
    assert (r ∈ filter (λ r, test r = true) (rows d)) as Hin'.
    { by apply list_elem_of_filter. }
    rewrite Hfl in Hin'. inversion Hin'.
Qed.

(** Every statement keeps what the schema enforces. *)
Lemma exec_wf s d : db_wf refused d → db_wf refused (exec s d).2.
Proof.
  intros [Hid Hu]. assert (∀ test f, (∀ r, row_id (f r) = row_id r) →
    db_wf refused (update_where refused test f d).2) as Hup.
  { intros test f Hf. destruct (update_where refused test f d) as [n d'] eqn:He. cbn.
    destruct (update_where_spec test f d n d' Hf He) as [(k & _ & Hr & _ & Hn & _)|[_ ->]]; [|done].
    split; [|done]. by rewrite Hr, ids_updated. }
  assert (∀ r, db_wf refused (insert_row refused r d).2) as Hins.
  { intros r. unfold insert_row. case_bool_decide as Hin; [done|]. unfold unique_ok.
    case_bool_decide as Hn; [|done]. cbn.
    split; [|done]. cbn. rewrite fmap_app. apply NoDup_app. split_and!; [done| |by apply NoDup_singleton].
    intros i Hi ->%list_elem_of_singleton. done. }
  destruct s; cbn; [apply Hins| |by apply Hup..|done]. case_match; [done|apply Hins].
Qed.

(** The columns of a quote are never rewritten, no row disappears, and the
    event log only grows, whatever statement runs. *)
Lemma exec_keeps s d i r :
  find_row d i = Some r →
  ∃ r', find_row (exec s d).2 i = Some r' ∧ quote r' = quote r ∧ created_at r' = created_at r.
Proof.
  intros Hr. assert (∀ test f, (∀ r, row_id (f r) = row_id r) →
    (∀ r, quote (f r) = quote r ∧ created_at (f r) = created_at r) →
    ∃ r', find_row (update_where refused test f d).2 i = Some r' ∧ quote r' = quote r ∧
          created_at r' = created_at r) as Hup.
  { intros test f Hf Hq. destruct (update_where refused test f d) as [n d'] eqn:He. cbn.
    destruct (update_where_spec test f d n d' Hf He) as [(k & _ & Hrows & _)|[_ ->]]; [|eauto].
    destruct d as [l ev], d' as [l' ev']. cbn in Hrows. subst l'.
    exists (updated test f r). change (find_row (mkDb (updated test f <$> l) ev') i)
      with (find_row (mkDb (updated test f <$> l) ev) i).
    rewrite find_row_updated, Hr by done. split; [done|].
    unfold updated. case_match; [apply Hq|done]. }
  assert (∀ r1, ∃ r', find_row (insert_row refused r1 d).2 i = Some r' ∧ quote r' = quote r ∧
          created_at r' = created_at r) as Hins.
  { intros r1. unfold insert_row.
    case_bool_decide as Hin; [by exists r|]. case_match; [|by exists r]. cbn. exists r.
    split; [|done]. unfold find_row in *; cbn.
    apply fmap_Some in Hr as ([n r'] & Hf & ->). by rewrite (list_find_app_l _ _ _ _ _ Hf). }
  destruct s; cbn; [apply Hins| |by apply Hup..|by exists r]. case_match; [by exists r|apply Hins].
Qed.
End db_lemmas.
