(* ===== verification/EvmRow.v ===== *)
(** * The EVM swap rows and the lock they rebuild

    The write-once columns of [send_evm_swap] and [receive_evm_swap]
    ([CommonQuote] of [db/evmSwapStore.ts]), the ERC20 lock rebuilt from them
    ([evm/lockFromRow.ts]), the Arkade covenant ([evm/covenantRow.ts]) and the
    binding of an external payout funding ([send/evmPayoutFunding.ts]). Byte
    strings are lists of integers in [0, 255]. *)
From Stdlib Require Import Ascii String.
From S2P Require Import Prelude JsString SwapDb.
#[local] Open Scope string_scope.
#[local] Open Scope Z_scope.

(** ** Quotes *)

Record CommonQuote := mkQuote {
  paymentHash : string;
  amountSats : Z;
  payoutSats : Z;
  evmAmount : string;
  tokenAddress : string;
  evmContractAddress : string;
  evmChainId : Z;
  evmTimeout : Z;
  validUntil : Z;
  minConfirmations : Z;
  minAgeSeconds : Z;
  evmClaimAddress : string;
  evmRefundAddress : string;
  refundLocktime : Z;
  providerPubkey : string;
  serverPubkey : string;
  claimDelay : Z;
  refundDelay : Z;
  refundWithoutReceiverDelay : Z;
  pkScript : string;
  lockupAddress : string;
  refundPkScript : string;
  emulatorPubkey : string;
  clientRefundPubkey : string;
  receiverPkScript : string;
  nonInteractiveParameters : bool;
  rfqId : option string;
}.

(** ** Bytes, hexadecimal and decimal *)

Definition hex_digit (c : Ascii.ascii) : option Z :=
  let n := Z.of_nat (Ascii.nat_of_ascii c) in
  if (48 <=? n) && (n <=? 57) then Some (n - 48)
  else if (97 <=? n) && (n <=? 102) then Some (n - 87)
  else if (65 <=? n) && (n <=? 70) then Some (n - 55)
  else None.

(** [hex.decode] on a string of hexadecimal digits of even length. *)
Fixpoint hex_decode (s : string) : option (list Z) :=
  match s with
  | EmptyString => Some []
  | String a (String b rest) =>
      hi ← hex_digit a; lo ← hex_digit b; bytes ← hex_decode rest;
      Some (16 * hi + lo :: bytes)
  | _ => None
  end.

(** [Buffer.from(s, 'hex')]: what can be read of it. *)
Fixpoint buffer_from_hex (s : string) : list Z :=
  match s with
  | String c1 (String c2 rest) =>
      match hex_digit c1, hex_digit c2 with
      | Some hi, Some lo => 16 * hi + lo :: buffer_from_hex rest
      | _, _ => []
      end
  | _ => []
  end.

Definition nibble (n : Z) : Ascii.ascii :=
  Ascii.ascii_of_nat (Z.to_nat (if n <? 10 then n + 48 else n + 87)).

(** [hex.encode] and [Buffer.toString('hex')]. *)
Fixpoint hex_encode (bytes : list Z) : string :=
  match bytes with
  | [] => EmptyString
  | b :: rest => String (nibble (b / 16)) (String (nibble (b mod 16)) (hex_encode rest))
  end.

Definition lower_char (c : Ascii.ascii) : Ascii.ascii :=
  let n := Ascii.nat_of_ascii c in
  if (65 <=? n)%nat && (n <=? 90)%nat then Ascii.ascii_of_nat (n + 32) else c.

Fixpoint toLowerCase (s : string) : string :=
  match s with EmptyString => EmptyString | String c r => String (lower_char c) (toLowerCase r) end.

(** [value.startsWith('0x') ? value.slice(2) : value] *)
Definition strip0x (s : string) : string :=
  match s with
  | String "0"%char (String "x"%char rest) => rest
  | _ => s
  end.

Fixpoint decimal_go (s : string) (acc : Z) : option Z :=
  match s with
  | EmptyString => Some acc
  | String c rest => d ← decimal_digit c; decimal_go rest (10 * acc + d)
  end.

(** [BigInt(s)] for [s] matching [/^[0-9]+$/], [None] for any other [s]. *)
Definition decimal (s : string) : option Z :=
  match s with EmptyString => None | _ => decimal_go s 0 end.

Inductive RowError :=
  | MustBeHex (name : string) (length : nat) (value : string)
  | MustBeDecimal (name value : string).
#[global] Instance RowError_eq_dec : EqDecision RowError.
Proof. solve_decision. Defined.

Definition bytesFromHex (value name : string) (length_ : nat) : result RowError (list Z) :=
  let body := strip0x value in
  if bool_decide (String.length body = (2 * length_)%nat) then
    match hex_decode body with Some bytes => Ok bytes | None => Err (MustBeHex name length_ value) end
  else Err (MustBeHex name length_ value).

Definition amountOf (raw name : string) : result RowError Z :=
  match decimal raw with Some n => Ok n | None => Err (MustBeDecimal name raw) end.

(** ** The lock *)

Record Erc20SwapLock := mkLock {
  lock_preimageHash : list Z;
  lock_amount : Z;
  lock_tokenAddress : list Z;
  lock_claimAddress : list Z;
  lock_refundAddress : list Z;
  lock_timelock : Z;
}.

Definition lockFromRow (row : CommonQuote) : result RowError Erc20SwapLock :=
  preimageHash ← bytesFromHex (paymentHash row) "paymentHash" 32;
  amount ← amountOf (evmAmount row) "evmAmount";
  token ← bytesFromHex (tokenAddress row) "tokenAddress" 20;
  claim ← bytesFromHex (evmClaimAddress row) "evmClaimAddress" 20;
  refund ← bytesFromHex (evmRefundAddress row) "evmRefundAddress" 20;
  Ok (mkLock preimageHash amount token claim refund (evmTimeout row)).

Definition sendLockFromRow (row : CommonQuote) : result RowError Erc20SwapLock := lockFromRow row.
Definition receiveLockFromRow (row : CommonQuote) : result RowError Erc20SwapLock := lockFromRow row.

(** ** The covenant *)

Record CovenantScriptRow := mkCovenant {
  cov_id : string;
  cov_receiverPubkey : string;
  cov_serverPubkey : string;
  cov_paymentHash : string;
  cov_refundLocktime : Z;
  cov_claimDelay : Z;
  cov_emulatorPubkey : string;
  cov_refundPkScript : string;
  cov_pkScript : string;
  cov_clientRefundPubkey : string;
  cov_refundWithoutReceiverDelay : Z;
  cov_refundDelay : Z;
  cov_receiverPkScript : string;
  cov_nonInteractiveParameters : bool;
}.

Definition covenantRowWith (id : string) (row : CommonQuote) (receiverPubkey : string)
    : CovenantScriptRow :=
  mkCovenant id receiverPubkey (serverPubkey row) (paymentHash row) (refundLocktime row)
    (claimDelay row) (emulatorPubkey row) (refundPkScript row) (pkScript row)
    (clientRefundPubkey row) (refundWithoutReceiverDelay row) (refundDelay row)
    (receiverPkScript row) (nonInteractiveParameters row).

Definition evmSendCovenantRowFor (id : string) (row : CommonQuote) : CovenantScriptRow :=
  covenantRowWith id row (providerPubkey row).

Definition evmReceiveCovenantRowFor (id : string) (row : CommonQuote) (payoutPubkey : string)
    : CovenantScriptRow :=
  covenantRowWith id row payoutPubkey.

(** ** The payout funding binding *)

Definition SAFE_INTEGER : Z := 2 ^ 53 - 1.

Definition validInteger (value : Z) (positive : bool) : bool :=
  (- SAFE_INTEGER <=? value) && (value <=? SAFE_INTEGER) && ((if positive then 1 else 0) <=? value).

Inductive BindingError :=
  | InvalidIdentityOrAmount
  | InvalidDeadlineOrChain
  | AmountExceedsUint256
  | InvalidHex
  | InvalidBytes
  | LockMismatch.
#[global] Instance BindingError_eq_dec : EqDecision BindingError.
Proof. solve_decision. Defined.

Fixpoint all_chars (test : Ascii.ascii → bool) (s : string) : bool :=
  match s with EmptyString => true | String c r => test c && all_chars test r end.

(** [/^[0-9a-f]$/] *)
Definition lower_hex (c : Ascii.ascii) : bool :=
  match hex_digit c with Some _ => bool_decide (lower_char c = c) | None => false end.

Definition normalizedHex (value : string) (length_ : nat) : result BindingError string :=
  let normalized := toLowerCase (strip0x value) in
  if bool_decide (String.length normalized = (2 * length_)%nat) && all_chars lower_hex normalized
  then Ok normalized else Err InvalidHex.

Definition bytesHex (bytes : list Z) (length_ : nat) : result BindingError string :=
  if bool_decide (length bytes = length_) then Ok (hex_encode bytes) else Err InvalidBytes.

(** [/^[1-9][0-9]*$/] *)
Definition positive_decimal (s : string) : bool :=
  match s with
  | String c _ => negb (bool_decide (c = "0"%char)) && bool_decide (is_Some (decimal s))
  | EmptyString => false
  end.

(** [!s.trim()]: only white space. *)
Definition blank (s : string) : bool :=
  all_chars js_space s.

Record EvmPayoutFundingBinding := mkBinding {
  adapterId : string;
  intentId : string;
  chainId : Z;
  contractAddress : string;
  bound_paymentHash : string;
  bound_tokenAddress : string;
  bound_amount : string;
  arkadeAmountSats : string;
  bound_payoutSats : string;
  quoteValidUntil : Z;
  claimAddress : string;
  refundAddress : string;
  bound_evmTimeout : string;
  arkadeRefundLocktime : Z;
  bound_minConfirmations : Z;
  bound_minAgeSeconds : Z;
}.

Definition payoutFundingBinding (adapter id : string) (row : CommonQuote) (lock : Erc20SwapLock)
    : result BindingError EvmPayoutFundingBinding :=
  _ ← throw_if (blank adapter || bool_decide (id = "") || negb (positive_decimal (evmAmount row)))
        InvalidIdentityOrAmount;
  _ ← throw_if
        (negb (validInteger (amountSats row) true) || negb (validInteger (payoutSats row) true) ||
         negb (validInteger (validUntil row) true) || negb (validInteger (evmChainId row) true) ||
         negb (validInteger (evmTimeout row) true) || negb (validInteger (refundLocktime row) true) ||
         negb (validInteger (minConfirmations row) false) ||
         negb (validInteger (minAgeSeconds row) false))
        InvalidDeadlineOrChain;
  let amount := default 0 (decimal (evmAmount row)) in
  _ ← throw_if (2 ^ 256 <=? amount) AmountExceedsUint256;
  hash ← normalizedHex (paymentHash row) 32;
  token ← normalizedHex (tokenAddress row) 20;
  claim ← normalizedHex (evmClaimAddress row) 20;
  refund ← normalizedHex (evmRefundAddress row) 20;
  lock_hash ← bytesHex (lock_preimageHash lock) 32;
  _ ← throw_if (negb (bool_decide (lock_hash = hash))) LockMismatch;
  lock_token ← bytesHex (lock_tokenAddress lock) 20;
  _ ← throw_if (negb (bool_decide (lock_token = token))) LockMismatch;
  lock_claim ← bytesHex (lock_claimAddress lock) 20;
  _ ← throw_if (negb (bool_decide (lock_claim = claim))) LockMismatch;
  lock_refund ← bytesHex (lock_refundAddress lock) 20;
  _ ← throw_if (negb (bool_decide (lock_refund = refund))) LockMismatch;
  _ ← throw_if (negb (lock_amount lock =? amount)) LockMismatch;
  _ ← throw_if (negb (lock_timelock lock =? evmTimeout row)) LockMismatch;
  contract ← normalizedHex (evmContractAddress row) 20;
  Ok (mkBinding adapter id (evmChainId row) ("0x" +:+ contract) hash ("0x" +:+ token)
        (evmAmount row) (pretty (amountSats row)) (pretty (payoutSats row)) (validUntil row)
        ("0x" +:+ claim) ("0x" +:+ refund) (pretty (evmTimeout row)) (refundLocktime row)
        (minConfirmations row) (minAgeSeconds row)).

(** ** Round trips *)

(** A property of characters, checked on the 256 of them. *)
Ltac all_ascii c := destruct c as [[] [] [] [] [] [] [] []]; vm_compute; try done; intros; simplify_eq.

Lemma hex_digit_spec c d :
  hex_digit c = Some d →
  0 ≤ d < 16 ∧ nibble d = lower_char c ∧ lower_hex (lower_char c) = true.
Proof. revert d. all_ascii c; split_and!; vm_compute; done. Qed.

Lemma hex_digit_nibble d : 0 ≤ d < 16 → hex_digit (nibble d) = Some d ∧ nibble d ≠ "x"%char.
Proof.
  intros Hd. assert (d ∈ seqZ 0 16) as Hin by (apply elem_of_seqZ; lia).
  assert (Forall (λ d, hex_digit (nibble d) = Some d ∧ nibble d ≠ "x"%char) (seqZ 0 16)) as Hall.
  { vm_compute. repeat constructor; discriminate. }
  rewrite Forall_forall in Hall. auto.
Qed.

Definition is_byte (b : Z) : Prop := 0 ≤ b < 256.

Lemma hex_encode_length bytes : String.length (hex_encode bytes) = (2 * length bytes)%nat.
Proof. induction bytes; cbn; lia. Qed.

Lemma hex_decode_encode bytes : Forall is_byte bytes → hex_decode (hex_encode bytes) = Some bytes.
Proof.
  unfold is_byte. induction 1 as [|b bytes Hb _ IH]; [done|]. cbn [hex_encode hex_decode].
  pose proof (Z.div_mod b 16 ltac:(lia)). pose proof (Z.mod_pos_bound b 16 ltac:(lia)).
  destruct (hex_digit_nibble (b / 16)) as [-> _]; [nia|].
  destruct (hex_digit_nibble (b mod 16)) as [-> _]; [lia|].
  cbn. rewrite IH. cbn. repeat f_equal. lia.
Qed.

Lemma buffer_from_hex_decode : ∀ s bytes, hex_decode s = Some bytes → buffer_from_hex s = bytes.
Proof.
  fix IH 1. intros [|c1 [|c2 s]] bytes; cbn [hex_decode buffer_from_hex]; intros H; simplify_eq; [done|].
  destruct (hex_digit c1); [|done]. destruct (hex_digit c2); [|done].
  destruct (hex_decode s) as [rest|] eqn:Hs; cbn in H; simplify_eq. f_equal. by apply IH.
Qed.

Lemma buffer_from_hex_encode bytes : Forall is_byte bytes → buffer_from_hex (hex_encode bytes) = bytes.
Proof. intros Hb. by apply buffer_from_hex_decode, hex_decode_encode. Qed.

Lemma strip0x_encode bytes : Forall is_byte bytes → strip0x (hex_encode bytes) = hex_encode bytes.
Proof.
  destruct bytes as [|b bytes]; [done|]. intros [Hb _]%Forall_cons. unfold is_byte in Hb.
  cbn [hex_encode].
  destruct (hex_digit_nibble (b mod 16)) as [_ Hx]; [apply Z.mod_pos_bound; lia|].
  generalize (nibble (b / 16)), (nibble (b mod 16)), Hx. intros c1 c2 Hc2. unfold strip0x.
  repeat case_match; subst; done.
Qed.

Lemma bytesFromHex_encode bytes name n :
  Forall is_byte bytes → length bytes = n →
  bytesFromHex (hex_encode bytes) name n = Ok bytes ∧
  bytesFromHex ("0x" +:+ hex_encode bytes) name n = Ok bytes.
Proof.
  intros Hb Hn. unfold bytesFromHex.
  change (strip0x ("0x" +:+ hex_encode bytes)) with (hex_encode bytes).
  rewrite strip0x_encode, bool_decide_true, hex_decode_encode by (rewrite ?hex_encode_length; auto; lia).
  done.
Qed.

Lemma decimal_go_pretty n : ∀ s, decimal_go (pretty_N_go n s) 0 = decimal_go s (Z.of_N n).
Proof.
  induction (N.lt_wf_0 n) as [n _ IH]. intros s.
  destruct (decide (n = 0%N)) as [->|Hn]; [by rewrite pretty_N_go_0|].
  rewrite pretty_N_go_step by lia. rewrite IH by (apply N.div_lt; lia).
  cbn [decimal_go].
  assert (n `mod` 10 < 10)%N as Hm by (apply N.mod_lt; lia).
  rewrite pretty_N_char_digit by done.
  cbn. f_equal. pose proof (N.div_mod n 10 ltac:(lia)). lia.
Qed.

Lemma amountOf_pretty n name : 0 ≤ n → amountOf (pretty n) name = Ok n.
Proof.
  intros Hn. unfold amountOf, decimal.
  assert (pretty n = pretty (Z.to_N n)) as -> by (unfold pretty, pretty_Z; destruct n; done || lia).
  assert (pretty (Z.to_N n) ≠ "") as Hne.
  { unfold pretty, pretty_N. case_decide; [done|]. rewrite pretty_N_go_step by lia.
    intros He. apply (f_equal String.length) in He. revert He.
    generalize (pretty_N_char (Z.to_N n `mod` 10)). intros c.
    assert (∀ m s, (String.length s ≤ String.length (pretty_N_go m s))%nat) as Hlen.
    { intros m. induction (N.lt_wf_0 m) as [m _ IH]. intros s.
      destruct (decide (m = 0%N)) as [->|]; [by rewrite pretty_N_go_0|].
      rewrite pretty_N_go_step by lia. etrans; [|apply IH; apply N.div_lt; lia]. cbn. lia. }
    pose proof (Hlen (Z.to_N n `div` 10)%N (String c "")) as Hl. cbn in *. lia. }
  destruct (pretty (Z.to_N n)) as [|c s] eqn:Hp; [done|]. rewrite <- Hp. clear Hne.
  unfold pretty, pretty_N. case_decide as H0.
  - change (@Ok RowError Z 0 = Ok n). f_equal. lia.
  - rewrite decimal_go_pretty. cbn. f_equal. lia.
Qed.

(** A row as the quote writes it for a lock: its columns in the encodings the
    service stores, hexadecimal with or without the prefix, and decimal. *)
Definition stores (lock : Erc20SwapLock) (row : CommonQuote) : Prop :=
  let hexes bytes s := s = hex_encode bytes ∨ s = "0x" +:+ hex_encode bytes in
  hexes (lock_preimageHash lock) (paymentHash row) ∧
  evmAmount row = pretty (lock_amount lock) ∧
  hexes (lock_tokenAddress lock) (tokenAddress row) ∧
  hexes (lock_claimAddress lock) (evmClaimAddress row) ∧
  hexes (lock_refundAddress lock) (evmRefundAddress row) ∧
  evmTimeout row = lock_timelock lock.

Definition lock_wf (lock : Erc20SwapLock) : Prop :=
  let bytes n l := Forall is_byte l ∧ length l = n in
  bytes 32%nat (lock_preimageHash lock) ∧ 0 ≤ lock_amount lock ∧
  bytes 20%nat (lock_tokenAddress lock) ∧ bytes 20%nat (lock_claimAddress lock) ∧
  bytes 20%nat (lock_refundAddress lock).

(** The six fields that name a lock on the contract survive the database: a
    row that stores a lock rebuilds exactly that lock, 256-bit amounts
    included, on either leg. *)
Theorem lock_survives_the_row lock row :
  lock_wf lock → stores lock row →
  sendLockFromRow row = Ok lock ∧ receiveLockFromRow row = Ok lock.
Proof.
  unfold lock_wf, stores. intros ([Hh Hhl] & Ha & [Ht Htl] & [Hc Hcl] & [Hr Hrl]) (H1 & H2 & H3 & H4 & H5 & H6).
  assert (lockFromRow row = Ok lock) as Hl; [|by split].
  assert (∀ bytes s name n, Forall is_byte bytes → length bytes = n →
    s = hex_encode bytes ∨ s = "0x" +:+ hex_encode bytes → bytesFromHex s name n = Ok bytes) as Hb.
  { intros bytes s name n Hf Hn [-> | ->]; by apply bytesFromHex_encode. }
  unfold lockFromRow. rewrite H2, H6, amountOf_pretty by done.
  rewrite (Hb _ _ _ _ Hh Hhl H1), (Hb _ _ _ _ Ht Htl H3), (Hb _ _ _ _ Hc Hcl H4), (Hb _ _ _ _ Hr Hrl H5).
  by destruct lock.
Qed.

Definition example_lock : Erc20SwapLock :=
  mkLock (replicate 32 171) (2 ^ 200 + 7) (replicate 20 18) (replicate 20 255) (replicate 20 0) 21000000.

Definition example_quote : CommonQuote :=
  mkQuote (hex_encode (replicate 32 171)) 100000 99500 (pretty (2 ^ 200 + 7))
    ("0x" +:+ hex_encode (replicate 20 18)) ("0x" +:+ hex_encode (replicate 20 7)) 1 21000000 1700000060
    12 60 ("0x" +:+ hex_encode (replicate 20 255)) (hex_encode (replicate 20 0)) 1700090000
    "aa" "bb" 512 1024 2048 "5120aa" "ark1q" "5120bb" "cc" "dd" "5120ee" true (Some "rfq-1").

Lemma lock_survives_the_row_witness :
  sendLockFromRow example_quote = Ok example_lock.
Proof.
  assert (∀ n b, 0 ≤ b < 256 → Forall is_byte (replicate n b) ∧ length (replicate n b) = n) as Hb.
  { intros n b Hb. split; [by apply Forall_replicate|apply length_replicate]. }
  apply (lock_survives_the_row example_lock example_quote).
  - unfold lock_wf. cbn -[replicate]. split; [apply Hb; lia|]. split; [lia|].
    split; [apply Hb; lia|]. split; apply Hb; lia.
  - unfold stores. split; [left; reflexivity|]. split; [reflexivity|].
    split; [right; reflexivity|]. split; [right; reflexivity|]. split; [left; reflexivity|reflexivity].
Defined.

(** ** The payout funding binding agrees with the lock *)

Lemma hex_decode_spec : ∀ s bytes,
  hex_decode s = Some bytes →
  hex_encode bytes = toLowerCase s ∧ all_chars lower_hex (toLowerCase s) = true ∧
  String.length s = (2 * length bytes)%nat.
Proof.
  fix IH 1. intros [|c1 [|c2 s]] bytes; cbn [hex_decode]; intros H; try done.
  { by simplify_eq/=. }
  destruct (hex_digit c1) as [hi|] eqn:H1; [|done]. destruct (hex_digit c2) as [lo|] eqn:H2; [|done].
  cbn in H. destruct (hex_decode s) as [rest|] eqn:Hs; [|done]. cbn in H. simplify_eq.
  destruct (IH _ _ Hs) as (He & Ha & Hl).
  apply hex_digit_spec in H1 as (B1 & N1 & L1), H2 as (B2 & N2 & L2).
  cbn [hex_encode toLowerCase all_chars String.length length].
  assert ((16 * hi + lo) / 16 = hi) as -> by (symmetry; apply (Z.div_unique _ _ _ lo); lia).
  assert ((16 * hi + lo) mod 16 = lo) as -> by (symmetry; apply (Z.mod_unique _ _ hi); lia).
  rewrite N1, N2, He, L1, L2, Ha, Hl. cbn. split_and!; [done|done|lia].
Qed.

Lemma toLowerCase_length s : String.length (toLowerCase s) = String.length s.
Proof. induction s; cbn; congruence. Qed.

(** What the lock was read from, the binding reads as the same value. *)
Lemma bytesFromHex_normalized value name n bytes :
  bytesFromHex value name n = Ok bytes →
  normalizedHex value n = bytesHex bytes n ∧ bytesHex bytes n = Ok (hex_encode bytes).
Proof.
  unfold bytesFromHex. case_bool_decide as Hl; [|done].
  destruct (hex_decode (strip0x value)) as [b|] eqn:Hd; [|done]. intros [= ->].
  apply hex_decode_spec in Hd as (He & Ha & Hn). unfold normalizedHex, bytesHex.
  rewrite toLowerCase_length, bool_decide_true, Ha, He by done. cbn.
  rewrite bool_decide_true by lia. done.
Qed.

Lemma lockFromRow_Ok row lock :
  lockFromRow row = Ok lock →
  bytesFromHex (paymentHash row) "paymentHash" 32 = Ok (lock_preimageHash lock) ∧
  decimal (evmAmount row) = Some (lock_amount lock) ∧
  bytesFromHex (tokenAddress row) "tokenAddress" 20 = Ok (lock_tokenAddress lock) ∧
  bytesFromHex (evmClaimAddress row) "evmClaimAddress" 20 = Ok (lock_claimAddress lock) ∧
  bytesFromHex (evmRefundAddress row) "evmRefundAddress" 20 = Ok (lock_refundAddress lock) ∧
  evmTimeout row = lock_timelock lock.
Proof.
  unfold lockFromRow, amountOf. repeat setoid_rewrite bind_Ok.
  intros (h & Hh & a & Ha & t & Ht & c & Hc & r & Hr & [= <-]). cbn.
  destruct (decimal (evmAmount row)); simplify_eq. by split_and!.
Qed.

Lemma decimal_go_ge : ∀ s acc n, 0 ≤ acc → decimal_go s acc = Some n → acc ≤ n.
Proof.
  induction s as [|c s IH]; cbn; intros acc n Ha H; [by simplify_eq|].
  destruct (decimal_digit c) as [d|] eqn:Hd; [|done]. cbn in H.
  assert (0 ≤ d) by (unfold decimal_digit in Hd; case_match; simplify_eq; bool_to_prop; lia).
  apply IH in H; lia.
Qed.

Lemma positive_decimal_spec s n : positive_decimal s = true → decimal s = Some n → 0 < n.
Proof.
  destruct s as [|c s]; [done|]. cbn [positive_decimal decimal decimal_go].
  intros [Hc _]%andb_true_iff H. apply negb_true_iff, bool_decide_eq_false in Hc.
  destruct (decimal_digit c) as [d|] eqn:Hd; [|done]. cbn [mbind option_bind] in H.
  assert (0 < d).
  { revert d Hd Hc H. clear. intros d Hd Hc _. revert d Hd Hc. all_ascii c; first [reflexivity | congruence]. }
  apply decimal_go_ge in H; lia.
Qed.

(** C39: a binding is never made for another lock than the row's. Against the
    lock the row rebuilds, the comparison of the six fields cannot fail: the
    only errors are a malformed row or contract address, and a binding that is
    returned carries the lock's hash, token, parties, amount and timeout. *)
Theorem binding_agrees_with_lock adapter id row lock :
  sendLockFromRow row = Ok lock →
  match payoutFundingBinding adapter id row lock with
  | Ok b =>
      bound_paymentHash b = hex_encode (lock_preimageHash lock) ∧
      bound_tokenAddress b = "0x" +:+ hex_encode (lock_tokenAddress lock) ∧
      claimAddress b = "0x" +:+ hex_encode (lock_claimAddress lock) ∧
      refundAddress b = "0x" +:+ hex_encode (lock_refundAddress lock) ∧
      decimal (bound_amount b) = Some (lock_amount lock) ∧ 0 < lock_amount lock < 2 ^ 256 ∧
      bound_evmTimeout b = pretty (lock_timelock lock) ∧ intentId b = id
  | Err e =>
      e = InvalidIdentityOrAmount ∨ e = InvalidDeadlineOrChain ∨ e = AmountExceedsUint256 ∨
      e = InvalidHex ∧ normalizedHex (evmContractAddress row) 20 = Err InvalidHex
  end.
Proof.
  intros (Hh & Ha & Ht & Hc & Hr & He)%lockFromRow_Ok.
  apply bytesFromHex_normalized in Hh as [Hh Hh'], Ht as [Ht Ht'], Hc as [Hc Hc'], Hr as [Hr Hr'].
  unfold payoutFundingBinding. rewrite Ha, Hh, Ht, Hc, Hr, Hh', Ht', Hc', Hr', He.
  destruct (blank adapter || bool_decide (id = "") || negb (positive_decimal (evmAmount row))) eqn:Hid;
    [by left|].
  cbn [throw_if mbind result_bind]. match goal with |- context [throw_if ?c InvalidDeadlineOrChain] => destruct c end;
    [by right; left|].
  cbn [throw_if mbind result_bind].
  destruct (2 ^ 256 <=? default 0 (Some (lock_amount lock))) eqn:Hb; [by right; right; left|].
  cbn [throw_if mbind result_bind negb].
  rewrite !bool_decide_true, !Z.eqb_refl by done. cbn [throw_if mbind result_bind negb].
  destruct (normalizedHex (evmContractAddress row) 20) as [contract|e] eqn:Hn; cbn [mbind result_bind].
  - bool_to_prop. cbn in Hb |- *. split_and!; try done. by eapply positive_decimal_spec.
  - right. right. right. unfold normalizedHex in Hn. case_match; by simplify_eq.
Qed.

Lemma binding_agrees_with_lock_witness :
  ∃ b, payoutFundingBinding "adapter" "swap-1" example_quote example_lock = Ok b ∧
       refundAddress b = "0x" +:+ hex_encode (lock_refundAddress example_lock).
Proof.
  assert (sendLockFromRow example_quote = Ok example_lock) as Hl by (vm_compute; reflexivity).
  pose proof (binding_agrees_with_lock "adapter" "swap-1" _ _ Hl) as H.
  destruct (payoutFundingBinding "adapter" "swap-1" example_quote example_lock) as [b|e] eqn:Hb.
  - exists b. split; [reflexivity|]. apply H.
  - exfalso. vm_compute in Hb. discriminate Hb.
Defined.
