(* ===== verification/Invoice.v ===== *)
(** * Decoding an invoice

    [packages/solver-core/src/invoice/decode.ts]: what of a BOLT11 the send leg
    is priced from and pays by, read from the invoice itself and checked. The
    library [light-bolt11-decoder] is a parameter: a list of named sections, or
    a failure. *)
From Stdlib Require Import QArith_base Ascii.
From S2P Require Import Prelude JsString SendPolicy EvmRow.
#[local] Open Scope Z_scope.

(** ** [light-bolt11-decoder] *)

Record RouteHintHop := mkHop { short_channel_id : option string; cltv_expiry_delta : option Z }.

Inductive section_value :=
  | VString (s : string)
  | VNumber (n : Z)
  | VNetwork (bech32 : option string)
  | VHops (hops : list RouteHintHop).

(** The sections in their order, each with its value where it has one. *)
Record Bolt11 := mkBolt11 { sections : list (string * option section_value); expiry : option Z }.
Class Bolt11Decoder := bolt11_decode : string → option Bolt11.

(** ** What it is read as *)

Definition MAX_INVOICE_LENGTH : nat := 2048.
Definition DEFAULT_EXPIRY_SECONDS : Z := 3600.
Definition DEFAULT_MIN_FINAL_CLTV : Z := 18.
Definition MAX_CLIENT_FINAL_CLTV_BLOCKS : Z := 288.

Record DroppedHint := mkDropped { scid : string; cltv : Z }.

Record DecodedInvoice := mkDecoded {
  decoded_invoice : string;
  decoded_paymentHash : string;
  decoded_amountSats : Z;
  decoded_expiresAt : Z;
  decoded_network : string;
  decoded_minFinalCltvBlocks : Z;
  decoded_worstRouteHintCltvBlocks : Z;
  decoded_bestRouteHintCltvBlocks : Z;
  droppedHints : list DroppedHint;     (** absent when empty *)
}.

Inductive InvoiceRejection :=
  | too_long | mixed_case | malformed | missing_payment_hash | missing_amount | sub_satoshi_amount
  | missing_network | missing_timestamp | invoice_cltv_too_large.

Definition rejection_text (r : InvoiceRejection) : string :=
  match r with
  | too_long => "too_long" | mixed_case => "mixed_case" | malformed => "malformed"
  | missing_payment_hash => "missing_payment_hash" | missing_amount => "missing_amount"
  | sub_satoshi_amount => "sub_satoshi_amount" | missing_network => "missing_network"
  | missing_timestamp => "missing_timestamp" | invoice_cltv_too_large => "cltv_too_large"
  end.

(** [context]: what was found, its limit, and whether both are blocks. *)
Record InvalidInvoice := mkInvalid {
  rejection : InvoiceRejection;
  rejection_detail : option string;
  rejection_context : option (Z * Z * bool);
}.
Definition invalid (r : InvoiceRejection) : InvalidInvoice := mkInvalid r None None.

(** [super(…)] *)
Definition invalid_text (e : InvalidInvoice) : string :=
  "invoice rejected: " +:+ rejection_text (rejection e) +:+
  match rejection_detail e with
  | Some EmptyString | None => EmptyString
  | Some detail => " (" +:+ detail +:+ ")"
  end.

(** ** Reading sections *)

Definition sectionOf (d : Bolt11) (name : string) : option section_value :=
  match list_find (λ s, s.1 = name) (sections d) with Some (_, s) => s.2 | None => None end.

(** [Number(value)] *)
Definition numberOf (v : section_value) : num :=
  match v with VString s => Number s | VNumber n => of_Z n | _ => NaN end.

(** [/[a-z]/.test(s)], [/[A-Z]/.test(s)] *)
Definition is_lower (c : ascii) : bool := let n := nat_of_ascii c in (97 <=? n)%nat && (n <=? 122)%nat.
Definition is_upper (c : ascii) : bool := let n := nat_of_ascii c in (65 <=? n)%nat && (n <=? 90)%nat.
Fixpoint any_char (p : ascii → bool) (s : string) : bool :=
  match s with String c rest => p c || any_char p rest | EmptyString => false end.

Definition hopsOf (v : option section_value) : list RouteHintHop :=
  match v with Some (VHops hops) => hops | _ => [] end.
Definition scidOf (hop : RouteHintHop) : string :=
  match short_channel_id hop with Some s => toLowerCase s | None => EmptyString end.

Record Hint := mkHint { hint_cltv : Z; deniedScid : option string }.
Definition hintOf (denylist : gset string) (hops : list RouteHintHop) : Hint :=
  mkHint (foldl (λ sum hop, sum + default 0 (cltv_expiry_delta hop)) 0 hops)
    (match list_find (λ s, s ∈ denylist) (scidOf <$> hops) with Some (_, s) => Some s | None => None end).

(** Every [r] field, one alternative each. *)
Definition hintsOf (denylist : gset string) (d : Bolt11) : list Hint :=
  (λ s, hintOf denylist (hopsOf s.2)) <$> filter (λ s, s.1 = "route_hint") (sections d).

Definition hintTotals (hints : list Hint) : list Z :=
  omap (λ h, match deniedScid h with None => Some (hint_cltv h) | Some _ => None end) hints.
Definition droppedOf (hints : list Hint) : list DroppedHint :=
  omap (λ h, option_map (λ s, mkDropped s (hint_cltv h)) (deniedScid h)) hints.

Definition worstOf (totals : list Z) : Z := foldl Z.max 0 totals.
(** Not a seeded minimum: without hints zero, else the least. *)
Definition bestOf (totals : list Z) : Z :=
  match totals with [] => 0 | t :: rest => foldl Z.min t rest end.

Section decode.
Context `{Bolt11Decoder}.

Definition parseBolt11 (raw : string) : result InvalidInvoice Bolt11 :=
  if (MAX_INVOICE_LENGTH <? String.length raw)%nat then Err (invalid too_long)
  else match bolt11_decode (toLowerCase raw) with Some d => Ok d | None => Err (invalid malformed) end.

Definition finalCltvBlocksOf (raw : string) : result InvalidInvoice Z :=
  d ← parseBolt11 raw;
  Ok (match sectionOf d "min_final_cltv_expiry" with Some (VNumber n) => n | _ => DEFAULT_MIN_FINAL_CLTV end).

Definition timestampOf (d : Bolt11) : result InvalidInvoice Z :=
  match sectionOf d "timestamp" with
  | Some (VNumber t) => if t <=? 0 then Err (invalid missing_timestamp) else Ok t
  | _ => Err (invalid missing_timestamp)
  end.

Definition expiresAtOf (raw : string) : result InvalidInvoice Z :=
  d ← parseBolt11 raw;
  t ← timestampOf d;
  Ok (t + default DEFAULT_EXPIRY_SECONDS (expiry d)).

Definition hashOf (d : Bolt11) : result InvalidInvoice string :=
  match sectionOf d "payment_hash" with
  | Some (VString h) =>
      if (String.length h =? 64)%nat then Ok h else Err (invalid missing_payment_hash)
  | _ => Err (invalid missing_payment_hash)
  end.

Definition paymentHashOf (raw : string) : result InvalidInvoice string :=
  d ← parseBolt11 raw; hashOf d.

(** A positive finite amount of millisats. *)
Definition msatOf (d : Bolt11) : result InvalidInvoice num :=
  match sectionOf d "amount" with
  | None | Some (VString EmptyString) => Err (invalid missing_amount)
  | Some v =>
      let msat := numberOf v in
      if negb (isFinite msat) || num_le msat (of_Z 0) then Err (invalid missing_amount) else Ok msat
  end.

(** [msat / 1000], a double. *)
Definition amountSatsOf (raw : string) : result InvalidInvoice num :=
  d ← parseBolt11 raw;
  msat ← msatOf d;
  Ok (match msat with
      | Fin q => round_double false (Qnum q) (Zpos (Qden q) * 1000)
      | n => n
      end).

(** The final delta and the best route together, within what a client may ask. *)
Definition checkClientCltv (enforce : bool) (final best : Z) : result InvalidInvoice unit :=
  throw_if (enforce && (MAX_CLIENT_CLTV_BLOCKS <? final + best))
    (mkInvalid invoice_cltv_too_large
       (Some ("final delta " +:+ pretty final +:+ " + best route hint " +:+ pretty best +:+ " = " +:+
              pretty (final + best) +:+ " > " +:+ pretty MAX_CLIENT_CLTV_BLOCKS +:+ " (best-hint floor)"))
       (Some (final + best, MAX_CLIENT_CLTV_BLOCKS, true))).

Definition decodeInvoiceWithPolicy (raw : string) (denylist : gset string) (enforceClientCltv : bool)
    : result InvalidInvoice DecodedInvoice :=
  _ ← throw_if (MAX_INVOICE_LENGTH <? String.length raw)%nat
        (mkInvalid too_long None (Some (Z.of_nat (String.length raw), Z.of_nat MAX_INVOICE_LENGTH, false)));
  _ ← throw_if (any_char is_lower raw && any_char is_upper raw) (invalid mixed_case);
  let invoice := toLowerCase raw in
  decoded ← match bolt11_decode invoice with Some d => Ok d | None => Err (invalid malformed) end;
  paymentHash ← hashOf decoded;
  network ← match sectionOf decoded "coin_network" with
            | Some (VNetwork (Some n)) => if bool_decide (n = "") then Err (invalid missing_network) else Ok n
            | _ => Err (invalid missing_network)
            end;
  timestamp ← timestampOf decoded;
  msat ← msatOf decoded;
  sats ← match integer msat with
         | Some m => if m mod 1000 =? 0 then Ok (m / 1000) else Err (invalid sub_satoshi_amount)
         | None => Err (invalid sub_satoshi_amount)
         end;
  let final := match sectionOf decoded "min_final_cltv_expiry" with
               | Some (VNumber n) => n | _ => DEFAULT_MIN_FINAL_CLTV end in
  _ ← throw_if (enforceClientCltv && (MAX_CLIENT_FINAL_CLTV_BLOCKS <? final))
        (mkInvalid invoice_cltv_too_large
           (Some ("final delta " +:+ pretty final +:+ " > " +:+ pretty MAX_CLIENT_FINAL_CLTV_BLOCKS))
           (Some (final, MAX_CLIENT_FINAL_CLTV_BLOCKS, true)));
  let hints := hintsOf denylist decoded in
  let worst := worstOf (hintTotals hints) in
  let best := bestOf (hintTotals hints) in
  _ ← checkClientCltv enforceClientCltv final best;
  Ok (mkDecoded invoice paymentHash sats (timestamp + default DEFAULT_EXPIRY_SECONDS (expiry decoded))
        network final worst best (droppedOf hints)).

Definition decodeInvoice (denylist : gset string) (raw : string) : result InvalidInvoice DecodedInvoice :=
  decodeInvoiceWithPolicy raw denylist true.
(** An invoice this solver minted, without the policy on external ones. *)
Definition decodeCoupledInvoice (denylist : gset string) (raw : string) : result InvalidInvoice DecodedInvoice :=
  decodeInvoiceWithPolicy raw denylist false.
End decode.

(** ** What a decoded invoice says *)

Lemma lower_char_idem c : lower_char (lower_char c) = lower_char c.
Proof. destruct c as [[] [] [] [] [] [] [] []]; vm_compute; reflexivity. Qed.
Lemma lower_char_not_upper c : is_upper (lower_char c) = false.
Proof. destruct c as [[] [] [] [] [] [] [] []]; vm_compute; reflexivity. Qed.
Lemma toLowerCase_idem s : toLowerCase (toLowerCase s) = toLowerCase s.
Proof. induction s as [|c s IH]; [done|]. cbn [toLowerCase]. by rewrite lower_char_idem, IH. Qed.
Lemma toLowerCase_not_upper s : any_char is_upper (toLowerCase s) = false.
Proof. induction s as [|c s IH]; [done|]. cbn [toLowerCase any_char]. by rewrite lower_char_not_upper. Qed.

Lemma worstOf_spec totals m : m ≤ foldl Z.max m totals ∧ Forall (λ t, t ≤ foldl Z.max m totals) totals.
Proof.
  revert m. induction totals as [|t totals IH]; intros m; cbn [foldl]; [by split; [lia|]|].
  destruct (IH (Z.max m t)) as [Hm Hall]. split; [lia|]. constructor; [lia|done].
Qed.
Lemma bestOf_spec totals m :
  foldl Z.min m totals ≤ m ∧ Forall (λ t, foldl Z.min m totals ≤ t) totals ∧ foldl Z.min m totals ∈ m :: totals.
Proof.
  revert m. induction totals as [|t totals IH]; intros m; cbn [foldl]; [split_and!; [lia|done|set_solver]|].
  destruct (IH (Z.min m t)) as (Hm & Hall & Hin). split_and!; [lia|constructor; [lia|done]|].
  apply elem_of_cons in Hin as [Hin|Hin]; [|by do 2 apply list_elem_of_further].
  rewrite Hin. destruct (Z.min_spec m t) as [[_ ->]|[_ ->]]; [left|right; left].
Qed.

(** Every route that is priced lies between the two totals, and the best is one. *)
Lemma totals_span totals :
  Forall (λ t, bestOf totals ≤ t ≤ worstOf totals) totals ∧ (totals ≠ [] → bestOf totals ∈ totals) ∧
  bestOf totals ≤ worstOf totals.
Proof.
  destruct totals as [|t rest]; [by split_and!; [|done|cbn]|].
  destruct (worstOf_spec (t :: rest) 0) as [_ Hw].
  destruct (bestOf_spec rest t) as (Hb & Hbs & Hin). unfold bestOf.
  assert (Forall (λ u, foldl Z.min t rest ≤ u ≤ worstOf (t :: rest)) (t :: rest)) as Hall.
  { apply Forall_and. split; [by constructor|exact Hw]. }
  split_and!; [exact Hall|done|]. inversion_clear Hall. lia.
Qed.

Section decoded.
Context `{Bolt11Decoder}.

Lemma checkClientCltv_Ok enforce final best :
  checkClientCltv enforce final best = Ok tt ↔ (enforce = true → final + best ≤ MAX_CLIENT_CLTV_BLOCKS).
Proof.
  unfold checkClientCltv. rewrite throw_if_Ok. destruct enforce; cbn; [|naive_solver].
  rewrite Z.ltb_ge. naive_solver.
Qed.

(** The policy only ever refuses: what passes it reads the same without it. *)
Lemma without_policy raw denylist d :
  decodeInvoiceWithPolicy raw denylist true = Ok d → decodeInvoiceWithPolicy raw denylist false = Ok d.
Proof.
  unfold decodeInvoiceWithPolicy, checkClientCltv. intros Hd.
  repeat (apply bind_Ok in Hd as (? & Hx & Hd); try rewrite Hx; clear Hx; cbn [andb throw_if mbind result_bind]).
  exact Hd.
Qed.

(** The text kept on the row reads back the same. *)
Lemma read_back raw denylist enforce d :
  decodeInvoiceWithPolicy raw denylist enforce = Ok d →
  decoded_invoice d = toLowerCase raw ∧
  decodeInvoiceWithPolicy (decoded_invoice d) denylist enforce = Ok d.
Proof.
  intros Hd. assert (decoded_invoice d = toLowerCase raw) as Hi.
  { unfold decodeInvoiceWithPolicy in Hd. repeat (apply bind_Ok in Hd as (? & _ & Hd)). by injection Hd as <-. }
  split; [done|]. rewrite Hi. unfold decodeInvoiceWithPolicy in *.
  rewrite toLowerCase_length, toLowerCase_not_upper, toLowerCase_idem, andb_false_r.
  apply bind_Ok in Hd as ([] & -> & Hd). apply bind_Ok in Hd as ([] & _ & Hd). exact Hd.
Qed.

(** C36: an invoice has one reading. Whatever case the client wrote it in, the
    text kept with the swap decodes, under the same denylist, to the very facts
    the quote was priced from — at funding, at payment and after a restart; the
    reading without the client's CLTV policy agrees wherever that policy
    passes, and so do the readers of the payment hash and of the expiry. *)
Theorem stored_invoice_reads_back denylist raw d :
  decodeInvoice denylist raw = Ok d →
  decodeInvoice denylist (decoded_invoice d) = Ok d ∧
  decodeCoupledInvoice denylist (decoded_invoice d) = Ok d ∧
  paymentHashOf (decoded_invoice d) = Ok (decoded_paymentHash d) ∧
  expiresAtOf (decoded_invoice d) = Ok (decoded_expiresAt d).
Proof.
  unfold decodeInvoice, decodeCoupledInvoice. intros Hd. apply read_back in Hd as [Hi Hd].
  split; [exact Hd|]. split; [by apply without_policy|]. revert Hd. rewrite Hi.
  unfold decodeInvoiceWithPolicy, paymentHashOf, expiresAtOf, parseBolt11. rewrite toLowerCase_length, toLowerCase_idem.
  intros Hd. apply bind_Ok in Hd as ([] & Hl%throw_if_Ok & Hd). rewrite Hl.
  apply bind_Ok in Hd as ([] & _ & Hd). apply bind_Ok in Hd as (b & Hb & Hd).
  destruct (bolt11_decode _); [|done]. injection Hb as ->. cbn [mbind result_bind].
  apply bind_Ok in Hd as (h & -> & Hd). apply bind_Ok in Hd as (n & _ & Hd).
  apply bind_Ok in Hd as (t & -> & Hd). cbn [mbind result_bind].
  repeat (apply bind_Ok in Hd as (? & _ & Hd)). by injection Hd as <-.
Qed.

(** What the decoder lets through is payable input: a payment hash of 64
    characters, a network, a whole positive number of sats that is the invoice's
    own amount, and CLTV demands whose most favourable reading is within the
    client ceiling. The two route totals span every hint the payer may take, the
    best of them one the invoice carries: a hint no denied channel is on is
    priced between them, one that passes through a denied channel is dropped
    whole and reported. *)
Theorem decoded_invoice_is_bounded denylist raw d :
  decodeInvoice denylist raw = Ok d →
  ∃ sections msat,
    bolt11_decode (decoded_invoice d) = Some sections ∧
    String.length (decoded_paymentHash d) = 64%nat ∧ decoded_network d ≠ "" ∧
    msatOf sections = Ok msat ∧ integer msat = Some (1000 * decoded_amountSats d) ∧ 0 < decoded_amountSats d ∧
    decoded_minFinalCltvBlocks d + decoded_bestRouteHintCltvBlocks d ≤ MAX_CLIENT_CLTV_BLOCKS ∧
    decoded_bestRouteHintCltvBlocks d ≤ decoded_worstRouteHintCltvBlocks d ∧
    (hintTotals (hintsOf denylist sections) = [] ∧ decoded_bestRouteHintCltvBlocks d = 0 ∨
     decoded_bestRouteHintCltvBlocks d ∈ hintTotals (hintsOf denylist sections)) ∧
    (∀ h, h ∈ hintsOf denylist sections →
       match deniedScid h with
       | None => decoded_bestRouteHintCltvBlocks d ≤ hint_cltv h ≤ decoded_worstRouteHintCltvBlocks d
       | Some s => s ∈ denylist ∧ mkDropped s (hint_cltv h) ∈ droppedHints d
       end).
Proof.
  intros Hd. unfold decodeInvoice, decodeInvoiceWithPolicy in Hd.
  apply bind_Ok in Hd as ([] & _ & Hd). apply bind_Ok in Hd as ([] & _ & Hd).
  apply bind_Ok in Hd as (b & Hb & Hd). apply bind_Ok in Hd as (h & Hh & Hd).
  apply bind_Ok in Hd as (n & Hn & Hd). apply bind_Ok in Hd as (t & _ & Hd).
  apply bind_Ok in Hd as (msat & Hm & Hd). apply bind_Ok in Hd as (sats & Hs & Hd).
  apply bind_Ok in Hd as ([] & _ & Hd). apply bind_Ok in Hd as ([] & Hc & Hd). injection Hd as <-.
  exists b, msat. cbn [decoded_invoice decoded_paymentHash decoded_network decoded_amountSats
    decoded_minFinalCltvBlocks decoded_bestRouteHintCltvBlocks decoded_worstRouteHintCltvBlocks droppedHints].
  apply checkClientCltv_Ok in Hc; [|done].
  destruct (totals_span (hintTotals (hintsOf denylist b))) as (Hspan & Hbest & Hle).
  assert (integer msat = Some (1000 * sats)) as Hi.
  { destruct (integer msat) as [m|]; [|done]. destruct (m mod 1000 =? 0) eqn:Hz; [|done]. bool_to_prop.
    injection Hs as <-. f_equal. pose proof (Z.div_mod m 1000 ltac:(lia)). lia. }
  split_and!; try done.
  - destruct (bolt11_decode _); [|done]. injection Hb as ->. done.
  - unfold hashOf in Hh. destruct (sectionOf b "payment_hash") as [[s| | |]|]; try done.
    destruct (_ =? 64)%nat eqn:Hl; [|done]. injection Hh as <-. by apply Nat.eqb_eq.
  - destruct (sectionOf b "coin_network") as [[| |[s|]|]|]; try done. case_bool_decide; [done|]. by injection Hn as <-.
  - assert (num_le msat (of_Z 0) = false) as Hpos.
    { unfold msatOf in Hm. clear Hn Hs Hc. repeat case_match; try done; injection Hm as <-; by bool_to_prop. }
    destruct msat as [[p q]| |]; [|done..]. unfold integer in Hi. cbn in Hi, Hpos.
    destruct (p mod _ =? 0) eqn:Hz; [|done]. bool_to_prop. injection Hi as Hi.
    pose proof (Z.div_mod p (Zpos q) ltac:(lia)). nia.
  - destruct (hintTotals (hintsOf denylist b)) eqn:Ht; [by left|right]. by apply Hbest.
  - intros x Hx. destruct (deniedScid x) as [s|] eqn:Hden.
    + split.
      * apply list_elem_of_fmap in Hx as (sec & -> & _). cbn in Hden.
        destruct (list_find _ _) as [[k s']|] eqn:Hf; [|done]. injection Hden as ->.
        by apply list_find_Some in Hf as (_ & ? & _).
      * unfold droppedOf. apply list_elem_of_omap. exists x. by rewrite Hden.
    + rewrite Forall_forall in Hspan. apply Hspan. unfold hintTotals. apply list_elem_of_omap.
      exists x. by rewrite Hden.
Qed.
End decoded.

(** *** An invoice with a hint through a denied channel *)

Definition example_sections : Bolt11 := mkBolt11
  [("coin_network", Some (VNetwork (Some "bc"))); ("amount", Some (VString "100000000"));
   ("separator", None); ("timestamp", Some (VNumber 1700000000));
   ("payment_hash", Some (VString (hex_encode (replicate 32 171)))); ("min_final_cltv_expiry", Some (VNumber 40));
   ("route_hint", Some (VHops [mkHop (Some "0A01") (Some 40); mkHop None None]));
   ("route_hint", Some (VHops [mkHop (Some "0B02") (Some 40000)]))] (Some 600).
#[local] Instance example_decoder : Bolt11Decoder :=
  λ s, if bool_decide (s = "lnbc1m1example") then Some example_sections else None.
Definition example_denylist : gset string := {["0b02"]}.
Definition example_decoded : DecodedInvoice :=
  mkDecoded "lnbc1m1example" (hex_encode (replicate 32 171)) 100000 1700000600 "bc" 40 40 40
    [mkDropped "0b02" 40000].

Example example_decodes : decodeInvoice example_denylist "LNBC1M1EXAMPLE" = Ok example_decoded.
Proof. vm_compute. reflexivity. Qed.
Example undenied_reads_worst :
  (decoded_worstRouteHintCltvBlocks <$> decodeInvoice ∅ "lnbc1m1example") = Ok 40000.
Proof. vm_compute. reflexivity. Qed.

Lemma stored_invoice_reads_back_witness :
  decodeInvoice example_denylist "lnbc1m1example" = Ok example_decoded ∧
  expiresAtOf "lnbc1m1example" = Ok 1700000600.
Proof.
  destruct (stored_invoice_reads_back example_denylist "LNBC1M1EXAMPLE" example_decoded example_decodes)
    as (Hd & _ & _ & He). exact (conj Hd He).
Defined.

Lemma decoded_invoice_is_bounded_witness :
  0 < decoded_amountSats example_decoded ∧
  decoded_minFinalCltvBlocks example_decoded + decoded_bestRouteHintCltvBlocks example_decoded ≤ 288.
Proof.
  destruct (decoded_invoice_is_bounded example_denylist "LNBC1M1EXAMPLE" example_decoded example_decodes)
    as (sections & msat & _ & _ & _ & _ & _ & Hpos & Hcltv & _). exact (conj Hpos Hcltv).
Defined.
