(* ===== verification/Store.v ===== *)
(** * What the swap stores share

    The events a store is made of, the errors it throws, the order of the rows
    a query returns, and what its statements do to the table: common to the
    stores of [packages/solver-corridors/src/db] and
    [packages/solver-corridors-evm/src/db]. *)
From Stdlib Require Import Sorting.Sorted.
From S2P Require Import Prelude StateMachine Prog SwapDb EvmRow.

(** What a method or a service step may throw. *)
Inductive Error :=
  | UnknownColumn (where_ column : string)
  | NoSwap (noun id : string)
  | NotInState (noun id from : string)
  | UniqueConstraintError
  | MalformedRow (e : RowError)
  | InvalidBinding (e : BindingError)
  | IllegalTransition (lifecycle from to : string)
  | PaymentHashRegistered (message : string)
  | PaymentNotStarted (message : string)
  | FundNotSubmittedError (message : string)
  | ArkError (code : Z) (name message : string)
  | EvmClaimVerificationError (message : string)
  | EvmPayoutFundingQuarantinedError (message : string)
  | UnknownLockupError (message : string)
  | Thrown (message : string).
#[global] Instance Error_eq_dec : EqDecision Error.
Proof. solve_decision. Defined.

(** The events a store needs of the services' event type: one statement, one
    query — a [SELECT] is a function of the tables — and the clock. *)
Class SqlEvents (E : Type → Type) (S Q : Type) := {
  sql_run : stmt S Q → E (result Error nat);
  sql_all : ∀ {X}, (Db S Q → X) → E (result Error X);
  clock : E Z;
}.

(** What the tables differ in. *)
Class SwapShape (S : Type) := {
  noun : string;
  state_name : S → string;
  state_quoted : S;
  state_refused : S;
  state_stuck : S;
  nonTerminal : list S;
  transitionColumns : list string;
}.

(** [ORDER BY]: insertion in front of the first row the order puts later, so
    equal keys stay in rowid order. *)
Fixpoint insert_by {A} (before : A → A → bool) (x : A) (l : list A) : list A :=
  match l with
  | [] => [x]
  | y :: rest => if before x y then x :: l else y :: insert_by before x rest
  end.
Definition order_by {A} (before : A → A → bool) (l : list A) : list A :=
  foldr (insert_by before) [] l.

Section store.
Context {S Q : Type} `{EqDecision S, QuoteColumns Q, SwapShape S}.
Context {E : Type → Type} `{SqlEvents E S Q}.
#[local] Open Scope io_scope.
#[local] Abbreviation Row := (Row S Q).
#[local] Abbreviation Db := (Db S Q).

Definition oldest_first (a b : Row) : bool := created_at a <=? created_at b.
Definition newest_first (a b : Row) : bool := created_at b <=? created_at a.

Definition select_findByStates (states : list S) (d : Db) : list Row :=
  order_by oldest_first (filter (λ r, state r ∈ states) (rows d)).
Definition get (i : string) : io E Error Row :=
  found <- attempt (sql_all (λ d : Db, find_row d i)) ;;
  match found with
  | Some row => ret row
  | None => throw (NoSwap noun i)
  end.

Definition findByStates (states : list S) : io E Error (list Row) :=
  match states with
  | [] => ret []
  | _ => attempt (sql_all (select_findByStates states))
  end.
Definition findLive : io E Error (list Row) := findByStates nonTerminal.
End store.

(** ** The order of query results *)

Section order.
Context {A : Type} (before : A → A → bool).

Lemma insert_by_perm x l : insert_by before x l ≡ₚ x :: l.
Proof.
  induction l as [|y l IH]; cbn; [done|]. case_match; [done|]. rewrite IH. apply Permutation_swap.
Qed.

Lemma order_by_perm l : order_by before l ≡ₚ l.
Proof. induction l as [|x l IH]; cbn; [done|]. rewrite insert_by_perm. by f_equiv. Qed.

Lemma elem_of_order_by x l : x ∈ order_by before l ↔ x ∈ l.
Proof. by rewrite order_by_perm. Qed.

(** [later y x]: [y] may not be put in front of [x]. *)
Context (before_total : ∀ x y, before x y = false → before y x = true).
Context (before_trans : ∀ x y z, before x y = true → before y z = true → before x z = true).

Lemma order_by_sorted l : StronglySorted (λ x y, before x y = true) (order_by before l).
Proof.
  induction l as [|x l IH]; cbn; [constructor|].
  change (foldr (insert_by before) [] l) with (order_by before l).
  revert IH. generalize (order_by before l). intros l0 IH.
  induction IH as [|y l' Hs IHs Hy]; cbn; [apply SSorted_cons; constructor|].
  destruct (before x y) eqn:Hxy; apply SSorted_cons.
  - by apply SSorted_cons.
  - apply Forall_cons. split; [done|]. eapply Forall_impl; [exact Hy|]. cbn. eauto.
  - done.
  - rewrite insert_by_perm. apply Forall_cons. auto.
Qed.
End order.

(** ** A store on its own *)

(** The events of a store driven by one process, with nothing in between. *)
Inductive sqlE (S Q : Type) : Type → Type :=
  | SqlRun (s : stmt S Q) : sqlE S Q (result Error nat)
  | SqlAll {X} (f : Db S Q → X) : sqlE S Q (result Error X)
  | SqlClock : sqlE S Q Z.
Arguments SqlRun {S Q} s.
Arguments SqlAll {S Q X} f.
Arguments SqlClock {S Q}.

#[export] Instance sqlE_events {S Q} : SqlEvents (sqlE S Q) S Q :=
  {| sql_run := SqlRun; sql_all _ := SqlAll; clock := SqlClock |}.

(** The driver throws [UniqueConstraintError] for a unique index and a primary
    key alike. *)
Definition run_stmt {S Q} `{EqDecision S, QuoteColumns Q, SwapShape S} (s : stmt S Q) (d : Db S Q)
    : result Error nat * Db S Q :=
  match exec state_refused s d with
  | (Ok n, d') => (Ok n, d')
  | (Err _, d') => (Err UniqueConstraintError, d')
  end.

Definition sql_handle {S Q} `{EqDecision S, QuoteColumns Q, SwapShape S} (now : Z)
    X (e : sqlE S Q X) (d : Db S Q) : X * Db S Q :=
  match e with
  | SqlRun s => run_stmt s d
  | SqlAll f => (Ok (f d), d)
  | SqlClock => (now, d)
  end.

Section table_lemmas.
Context {S Q : Type} `{EqDecision S, QuoteColumns Q, SwapShape S}.
Implicit Types (d : Db S Q) (r : Row S Q).

Lemma live_hashes_sublist test (f : Row S Q → Row S Q) l :
  (∀ r, test r = true → state r ≠ state_refused) → (∀ r, quote (f r) = quote r) →
  live_hashes state_refused (updated test f <$> l) `sublist_of` live_hashes state_refused l.
Proof.
  intros Ht Hq. induction l as [|r l IH]; [constructor|].
  unfold live_hashes in *. cbn [fmap list_fmap]. unfold updated at 1.
  destruct (test r) eqn:Hr.
  - rewrite (filter_cons_True _ r) by auto. rewrite filter_cons. case_decide; cbn; rewrite ?Hq; by constructor.
  - rewrite !filter_cons. case_decide; cbn; [by constructor|done].
Qed.

(** An update of live rows never meets the unique index. *)
Lemma update_where_live test (f : Row S Q → Row S Q) d :
  db_wf state_refused d →
  (∀ r, test r = true → state r ≠ state_refused) → (∀ r, quote (f r) = quote r) →
  update_where state_refused test f d =
    (Ok (length (filter (λ r, test r = true) (rows d))), mkDb (updated test f <$> rows d) (events d)).
Proof.
  intros [_ Hu] Ht Hq. unfold update_where, unique_ok.
  rewrite bool_decide_true; [done|]. eapply sublist_NoDup; [exact Hu|]. by apply live_hashes_sublist.
Qed.

(** A row matched by its identity is the only one. *)
Lemma filter_id d i (test : Row S Q → bool) :
  db_wf state_refused d →
  (∀ r, test r = true → row_id r = i) →
  length (filter (λ r, test r = true) (rows d)) =
    match find_row d i with Some r => if test r then 1%nat else 0%nat | None => 0%nat end.
Proof.
  intros [Hnd _] Ht. unfold find_row. destruct d as [l ev]. cbn in *. clear ev.
  induction l as [|r l IH]; [done|]. cbn in Hnd. apply NoDup_cons in Hnd as [Hni Hnd].
  specialize (IH Hnd). rewrite filter_cons. cbn [list_find].
  destruct (decide (row_id r = i)) as [Hi|Hi]; cbn.
  - assert (filter (λ r, test r = true) l = []) as Hnil.
    { destruct (filter _ l) as [|r' l'] eqn:Hf; [done|]. exfalso.
      assert (r' ∈ filter (λ r, test r = true) l) as Hin by (rewrite Hf; by left).
      apply list_elem_of_filter in Hin as [Hr' Hin]. apply Hni, list_elem_of_fmap.
      exists r'. split; [|done]. rewrite Hi. symmetry. by apply Ht. }
    case_decide as Hd; [by rewrite Hd, Hnil|]. destruct (test r); [done|]. by rewrite Hnil.
  - rewrite decide_False by (intros Hr; by apply Hi, Ht). rewrite IH.
    destruct (list_find _ l) as [[]|]; done.
Qed.

Lemma find_row_update_other test (f : Row S Q → Row S Q) d i j ev :
  (∀ r, row_id (f r) = row_id r) → (∀ r, test r = true → row_id r = i) → j ≠ i →
  find_row (mkDb (updated test f <$> rows d) ev) j = find_row d j.
Proof.
  intros Hf Ht Hj. rewrite find_row_updated by done.
  change (find_row (mkDb (rows d) ev) j) with (find_row d j).
  destruct (find_row d j) as [r|] eqn:Hr; [|done]. cbn. f_equal. unfold updated. case_match eqn:Htr; [|done].
  apply find_row_Some in Hr as [<- _]. by apply Ht in Htr.
Qed.

(** A row as [transition] leaves it. *)
Definition moved (to : S) (f : fields) (at_ : Z) (r : Row S Q) : Row S Q :=
  mkRow (row_id r) to (created_at r) at_ (quote r) (set_columns f (cols r)).

Definition in_state (i : string) (from : S) (r : Row S Q) : bool :=
  bool_decide (row_id r = i) && bool_decide (state r = from).

Lemma in_state_spec i from r : in_state i from r = true ↔ row_id r = i ∧ state r = from.
Proof. unfold in_state. by rewrite andb_true_iff, !bool_decide_eq_true. Qed.

(** The [UPDATE] of [transition]: it matches the one row, or none. *)
Lemma run_UpdateState d i from to f at_ :
  db_wf state_refused d → from ≠ state_refused →
  run_stmt (UpdateState i from to f at_) d =
    (Ok match find_row d i with Some r => if in_state i from r then 1%nat else 0%nat | None => 0%nat end,
     mkDb (updated (in_state i from) (moved to f at_) <$> rows d) (events d)).
Proof.
  intros Hwf Hfrom. rewrite <- (filter_id d i (in_state i from)) by (done || intros r; rewrite in_state_spec; tauto).
  assert (exec state_refused (UpdateState i from to f at_) d =
    (Ok (length (filter (λ r, in_state i from r = true) (rows d))),
     mkDb (updated (in_state i from) (moved to f at_) <$> rows d) (events d))) as He.
  { apply update_where_live; [done| |done]. by intros r [_ ->]%in_state_spec. }
  unfold run_stmt. by rewrite He.
Qed.

Lemma find_row_moved d i from to f at_ ev j :
  find_row (mkDb (updated (in_state i from) (moved to f at_) <$> rows d) ev) j =
    match find_row d j with
    | Some r => Some (if bool_decide (j = i ∧ state r = from) then moved to f at_ r else r)
    | None => None
    end.
Proof.
  rewrite find_row_updated by done. change (find_row (mkDb (rows d) ev) j) with (find_row d j).
  destruct (find_row d j) as [r|] eqn:Hr; [|done]. cbn. f_equal. unfold updated, in_state.
  apply find_row_Some in Hr as [<- _]. by rewrite bool_decide_and.
Qed.

Lemma run_UpdateState_wf d i from to f at_ :
  db_wf state_refused d → from ≠ state_refused →
  db_wf state_refused (mkDb (updated (in_state i from) (moved to f at_) <$> rows d) (events d)).
Proof.
  intros Hwf Hfrom. pose proof (exec_wf state_refused (UpdateState i from to f at_) d Hwf) as Hwf'.
  pose proof (run_UpdateState d i from to f at_ Hwf Hfrom) as Hr. unfold run_stmt in Hr.
  destruct (exec _ _ d) as [[] d'] eqn:He; simplify_eq/=. exact Hwf'.
Qed.

Lemma sum_updated (c : Row S Q → Z) test f l row :
  NoDup (row_id <$> l) → (∀ r, test r = true → row_id r = row_id row) →
  row ∈ l → test row = true →
  foldr (λ r, Z.add (c r)) 0 (updated test f <$> l) = foldr (λ r, Z.add (c r)) 0 l - c row + c (f row).
Proof.
  intros Hnd Ht Hin Hrow. induction l as [|r l IH]; [inversion Hin|].
  cbn in Hnd |- *. apply NoDup_cons in Hnd as [Hni Hnd].
  apply elem_of_cons in Hin as [<-|Hin].
  - assert (updated test f <$> l = l) as ->.
    { rewrite <- (list_fmap_id l) at 2. apply list_fmap_ext. intros n r Hr. unfold updated.
      case_match eqn:Htr; [|done]. exfalso. apply Hni, list_elem_of_fmap. exists r.
      split; [by rewrite (Ht r Htr)|]. by eapply list_elem_of_lookup_2. }
    unfold updated. rewrite Hrow. lia.
  - rewrite IH by done. unfold updated. case_match eqn:Htr; [|lia]. exfalso.
    apply Hni, list_elem_of_fmap. exists row. split; [|done]. by apply Ht.
Qed.

End table_lemmas.
