(* ===== verification/Corridor.v ===== *)
(** * What the Bitcoin corridors share

    Small things the orchestrators of [packages/solver-corridors/src] have in
    common: the status of a hold invoice ([solver-core/src/ports/lightning.ts]),
    the check of a preimage ([core/preimage.ts]), the message of an error, and
    the object literals their rows are patched with. *)
From S2P Require Import Prelude Prog SwapDb EvmRow Store.
#[local] Open Scope Z_scope.

Inductive HoldStatus := hold_pending | armed | hold_settled | cancelled | hold_unknown.

(** [error.message] *)
Definition message (e : Error) : string :=
  match e with
  | Thrown m | PaymentHashRegistered m | PaymentNotStarted m | FundNotSubmittedError m
  | ArkError _ _ m | EvmClaimVerificationError m
  | EvmPayoutFundingQuarantinedError m | UnknownLockupError m => m
  | UnknownColumn method column => method +:+ " may not set column '" +:+ column +:+ "'"
  | NoSwap noun id => noun +:+ " " +:+ id +:+ " not found"
  | IllegalTransition label from to =>
      "illegal transition " +:+ from +:+ " -> " +:+ to +:+ ": not an edge of the " +:+ label
  | NotInState noun id from => noun +:+ " " +:+ id +:+ " is not " +:+ from
  | UniqueConstraintError => "UNIQUE constraint failed"
  | MalformedRow _ | InvalidBinding _ => "malformed"
  end.

Section preimages.
(** [sha256] *)
Context (sha256 : list Z → list Z).
Definition paymentHashFromPreimage (preimage : list Z) : string := hex_encode (sha256 preimage).
Definition preimageMatchesHash (preimageHex paymentHashHex : string) : bool :=
  match hex_decode preimageHex with
  | Some bytes => bool_decide (paymentHashFromPreimage bytes = paymentHashHex)
  | None => false
  end.
End preimages.

Definition set_text (column value : string) : fields := [(column, Some (VText value))].
Definition set_int (column : string) (value : Z) : fields := [(column, Some (VInt value))].
(** A field present only when the value is. *)
Definition set_if (column : string) (value : option string) : fields :=
  match value with Some v => set_text column v | None => [] end.
