(* ===== verification/Lockup.v ===== *)
(** * The outputs of an Arkade lockup

    Which outputs of a lockup a spend may take, and which are still to be
    collected: the pure rules of [solver-arkade/src/arkade/wallet.ts] and
    [solver-corridors/src/legs/arkadeLockup.ts] every corridor with an Arkade
    leg shares. *)
From S2P Require Import Prelude SwapDb EvmRow Store.
#[local] Open Scope Z_scope.

Record FundedOutput := mkOutput {
  txid : string;
  vout : Z;
  value : Z;
  carries_assets : bool;      (** [assets?.length] *)
  expiresAt : option Z;
}.

Definition totalValue (outputs : list FundedOutput) : Z := foldr (λ o, Z.add (value o)) 0 outputs.

Definition MAX_LOCKUP_SPEND_INPUTS : nat := 16.
Definition LOCKUP_SPEND_EXPIRY_MARGIN : Z := 5 * 60.

Definition expires_late (now : Z) (o : FundedOutput) : bool :=
  match expiresAt o with None => true | Some e => LOCKUP_SPEND_EXPIRY_MARGIN <? e - now end.

(** The positions of the most valuable outputs; of equal ones, the first. *)
Definition more_valuable (a b : nat * FundedOutput) : bool := value b.2 <=? value a.2.
Definition most_valuable (n : nat) (outputs : list FundedOutput) : list nat :=
  (take n (order_by more_valuable (imap (λ k o, (k, o)) outputs))).*1.

(** Picked by value, never reordered. *)
Definition boundedSpendInputs (funded : list FundedOutput) (now : Z) : list FundedOutput :=
  let usable := filter (λ o, expires_late now o = true) funded in
  if (length usable <=? MAX_LOCKUP_SPEND_INPUTS)%nat then usable
  else let kept := most_valuable MAX_LOCKUP_SPEND_INPUTS usable in
       (filter (λ p, p.1 ∈ kept) (imap (λ k o, (k, o)) usable)).*2.

Definition satsOutputs (outputs : list FundedOutput) : list FundedOutput :=
  filter (λ o, carries_assets o = false) outputs.

Definition claimOutputs (outputs : list FundedOutput) (amountSats : Z) : list FundedOutput :=
  let clean := satsOutputs outputs in
  if amountSats <=? totalValue clean then clean else outputs.

(** ** Collection *)

Record Outpoint := mkOutpoint { op_txid : string; op_vout : Z; spent : bool; unrolled : bool }.
Record AdoptedOutput := mkAdopted { ad_txid : string; ad_vout : Z; ad_value : Z }.

Definition outpointKey (txid : string) (vout : Z) : string := txid +:+ ":" +:+ pretty vout.
Definition key_of (o : Outpoint) : string := outpointKey (op_txid o) (op_vout o).
Definition adopted_key (o : AdoptedOutput) : string := outpointKey (ad_txid o) (ad_vout o).

Record CollectionEvidence := mkEvidence {
  outpoints : list Outpoint;
  claimedOffchain : gset string;
  claimedOnL1 : gset string;
  spentByUs : gset string;
}.

(** An adopted output that is not proven collected. *)
Definition still_out (evidence : CollectionEvidence) (output : AdoptedOutput) : bool :=
  let key := adopted_key output in
  if bool_decide (key ∈ claimedOffchain evidence) then false
  else match list_find (λ o, key_of o = key) (outpoints evidence) with
  | None => true
  | Some (_, seen) =>
      if unrolled seen then bool_decide (key ∉ claimedOnL1 evidence)
      else if spent seen then bool_decide (key ∉ spentByUs evidence) else true
  end.

Definition uncollected (adopted : list AdoptedOutput) (evidence : CollectionEvidence) : list AdoptedOutput :=
  filter (λ o, still_out evidence o = true) adopted.

(** The solver's own earlier funding of a lockup. *)
Record LockupOutpoint := mkLockupOutpoint { lo_txid : string; lo_vout : Z; lo_value : Z; lo_spent : bool }.

Definition adoptFunding {O} (lockup : O → LockupOutpoint) (all : list O) (payoutSats : Z) : option O :=
  let ours := filter (λ o, lo_value (lockup o) = payoutSats) all in
  match list_find (λ o, lo_spent (lockup o) = false) ours with
  | Some (_, o) => Some o
  | None => head ours
  end.

Definition providerKeyCurrent (quotedPubkey livePubkey : string) : bool :=
  bool_decide (quotedPubkey = livePubkey).

(** What the unfiltered view says of a lockup with nothing spendable. *)
Inductive LockupSpendEvidence := evidence_unknown | evidence_unspent | evidence_spent.
#[export] Instance LockupSpendEvidence_dec : EqDecision LockupSpendEvidence.
Proof. solve_decision. Defined.

Definition lockup_evidence_text (e : LockupSpendEvidence) : string :=
  match e with evidence_unknown => "unknown" | evidence_unspent => "unspent" | evidence_spent => "spent" end.

(** ** What a spend takes *)

Lemma totalValue_app a b : totalValue (a ++ b) = totalValue a + totalValue b.
Proof. unfold totalValue. induction a as [|x a IH]; cbn; [done|]. rewrite IH. lia. Qed.

(** Picking by position keeps the order, and no more than there are positions. *)
Lemma picked_sublist {A} (kept : list nat) (l : list A) :
  (filter (λ p, p.1 ∈ kept) (imap (λ k o, (k, o)) l)).*2 `sublist_of` l.
Proof.
  assert ((imap (λ k o, (k, o)) l).*2 = l) as Hl
    by (rewrite fmap_imap; cbn; etrans; [apply (imap_const id)|apply list_fmap_id]).
  rewrite <- Hl at 2. apply fmap_sublist, sublist_filter.
Qed.

Lemma picked_length {A} (kept : list nat) (l : list A) :
  (length (filter (λ p, p.1 ∈ kept) (imap (λ k o, (k, o)) l)) ≤ length kept)%nat.
Proof.
  rewrite <- (length_fmap fst). apply submseteq_length, NoDup_submseteq.
  - eapply sublist_NoDup; [|apply fmap_sublist, sublist_filter].
    rewrite fmap_imap. rewrite (imap_ext _ (λ j _, id j)), imap_seq_0, list_fmap_id by done. apply NoDup_seq.
  - intros n (p & -> & Hp)%list_elem_of_fmap. by apply list_elem_of_filter in Hp as [? _].
Qed.

Lemma boundedSpendInputs_sublist funded now : boundedSpendInputs funded now `sublist_of` funded.
Proof.
  unfold boundedSpendInputs. etransitivity; [|apply (sublist_filter (λ o, expires_late now o = true))].
  case_match; [done|]. apply picked_sublist.
Qed.

Lemma boundedSpendInputs_bound funded now :
  (length (boundedSpendInputs funded now) ≤ MAX_LOCKUP_SPEND_INPUTS)%nat ∧
  Forall (λ o, expires_late now o = true) (boundedSpendInputs funded now).
Proof.
  unfold boundedSpendInputs. set (usable := filter _ funded).
  assert (Forall (λ o, expires_late now o = true) usable) as Hu.
  { apply Forall_forall. intros o Ho. by apply list_elem_of_filter in Ho as [? _]. }
  case_match eqn:Hl; [apply Nat.leb_le in Hl; by split|]. split.
  - rewrite length_fmap. etransitivity; [apply picked_length|].
    unfold most_valuable. rewrite length_fmap, length_take. lia.
  - rewrite Forall_forall in Hu |- *. intros o Ho. apply Hu.
    eapply sublist_subseteq; [apply picked_sublist|exact Ho].
Qed.
