(* ===== verification/LockupFunding.v ===== *)
(** * Coins for a lockup, and who has them pinned

    [selectLockupFunding] of
    [packages/solver-arkade/src/arkade/lockupFunding.ts]: which of the solver's
    own coins fund a lockup — those whose batch lives longest, and only coins
    that outlive the swap when there are enough of them — and the ledger of
    [arkade/reservations.ts] that keeps two operations off one coin. *)
From Stdlib Require Import Sorting.Sorted.
From stdpp Require Import sorting.
From S2P Require Import Prelude SwapDb EvmRow Store Lockup.
#[local] Open Scope Z_scope.

(** ** Selection *)

(** [expiresAt.getTime()], milliseconds; [coin_assets]: [assets?.length]. *)
Record FundingCandidate := mkCoin {
  coin_txid : string;
  coin_vout : Z;
  coin_value : Z;
  coin_expiresAt : option Z;
  coin_assets : bool;
}.

Inductive LockupFundingRefusal := insufficient_unreserved_balance | minimum_change_unavailable.
Inductive LockupFundingSelection :=
  | Selected (inputs : list FundingCandidate) (clearedHorizon : bool)
  | NotFunded (reason : LockupFundingRefusal).

Record LockupFundingRequest := mkFundingRequest {
  candidates : list FundingCandidate;
  fund_amountSats : Z;
  horizonSeconds : Z;
  nowSeconds : Z;
  reserved_outpoints : gset string;
  dustSats : Z;
  vtxoMinSats : Z;
}.

Definition coin_key (c : FundingCandidate) : string := outpointKey (coin_txid c) (coin_vout c).

Definition usableSatsOf (c : FundingCandidate) (dust : Z) : Z :=
  if coin_assets c then coin_value c - dust else coin_value c.

Section selection.
Context (request : LockupFundingRequest).
#[local] Abbreviation dust := (dustSats request).
#[local] Abbreviation amount := (fund_amountSats request).

Definition usableSats (c : FundingCandidate) : Z := usableSatsOf c dust.

Definition unreserved : list FundingCandidate :=
  filter (λ c, 0 < usableSats c)
    (filter (λ c, coin_key c ∉ reserved_outpoints request) (candidates request)).

Definition deadlineMs : Z := (nowSeconds request + horizonSeconds request) * 1000.
Definition outlivesHorizon (c : FundingCandidate) : bool :=
  match coin_expiresAt c with Some at_ => deadlineMs <? at_ | None => false end.

(** Latest expiry first, then the most sats. *)
Definition fund_before (a b : FundingCandidate) : bool :=
  let byExpiry := default 0 (coin_expiresAt b) - default 0 (coin_expiresAt a) in
  if byExpiry =? 0 then usableSats b - usableSats a <=? 0 else byExpiry <? 0.
Definition ordered : list FundingCandidate := order_by fund_before unreserved.

(** What the spend may leave: nothing, or change the operator accepts and an
    asset can ride on. *)
Definition change_ok (change : Z) (hasAssets : bool) : bool :=
  (change =? 0) || (Z.max (vtxoMinSats request) (if hasAssets then dust else 0) <=? change).

(** The loop of [take], the coins taken so far last first. *)
Fixpoint take_from (inputs : list FundingCandidate) (usableTotal rawTotal : Z) (hasAssets : bool)
    (from : list FundingCandidate) : option (list FundingCandidate) :=
  match from with
  | [] => None
  | c :: rest =>
      let usableTotal := usableTotal + usableSats c in
      let rawTotal := rawTotal + coin_value c in
      let hasAssets := hasAssets || coin_assets c in
      if (amount <=? usableTotal) && change_ok (rawTotal - amount) hasAssets
      then Some (inputs ++ [c])
      else take_from (inputs ++ [c]) usableTotal rawTotal hasAssets rest
  end.
Definition take_coins (from : list FundingCandidate) : option (list FundingCandidate) :=
  take_from [] 0 0 false from.

Definition sum_of (f : FundingCandidate → Z) (l : list FundingCandidate) : Z := foldr (λ c, Z.add (f c)) 0 l.

Definition selectLockupFunding : LockupFundingSelection :=
  match take_coins (filter (λ c, outlivesHorizon c = true) ordered) with
  | Some inputs => Selected inputs true
  | None =>
      match take_coins ordered with
      | Some inputs => Selected inputs false
      | None =>
          if sum_of usableSats ordered <? amount then NotFunded insufficient_unreserved_balance
          else NotFunded minimum_change_unavailable
      end
  end.

(** ** What a selection is worth *)

Lemma sum_of_app f l1 l2 : sum_of f (l1 ++ l2) = sum_of f l1 + sum_of f l2.
Proof. unfold sum_of. induction l1 as [|c l1 IH]; cbn; [done|]. rewrite IH. lia. Qed.
Lemma sum_of_perm f l1 l2 : l1 ≡ₚ l2 → sum_of f l1 = sum_of f l2.
Proof. induction 1; cbn; unfold sum_of in *; cbn; lia. Qed.

(** Enough for the lockup, with change that stands. *)
Definition pays_for (inputs : list FundingCandidate) : Prop :=
  amount ≤ sum_of usableSats inputs ∧
  change_ok (sum_of coin_value inputs - amount) (existsb coin_assets inputs) = true.

(** [take] stops at the first prefix that will do. *)
Lemma take_from_spec from inputs usable raw assets :
  usable = sum_of usableSats inputs → raw = sum_of coin_value inputs → assets = existsb coin_assets inputs →
  match take_from inputs usable raw assets from with
  | Some out => ∃ c l rest, from = l ++ c :: rest ∧ out = inputs ++ l ++ [c] ∧ pays_for out
  | None => ∀ l c rest, from = l ++ c :: rest → ¬ pays_for (inputs ++ l ++ [c])
  end.
Proof.
  revert inputs usable raw assets. induction from as [|c from IH]; intros inputs usable raw assets Hu Hr Ha; cbn [take_from].
  { intros [|? ?]; discriminate. }
  assert (sum_of usableSats (inputs ++ [c]) = usable + usableSats c) as Hu'
    by (rewrite sum_of_app, Hu; unfold sum_of; cbn; lia).
  assert (sum_of coin_value (inputs ++ [c]) = raw + coin_value c) as Hr'
    by (rewrite sum_of_app, Hr; unfold sum_of; cbn; lia).
  assert (existsb coin_assets (inputs ++ [c]) = assets || coin_assets c) as Ha'
    by (rewrite existsb_app, Ha; cbn; by rewrite orb_false_r).
  destruct (_ && _) eqn:Ht.
  - exists c, [], from. split_and!; [done|done|]. unfold pays_for. rewrite Hu', Hr', Ha'.
    apply andb_true_iff in Ht as [?%Z.leb_le ?]. by split.
  - specialize (IH (inputs ++ [c]) _ _ _ (eq_sym Hu') (eq_sym Hr') (eq_sym Ha')).
    destruct (take_from _ _ _ _ from) as [o|].
    + destruct IH as (c' & l & rest & -> & -> & Hp). exists c', (c :: l), rest.
      rewrite <- !app_assoc in *. by split_and!.
    + intros [|c0 l] c' rest Heq; cbn in Heq; injection Heq as -> Hfrom.
      * cbn. unfold pays_for. rewrite Hu', Hr', Ha'. intros [?%Z.leb_le Hc]. by rewrite Hc, andb_true_r in Ht; congruence.
      * specialize (IH l c' rest Hfrom). by rewrite <- !app_assoc in IH.
Qed.

Lemma take_coins_Some from out :
  take_coins from = Some out → pays_for out ∧ out `prefix_of` from ∧ out ≠ [].
Proof.
  intros Ht. pose proof (take_from_spec from [] 0 0 false eq_refl eq_refl eq_refl) as Hs.
  unfold take_coins in Ht. rewrite Ht in Hs. destruct Hs as (c & l & rest & -> & -> & Hp). cbn in *.
  split_and!; [done| |by destruct l]. exists rest. by rewrite <- app_assoc.
Qed.

Lemma take_coins_None from l : take_coins from = None → l `prefix_of` from → l ≠ [] → ¬ pays_for l.
Proof.
  intros Ht [rest ->] Hl. pose proof (take_from_spec (l ++ rest) [] 0 0 false eq_refl eq_refl eq_refl) as Hs.
  unfold take_coins in Ht. rewrite Ht in Hs. destruct l as [|c l _] using rev_ind; [done|].
  by apply (Hs l c rest); rewrite <- app_assoc.
Qed.

Lemma unreserved_spec c :
  c ∈ unreserved ↔ c ∈ candidates request ∧ (coin_key c ∉ reserved_outpoints request) ∧ 0 < usableSats c.
Proof. unfold unreserved. rewrite !list_elem_of_filter. tauto. Qed.
Lemma ordered_perm : ordered ≡ₚ unreserved.
Proof. apply order_by_perm. Qed.

Lemma fund_before_total a b : fund_before a b = false → fund_before b a = true.
Proof.
  unfold fund_before. destruct (Z.eqb_spec (default 0 (coin_expiresAt b) - default 0 (coin_expiresAt a)) 0),
    (Z.eqb_spec (default 0 (coin_expiresAt a) - default 0 (coin_expiresAt b)) 0); try lia;
    rewrite ?Z.leb_gt, ?Z.leb_le, ?Z.ltb_ge, ?Z.ltb_lt; lia.
Qed.
Lemma fund_before_trans a b c : fund_before a b = true → fund_before b c = true → fund_before a c = true.
Proof.
  unfold fund_before. repeat case_match; rewrite ?Z.eqb_eq, ?Z.eqb_neq, ?Z.leb_le, ?Z.ltb_lt in *; lia.
Qed.
End selection.

Lemma filter_any {A} (l : list A) : filter (λ _, True) l = l.
Proof. induction l as [|x l IH]; [done|]. by rewrite filter_cons_True, IH. Qed.

(** A prefix of the coins in order lives at least as long as the rest. *)
Lemma ordered_prefix request (keep : FundingCandidate → Prop) `{∀ c, Decision (keep c)} inputs :
  inputs `prefix_of` filter keep (ordered request) →
  ∃ rest, inputs ++ rest ≡ₚ filter keep (unreserved request) ∧
    ∀ c c', c ∈ inputs → c' ∈ rest → default 0 (coin_expiresAt c') ≤ default 0 (coin_expiresAt c).
Proof.
  intros [rest Hrest]. exists rest. split.
  { rewrite <- Hrest. by rewrite ordered_perm. }
  intros c c' Hc Hc'. assert (StronglySorted (λ x y, fund_before request x y = true) (filter keep (ordered request))) as Hs.
  { apply StronglySorted_filter. apply order_by_sorted; [apply fund_before_total|apply fund_before_trans]. }
  rewrite Hrest in Hs. pose proof (sorting.StronglySorted_app_1_elem_of _ _ _ _ _ Hs Hc Hc') as Hb.
  unfold fund_before in Hb. case_match; rewrite ?Z.eqb_eq, ?Z.ltb_lt in *; lia.
Qed.

(** What a lockup is funded with: coins of the wallet that nobody has pinned
    and that carry sats of their own, each once, worth the lockup and leaving
    either nothing or change the operator accepts and an asset can ride on; no
    coin passed over outlives one that was taken, and a coin that does not
    outlive the swap is only taken when no run of those that do will do. It is
    refused for want of balance exactly when the unpinned coins are not worth
    the lockup. *)
Theorem lockup_funding_is_sound request :
  match selectLockupFunding request with
  | Selected inputs cleared =>
      inputs ≠ [] ∧
      (∀ c, c ∈ inputs → (coin_key c ∉ reserved_outpoints request) ∧ 0 < usableSats request c) ∧
      fund_amountSats request ≤ sum_of (usableSats request) inputs ∧
      (let change := sum_of coin_value inputs - fund_amountSats request in
       change = 0 ∨ vtxoMinSats request ≤ change ∧
         (existsb coin_assets inputs = true → dustSats request ≤ change)) ∧
      (∃ rest, inputs ++ rest ⊆+ candidates request ∧
         (∀ c c', c ∈ inputs → c' ∈ rest → default 0 (coin_expiresAt c') ≤ default 0 (coin_expiresAt c)) ∧
         if cleared then ∀ c, c ∈ inputs → outlivesHorizon request c = true
         else ∀ l, l `prefix_of` filter (λ c, outlivesHorizon request c = true) (ordered request) →
                l ≠ [] → ¬ pays_for request l)
  | NotFunded reason =>
      reason = insufficient_unreserved_balance ↔
      sum_of (usableSats request) (unreserved request) < fund_amountSats request
  end.
Proof.
  unfold selectLockupFunding.
  assert (∀ inputs, pays_for request inputs →
    fund_amountSats request ≤ sum_of (usableSats request) inputs ∧
    (let change := sum_of coin_value inputs - fund_amountSats request in
     change = 0 ∨ vtxoMinSats request ≤ change ∧
       (existsb coin_assets inputs = true → dustSats request ≤ change))) as Hpays.
  { intros inputs [Hu Hc]. split; [done|]. apply orb_true_iff in Hc as [Hc%Z.eqb_eq|Hc%Z.leb_le]; [by left|right].
    split; [lia|]. intros Ha. rewrite Ha in Hc. lia. }
  assert (∀ inputs rest keep `{∀ c, Decision (keep c)}, inputs ++ rest ≡ₚ filter keep (unreserved request) →
    (∀ c, c ∈ inputs → ((coin_key c ∉ reserved_outpoints request) ∧ 0 < usableSats request c) ∧ keep c) ∧
    inputs ++ rest ⊆+ candidates request) as Hin.
  { intros inputs rest keep Hdec Hp. split.
    - intros c Hc. assert (c ∈ filter keep (unreserved request)) as [? (_ & ? & ?)%unreserved_spec]%list_elem_of_filter
        by (rewrite <- Hp; apply elem_of_app; by left). done.
    - rewrite Hp. apply sublist_submseteq. etransitivity; [apply sublist_filter|]. unfold unreserved.
      etransitivity; apply sublist_filter. }
  destruct (take_coins request (filter _ _)) as [inputs|] eqn:Hpref.
  { apply take_coins_Some in Hpref as (Hp & Hpre & Hne). apply ordered_prefix in Hpre as (rest & Hperm & Hlive).
    destruct (Hin _ _ _ _ Hperm) as [Hc Hsub]. destruct (Hpays _ Hp).
    split_and!; [done|intros c ?; by apply Hc|done|done|]. exists rest. split_and!; [done|done|]. intros c ?. by apply Hc. }
  destruct (take_coins request (ordered request)) as [inputs|] eqn:Hall.
  { apply take_coins_Some in Hall as (Hp & Hpre & Hne).
    assert (inputs `prefix_of` filter (λ _, True) (ordered request)) as Hpre'.
    { by rewrite filter_any. }
    apply ordered_prefix in Hpre' as (rest & Hperm & Hlive).
    destruct (Hin _ _ _ _ Hperm) as [Hc Hsub]. destruct (Hpays _ Hp).
    split_and!; [done|intros c ?; by apply Hc|done|done|]. exists rest. split_and!; [done|done|].
    intros l. by apply take_coins_None. }
  rewrite (sum_of_perm _ _ _ (ordered_perm request)).
  destruct (Z.ltb_spec (sum_of (usableSats request) (unreserved request)) (fund_amountSats request));
    split; try done; lia.
Qed.

(** ** Reservations *)

(** The process's pins: how many operations hold each coin. *)
Abbreviation ReservationLedger := (gmap string nat).

(** What [reserve] returns: a pin and whether it was given back. *)
Record Reservation := mkReservation { pinned_keys : list string; released : bool }.

Definition pin (counts : ReservationLedger) (key : string) : ReservationLedger :=
  <[key := S (default 0%nat (counts !! key))]> counts.
Definition unpin (counts : ReservationLedger) (key : string) : ReservationLedger :=
  match pred (default 1%nat (counts !! key)) with
  | O => delete key counts
  | n => <[key := n]> counts
  end.

Definition reserve (keys : list string) (counts : ReservationLedger) : Reservation * ReservationLedger :=
  (mkReservation keys false, foldl pin counts keys).
Definition release (r : Reservation) (counts : ReservationLedger) : Reservation * ReservationLedger :=
  if released r then (r, counts) else (mkReservation (pinned_keys r) true, foldl unpin counts (pinned_keys r)).
Definition reserved (counts : ReservationLedger) : gset string := dom counts.

(** Any use of the ledger: pins made, and any of them released, any number of
    times. *)
Inductive ledger_op := Reserve (keys : list string) | Release (n : nat).
Definition ledger_step (s : list Reservation * ReservationLedger) (o : ledger_op) : list Reservation * ReservationLedger :=
  let '(held, counts) := s in
  match o with
  | Reserve keys => let '(r, counts) := reserve keys counts in (held ++ [r], counts)
  | Release n =>
      match held !! n with
      | Some r => let '(r, counts) := release r counts in (<[n := r]> held, counts)
      | None => (held, counts)
      end
  end.

(** How often a reservation holds a coin. *)
Definition holds (key : string) (r : Reservation) : nat :=
  if released r then 0 else length (filter (λ k, k = key) (pinned_keys r)).
Definition times_held (key : string) (held : list Reservation) : nat := sum_list_with (holds key) held.

(** The ledger counts what is held, and has no entry for what is not. *)
Definition counted (held : list Reservation) (counts : ReservationLedger) : Prop :=
  ∀ key, counts !! key = match times_held key held with O => None | n => Some n end.

Lemma foldl_pin keys counts key :
  foldl pin counts keys !! key =
    match length (filter (λ k, k = key) keys) with
    | O => counts !! key
    | n => Some (default 0 (counts !! key) + n)%nat
    end.
Proof.
  revert counts. induction keys as [|k keys IH]; intros counts; cbn [foldl]; [done|]. rewrite IH. unfold pin.
  rewrite filter_cons. destruct (decide (k = key)) as [->|Hk]; cbn [length].
  - rewrite lookup_insert_eq. cbn [default]. destruct (length _); f_equal; cbn; lia.
  - by rewrite lookup_insert_ne.
Qed.

Lemma foldl_unpin keys counts key n :
  counts !! key = match n with O => None | _ => Some n end →
  (length (filter (λ k, k = key) keys) ≤ n)%nat →
  foldl unpin counts keys !! key =
    match (n - length (filter (λ k, k = key) keys))%nat with O => None | m => Some m end.
Proof.
  revert counts n. induction keys as [|k keys IH]; intros counts n Hc Hn; cbn [foldl].
  - rewrite filter_nil. cbn [length]. rewrite Nat.sub_0_r, Hc. by destruct n.
  - rewrite filter_cons in *. destruct (decide (k = key)) as [->|Hk]; cbn [length] in *.
    + destruct n as [|n]; [lia|]. rewrite (IH _ n); [done| |lia].
      unfold unpin. rewrite Hc. cbn [default pred]. destruct n; [apply lookup_delete_eq|apply lookup_insert_eq].
    + apply IH; [|done]. unfold unpin.
      destruct (pred _); [by rewrite lookup_delete_ne|by rewrite lookup_insert_ne].
Qed.

Lemma times_held_insert key held n r r' :
  held !! n = Some r → (times_held key (<[n := r']> held) + holds key r = times_held key held + holds key r')%nat.
Proof.
  unfold times_held. revert n. induction held as [|x held IH]; intros [|n] Hr; cbn in *; simplify_eq; [lia|].
  rewrite <- !Nat.add_assoc. f_equal. exact (IH _ Hr).
Qed.

Lemma times_held_new key held keys :
  times_held key (held ++ [mkReservation keys false]) = (length (filter (λ k, k = key) keys) + times_held key held)%nat.
Proof. unfold times_held. rewrite sum_list_with_app. unfold holds. cbn. lia. Qed.

Lemma ledger_step_counted held counts o :
  counted held counts → let '(held', counts') := ledger_step (held, counts) o in counted held' counts'.
Proof.
  intros Hc. destruct o as [keys|n]; cbn.
  - intros key. rewrite foldl_pin, times_held_new, Hc.
    destruct (length _) as [|m], (times_held key held) as [|k]; cbn; try done; f_equal; lia.
  - destruct (held !! n) as [r|] eqn:Hr; [|done]. unfold release. destruct (released r) eqn:Hrel.
    + intros key. by rewrite list_insert_id.
    + intros key. pose proof (times_held_insert key held n r (mkReservation (pinned_keys r) true) Hr) as Ht.
      unfold holds in Ht. rewrite Hrel in Ht. cbn in Ht. rewrite (foldl_unpin _ _ _ (times_held key held)); [|rewrite Hc; by destruct (times_held key held)|lia].
      by replace (times_held key held - _)%nat with (times_held key (<[n:=mkReservation (pinned_keys r) true]> held)) by lia.
Qed.

(** A coin is pinned exactly while some operation holds it: whatever
    reservations are made and released, in whatever order, overlapping on the
    same coins or released twice, [reserved] is the set of the coins of the
    reservations not yet released. *)
Theorem reservations_are_exact ops :
  let '(held, counts) := foldl ledger_step ([], ∅) ops in
  ∀ key, key ∈ reserved counts ↔ ∃ r, r ∈ held ∧ released r = false ∧ key ∈ pinned_keys r.
Proof.
  assert (∀ s, counted s.1 s.2 → counted (foldl ledger_step s ops).1 (foldl ledger_step s ops).2) as Hall.
  { induction ops as [|o ops IH]; intros [held counts] Hs; [done|]. cbn [foldl]. apply IH.
    pose proof (ledger_step_counted held counts o Hs). by destruct (ledger_step _ _). }
  specialize (Hall ([], ∅)). destruct (foldl _ _ ops) as [held counts]. cbn in Hall.
  assert (counted held counts) as Hc by (apply Hall; intros key; apply lookup_empty). clear Hall.
  intros key. unfold reserved. rewrite elem_of_dom, Hc.
  assert (∀ l, (0 < length (filter (λ k, k = key) l))%nat ↔ key ∈ l) as Hlen.
  { intros l. induction l as [|k l IH]; [split; [cbn; lia|by intros ?%not_elem_of_nil]|].
    rewrite filter_cons, elem_of_cons. case_decide as Hk; cbn; [naive_solver lia|]. rewrite IH. naive_solver. }
  assert ((0 < times_held key held)%nat ↔ ∃ r, r ∈ held ∧ released r = false ∧ key ∈ pinned_keys r) as <-.
  { clear Hc. unfold times_held. induction held as [|r held IH].
    - split; [cbn; lia|]. by intros (? & ?%not_elem_of_nil & _).
    - cbn. setoid_rewrite elem_of_cons. unfold holds at 1. pose proof (Hlen (pinned_keys r)).
      destruct (released r) eqn:Hrel; split.
      + intros Hp. apply IH in Hp as (r' & ? & ? & ?); [|done..]. by exists r'; auto.
      + intros (r' & [->|?] & ? & ?); [congruence|]. apply IH. eauto.
      + intros Hp. destruct (decide (0 < length (filter (λ k, k = key) (pinned_keys r)))%nat).
        * exists r. naive_solver.
        * destruct (proj1 IH) as (r' & ? & ? & ?); [lia|]. exists r'. auto.
      + intros (r' & [->|?] & ? & ?); [naive_solver lia|].
        assert (0 < sum_list_with (holds key) held)%nat by (apply IH; eauto). lia. }
  destruct (times_held key held); split; try lia; [by intros [? ?]|intros; by eexists].
Qed.
