(* ===== verification/BaseStore.v ===== *)
(** * The store of the Bitcoin swap tables

    [BaseSwapStore] of [packages/solver-corridors/src/db/baseSwapStore.ts], the
    part the four Bitcoin corridors share. Unlike the EVM store, a move off the
    lifecycle is a caller's bug and throws, while a lost race is ordinary and
    answers [false]. *)
From S2P Require Import Prelude StateMachine Prog SwapDb Store.

(** What the tables of [StoreShape] differ in beyond [SwapShape]. *)
Class BaseShape (S : Type) `{SwapShape S} := {
  lifecycleLabel : string;
  legalEdges : S → list S;
  patchColumns : list string;
  exposed : list S;
}.

(** A nullable INTEGER column. *)
Definition int_col {S Q} (r : Row S Q) (column : string) : option Z :=
  match cols r !! column with Some (VInt z) => Some z | _ => None end.

(** A nullable REAL column. *)
Definition num_col {S Q} (r : Row S Q) (column : string) : option num :=
  match cols r !! column with Some (VInt z) => Some (of_Z z) | Some (VReal n) => Some n | _ => None end.

(** What JavaScript takes for absent in [if (row.column)]. *)
Definition truthy (s : option string) : option string :=
  match s with Some EmptyString => None | _ => s end.

Section base_store.
Context {S Q : Type} `{EqDecision S, QuoteColumns Q, BaseShape S}.
Context {E : Type → Type} `{SqlEvents E S Q}.
#[local] Open Scope io_scope.
#[local] Abbreviation Row := (Row S Q).
#[local] Abbreviation Db := (Db S Q).

(** *** Queries *)

Definition select_findByRfqId (rfq : string) (d : Db) : option Row :=
  head (order_by newest_first (filter (λ r, rfq_id (quote r) = Some rfq) (rows d))).
Definition select_findByPkScript (script : string) (d : Db) : option Row :=
  head (order_by newest_first (filter (λ r, pk_script (quote r) = script) (rows d))).
Definition select_findByPaymentHash (hash : string) (d : Db) : option Row :=
  head (order_by newest_first (filter (λ r, payment_hash (quote r) = hash) (rows d))).
Definition select_committedSats (d : Db) : Z :=
  foldr (λ r, Z.add (amount_sats (quote r))) 0 (filter (λ r, state r ∈ nonTerminal) (rows d)).
Definition select_countByStates (states : list S) (d : Db) : nat :=
  length (filter (λ r, state r ∈ states) (rows d)).
Definition select_history (i : string) (d : Db) : list (Event S) :=
  filter (λ e, ev_swap e = i) (events d).

Definition findByRfqId (rfq : string) : io E Error (option Row) :=
  attempt (sql_all (select_findByRfqId rfq)).
Definition findByPkScript (script : string) : io E Error (option Row) :=
  attempt (sql_all (select_findByPkScript script)).
Definition findByPaymentHash (hash : string) : io E Error (option Row) :=
  attempt (sql_all (select_findByPaymentHash hash)).
Definition committedSats : io E Error Z := attempt (sql_all select_committedSats).
Definition countByStates (states : list S) : io E Error nat :=
  match states with [] => ret 0%nat | _ => attempt (sql_all (select_countByStates states)) end.
Definition findRecoverable : io E Error (list Row) := findLive.
Definition history (i : string) : io E Error (list (Event S)) :=
  attempt (sql_all (select_history i)).

(** *** Updates *)

Definition assertColumns (columns allowed : list string) (method : string) : result Error unit :=
  match list_find (λ c, c ∉ allowed) columns with
  | Some (_, c) => Err (UnknownColumn method c)
  | None => Ok tt
  end.

Definition recordEvent (i : string) (from : option S) (to : S) (detail : option string) : io E Error unit :=
  at_ <- call clock ;;
  attempt (sql_run (InsertEvent (mkEvent i at_ from to detail))) ;;;
  ret tt.

(** [guard]: a column that has to be NULL, or no such condition. *)
Definition transitionWhere (i : string) (from to : S) (f : fields) (guard : option string) : io E Error bool :=
  if bool_decide (to ∉ legalEdges from)
  then throw (IllegalTransition lifecycleLabel (state_name from) (state_name to))
  else match assertColumns f.*1 transitionColumns "transition()" with
  | Err e => throw e
  | Ok _ =>
      at_ <- call clock ;;
      changes <- attempt (sql_run (match guard with
                                   | None => UpdateState i from to f at_
                                   | Some column => UpdateStateIfNull i from to f at_ column
                                   end)) ;;
      if (changes =? 1)%nat then recordEvent i (Some from) to None ;;; ret true else ret false
  end.
Definition transition (i : string) (from to : S) (f : fields) : io E Error bool :=
  transitionWhere i from to f None.

(** [patch] as the base class has it. *)
Definition base_patch (i : string) (f : fields) : io E Error unit :=
  match f with
  | [] => ret tt
  | _ =>
      match assertColumns f.*1 patchColumns "patch()" with
      | Err e => throw e
      | Ok _ =>
          at_ <- call clock ;;
          attempt (sql_run (UpdateColumns i f at_)) ;;;
          ret tt
      end
  end.

(** Where [fail] sends a row: a human looks at it once money is exposed. *)
Definition failed_state (from : S) : S :=
  if bool_decide (from ∈ exposed) then state_stuck else state_refused.

Definition fail (i : string) (from : S) (reason : string) : io E Error unit :=
  transition i from (failed_state from) [("failure_reason", Some (VText reason))] ;;;
  ret tt.

(** *** The funding lease *)

(** Won by one caller before it spends; without [staleBefore] it never lapses. *)
Definition claimFundLease (i : string) (from : S) (staleBefore : option Z) : io E Error bool :=
  leased_at <- call clock ;;
  at_ <- call clock ;;
  changes <- attempt (sql_run (ClaimLease i from "fund_started_at" leased_at at_ (default (-1) staleBefore))) ;;
  ret (changes =? 1)%nat.

Definition releaseFundLease (i : string) : io E Error unit :=
  attempt (sql_run (ClearColumn i "fund_started_at")) ;;;
  ret tt.
End base_store.
