(* ===== verification/LnSendStore.v ===== *)
(** * The store of the Lightning send table

    [SwapStore] of [packages/solver-corridors/src/db/swaps.ts]: the columns of a
    quote, the guarded insert, the queries of the refund sweep and the notes it
    keeps in the event log. *)
From S2P Require Import Prelude StateMachine Prog SwapDb Store BaseStore.

(** [QuoteRecord] as the row reads back: columns of older rows are absent. *)
Record SendQuote := mkSendQuote {
  invoice : string;
  paymentHash : string;
  amountSats : Z;
  invoiceExpiresAt : Z;
  quotedRefundDeadline : option Z;
  refundLocktime : Z;
  senderPubkey : string;
  receiverPubkey : string;
  serverPubkey : string;
  claimDelay : Z;
  refundDelay : Z;
  refundWithoutReceiverDelay : Z;
  pkScript : string;
  lockupAddress : string;
  refundPkScript : option string;
  emulatorPubkey : option string;
  clientRefundPubkey : option string;
  receiverPkScript : option string;
  nonInteractiveParameters : option bool;
  quotedRoutingFeeSats : option Z;
  rfqId : option string;
}.

#[export] Instance SendQuote_columns : QuoteColumns SendQuote := {
  payment_hash := paymentHash;
  rfq_id := rfqId;
  pk_script := pkScript;
  amount_sats := amountSats;
}.

Definition state_text (s : LnSend.state) : string :=
  match s with
  | LnSend.quoted => "quoted" | LnSend.funded => "funded" | LnSend.paying => "paying"
  | LnSend.paid => "paid" | LnSend.claiming => "claiming" | LnSend.claimed => "claimed"
  | LnSend.refused => "refused" | LnSend.stuck => "stuck"
  end.

#[export] Instance LnSendShape : SwapShape LnSend.state := {
  noun := "swap";
  state_name := state_text;
  state_quoted := LnSend.quoted;
  state_refused := LnSend.refused;
  state_stuck := LnSend.stuck;
  nonTerminal := live_states LnSendMachine;
  transitionColumns := ["lockup_txid"; "lockup_vout"; "lockup_value"; "idempotency_key";
    "pay_attempted_at"; "payment_backend"; "payment_wallet"; "payment_id"; "preimage";
    "claim_ark_txid"; "failure_reason"; "lockup_outpoints"];
}.

#[export] Instance LnSendBase : BaseShape LnSend.state := {
  lifecycleLabel := "swap lifecycle";
  legalEdges := edges LnSendMachine;
  patchColumns := ["lockup_value"; "payment_id"; "pay_attempted_at"; "refund_ark_txid";
    "refund_outcome"; "payment_evidence"; "payment_failure_reason"; "refund_attempt";
    "payment_backend"; "payment_wallet"; "routing_fee_paid_sats"; "unrolled_claim";
    "claim_ark_txid"];
  exposed := exposed_states LnSendMachine;
}.

Abbreviation SendRow := (Row LnSend.state SendQuote).
Abbreviation SendDb := (Db LnSend.state SendQuote).

(** [toLocaleString('en-US')] of an integer: commas between groups of three. *)
Fixpoint group_digits (n : nat) (reversed : list Ascii.ascii) : string :=
  match reversed with
  | [] => EmptyString
  | c :: rest =>
      (if (n mod 3 =? 0)%nat && negb (n =? 0)%nat then group_digits (S n) rest +:+ String c ","
       else group_digits (S n) rest +:+ String c EmptyString)
  end.
Definition toLocaleString (z : Z) : string :=
  (if z <? 0 then "-" else "") +:+ group_digits 0 (rev (String.list_ascii_of_string (pretty (Z.abs z)))).

(** An output of the lockup, as [noteFundings] reads it. *)
Record Funding := mkFunding { funding_txid : string; funding_vout : Z; funding_value : Z }.

Definition fundingDetail (o : Funding) : string :=
  "funding " +:+ funding_txid o +:+ ":" +:+ pretty (funding_vout o) +:+ " — " +:+
  toLocaleString (funding_value o) +:+ " sats".

Section send_store.
Context {E : Type → Type} `{SqlEvents E LnSend.state SendQuote}.
#[local] Open Scope io_scope.
#[local] Abbreviation row := SendRow.
#[local] Abbreviation io := (io E Error).

(** Not refused, or refused with a lockup whose refund is not proven. *)
Definition blocks (hash : string) (r : row) : bool :=
  bool_decide (paymentHash (quote r) = hash) &&
  (bool_decide (state r ≠ LnSend.refused) ||
   (0 <? default 0 (int_col r "lockup_value")) && bool_decide (cols r !! "refund_outcome" = None)).

Definition insertQuote (i : string) (q : SendQuote) : io row :=
  at_ <- call clock ;;
  changes <- attempt (sql_run (InsertUnless (blocks (paymentHash q))
               (mkRow i LnSend.quoted at_ at_ q ∅))) ;;
  if negb (changes =? 1)%nat then throw UniqueConstraintError
  else recordEvent i None LnSend.quoted None ;;; get i.

Definition select_findByLockupTxid (txid : string) (d : SendDb) : option row :=
  head (order_by newest_first (filter (λ r, text_col r "lockup_txid" = Some txid) (rows d))).
Definition findByLockupTxid (txid : string) : io (option row) :=
  attempt (sql_all (select_findByLockupTxid txid)).

Definition select_findLiveByPaymentHash (hash : string) (d : SendDb) : option row :=
  head (filter (λ r, blocks hash r = true) (rows d)).
Definition findLiveByPaymentHash (hash : string) : io (option row) :=
  attempt (sql_all (select_findLiveByPaymentHash hash)).

Definition select_findRefundable (now : Z) (d : SendDb) : list row :=
  order_by oldest_first
    (filter (λ r, state r = LnSend.refused ∧ cols r !! "refund_outcome" = None ∧
                  is_Some (refundPkScript (quote r)) ∧
                  (is_Some (clientRefundPubkey (quote r)) ∨ refundLocktime (quote r) ≤ now)) (rows d)).
Definition findRefundable (now : Z) : io (list row) :=
  attempt (sql_all (select_findRefundable now)).

(** The latest row; of two created in one second, the one inserted later. *)
Definition select_findMostRecent (d : SendDb) : option row :=
  head (order_by newest_first (rev (rows d))).
Definition findMostRecent : io (option row) := attempt (sql_all select_findMostRecent).

(** The notes [detail LIKE 'funding %'] selects. *)
Definition select_fundings (i : string) (d : SendDb) : list string :=
  omap (λ e, if bool_decide (ev_swap e = i) then
               match ev_detail e with
               | Some s => if String.prefix "funding " s then Some s else None
               | None => None
               end
             else None) (events d).

Fixpoint noteEach (i : string) (s : LnSend.state) (outputs : list Funding) (already : gset string) : io unit :=
  match outputs with
  | [] => ret tt
  | o :: rest =>
      let detail := fundingDetail o in
      if bool_decide (detail ∈ already) then noteEach i s rest already
      else recordEvent i (Some s) s (Some detail) ;;;
           noteEach i s rest ({[ detail ]} ∪ already)
  end.

Definition noteFundings (i : string) (outputs : list Funding) : io unit :=
  match outputs with
  | [] => ret tt
  | _ =>
      found <- attempt (sql_all (λ d : SendDb, option_map state (find_row d i))) ;;
      match found with
      | None => ret tt
      | Some s =>
          seen <- attempt (sql_all (select_fundings i)) ;;
          noteEach i s outputs (list_to_set seen)
      end
  end.

(** The assignment of a column, as the object literal has it. *)
Fixpoint field (f : fields) (column : string) : option (option sqlval) :=
  match f with
  | [] => None
  | (c, v) :: rest => if decide (c = column) then Some v else field rest column
  end.
Definition sql_text (v : sqlval) : string := default EmptyString (value_text v).

(** The note a recorded refund leaves. *)
Definition refundNote (f : fields) : option string :=
  match field f "refund_outcome" with
  | Some (Some outcome) =>
      Some ("refund " +:+ sql_text outcome +:+
            match field f "refund_ark_txid" with Some (Some (VText txid)) => " " +:+ txid | _ => "" end)
  | _ => None
  end.

(** The override: a refund outcome also goes into the event log. *)
Definition patch (i : string) (f : fields) : io unit :=
  before <- match field f "refund_outcome" with
            | Some _ => attempt (sql_all (λ d : SendDb, find_row d i))
            | None => ret None
            end ;;
  base_patch i f ;;;
  match refundNote f, before with
  | Some detail, Some r => recordEvent i (Some (state r)) (state r) (Some detail)
  | _, _ => ret tt
  end.
End send_store.

Example locale_1234567 : toLocaleString 1234567 = "1,234,567" ∧ toLocaleString 999 = "999" ∧ toLocaleString (-1000) = "-1,000".
Proof. vm_compute. done. Qed.
