(* ===== verification/LnReceiveStore.v ===== *)
(** * The store of the Lightning receive table

    [ReceiveSwapStore] of [packages/solver-corridors/src/db/receiveSwaps.ts]:
    the columns of a quote, the plain insert behind the unique index, the
    funding lease and the note of a payment's headroom. *)
From S2P Require Import Prelude StateMachine Prog SwapDb Store BaseStore.

(** [ReceiveQuoteRecord] as the row reads back. *)
Record ReceiveQuote := mkReceiveQuote {
  paymentHash : string;
  amountSats : Z;
  payoutSats : Z;
  invoice : string;
  invoiceWalletFingerprint : option string;
  invoiceBackendName : option string;
  invoiceExpiresAt : Z;
  payoutAddress : string;
  payoutPkScript : string;
  payoutPubkey : string;
  claimPacket : option string;
  refundLocktime : Z;
  solverPubkey : string;
  serverPubkey : string;
  claimDelay : Z;
  refundDelay : Z;
  refundWithoutReceiverDelay : Z;
  emulatorPubkey : string;
  pkScript : string;
  lockupAddress : string;
  solverRefundPkScript : string;
  nonInteractiveParameters : option bool;
  rfqId : option string;
}.

#[export] Instance ReceiveQuote_columns : QuoteColumns ReceiveQuote := {
  payment_hash := paymentHash;
  rfq_id := rfqId;
  pk_script := pkScript;
  amount_sats := amountSats;
}.

Definition state_text (s : LnReceive.state) : string :=
  match s with
  | LnReceive.quoted => "quoted" | LnReceive.armed => "armed" | LnReceive.funded => "funded"
  | LnReceive.claimed => "claimed" | LnReceive.refunding => "refunding" | LnReceive.settled => "settled"
  | LnReceive.refunded => "refunded" | LnReceive.refused => "refused" | LnReceive.stuck => "stuck"
  end.

#[export] Instance LnReceiveShape : SwapShape LnReceive.state := {
  noun := "receive swap";
  state_name := state_text;
  state_quoted := LnReceive.quoted;
  state_refused := LnReceive.refused;
  state_stuck := LnReceive.stuck;
  nonTerminal := live_states LnReceiveMachine;
  transitionColumns := ["htlc_expires_at"; "arkade_lockup_txid"; "arkade_lockup_vout"; "arkade_lockup_value";
    "preimage"; "refund_ark_txid"; "failure_reason"; "fund_started_at"];
}.

#[export] Instance LnReceiveBase : BaseShape LnReceive.state := {
  lifecycleLabel := "receive swap lifecycle";
  legalEdges := edges LnReceiveMachine;
  patchColumns := ["revealed_at"; "stamped_at"; "settle_attempted_at"; "arkade_lockup_value";
    "refund_ark_txid"; "unrolled_refund"];
  exposed := exposed_states LnReceiveMachine;
}.

Abbreviation ReceiveRow := (Row LnReceive.state ReceiveQuote).
Abbreviation ReceiveDb := (Db LnReceive.state ReceiveQuote).

(** What the columns read back as: an absent packet is stored as [''], and only
    [true] of the suite is stored. *)
Definition stored (q : ReceiveQuote) : ReceiveQuote :=
  mkReceiveQuote (paymentHash q) (amountSats q) (payoutSats q) (invoice q)
    (invoiceWalletFingerprint q) (invoiceBackendName q) (invoiceExpiresAt q) (payoutAddress q)
    (payoutPkScript q) (payoutPubkey q) (truthy (claimPacket q)) (refundLocktime q) (solverPubkey q)
    (serverPubkey q) (claimDelay q) (refundDelay q) (refundWithoutReceiverDelay q) (emulatorPubkey q)
    (pkScript q) (lockupAddress q) (solverRefundPkScript q)
    (match nonInteractiveParameters q with Some true => Some true | _ => None end) (rfqId q).

Section receive_store.
Context {E : Type → Type} `{SqlEvents E LnReceive.state ReceiveQuote}.
#[local] Open Scope io_scope.
#[local] Abbreviation row := ReceiveRow.
#[local] Abbreviation io := (io E Error).

Definition insertQuote (i : string) (q : ReceiveQuote) : io row :=
  at_ <- call clock ;;
  attempt (sql_run (InsertRow (mkRow i LnReceive.quoted at_ at_ (stored q) ∅))) ;;;
  recordEvent i None LnReceive.quoted None ;;;
  get i.

(** The swap that blocks a new quote for this hash: [state != 'refused']. *)
Definition select_findLiveByPaymentHash (hash : string) (d : ReceiveDb) : option row :=
  head (filter (λ r, paymentHash (quote r) = hash ∧ state r ≠ LnReceive.refused) (rows d)).
Definition findLiveByPaymentHash (hash : string) : io (option row) :=
  attempt (sql_all (select_findLiveByPaymentHash hash)).

(** A lease without a lapse: a second payment is what it is for. *)
Definition claimLease (i : string) (from : LnReceive.state) : io bool := claimFundLease i from None.
Definition releaseLease (i : string) : io unit := releaseFundLease i.

(** A note: nothing moved. *)
Definition noteCltvHeadroom (i : string) (headroomSeconds spareSeconds : Z) : io unit :=
  recordEvent i (Some LnReceive.armed) LnReceive.armed
    (Some ("cltv headroom " +:+ pretty headroomSeconds +:+ "s — " +:+ pretty spareSeconds +:+ "s spare")).
End receive_store.
