(* ===== verification/OnchainSendStore.v ===== *)
(** * The store of the onchain send table

    [OnchainSendSwapStore] of [packages/solver-corridors/src/db/onchainSwaps.ts]:
    the columns of a quote, the funding lease and the recorded funding, and the
    queries of the refund sweep. *)
From Stdlib Require Import Strings.Ascii.
From S2P Require Import Prelude JsString StateMachine Prog SwapDb Store BaseStore.

(** [OnchainQuoteRecord] as the row reads back: columns of older rows are absent. *)
Record OnchainQuote := mkOnchainQuote {
  paymentHash : string;
  amountSats : Z;
  payout_sats : option Z;
  refundLocktime : Z;
  providerPubkey : string;
  serverPubkey : string;
  claimDelay : Z;
  refundDelay : Z;
  refundWithoutReceiverDelay : Z;
  pkScript : string;
  lockupAddress : string;
  refundPkScript : string;
  emulatorPubkey : string;
  clientRefundPubkey : option string;
  receiverPkScript : string;
  nonInteractiveParameters : option bool;
  payoutPubkey : string;
  htlcPubkey : string;
  htlcLocktime : Z;
  minConfirmations : Z;
  onchainAddress : string;
  onchainPkScript : string;
  rfqId : option string;
}.

(** [toRow]: a row quoted before fees existed pays out what was locked. *)
Definition payoutSats (q : OnchainQuote) : Z := default (amountSats q) (payout_sats q).

#[export] Instance OnchainQuote_columns : QuoteColumns OnchainQuote := {
  payment_hash := paymentHash;
  rfq_id := rfqId;
  pk_script := pkScript;
  amount_sats := amountSats;
}.

Definition state_text (s : OnchainSend.state) : string :=
  match s with
  | OnchainSend.quoted => "quoted" | OnchainSend.funded => "funded"
  | OnchainSend.funding_onchain => "funding_onchain" | OnchainSend.awaiting_claim => "awaiting_claim"
  | OnchainSend.claiming => "claiming" | OnchainSend.refunding_onchain => "refunding_onchain"
  | OnchainSend.claimed => "claimed" | OnchainSend.refunded => "refunded"
  | OnchainSend.refused => "refused" | OnchainSend.stuck => "stuck"
  end.

#[export] Instance OnchainShape : SwapShape OnchainSend.state := {
  noun := "onchain send swap";
  state_name := state_text;
  state_quoted := OnchainSend.quoted;
  state_refused := OnchainSend.refused;
  state_stuck := OnchainSend.stuck;
  nonTerminal := live_states OnchainSendMachine;
  transitionColumns := ["onchain_lockup_txid"; "onchain_lockup_vout"; "onchain_lockup_value"; "funding_txid";
    "funding_vout"; "preimage"; "claim_ark_txid"; "onchain_refund_txid"; "failure_reason"; "fund_started_at";
    "lockup_outpoints"];
}.

#[export] Instance OnchainBase : BaseShape OnchainSend.state := {
  lifecycleLabel := "onchain send lifecycle";
  legalEdges := edges OnchainSendMachine;
  patchColumns := ["onchain_lockup_value"; "refund_ark_txid"; "refund_outcome"; "onchain_refund_txid";
    "onchain_refund_fee_rate"; "onchain_refund_broadcast_at"; "onchain_refund_prior_txids"; "unrolled_claim";
    "claim_ark_txid"];
  exposed := exposed_states OnchainSendMachine;
}.

Abbreviation OnchainRow := (Row OnchainSend.state OnchainQuote).
Abbreviation OnchainDb := (Db OnchainSend.state OnchainQuote).

(** [txidList] *)
Definition txidList (value : option string) : list string :=
  match value with
  | None => []
  | Some text => filter (λ s, s ≠ EmptyString) (split " "%char text)
  end.

Definition FUND_LEASE_TTL_SECONDS : Z := 10 * 60.
Definition CLIENT_LOCKUP_RELEASE_DELAY_SECONDS : Z := 60 * 60.

(** What the columns read back as: only [true] of the suite is stored. *)
Definition stored (q : OnchainQuote) : OnchainQuote :=
  mkOnchainQuote (paymentHash q) (amountSats q) (payout_sats q) (refundLocktime q) (providerPubkey q)
    (serverPubkey q) (claimDelay q) (refundDelay q) (refundWithoutReceiverDelay q) (pkScript q)
    (lockupAddress q) (refundPkScript q) (emulatorPubkey q) (clientRefundPubkey q) (receiverPkScript q)
    (match nonInteractiveParameters q with Some true => Some true | _ => None end)
    (payoutPubkey q) (htlcPubkey q) (htlcLocktime q) (minConfirmations q) (onchainAddress q)
    (onchainPkScript q) (rfqId q).

Section onchain_store.
Context {E : Type → Type} `{SqlEvents E OnchainSend.state OnchainQuote}.
#[local] Open Scope io_scope.
#[local] Abbreviation row := OnchainRow.
#[local] Abbreviation io := (io E Error).

(** What the float has yet to cover. *)
Definition select_owedPayoutSats (d : OnchainDb) : Z :=
  foldr (λ r, Z.add (payoutSats (quote r))) 0
    (filter (λ r, state r ∈ where_flag OnchainSendMachine "owesPayout") (rows d)).
Definition owedPayoutSats : io Z := attempt (sql_all select_owedPayoutSats).

(** The lease lapses: a row taken over only resends what it recorded. *)
Definition claimLease (i : string) (from : OnchainSend.state) : io bool :=
  at_ <- call clock ;; claimFundLease i from (Some (at_ - FUND_LEASE_TTL_SECONDS)).
Definition releaseLease (i : string) : io unit := releaseFundLease i.

(** Never over a recorded funding. *)
Definition refuseUnrecorded (i reason : string) : io bool :=
  transitionWhere i OnchainSend.funding_onchain OnchainSend.refused
    [("failure_reason", Some (VText reason))] (Some "funding_tx").

(** Single-winner. *)
Definition recordFundingTx (i tx : string) : io bool :=
  at_ <- call clock ;;
  changes <- attempt (sql_run (UpdateIfNullIn i OnchainSend.funding_onchain "funding_tx" (VText tx) at_)) ;;
  ret (changes =? 1)%nat.

(** Entry and lease in one write. *)
Definition enterFunding (i : string) : io bool :=
  at_ <- call clock ;;
  transition i OnchainSend.funded OnchainSend.funding_onchain [("fund_started_at", Some (VInt at_))].

Definition insertQuote (i : string) (q : OnchainQuote) : io row :=
  at_ <- call clock ;;
  attempt (sql_run (InsertRow (mkRow i OnchainSend.quoted at_ at_ (stored q) ∅))) ;;;
  recordEvent i None OnchainSend.quoted None ;;;
  get i.

(** The swap that blocks a new quote for this hash: [state != 'refused']. *)
Definition select_findLiveByPaymentHash (hash : string) (d : OnchainDb) : option row :=
  head (filter (λ r, paymentHash (quote r) = hash ∧ state r ≠ OnchainSend.refused) (rows d)).
Definition findLiveByPaymentHash (hash : string) : io (option row) :=
  attempt (sql_all (select_findLiveByPaymentHash hash)).

(** Never exposed: the client's lockup may go back at once. *)
Definition select_findRefundable (now : Z) (d : OnchainDb) : list row :=
  order_by oldest_first
    (filter (λ r, state r = OnchainSend.refused ∧ cols r !! "refund_outcome" = None ∧
                  (is_Some (clientRefundPubkey (quote r)) ∨ refundLocktime (quote r) ≤ now)) (rows d)).
Definition findRefundable (now : Z) : io (list row) := attempt (sql_all (select_findRefundable now)).

(** Lockups still held behind a landed L1 refund. *)
Definition select_findReleasable (now : Z) (d : OnchainDb) : list row :=
  order_by oldest_first
    (filter (λ r, state r = OnchainSend.refunded ∧ cols r !! "refund_outcome" = None ∧
                  updated_at r ≤ now - CLIENT_LOCKUP_RELEASE_DELAY_SECONDS) (rows d)).
Definition findReleasable (now : Z) : io (list row) := attempt (sql_all (select_findReleasable now)).
End onchain_store.
