(* ===== verification/EvmStore.v ===== *)
(** * The store of the EVM swap tables

    [EvmSwapStore] of [packages/solver-corridors-evm/src/db/evmSwapStore.ts],
    with the two shapes of [db/evmSendSwaps.ts] and [db/evmReceiveSwaps.ts].
    A method is a program over the statements it runs, one event each: nothing
    makes two statements of a method atomic. *)
From S2P Require Import Prelude StateMachine Prog SwapDb EvmRow Store.

Class EvmQuote (Q : Type) := { common : Q → CommonQuote }.
#[export] Instance EvmQuote_columns {Q} `{EvmQuote Q} : QuoteColumns Q := {
  payment_hash q := paymentHash (common q);
  rfq_id q := rfqId (common q);
  pk_script q := pkScript (common q);
  amount_sats q := amountSats (common q);
}.
#[export] Instance CommonQuote_quote : EvmQuote CommonQuote := { common := id }.

Section store.
Context {S Q : Type} `{EqDecision S, EvmQuote Q, SwapShape S}.
Context {E : Type → Type} `{SqlEvents E S Q}.
#[local] Open Scope io_scope.
#[local] Abbreviation Row := (Row S Q).
#[local] Abbreviation Db := (Db S Q).

Definition assertColumns (columns : list string) (where_ : string) : result Error unit :=
  match list_find (λ c, c ∉ transitionColumns) columns with
  | Some (_, c) => Err (UnknownColumn where_ c)
  | None => Ok tt
  end.

(** *** Queries *)

Definition select_findByRfqId (rfq : string) (d : Db) : option Row :=
  head (filter (λ r, rfqId (common (quote r)) = Some rfq) (rows d)).
Definition select_findLiveByPaymentHash (hash : string) (d : Db) : option Row :=
  head (filter (λ r, paymentHash (common (quote r)) = hash ∧ state r ≠ state_refused) (rows d)).
Definition select_findByPkScript (script : string) (d : Db) : option Row :=
  head (order_by newest_first (filter (λ r, pkScript (common (quote r)) = script) (rows d))).
Definition of_token (token : option string) (r : Row) : Prop :=
  match token with None => True | Some t => tokenAddress (common (quote r)) = t end.
#[export] Instance of_token_dec token r : Decision (of_token token r).
Proof. destruct token; cbn; apply _. Defined.
Definition sum_sats (l : list Row) : Z := foldr (λ r, Z.add (amountSats (common (quote r)))) 0 l.
Definition select_committedSats (token : option string) (d : Db) : Z :=
  sum_sats (filter (λ r, state r ∈ nonTerminal ∧ of_token token r) (rows d)).
Definition select_history (i : string) (d : Db) : list (Event S) :=
  filter (λ e, ev_swap e = i) (events d).
Definition updated_later (a b : Row) : bool := updated_at b <=? updated_at a.
Definition select_ledger (since until : Z) (token : option string) (n : nat) (d : Db) : list Row :=
  take n (order_by updated_later
    (filter (λ r, since ≤ updated_at r ∧ updated_at r < until ∧ of_token token r) (rows d))).

(** *** Methods *)

Definition insert (i : string) (q : Q) : io E Error Row :=
  at_ <- call clock ;;
  attempt (sql_run (InsertRow (mkRow i state_quoted at_ at_ q ∅))) ;;;
  attempt (sql_run (InsertEvent (mkEvent i at_ None state_quoted None))) ;;;
  get i.

Definition findByRfqId (rfq : string) : io E Error (option Row) :=
  attempt (sql_all (select_findByRfqId rfq)).
Definition findLiveByPaymentHash (hash : string) : io E Error (option Row) :=
  attempt (sql_all (select_findLiveByPaymentHash hash)).
Definition findByPkScript (script : string) : io E Error (option Row) :=
  attempt (sql_all (select_findByPkScript script)).
Definition committedSats (token : option string) : io E Error Z :=
  attempt (sql_all (select_committedSats token)).
Definition history (i : string) : io E Error (list (Event S)) :=
  attempt (sql_all (select_history i)).

(** [ledgerRows], [limit] already bounded by [clampLedgerLimit]. *)
Definition ledgerRows (since until : Z) (token : option string) (limit : nat)
    : io E Error (list Row * bool) :=
  raw <- attempt (sql_all (select_ledger since until token (limit + 1))) ;;
  ret (take limit raw, (limit <? length raw)%nat).

Definition transition (i : string) (from to : S) (f : fields) : io E Error unit :=
  match assertColumns f.*1 "transition()" with
  | Err e => throw e
  | Ok _ =>
      at_ <- call clock ;;
      changes <- attempt (sql_run (UpdateState i from to f at_)) ;;
      if (changes =? 0)%nat then throw (NotInState noun i (state_name from))
      else attempt (sql_run (InsertEvent (mkEvent i at_ (Some from) to None))) ;;; ret tt
  end.

Definition patch (i : string) (f : fields) : io E Error unit :=
  match f with
  | [] => ret tt
  | _ =>
      match assertColumns f.*1 "patch()" with
      | Err e => throw e
      | Ok _ =>
          at_ <- call clock ;;
          attempt (sql_run (UpdateColumns i f at_)) ;;;
          ret tt
      end
  end.

Definition fail (i : string) (from : S) (reason : string) : io E Error unit :=
  transition i from state_stuck [("failure_reason", Some (VText reason))].
End store.

(** ** The send table *)

#[export] Instance EvmSendShape : SwapShape EvmSend.state := {
  noun := "send";
  state_name s := match s with
    | EvmSend.quoted => "quoted" | EvmSend.funded => "funded"
    | EvmSend.locking_evm => "locking_evm" | EvmSend.awaiting_claim => "awaiting_claim"
    | EvmSend.claiming => "claiming" | EvmSend.claimed => "claimed"
    | EvmSend.refunding_evm => "refunding_evm" | EvmSend.refunded => "refunded"
    | EvmSend.refused => "refused" | EvmSend.stuck => "stuck"
    end;
  state_quoted := EvmSend.quoted;
  state_refused := EvmSend.refused;
  state_stuck := EvmSend.stuck;
  nonTerminal := EvmSend.EVM_SEND_NON_TERMINAL;
  transitionColumns := ["evm_lock_txid"; "evm_refund_txid"; "evm_claim_txid"; "preimage";
    "claim_ark_txid"; "refund_ark_txid"; "refund_outcome"; "failure_reason"];
}.

Abbreviation EvmSendRow := (Row EvmSend.state CommonQuote).
Abbreviation EvmSendDb := (Db EvmSend.state CommonQuote).

Section send_store.
Context {E : Type → Type} `{SqlEvents E EvmSend.state CommonQuote}.
#[local] Open Scope io_scope.

Definition select_findRefundable (d : EvmSendDb) : list EvmSendRow :=
  order_by oldest_first
    (filter (λ r, state r = EvmSend.refused ∧ cols r !! "refund_outcome" = None) (rows d)).
Definition findRefundable : io E Error (list EvmSendRow) :=
  attempt (sql_all select_findRefundable).

Definition reached_lock (d : EvmSendDb) (r : EvmSendRow) : bool :=
  existsb (λ e, bool_decide (ev_swap e = row_id r) && bool_decide (ev_to e = EvmSend.locking_evm)) (events d).
Definition select_findClosedOverLock (nowSeconds : Z) (d : EvmSendDb) : list EvmSendRow :=
  order_by oldest_first
    (filter (λ r, state r ∈ [EvmSend.stuck; EvmSend.refunded] ∧ nowSeconds < refundLocktime (quote r) ∧
                  reached_lock d r = true) (rows d)).
Definition findClosedOverLock (nowSeconds : Z) : io E Error (list EvmSendRow) :=
  attempt (sql_all (select_findClosedOverLock nowSeconds)).

Definition claimRefundTxid (i txid : string) : io E Error bool :=
  at_ <- call clock ;;
  changes <- attempt (sql_run (UpdateIfNull i "evm_refund_txid" (VText txid) at_)) ;;
  ret (0 <? changes)%nat.
End send_store.

(** ** The receive table *)

Record EvmReceiveQuote := mkReceiveQuote {
  receive_common : CommonQuote;
  payoutPubkey : string;
}.
#[export] Instance EvmReceiveQuote_quote : EvmQuote EvmReceiveQuote := { common := receive_common }.

#[export] Instance EvmReceiveShape : SwapShape EvmReceive.state := {
  noun := "receive";
  state_name s := match s with
    | EvmReceive.quoted => "quoted" | EvmReceive.awaiting_lock => "awaiting_lock"
    | EvmReceive.locked => "locked" | EvmReceive.funding_arkade => "funding_arkade"
    | EvmReceive.awaiting_claim => "awaiting_claim" | EvmReceive.claiming => "claiming"
    | EvmReceive.claimed => "claimed" | EvmReceive.refunding_arkade => "refunding_arkade"
    | EvmReceive.refunded => "refunded" | EvmReceive.refused => "refused"
    | EvmReceive.stuck => "stuck"
    end;
  state_quoted := EvmReceive.quoted;
  state_refused := EvmReceive.refused;
  state_stuck := EvmReceive.stuck;
  nonTerminal := EvmReceive.EVM_RECEIVE_NON_TERMINAL;
  transitionColumns := ["evm_lock_txid"; "evm_claim_txid"; "preimage"; "fund_ark_txid";
    "refund_ark_txid"; "failure_reason"];
}.

Abbreviation EvmReceiveRow := (Row EvmReceive.state EvmReceiveQuote).
Abbreviation EvmReceiveDb := (Db EvmReceive.state EvmReceiveQuote).

Section store_theorems.
Context {S Q : Type} `{EqDecision S, EvmQuote Q, SwapShape S}.
Implicit Types (d : Db S Q) (r : Row S Q).

#[local] Abbreviation run_store now p d := (run (sql_handle (S := S) (Q := Q) now) p d).

(** [transition] is a compare-and-swap on the state, on every branch: an
    unknown column or a row not in [from] throws and writes nothing; otherwise
    exactly that row moves, with its fields, its quote and every other row
    untouched, one event is appended, and what the schema enforces is kept. *)
Theorem transition_is_cas now i from to f d :
  db_wf state_refused d → from ≠ state_refused →
  let '(r, d') := run_store now (transition i from to f) d in
  match assertColumns f.*1 "transition()", find_row d i with
  | Err e, _ => r = Err e ∧ d' = d
  | Ok _, Some row =>
      if decide (state row = from)
      then r = Ok tt ∧ db_wf state_refused d' ∧
           (∀ j, find_row d' j = if decide (j = i) then Some (moved to f now row) else find_row d j) ∧
           events d' = events d ++ [mkEvent i now (Some from) to None]
      else r = Err (NotInState noun i (state_name from)) ∧ events d' = events d ∧
           ∀ j, find_row d' j = find_row d j
  | Ok _, None => r = Err (NotInState noun i (state_name from)) ∧ events d' = events d ∧
           ∀ j, find_row d' j = find_row d j
  end.
Proof.
  intros Hwf Hfrom. unfold transition. destruct (assertColumns _ _) as [|e]; [|done].
  cbn. rewrite (run_UpdateState d i from to f now Hwf Hfrom).
  pose proof (run_UpdateState_wf d i from to f now Hwf Hfrom) as Hwf'.
  assert (∀ ev, (∀ r, find_row d i = Some r → state r ≠ from) → ∀ j,
    find_row (mkDb (updated (in_state i from) (moved to f now) <$> rows d) ev) j = find_row d j) as Hsame.
  { intros ev Hn j. rewrite find_row_moved. destruct (find_row d j) as [r|] eqn:Hr; [|done].
    rewrite bool_decide_false; [done|]. intros [-> ?]. by eapply Hn. }
  destruct (find_row d i) as [row|] eqn:Hrow; cbn.
  - pose proof (find_row_Some _ _ _ Hrow) as [Hid _].
    destruct (decide (state row = from)) as [Hs|Hs].
    + rewrite (proj2 (in_state_spec i from row)) by done. cbn.
      split_and!; [done|exact Hwf'| |done]. intros j. etrans; [apply (find_row_moved _ _ _ _ _ _ (events d))|].
      destruct (decide (j = i)) as [->|Hj]; [by rewrite Hrow, bool_decide_true|].
      destruct (find_row d j); [|done]. by rewrite bool_decide_false by naive_solver.
    + destruct (in_state i from row) eqn:Hin; [by apply in_state_spec in Hin as [_ ?]|]. cbn.
      split_and!; [done|done|]. apply (Hsame (events d)). by intros r [= <-].
  - split_and!; [done|done|]. by apply (Hsame (events d)).
Qed.

(** [findLiveByPaymentHash] decides the duplicate check exactly: it answers a
    row when and only when that row is the live one for the hash, and the schema
    makes it unique. *)
Theorem findLiveByPaymentHash_exact hash d r :
  db_wf state_refused d →
  (select_findLiveByPaymentHash hash d = Some r ↔
     r ∈ rows d ∧ paymentHash (common (quote r)) = hash ∧ state r ≠ state_refused) ∧
  (select_findLiveByPaymentHash hash d = None ↔
     ∀ r, r ∈ rows d → paymentHash (common (quote r)) = hash → state r = state_refused).
Proof.
  intros [_ Hu]. unfold select_findLiveByPaymentHash.
  set (P := λ r : Row S Q, paymentHash (common (quote r)) = hash ∧ state r ≠ state_refused).
  assert (∀ l, NoDup (live_hashes state_refused l) → ∀ r, r ∈ filter P l → head (filter P l) = Some r) as Hone.
  { clear. intros l. induction l as [|r0 l IH]; cbn -[filter]; intros Hnd r Hin.
    { apply list_elem_of_filter in Hin as [_ Hin]. inversion Hin. }
    unfold live_hashes in *. rewrite filter_cons in Hnd, Hin |- *.
    destruct (decide (P r0)) as [Hp|Hp].
    - cbn. rewrite decide_True in Hnd by apply Hp. cbn in Hnd. apply NoDup_cons in Hnd as [Hni _].
      apply elem_of_cons in Hin as [->|Hin]; [done|]. exfalso. apply Hni.
      apply list_elem_of_filter in Hin as [[Hh Hs] Hin]. apply list_elem_of_fmap. exists r.
      split; [cbn; by rewrite Hh, (proj1 Hp)|]. by apply list_elem_of_filter.
    - apply IH; [|done]. case_decide; [|done]. cbn in Hnd. by apply NoDup_cons in Hnd as [_ ?]. }
  split; split.
  - intros Hh. assert (r ∈ filter P (rows d)) as Hin.
    { destruct (filter P (rows d)); [done|]. injection Hh as ->. by left. }
    apply list_elem_of_filter in Hin as [[? ?] ?]. done.
  - intros (Hin & Hh & Hs). apply Hone; [done|]. by apply list_elem_of_filter.
  - intros Hn r' Hin Hh. destruct (decide (state r' = state_refused)) as [|Hs]; [done|].
    assert (r' ∈ filter P (rows d)) as Hin' by by apply list_elem_of_filter.
    by rewrite (Hone _ Hu _ Hin') in Hn.
  - intros Hall. destruct (filter P (rows d)) as [|r' l] eqn:Hf; [done|]. exfalso.
    assert (r' ∈ filter P (rows d)) as Hin by (rewrite Hf; by left).
    apply list_elem_of_filter in Hin as [[Hh Hs] Hin]. auto.
Qed.

(** What one row counts for in [committedSats]. *)
Definition committed_of (token : option string) (r : Row S Q) : Z :=
  if decide (state r ∈ nonTerminal ∧ of_token token r) then amountSats (common (quote r)) else 0.

Lemma committedSats_sum token d :
  select_committedSats token d = foldr (λ r, Z.add (committed_of token r)) 0 (rows d).
Proof.
  unfold select_committedSats. induction (rows d) as [|r l IH]; [done|].
  rewrite filter_cons. cbn [foldr]. unfold committed_of at 1.
  destruct (decide (state r ∈ nonTerminal ∧ of_token token r)) as [Hd|Hd]; cbn.
  - by rewrite <- IH.
  - by rewrite <- IH.
Qed.

(** The committed total moves with the lifecycle and with nothing else: a
    transition takes the row's sats out when it leaves the non-terminal states,
    puts them back if it re-enters them, and otherwise leaves the total. *)
Theorem committedSats_follows_transition now i from to f token d row :
  db_wf state_refused d → from ≠ state_refused →
  assertColumns f.*1 "transition()" = Ok tt →
  find_row d i = Some row → state row = from →
  select_committedSats token (run_store now (transition i from to f) d).2 =
  select_committedSats token d
    - (if decide (from ∈ nonTerminal ∧ of_token token row) then amountSats (common (quote row)) else 0)
    + (if decide (to ∈ nonTerminal ∧ of_token token row) then amountSats (common (quote row)) else 0).
Proof.
  intros Hwf Hfrom Hc Hrow Hs. unfold transition. rewrite Hc. cbn -[select_committedSats].
  pose proof (find_row_Some _ _ _ Hrow) as [Hid Hin].
  rewrite (run_UpdateState d i from to f now Hwf Hfrom), Hrow.
  assert (in_state i from row = true) as -> by by apply in_state_spec.
  cbn -[select_committedSats]. rewrite !committedSats_sum. cbn [rows].
  rewrite (sum_updated (committed_of token) _ (moved to f now) (rows d) row);
    [|apply Hwf|intros r [-> _]%in_state_spec; done|done|by apply in_state_spec].
  unfold committed_of at 2 3. cbn. by rewrite Hs.
Qed.
End store_theorems.

(** ** Witnesses *)

Definition example_row (s : EvmSend.state) : EvmSendRow :=
  mkRow "swap-1" s 1700000000 1700000000 example_quote ∅.
Definition example_db (s : EvmSend.state) : EvmSendDb := mkDb [example_row s] [].

Lemma example_db_wf s : db_wf state_refused (example_db s).
Proof.
  split; [apply NoDup_singleton|]. unfold live_hashes. cbn. case_decide; [apply NoDup_singleton|constructor].
Qed.

Lemma transition_is_cas_witness :
  db_wf state_refused (example_db EvmSend.funded) ∧
  (run (sql_handle 1700000100)
    (transition "swap-1" EvmSend.funded EvmSend.locking_evm []) (example_db EvmSend.funded)).1 = Ok tt.
Proof.
  split; [apply example_db_wf|].
  pose proof (transition_is_cas 1700000100 "swap-1" EvmSend.funded EvmSend.locking_evm []
    (example_db EvmSend.funded) (example_db_wf _) ltac:(discriminate)) as H.
  destruct (run _ _ _) as [r d']. change (r = Ok tt). apply H.
Defined.

Lemma findLiveByPaymentHash_exact_witness :
  db_wf state_refused (example_db EvmSend.claimed) ∧
  select_findLiveByPaymentHash (paymentHash example_quote) (example_db EvmSend.claimed)
    = Some (example_row EvmSend.claimed).
Proof.
  split; [apply example_db_wf|].
  apply (findLiveByPaymentHash_exact _ _ _ (example_db_wf EvmSend.claimed)).
  split; [left|]. split; [reflexivity|discriminate].
Defined.

Lemma committedSats_follows_transition_witness :
  db_wf state_refused (example_db EvmSend.claiming) ∧
  select_committedSats None (run (sql_handle 1700000100)
    (transition "swap-1" EvmSend.claiming EvmSend.claimed
      [("claim_ark_txid", Some (VText "ab"))]) (example_db EvmSend.claiming)).2 = 0.
Proof.
  split; [apply example_db_wf|].
  exact (committedSats_follows_transition 1700000100 "swap-1" EvmSend.claiming EvmSend.claimed
    [("claim_ark_txid", Some (VText "ab"))] None (example_db EvmSend.claiming)
    (example_row EvmSend.claiming) (example_db_wf _) ltac:(discriminate) eq_refl eq_refl eq_refl).
Defined.
