(* ===== verification/World.v ===== *)
(** * The world of the swap services

    What every orchestrator acts on: the database shared by every instance, the
    chains and servers it reads, the requests it sends — irreversible, so kept
    as a ledger — and each process's own memory. Reads answer anything their
    port may, fail at will and change nothing; a request may fail after having
    taken effect. Shared helpers: the tick and the sweep
    ([solver-core/src/util/sweep.ts]) and the approval gate
    ([solver-core/src/core/approvalGate.ts]). *)
From S2P Require Import Prelude StateMachine Prog SwapDb EvmRow Store.

(** ** Events *)

(** What a request answers when it does not throw. *)
Class Replies (Eff : Type) := Reply : Eff → Type.

(** What is assumed of the services behind the ports: what a read may answer,
    and a request that does not throw; which failures of a request say that it
    was not submitted. *)
Record Port (Eff : Type) (Read : Type → Type) `{Replies Eff} := mkPort {
  answers : ∀ X, Read X → X → Prop;
  replies : ∀ a : Eff, Reply a → Prop;
  definite : Eff → Error → Prop;
}.
Arguments mkPort {Eff Read _} answers replies definite.
Arguments answers {Eff Read _} p.
Arguments replies {Eff Read _} p.
Arguments definite {Eff Read _} p.

(** Everything a service does to the outside, [Eff] its irreversible requests
    and [self] the process it is. *)
Inductive evt (S Q Eff : Type) (Read : Type → Type) `{Replies Eff} : Type → Type :=
  | Sql (s : stmt S Q) : evt S Q Eff Read (result Error nat)
  | Query {X} (f : Db S Q → X) : evt S Q Eff Read (result Error X)
  | Clock : evt S Q Eff Read Z
  | Ask {X} (q : Read X) : evt S Q Eff Read (result Error X)
  | Act (a : Eff) : evt S Q Eff Read (result Error (Reply a))
  | Report (i : string) (e : Error) : evt S Q Eff Read unit
  | FirstReport (self : nat) (i : string) : evt S Q Eff Read bool
  | TryTick (self : nat) (i : string) : evt S Q Eff Read bool
  | EndTick (self : nat) (i : string) : evt S Q Eff Read unit
  | InFlight (self : nat) (i : string) : evt S Q Eff Read bool
  | TrySweep (self : nat) : evt S Q Eff Read bool
  | EndSweep (self : nat) : evt S Q Eff Read unit
  | Enter (self : nat) : evt S Q Eff Read unit
  | Leave (self : nat) : evt S Q Eff Read unit
  | Restart (self : nat) : evt S Q Eff Read unit.
Arguments Sql {S Q Eff Read _} s.
Arguments Query {S Q Eff Read _ X} f.
Arguments Clock {S Q Eff Read _}.
Arguments Ask {S Q Eff Read _ X} q.
Arguments Act {S Q Eff Read _} a.
Arguments Report {S Q Eff Read _} i e.
Arguments FirstReport {S Q Eff Read _} self i.
Arguments TryTick {S Q Eff Read _} self i.
Arguments EndTick {S Q Eff Read _} self i.
Arguments InFlight {S Q Eff Read _} self i.
Arguments TrySweep {S Q Eff Read _} self.
Arguments EndSweep {S Q Eff Read _} self.
Arguments Enter {S Q Eff Read _} self.
Arguments Leave {S Q Eff Read _} self.
Arguments Restart {S Q Eff Read _} self.

#[export] Instance evt_sql {S Q Eff Read} `{Replies Eff} : SqlEvents (evt S Q Eff Read) S Q :=
  {| sql_run := Sql; sql_all _ := Query; clock := Clock |}.

(** ** The world *)

(** What wins a row for one thread: the entry into a state, or a lease, a column
    set while it was free and cleared to give the row back. *)
Inductive Grant (S : Type) := Entry (s : S) | Lease (column : string).
Arguments Entry {S} s.
Arguments Lease {S} column.

Record World (S Q Eff : Type) := mkWorld {
  db : Db S Q;
  sent : list Eff;                       (** requests that may have taken effect *)
  grants : gmap string nat;              (** which thread won a row *)
  ticking : gset (nat * string);         (** [inFlight] of each process *)
  inside : gset nat;                     (** whose [lockSequence] is held *)
  reported : gset (nat * string);        (** [lateLockReported] of each process *)
  sweeping : gset nat;                   (** which processes have a [sweepInFlight] *)
}.
Arguments mkWorld {S Q Eff} db sent grants ticking inside reported sweeping.
Arguments db {S Q Eff} w.
Arguments sent {S Q Eff} w.
Arguments grants {S Q Eff} w.
Arguments ticking {S Q Eff} w.
Arguments inside {S Q Eff} w.
Arguments reported {S Q Eff} w.
Arguments sweeping {S Q Eff} w.

Section world.
Context {S Q Eff : Type} {Read : Type → Type} `{EqDecision S, QuoteColumns Q, SwapShape S, Replies Eff}.
Context (granted : Grant S).
(** What a read may answer. *)
Context (port : Port Eff Read).
#[local] Abbreviation W := (World S Q Eff).

Definition with_db (w : W) (d : Db S Q) (g : gmap string nat) : W :=
  mkWorld d (sent w) g (ticking w) (inside w) (reported w) (sweeping w).
Definition with_sent (w : W) (a : Eff) : W :=
  mkWorld (db w) (sent w ++ [a]) (grants w) (ticking w) (inside w) (reported w) (sweeping w).
Definition with_memory (w : W) (ti : gset (nat * string)) (ins : gset nat) (re : gset (nat * string))
    (sw : gset nat) : W :=
  mkWorld (db w) (sent w) (grants w) ti ins re sw.

(** A statement run by thread [t]. *)
Definition grant_of (t : nat) (s : stmt S Q) (r : result Error nat) (g : gmap string nat)
    : gmap string nat :=
  match granted, s, r with
  | Entry entered, UpdateState i _ to _ _, Ok (Datatypes.S _) => if decide (to = entered) then <[i := t]> g else g
  | Lease lease, ClaimLease i _ column _ _ _, Ok (Datatypes.S _) => if decide (column = lease) then <[i := t]> g else g
  | Lease lease, ClearColumn i column, _ => if decide (column = lease) then delete i g else g
  | _, _, _ => g
  end.
Definition run_sql (t : nat) (s : stmt S Q) (w : W) : result Error nat * W :=
  let '(r, d) := run_stmt s (db w) in (r, with_db w d (grant_of t s r (grants w))).

Definition handle (t : nat) X (e : evt S Q Eff Read X) (w w' : W) : X → Prop :=
  match e in evt _ _ _ _ X return X → Prop with
  | Sql s => λ x,
      (x = (run_sql t s w).1 ∧ w' = (run_sql t s w).2) ∨
      (∃ e, x = Err e ∧ (w' = w ∨ w' = (run_sql t s w).2))
  | Query f => λ x, w' = w ∧ ((x = Ok (f (db w))) ∨ ∃ e, x = Err e)
  | Clock => λ at_, w' = w ∧ (0 ≤ at_)%Z
  | Ask q => λ x, w' = w ∧ match x with Ok a => answers port _ q a | Err _ => True end
  | Act a => λ x, (w' = with_sent w a ∧ match x with Ok y => replies port a y | Err e => ¬ definite port a e end) ∨
      (w' = w ∧ ∃ e, x = Err e)
  | Report _ _ => λ _, w' = w
  | FirstReport self i => λ b,
      b = bool_decide ((self, i) ∉ reported w) ∧
      w' = with_memory w (ticking w) (inside w) ({[ (self, i) ]} ∪ reported w) (sweeping w)
  | TryTick self i => λ b,
      b = bool_decide ((self, i) ∉ ticking w) ∧
      w' = with_memory w ({[ (self, i) ]} ∪ ticking w) (inside w) (reported w) (sweeping w)
  | EndTick self i => λ _, w' = with_memory w (ticking w ∖ {[ (self, i) ]}) (inside w) (reported w) (sweeping w)
  | InFlight self i => λ b, b = bool_decide ((self, i) ∈ ticking w) ∧ w' = w
  | TrySweep self => λ b,
      b = bool_decide (self ∉ sweeping w) ∧
      w' = with_memory w (ticking w) (inside w) (reported w) ({[ self ]} ∪ sweeping w)
  | EndSweep self => λ _,
      w' = with_memory w (ticking w) (inside w) (reported w) (sweeping w ∖ {[ self ]})
  | Enter self => λ _,
      (self ∉ inside w) ∧ w' = with_memory w (ticking w) ({[ self ]} ∪ inside w) (reported w) (sweeping w)
  | Leave self => λ _, w' = with_memory w (ticking w) (inside w ∖ {[ self ]}) (reported w) (sweeping w)
  | Restart self => λ _,
      w' = with_memory w (filter (λ p, p.1 ≠ self) (ticking w)) (inside w ∖ {[ self ]})
             (filter (λ p, p.1 ≠ self) (reported w)) (sweeping w ∖ {[ self ]})
  end.
End world.

(** ** A world that answers *)

Section played.
Context {S Q Eff : Type} {Read : Type → Type} `{EqDecision S, QuoteColumns Q, SwapShape S, Replies Eff}.
Context (granted : Grant S) (port : Port Eff Read).
#[local] Abbreviation W := (World S Q Eff).
(** The clock, what each read answers, and what each request does. *)
Context (time : Z) (oracle : W → ∀ X, Read X → option X) (reply : ∀ a : Eff, Reply a).

Definition served (t : nat) X (e : evt S Q Eff Read X) (w : W) : option (X * W) :=
  match e in evt _ _ _ _ X return option (X * W) with
  | Sql s => Some (run_sql granted t s w)
  | Query f => Some (Ok (f (db w)), w)
  | Clock => Some (time, w)
  | Ask q => match oracle w _ q with Some x => Some (Ok x, w) | None => None end
  | Act a => Some (Ok (reply a), with_sent w a)
  | Report _ _ => Some (tt, w)
  | FirstReport self i => Some (bool_decide ((self, i) ∉ reported w),
      with_memory w (ticking w) (inside w) ({[ (self, i) ]} ∪ reported w) (sweeping w))
  | TryTick self i => Some (bool_decide ((self, i) ∉ ticking w),
      with_memory w ({[ (self, i) ]} ∪ ticking w) (inside w) (reported w) (sweeping w))
  | EndTick self i =>
      Some (tt, with_memory w (ticking w ∖ {[ (self, i) ]}) (inside w) (reported w) (sweeping w))
  | InFlight self i => Some (bool_decide ((self, i) ∈ ticking w), w)
  | TrySweep self => Some (bool_decide (self ∉ sweeping w),
      with_memory w (ticking w) (inside w) (reported w) ({[ self ]} ∪ sweeping w))
  | EndSweep self => Some (tt,
      with_memory w (ticking w) (inside w) (reported w) (sweeping w ∖ {[ self ]}))
  | Enter self =>
      if bool_decide (self ∈ inside w) then None
      else Some (tt, with_memory w (ticking w) ({[ self ]} ∪ inside w) (reported w) (sweeping w))
  | Leave self => Some (tt, with_memory w (ticking w) (inside w ∖ {[ self ]}) (reported w) (sweeping w))
  | Restart self => Some (tt,
      with_memory w (filter (λ p, p.1 ≠ self) (ticking w)) (inside w ∖ {[ self ]})
        (filter (λ p, p.1 ≠ self) (reported w)) (sweeping w ∖ {[ self ]}))
  end.

Lemma served_handle :
  (0 ≤ time)%Z →
  (∀ w X (q : Read X) x, oracle w X q = Some x → answers port X q x) → (∀ a, replies port a (reply a)) →
  ∀ t X e w x w', served t X e w = Some (x, w') → handle granted port t X e w w' x.
Proof.
  intros Htime Ho Hr t X e w x w' Hs. destruct e; cbn in *; repeat case_match; simplify_eq; eauto.
  - left. by rewrite Hs.
  - case_bool_decide; [done|]. by simplify_eq.
Qed.
End played.

(** ** Helpers of the orchestrators *)

(** The approval gate a host may inject: a read that answers whether the swap
    may go on. *)
Class Approvals (Read : Type → Type) := approval : string → Z → Read bool.

Section helpers.
Context {S Q Eff : Type} {Read : Type → Type} `{EqDecision S, QuoteColumns Q, SwapShape S, Replies Eff}.
#[local] Open Scope io_scope.
#[local] Abbreviation io := (io (evt S Q Eff Read) Error).

Definition onTickError (i : string) (e : Error) : io unit := call (Report i e).
Definition now : io Z := call Clock.
Definition firstReport (self : nat) (i : string) : io bool := call (FirstReport self i).
Definition asks {X} (q : Read X) : io X := attempt (Ask q).
Definition request (a : Eff) : io (Reply a) := attempt (Act a).

Definition lifted {A B} (f : A → Error) (r : result A B) : io B :=
  match r with Ok b => ret b | Err e => throw (f e) end.
(** [while (await step(await store.get(id))) {}], at most [fuel] passes: whether
    the loop ended of its own. *)
Fixpoint drive (fuel : nat) (i : string) (step : Row S Q → io bool) : io bool :=
  match fuel with
  | O => ret false
  | Datatypes.S n =>
      row <- get i ;;
      moved <- step row ;;
      if moved then drive n i step else ret true
  end.

Definition guardedTick (fuel self : nat) (i : string) (step : Row S Q → io bool) : io (Row S Q) :=
  free <- call (TryTick self i) ;;
  if negb free then get i
  else finally (drive fuel i step ;;; get i) (trigger (EndTick self i)).

(** [sweep] as one worker runs it: a row the host holds off, or that is being
    driven already, is passed through. *)
Definition sweep (held : string → io bool) (l : list (Row S Q)) (tick : string → io (Row S Q))
    : io (list (Row S Q)) :=
  for_each l (λ row,
    off <- held (row_id row) ;;
    if off then ret (Some row)
    else try_catch (driven <- tick (row_id row) ;; ret (Some driven))
      (λ e, onTickError (row_id row) e ;;;
        try_catch (current <- get (row_id row) ;; ret (Some current)) (λ _, ret None))).

(** No throttle and no in-flight set. *)
Definition unheld (i : string) : io bool := ret false.

Definition askApproval `{Approvals Read} (gate : bool) (i : string) (sats : Z) : io bool :=
  if gate then asks (approval i sats) else ret true.
End helpers.
