(* ===== verification/ChainClock.v ===== *)
(** * Deadlines on the chain's own clock

    [packages/solver-corridors/src/chainClock.ts]: a refund locktime is a time
    or a height, and reading it against the clock may need the chain's tip. *)
From S2P Require Import Prelude Timelocks StateMachine Prog SwapDb Store World.

(** The tip of the chain, where a host wires its provider. *)
Class ChainTipProvider (Read : Type → Type) := tip : Read Z.

(** What the functions below need of a service: its clock and the tip. *)
Class ChainClock (E : Type → Type) := { time_now : io E Error Z; tip_height : io E Error Z }.
#[export] Instance service_clock {S Q Eff Read} `{Replies Eff, ChainTipProvider Read} : ChainClock (evt S Q Eff Read) :=
  {| time_now := now; tip_height := asks tip |}.

Section clock.
Context {E : Type → Type} `{ChainClock E}.
(** Whether a provider is wired. *)
Context (chainTip : bool).
#[local] Open Scope io_scope.
#[local] Abbreviation io := (io E Error).

(** A refund deadline is a height, and no provider can say where the tip is. *)
Definition no_chain_tip (refundLocktime : Z) (purpose : string) : Error :=
  Thrown ("refund locktime " +:+ pretty refundLocktime +:+
    " is a block height, but no chainTip provider is wired — a block-typed deployment needs one to " +:+ purpose).

(** What [absoluteLocktimeIn] throws. *)
Definition locktimeError (e : TimelockError) : Error :=
  match e with
  | RefundHeightReadsAsSeconds height =>
      Thrown ("refund height " +:+ pretty height +:+ " is at or above LOCKTIME_THRESHOLD (" +:+
              pretty LOCKTIME_THRESHOLD +:+ ") and would read as unix seconds")
  | _ => Thrown EmptyString
  end.

Definition absoluteLocktimeFor (deadlineSeconds ladderDelay : Z) : io Z :=
  match unit_of (relativeDelayFrom ladderDelay) with
  | seconds => ret deadlineSeconds
  | blocks =>
      if chainTip then
        at_ <- time_now ;;
        height <- tip_height ;;
        match absoluteLocktimeIn deadlineSeconds blocks (mkMoment at_ height) with
        | Ok locktime => ret locktime
        | Err e => throw (locktimeError e)
        end
      else throw (Thrown "this deployment has block-typed timelocks, so a refund deadline must be written as a height — but no chainTip provider is wired")
  end.

Definition refundDeadlineSeconds (refundLocktime : Z) (purpose : string) : io Z :=
  at_ <- time_now ;;
  match absoluteLocktimeUnit refundLocktime with
  | seconds => ret refundLocktime
  | blocks =>
      if chainTip then
        height <- tip_height ;;
        ret (absoluteLocktimeSeconds refundLocktime (mkMoment at_ height))
      else throw (no_chain_tip refundLocktime purpose)
  end.

Definition refundDeadlineReached (refundLocktime : Z) : io bool :=
  at_ <- time_now ;;
  match absoluteLocktimeUnit refundLocktime with
  | seconds => ret (refundLocktime <=? at_)
  | blocks =>
      if chainTip then
        height <- tip_height ;;
        ret (absoluteLocktimeReached refundLocktime (mkMoment at_ height))
      else throw (no_chain_tip refundLocktime "tell whether a deadline has opened")
  end.
End clock.
