(* ===== verification/EvmService.v ===== *)
(** * What the EVM services read and share

    The reads of both EVM orchestrators ([send/evmOrchestrator.ts],
    [receive/evmOrchestrator.ts]), what they may answer, and the depth probe
    ([solver-rails-evm/src/evm/lockDepth.ts]). *)
From S2P Require Import Prelude StateMachine EvmPlan Prog SwapDb EvmRow Store EvmStore World.

(** The reads of the services' dependencies. *)
Inductive ask : Type → Type :=
  | ArkadeLockupFunded (i : string) (q : CommonQuote) : ask bool
  | IsLocked (lock : Erc20SwapLock) : ask bool
  | BlockHeight : ask Z
  | TimelockHeight : ask Z
  | TransactionOutcome (txid : string) : ask EvmTransactionOutcome
  | FindRefund (lock : Erc20SwapLock) (fromBlock : Z) : ask bool
  | TransactionBlock (txid : string) : ask (option Z)
  | FindClaimPreimage (lock : Erc20SwapLock) (fromBlock minConfirmations minAgeSeconds nowSeconds : Z)
      : ask (option (list Z))
  | IsLockedAt (lock : Erc20SwapLock) (block : Z) : ask bool
  | BlockTimestampAt (block : Z) : ask Z
  | Allowance (token : list Z) : ask Z
  | Approval (i : string) (sats : Z) : ask bool
  | FindLockups (script : string) : ask (list string)
  | LockupProvablySpent (script : string) : ask bool
  | ArkadePreimage (i : string) (q : CommonQuote) : ask (option string)
  | FindSweptLockups (script : string) : ask (list (string * Z)).

Abbreviation asks := (World.asks (Read := ask)).
#[export] Instance ask_approvals : Approvals ask := Approval.

(** The calldata builders of [EvmHtlcBackend] the services use; a call is its
    calldata. *)
Class EvmHtlcBackend := {
  lockCalls : Erc20SwapLock → Z → list string;
  claimCall : list Z → Erc20SwapLock → string;
  refundCall : Erc20SwapLock → string;
}.

Section answers.
(** [sha256] *)
Context (sha256 : list Z → list Z).

(** What a read may answer: a preimage found on either chain is one of the hash
    it was asked for; nothing is assumed of the others. *)
Definition evm_answers (X : Type) (q : ask X) : X → Prop :=
  match q in ask X return X → Prop with
  | FindClaimPreimage lock _ _ _ _ => λ x, ∀ p, x = Some p → sha256 p = lock_preimageHash lock
  | ArkadePreimage i q => λ x,
      ∀ s, x = Some s → ∃ p, Forall is_byte p ∧ s = hex_encode p ∧ hex_encode (sha256 p) = paymentHash q
  | _ => λ _, True
  end.

(** Nothing is assumed of the replies to a request. *)
Definition port {Eff} `{Replies Eff} : Port Eff ask := mkPort evm_answers (λ _ _, True) (λ _ _, False).
End answers.

Section depth.
Context {S Q Eff : Type} `{EqDecision S, EvmQuote Q, SwapShape S, Replies Eff}.
#[local] Open Scope io_scope.
#[local] Abbreviation io := (io (evt S Q Eff ask) Error).

Definition lockFor (row : Row S Q) : io Erc20SwapLock :=
  lifted MalformedRow (sendLockFromRow (common (quote row))).

Record LockDepth := mkDepth { confirmations : Z; ageSeconds : Z }.
Definition UNPROVEN : LockDepth := mkDepth 0 0.

Definition provenDepth (i : string) (lock : Erc20SwapLock) (present : bool)
    (height minConfirmations nowSeconds : Z) : io LockDepth :=
  let probe := height - minConfirmations + 1 in
  if negb present || (probe <? 1) then ret UNPROVEN
  else try_catch
    (there <- asks (IsLockedAt lock probe) ;;
     if negb there then ret UNPROVEN
     else at_ <- asks (BlockTimestampAt probe) ;;
          ret (mkDepth minConfirmations (nowSeconds - at_)))
    (λ e, onTickError i e ;;; ret UNPROVEN).
End depth.
