(* ===== verification/EvmExample.v ===== *)
(** * The swaps of the example runs

    A hash function, the calls of a contract and two swaps, for the runs that
    show the theorems of [EvmSendSafety] and [EvmReceiveSafety] at work. *)
From S2P Require Import Prelude SwapDb EvmRow Store EvmStore World EvmService.

(** Every preimage of this hash function opens the example lock. *)
Definition example_sha256 : list Z → list Z := λ _, replicate 32 171.
Definition example_backend : EvmHtlcBackend :=
  {| lockCalls _ _ := ["approve"; "lock"]; claimCall _ _ := "claim"; refundCall _ := "refund" |}.
Definition swap_of (i : string) : CommonQuote :=
  if decide (i = "swap-1") then example_quote
  else mkQuote (hex_encode (replicate 32 172)) 100000 99500 (pretty (2 ^ 200 + 7))
    ("0x" +:+ hex_encode (replicate 20 18)) ("0x" +:+ hex_encode (replicate 20 7)) 1 21000000 1700000060
    12 60 ("0x" +:+ hex_encode (replicate 20 255)) (hex_encode (replicate 20 0)) 1700090000
    "aa" "bb" 512 1024 2048 "5120ac" "ark1q" "5120bb" "cc" "dd" "5120ee" true (Some "rfq-2").
