(* ===== verification/UnrolledSpend.v ===== *)
(** * Collecting the outputs a client unrolled

    [packages/solver-corridors/src/unrolledSpendStep.ts]: the co-signed L1
    claims of a send leg, one per output the client put on L1, what is left of
    the outputs adopted at funding, and how a row with such claims ends. The
    operations of the Arkade client and of the row's store are parameters, as
    they are arguments of the source's functions; a build may lack the Arkade
    ones. *)
From Stdlib Require Import Strings.Ascii.
From S2P Require Import Prelude JsString Prog SwapDb Store Lockup.

(** What the row keeps of an L1 spend between ticks. *)
Record UnrolledSpendRecord := mkSpendRecord {
  spend_txid : string;
  spend_tx : option string;
  spend_feeRate : num;
  spend_broadcastAt : Z;
  spend_cpfpTxid : option string;
  spend_cpfpTx : option string;
}.

Inductive UnrolledSpendStep :=
  | waiting
  | spent_by_another
  | closed (reason : string)
  | pending_spend (record : UnrolledSpendRecord)
  | confirmed_spend (record : UnrolledSpendRecord).

(** The steps of a row's outputs, in the order they were first recorded. *)
Definition Steps : Type := list (string * UnrolledSpendStep).

(** [JSON.stringify] and [JSON.parse] of what the rows keep as text. *)
Class Json := {
  stringifyStep : UnrolledSpendStep → string;
  stringifySteps : Steps → string;
  parseSteps : string → result Error Steps;
  stringifyOutpoints : list AdoptedOutput → string;
  parseOutpoints : string → result Error (list AdoptedOutput);
}.

Fixpoint step_of (steps : Steps) (key : string) : option UnrolledSpendStep :=
  match steps with
  | [] => None
  | (k, s) :: rest => if decide (k = key) then Some s else step_of rest key
  end.

(** [steps[key] = step] *)
Fixpoint set_step (steps : Steps) (key : string) (step : UnrolledSpendStep) : Steps :=
  match steps with
  | [] => [(key, step)]
  | (k, s) :: rest => if decide (k = key) then (k, step) :: rest else (k, s) :: set_step rest key step
  end.

(** An outpoint back from its key: [Number] of the second part. *)
Definition outpoint_of (key : string) : string * num :=
  match split ":"%char key with
  | t :: v :: _ => (t, Number v)
  | [t] => (t, NaN)
  | [] => (EmptyString, NaN)
  end.

Record UnrolledClaims := mkClaims {
  settled : bool;
  lost : list string;
  confirmed : list string;
  claims_error : option Error;
}.

(** What [claimUnrolled] says before it is done: a record it must know to be
    persisted, or its step. *)
Definition ClaimReply : Type := UnrolledSpendRecord + UnrolledSpendStep.

Section unrolled.
Context {E : Type → Type} `{Json}.
#[local] Open Scope io_scope.
#[local] Abbreviation io := (io E Error).

(** [ArkadeOps], the optional operations as they are: [claimUnrolled] is asked
    first with the output and the record kept of it, then told its record has
    been saved; it saves at most [saves] times. *)
Record UnrolledOps := mkUnrolledOps {
  findLockupOutpoints : option (string → io (list Outpoint));
  claimUnrolled : option (string * num → option UnrolledSpendRecord → io ClaimReply);
  resumeUnrolled : string * num → io ClaimReply;
  saves : nat;
  findClaimPreimage : option (Outpoint → string → io bool);
}.

(** The store's methods the steps use. *)
Record RowStore (S : Type) := mkRowStore {
  store_patch : string → fields → io unit;
  store_transition : string → S → S → fields → io bool;
  store_fail : string → S → string → io unit;
}.
Arguments store_patch {S} r.
Arguments store_transition {S} r.
Arguments store_fail {S} r.

Context {S : Type} (ops : UnrolledOps) (store : RowStore S).

(** The step of an output into the row, if it changed: the steps as they are
    then, and what the store threw. *)
Definition keep (i : string) (steps : Steps) (key : string) (step : UnrolledSpendStep)
    : io (Steps * option Error) :=
  if bool_decide (option_map stringifyStep (step_of steps key) = Some (stringifyStep step))
  then ret (steps, None)
  else let steps' := set_step steps key step in
       try_catch (store_patch store i [("unrolled_claim", Some (VText (stringifySteps steps')))] ;;;
                  ret (steps', None))
         (λ e, ret (steps', Some e)).

(** What a call answered or threw. *)
Definition caught {A} (p : io A) : io (A + Error) :=
  try_catch (a <- p ;; ret (inl a)) (λ e, ret (inr e)).

(** The conversation [claimUnrolled] has with its [save]. *)
Fixpoint converse (n : nat) (i key : string) (steps : Steps) (reply : ClaimReply)
    : io (Steps * (UnrolledSpendStep + Error)) :=
  match reply with
  | inr step => ret (steps, inl step)
  | inl record =>
      match n with
      | O => ret (steps, inr (Thrown "saved too often"))
      | Datatypes.S n =>
          kept <- keep i steps key (pending_spend record) ;;
          match kept with
          | (steps, Some e) => ret (steps, inr e)
          | (steps, None) =>
              next <- caught (resumeUnrolled ops (outpoint_of key)) ;;
              match next with
              | inl reply => converse n i key steps reply
              | inr e => ret (steps, inr e)
              end
          end
      end
  end.

(** One output's turn. *)
Definition advanceOne (claim : string * num → option UnrolledSpendRecord → io ClaimReply)
    (i key : string) (steps : Steps) : io (Steps * option Error) :=
  let advance (record : option UnrolledSpendRecord) :=
    first <- caught (claim (outpoint_of key) record) ;;
    match first with
    | inr e => ret (steps, Some e)
    | inl reply =>
        said <- converse (saves ops) i key steps reply ;;
        match said with
        | (steps, inr e) => ret (steps, Some e)
        | (steps, inl waiting) => ret (steps, None)
        | (steps, inl step) => keep i steps key step
        end
    end in
  match step_of steps key with
  | Some (confirmed_spend _) => ret (steps, None)
  | Some (pending_spend record) => advance (Some record)
  | _ => advance None
  end.

(** Every output has its turn; the first throw is kept. *)
Fixpoint advanceEach (claim : string * num → option UnrolledSpendRecord → io ClaimReply)
    (i : string) (keys : list string) (steps : Steps) (error : option Error) : io (Steps * option Error) :=
  match keys with
  | [] => ret (steps, error)
  | key :: rest =>
      turn <- advanceOne claim i key steps ;;
      let '(steps, thrown) := turn in
      advanceEach claim i rest steps (match error with Some e => Some e | None => thrown end)
  end.

(** [new Set(…)]: the first occurrence of each. *)
Fixpoint unique (seen : list string) (l : list string) : list string :=
  match l with
  | [] => []
  | x :: rest => if decide (x ∈ seen) then unique seen rest else x :: unique (x :: seen) rest
  end.

Definition lost_of (steps : Steps) (key : string) : option string :=
  match step_of steps key with
  | Some spent_by_another => Some (key +:+ " spent on L1 by a transaction that is not ours")
  | Some (closed reason) => Some (key +:+ ": " +:+ reason)
  | _ => None
  end.
Definition confirmed_of (steps : Steps) (key : string) : option string :=
  match step_of steps key with Some (confirmed_spend _) => Some key | _ => None end.

Definition claims_of (steps : Steps) (keys : list string) (error : option Error) : UnrolledClaims :=
  mkClaims
    (forallb (λ key, bool_decide (is_Some (lost_of steps key)) || bool_decide (is_Some (confirmed_of steps key))) keys)
    (omap (lost_of steps) keys) (omap (confirmed_of steps) keys) error.

Definition advanceUnrolledClaims (i pkScript : string) (unrolledClaim : option string)
    : io (option UnrolledClaims) :=
  match findLockupOutpoints ops, claimUnrolled ops with
  | Some find, Some claim =>
      steps <- match unrolledClaim with
               | None => ret []
               | Some text => match parseSteps text with Ok steps => ret steps | Err e => throw e end
               end ;;
      all <- find pkScript ;;
      let found := filter (λ o, unrolled o = true) all in
      let keys := unique [] (steps.*1 ++ (key_of <$> found)) in
      match keys with
      | [] => ret None
      | _ =>
          turns <- advanceEach claim i keys steps None ;;
          let '(steps, error) := turns in
          ret (Some (claims_of steps keys error))
      end
  | _, _ => ret None
  end.

Definition settleUnrolledClaims (i : string) (from to : S) (claims : UnrolledClaims) (recourse : string)
    : io bool :=
  if negb (settled claims) then
    match claims_error claims with Some e => throw e | None => ret false end
  else match lost claims with
  | [] => store_transition store i from to []
  | l => store_fail store i from
           ("L1 claim of the unrolled lockup lost: " +:+ join "; " l +:+ " — " +:+ recourse) ;;;
         ret false
  end.

(** The outputs of [candidates] a spend of which reveals the preimage. *)
Fixpoint revealing (find : Outpoint → string → io bool) (hash : string) (candidates : list Outpoint)
    (ours : gset string) : io (gset string) :=
  match candidates with
  | [] => ret ours
  | o :: rest =>
      found <- find o hash ;;
      revealing find hash rest (if found then {[ key_of o ]} ∪ ours else ours)
  end.

Definition spentByUs (hash : string) (outpoints : list Outpoint) (claimedOffchain : gset string)
    : io (gset string) :=
  let candidates := filter (λ o, spent o = true ∧ unrolled o = false ∧ key_of o ∉ claimedOffchain) outpoints in
  match findClaimPreimage ops with
  | None => ret (list_to_set (key_of <$> candidates))
  | Some find => revealing find hash candidates ∅
  end.

Definition lockupLeftover (pkScript paymentHash : string) (lockupOutpoints : option string)
    (claimedNow : list FundedOutput) (claims : option UnrolledClaims) : io (list string) :=
  match lockupOutpoints, findLockupOutpoints ops with
  | Some text, Some find =>
      adopted <- match parseOutpoints text with Ok l => ret l | Err e => throw e end ;;
      outpoints <- find pkScript ;;
      let claimedOffchain : gset string :=
        list_to_set ((λ o, outpointKey (txid o) (vout o)) <$> claimedNow) in
      ours <- spentByUs paymentHash outpoints claimedOffchain ;;
      ret (adopted_key <$> uncollected adopted
             (mkEvidence outpoints claimedOffchain
               (list_to_set (match claims with Some c => confirmed c | None => [] end)) ours))
  | _, _ => ret []
  end.

(** Never recorded as claimed while an adopted output is out. *)
Definition awaitLeftover (i : string) (claiming : S) (claimTxid : option string) (leftover : list string)
    (pastDeadline : bool) (recourse : string) : io bool :=
  (match claimTxid with
   | Some txid => store_patch store i [("claim_ark_txid", Some (VText txid))]
   | None => ret tt
   end) ;;;
  if negb pastDeadline
  then throw (Thrown ("swap " +:+ i +:+ ": lockup output(s) " +:+ join ", " leftover +:+ " not yet collected"))
  else store_fail store i claiming
         ("lockup output(s) " +:+ join ", " leftover +:+ " uncollected at the refund deadline — " +:+ recourse) ;;;
       ret false.
End unrolled.

(** ** Refunding an output the client unrolled *)

(** [JSON.stringify] and [parseUnrolledSpend] of one spend's record. *)
Class SpendJson := {
  stringifyRecord : UnrolledSpendRecord → string;
  parseRecord : string → result Error UnrolledSpendRecord;
}.

Section unrolled_refund.
Context {E : Type → Type} `{SpendJson} {S : Type} (store : RowStore (E := E) S).
#[local] Open Scope io_scope.
#[local] Abbreviation io := (io E Error).

(** One step of the L1 refund, into the row that kept [kept_record]. A spend
    that is not ours, or none to come, only ends the row once the preimage is
    worth nothing. *)
Definition applyUnrolledSpendStep (i : string) (kept_record : option string) (from to : S)
    (step : UnrolledSpendStep) (preimageStillUseful : bool) (recourse : string) : io bool :=
  let keep_record record :=
    if bool_decide (kept_record = Some (stringifyRecord record)) then ret tt
    else store_patch _ store i [("unrolled_refund", Some (VText (stringifyRecord record)))] in
  let abandon reason :=
    if preimageStillUseful then ret false else store_fail _ store i from reason ;;; ret false in
  match step with
  | waiting => ret false
  | pending_spend record => keep_record record ;;; ret false
  | confirmed_spend record => keep_record record ;;; store_transition _ store i from to []
  | spent_by_another => abandon "unrolled lockup spent on L1 by a transaction that is not ours; needs review"
  | closed reason => abandon ("L1 refund of the unrolled lockup refused: " +:+ reason +:+ " — " +:+ recourse)
  end.
End unrolled_refund.
