(* ===== verification/SweptRefund.v ===== *)
(** * Refunding a lockup the server swept

    [refundSweptLockupFor] of
    [packages/solver-arkade/src/arkade/sweptLockupRefund.ts], over any corridor's
    rows and any events: a refused row is refunded at once, another one only
    where the corridor can decide and close it. *)
From S2P Require Import Prelude Prog.
#[local] Open Scope Z_scope.

Record SweptRefundRecord := mkRecord {
  lockup_value : option Z;
  refund_outcome : option string;
  refund_ark_txid : option string;
}.

Inductive SweptRefundDecision := DoRefund (reason : string) | DoNot (why : string).

Inductive SweptLockupRefund :=
  | SweptPaid (swapId txid : string) (recorded : bool) (closed : bool)
  | SweptHeld (swapId : string) (why : option string).

(** [refundColumnsOnly]: the lockup's value is not a column of every corridor. *)
Definition refundColumnsOnly (f : SweptRefundRecord) : list (string * string) :=
  match refund_outcome f with Some v => [("refund_outcome", v)] | None => [] end ++
  match refund_ark_txid f with Some v => [("refund_ark_txid", v)] | None => [] end.

Section swept.
Context {E : Type → Type} {X : Type} {R Output : Type}.
#[local] Abbreviation io := (io E X).
#[local] Open Scope io_scope.

(** [SweptLockupRefundDeps], with what it reads of a row and of an output. *)
Record SweptLockupRefundDeps := mkSweptDeps {
  swept_find : string → io (option R);
  swept_outputs : string → io (list Output);
  swept_refund : R → list Output → io string;
  swept_record : R → SweptRefundRecord → io unit;
  swept_decide : option (R → io SweptRefundDecision);
  swept_close : option (R → string → io unit);
  swept_closable : R → bool;           (** its state is one of [closableStates] *)
  swept_id : R → string;
  swept_refused : R → bool;            (** its state is [refused] *)
  swept_lockupValue : R → option Z;
  swept_refundOutcome : R → option string;
  output_value : Output → Z;
}.

Context (deps : SweptLockupRefundDeps).

(** The verdict on a row: refund it at once, refund and close it, or hold it. *)
Definition sweptVerdict (row : R) : io (option string + option string) :=
  if swept_refused deps row then ret (inl None)
  else
    match swept_decide deps, swept_close deps with
    | Some decide_, Some _ =>
        if swept_closable deps row then
          decision <- decide_ row ;;
          ret (match decision with DoRefund reason => inl (Some reason) | DoNot why => inr (Some why) end)
        else ret (inr None)
    | _, _ => ret (inr None)
    end.

Definition refundSweptLockupFor (script : string) : io (option SweptLockupRefund) :=
  found <- swept_find deps script ;;
  match found with
  | None => ret None
  | Some row =>
      outputs <- swept_outputs deps script ;;
      match outputs with
      | [] => ret None
      | _ =>
          verdict <- sweptVerdict row ;;
          match verdict with
          | inr why => ret (Some (SweptHeld (swept_id deps row) why))
          | inl closing =>
              txid <- swept_refund deps row outputs ;;
              let recorded := bool_decide (swept_refundOutcome deps row = None) in
              let unvalued := bool_decide (swept_lockupValue deps row = None) in
              let fields := mkRecord
                (if unvalued then Some (foldr (λ o, Z.add (output_value deps o)) 0 outputs) else None)
                (if recorded then Some "pushed" else None)
                (if recorded then Some txid else None) in
              (if unvalued || recorded then swept_record deps row fields else ret tt) ;;;
              match closing, swept_close deps with
              | Some reason, Some close =>
                  close row reason ;;;
                  ret (Some (SweptPaid (swept_id deps row) txid recorded true))
              | _, _ => ret (Some (SweptPaid (swept_id deps row) txid recorded false))
              end
          end
      end
  end.
End swept.
