(* ===== verification/Covenant.v ===== *)
(** * The covenant swap script and its row

    What [CovenantSwapScript] ([packages/solver-arkade/src/arkade/covenant.ts])
    accepts as parameters, and [covenantScriptFromRow] ([arkade/covenantRow.ts])
    that rebuilds a script from the row a swap keeps. The taproot program itself
    is compiled by the Arkade SDK: a function of the parameters. *)
From S2P Require Import Prelude Timelocks SwapDb EvmRow Store EvmStore.
#[local] Open Scope Z_scope.

(** The parameters, [nonInteractiveParameters] included. *)
Record CovenantSwapParams := mkParams {
  receiver : list Z;
  server : list Z;
  preimageHash : list Z;
  covenantRefundLocktime : Z;
  covenantClaimDelay : Z;
  client : list Z;
  clientRefundDelay : Z;
  refundWithoutServerDelay : Z;
  emulator : list Z;
  receiverScript : list Z;
  senderScript : list Z;
  legacy : bool;
}.

(** The Arkade SDK and [ripemd160]: an address decodes to its script and the
    key of its server or is refused; a program compiles to a script and an address under a prefix and a
    server key, or is refused. *)
Class Arkade := {
  arkAddressDecode : string → option (list Z);
  arkAddressServer : string → list Z;
  vhtlcScript : CovenantSwapParams → option (list Z);
  vhtlcAddress : CovenantSwapParams → string → list Z → string;
  ripemd160 : list Z → list Z;
}.

Definition assertEncodableDelay (value : Z) : result Error unit :=
  throw_if (negb (isEncodableDelay value)) (Thrown "not an encodable delay").

(** [0x5120] and a 32-byte key. *)
Definition assertP2trPkScript (pkScript : list Z) : result Error unit :=
  throw_if (negb (bool_decide (length pkScript = 34%nat) && bool_decide (pkScript !! 0%nat = Some 81) &&
                  bool_decide (pkScript !! 1%nat = Some 32)))
    (Thrown "refund destination must be a P2TR pkScript").

Definition sameUnit (a b : Z) : bool :=
  bool_decide (unit_of (relativeDelayFrom a) = unit_of (relativeDelayFrom b)).

Section covenant.
Context `{Arkade}.

(** [new CovenantSwapScript(params)]: its [pkScript]. *)
Definition CovenantSwapScript (p : CovenantSwapParams) : result Error (list Z) :=
  _ ← match assertAbsoluteLocktime (of_Z (covenantRefundLocktime p)) "refundLocktime"
              (absoluteLocktimeUnit (covenantRefundLocktime p)) with
      | Ok _ => Ok tt | Err _ => Err (Thrown "refundLocktime")
      end;
  _ ← assertEncodableDelay (covenantClaimDelay p);
  _ ← throw_if (negb (bool_decide (length (emulator p) = 32%nat) || bool_decide (length (emulator p) = 33%nat)))
        (Thrown "emulator pubkey must be 32 or 33 bytes");
  _ ← throw_if (negb (bool_decide (length (preimageHash p) = 20%nat))) (Thrown "preimage hash must be 20 bytes");
  _ ← assertP2trPkScript (senderScript p);
  _ ← assertEncodableDelay (clientRefundDelay p);
  _ ← assertEncodableDelay (refundWithoutServerDelay p);
  _ ← throw_if (negb (sameUnit (covenantClaimDelay p) (clientRefundDelay p) &&
                      sameUnit (covenantClaimDelay p) (refundWithoutServerDelay p)))
        (Thrown "the unilateral ladder mixes units");
  _ ← assertP2trPkScript (receiverScript p);
  match vhtlcScript p with Some script => Ok script | None => Err (Thrown "covenant program") end.

(** [hex.decode] *)
Definition hexBytes (s : string) : result Error (list Z) :=
  match hex_decode s with Some bytes => Ok bytes | None => Err (Thrown "invalid hex") end.

Definition scriptHashFromPaymentHash (paymentHashHex : string) : result Error (list Z) :=
  bytes ← hexBytes paymentHashHex;
  if bool_decide (length bytes = 32%nat) then Ok (ripemd160 bytes)
  else Err (Thrown "payment hash must be 32 bytes").

Definition covenantScriptFromRow (row : CovenantScriptRow) : result Error (CovenantSwapParams * list Z) :=
  if bool_decide (cov_refundPkScript row = "") || bool_decide (cov_emulatorPubkey row = "")
  then Err (Thrown "not a covenant swap")
  else
    receiver ← hexBytes (cov_receiverPubkey row);
    server ← hexBytes (cov_serverPubkey row);
    hash ← scriptHashFromPaymentHash (cov_paymentHash row);
    client ← hexBytes (cov_clientRefundPubkey row);
    emulator ← hexBytes (cov_emulatorPubkey row);
    receiverScript ← hexBytes (cov_receiverPkScript row);
    senderScript ← hexBytes (cov_refundPkScript row);
    let p := mkParams receiver server hash (cov_refundLocktime row) (cov_claimDelay row) client
               (cov_refundWithoutReceiverDelay row) (cov_refundDelay row)
               emulator receiverScript senderScript (negb (cov_nonInteractiveParameters row)) in
    script ← CovenantSwapScript p;
    Ok (p, script).
End covenant.

(** ** What a script that was built says of its parameters *)

Lemma assertP2tr_Ok s : assertP2trPkScript s = Ok tt → length s = 34%nat.
Proof.
  unfold assertP2trPkScript. rewrite throw_if_Ok, negb_false_iff, !andb_true_iff, bool_decide_eq_true. tauto.
Qed.

Lemma CovenantSwapScript_Ok `{Arkade} p script :
  CovenantSwapScript p = Ok script →
  (length (emulator p) = 32%nat ∨ length (emulator p) = 33%nat) ∧
  length (senderScript p) = 34%nat ∧ length (receiverScript p) = 34%nat ∧ length (preimageHash p) = 20%nat ∧
  isEncodableDelay (covenantClaimDelay p) = true ∧ isEncodableDelay (clientRefundDelay p) = true ∧
  isEncodableDelay (refundWithoutServerDelay p) = true ∧
  sameUnit (covenantClaimDelay p) (clientRefundDelay p) = true ∧
  sameUnit (covenantClaimDelay p) (refundWithoutServerDelay p) = true ∧
  vhtlcScript p = Some script.
Proof.
  unfold CovenantSwapScript, assertEncodableDelay. intros Hs.
  repeat (apply bind_Ok in Hs as ([] & ? & Hs)).
  repeat match goal with
  | Hx : throw_if _ _ = Ok _ |- _ => apply throw_if_Ok, negb_false_iff in Hx
  | Hx : assertP2trPkScript _ = Ok _ |- _ => apply assertP2tr_Ok in Hx
  | Hx : (_ && _) = true |- _ => apply andb_true_iff in Hx as [? ?]
  | Hx : (_ || _) = true |- _ => apply orb_true_iff in Hx
  | Hx : bool_decide _ = true |- _ => apply bool_decide_eq_true in Hx
  end.
  rewrite !bool_decide_eq_true in *. destruct (vhtlcScript p); [|done]. simplify_eq. by split_and!.
Qed.
