(* ===== verification/Pricing.v ===== *)
(** * Pricing

    What a swap costs and how one asset converts into another: the static fee
    of a corridor ([packages/solver-core/src/core/corridorPolicy.ts]), the fee
    priced off a live estimate ([core/pricing.ts]), exact decimal prices and
    conversions ([core/priceFeed.ts]), and the layering of amount limits
    ([core/limits.ts]). Amounts in sats are below 2^53, where the doubles of the
    source are exact. *)
From Stdlib Require Import QArith_base Qround Ascii.
From S2P Require Import Prelude JsString.
#[local] Open Scope Z_scope.

(** ** The fee of a corridor *)

Record Fee := mkFee { bps : Z; flatSats : Z }.
Definition FREE : Fee := mkFee 0 0.

Definition feeSatsFor (amountSats : Z) (fee : Fee) : Z :=
  ceil_div (amountSats * bps fee) 10000 + flatSats fee.

Definition payoutSatsFor (giveSats : Z) (fee : Fee) : Z := giveSats - feeSatsFor giveSats fee.

(** [while (payoutSatsFor(give, fee) < payoutSats) give++], at most [fuel] times. *)
Fixpoint raise_give (fuel : nat) (payoutSats : Z) (fee : Fee) (give : Z) : option Z :=
  if payoutSatsFor give fee <? payoutSats then
    match fuel with O => None | S n => raise_give n payoutSats fee (give + 1) end
  else Some give.
Definition giveSatsFor (fuel : nat) (payoutSats : Z) (fee : Fee) : option Z :=
  raise_give fuel payoutSats fee (ceil_div ((payoutSats + flatSats fee) * 10000) (10000 - bps fee)).

(** ** Pricing off an estimate *)

Inductive PricingError := CapCanNeverHold.

Record NetworkFeeInputs := mkInputs {
  base : Fee;
  costSats : string * Z → option num;   (** [null], or any double *)
  cap_sats : Z;
  min_sats : Z;
}.

Definition ceil_num (n : num) : num :=
  match n with Fin q => Fin (inject_Z (Qceiling q)) | n => n end.

(** [feeNow]: the double arithmetic as the source has it; [None] when the flat
    would not be an integer. *)
Definition feeNow (inputs : NetworkFeeInputs) (pair : string) (giveSats : Z) : option Fee :=
  let known :=
    match costSats inputs (pair, giveSats) with
    | None => of_Z (flatSats (base inputs))
    | Some cost =>
        if negb (isFinite cost) || num_lt cost (of_Z 0) then of_Z (flatSats (base inputs)) else ceil_num cost
    end in
  mkFee (bps (base inputs)) <$>
    integer (num_max (of_Z (min_sats inputs)) (num_min known (of_Z (cap_sats inputs)))).

Record PricingStrategy := mkStrategy {
  payoutFor : string → Z → option Z;
  giveFor : string → Z → option Z;
}.

Definition fixedFeePricing (fuel : nat) (fee : Fee) : PricingStrategy :=
  mkStrategy (λ _ giveSats, Some (payoutSatsFor giveSats fee)) (λ _ payoutSats, giveSatsFor fuel payoutSats fee).

Definition networkFeePricing (fuel : nat) (inputs : NetworkFeeInputs) : result PricingError PricingStrategy :=
  if min_sats inputs >? cap_sats inputs then Err CapCanNeverHold
  else Ok (mkStrategy
    (λ pair giveSats, payoutSatsFor giveSats <$> feeNow inputs pair giveSats)
    (λ pair payoutSats, fee ← feeNow inputs pair payoutSats; giveSatsFor fuel payoutSats fee)).

(** ** Exact prices *)

(** [mantissa / 10 ^ scale], quote asset per whole unit of the base asset. *)
Record Price := mkPrice { mantissa : Z; scale : Z }.
Inductive Rounding := down | up.

Inductive PriceError :=
  | NotPlainDecimal | NotPositive | DecimalsOutOfRange | NegativeAmount.
#[export] Instance PriceError_eq_dec : EqDecision PriceError.
Proof. solve_decision. Defined.

(** [priceFrom] on the trimmed text of the value: [/^(\d+)(?:\.(\d+))?$/]. *)
Definition priceFrom (text : string) : result PriceError Price :=
  let '(whole, n, rest) := digits_from text 0 0 in
  if n =? 0 then Err NotPlainDecimal
  else
    let check m k := if m <=? 0 then Err NotPositive else Ok (mkPrice m k) in
    match rest with
    | EmptyString => check whole 0
    | String "."%char fraction =>
        let '(m, k, after) := digits_from fraction whole 0 in
        if (k =? 0) || negb (bool_decide (after = EmptyString)) then Err NotPlainDecimal else check m k
    | _ => Err NotPlainDecimal
    end.

Definition MAX_DECIMALS : Z := 36.
Definition checkDecimals (baseDecimals quoteDecimals : Z) : result PriceError unit :=
  throw_if (negb ((0 <=? baseDecimals) && (baseDecimals <=? MAX_DECIMALS) &&
                  (0 <=? quoteDecimals) && (quoteDecimals <=? MAX_DECIMALS))) DecimalsOutOfRange.

Definition divRound (numerator denominator : Z) (rounding : Rounding) : Z :=
  let quotient := Z.quot numerator denominator in
  match rounding with
  | up => if Z.rem numerator denominator =? 0 then quotient else quotient + 1
  | down => quotient
  end.

Definition convertAmount (baseAmount : Z) (price : Price) (baseDecimals quoteDecimals : Z)
    (rounding : Rounding) : result PriceError Z :=
  _ ← throw_if (baseAmount <? 0) NegativeAmount;
  _ ← checkDecimals baseDecimals quoteDecimals;
  Ok (divRound (baseAmount * mantissa price * 10 ^ quoteDecimals)
               (10 ^ scale price * 10 ^ baseDecimals) rounding).

Definition convertQuoteToBase (quoteAmount : Z) (price : Price) (baseDecimals quoteDecimals : Z)
    (rounding : Rounding) : result PriceError Z :=
  _ ← throw_if (quoteAmount <? 0) NegativeAmount;
  _ ← checkDecimals baseDecimals quoteDecimals;
  Ok (divRound (quoteAmount * 10 ^ scale price * 10 ^ baseDecimals)
               (mantissa price * 10 ^ quoteDecimals) rounding).

(** ** Limits *)

Record Limits := mkLimits { minSats : num; maxSats : num }.
Record Override := mkOverride { min_override : option num; max_override : option num }.
Inductive LimitError := NotPositiveFinite | EmptyRange.

Definition bad_override (v : option num) : bool :=
  match v with Some v => negb (isFinite v) || num_le v (of_Z 0) | None => false end.

Definition narrow (base : Limits) (override : Override) : result LimitError Limits :=
  _ ← throw_if (bad_override (min_override override) || bad_override (max_override override)) NotPositiveFinite;
  let low := num_max (minSats base) (default (minSats base) (min_override override)) in
  let high := num_min (maxSats base) (default (maxSats base) (max_override override)) in
  if num_lt high low then Err EmptyRange else Ok (mkLimits low high).

(** ** Exact-out quotes *)

Definition fee_ok (fee : Fee) : Prop := 0 ≤ bps fee < 10000.

(** The closed form is the least give that pays: a give pays out at least
    [payoutSats] exactly when it is not below it. *)
Lemma closed_form_exact give payoutSats fee :
  fee_ok fee →
  payoutSats ≤ payoutSatsFor give fee ↔
  ceil_div ((payoutSats + flatSats fee) * 10000) (10000 - bps fee) ≤ give.
Proof.
  intros [Hb0 Hb1]. unfold payoutSatsFor, feeSatsFor.
  pose proof (ceil_div_spec (give * bps fee) 10000 ltac:(lia)) as Hf.
  pose proof (ceil_div_spec ((payoutSats + flatSats fee) * 10000) (10000 - bps fee) ltac:(lia)) as Hg.
  set (f := ceil_div (give * bps fee) 10000) in *.
  set (g := ceil_div ((payoutSats + flatSats fee) * 10000) (10000 - bps fee)) in *.
  split; intros H; nia.
Qed.

(** Exact-out quotes are exact: for any fee below the whole amount, what a
    client is asked to give pays out at least what it asked for, one sat less
    would not, and the correction loop of [giveSatsFor] never runs — the closed
    form it starts from is already the answer. *)
Theorem giveSatsFor_least fuel payoutSats fee :
  fee_ok fee →
  ∃ give, giveSatsFor fuel payoutSats fee = Some give ∧ giveSatsFor 0 payoutSats fee = Some give ∧
    payoutSats ≤ payoutSatsFor give fee ∧ (∀ less, less < give → payoutSatsFor less fee < payoutSats).
Proof.
  intros Hf. set (give := ceil_div ((payoutSats + flatSats fee) * 10000) (10000 - bps fee)).
  assert (payoutSats ≤ payoutSatsFor give fee) as Hpay by by apply closed_form_exact.
  assert (∀ n, giveSatsFor n payoutSats fee = Some give) as Hn.
  { intros n. unfold giveSatsFor. fold give. destruct n; cbn; by rewrite (proj2 (Z.ltb_ge _ _) Hpay). }
  exists give. split_and!; [done|done|done|]. intros less Hless.
  destruct (Z.lt_ge_cases (payoutSatsFor less fee) payoutSats) as [|Hge]; [done|].
  apply closed_form_exact in Hge; [|done]. fold give in Hge. lia.
Qed.

Lemma giveSatsFor_least_witness :
  ∃ give, giveSatsFor 5 99500 (mkFee 25 150) = Some give ∧ giveSatsFor 0 99500 (mkFee 25 150) = Some give ∧
    99500 ≤ payoutSatsFor give (mkFee 25 150) ∧ (∀ less, less < give → payoutSatsFor less (mkFee 25 150) < 99500).
Proof. apply (giveSatsFor_least 5 99500 (mkFee 25 150)). unfold fee_ok. cbn. lia. Defined.

(** ** The published ceiling *)

Lemma num_min_of_Z a b : num_min (of_Z a) (of_Z b) = of_Z (Z.min a b).
Proof.
  unfold num_min. cbn [of_Z]. change (Fin (inject_Z a)) with (of_Z a). change (Fin (inject_Z b)) with (of_Z b).
  rewrite num_lt_of_Z. destruct (b <? a) eqn:H; bool_to_prop; f_equal; lia.
Qed.
Lemma num_max_of_Z a b : num_max (of_Z a) (of_Z b) = of_Z (Z.max a b).
Proof.
  unfold num_max. cbn [of_Z]. change (Fin (inject_Z a)) with (of_Z a). change (Fin (inject_Z b)) with (of_Z b).
  rewrite num_lt_of_Z. destruct (a <? b) eqn:H; bool_to_prop; f_equal; lia.
Qed.
#[export] Hint Rewrite num_min_of_Z num_max_of_Z : solver.

(** The flat charge is the known cost, clamped. *)
Lemma feeNow_spec inputs pair giveSats :
  ∃ known, feeNow inputs pair giveSats =
    Some (mkFee (bps (base inputs)) (Z.max (min_sats inputs) (Z.min known (cap_sats inputs)))) ∧
    (known = flatSats (base inputs) ∨
     ∃ q, costSats inputs (pair, giveSats) = Some (Fin q) ∧ (0 <= q)%Q ∧ known = Qceiling q).
Proof.
  unfold feeNow. destruct (costSats inputs (pair, giveSats)) as [[q| |neg]|]; cbn [isFinite negb orb];
    try (eexists; split; [autorewrite with solver; reflexivity|by left]).
  destruct (num_lt (Fin q) (of_Z 0)) eqn:Hneg.
  - eexists. split; [autorewrite with solver; reflexivity|by left].
  - exists (Qceiling q). cbn [ceil_num]. change (Fin (inject_Z (Qceiling q))) with (of_Z (Qceiling q)).
    autorewrite with solver. split; [reflexivity|right]. exists q. split_and!; [done| |done].
    cbn in Hneg. unfold Qle. cbn. bool_to_prop. lia.
Qed.

(** A published fee ceiling holds whatever the estimator says: priced off a
    live cost, the flat part of every fee stays within the configured floor and
    cap — for a missing, negative, infinite or not-a-number estimate as for a
    real one — and the spread is the configured one; a floor above the cap is
    refused when the pricing is built. *)
Theorem network_fee_capped fuel inputs :
  match networkFeePricing fuel inputs with
  | Err _ => cap_sats inputs < min_sats inputs
  | Ok strategy =>
      ∀ pair giveSats, ∃ fee,
        feeNow inputs pair giveSats = Some fee ∧ bps fee = bps (base inputs) ∧
        min_sats inputs ≤ flatSats fee ≤ cap_sats inputs ∧
        payoutFor strategy pair giveSats = Some (payoutSatsFor giveSats fee) ∧
        (fee_ok (base inputs) →
         ∃ give, giveFor strategy pair giveSats = Some give ∧ giveSats ≤ payoutSatsFor give fee)
  end.
Proof.
  unfold networkFeePricing. destruct (min_sats inputs >? cap_sats inputs) eqn:Hc; bool_to_prop; [done|].
  intros pair giveSats. destruct (feeNow_spec inputs pair giveSats) as (known & Hfee & _).
  eexists. split; [exact Hfee|]. cbn. rewrite Hfee. cbn. split_and!; [done|lia|lia|done|].
  intros Hok. set (fee := mkFee _ _).
  destruct (giveSatsFor_least fuel giveSats fee Hok) as (give & Hg & _ & Hpay & _). by exists give.
Qed.

(** ** What every pricing keeps *)

(** A corridor's fee as the configuration accepts it. *)
Definition corridor_fee (fee : Fee) : Prop := fee_ok fee ∧ 0 ≤ flatSats fee.

(** Under any fee a give pays for itself. *)
Lemma payout_below give fee : corridor_fee fee → 0 < payoutSatsFor give fee → 0 < give.
Proof.
  intros [[Hb0 Hb1] Hf]. unfold payoutSatsFor, feeSatsFor. intros Hp.
  pose proof (ceil_div_spec (give * bps fee) 10000 ltac:(lia)). nia.
Qed.

(** Whatever way round it is asked, what is paid out is within the give. *)
Class FairPricing (s : PricingStrategy) : Prop := {
  payout_within pair give payout : payoutFor s pair give = Some payout → 0 < payout → payout ≤ give;
  give_covers pair payout give : giveFor s pair payout = Some give → 0 < payout → payout ≤ give;
}.

Lemma payout_kept give payout fee : corridor_fee fee → 0 < payout → payout ≤ payoutSatsFor give fee → payout ≤ give.
Proof.
  intros Hfee Hp Hle. assert (0 < give) as Hg by (eapply payout_below; [exact Hfee|lia]).
  destruct Hfee as [[Hb0 Hb1] Hf]. unfold payoutSatsFor, feeSatsFor in Hle.
  pose proof (ceil_div_spec (give * bps fee) 10000 ltac:(lia)). nia.
Qed.
Lemma raised_pays fuel payout fee start give :
  raise_give fuel payout fee start = Some give → payout ≤ payoutSatsFor give fee.
Proof.
  revert start. induction fuel as [|n IH]; intros start; cbn [raise_give]; case_match eqn:Hlt; try done.
  - intros [= <-]. by bool_to_prop.
  - apply IH.
  - intros [= <-]. by bool_to_prop.
Qed.

#[export] Instance fixedFeePricing_fair fuel fee : corridor_fee fee → FairPricing (fixedFeePricing fuel fee).
Proof.
  intros Hfee. split; cbn.
  - intros _ give payout [= <-] Hp. by eapply payout_kept.
  - intros _ payout give Hg Hp. eapply payout_kept; [done..|]. by eapply raised_pays.
Qed.
#[export] Instance networkFeePricing_fair fuel inputs s :
  fee_ok (base inputs) → 0 ≤ min_sats inputs → networkFeePricing fuel inputs = Ok s → FairPricing s.
Proof.
  intros Hok Hmin Hs. unfold networkFeePricing in Hs. case_match; [done|]. injection Hs as <-.
  assert (∀ pair give fee, feeNow inputs pair give = Some fee → corridor_fee fee) as Hfee.
  { intros pair give fee Hf. destruct (feeNow_spec inputs pair give) as (known & Hk & _).
    rewrite Hk in Hf. injection Hf as <-. split; [done|]. cbn. lia. }
  split; cbn.
  - intros pair give payout (fee & Hf & ->)%fmap_Some Hp. eapply payout_kept; [by eapply Hfee|done|done].
  - intros pair payout give Hg Hp. apply bind_Some in Hg as (fee & Hf & Hg).
    eapply payout_kept; [by eapply Hfee|done|]. by eapply raised_pays.
Qed.

(** ** Conversions *)

Lemma divRound_bounds n d rounding :
  0 ≤ n → 0 < d →
  0 ≤ divRound n d rounding ∧
  match rounding with
  | down => d * divRound n d down ≤ n < d * (divRound n d down + 1)
  | up => d * (divRound n d up - 1) < n ≤ d * divRound n d up
  end.
Proof.
  intros Hn Hd. unfold divRound.
  pose proof (Z.quot_rem' n d). pose proof (Z.rem_bound_pos n d Hn Hd). pose proof (Z.quot_pos n d Hn Hd).
  destruct rounding; [|destruct (Z.rem n d =? 0) eqn:Hr; bool_to_prop]; split; nia.
Qed.

Definition price_ok (p : Price) : Prop := 0 < mantissa p ∧ 0 ≤ scale p.
Definition decimals_ok (n : Z) : Prop := 0 ≤ n ≤ MAX_DECIMALS.

Lemma checkDecimals_ok b q : decimals_ok b → decimals_ok q → checkDecimals b q = Ok tt.
Proof.
  unfold decimals_ok, checkDecimals. intros Hb Hq. apply throw_if_Ok, negb_false_iff.
  rewrite !andb_true_iff, !Z.leb_le. lia.
Qed.

Lemma convertAmount_ok x p b q r :
  0 ≤ x → price_ok p → decimals_ok b → decimals_ok q →
  convertAmount x p b q r = Ok (divRound (x * mantissa p * 10 ^ q) (10 ^ scale p * 10 ^ b) r).
Proof.
  intros Hx Hp Hb Hq. unfold convertAmount. rewrite (proj2 (Z.ltb_ge _ _) Hx), checkDecimals_ok by done. done.
Qed.
Lemma convertQuoteToBase_ok x p b q r :
  0 ≤ x → price_ok p → decimals_ok b → decimals_ok q →
  convertQuoteToBase x p b q r = Ok (divRound (x * 10 ^ scale p * 10 ^ b) (mantissa p * 10 ^ q) r).
Proof.
  intros Hx Hp Hb Hq. unfold convertQuoteToBase. rewrite (proj2 (Z.ltb_ge _ _) Hx), checkDecimals_ok by done. done.
Qed.

(** No conversion gives value away: at any positive price and any decimals
    a market may declare, an amount converted into the other asset and back,
    both rounded down as when the solver pays, never comes back larger; and
    what the solver pays out for an amount, rounded down, is worth at most that
    amount, short of it by less than one unit of the asset paid. *)
Theorem conversions_leak_nothing x p baseDecimals quoteDecimals :
  0 ≤ x → price_ok p → decimals_ok baseDecimals → decimals_ok quoteDecimals →
  ∃ there, convertAmount x p baseDecimals quoteDecimals down = Ok there ∧ 0 ≤ there ∧
    (∃ back, convertQuoteToBase there p baseDecimals quoteDecimals down = Ok back ∧ back ≤ x) ∧
    (∃ owed, convertQuoteToBase x p baseDecimals quoteDecimals down = Ok owed ∧
       ∃ worth, convertAmount owed p baseDecimals quoteDecimals down = Ok worth ∧ worth ≤ x) ∧
    there * (10 ^ scale p * 10 ^ baseDecimals) ≤ x * mantissa p * 10 ^ quoteDecimals
      < (there + 1) * (10 ^ scale p * 10 ^ baseDecimals).
Proof.
  intros Hx Hp Hb Hq. pose proof Hp as [Hm Hs].
  assert (0 < 10 ^ quoteDecimals) as Hqq by (apply Z.pow_pos_nonneg; [lia|apply Hq]).
  assert (0 < 10 ^ baseDecimals) as Hbb by (apply Z.pow_pos_nonneg; [lia|apply Hb]).
  assert (0 < 10 ^ scale p) as Hss by by apply Z.pow_pos_nonneg.
  set (num := mantissa p * 10 ^ quoteDecimals). set (den := 10 ^ scale p * 10 ^ baseDecimals).
  assert (0 < num) as Hn0 by (unfold num; nia). assert (0 < den) as Hd0 by (unfold den; nia).
  assert (∀ y, y * mantissa p * 10 ^ quoteDecimals = y * num) as Hnum by (intros; unfold num; lia).
  assert (∀ y, y * 10 ^ scale p * 10 ^ baseDecimals = y * den) as Hden by (intros; unfold den; lia).
  eexists. split; [by apply convertAmount_ok|]. rewrite Hnum. fold den.
  destruct (divRound_bounds (x * num) den down ltac:(nia) ltac:(done)) as [H0 Hbd].
  split; [done|]. split; [|split; [|nia]].
  - eexists. split; [by apply convertQuoteToBase_ok|]. rewrite Hden. fold num.
    destruct (divRound_bounds (divRound (x * num) den down * den) num down ltac:(nia) ltac:(done)) as [_ Hbk]. nia.
  - eexists. split; [by apply convertQuoteToBase_ok|]. rewrite Hden. fold num.
    destruct (divRound_bounds (x * den) num down ltac:(nia) ltac:(done)) as [Ho Hob].
    eexists. split; [by apply convertAmount_ok|]. rewrite Hnum. fold den.
    destruct (divRound_bounds (divRound (x * den) num down * num) den down ltac:(nia) ltac:(done)) as [_ Hw]. nia.
Qed.

Lemma conversions_leak_nothing_witness :
  ∃ there, convertAmount 99500 (mkPrice 6512345 2) 8 6 down = Ok there ∧
    ∃ back, convertQuoteToBase there (mkPrice 6512345 2) 8 6 down = Ok back ∧ back ≤ 99500.
Proof.
  destruct (conversions_leak_nothing 99500 (mkPrice 6512345 2) 8 6) as (there & Ht & _ & Hb & _);
    [lia|split; cbn; lia|unfold decimals_ok, MAX_DECIMALS; lia..|].
  exists there. split; [exact Ht|exact Hb].
Defined.

(** ** Limits only narrow *)

Lemma num_max_le a b : isFinite a = true → isFinite b = true → num_le a (num_max a b) = true ∧ isFinite (num_max a b) = true.
Proof.
  intros Ha Hb. destruct a as [a| |], b as [b| |]; try done. unfold num_max.
  destruct (num_lt (Fin a) (Fin b)) eqn:H; cbn in *; bool_to_prop; split; try done; apply Z.leb_le; lia.
Qed.
Lemma num_min_le a b : isFinite a = true → isFinite b = true → num_le (num_min a b) a = true ∧ isFinite (num_min a b) = true.
Proof.
  intros Ha Hb. destruct a as [a| |], b as [b| |]; try done. unfold num_min.
  destruct (num_lt (Fin b) (Fin a)) eqn:H; cbn in *; bool_to_prop; split; try done; apply Z.leb_le; lia.
Qed.

Lemma good_override v d : bad_override v = false → isFinite d = true → isFinite (default d v) = true.
Proof. destruct v as [v|]; [|done]. cbn. intros [Hf _]%orb_false_iff _. by apply negb_false_iff. Qed.

(** An override can only narrow: from finite limits, whatever the override —
    NaN, infinite, zero or negative included — the result is an error or limits
    inside the ones given, with an amount between them. *)
Theorem narrow_only_narrows base override :
  isFinite (minSats base) = true → isFinite (maxSats base) = true →
  match narrow base override with
  | Ok l =>
      num_le (minSats base) (minSats l) = true ∧ num_le (maxSats l) (maxSats base) = true ∧
      num_le (minSats l) (maxSats l) = true ∧ isFinite (minSats l) = true ∧ isFinite (maxSats l) = true
  | Err NotPositiveFinite => bad_override (min_override override) || bad_override (max_override override) = true
  | Err EmptyRange => bad_override (min_override override) || bad_override (max_override override) = false
  end.
Proof.
  intros Hl Hh. unfold narrow.
  destruct (bad_override (min_override override) || bad_override (max_override override)) eqn:Hbad; [done|].
  apply orb_false_iff in Hbad as [Hb1 Hb2]. cbn [throw_if mbind result_bind].
  destruct (num_max_le (minSats base) (default (minSats base) (min_override override)) Hl) as [Hm1 Hm2];
    [by apply good_override|].
  destruct (num_min_le (maxSats base) (default (maxSats base) (max_override override)) Hh) as [Hx1 Hx2];
    [by apply good_override|].
  destruct (num_lt _ _) eqn:Hlt; [done|]. cbn [minSats maxSats]. split_and!; try done. by apply num_not_lt_le.
Qed.

Lemma narrow_only_narrows_witness :
  ∃ l, narrow (mkLimits (of_Z 1000) (of_Z 1000000)) (mkOverride None (Some (of_Z 50000))) = Ok l ∧
    num_le (maxSats l) (of_Z 1000000) = true.
Proof.
  pose proof (narrow_only_narrows (mkLimits (of_Z 1000) (of_Z 1000000)) (mkOverride None (Some (of_Z 50000)))
    eq_refl eq_refl) as H.
  destruct (narrow _ _) as [l|e] eqn:Hn; [|vm_compute in Hn; discriminate].
  exists l. split; [reflexivity|apply H].
Defined.
