(* ===== verification/OnchainRail.v ===== *)
(** * The onchain rail: the HTLC, its spends and what they pay

    [packages/solver-rails/src/onchain]: the two-leaf taproot lockup
    ([htlc.ts]), the solver's refund and claim spends of it ([refund.ts],
    [claim.ts]), their sizes before any swap exists ([sizing.ts]) and the price
    of replacing a spend the mempool has not confirmed ([feeBump.ts]). Script
    encoding, taproot and transactions are of [@scure/btc-signer]: parameters.
    Rates are exact rationals where the source has doubles. *)
From Stdlib Require Import Setoid QArith Qround.
From S2P Require Import Prelude Timelocks SwapDb EvmRow Store Covenant Pricing.
#[local] Open Scope Z_scope.

(** ** The library *)

Inductive ScriptItem := Op (name : string) | Num (n : Z) | Push (bytes : list Z).

Record OnchainNetworkProfile := mkProfile {
  bech32 : string;
  pubKeyHash : Z;
  scriptHash : Z;
  wif : Z;
}.

Record TxInput := mkTxInput {
  in_txid : string;
  in_index : Z;
  in_script : list Z;
  in_amount : Z;
  in_sequence : Z;
  in_leaf : option (list Z * list Z);       (** control block, leaf and its version *)
}.
Record TxOutput := mkTxOutput { out_script : list Z; out_amount : Z }.
Record Transaction := mkTx { lockTime : option Z; inputs : list TxInput; outputs : list TxOutput }.

(** A taproot payment: its address, its script, and the control block of each
    leaf, the leaf followed by its version byte. *)
Record P2TR := mkP2TR { p2tr_address : string; p2tr_script : list Z; tapLeafScript : list (list Z * list Z) }.

Class BtcSigner := {
  scriptEncode : list ScriptItem → list Z;
  p2tr : list (list Z) → OnchainNetworkProfile → P2TR;
  vsizeWith : Transaction → list (list Z) → positive;     (** of input 0 with this witness *)
}.

(** ** [htlc.ts] *)

Inductive SwapNetwork := bitcoin | mutinynet | signet | regtest_network.
#[export] Instance SwapNetwork_dec : EqDecision SwapNetwork.
Proof. solve_decision. Defined.

Definition ONCHAIN_NETWORKS (n : SwapNetwork) : OnchainNetworkProfile :=
  match n with
  | bitcoin => mkProfile "bc" 0 5 128
  | mutinynet | signet => mkProfile "tb" 111 196 239
  | regtest_network => mkProfile "bcrt" 111 196 239
  end.

Record OnchainHtlcParams := mkHtlcParams {
  htlc_network : OnchainNetworkProfile;
  htlc_paymentHash : string;
  htlc_claimPubkey : list Z;
  htlc_refundPubkey : list Z;
  htlc_refundLocktime : Z;
}.

Record OnchainHtlc := mkHtlc {
  address : string;
  pkScript : list Z;
  claimScript : list Z;
  refundScript : list Z;
  claimControlBlock : list Z;
  refundControlBlock : list Z;
  paymentHash : string;
  refundLocktime : Z;
}.

Definition assertXOnlyKey (key : list Z) (label : string) : result Error unit :=
  throw_if (negb (bool_decide (length key = 32%nat))) (Thrown (label +:+ " must be a 32-byte x-only pubkey")).

Section htlc.
Context `{BtcSigner, Arkade}.

Definition claimLeafScript (hash160 claimPubkey : list Z) : list Z :=
  scriptEncode [Op "SIZE"; Num 32; Op "EQUALVERIFY"; Op "HASH160"; Push hash160; Op "EQUALVERIFY";
                Push claimPubkey; Op "CHECKSIG"].
Definition refundLeafScript (locktime : Z) (refundPubkey : list Z) : list Z :=
  scriptEncode [Num locktime; Op "CHECKLOCKTIMEVERIFY"; Op "DROP"; Push refundPubkey; Op "CHECKSIG"].

(** The control block of the leaf, its version byte aside. *)
Definition controlBlockFor (payment : P2TR) (leaf : list Z) : result Error (list Z) :=
  match list_find (λ p : list Z * list Z, (length p.2 = S (length leaf)) ∧ take (length leaf) p.2 = leaf) (tapLeafScript payment) with
  | Some (_, (block, _)) => Ok block
  | None => Err (Thrown "leaf missing from compiled taproot tree")
  end.

Definition buildOnchainHtlc (p : OnchainHtlcParams) : result Error OnchainHtlc :=
  hash160 ← scriptHashFromPaymentHash (htlc_paymentHash p);
  _ ← assertXOnlyKey (htlc_claimPubkey p) "claimPubkey";
  _ ← assertXOnlyKey (htlc_refundPubkey p) "refundPubkey";
  _ ← match assertAbsoluteLocktime (of_Z (htlc_refundLocktime p)) "refundLocktime" seconds with
      | Ok _ => Ok tt | Err _ => Err (Thrown "refundLocktime")
      end;
  let claim := claimLeafScript hash160 (htlc_claimPubkey p) in
  let refund := refundLeafScript (htlc_refundLocktime p) (htlc_refundPubkey p) in
  let payment := p2tr [claim; refund] (htlc_network p) in
  claimBlock ← controlBlockFor payment claim;
  refundBlock ← controlBlockFor payment refund;
  Ok (mkHtlc (p2tr_address payment) (p2tr_script payment) claim refund claimBlock refundBlock
        (htlc_paymentHash p) (htlc_refundLocktime p)).

(** ** [refund.ts], [claim.ts] *)

(** [RefundTxParams] and [ClaimTxParams], the latter with the preimage. *)
Record SpendTxParams := mkSpendParams {
  sp_htlc : OnchainHtlc;
  fundingTxid : string;
  fundingVout : Z;
  fundingValueSats : Z;
  destinationScript : list Z;
  payoutAmountSats : Z;
}.

Definition LEAF_VERSION : Z := 192.

(** RBF-enabled and non-final. *)
Definition leafInput (p : SpendTxParams) (leaf controlBlock : list Z) : TxInput :=
  mkTxInput (fundingTxid p) (fundingVout p) (pkScript (sp_htlc p)) (fundingValueSats p) 4294967293
    (Some (controlBlock, leaf ++ [LEAF_VERSION])).

Definition buildOnchainRefundTx (p : SpendTxParams) : Transaction :=
  mkTx (Some (refundLocktime (sp_htlc p)))
    [leafInput p (refundScript (sp_htlc p)) (refundControlBlock (sp_htlc p))]
    [mkTxOutput (destinationScript p) (payoutAmountSats p)].

(** A DEFAULT-sighash signature, as the sizing takes it. *)
Definition dummySignature : list Z := replicate 64 0.

Definition estimateRefundTxVsize (p : SpendTxParams) : positive :=
  vsizeWith (buildOnchainRefundTx p)
    [dummySignature; refundScript (sp_htlc p); refundControlBlock (sp_htlc p)].

Definition buildOnchainClaimTx (p : SpendTxParams) : Transaction :=
  mkTx None
    [leafInput p (claimScript (sp_htlc p)) (claimControlBlock (sp_htlc p))]
    [mkTxOutput (destinationScript p) (payoutAmountSats p)].

Definition estimateClaimTxVsize (p : SpendTxParams) (preimage : list Z) : positive :=
  vsizeWith (buildOnchainClaimTx p)
    [dummySignature; preimage; claimScript (sp_htlc p); claimControlBlock (sp_htlc p)].

(** ** [sizing.ts] *)

Definition PLACEHOLDER_PAYMENT_HASH : string := hex_encode (replicate 32 0).
Definition PLACEHOLDER_TXID : string := hex_encode (replicate 32 255).
Definition PLACEHOLDER_KEY : list Z := replicate 32 0.
Definition PLACEHOLDER_LOCKTIME : Z := 1700000000.

Definition placeholderHtlc (network : OnchainNetworkProfile) : result Error OnchainHtlc :=
  buildOnchainHtlc (mkHtlcParams network PLACEHOLDER_PAYMENT_HASH PLACEHOLDER_KEY PLACEHOLDER_KEY PLACEHOLDER_LOCKTIME).

Definition placeholderSpend (htlc : OnchainHtlc) (destination : list Z) : SpendTxParams :=
  mkSpendParams htlc PLACEHOLDER_TXID 0 100000 destination 100000.

Definition claimSpendVsize (network : OnchainNetworkProfile) (destination : list Z) : result Error positive :=
  htlc ← placeholderHtlc network;
  Ok (estimateClaimTxVsize (placeholderSpend htlc destination) (replicate 32 0)).

Definition refundSpendVsize (network : OnchainNetworkProfile) (destination : list Z) : result Error positive :=
  htlc ← placeholderHtlc network;
  Ok (estimateRefundTxVsize (placeholderSpend htlc destination)).

Definition fundingTxVsize (network : OnchainNetworkProfile) (changeScript : list Z) : result Error positive :=
  htlc ← placeholderHtlc network;
  Ok (vsizeWith
    (mkTx None [mkTxInput PLACEHOLDER_TXID 0 (pkScript htlc) 1000000 4294967293 None]
      [mkTxOutput (pkScript htlc) 100000; mkTxOutput changeScript 800000])
    [dummySignature]).
End htlc.

(** ** [feeBump.ts] *)

Definition FEE_BUMP_INTERVAL_SECONDS : Z := 20 * 60.
Definition FEE_BUMP_ALL_IN_SECONDS : Z := 2 * FEE_BUMP_INTERVAL_SECONDS.
Definition FEE_BUMP_RAMP_SECONDS : Z := 6 * FEE_BUMP_INTERVAL_SECONDS.
Definition MIN_RELAY_FEE_RATE : Z := 1.

Definition bumpDue (broadcastAt now : Z) : bool := FEE_BUMP_INTERVAL_SECONDS <=? now - broadcastAt.

(** Arithmetic on what gets this far: a finite number or NaN. *)
Definition num_map2 (f : Q → Q → Q) (a b : num) : num :=
  match a, b with Fin p, Fin q => Fin (f p q) | _, _ => NaN end.
Definition num_mul : num → num → num := num_map2 Qmult.
Definition num_div : num → num → num := num_map2 Qdiv.
Definition num_sub : num → num → num := num_map2 Qminus.
Definition num_scale (p : positive) (n : num) : num :=
  match n with Fin q => Fin (inject_Z (Zpos p) * q)%Q | n => n end.

Section rates.
(** [x ** p], which the language leaves approximate. *)
Context (power : num → num → num).

Definition rampProgress (left_ : Z) : num :=
  num_div (of_Z (FEE_BUMP_RAMP_SECONDS - left_)) (of_Z (FEE_BUMP_RAMP_SECONDS - FEE_BUMP_ALL_IN_SECONDS)).

Definition urgencyFeeRate (estimateRate capRate : num) (deadline now : Z) : num :=
  let estimate := num_max estimateRate (of_Z MIN_RELAY_FEE_RATE) in
  let left_ := deadline - now in
  if num_le capRate estimate || (left_ <=? FEE_BUMP_ALL_IN_SECONDS) then capRate
  else if FEE_BUMP_RAMP_SECONDS <=? left_ then estimate
  else num_mul estimate (power (num_div capRate estimate) (rampProgress left_)).
End rates.

(** The rate that spends all of an output but the dust. *)
Definition feeCapRate (vsize : positive) (valueSats dustSats : Z) : num := Fin ((valueSats - dustSats) # vsize).

(** [null] when not even the cap relays. *)
Definition affordableFee (vsize : positive) (feeRate : num) (valueSats dustSats : Z) : option num :=
  let cap := valueSats - dustSats in
  if cap <? Zpos vsize * MIN_RELAY_FEE_RATE then None
  else Some (num_min (ceil_num (num_scale vsize feeRate)) (of_Z cap)).

(** ** What a spend pays *)

(** What the language does promise of [x ** p]: between [1] and [x]. *)
Definition interpolates (power : num → num → num) : Prop :=
  ∀ x p, (1 <= x)%Q → (0 <= p <= 1)%Q → ∃ y, power (Fin x) (Fin p) = Fin y ∧ (1 <= y <= x)%Q.

Lemma num_le_Qle p q : num_le (Fin p) (Fin q) = true ↔ (p <= q)%Q.
Proof. cbn. rewrite Z.leb_le. done. Qed.
Lemma num_lt_Qlt p q : num_lt (Fin p) (Fin q) = true ↔ (p < q)%Q.
Proof. cbn. rewrite Z.ltb_lt. done. Qed.

Lemma num_max_spec p q : ∃ x, num_max (Fin p) (Fin q) = Fin x ∧ (p <= x)%Q ∧ (q <= x)%Q ∧ (x = p ∨ x = q).
Proof.
  cbn [num_max]. destruct (num_lt (Fin p) (Fin q)) eqn:H.
  - apply num_lt_Qlt in H. exists q. split_and!; [done|by apply Qlt_le_weak|apply Qle_refl|by right].
  - exists p. split_and!; [done|apply Qle_refl| |by left]. apply Qnot_lt_le. intros Hlt. by rewrite (proj2 (num_lt_Qlt p q) Hlt) in H.
Qed.

Lemma rampProgress_unit left_ :
  FEE_BUMP_ALL_IN_SECONDS < left_ < FEE_BUMP_RAMP_SECONDS →
  ∃ p, rampProgress left_ = Fin p ∧ (0 <= p <= 1)%Q.
Proof.
  unfold rampProgress, FEE_BUMP_ALL_IN_SECONDS, FEE_BUMP_RAMP_SECONDS, FEE_BUMP_INTERVAL_SECONDS. intros Hl.
  eexists. split; [done|]. assert (0 < 6 * (20 * 60) - left_ < 4800) as Hd by lia.
  revert Hd. generalize (6 * (20 * 60) - left_). intros d Hd.
  split; [apply Qle_shift_div_l|apply Qle_shift_div_r]; try done; unfold Qle; cbn; lia.
Qed.

(** The rate of a version: no less than what was estimated, or the cap; never
    more than the cap. *)
Lemma urgencyFeeRate_between power estimate cap deadline now :
  interpolates power →
  ∃ e x, num_max (Fin estimate) (of_Z MIN_RELAY_FEE_RATE) = Fin e ∧
    urgencyFeeRate power (Fin estimate) (Fin cap) deadline now = Fin x ∧ (x <= cap)%Q ∧ (e <= x ∨ x = cap)%Q ∧
    (deadline - now ≤ FEE_BUMP_ALL_IN_SECONDS → x = cap).
Proof.
  intros Hp. unfold urgencyFeeRate. destruct (num_max_spec estimate (inject_Z MIN_RELAY_FEE_RATE)) as (e & He & _ & H1 & _).
  change (of_Z MIN_RELAY_FEE_RATE) with (Fin (inject_Z MIN_RELAY_FEE_RATE)) in *. rewrite He. exists e.
  destruct (num_le (Fin cap) (Fin e)) eqn:Hc; cbn [orb].
  { exists cap. split_and!; [done..|apply Qle_refl|by right|done]. }
  assert (e < cap)%Q as Hlt.
  { apply Qnot_le_lt. intros Hle. by rewrite (proj2 (num_le_Qle cap e) Hle) in Hc. }
  destruct (Z.leb_spec (deadline - now) FEE_BUMP_ALL_IN_SECONDS) as [Hin|Hin].
  { exists cap. split_and!; [done..|apply Qle_refl|by right|done]. }
  destruct (Z.leb_spec FEE_BUMP_RAMP_SECONDS (deadline - now)) as [Hr|Hr].
  { exists e. split_and!; [done..|by apply Qlt_le_weak|left; apply Qle_refl|lia]. }
  assert (0 < e)%Q as He0 by (by eapply Qlt_le_trans; [|exact H1]).
  destruct (rampProgress_unit (deadline - now)) as (p & -> & Hpu); [lia|].
  destruct (Hp (cap / e)%Q p) as (y & Hy & Hy1 & Hy2); [|done|].
  { apply Qle_shift_div_l; [done|]. rewrite Qmult_1_l. by apply Qlt_le_weak. }
  exists (e * y)%Q. change (num_div (Fin cap) (Fin e)) with (Fin (cap / e)). rewrite Hy. split_and!; [done..| | |lia].
  - rewrite <- (Qmult_div_r cap e); [|by intros Hz; rewrite Hz in He0]. by apply Qmult_le_l.
  - left. rewrite <- (Qmult_1_r e) at 1. by apply Qmult_le_l.
Qed.

Lemma Qceiling_scale (vsize : positive) (c : Z) x :
  (x <= c # vsize)%Q → Qceiling (inject_Z (Zpos vsize) * x) ≤ c.
Proof.
  intros Hx. rewrite <- (Qceiling_Z c). apply Qceiling_resp_le.
  assert (inject_Z c == inject_Z (Zpos vsize) * (c # vsize))%Q as -> by (unfold Qeq; cbn; lia).
  by apply Qmult_le_l.
Qed.

Lemma Qceiling_relay (vsize : positive) x : (1 <= x)%Q → Zpos vsize ≤ Qceiling (inject_Z (Zpos vsize) * x).
Proof.
  intros Hx. rewrite <- (Qceiling_Z (Zpos vsize)) at 1. apply Qceiling_resp_le.
  rewrite <- (Qmult_1_r (inject_Z (Zpos vsize))) at 1. by apply Qmult_le_l.
Qed.

(** Every version of a spend pays at least the relay minimum and leaves at
    least the dust; none is built only when even all but the dust would not
    relay; and from forty minutes before the deadline on, it pays everything but
    the dust. *)
Theorem replacement_pays_for_its_deadline power vsize value dust estimate deadline now :
  interpolates power →
  match affordableFee vsize
          (urgencyFeeRate power (Fin estimate) (feeCapRate vsize value dust) deadline now) value dust with
  | None => value - dust < Zpos vsize
  | Some fee => ∃ z, fee = of_Z z ∧ Zpos vsize ≤ z ≤ value - dust ∧
      (deadline - now ≤ FEE_BUMP_ALL_IN_SECONDS → z = value - dust)
  end.
Proof.
  intros Hp. unfold affordableFee, MIN_RELAY_FEE_RATE. rewrite Z.mul_1_r.
  destruct (Z.ltb_spec (value - dust) (Zpos vsize)) as [Hc|Hc]; [done|].
  destruct (urgencyFeeRate_between power estimate ((value - dust) # vsize) deadline now Hp)
    as (e & x & He & Hx & Hxc & Hxe & Hin).
  unfold feeCapRate. rewrite Hx. cbn [num_scale ceil_num].
  change (Fin (inject_Z ?z)) with (of_Z z). rewrite num_min_of_Z.
  exists (Qceiling (inject_Z (Zpos vsize) * x)). pose proof (Qceiling_scale vsize _ x Hxc) as Hle.
  split; [by rewrite Z.min_l|].
  assert (1 <= x)%Q as H1.
  { destruct Hxe as [Hxe| ->]; [|unfold Qle; cbn; lia]. eapply Qle_trans; [|exact Hxe].
    destruct (num_max_spec estimate (inject_Z 1)) as (e' & He' & _ & H1 & _).
    change (num_max (Fin estimate) (Fin (inject_Z 1)) = Fin e) in He. rewrite He' in He. by injection He as ->. }
  split; [split; [by apply Qceiling_relay|done]|].
  intros Hd. rewrite (Hin Hd) in *. rewrite <- (Qceiling_Z (value - dust)) at 2. apply Qceiling_comp.
  unfold Qeq. cbn. lia.
Qed.

(** Interpolating linearly: with 300 minutes left the estimate, at the end
    everything but the dust. *)
Definition linear_power (a b : num) : num :=
  match a, b with Fin x, Fin p => Fin (1 + (x - 1) * p)%Q | _, _ => NaN end.
Lemma linear_interpolates : interpolates linear_power.
Proof.
  intros x p Hx [Hp0 Hp1]. eexists. split; [done|].
  assert (0 <= x - 1)%Q as Hx1 by (by apply Qle_minus_iff in Hx).
  split.
  - rewrite <- (Qplus_0_r 1) at 1. apply Qplus_le_r. by apply Qmult_le_0_compat.
  - assert (x == 1 + (x - 1) * 1)%Q as Hx2 by ring. rewrite Hx2 at 2. apply Qplus_le_r.
    rewrite !(Qmult_comm (x - 1)). by apply Qmult_le_compat_r.
Qed.

Lemma replacement_pays_for_its_deadline_witness :
  ∃ z, affordableFee 123 (urgencyFeeRate linear_power (of_Z 2) (feeCapRate 123 50000 330) 1700007200 1700005000) 50000 330
         = Some (of_Z z) ∧ z = 49670.
Proof.
  pose proof (replacement_pays_for_its_deadline linear_power 123 50000 330 2 1700007200 1700005000 linear_interpolates) as H.
  change (of_Z 2) with (Fin (inject_Z 2)). change (Fin 2) with (Fin (inject_Z 2)) in H.
  destruct (affordableFee _ _ _ _) as [fee|]; [|by vm_compute in H].
  destruct H as (z & -> & _ & Hz). exists z. split; [done|]. apply Hz. by vm_compute.
Defined.

(** ** What a spend weighs

    [sizing.ts] sizes a spend before its swap exists, off a representative one:
    what it takes of the bitcoin library is that sizes depend on lengths alone. *)

Definition same_width (a b : ScriptItem) : Prop :=
  match a, b with
  | Op x, Op y => x = y
  | Num n, Num m => n = m ∨ 2 ^ 23 ≤ n < 2 ^ 31 ∧ 2 ^ 23 ≤ m < 2 ^ 31     (** four bytes *)
  | Push x, Push y => length x = length y
  | _, _ => False
  end.
Definition tx_shape (t : Transaction) : nat * list nat :=
  (length (inputs t), (λ o, length (out_script o)) <$> outputs t).

Class Sized (signer : BtcSigner) : Prop := {
  vsize_shape t t' w w' :
    tx_shape t = tx_shape t' → length <$> w = length <$> w' → vsizeWith t w = vsizeWith t' w';
  script_shape l l' : Forall2 same_width l l' → length (scriptEncode l) = length (scriptEncode l');
  two_leaves a b n : Forall (λ l, length l.1 = 65%nat) (tapLeafScript (p2tr [a; b] n));
}.

Section sized.
Context `{signer : BtcSigner, Arkade, !Sized signer}.

Lemma controlBlockFor_Ok a b n leaf block : controlBlockFor (p2tr [a; b] n) leaf = Ok block → length block = 65%nat.
Proof.
  unfold controlBlockFor. destruct (list_find _ _) as [[i [block' leaf']]|] eqn:Hf; [|done]. intros [= ->].
  apply list_find_Some in Hf as (Hl & _). pose proof (two_leaves a b n) as Hall. rewrite Forall_lookup in Hall.
  exact (Hall _ _ Hl).
Qed.

Lemma buildOnchainHtlc_Ok p htlc :
  buildOnchainHtlc p = Ok htlc →
  length (htlc_refundPubkey p) = 32%nat ∧ LOCKTIME_THRESHOLD ≤ htlc_refundLocktime p ∧
  refundScript htlc = refundLeafScript (htlc_refundLocktime p) (htlc_refundPubkey p) ∧
  length (refundControlBlock htlc) = 65%nat.
Proof.
  unfold buildOnchainHtlc. intros Hb.
  apply bind_Ok in Hb as (h & _ & Hb). apply bind_Ok in Hb as (_ & _ & Hb). apply bind_Ok in Hb as ([] & Hk & Hb).
  apply bind_Ok in Hb as ([] & Hl & Hb). apply bind_Ok in Hb as (cb & _ & Hb). apply bind_Ok in Hb as (rb & Hrb & [= <-]).
  unfold assertXOnlyKey in Hk. apply throw_if_Ok in Hk. bool_to_prop.
  destruct (assertAbsoluteLocktime _ _ _) as [[]|] eqn:Hs; [|done]. apply assert_seconds_Ok in Hs.
  apply bool_decide_eq_true_1 in Hk. split_and!; [done|done|done|by eapply controlBlockFor_Ok].
Qed.

(** The refund of any HTLC that lapses before 2038 is of the size taken off the
    representative one. *)
Lemma refund_size_is_known p htlc network destination txid vout value sats v :
  buildOnchainHtlc p = Ok htlc → htlc_refundLocktime p < 2 ^ 31 → refundSpendVsize network destination = Ok v →
  estimateRefundTxVsize (mkSpendParams htlc txid vout value destination sats) = v.
Proof.
  intros Hp Hlt Hv. unfold refundSpendVsize in Hv. apply bind_Ok in Hv as (sample & Hs & [= <-]).
  destruct (buildOnchainHtlc_Ok _ _ Hp) as (Hk & Hl & Hr & Hb).
  destruct (buildOnchainHtlc_Ok _ _ Hs) as (Hk' & _ & Hr' & Hb').
  apply vsize_shape; [done|]. cbn. rewrite Hr, Hr', Hb, Hb'. do 2 f_equal.
  apply script_shape.
  constructor; [cbn; right; unfold LOCKTIME_THRESHOLD, PLACEHOLDER_LOCKTIME in *; lia|].
  do 2 (constructor; [done|]). constructor; [cbn in *; by rewrite Hk|]. by repeat constructor.
Qed.
End sized.

(** A fee can be afforded exactly when all but the dust relays. *)
Lemma affordable_iff vsize rate value dust :
  affordableFee vsize rate value dust ≠ None ↔ dust + Zpos vsize ≤ value.
Proof.
  unfold affordableFee, MIN_RELAY_FEE_RATE. rewrite Z.mul_1_r. destruct (Z.ltb_spec (value - dust) (Zpos vsize)); split; done || lia.
Qed.

Example bumps :
  affordableFee 123 (urgencyFeeRate linear_power (of_Z 2) (feeCapRate 123 50000 330) 1700018000 1700000000) 50000 330 = Some (of_Z 246) ∧
  affordableFee 123 (of_Z 9) 400 330 = None ∧ bumpDue 0 1200 = true.
Proof. by vm_compute. Qed.
