(* ===== verification/LnSendService.v ===== *)
(** * The Lightning send service

    [SendSwapService] of
    [packages/solver-corridors/src/send/orchestrator.ts]: a client locks BTC on
    Arkade, the solver pays the client's invoice and claims the lockup with the
    preimage the payment reveals. One tick of a row event by event, the refund
    sweep and the refund of a swept lockup. *)
From S2P Require Import Prelude Timelocks SendPolicy StateMachine Prog SwapDb EvmRow Invoice Store Corridor World ChainClock Lockup UnrolledSpend SweptRefund BaseStore LnSendStore.
#[local] Open Scope Z_scope.

(** ** The ports: [ports/lightning.ts], [arkade/arkadeOps.ts] *)

Inductive PaymentStatus := payment_pending | payment_succeeded | payment_failed.
Inductive PaymentEvidence := no_record | in_flight | terminal.
#[export] Instance PaymentEvidence_dec : EqDecision PaymentEvidence.
Proof. solve_decision. Defined.

Record PaymentResult := mkPaymentResult {
  payment_id : string;
  status : PaymentStatus;
  evidence : option PaymentEvidence;
  failureReason : option string;
  result_preimage : option string;
  feePaidSats : option Z;
}.

Inductive SendHtlcStatus := committed | htlc_settled | returned.
Record SendHtlcState := mkHtlc { htlc_status : SendHtlcStatus; htlc_preimage : option string }.

Record PayInvoiceParams := mkPay {
  pay_invoice : string;
  maxFeeSats : Z;
  idempotencyKey : string;
  maxCltvBlocks : Z;
}.

(** What the corridor reads off a coupled receive row. *)
Record CoupledReceiveRow := mkCoupled {
  coupled_state : LnReceive.state;
  coupled_invoice : string;
  coupled_refundLocktime : Z;
  coupled_pkScript : string;
  htlcExpiresAt : option Z;
  fundStartedAt : option Z;
  invoiceWalletFingerprint : option string;
  invoiceBackendName : option string;
}.

(** [unilateralExitRecourse]: what the parked row tells an operator. *)
Class Recourse := recourse : SendRow → string.

Inductive read : Type → Type :=
  | FindLockups (script : string) : read (list FundedOutput)
  | FindSweptLockups (script : string) : read (list FundedOutput)
  | LockupProvablySpent (script : string) : read bool
  | SpendEvidence (script : string) : read LockupSpendEvidence
  | FindLockupOutpoints (script : string) : read (list Outpoint)
  | CoupledOutpoints (script : string) : read (list (string * Z))
  | FindClaimPreimage (outpoints : list (string * Z)) (hash : string) : read (option (list Z))
  | ChainTip : read Z
  | GetPayment (id : string) : read PaymentResult
  | GetSendHtlcState (hash : string) : read (option SendHtlcState)
  | GetOwnInvoiceState (hash : string) : read (option HoldStatus)
  | GetKnownInvoiceState (hash : string) : read (option HoldStatus)
  | WalletFingerprint : read string
  | LiveReceive (hash : string) : read (option CoupledReceiveRow)
  | ReceiveByPaymentHash (hash : string) : read (option CoupledReceiveRow)
  | Approval (i : string) (sats : Z) : read bool
  | ShouldSkipTick (i : string) : read bool
  | DecideSwept (i : string) (hash : string) : read SweptRefundDecision.

#[export] Instance read_approvals : Approvals read := Approval.
#[export] Instance read_tip : ChainTipProvider read := ChainTip.
Abbreviation asks := (World.asks (Read := read)).

(** The requests that cannot be taken back, each with the row it is made for. *)
Inductive LnSendEffect :=
  | PayInvoice (i : string) (p : PayInvoiceParams)
  | ClaimLockup (i : string) (outputs : list FundedOutput) (preimage : string)
  | FinalizePendingClaim (i : string) (preimage : string)
  | ClaimUnrolled (i : string) (output : string * num) (record : option UnrolledSpendRecord) (preimage : string)
  | ResumeUnrolled (i : string) (output : string * num) (preimage : string)
  | RefundLockup (i : string) (outputs : list FundedOutput)
  | RefundSwept (i : string) (outputs : list FundedOutput).

#[export] Instance LnSendReplies : Replies LnSendEffect := λ a,
  match a with
  | PayInvoice _ _ => PaymentResult
  | ClaimLockup _ _ _ | RefundLockup _ _ | RefundSwept _ _ => string
  | FinalizePendingClaim _ _ => option string
  | ClaimUnrolled _ _ _ _ | ResumeUnrolled _ _ _ => ClaimReply
  end.

(** [SendServiceDeps]: what is configured, which optional operations the
    backends have, and how often [claimUnrolled] may save. *)
Record LnSendDeps := mkLnSendDeps {
  providerPubkey : string;
  backendName : option string;
  regtest : bool;
  lockupTimeout : Z;
  sendHintScidDenylist : gset string;
  dep_routeCltvBudgetBlocks : Z;
  dep_enforcesRouteCltv : bool;
  approvalGate : bool;
  coupling : bool;
  chainTip : bool;
  probesHtlcState : bool;
  probesOwnInvoice : bool;
  probesKnownInvoice : bool;
  namesWallet : bool;
  readsOutpoints : bool;
  claimsUnrolled : bool;
  readsClaimPreimage : bool;
  finalizesClaims : bool;
  refundsSwept : bool;
  savesPerClaim : nat;
}.

Definition DEADLINE_SECONDS_PURPOSE : string := "size the remaining claim window".
Definition ORPHANED_REGISTRATION_SECONDS : Z := 3600.
Definition NO_RECORD_GRACE_SECONDS : Z := 60.
Definition RECONCILABLE_SWEPT_STATES : list LnSend.state := [LnSend.paying; LnSend.paid; LnSend.stuck].
Definition HOT_STATES : list LnSend.state := [LnSend.paying; LnSend.paid].

Definition MIN_ROUTING_FEE_CAP_SATS : Z := 25.
(** [Math.ceil(amountSats * 0.005)]: exact for every amount of sats there is. *)
Definition maxRoutingFeeSats (amountSats : Z) : Z :=
  Z.max MIN_ROUTING_FEE_CAP_SATS (ceil_div amountSats 200).

Definition evidence_text (e : PaymentEvidence) : string :=
  match e with no_record => "no_record" | in_flight => "in_flight" | terminal => "terminal" end.

Inductive SelfPaymentVerdict := resolved | withhold | not_ours | unknown.

Definition stuckBecause (refunded : bool) (verdict : SelfPaymentVerdict) : string :=
  match verdict, refunded with
  | withhold, _ => "refund withheld — our own node may still collect against this hash"
  | _, false => "the refund did not land — see refund_attempt"
  | _, true => "client refunded, but the self-payment probe could not be asked"
  end.

Definition payment_refusal_text (reason : SendPaymentRefusal) : string :=
  match reason with
  | invoice_expired => "invoice_expired"
  | invoice_expires_too_soon => "invoice_expires_too_soon"
  | claim_window_too_short => "claim_window_too_short"
  | SendPolicy.cltv_budget_too_short => "cltv_budget_too_short"
  | uncapped_route_deadline_too_short => "uncapped_route_deadline_too_short"
  | lockup_insufficient => "lockup_insufficient"
  end.

Section ln_send.
Context (sha256 : list Z → list Z) `{Bolt11Decoder, Recourse, Json} (deps : LnSendDeps) (self : nat).
#[local] Open Scope io_scope.
#[local] Abbreviation row := SendRow.
#[local] Abbreviation event := (evt LnSend.state SendQuote LnSendEffect read).
#[local] Abbreviation io := (io event Error).

Definition payInvoice (i : string) (p : PayInvoiceParams) : io PaymentResult := request (PayInvoice i p).
Definition claim (i : string) (outputs : list FundedOutput) (preimage : string) : io string :=
  request (ClaimLockup i outputs preimage).
Definition finalizePendingClaim (i preimage : string) : io (option string) :=
  request (FinalizePendingClaim i preimage).
Definition refund (i : string) (outputs : list FundedOutput) : io string := request (RefundLockup i outputs).
Definition refundSwept (i : string) (outputs : list FundedOutput) : io string := request (RefundSwept i outputs).

(** [decodeInvoice] under the deployment's denylist. *)
Definition decodeError (e : InvalidInvoice) : Error := Thrown (invalid_text e).
Definition decoding (raw : string) : io DecodedInvoice :=
  lifted decodeError (decodeInvoice (sendHintScidDenylist deps) raw).

(** [patch(…).catch(report)] *)
Definition reporting (i : string) (p : io unit) : io unit :=
  try_catch p (λ e, onTickError i e).

(** [walletFingerprint?.().catch(() => undefined)] *)
Definition fingerprint : io (option string) :=
  if namesWallet deps
  then try_catch (w <- asks WalletFingerprint ;; ret (Some w)) (λ _, ret None)
  else ret None.

(** ** Refunds *)

Definition pushRefund (r : row) : io bool :=
  outputs <- asks (FindLockups (pkScript (quote r))) ;;
  match outputs with
  | [] =>
      spent <- asks (LockupProvablySpent (pkScript (quote r))) ;;
      (if spent then patch (row_id r) (set_text "refund_outcome" "external") else ret tt) ;;;
      ret false
  | _ =>
      txid <- refund (row_id r) outputs ;;
      at_ <- now ;;
      let all := (length (boundedSpendInputs outputs at_) =? length outputs)%nat in
      patch (row_id r) (if all then set_text "refund_outcome" "pushed" ++ set_text "refund_ark_txid" txid
                        else set_text "refund_ark_txid" txid) ;;;
      ret true
  end.

Definition refundRefused (r : row) : io (option string) :=
  if default 0 (int_col r "lockup_value") <=? 0 then ret None
  else try_catch (pushed <- pushRefund r ;; ret (if pushed then Some (row_id r) else None))
         (λ e, onTickError (row_id r) e ;;; ret None).

Definition refundSweep : io (list string) :=
  at_ <- now ;;
  refundable <- findRefundable at_ ;;
  for_each refundable refundRefused.

(** The Arkade half of [refundAfterTerminalFailure]: the refund on the wire and
    whether it took every output, or nothing. *)
Definition tryRefund (r : row) : io (option (string * bool)) :=
  try_catch
    (outputs <- asks (FindLockups (pkScript (quote r))) ;;
     match outputs with
     | [] =>
         reporting (row_id r) (patch (row_id r) (set_text "refund_attempt" "nothing-at-script")) ;;;
         ret None
     | _ =>
         txid <- refund (row_id r) outputs ;;
         at_ <- now ;;
         ret (Some (txid, (length (boundedSpendInputs outputs at_) =? length outputs)%nat))
     end)
    (λ e,
      try_catch (patch (row_id r)
        (set_text "refund_attempt" (String.substring 0 500 ("failed: " +:+ message e)))) (λ _, ret tt) ;;;
      onTickError (row_id r) e ;;;
      ret None).

Definition refundAfterTerminalFailure (r : row) : io bool :=
  refunded <- tryRefund r ;;
  match refunded with
  | None => ret false
  | Some (txid, all) =>
      try_catch
        (patch (row_id r)
          ((if all then set_text "refund_outcome" "pushed" else []) ++
           set_text "refund_ark_txid" txid ++ set_text "refund_attempt" "pushed"))
        (λ e, onTickError (row_id r)
          (Thrown ("refund " +:+ txid +:+ " broadcast but could not be recorded: " +:+ message e))) ;;;
      ret true
  end.

Definition refundProvenSelfPayment (r : row) (from : LnSend.state) : io SelfPaymentVerdict :=
  probe <- (if probesOwnInvoice deps
            then try_catch (own <- asks (GetOwnInvoiceState (paymentHash (quote r))) ;; ret (Some own))
                   (λ _, ret None)
            else ret None) ;;
  match probe with
  | None => ret unknown
  | Some None => ret not_ours
  | Some (Some (hold_pending | cancelled)) =>
      won <- transition (row_id r) from LnSend.refused
        (set_text "failure_reason" "self-payment failed terminally; our own node says it was never paid") ;;
      if negb won then ret withhold
      else match clientRefundPubkey (quote r) with
      | None => ret resolved
      | Some _ =>
          try_catch (pushRefund r ;;; ret tt) (λ e, onTickError (row_id r) e) ;;;
          ret resolved
      end
  | Some (Some _) => ret withhold
  end.

Definition settleTerminalFailure (r : row) (from : LnSend.state) (refunded : bool)
    (verdict : SelfPaymentVerdict) : io unit :=
  match verdict, refunded with
  | not_ours, true =>
      transition (row_id r) from LnSend.refused
        (set_text "failure_reason" "lightning payment failed terminally; client refunded") ;;;
      ret tt
  | _, _ =>
      fail (row_id r) from ("lightning payment failed terminally; " +:+ stuckBecause refunded verdict)
  end.

(** A payment that failed terminally: probe, refund unless vetoed, close. *)
Definition whenPaymentFailed (r : row) (from : LnSend.state) : io unit :=
  verdict <- refundProvenSelfPayment r from ;;
  match verdict with
  | resolved => ret tt
  | withhold => settleTerminalFailure r from false withhold
  | _ => refunded <- refundAfterTerminalFailure r ;; settleTerminalFailure r from refunded verdict
  end.

(** ** Claiming *)

Definition claimWithPreimage (i hash preimage : string) (from : LnSend.state) : io bool :=
  if preimageMatchesHash sha256 preimage hash
  then transition i from LnSend.claiming (set_text "preimage" preimage)
  else fail i from "preimage does not match the payment hash" ;;; ret false.

(** What the poll says that the row does not say yet. *)
Definition recordPoll (r : row) (polled : PaymentResult) : io unit :=
  (match evidence polled with
   | Some e => if bool_decide (text_col r "payment_evidence" = Some (evidence_text e)) then ret tt
               else patch (row_id r) (set_text "payment_evidence" (evidence_text e))
   | None => ret tt
   end) ;;;
  (match failureReason polled with
   | Some why => if bool_decide (text_col r "payment_failure_reason" = Some why) then ret tt
                 else patch (row_id r) (set_text "payment_failure_reason" why)
   | None => ret tt
   end) ;;;
  match feePaidSats polled with
  | Some fee => if bool_decide (int_col r "routing_fee_paid_sats" = Some fee) then ret tt
                else patch (row_id r) (set_int "routing_fee_paid_sats" fee)
  | None => ret tt
  end.

(** A [failed] with no record yet may still be executing. *)
Definition insideGrace (r : row) : io bool :=
  match int_col r "pay_attempted_at" with
  | Some attempted => at_ <- now ;; ret (at_ - attempted <? NO_RECORD_GRACE_SECONDS)
  | None => ret false
  end.

Definition settleFromBackend (r : row) (from : LnSend.state) : io bool :=
  match truthy (text_col r "payment_id") with
  | None =>
      match truthy (text_col r "preimage") with
      | Some preimage => claimWithPreimage (row_id r) (paymentHash (quote r)) preimage LnSend.paid
      | None => ret false
      end
  | Some id =>
      polled <- asks (GetPayment id) ;;
      recordPoll r polled ;;;
      match status polled with
      | payment_failed =>
          early <- (if bool_decide (evidence polled = Some no_record) then insideGrace r else ret false) ;;
          if early then ret false
          else whenPaymentFailed r from ;;; ret false
      | _ =>
          moved <- (if bool_decide (from = LnSend.paying)
                    then transition (row_id r) LnSend.paying LnSend.paid [] else ret true) ;;
          if negb moved then ret false
          else match truthy (result_preimage polled) with
          | None => ret (bool_decide (from = LnSend.paying))
          | Some preimage => claimWithPreimage (row_id r) (paymentHash (quote r)) preimage LnSend.paid
          end
      end
  end.

(** ** Paying *)

(** The outputs that expire last, until they cover the funding. *)
Definition expires_later (a b : FundedOutput) : bool :=
  match expiresAt a, expiresAt b with
  | None, _ => true
  | Some _, None => false
  | Some x, Some y => y <=? x
  end.
Fixpoint coveredDeadline (funded covered deadline : Z) (outputs : list FundedOutput) : Z :=
  match outputs with
  | [] => deadline
  | o :: rest =>
      if funded <=? covered then deadline
      else coveredDeadline funded (covered + value o)
             (match expiresAt o with Some e => Z.min deadline e | None => deadline end) rest
  end.

Definition payDeadline (r : row) (refundDeadline : Z) : io Z :=
  outputs <- asks (FindLockups (pkScript (quote r))) ;;
  let held := totalValue outputs in
  let funded := default held (int_col r "lockup_value") in
  if bool_decide (outputs = []) || (held <? funded) then now
  else if regtest deps then ret refundDeadline
  else ret (coveredDeadline funded 0 refundDeadline (order_by expires_later outputs)).

Definition cltv_of (d : DecodedInvoice) : HtlcCltv :=
  mkHtlcCltv (decoded_minFinalCltvBlocks d) (decoded_worstRouteHintCltvBlocks d)
    (decoded_bestRouteHintCltvBlocks d) (dep_routeCltvBudgetBlocks deps) (dep_enforcesRouteCltv deps).

Definition soloRefundCovered (r : row) (refundDeadline : Z) : bool :=
  refundWithoutReceiverDelayCovers (refundWithoutReceiverDelay (quote r))
    (default refundDeadline (quotedRefundDeadline (quote r))) (created_at r).

Definition refuseUnsubmittedPayment (r : row) (detail : string) : io unit :=
  won <- transition (row_id r) LnSend.paying LnSend.refused
    (set_text "failure_reason" ("refused before Lightning submission: " +:+ detail)) ;;
  if won then refundAfterTerminalFailure r ;;; ret tt else ret tt.

(** A gate of [submitPayment] that does not pass. *)
Definition refuseToPay (r : row) (nothingCommitted : bool) (reason : string) : io bool :=
  (if nothingCommitted
   then transition (row_id r) (state r) LnSend.refused (set_text "failure_reason" reason) ;;; ret tt
   else fail (row_id r) (state r) reason) ;;;
  ret false.

(** The gates in front of [payInvoice]: what to pay with, or that it was refused. *)
Definition payGates (r : row) (nothingCommitted : bool) : io (option PayInvoiceParams) :=
  let refuse reason := refuseToPay r nothingCommitted reason ;;; ret None in
  match truthy (text_col r "idempotency_key") with
  | None => fail (row_id r) (state r) "paying state with no idempotency key" ;;; ret None
  | Some key =>
      if negb (providerKeyCurrent (receiverPubkey (quote r)) (providerPubkey deps))
      then refuse "refused to pay: provider key rotated since quote"
      else
      refundDeadline <- refundDeadlineSeconds (chainTip deps) (refundLocktime (quote r)) DEADLINE_SECONDS_PURPOSE ;;
      if negb (soloRefundCovered r refundDeadline)
      then refuse "refused to pay: client_solo_refund_too_soon"
      else
      decoded <- decoding (invoice (quote r)) ;;
      let cltv := cltv_of decoded in
      deadline <- payDeadline r refundDeadline ;;
      contained <- (if dep_enforcesRouteCltv deps then ret true
                    else at_ <- now ;; ret (deadlineContainsHtlc cltv deadline at_)) ;;
      if negb contained then refuse "refused to pay: uncapped_route_deadline_too_short"
      else
      at_ <- now ;;
      let blocks := payableCltvBlocks cltv deadline at_ in
      if blocks <=? SendPolicy.minFinalCltvBlocks cltv + hintCltvBlocks cltv
      then refuse "refused to pay: cltv_budget_too_short"
      else ret (Some (mkPay (invoice (quote r))
             (default (maxRoutingFeeSats (decoded_amountSats decoded)) (quotedRoutingFeeSats (quote r)))
             key blocks))
  end.

Definition recordPayment (r : row) (paid : PaymentResult) : io unit :=
  wallet <- fingerprint ;;
  at_ <- now ;;
  patch (row_id r)
    (set_text "payment_id" (payment_id paid) ++ set_int "pay_attempted_at" at_ ++
     set_if "payment_backend" (truthy (backendName deps)) ++ set_if "payment_wallet" (truthy wallet) ++
     match feePaidSats paid with Some fee => set_int "routing_fee_paid_sats" fee | None => [] end).

Definition submitPayment (r : row) (nothingCommitted : bool) : io bool :=
  gates <- payGates r nothingCommitted ;;
  match gates with
  | None => ret false
  | Some params =>
      submitted <- try_catch (paid <- payInvoice (row_id r) params ;; ret (Some paid))
        (λ e, match e with
              | PaymentNotStarted detail =>
                  if nothingCommitted then refuseUnsubmittedPayment r detail ;;; ret None else throw e
              | _ => throw e
              end) ;;
      match submitted with
      | None => ret false
      | Some paid =>
          recordPayment r paid ;;;
          match status paid with
          | payment_failed => whenPaymentFailed r LnSend.paying ;;; ret false
          | _ =>
              moved <- transition (row_id r) LnSend.paying LnSend.paid (set_text "payment_id" (payment_id paid)) ;;
              if negb moved then ret false
              else match truthy (result_preimage paid) with
              | Some preimage =>
                  claimWithPreimage (row_id r) (paymentHash (quote r)) preimage LnSend.paid ;;; ret true
              | None => ret true
              end
          end
      end
  end.

Definition recoverCommitted (r : row) (htlc : SendHtlcState) : io bool :=
  match htlc_status htlc with
  | htlc_settled =>
      match truthy (htlc_preimage htlc) with
      | None =>
          fail (row_id r) LnSend.paying "backend settled the payment but reported no preimage" ;;; ret false
      | Some preimage =>
          moved <- transition (row_id r) LnSend.paying LnSend.paid (set_text "preimage" preimage) ;;
          if negb moved then ret false
          else claimWithPreimage (row_id r) (paymentHash (quote r)) preimage LnSend.paid
      end
  | returned =>
      verdict <- refundProvenSelfPayment r LnSend.paying ;;
      match verdict with
      | resolved => ret false
      | _ =>
          (match verdict with
           | withhold => ret tt
           | _ => refundAfterTerminalFailure r ;;; ret tt
           end) ;;;
          fail (row_id r) LnSend.paying "lightning payment returned by the backend" ;;;
          ret false
      end
  | committed => ret false
  end.

Definition whenHashBlocked (r : row) (e : Error) : io bool :=
  match int_col r "pay_attempted_at" with
  | None => throw e
  | Some since =>
      at_ <- now ;;
      if at_ - since <? ORPHANED_REGISTRATION_SECONDS then throw e
      else fail (row_id r) LnSend.paying
             ("orphaned registration: " +:+ message e +:+
              ", yet it reports no commitment for this hash — unpayable and unclearable by retrying. Read the wallet transfers before refunding or claiming.") ;;;
           ret false
  end.

(** A name on the row that is not the one in use. *)
Definition foreign (recorded live : option string) : bool :=
  match truthy recorded, truthy live with Some a, Some b => bool_decide (a ≠ b) | _, _ => false end.

Definition whenPaying (r : row) : io bool :=
  match truthy (text_col r "payment_id") with
  | Some _ => settleFromBackend r LnSend.paying
  | None =>
      liveWallet <- fingerprint ;;
      if foreign (text_col r "payment_backend") (backendName deps) ||
         foreign (text_col r "payment_wallet") liveWallet
      then fail (row_id r) LnSend.paying
             ("refused to re-submit: payment attempted on " +:+
              default "?" (text_col r "payment_backend") +:+ "/" +:+ default "?" (text_col r "payment_wallet") +:+
              ", now on " +:+ default "?" (backendName deps) +:+ "/" +:+ default "?" liveWallet +:+
              "; a payment there is invisible here — reconcile before retry") ;;;
           ret false
      else
      htlc <- (if probesHtlcState deps then asks (GetSendHtlcState (paymentHash (quote r))) else ret None) ;;
      match htlc with
      | Some htlc => recoverCommitted r htlc
      | None =>
          early <- (if probesHtlcState deps then insideGrace r else ret false) ;;
          if early then ret false
          else try_catch (submitPayment r (probesHtlcState deps))
                 (λ e, match e with
                       | PaymentHashRegistered _ =>
                           if probesHtlcState deps then whenHashBlocked r e else throw e
                       | _ => throw e
                       end)
      end
  end.

(** ** Funding *)

Definition funding_of (o : FundedOutput) : Funding := mkFunding (txid o) (vout o) (value o).
Definition adopted_of (o : FundedOutput) : AdoptedOutput := mkAdopted (txid o) (vout o) (value o).

Definition recordFundedFail (r : row) (value : Z) (reason : string) : io bool :=
  patch (row_id r) (set_int "lockup_value" value) ;;;
  fail (row_id r) LnSend.quoted reason ;;;
  ret false.

Definition whenQuoted (r : row) : io bool :=
  all <- asks (FindLockups (pkScript (quote r))) ;;
  let outputs := satsOutputs all in
  let locked := totalValue outputs in
  let held := totalValue all in
  let amount := amountSats (quote r) in
  at_ <- now ;;
  let timedOut := lockupDeadlineFor (created_at r) (invoiceExpiresAt (quote r)) (lockupTimeout deps) <=? at_ in
  at_ <- now ;;
  let expired := invoiceExpiresAt (quote r) <=? at_ in
  if amount <? locked then
    recordFundedFail r locked
      ("overfunded lockup: " +:+ pretty locked +:+ " > " +:+ pretty amount +:+ " sats")
  else if (locked =? amount) && (MAX_LOCKUP_SPEND_INPUTS <? length outputs)%nat then
    recordFundedFail r locked
      ("lockup funded in " +:+ pretty (length outputs) +:+ " outputs, over " +:+ pretty MAX_LOCKUP_SPEND_INPUTS)
  else if (locked <? amount) && (amount <=? held) then
    recordFundedFail r held
      ("lockup funded on an asset vtxo a claim cannot spend: " +:+ pretty held +:+ " held, " +:+
       pretty locked +:+ " spendable")
  else if (locked =? amount) && negb timedOut && negb expired then
    noteFundings (row_id r) (funding_of <$> outputs) ;;;
    transition (row_id r) LnSend.quoted LnSend.funded
      [("lockup_txid", option_map (λ o, VText (txid o)) (head outputs));
       ("lockup_vout", option_map (λ o, VInt (vout o)) (head outputs));
       ("lockup_value", Some (VInt locked));
       ("lockup_outpoints", Some (VText (stringifyOutpoints (adopted_of <$> outputs))))]
  else if timedOut || expired then
    (if 0 <? held then patch (row_id r) (set_int "lockup_value" held) else ret tt) ;;;
    fail (row_id r) LnSend.quoted
      (if expired then "invoice expired before funding completed"
       else if amount <=? locked then "lockup arrived after the funding deadline"
       else if 0 <? locked then "lockup timeout with partial " +:+ pretty locked +:+ " sats"
       else "lockup timeout") ;;;
    ret false
  else ret false.

(** The coupled row is still live: collect with the preimage its client revealed. *)
Definition collectCoupled (r : row) (coupled : CoupledReceiveRow) : io bool :=
  match htlcExpiresAt coupled with
  | Some _ =>
      fail (row_id r) LnSend.funded "refused to collect: receive took a real htlc" ;;; ret false
  | None =>
      outpoints <- asks (CoupledOutpoints (coupled_pkScript coupled)) ;;
      preimage <- (if bool_decide (outpoints = []) then ret None
                   else asks (FindClaimPreimage outpoints (paymentHash (quote r)))) ;;
      match preimage with
      | None => ret false
      | Some p => claimWithPreimage (row_id r) (paymentHash (quote r)) (hex_encode p) LnSend.funded
      end
  end.

(** The state of the failed receive's own invoice, when this node may say. *)
Definition ownInvoiceState (r : row) (failed : CoupledReceiveRow) : io (option (option HoldStatus)) :=
  if probesOwnInvoice deps then
    own <- asks (GetOwnInvoiceState (paymentHash (quote r))) ;; ret (Some own)
  else
    currentWallet <- (if namesWallet deps then w <- asks WalletFingerprint ;; ret (Some w) else ret None) ;;
    match truthy (invoiceWalletFingerprint failed), truthy currentWallet,
          truthy (invoiceBackendName failed) with
    | Some issuedBy, Some current, Some through =>
        if bool_decide (issuedBy = current) && bool_decide (backendName deps = Some through)
        then own <- asks (GetKnownInvoiceState (paymentHash (quote r))) ;; ret (Some own)
        else onTickError (row_id r) (Thrown "coupled refund blocked: invoice wallet or backend identity unavailable or changed") ;;;
             ret None
    | _, _, _ =>
        onTickError (row_id r) (Thrown "coupled refund blocked: invoice wallet or backend identity unavailable or changed") ;;;
        ret None
    end.

(** The coupled receive was refused before it was funded: refund the client,
    once our own node says its invoice took nothing. *)
Definition refundCoupled (r : row) (failed : CoupledReceiveRow) : io bool :=
  if bool_decide (is_Some (fundStartedAt failed)) || bool_decide (is_Some (htlcExpiresAt failed)) then ret false
  else if negb (probesOwnInvoice deps) && negb (probesKnownInvoice deps) then
    onTickError (row_id r) (Thrown "coupled refund blocked: Lightning backend cannot probe its own invoice") ;;;
    ret false
  else
  own <- ownInvoiceState r failed ;;
  match own with
  | Some (Some (hold_pending | cancelled)) =>
      won <- transition (row_id r) LnSend.funded LnSend.refused
        (set_text "failure_reason" "coupled receive refused before funding; client refund pending") ;;
      (if won then refundAfterTerminalFailure r ;;; ret tt else ret tt) ;;;
      ret false
  | _ => ret false
  end.

Definition sameInvoice (a b : string) : bool := bool_decide (toLowerCase a = toLowerCase b).

(** Neither collected nor refunded through a coupling: pay, if every gate holds. *)
Definition payFunded (r : row) (refundDeadline : Z) : io bool :=
  decoded <- decoding (invoice (quote r)) ;;
  deadline <- payDeadline r refundDeadline ;;
  at_ <- now ;;
  match evaluateSendPayment (mkPayment (invoiceExpiresAt (quote r)) deadline
          (of_Z (default 0 (int_col r "lockup_value"))) (of_Z (amountSats (quote r))) (cltv_of decoded) at_) with
  | RefusePayment reason =>
      fail (row_id r) LnSend.funded ("refused to pay: " +:+ payment_refusal_text reason) ;;; ret false
  | Pay =>
      approved <- askApproval (approvalGate deps) (row_id r) (amountSats (quote r)) ;;
      if negb approved then ret false
      else
      wallet <- fingerprint ;;
      at_ <- now ;;
      won <- transition (row_id r) LnSend.funded LnSend.paying
        (set_int "pay_attempted_at" at_ ++
         set_text "idempotency_key" ("swap-" +:+ paymentHash (quote r)) ++
         set_if "payment_backend" (truthy (backendName deps)) ++ set_if "payment_wallet" (truthy wallet)) ;;
      if negb won then ret false
      else current <- get (row_id r) ;; submitPayment current true
  end.

Definition whenFunded (r : row) : io bool :=
  if negb (providerKeyCurrent (receiverPubkey (quote r)) (providerPubkey deps)) then
    fail (row_id r) LnSend.funded "provider key rotated since quote; refusing to pay an unclaimable lockup" ;;;
    ret false
  else
  refundDeadline <- refundDeadlineSeconds (chainTip deps) (refundLocktime (quote r)) DEADLINE_SECONDS_PURPOSE ;;
  if negb (soloRefundCovered r refundDeadline) then
    fail (row_id r) LnSend.funded "refused to proceed: client solo refund opens before the quoted refund" ;;;
    ret false
  else
  coupled <- (if coupling deps then asks (LiveReceive (paymentHash (quote r))) else ret None) ;;
  match coupled with
  | Some coupled => collectCoupled r coupled
  | None =>
      failed <- (if coupling deps then asks (ReceiveByPaymentHash (paymentHash (quote r))) else ret None) ;;
      match failed with
      | Some failed =>
          if sameInvoice (coupled_invoice failed) (invoice (quote r)) && bool_decide (coupled_state failed = LnReceive.refused)
          then refundCoupled r failed
          else payFunded r refundDeadline
      | None => payFunded r refundDeadline
      end
  end.

(** ** Collecting *)

(** What [unrolledSpendStep] takes: the Arkade operations this build has, for
    one row, and the row's store. *)
Definition unrolledOps (i preimage : string) : UnrolledOps (E := event) :=
  {| findLockupOutpoints := if readsOutpoints deps then Some (λ script, asks (FindLockupOutpoints script)) else None;
     claimUnrolled :=
       if claimsUnrolled deps
       then Some (λ output record, request (ClaimUnrolled i output record preimage)) else None;
     resumeUnrolled output := request (ResumeUnrolled i output preimage);
     saves := savesPerClaim deps;
     findClaimPreimage :=
       if readsClaimPreimage deps
       then Some (λ o hash, found <- asks (FindClaimPreimage [(op_txid o, op_vout o)] hash) ;;
                            ret (bool_decide (is_Some (found : option (list Z)))))
       else None |}.
Definition rowStore : RowStore (E := event) LnSend.state :=
  {| store_patch := patch; store_transition := transition; store_fail := fail |}.

(** Nothing to claim with certainty: a provable spend or the deadline decides. *)
Definition whenShort (r : row) (held : Z) (preimage : string) : io bool :=
  evidence <- asks (SpendEvidence (pkScript (quote r))) ;;
  early <- (if bool_decide (evidence = evidence_spent) then ret false
            else reached <- refundDeadlineReached (chainTip deps) (refundLocktime (quote r)) ;; ret (negb reached)) ;;
  if early then
    throw (Thrown ("swap " +:+ row_id r +:+ ": lockup holds " +:+ pretty held +:+ " < " +:+
                   pretty (amountSats (quote r)) +:+ " while claiming but no spend is provable (" +:+ lockup_evidence_text evidence +:+ ")"))
  else
  pending <- (if bool_decide (evidence = evidence_spent) && finalizesClaims deps
              then finalizePendingClaim (row_id r) preimage else ret None) ;;
  match truthy pending with
  | Some txid => transition (row_id r) LnSend.claiming LnSend.claimed (set_text "claim_ark_txid" txid)
  | None =>
      fail (row_id r) LnSend.claiming
        ("lockup holds " +:+ pretty held +:+ " < amount " +:+ pretty (amountSats (quote r)) +:+
         " while claiming; no claim txid recorded; needs review") ;;;
      ret false
  end.

(** The collaborative claim: its transaction, none needed, or a row handed over
    because it keeps failing past the deadline. *)
Definition claimOffchain (r : row) (outputs : list FundedOutput) (preimage : string)
    : io (option string + unit) :=
  try_catch
    (if bool_decide (outputs = []) then ret (inl None)
     else txid <- claim (row_id r) outputs preimage ;; ret (inl (Some txid)))
    (λ e,
      reached <- refundDeadlineReached (chainTip deps) (refundLocktime (quote r)) ;;
      if reached then
        fail (row_id r) LnSend.claiming
          ("claim failing past the refund deadline: " +:+ message e +:+ " — " +:+ recourse r) ;;;
        ret (inr tt)
      else throw e).

(** The outputs adopted at funding that are still out once all claims are settled. *)
Definition leftoverNow (r : row) (outputs : list FundedOutput) (preimage : string) (txid : option string)
    (unrolled : option UnrolledClaims) : io (list string) :=
  if match unrolled with None => true | Some c => settled c end then
    claimedNow <- match txid with
                  | None => ret []
                  | Some _ => at_ <- now ;; ret (boundedSpendInputs outputs at_)
                  end ;;
    lockupLeftover (unrolledOps (row_id r) preimage) (pkScript (quote r)) (paymentHash (quote r))
      (text_col r "lockup_outpoints") claimedNow unrolled
  else ret [].

Definition finishClaim (r : row) (outputs : list FundedOutput) (preimage : string) (txid : option string)
    (unrolled : option UnrolledClaims) : io bool :=
  leftover <- leftoverNow r outputs preimage txid unrolled ;;
  if negb (bool_decide (leftover = [])) then
    pastDeadline <- refundDeadlineReached (chainTip deps) (refundLocktime (quote r)) ;;
    awaitLeftover rowStore (row_id r) LnSend.claiming txid leftover pastDeadline (recourse r)
  else match unrolled with
  | None =>
      transition (row_id r) LnSend.claiming LnSend.claimed
        [("claim_ark_txid", option_map VText txid)] ;;;
      ret false
  | Some claims =>
      (match txid with Some txid => patch (row_id r) (set_text "claim_ark_txid" txid) | None => ret tt end) ;;;
      settleUnrolledClaims rowStore (row_id r) LnSend.claiming LnSend.claimed claims (recourse r)
  end.

Definition whenClaiming (r : row) : io bool :=
  match truthy (text_col r "preimage") with
  | None => fail (row_id r) LnSend.claiming "claiming state with no preimage" ;;; ret false
  | Some preimage =>
      all <- asks (FindLockups (pkScript (quote r))) ;;
      let outputs := claimOutputs all (amountSats (quote r)) in
      unrolled <- advanceUnrolledClaims (unrolledOps (row_id r) preimage) rowStore (row_id r)
                    (pkScript (quote r)) (text_col r "unrolled_claim") ;;
      let held := totalValue outputs in
      if (held <? amountSats (quote r)) && bool_decide (unrolled = None) then whenShort r held preimage
      else
      claimed <- claimOffchain r outputs preimage ;;
      match claimed with
      | inr _ => ret false
      | inl txid => finishClaim r outputs preimage txid unrolled
      end
  end.

(** ** Ticks and sweeps *)

Definition step (r : row) : io bool :=
  match state r with
  | LnSend.quoted => whenQuoted r
  | LnSend.funded => whenFunded r
  | LnSend.paying => whenPaying r
  | LnSend.paid => settleFromBackend r LnSend.paid
  | LnSend.claiming => whenClaiming r
  | _ => ret false
  end.

Definition tick (fuel : nat) (i : string) : io row := guardedTick fuel self i step.

Definition held_off (i : string) : io bool :=
  skip <- asks (ShouldSkipTick i) ;;
  if skip then ret true else call (InFlight self i).

Definition driveRows (fuel : nat) (l : list row) : io (list row) := sweep held_off l (tick fuel).
Definition tickAll (fuel : nat) : io (list row) := live <- findRecoverable ;; driveRows fuel live.
Definition tickHot (fuel : nat) : io (list row) := hot <- findByStates HOT_STATES ;; driveRows fuel hot.

(** What this corridor gives [refundSweptLockupFor]; [verdict]: the caller can
    decide on a row that is not refused. *)
Definition sweptDeps (verdict : bool) : SweptLockupRefundDeps (E := event) (X := Error) (R := row) (Output := FundedOutput) :=
  {| swept_find := findByPkScript;
     swept_outputs script := asks (FindSweptLockups script);
     swept_refund r outputs := refundSwept (row_id r) outputs;
     swept_record r f := patch (row_id r)
       (match lockup_value f with Some v => set_int "lockup_value" v | None => [] end ++
        set_if "refund_outcome" (refund_outcome f) ++ set_if "refund_ark_txid" (refund_ark_txid f));
     swept_decide := if verdict then Some (λ r, asks (DecideSwept (row_id r) (paymentHash (quote r)))) else None;
     swept_close := Some (λ r reason,
       transition (row_id r) (state r) LnSend.refused (set_text "failure_reason" reason) ;;; ret tt);
     swept_closable r := bool_decide (state r ∈ RECONCILABLE_SWEPT_STATES);
     swept_id := row_id;
     swept_refused r := bool_decide (state r = LnSend.refused);
     swept_lockupValue r := int_col r "lockup_value";
     swept_refundOutcome r := text_col r "refund_outcome";
     output_value := value |}.

Definition refundSweptLockup (verdict : bool) (script : string) : io (option SweptLockupRefund) :=
  if refundsSwept deps then refundSweptLockupFor (sweptDeps verdict) script else ret None.
End ln_send.
