(* ===== verification/LnReceiveService.v ===== *)
(** * The Lightning receive service

    [ReceiveSwapService] of
    [packages/solver-corridors/src/receive/orchestrator.ts]: a payer's HTLC is
    held on a hash the client chose, the solver funds its own Arkade lockup for
    the client, reads the preimage off the client's claim and settles the HTLC
    with it, or takes the lockup back. With it the funding of a lockup
    ([receive/fundLockup.ts]), the preimage reader ([receive/lockupPreimage.ts])
    and the refund of [receive/arkadeOps.ts]. One tick of a row event by event,
    and the operator's refund. *)
From Stdlib Require Import Strings.Ascii.
From S2P Require Import Prelude JsString Timelocks SendPolicy ReceivePolicy StateMachine Prog SwapDb EvmRow Store Corridor World ChainClock Lockup LockupFunding UnrolledSpend BaseStore LnReceiveStore Covenant.
#[local] Open Scope Z_scope.

(** ** The ports: [ports/lightning.ts], [arkade/arkadeOps.ts] *)

Record HoldState := mkHold { hold_status : HoldStatus; hold_expiresAt : option Z }.
#[export] Instance HoldStatus_dec : EqDecision HoldStatus.
Proof. solve_decision. Defined.

(** What this leg reads off a coupled send row. *)
Record CoupledSendRow := mkCoupledSend {
  send_state : LnSend.state;
  send_pkScript : string;
  send_amountSats : Z;
  send_refundLocktime : Z;
  send_refundWithoutReceiverDelay : Z;
  send_createdAt : Z;
}.

(** An outpoint of a lockup, spent ones included. *)
Record ReceiveOutpoint := mkReceiveOutpoint { ro_lockup : LockupOutpoint; ro_unrolled : bool }.
Definition ro_txid (o : ReceiveOutpoint) : string := lo_txid (ro_lockup o).
Definition ro_vout (o : ReceiveOutpoint) : Z := lo_vout (ro_lockup o).

(** What a funding carries for covclaimd, [ClaimPacketStamp]. *)
Record ClaimPacketStamp := mkStamp { stamp_packet : list Z; stamp_tapTree : list Z }.

Inductive read : Type → Type :=
  | GetHoldState (hash : string) : read HoldState
  | LiveSend (hash : string) : read (option CoupledSendRow)
  | FindLockups (script : string) : read (list FundedOutput)
  | FindLockupOutpoints (script : string) : read (list ReceiveOutpoint)
  | FindClaimPreimage (outpoints : list (string * Z)) (hash : string) : read (option (list Z))
  | FindSpendWitness (txid : string) (vout : Z) (outputScript : list Z) : read (option (list (list Z)))
  | SpendableVtxos : read (list FundingCandidate)
  | PinnedOutpoints : read (gset string)
  | ChainTip : read Z
  | ShouldSkipTick (i : string) : read bool.
#[export] Instance read_tip : ChainTipProvider read := ChainTip.
Abbreviation asks := (World.asks (Read := read)).

(** The requests that cannot be taken back, each with the row it is made for. *)
Inductive LnReceiveEffect :=
  | WalletSend (i address : string) (sats : Z) (stamp : option ClaimPacketStamp) (selected : list FundingCandidate)
  | RefundLockup (i : string) (outputs : list FundedOutput) (script destination : list Z)
  | FinalizePendingRefund (i : string) (script : list Z)
  | RefundUnrolled (i : string) (output : string * Z) (record : option UnrolledSpendRecord)
  | ResumeUnrolled (i : string) (output : string * Z)
  | SettleHold (i preimage : string)
  | CancelHold (hash : string)
  | Reveal (i swapAddress ciphertext arkadeScript taptree : string).

#[export] Instance LnReceiveReplies : Replies LnReceiveEffect := λ a,
  match a with
  | WalletSend _ _ _ _ _ | RefundLockup _ _ _ _ => string
  | FinalizePendingRefund _ _ => option string
  | RefundUnrolled _ _ _ | ResumeUnrolled _ _ => ClaimReply
  | SettleHold _ _ | CancelHold _ | Reveal _ _ _ _ _ => unit
  end.

(** [@arkade-os/swap], the Arkade SDK and [@scure/base]: the shape of a sealed
    packet, the script of the non-interactive claim leaf and a program's
    encoding. *)
Inductive ClaimPacketShape :=
  | ciphertext
  | packet (body : list Z) (covclaimdPubkey : bool) (needsArkadeScript : bool).
Class ClaimPackets := {
  claimPacketShape : string → result Error ClaimPacketShape;
  appendArkadeScript : list Z → list Z → result Error (list Z);
  nonInteractiveClaimArkadeScript : CovenantSwapParams → option (list Z);
  encodeProgram : CovenantSwapParams → list Z;
  base64Encode : list Z → string;
}.

(** [unilateralExitRecourse]: what the parked row tells an operator. *)
Class ReceiveRecourse := receiveRecourse : ReceiveRow → string.

(** [ReceiveServiceDeps]: what is configured, which optional operations the
    backends have, and how often [refundUnrolled] may save. *)
Record LnReceiveDeps := mkLnReceiveDeps {
  dep_acceptUnilateralGap : bool;
  chainTip : bool;
  coupling : bool;
  readsWitnesses : bool;
  hasCovclaimd : bool;
  cancelsHolds : bool;
  refundsUnrolled : bool;
  finalizesRefunds : bool;
  dep_dustSats : Z;
  dep_vtxoMinSats : Z;
  savesPerRefund : nat;
}.

Definition DEADLINE_SECONDS_PURPOSE : string := "order the refund deadline against the HTLC".
Definition FUND_CONFIRM_BUDGET_MS : Z := 8000.
Definition FUND_CONFIRM_INTERVAL_MS : Z := 100.
Definition EMPTY_LOCKUP_GRACE : Z := 120.
Definition REFUND_CENSORSHIP_GRACE : Z := 6 * HOUR.

(** The looks that fit in the budget, a pause between any two. *)
Definition confirm_looks : nat := Z.to_nat (FUND_CONFIRM_BUDGET_MS / FUND_CONFIRM_INTERVAL_MS) + 1.

Definition funding_refusal_text (reason : ReceiveFundingRefusal) : string :=
  match reason with
  | invoice_expired => "invoice_expired"
  | htlc_not_armed => "htlc_not_armed"
  | settle_window_too_short => "settle_window_too_short"
  | refund_deadline_too_late => "refund_deadline_too_late"
  | unilateral_recourse_after_htlc => "unilateral_recourse_after_htlc"
  end.
Definition lockup_refusal_text (reason : LockupFundingRefusal) : string :=
  match reason with
  | insufficient_unreserved_balance => "insufficient_unreserved_balance"
  | minimum_change_unavailable => "minimum_change_unavailable"
  end.
Definition send_state_text (s : LnSend.state) : string :=
  match s with
  | LnSend.quoted => "quoted" | LnSend.funded => "funded" | LnSend.paying => "paying"
  | LnSend.paid => "paid" | LnSend.claiming => "claiming" | LnSend.claimed => "claimed"
  | LnSend.refused => "refused" | LnSend.stuck => "stuck"
  end.

(** The client claims as the covenant's receiver; the solver is its client. *)
Definition receiveCovenantRowFor (r : ReceiveRow) : CovenantScriptRow :=
  let q := quote r in
  mkCovenant (row_id r) (payoutPubkey q) (serverPubkey q) (paymentHash q) (refundLocktime q) (claimDelay q)
    (emulatorPubkey q) (solverRefundPkScript q) (pkScript q) (solverPubkey q) (refundWithoutReceiverDelay q)
    (refundDelay q) (payoutPkScript q) (default false (nonInteractiveParameters q)).

Section ln_receive.
Context (sha256 : list Z → list Z) `{Arkade, ClaimPackets, ReceiveRecourse, SpendJson}.
Context (deps : LnReceiveDeps) (self : nat).
#[local] Open Scope io_scope.
#[local] Abbreviation row := ReceiveRow.
#[local] Abbreviation event := (evt LnReceive.state ReceiveQuote LnReceiveEffect read).
#[local] Abbreviation io := (io event Error).

Definition patch (i : string) (f : fields) : io unit := base_patch i f.
(** [Date.now()], milliseconds. *)
Definition dateNow : io Z := call Clock.

(** ** Funding a lockup, [receive/fundLockup.ts] *)

(** Reading, selecting and refusing: nothing has been submitted yet. *)
Definition selectFundingInputs (amountSats : Z) : io (list FundingCandidate) :=
  spendable <- asks SpendableVtxos ;;
  at_ <- now ;;
  pinned <- asks PinnedOutpoints ;;
  match selectLockupFunding (mkFundingRequest spendable amountSats MAX_REFUND_HORIZON at_ pinned
          (dep_dustSats deps) (dep_vtxoMinSats deps)) with
  | Selected inputs _ => ret inputs
  | NotFunded reason => throw (FundNotSubmittedError
      ("refusing to fund lockup of " +:+ pretty amountSats +:+ " sats: " +:+ lockup_refusal_text reason))
  end.

Definition not_submitted (amountSats : Z) (e : Error) : Error :=
  match e with
  | FundNotSubmittedError _ => e
  | _ => FundNotSubmittedError ("failed to select coins to fund a lockup of " +:+ pretty amountSats +:+ " sats")
  end.

(** arkd's refusal of an output below the minimum, made before submission. *)
Definition amount_too_low (e : Error) : bool :=
  match e with ArkError code name _ => (code =? 15) && bool_decide (name = "AMOUNT_TOO_LOW") | _ => false end.

Definition fundLockup (i address : string) (amountSats : Z) (stamp : option ClaimPacketStamp) : io string :=
  inputs <- try_catch (selectFundingInputs amountSats) (λ e, throw (not_submitted amountSats e)) ;;
  try_catch (request (WalletSend i address amountSats stamp inputs))
    (λ e, if amount_too_low e
          then throw (FundNotSubmittedError "arkd rejected a sub-minimum funding output before submission")
          else throw e).

(** What the funding carries for covclaimd, [receive/claimPacket.ts]. *)
Definition claimPacketStamp (claimPacket : option string) (script : CovenantSwapParams)
    : result Error (option ClaimPacketStamp) :=
  match claimPacket with
  | None => Ok None
  | Some sealed =>
      shape ← claimPacketShape sealed;
      match shape with
      | packet body true needs =>
          if negb needs then Ok (Some (mkStamp body (encodeProgram script)))
          else match nonInteractiveClaimArkadeScript script with
          | None => Ok None
          | Some leaf => body ← appendArkadeScript body leaf; Ok (Some (mkStamp body (encodeProgram script)))
          end
      | _ => Ok None
      end
  end.

(** ** The refund, [receive/arkadeOps.ts] *)

Definition assertScriptMatchesRow (script : list Z) (r : CovenantScriptRow) : result Error unit :=
  throw_if (negb (bool_decide (hex_encode script = cov_pkScript r)))
    (Thrown ("script rebuilt from row " +:+ cov_id r +:+ " derives " +:+ hex_encode script +:+
             ", lockup is at " +:+ cov_pkScript r)).

(** The script a row's lockup was funded against, or a refusal to sign. *)
Definition rebuilt (r : row) : result Error (list Z) :=
  built ← covenantScriptFromRow (receiveCovenantRowFor r);
  _ ← assertScriptMatchesRow (snd built) (receiveCovenantRowFor r);
  Ok (snd built).

Definition refund (r : row) (outputs : list FundedOutput) : io string :=
  script <- lifted id (rebuilt r) ;;
  destination <- lifted id (hexBytes (solverRefundPkScript (quote r))) ;;
  request (RefundLockup (row_id r) outputs script destination).

Definition finalizePendingRefund (r : row) : io (option string) :=
  if finalizesRefunds deps then
    script <- lifted id (rebuilt r) ;;
    request (FinalizePendingRefund (row_id r) script)
  else ret None.

(** The conversation [refundUnrolled] has with its [save]. *)
Fixpoint converseRefund (n : nat) (i : string) (output : string * Z) (reply : ClaimReply) : io UnrolledSpendStep :=
  match reply with
  | inr step => ret step
  | inl record =>
      match n with
      | O => throw (Thrown "saved too often")
      | Datatypes.S n =>
          patch i (set_text "unrolled_refund" (stringifyRecord record)) ;;;
          next <- request (ResumeUnrolled i output) ;;
          converseRefund n i output next
      end
  end.

Definition refundUnrolled (r : row) (output : string * Z) (record : option UnrolledSpendRecord) : io UnrolledSpendStep :=
  lifted id (rebuilt r) ;;;
  first <- request (RefundUnrolled (row_id r) output record) ;;
  converseRefund (savesPerRefund deps) (row_id r) output first.

(** ** The preimage, [receive/lockupPreimage.ts] *)

(** The first item of a witness that is the preimage. *)
Definition revealed_in (hash : string) (witness : option (list (list Z))) : option (list Z) :=
  snd <$> list_find (λ item, length item = 32%nat ∧ hex_encode (sha256 item) = hash) (default [] witness).

(** One unreadable outpoint must not hide the preimage in another. *)
Fixpoint readWitnesses (outputScript : list Z) (hash : string) (outpoints : list ReceiveOutpoint)
    (unread : option Error) : io (option (list Z)) :=
  match outpoints with
  | [] => match unread with Some e => throw e | None => ret None end
  | o :: rest =>
      found <- caught (asks (FindSpendWitness (ro_txid o) (ro_vout o) outputScript)) ;;
      match found with
      | inl witness =>
          match revealed_in hash witness with
          | Some revealed => ret (Some revealed)
          | None => readWitnesses outputScript hash rest unread
          end
      | inr e => readWitnesses outputScript hash rest (Some (default e unread))
      end
  end.

Definition unrolledReport (unrolled : list ReceiveOutpoint) : Error :=
  Thrown ("arkade lockup unrolled onto L1 (" +:+
    join ", " ((λ o, outpointKey (ro_txid o) (ro_vout o)) <$> unrolled) +:+ ") — " +:+
    (if readsWitnesses deps then "reading the claim witness onchain" else "no L1 backend to read its claim from")).

(** The preimage out of whatever spent the lockup: the Arkade claim, then the
    L1 spend of an outpoint that left Arkade. *)
Definition findPreimage (r : row) (outpoints : list ReceiveOutpoint) : io (option (list Z)) :=
  match outpoints with
  | [] => ret None
  | _ =>
      claimed <- asks (FindClaimPreimage ((λ o, (ro_txid o, ro_vout o)) <$> outpoints) (paymentHash (quote r))) ;;
      match claimed with
      | Some preimage => ret (Some preimage)
      | None =>
          let unrolled := filter (λ o, ro_unrolled o = true) outpoints in
          match unrolled with
          | [] => ret None
          | _ =>
              first <- firstReport self (row_id r) ;;
              (if first then onTickError (row_id r) (unrolledReport unrolled) else ret tt) ;;;
              if negb (readsWitnesses deps) then ret None
              else
              outputScript <- lifted id (hexBytes (pkScript (quote r))) ;;
              readWitnesses outputScript (paymentHash (quote r)) unrolled None
          end
      end
  end.

(** ** Arming *)

(** [cancelHold], where the backend has one; no failure matters. *)
Definition retireInvoice (hash : string) : io unit :=
  if cancelsHolds deps then try_catch (request (CancelHold hash)) (λ _, ret tt) else ret tt.

Definition noteHeadroom (r : row) (htlcExpiresAt : option Z) : io unit :=
  match htlcExpiresAt with
  | None => ret tt
  | Some E =>
      try_catch
        (at_ <- now ;;
         noteCltvHeadroom (row_id r) (E - at_) (E - created_at r - (MAX_REFUND_HORIZON + SETTLE_SAFETY_MARGIN)))
        (λ _, ret tt)
  end.

Definition liveSend (hash : string) : io (option CoupledSendRow) :=
  if coupling deps then asks (LiveSend hash) else ret None.

(** The client's solo refund of the coupled lockup does not open early. *)
Definition coupledRefundCovers (c : CoupledSendRow) : io bool :=
  deadline <- refundDeadlineSeconds (chainTip deps) (send_refundLocktime c) DEADLINE_SECONDS_PURPOSE ;;
  ret (refundWithoutReceiverDelayCovers (send_refundWithoutReceiverDelay c) deadline (send_createdAt c)).

Definition cannotCover (c : CoupledSendRow) (q : ReceiveQuote) : string :=
  "refused to fund: coupled send lockup of " +:+ pretty (send_amountSats c) +:+ " sats cannot cover a " +:+
  pretty (payoutSats q) +:+ " sat payout".

(** A coupled row arms against the client's own send lockup. *)
Definition armCoupled (r : row) (c : CoupledSendRow) : io bool :=
  if send_amountSats c <? payoutSats (quote r) then
    fail (row_id r) LnReceive.quoted (cannotCover c (quote r)) ;;; ret false
  else if bool_decide (send_state c = LnSend.refused) then
    retireInvoice (paymentHash (quote r)) ;;;
    fail (row_id r) LnReceive.quoted "coupled send was refused; the receive leg can never fund against it" ;;;
    ret false
  else if negb (bool_decide (send_state c = LnSend.funded)) then ret false
  else
  covers <- coupledRefundCovers c ;;
  if negb covers then
    fail (row_id r) LnReceive.quoted "refused to fund: coupled send refund timing is unsafe" ;;; ret false
  else
  all <- asks (FindLockups (send_pkScript c)) ;;
  if negb (existsb (λ o, value o =? send_amountSats c) (satsOutputs all)) then ret false
  else
  retireInvoice (paymentHash (quote r)) ;;;
  transition (row_id r) LnReceive.quoted LnReceive.armed [("htlc_expires_at", None)].

Definition whenQuoted (r : row) : io bool :=
  hold <- asks (GetHoldState (paymentHash (quote r))) ;;
  if bool_decide (hold_status hold = armed) then
    won <- transition (row_id r) LnReceive.quoted LnReceive.armed
             [("htlc_expires_at", option_map VInt (hold_expiresAt hold))] ;;
    (if won : bool then noteHeadroom r (hold_expiresAt hold) else ret tt) ;;;
    ret won
  else
  coupled <- liveSend (paymentHash (quote r)) ;;
  match coupled with
  | Some c => armCoupled r c
  | None =>
      at_ <- now ;;
      (if invoiceExpiresAt (quote r) <=? at_
       then retireInvoice (paymentHash (quote r)) ;;;
            fail (row_id r) LnReceive.quoted "invoice expired before it was ever armed"
       else ret tt) ;;;
      ret false
  end.

(** ** Funding *)

(** The columns of a funding taken over. *)
Definition lockup_fields (o : ReceiveOutpoint) : fields :=
  [("arkade_lockup_txid", Some (VText (ro_txid o)));
   ("arkade_lockup_vout", Some (VInt (ro_vout o)));
   ("arkade_lockup_value", Some (VInt (lo_value (ro_lockup o))))].

(** A funding whose response was lost is a human's once no lockup can appear. *)
Definition awaitFunding (r : row) : io bool :=
  deadline <- refundDeadlineSeconds (chainTip deps) (refundLocktime (quote r)) DEADLINE_SECONDS_PURPOSE ;;
  at_ <- now ;;
  (if deadline <=? at_
   then transition (row_id r) LnReceive.armed LnReceive.stuck
          (set_text "failure_reason"
            "funding response lost; refund deadline reached with no lockup adopted — review for a stray lockup") ;;;
        ret tt
   else ret tt) ;;;
  ret false.

(** The gates of a coupled row: whether they let the payout go. *)
Definition coupledGates (r : row) (c : CoupledSendRow) : io bool :=
  if negb (bool_decide (send_state c = LnSend.funded)) then
    fail (row_id r) LnReceive.armed
      ("refused to fund: coupled send swap is " +:+ send_state_text (send_state c) +:+ ", not funded") ;;;
    ret false
  else
  covers <- coupledRefundCovers c ;;
  if negb covers then
    fail (row_id r) LnReceive.armed "refused to fund: coupled send refund timing is unsafe" ;;; ret false
  else if send_amountSats c <? payoutSats (quote r) then
    fail (row_id r) LnReceive.armed (cannotCover c (quote r)) ;;; ret false
  else
  at_ <- now ;;
  if invoiceExpiresAt (quote r) <=? at_ then
    fail (row_id r) LnReceive.armed "refused to fund: invoice_expired" ;;; ret false
  else ret true.

(** The gates of a payment that is held. *)
Definition heldGates (r : row) (htlcExpiresAt : option Z) : io bool :=
  deadline <- refundDeadlineSeconds (chainTip deps) (refundLocktime (quote r)) DEADLINE_SECONDS_PURPOSE ;;
  at_ <- now ;;
  match evaluateReceiveFunding (mkFunding (invoiceExpiresAt (quote r)) htlcExpiresAt deadline
          (refundWithoutReceiverDelay (quote r)) (dep_acceptUnilateralGap deps) at_) with
  | Err e => throw (locktimeError e)
  | Ok Fund => ret true
  | Ok (RefuseFunding reason) =>
      fail (row_id r) LnReceive.armed ("refused to fund: " +:+ funding_refusal_text reason) ;;; ret false
  end.

(** The look for the funded output, until the budget is spent. *)
Fixpoint confirmFunding (looks : nat) (r : row) (fundTxid : string) (giveUpAt : Z) : io ReceiveOutpoint :=
  let exhausted := Thrown ("swap " +:+ row_id r +:+ ": funded output never appeared at the indexer") in
  match looks with
  | O => throw exhausted
  | Datatypes.S looks =>
      at_ <- dateNow ;;
      if giveUpAt <=? at_ then throw exhausted
      else
      seen <- caught (asks (FindLockupOutpoints (pkScript (quote r)))) ;;
      match seen with
      | inl outpoints =>
          match list_find (λ o, ro_txid o = fundTxid) outpoints with
          | Some (_, o) => ret o
          | None => confirmFunding looks r fundTxid giveUpAt
          end
      | inr _ => confirmFunding looks r fundTxid giveUpAt
      end
  end.

(** The payment of the payout: its transaction, or a row closed because nothing
    was submitted. *)
Definition submitFunding (r : row) (coupled : bool) (stamp : option ClaimPacketStamp) : io (option string) :=
  try_catch (txid <- fundLockup (row_id r) (lockupAddress (quote r)) (payoutSats (quote r)) stamp ;; ret (Some txid))
    (λ e, match e with
          | FundNotSubmittedError why =>
              if coupled then
                retireInvoice (paymentHash (quote r)) ;;;
                transition (row_id r) LnReceive.armed LnReceive.refused
                  [("fund_started_at", None);
                   ("failure_reason", Some (VText ("refused to fund coupled payout: " +:+ why)))] ;;;
                ret None
              else releaseLease (row_id r) ;;; throw e
          | _ => throw e
          end).

(** With the lease: fund, confirm, move on. *)
Definition fundLeased (r : row) (coupled : bool) : io bool :=
  script <- lifted id (covenantScriptFromRow (receiveCovenantRowFor r)) ;;
  stamp <- lifted id (claimPacketStamp (claimPacket (quote r)) (fst script)) ;;
  submitted <- submitFunding r coupled stamp ;;
  match submitted with
  | None => ret false
  | Some fundTxid =>
      (match stamp with
       | Some _ => at_ <- now ;; patch (row_id r) (set_int "stamped_at" at_)
       | None => ret tt
       end) ;;;
      started <- dateNow ;;
      funded <- confirmFunding confirm_looks r fundTxid (started + FUND_CONFIRM_BUDGET_MS) ;;
      transition (row_id r) LnReceive.armed LnReceive.funded (lockup_fields funded)
  end.

(** Nothing of ours at the script, and no funding under way. *)
Definition fundArmed (r : row) : io bool :=
  fresh <- asks (GetHoldState (paymentHash (quote r))) ;;
  let htlcExpiresAt := if bool_decide (hold_status fresh = armed) then hold_expiresAt fresh else None in
  coupled <- match htlcExpiresAt with Some _ => ret None | None => liveSend (paymentHash (quote r)) end ;;
  passed <- match coupled with Some c => coupledGates r c | None => heldGates r htlcExpiresAt end ;;
  if negb passed then ret false
  else
  leased <- claimLease (row_id r) LnReceive.armed ;;
  if negb leased then ret false
  else fundLeased r (bool_decide (is_Some coupled)).

Definition whenArmed (r : row) : io bool :=
  outpoints <- asks (FindLockupOutpoints (pkScript (quote r))) ;;
  match adoptFunding ro_lockup outpoints (payoutSats (quote r)) with
  | Some funded => transition (row_id r) LnReceive.armed LnReceive.funded (lockup_fields funded)
  | None =>
      match int_col r "fund_started_at" with
      | Some _ => awaitFunding r
      | None => fundArmed r
      end
  end.

(** ** Watching the claim *)

(** The recorded outpoint of the lockup. *)
Definition fundedOutpoint (r : row) : option (string * Z) :=
  txid ← text_col r "arkade_lockup_txid";
  vout ← int_col r "arkade_lockup_vout";
  Some (txid, vout).

Definition is_output (funded : string * Z) (o : FundedOutput) : bool :=
  bool_decide (txid o = funded.1) && (vout o =? funded.2).

(** Every outpoint the script ever held; the recorded one while none is read. *)
Definition searchable (funded : string * Z) (historical : list ReceiveOutpoint) : list ReceiveOutpoint :=
  match historical with
  | [] => [mkReceiveOutpoint (mkLockupOutpoint funded.1 funded.2 0 false) false]
  | _ => historical
  end.

Definition revealToCovclaimd (r : row) : io unit :=
  match claimPacket (quote r) with
  | None => ret tt
  | Some sealed =>
      if negb (hasCovclaimd deps) || bool_decide (is_Some (int_col r "stamped_at")) then ret tt
      else
      built <- lifted id (covenantScriptFromRow (receiveCovenantRowFor r)) ;;
      match nonInteractiveClaimArkadeScript (fst built) with
      | None => throw (Thrown ("swap " +:+ row_id r +:+
          ": covenant script has no nonInteractiveClaim leaf to reveal against"))
      | Some leaf =>
          request (Reveal (row_id r) (lockupAddress (quote r)) sealed (base64Encode leaf)
            (hex_encode (encodeProgram (fst built)))) ;;;
          at_ <- now ;;
          patch (row_id r) (set_int "revealed_at" at_)
      end
  end.

Definition whenFunded (r : row) : io bool :=
  outputs <- asks (FindLockups (pkScript (quote r))) ;;
  match fundedOutpoint r with
  | None => fail (row_id r) LnReceive.funded "funded state with no funded outpoint recorded" ;;; ret false
  | Some funded =>
      if existsb (is_output funded) outputs then
        reached <- refundDeadlineReached (chainTip deps) (refundLocktime (quote r)) ;;
        if reached : bool then transition (row_id r) LnReceive.funded LnReceive.refunding []
        else
        (if bool_decide (int_col r "revealed_at" = None) && hasCovclaimd deps &&
            bool_decide (is_Some (claimPacket (quote r)))
         then revealToCovclaimd r else ret tt) ;;;
        ret false
      else
      historical <- asks (FindLockupOutpoints (pkScript (quote r))) ;;
      preimage <- findPreimage r (searchable funded historical) ;;
      match preimage with
      | Some p => transition (row_id r) LnReceive.funded LnReceive.claimed (set_text "preimage" (hex_encode p))
      | None =>
          reached <- refundDeadlineReached (chainTip deps) (refundLocktime (quote r)) ;;
          if reached : bool then transition (row_id r) LnReceive.funded LnReceive.refunding [] else ret false
      end
  end.

(** ** Settling *)

(** A settle that threw: asked about on a repeat, handed over past [E]. *)
Definition settleFailed (r : row) (e : Error) : io bool :=
  settled <- (if bool_decide (is_Some (int_col r "settle_attempted_at"))
              then try_catch (hold <- asks (GetHoldState (paymentHash (quote r))) ;;
                              ret (bool_decide (hold_status hold = hold_settled)))
                     (λ _, ret false)
              else ret false) ;;
  if settled : bool then transition (row_id r) LnReceive.claimed LnReceive.settled []
  else match int_col r "htlc_expires_at" with
  | None => fail (row_id r) LnReceive.claimed "claimed state with no htlcExpiresAt recorded" ;;; ret false
  | Some E =>
      at_ <- now ;;
      if E <=? at_
      then fail (row_id r) LnReceive.claimed ("settle failing past E: " +:+ message e) ;;; ret false
      else throw e
  end.

Definition whenClaimed (r : row) : io bool :=
  match truthy (text_col r "preimage") with
  | None => fail (row_id r) LnReceive.claimed "claimed state with no preimage" ;;; ret false
  | Some preimage =>
      coupled <- match int_col r "htlc_expires_at" with
                 | None => liveSend (paymentHash (quote r))
                 | Some _ => ret None
                 end ;;
      match coupled with
      | Some _ => transition (row_id r) LnReceive.claimed LnReceive.settled []
      | None =>
          (if bool_decide (int_col r "settle_attempted_at" = None)
           then at_ <- now ;; patch (row_id r) (set_int "settle_attempted_at" at_)
           else ret tt) ;;;
          held <- caught (request (SettleHold (row_id r) preimage)) ;;
          match held with
          | inl _ => transition (row_id r) LnReceive.claimed LnReceive.settled []
          | inr e => settleFailed r e
          end
      end
  end.

(** ** Refunding *)

Definition rowStore : RowStore (E := event) LnReceive.state :=
  {| store_patch := patch; store_transition := transition; store_fail := fail |}.

(** Before [E] the preimage is still worth the held payment. *)
Definition beforeE (r : row) : io bool :=
  match int_col r "htlc_expires_at" with
  | Some E => at_ <- now ;; ret (at_ <? E)
  | None => ret false
  end.

Definition refundUnrolledRow (r : row) (unrolled : ReceiveOutpoint) : io bool :=
  record <- match text_col r "unrolled_refund" with
            | None => ret None
            | Some kept => record <- lifted id (parseRecord kept) ;; ret (Some record)
            end ;;
  step <- refundUnrolled r (ro_txid unrolled, ro_vout unrolled) record ;;
  useful <- beforeE r ;;
  applyUnrolledSpendStep rowStore (row_id r) (text_col r "unrolled_refund") LnReceive.refunding LnReceive.refunded
    step useful (receiveRecourse r).

(** The funded output is gone: our own refund, a claim still to be read, or a
    case for a human once the preimage is worth nothing. *)
Definition whenGone (r : row) : io bool :=
  own <- finalizePendingRefund r ;;
  match truthy own with
  | Some txid => transition (row_id r) LnReceive.refunding LnReceive.refunded (set_text "refund_ark_txid" txid)
  | None =>
      at_ <- now ;;
      if at_ - updated_at r <? EMPTY_LOCKUP_GRACE then ret false
      else
      useful <- beforeE r ;;
      if useful : bool then ret false
      else fail (row_id r) LnReceive.refunding
             "funded output gone during refunding with no matching claim found; needs review" ;;;
           ret false
  end.

Definition pushRefund (r : row) (outputs : list FundedOutput) : io bool :=
  pushed <- caught (refund r outputs) ;;
  match pushed with
  | inl txid => transition (row_id r) LnReceive.refunding LnReceive.refunded (set_text "refund_ark_txid" txid)
  | inr e =>
      at_ <- now ;;
      if REFUND_CENSORSHIP_GRACE <=? at_ - updated_at r
      then fail (row_id r) LnReceive.refunding
             ("refund failing past the refund deadline: " +:+ message e +:+ " — " +:+ receiveRecourse r) ;;;
           ret false
      else throw e
  end.

Definition whenRefunding (r : row) : io bool :=
  match fundedOutpoint r with
  | None => fail (row_id r) LnReceive.refunding "refunding state with no funded outpoint recorded" ;;; ret false
  | Some funded =>
      historical <- asks (FindLockupOutpoints (pkScript (quote r))) ;;
      late <- findPreimage r (searchable funded historical) ;;
      match late with
      | Some p => transition (row_id r) LnReceive.refunding LnReceive.claimed (set_text "preimage" (hex_encode p))
      | None =>
          match list_find (λ o, ro_unrolled o = true ∧ ro_txid o = funded.1 ∧ ro_vout o = funded.2) historical,
                refundsUnrolled deps with
          | Some (_, unrolled), true => refundUnrolledRow r unrolled
          | _, _ =>
              outputs <- asks (FindLockups (pkScript (quote r))) ;;
              if existsb (is_output funded) outputs then pushRefund r outputs else whenGone r
          end
      end
  end.

(** ** Ticks and sweeps *)

Definition step (r : row) : io bool :=
  match state r with
  | LnReceive.quoted => whenQuoted r
  | LnReceive.armed => whenArmed r
  | LnReceive.funded => whenFunded r
  | LnReceive.claimed => whenClaimed r
  | LnReceive.refunding => whenRefunding r
  | _ => ret false
  end.

Definition tick (fuel : nat) (i : string) : io row := guardedTick fuel self i step.

Definition held_off (i : string) : io bool :=
  skip <- asks (ShouldSkipTick i) ;;
  if skip : bool then ret true else call (InFlight self i).

Definition tickAll (fuel : nat) : io (list row) :=
  live <- findRecoverable ;; sweep held_off live (tick fuel).

(** The operator's refund, only where the lockup can be open and unresolved. *)
Definition refundNow (i : string) : io (option string) :=
  r <- get i ;;
  if negb (bool_decide (state r ∈ exposed_states LnReceiveMachine)) && negb (bool_decide (state r = LnReceive.stuck))
  then throw (Thrown ("swap " +:+ i +:+ " is " +:+ state_text (state r) +:+
         ": nothing to refund here — the solver's lockup is open only while funded/claimed/refunding or stuck" +:+
         (if bool_decide (state r = LnReceive.armed)
          then " — let the sweep escalate a lost funding to stuck first, then refund" else "")))
  else
  outputs <- asks (FindLockups (pkScript (quote r))) ;;
  match outputs with
  | [] => ret None
  | _ =>
      txid <- refund r outputs ;;
      patch i (set_text "refund_ark_txid" txid) ;;;
      ret (Some txid)
  end.
End ln_receive.
