(* ===== verification/OnchainSendService.v ===== *)
(** * The onchain send service

    [OnchainSendSwapService] of
    [packages/solver-corridors/src/send/onchainOrchestrator.ts]: a client locks
    BTC on Arkade, the solver funds an HTLC on the bitcoin chain and claims the
    lockup with the preimage the client reveals by claiming it; unclaimed, the
    solver takes its HTLC back and then returns the lockup. One tick of a row
    event by event, the sweeps, and the operator's overrides, the recovery of a
    parked claim of [solver-app/src/ops/claims.ts] among them. *)
From Stdlib Require Import QArith_base Qround.
From S2P Require Import Prelude JsString Timelocks OnchainPolicy StateMachine Prog SwapDb EvmRow Store Corridor World Lockup UnrolledSpend SweptRefund Covenant OnchainRail BaseStore OnchainSendStore.
#[local] Open Scope Z_scope.

(** ** The ports: [ports/onchain.ts], [send/arkadeOps.ts], the signer *)

Record FundedOnchainOutput := mkOnchainOutput {
  output_txid : string;
  output_vout : Z;
  valueSats : Z;
  confirmations : Z;
}.

Inductive OnchainTxOutcome := outcome_unknown | outcome_mempool | outcome_confirmed.
#[export] Instance OnchainTxOutcome_dec : EqDecision OnchainTxOutcome.
Proof. solve_decision. Defined.

(** A signed transaction: its id and its bytes in hex. *)
Record SignedTx := mkSigned { signed_id : string; extracted : string }.

(** [Transaction.fromRaw] of a hex text: its id, and the script and amount of
    each output. *)
Class TxParser := fromRaw : string → option (string * list (option (list Z) * option Z)).

(** [unilateralExitRecourse]: what the parked row tells an operator. *)
Class OnchainRecourse := onchainRecourse : OnchainRow → string.

Inductive onchain_read : Type → Type :=
  | FindLockups (script : string) : onchain_read (list FundedOutput)
  | FindSweptLockups (script : string) : onchain_read (list FundedOutput)
  | SpendEvidence (script : string) : onchain_read LockupSpendEvidence
  | FindLockupOutpoints (script : string) : onchain_read (list Outpoint)
  | FindClaimPreimage (outpoints : list (string * Z)) (hash : string) : onchain_read (option (list Z))
  | FindOutputs (address : string) : onchain_read (list FundedOnchainOutput)
  | FindSpendWitness (txid : string) (vout : Z) (outputScript : list Z) : onchain_read (option (list (list Z)))
  | TransactionOutcome (txid : string) : onchain_read OnchainTxOutcome
  | EstimateFeeRate : onchain_read num
  | SignRefund (unsigned : Transaction) : onchain_read SignedTx
  | Approval (i : string) (sats : Z) : onchain_read bool
  | ShouldSkipTick (i : string) : onchain_read bool.

#[export] Instance onchain_approvals : Approvals onchain_read := Approval.
Abbreviation asks := (World.asks (Read := onchain_read)).

(** The requests that cannot be taken back, each with the row it is made for. *)
Inductive OnchainEffect :=
  | SignFunding (i fundingAddress : string) (sats : Z) (feeRateSatPerVbyte : num)
  | BroadcastFunding (i tx : string)
  | BroadcastRefund (i tx : string)
  | ClaimLockup (i : string) (outputs : list FundedOutput) (preimage : string)
  | FinalizePendingClaim (i : string) (preimage : string)
  | ClaimUnrolled (i : string) (output : string * num) (record : option UnrolledSpendRecord) (preimage : string)
  | ResumeUnrolled (i : string) (output : string * num) (preimage : string)
  | RefundLockup (i : string) (outputs : list FundedOutput)
  | RefundSwept (i : string) (outputs : list FundedOutput)
  | SettleReceiveAddress.

(** [ReceiveSettlement]: a deposit's txid, vout, and its credit's reference or
    why it was not settled. *)
Definition ReceiveSettlement : Type := string * Z * (string + string).

#[export] Instance OnchainReplies : Replies OnchainEffect := λ a,
  match a with
  | SignFunding _ _ _ _ => string
  | BroadcastFunding _ _ | BroadcastRefund _ _ => unit
  | ClaimLockup _ _ _ | RefundLockup _ _ | RefundSwept _ _ => string
  | FinalizePendingClaim _ _ => option string
  | ClaimUnrolled _ _ _ _ | ResumeUnrolled _ _ _ => ClaimReply
  | SettleReceiveAddress => list ReceiveSettlement
  end.

(** [OnchainSendServiceDeps]: what is configured, which optional operations the
    backends have, and how often [claimUnrolled] may save. *)
Record OnchainDeps := mkOnchainDeps {
  live_providerPubkey : string;
  network : SwapNetwork;
  refundDestinationScript : list Z;
  approvalGate : bool;
  readsOutpoints : bool;
  claimsUnrolled : bool;
  readsClaimPreimage : bool;
  finalizesClaims : bool;
  findsSwept : bool;
  refundsSwept : bool;
  settlesDeposits : bool;
  savesPerClaim : nat;
}.

Definition ONCHAIN_DUST_SATS : Z := 330.
Definition UNKNOWN_LOCKUP_RECHECK_SECONDS : Z := 3600.
Definition FUNDING_STUCK_ALERT_SECONDS : Z := 20 * 60.
Definition KEY_ROTATED : string := "provider key rotated since quote; refusing to fund an unclaimable lockup".
Definition NOT_A_CLAIM : string := "onchain HTLC spent by something other than a matching claim".

Definition funding_decision_text (d : OnchainSendFundingDecision) : option string :=
  match d with
  | FundOnchain => None
  | RefundWindowClosing => Some "refused to fund: refund window closing"
  | InsideClaimWindow left_ window =>
      Some ("refused to fund: " +:+ pretty left_ +:+ "s left, inside the claim window of " +:+ pretty window +:+ "s")
  end.

(** [Math.round] *)
Definition num_round (n : num) : num :=
  match n with Fin q => Fin (inject_Z (Qfloor (q + (1 # 2)))) | n => n end.

(** A whole number of sats in a message. *)
Definition sats_text (n : num) : string := match integer n with Some z => pretty z | None => "NaN" end.

(** A tracked transaction: the id only on [confirmed]. *)
Inductive TrackedOutcome := tracked_confirmed (txid : string) | tracked_mempool | tracked_unknown.

(** One attempt at the solver's own refund. *)
Inductive OnchainHtlcRefundAttempt :=
  | was_broadcast (txid : string)
  | not_broadcast (reason : string) (retry : bool).

(** A refused sweep of a lockup nobody has seen, until it is asked again. *)
Record Parked := mkParked { parked_error : Error; until : Z }.
Abbreviation UnknownLockups := (gmap string Parked).

(** The one output of a recorded funding that pays this swap's HTLC exactly. *)
Definition fundingOutputOf `{TxParser} (tx : string) (q : OnchainQuote) : result Error (string * Z) :=
  match fromRaw tx with
  | None => Err (Thrown "malformed funding transaction")
  | Some (txid, outputs) =>
      let pays (o : option (list Z) * option Z) :=
        bool_decide ((hex_encode <$> o.1) = Some (onchainPkScript q)) && bool_decide (o.2 = Some (payoutSats q)) in
      match (λ p, Z.of_nat p.1) <$> filter (λ p, pays p.2 = true) (imap (λ n o, (n, o)) outputs) with
      | [vout] => Ok (txid, vout)
      | vouts => Err (Thrown ("recorded funding " +:+ txid +:+ " pays this HTLC " +:+ pretty (length vouts) +:+ " times"))
      end
  end.

(** Newest first: a replacement does not revoke what it replaced. *)
Definition priorRefundTxids (r : OnchainRow) : list string := txidList (text_col r "onchain_refund_prior_txids").
Definition trackedRefundTxids (r : OnchainRow) : list string :=
  match text_col r "onchain_refund_txid" with
  | None => priorRefundTxids r
  | Some txid => txid :: priorRefundTxids r
  end.

Definition preimageFromClaimWitness (witness : list (list Z)) : option (list Z) := witness !! 1%nat.

Definition unrefundableReason (evidence : LockupSpendEvidence) (r : OnchainRow) (now : Z) : string :=
  match evidence with
  | evidence_unknown =>
      "the unfiltered view reports no output at this lockup script, so no spend is provable and nothing is there to give back"
  | _ =>
      let stale := now - OnchainSendStore.refundLocktime (quote r) in
      if DEFAULT_ONCHAIN_LOCKUP_TIMEOUT <? stale
      then "the spendable view is empty; the unfiltered view still reports an unspent output, " +:+ pretty stale +:+
           "s past the refund locktime"
      else "the spendable view is empty; the unfiltered view still reports an unspent output"
  end.

Section onchain_send.
Context (sha256 : list Z → list Z) (power : num → num → num).
Context `{BtcSigner, Arkade, TxParser, OnchainRecourse, Json} (deps : OnchainDeps) (self : nat).
#[local] Open Scope io_scope.
#[local] Abbreviation row := OnchainRow.
#[local] Abbreviation event := (evt OnchainSend.state OnchainQuote OnchainEffect onchain_read).
#[local] Abbreviation io := (io event Error).

Definition claim (i : string) (outputs : list FundedOutput) (preimage : string) : io string :=
  request (ClaimLockup i outputs preimage).
Definition finalizePendingClaim (i preimage : string) : io (option string) :=
  request (FinalizePendingClaim i preimage).
Definition refund (i : string) (outputs : list FundedOutput) : io string := request (RefundLockup i outputs).
Definition refundSwept (i : string) (outputs : list FundedOutput) : io string := request (RefundSwept i outputs).

Definition signed_funding (i address : string) (sats : Z) (rate : num) : io string :=
  request (SignFunding i address sats rate).
Definition thrown (e : Error) : Error := e.
Definition decoded {A} (r : result Error A) : io A := lifted thrown r.

(** The witness that spends the row's funding, asked under its own script. *)
Definition findSpendWitness (r : row) (txid : string) (vout : Z) : io (option (list (list Z))) :=
  script <- decoded (hexBytes (onchainPkScript (quote r))) ;;
  asks (FindSpendWitness txid vout script).

(** [!row.fundingTxid || row.fundingVout === null] *)
Definition fundingOutpoint (r : row) : option (string * Z) :=
  match truthy (text_col r "funding_txid"), int_col r "funding_vout" with
  | Some txid, Some vout => Some (txid, vout)
  | _, _ => None
  end.

(** The preimage a witness reveals, when it is this swap's. *)
Definition revealedBy (r : row) (witness : list (list Z)) : option (list Z) :=
  match preimageFromClaimWitness witness with
  | Some preimage =>
      if bool_decide (paymentHashFromPreimage sha256 preimage = paymentHash (quote r)) then Some preimage else None
  | None => None
  end.

Fixpoint outcomeOfAny (txids : list string) (seen : bool) : io TrackedOutcome :=
  match txids with
  | [] => ret (if seen then tracked_mempool else tracked_unknown)
  | txid :: rest =>
      outcome <- asks (TransactionOutcome txid) ;;
      match outcome with
      | outcome_confirmed => ret (tracked_confirmed txid)
      | outcome_mempool => outcomeOfAny rest true
      | outcome_unknown => outcomeOfAny rest seen
      end
  end.

(** ** Giving the client's lockup back *)

(** The refund on the wire, or nothing: somebody else moved the lockup. *)
Definition pushRefund (r : row) (sweptToo : bool) : io (option string) :=
  let script := pkScript (quote r) in
  outputs <- asks (FindLockups script) ;;
  match outputs with
  | [] =>
      swept <- (if sweptToo && findsSwept deps then asks (FindSweptLockups script) else ret []) ;;
      if negb (bool_decide (swept = [])) && refundsSwept deps then
        txid <- refundSwept (row_id r) swept ;;
        base_patch (row_id r) (set_text "refund_outcome" "pushed" ++ set_text "refund_ark_txid" txid) ;;;
        ret (Some txid)
      else
      evidence <- asks (SpendEvidence script) ;;
      if bool_decide (evidence = evidence_spent) then
        base_patch (row_id r) (set_text "refund_outcome" "external") ;;; ret None
      else
        at_ <- now ;;
        let message := "swap " +:+ row_id r +:+ ": " +:+ unrefundableReason evidence r at_ in
        throw (match evidence with evidence_unknown => UnknownLockupError message | _ => Thrown message end)
  | _ =>
      txid <- refund (row_id r) outputs ;;
      at_ <- now ;;
      let all := (length (boundedSpendInputs outputs at_) =? length outputs)%nat in
      base_patch (row_id r) ((if all then set_text "refund_outcome" "pushed" else []) ++ set_text "refund_ark_txid" txid) ;;;
      ret (Some txid)
  end.

Definition claimedWith (preimage : list Z) : string :=
  "preimage " +:+ hex_encode preimage +:+ " — claim the arkade lockup with it instead of releasing it to the client".

(** Unspent: the solver's refund was reorged out. A matching preimage: the
    client's claim replaced it. *)
Definition onchainRefundIsFinal (r : row) : io bool :=
  match fundingOutpoint r with
  | None => ret false
  | Some (txid, vout) =>
      witness <- findSpendWitness r txid vout ;;
      match witness with
      | None => ret false
      | Some witness =>
          match revealedBy r witness with
          | Some preimage =>
              throw (Thrown ("swap " +:+ row_id r +:+ ": the onchain HTLC this row refunded now reads as claimed, " +:+ claimedWith preimage))
          | None => ret true
          end
      end
  end.

Definition refundRow (r : row) : io bool :=
  final <- (if bool_decide (state r = OnchainSend.refunded) then onchainRefundIsFinal r else ret true) ;;
  if final then moved <- pushRefund r false ;; ret (bool_decide (is_Some (truthy moved))) else ret false.

(** The sweep's rows, with the refusals that still hold. *)
Fixpoint refundRows (l : list row) (parked : UnknownLockups) (pushed : list string)
    : io (list string * UnknownLockups) :=
  match l with
  | [] => ret (pushed, parked)
  | r :: rest =>
      held <- match parked !! row_id r with
              | None => ret None
              | Some p => at_ <- now ;; ret (if at_ <? until p then Some (parked_error p) else None)
              end ;;
      match held with
      | Some e => onTickError (row_id r) e ;;; refundRows rest parked pushed
      | None =>
          let parked := delete (row_id r) parked in
          moved <- caught (refundRow r) ;;
          match moved with
          | inl moved => refundRows rest parked (if moved then pushed ++ [row_id r] else pushed)
          | inr e =>
              parked <- match e with
                        | UnknownLockupError _ =>
                            at_ <- now ;;
                            ret (<[row_id r := mkParked e (at_ + UNKNOWN_LOCKUP_RECHECK_SECONDS)]> parked)
                        | _ => ret parked
                        end ;;
              onTickError (row_id r) e ;;;
              refundRows rest parked pushed
          end
      end
  end.

Definition refundSweep (parked : UnknownLockups) : io (list string * UnknownLockups) :=
  at_ <- now ;;
  refundable <- findRefundable at_ ;;
  releasable <- findReleasable at_ ;;
  let l := refundable ++ releasable in
  refundRows l (filter (λ p, p.1 ∈ (row_id <$> l)) parked) [].

(** No verdict hook: only rows that refused. *)
Definition sweptDeps : SweptLockupRefundDeps (E := event) (X := Error) (R := row) (Output := FundedOutput) :=
  {| swept_find := findByPkScript;
     swept_outputs script := asks (FindSweptLockups script);
     swept_refund r outputs := refundSwept (row_id r) outputs;
     swept_record r f := base_patch (row_id r) (prod_map id (λ v, Some (VText v)) <$> refundColumnsOnly f);
     swept_decide := None;
     swept_close := None;
     swept_closable _ := false;
     swept_id := row_id;
     swept_refused r := bool_decide (state r = OnchainSend.refused);
     swept_lockupValue _ := None;
     swept_refundOutcome r := text_col r "refund_outcome";
     output_value := value |}.

Definition refundSweptLockup (script : string) : io (option SweptLockupRefund) :=
  if findsSwept deps && refundsSwept deps then refundSweptLockupFor sweptDeps script else ret None.

(** The preimage the client's own claim of the HTLC reveals, if it claimed. *)
Definition clientClaimPreimage (r : row) : io (option (list Z)) :=
  match fundingOutpoint r with
  | None => ret None
  | Some (txid, vout) =>
      witness <- findSpendWitness r txid vout ;;
      ret (mbind (M := option) (revealedBy r) witness)
  end.

(** The operator's refund of one lockup, whatever its row's state. *)
Definition refundNow (i : string) : io (option string) :=
  r <- get i ;;
  preimage <- clientClaimPreimage r ;;
  match preimage with
  | Some preimage =>
      throw (Thrown ("swap " +:+ i +:+ ": the client already claimed the onchain HTLC, preimage " +:+ hex_encode preimage +:+
        " — refunding the arkade lockup would pay them twice; claim the lockup with that preimage instead"))
  | None => pushRefund r true
  end.

(** ** Taking the solver's own HTLC back *)

Definition BigInt (n : num) : result Error Z :=
  match integer n with Some z => Ok z | None => Err (Thrown "not an integer") end.

(** The HTLC of a quote, rebuilt from its columns. *)
Definition htlcParams (q : OnchainQuote) (claimKey refundKey : list Z) : OnchainHtlcParams :=
  mkHtlcParams (ONCHAIN_NETWORKS (network deps)) (paymentHash q) claimKey refundKey (htlcLocktime q).

Definition spendOf (q : OnchainQuote) (htlc : OnchainHtlc) (fundingTxid : string) (fundingVout sats : Z) : SpendTxParams :=
  mkSpendParams htlc fundingTxid fundingVout (payoutSats q) (refundDestinationScript deps) sats.

Definition rebuiltHtlc (q : OnchainQuote) : result Error OnchainHtlc :=
  claimKey ← hexBytes (payoutPubkey q);
  refundKey ← hexBytes (htlcPubkey q);
  buildOnchainHtlc (htlcParams q claimKey refundKey).

(** One version of the refund: sized for this moment, signed, recorded before it
    is broadcast, or why there is none to send. *)
Definition pushOnchainHtlcRefund (r : row) (fundingTxid : string) (fundingVout : Z)
    (estimate : num) (previousFeeRate : option num) : io OnchainHtlcRefundAttempt :=
  let payout := payoutSats (quote r) in
  htlc <- decoded (rebuiltHtlc (quote r)) ;;
  if negb (bool_decide (hex_encode (OnchainRail.pkScript htlc) = onchainPkScript (quote r))) then
    ret (not_broadcast "onchain HTLC rebuilt from row does not match the funded pkScript" false)
  else
  let sizing := spendOf (quote r) htlc fundingTxid fundingVout in
  let vsize := estimateRefundTxVsize (sizing payout) in
  let deadline := onchainRefundConfirmDeadline (OnchainSendStore.refundLocktime (quote r)) in
  at_ <- now ;;
  let feeRate := urgencyFeeRate power estimate (feeCapRate vsize payout ONCHAIN_DUST_SATS) deadline at_ in
  match affordableFee vsize feeRate payout ONCHAIN_DUST_SATS with
  | None =>
      ret (not_broadcast ("a " +:+ pretty payout +:+ " sat HTLC cannot pay for its own " +:+ pretty (Zpos vsize) +:+
        " vB refund and still clear the " +:+ pretty ONCHAIN_DUST_SATS +:+ " sat dust limit") true)
  | Some fee =>
      let previous := mbind (M := option) (λ rate, affordableFee vsize rate payout ONCHAIN_DUST_SATS) previousFeeRate in
      let standing := mbind (M := option) (λ p, if num_lt (num_sub fee p) (of_Z (Zpos vsize)) then Some p else None) previous in
      match standing with
      | Some p =>
          ret (not_broadcast ("refund at " +:+ sats_text p +:+ " sats stands: " +:+ sats_text fee +:+
            " is all the time left calls for, under the " +:+ pretty (Zpos vsize) +:+ " sat relay increment above it") true)
      | None =>
      sats <- decoded (BigInt (num_sub (of_Z payout) fee)) ;;
      signed <- asks (SignRefund (buildOnchainRefundTx (sizing sats))) ;;
      at_ <- now ;;
      base_patch (row_id r)
        (set_text "onchain_refund_txid" (signed_id signed) ++
         set_text "onchain_refund_prior_txids"
           (join " " (filter (λ txid, txid ≠ signed_id signed) (unique [] (trackedRefundTxids r)))) ++
         [("onchain_refund_fee_rate", Some (VReal feeRate))] ++
         set_int "onchain_refund_broadcast_at" at_) ;;;
      request (BroadcastRefund (row_id r) (extracted signed)) ;;;
      ret (was_broadcast (signed_id signed))
      end
  end.

(** Nothing while the standing version is not due for a bump. *)
Definition replaceOnchainHtlcRefund (r : row) (fundingTxid : string) (fundingVout : Z) : io (option string) :=
  at_ <- now ;;
  if negb (bumpDue (default (updated_at r) (int_col r "onchain_refund_broadcast_at")) at_) then ret None
  else
  estimate <- asks EstimateFeeRate ;;
  attempt <- pushOnchainHtlcRefund r fundingTxid fundingVout estimate
               (Some (default estimate (num_col r "onchain_refund_fee_rate"))) ;;
  ret (match attempt with was_broadcast txid => Some txid | not_broadcast _ _ => None end).

Definition whenRefundingOnchain (r : row) : io bool :=
  match fundingOutpoint r with
  | None =>
      fail (row_id r) OnchainSend.refunding_onchain "refunding_onchain state with no funding txid/vout" ;;; ret false
  | Some (txid, vout) =>
      tracked <- outcomeOfAny (trackedRefundTxids r) false ;;
      match tracked with
      | tracked_confirmed refund_txid =>
          transition (row_id r) OnchainSend.refunding_onchain OnchainSend.refunded
            (set_text "onchain_refund_txid" refund_txid)
      | tracked_mempool => replaceOnchainHtlcRefund r txid vout ;;; ret false
      | tracked_unknown =>
          witness <- findSpendWitness r txid vout ;;
          match witness with
          | Some witness =>
              match revealedBy r witness with
              | Some preimage =>
                  transition (row_id r) OnchainSend.refunding_onchain OnchainSend.claiming
                    (set_text "preimage" (hex_encode preimage))
              | None => fail (row_id r) OnchainSend.refunding_onchain NOT_A_CLAIM ;;; ret false
              end
          | None =>
              estimate <- asks EstimateFeeRate ;;
              attempt <- pushOnchainHtlcRefund r txid vout estimate None ;;
              match attempt with
              | was_broadcast _ => ret false
              | not_broadcast reason retry =>
                  early <- (if retry then at_ <- now ;; ret (at_ <? OnchainSendStore.refundLocktime (quote r)) else ret false) ;;
                  if early then throw (Thrown reason)
                  else fail (row_id r) OnchainSend.refunding_onchain reason ;;; ret false
              end
          end
      end
  end.

(** The slot a tick of the row would hold. *)
Definition slotted {A} (i : string) (p : io A) : io A :=
  free <- call (TryTick self i) ;;
  if negb free then throw (Thrown ("swap " +:+ i +:+ " is already being ticked; retry once that tick finishes"))
  else finally p (trigger (EndTick self i)).

(** Replaced while a version waits in the mempool, else broadcast afresh. *)
Definition reclaimVersion (r : row) (txid : string) (vout : Z) (waiting : option string) : io string :=
  match waiting with
  | Some latest => replaced <- replaceOnchainHtlcRefund r txid vout ;; ret (default latest replaced)
  | None =>
      estimate <- asks EstimateFeeRate ;;
      attempt <- pushOnchainHtlcRefund r txid vout estimate None ;;
      match attempt with
      | was_broadcast txid => ret txid
      | not_broadcast reason _ => throw (Thrown reason)
      end
  end.

(** A matching claim is better surfaced than broadcast over. *)
Definition reclaimUnclaimed (r : row) (txid : string) (vout : Z) (waiting : option string) : io string :=
  witness <- findSpendWitness r txid vout ;;
  match mbind (M := option) (revealedBy r) witness with
  | Some preimage =>
      throw (Thrown ("swap " +:+ row_id r +:+ "'s onchain HTLC was already claimed by the client, preimage " +:+ hex_encode preimage +:+
        " — a refund of it can never confirm; claim the Arkade lockup with that preimage instead"))
  | None => slotted (row_id r) (reclaimVersion r txid vout waiting)
  end.

(** The operator's reclaim of one row's HTLC, whatever its state: the refund on
    the wire. *)
Definition reclaimOnchainHtlc (i : string) : io string :=
  r <- get i ;;
  match fundingOutpoint r with
  | None =>
      throw (Thrown ("swap " +:+ i +:+ " has no funding txid/vout: nothing was ever broadcast to the onchain HTLC"))
  | Some (txid, vout) =>
      tracked <- outcomeOfAny (trackedRefundTxids r) false ;;
      match tracked with
      | tracked_confirmed refund_txid => ret refund_txid
      | tracked_mempool => reclaimUnclaimed r txid vout (head (trackedRefundTxids r))
      | tracked_unknown => reclaimUnclaimed r txid vout None
      end
  end.

(** Row-independent: the backend's own address is the whole input. *)
Definition settleRefundDeposits : io (list ReceiveSettlement) :=
  if settlesDeposits deps then request SettleReceiveAddress else ret [].

(** ** Funding *)

Definition adopted_of (o : FundedOutput) : AdoptedOutput := mkAdopted (txid o) (vout o) (value o).

Definition recordHeldFail (r : row) (held : Z) (reason : string) : io bool :=
  base_patch (row_id r) (set_int "onchain_lockup_value" held) ;;;
  fail (row_id r) OnchainSend.quoted reason ;;;
  ret false.

Definition whenQuoted (r : row) : io bool :=
  all <- asks (FindLockups (pkScript (quote r))) ;;
  let outputs := satsOutputs all in
  let locked := totalValue outputs in
  let held := totalValue all in
  let amount := amountSats (quote r) in
  at_ <- now ;;
  let timedOut := created_at r + DEFAULT_ONCHAIN_LOCKUP_TIMEOUT <=? at_ in
  if amount <? locked then
    recordHeldFail r held ("overfunded lockup: " +:+ pretty locked +:+ " > " +:+ pretty amount +:+ " sats")
  else if (locked =? amount) && (MAX_LOCKUP_SPEND_INPUTS <? length outputs)%nat then
    fail (row_id r) OnchainSend.quoted
      ("lockup funded in " +:+ pretty (length outputs) +:+ " outputs, over " +:+ pretty MAX_LOCKUP_SPEND_INPUTS) ;;;
    ret false
  else if (locked <? amount) && (amount <=? held) then
    recordHeldFail r held
      ("lockup funded on an asset vtxo a claim cannot spend: " +:+ pretty held +:+ " held, " +:+
       pretty locked +:+ " spendable")
  else if (locked =? amount) && negb timedOut then
    match (if bool_decide (network deps = regtest_network) then None
           else expiryBeforeClaimDeadline (expiresAt <$> outputs) (htlcLocktime (quote r))) with
    | Some expires =>
        fail (row_id r) OnchainSend.quoted
          ("lockup expires at " +:+ pretty expires +:+ ", before " +:+ pretty (arkadeClaimDeadline (htlcLocktime (quote r))) +:+
           " — the last moment a claim answering this swap could still need it") ;;;
        ret false
    | None =>
        transition (row_id r) OnchainSend.quoted OnchainSend.funded
          [("onchain_lockup_txid", option_map (λ o, VText (txid o)) (head outputs));
           ("onchain_lockup_vout", option_map (λ o, VInt (vout o)) (head outputs));
           ("onchain_lockup_value", Some (VInt locked));
           ("lockup_outpoints", Some (VText (stringifyOutpoints (adopted_of <$> outputs))))]
    end
  else if timedOut then
    (if 0 <? held then base_patch (row_id r) (set_int "onchain_lockup_value" held) else ret tt) ;;;
    fail (row_id r) OnchainSend.quoted
      (if 0 <? locked then "lockup timeout with partial " +:+ pretty locked +:+ " sats" else "lockup timeout") ;;;
    ret false
  else ret false.

(** Read again right before money moves. *)
Definition lockupShortfall (r : row) : io (option string) :=
  outputs <- asks (FindLockups (pkScript (quote r))) ;;
  let held := totalValue outputs in
  let funded := default (amountSats (quote r)) (int_col r "onchain_lockup_value") in
  ret (if held <? funded
       then Some ("lockup holds " +:+ pretty held +:+ " of " +:+ pretty funded +:+ " sats at funding: unrolled, swept or spent")
       else None).

(** The reason not to fund, of the gate alone. *)
Definition fundingDecision (r : row) : io (option string) :=
  at_ <- now ;;
  ret (funding_decision_text (evaluateOnchainSendFunding (OnchainSendStore.refundLocktime (quote r)) (htlcLocktime (quote r)) (minConfirmations (quote r)) at_)).

Definition fundingRefusal (r : row) : io (option string) :=
  if negb (providerKeyCurrent (providerPubkey (quote r)) (live_providerPubkey deps)) then ret (Some KEY_ROTATED)
  else fundingDecision r.

(** Off a recovered row a funding that threw may still land: that refusal parks.
    The transition goes before the release. *)
Definition refuseFunding (r : row) (fresh : bool) (reason : string) : io bool :=
  (if fresh then refused <- refuseUnrecorded (row_id r) reason ;; if refused then releaseLease (row_id r) else ret tt
   else fail (row_id r) OnchainSend.funding_onchain reason) ;;;
  ret false.

(** The first of two refusals, the second asked only without the first. *)
Definition or_else {A} (p q : io (option A)) : io (option A) :=
  found <- p ;; match found with Some a => ret (Some a) | None => q end.

(** Only ever the recorded funding. *)
Definition publishFunding (r : row) (tx : string) (recheck : bool) : io bool :=
  output <- decoded (fundingOutputOf tx (quote r)) ;;
  let '(txid, vout) := output in
  outcome <- asks (TransactionOutcome txid) ;;
  refusal <- (if bool_decide (outcome = outcome_unknown) && recheck
              then or_else (fundingRefusal r) (lockupShortfall r) else ret None) ;;
  match refusal with
  | Some refusal =>
      fail (row_id r) OnchainSend.funding_onchain
        (refusal +:+ "; recorded funding " +:+ txid +:+ " was never seen on chain") ;;;
      ret false
  | None =>
      (if bool_decide (outcome = outcome_unknown) then request (BroadcastFunding (row_id r) tx) else ret tt) ;;;
      transition (row_id r) OnchainSend.funding_onchain OnchainSend.awaiting_claim
        (set_text "funding_txid" txid ++ set_int "funding_vout" vout)
  end.

(** A signed funding, or why there is none; nothing is broadcast yet, so a
    throw gives the lease back. *)
Definition signFunding (r : row) : io (string + string) :=
  try_catch
    (shortfall <- lockupShortfall r ;;
     match shortfall with
     | Some shortfall => ret (inr shortfall)
     | None =>
         rate <- asks EstimateFeeRate ;;
         signed <- signed_funding (row_id r) (onchainAddress (quote r)) (payoutSats (quote r))
                     (num_round (num_max rate (of_Z MIN_RELAY_FEE_RATE))) ;;
         ret (inl signed)
     end)
    (λ e, releaseLease (row_id r) ;;; throw e).

(** [fresh]: the entry took the lease. *)
Definition submitFunding (r : row) (fresh : bool) : io bool :=
  leased <- (if fresh then ret true else claimLease (row_id r) OnchainSend.funding_onchain) ;;
  if negb leased then ret false
  else
  refusal <- fundingRefusal r ;;
  match refusal with
  | Some refusal => refuseFunding r fresh refusal
  | None =>
      signed <- signFunding r ;;
      match signed with
      | inr shortfall => refuseFunding r fresh shortfall
      | inl tx =>
          recorded <- recordFundingTx (row_id r) tx ;;
          if negb recorded then ret false else publishFunding r tx false
      end
  end.

Definition whenFunded (r : row) : io bool :=
  if negb (providerKeyCurrent (providerPubkey (quote r)) (live_providerPubkey deps)) then
    fail (row_id r) OnchainSend.funded KEY_ROTATED ;;; ret false
  else
  refusal <- fundingDecision r ;;
  match refusal with
  | Some reason => fail (row_id r) OnchainSend.funded reason ;;; ret false
  | None =>
      approved <- askApproval (approvalGate deps) (row_id r) (amountSats (quote r)) ;;
      if negb approved then ret false
      else
      shortfall <- lockupShortfall r ;;
      match shortfall with
      | Some shortfall => fail (row_id r) OnchainSend.funded shortfall ;;; ret false
      | None =>
          entered <- enterFunding (row_id r) ;;
          if negb entered then ret false
          else current <- get (row_id r) ;; submitFunding current true
      end
  end.

(** Nothing recorded: ask the chain for an output of exactly the payout. *)
Definition recoverFunding (r : row) : io bool :=
  match truthy (text_col r "funding_tx") with
  | Some tx => publishFunding r tx true
  | None =>
      outputs <- asks (FindOutputs (onchainAddress (quote r))) ;;
      match list_find (λ o, valueSats o = payoutSats (quote r)) outputs with
      | None => submitFunding r false
      | Some (_, already) =>
          transition (row_id r) OnchainSend.funding_onchain OnchainSend.awaiting_claim
            (set_text "funding_txid" (output_txid already) ++ set_int "funding_vout" (output_vout already))
      end
  end.

Definition checkFunded (r : row) : io bool :=
  transition (row_id r) OnchainSend.funding_onchain OnchainSend.awaiting_claim [].

Definition whenFundingOnchain (r : row) : io bool :=
  if bool_decide (is_Some (truthy (text_col r "funding_txid"))) then checkFunded r else recoverFunding r.

(** ** Collecting *)

Definition overdue (r : row) : io bool :=
  match int_col r "fund_started_at" with
  | Some started => at_ <- now ;; ret (FUNDING_STUCK_ALERT_SECONDS <=? at_ - started)
  | None => ret false
  end.

(** A funding that will not confirm, to a human. *)
Definition alertUnconfirmed (r : row) (txid : string) : io unit :=
  late <- overdue r ;;
  if negb late then ret tt
  else
  outcome <- asks (TransactionOutcome txid) ;;
  if bool_decide (outcome = outcome_confirmed) then ret tt
  else
  at_ <- now ;;
  onTickError (row_id r) (Thrown ("funding " +:+ txid +:+ " unconfirmed " +:+ pretty (at_ - default 0 (int_col r "fund_started_at")) +:+
    "s after broadcast — bump or CPFP before refund_locktime " +:+ pretty (OnchainSendStore.refundLocktime (quote r)) +:+
    " (the client reclaims the Arkade lockup after it, so a later confirm pays both sides); htlc_locktime " +:+ pretty (htlcLocktime (quote r)))).

Definition whenAwaitingClaim (r : row) : io bool :=
  match fundingOutpoint r with
  | None =>
      fail (row_id r) OnchainSend.awaiting_claim "awaiting_claim state with no funding txid/vout" ;;; ret false
  | Some (txid, vout) =>
      witness <- findSpendWitness r txid vout ;;
      match witness with
      | None =>
          at_ <- now ;;
          if htlcLocktime (quote r) + HTLC_REFUND_MTP_MARGIN <=? at_
          then transition (row_id r) OnchainSend.awaiting_claim OnchainSend.refunding_onchain []
          else alertUnconfirmed r txid ;;; ret false
      | Some witness =>
          match revealedBy r witness with
          | None => fail (row_id r) OnchainSend.awaiting_claim NOT_A_CLAIM ;;; ret false
          | Some preimage =>
              at_ <- now ;;
              let timeLeft := arkadeClaimTimeLeft (OnchainSendStore.refundLocktime (quote r)) at_ in
              (if timeLeft <? ARKADE_CLAIM_WINDOW_SECONDS
               then onTickError (row_id r) (Thrown ("claim race: " +:+ pretty timeLeft +:+ "s left to claim the arkade lockup, under the " +:+
                      pretty ARKADE_CLAIM_WINDOW_SECONDS +:+ "s budget (refund_locktime " +:+ pretty (OnchainSendStore.refundLocktime (quote r)) +:+
                      ", htlc_locktime " +:+ pretty (htlcLocktime (quote r)) +:+ ") — claiming anyway"))
               else ret tt) ;;;
              transition (row_id r) OnchainSend.awaiting_claim OnchainSend.claiming (set_text "preimage" (hex_encode preimage))
          end
      end
  end.

Definition unrolledOps (i preimage : string) : UnrolledOps (E := event) :=
  {| findLockupOutpoints := if readsOutpoints deps then Some (λ script, asks (FindLockupOutpoints script)) else None;
     claimUnrolled :=
       if claimsUnrolled deps
       then Some (λ output record, request (ClaimUnrolled i output record preimage)) else None;
     resumeUnrolled output := request (ResumeUnrolled i output preimage);
     saves := savesPerClaim deps;
     findClaimPreimage :=
       if readsClaimPreimage deps
       then Some (λ o hash, found <- asks (FindClaimPreimage [(op_txid o, op_vout o)] hash) ;;
                            ret (bool_decide (is_Some (found : option (list Z)))))
       else None |}.
Definition rowStore : RowStore (E := event) OnchainSend.state :=
  {| store_patch := base_patch; store_transition := transition; store_fail := fail |}.

Definition leftoverOf (r : row) (preimage : string) (claimedNow : list FundedOutput) (unrolled : option UnrolledClaims)
    : io (list string) :=
  lockupLeftover (unrolledOps (row_id r) preimage) (pkScript (quote r)) (paymentHash (quote r))
    (text_col r "lockup_outpoints") claimedNow unrolled.

(** [this.now() >= row.refundLocktime] *)
Definition pastRefund (r : row) : io bool :=
  at_ <- now ;; ret (OnchainSendStore.refundLocktime (quote r) <=? at_).

(** A spend revealing the preimage, with no adopted output still out. *)
Definition landedEarlier (r : row) (preimage : string) : io bool :=
  outpoints <- (if readsOutpoints deps then asks (FindLockupOutpoints (pkScript (quote r))) else ret []) ;;
  found <- (if negb (bool_decide (outpoints = [])) && readsClaimPreimage deps
            then asks (FindClaimPreimage ((λ o, (op_txid o, op_vout o)) <$> outpoints) (paymentHash (quote r))) else ret None) ;;
  if bool_decide (is_Some (found : option (list Z)))
  then leftover <- leftoverOf r preimage [] None ;; ret (bool_decide (leftover = []))
  else ret false.

(** Nothing to claim with certainty: a provable spend or the deadline decides. *)
Definition whenShort (r : row) (held : Z) (preimage : string) : io bool :=
  evidence <- asks (SpendEvidence (pkScript (quote r))) ;;
  let spent := bool_decide (evidence = evidence_spent) in
  early <- (if spent then ret false else past <- pastRefund r ;; ret (negb past)) ;;
  if early then
    throw (Thrown ("swap " +:+ row_id r +:+ ": lockup holds " +:+ pretty held +:+ " < " +:+
                   pretty (amountSats (quote r)) +:+ " while claiming but no spend is provable (" +:+ lockup_evidence_text evidence +:+ ")"))
  else
  pending <- (if spent && finalizesClaims deps then finalizePendingClaim (row_id r) preimage else ret None) ;;
  match truthy pending with
  | Some txid => transition (row_id r) OnchainSend.claiming OnchainSend.claimed (set_text "claim_ark_txid" txid)
  | None =>
      landed <- landedEarlier r preimage ;;
      if landed then transition (row_id r) OnchainSend.claiming OnchainSend.claimed [("claim_ark_txid", None)]
      else
      fail (row_id r) OnchainSend.claiming
        ("lockup holds " +:+ pretty held +:+ " < amount " +:+ pretty (amountSats (quote r)) +:+
         " while claiming; no claim txid recorded; needs review") ;;;
      ret false
  end.

(** The collaborative claim: its transaction, none needed, or a row handed over
    because it keeps failing past the deadline. *)
Definition claimOffchain (r : row) (outputs : list FundedOutput) (preimage : string)
    : io (option string + unit) :=
  try_catch
    (if bool_decide (outputs = []) then ret (inl None)
     else txid <- claim (row_id r) outputs preimage ;; ret (inl (Some txid)))
    (λ e,
      past <- pastRefund r ;;
      if past then
        fail (row_id r) OnchainSend.claiming
          ("claim failing past the refund deadline: " +:+ message e +:+ " — " +:+ onchainRecourse r) ;;;
        ret (inr tt)
      else throw e).

(** The outputs adopted at funding that are still out once all claims are settled. *)
Definition leftoverNow (r : row) (outputs : list FundedOutput) (preimage : string) (txid : option string)
    (unrolled : option UnrolledClaims) : io (list string) :=
  if match unrolled with None => true | Some c => settled c end then
    claimedNow <- match txid with
                  | None => ret []
                  | Some _ => at_ <- now ;; ret (boundedSpendInputs outputs at_)
                  end ;;
    leftoverOf r preimage claimedNow unrolled
  else ret [].

Definition finishClaim (r : row) (outputs : list FundedOutput) (preimage : string) (txid : option string)
    (unrolled : option UnrolledClaims) : io bool :=
  leftover <- leftoverNow r outputs preimage txid unrolled ;;
  if negb (bool_decide (leftover = [])) then
    past <- pastRefund r ;;
    awaitLeftover rowStore (row_id r) OnchainSend.claiming txid leftover past (onchainRecourse r)
  else match unrolled with
  | None =>
      transition (row_id r) OnchainSend.claiming OnchainSend.claimed
        [("claim_ark_txid", option_map VText txid)] ;;;
      ret false
  | Some claims =>
      (match txid with Some txid => base_patch (row_id r) (set_text "claim_ark_txid" txid) | None => ret tt end) ;;;
      settleUnrolledClaims rowStore (row_id r) OnchainSend.claiming OnchainSend.claimed claims (onchainRecourse r)
  end.

Definition whenClaiming (r : row) : io bool :=
  match truthy (text_col r "preimage") with
  | None => fail (row_id r) OnchainSend.claiming "claiming state with no preimage" ;;; ret false
  | Some preimage =>
      all <- asks (FindLockups (pkScript (quote r))) ;;
      let outputs := claimOutputs all (amountSats (quote r)) in
      unrolled <- advanceUnrolledClaims (unrolledOps (row_id r) preimage) rowStore (row_id r)
                    (pkScript (quote r)) (text_col r "unrolled_claim") ;;
      let held := totalValue outputs in
      if (held <? amountSats (quote r)) && bool_decide (unrolled = None) then whenShort r held preimage
      else
      claimed <- claimOffchain r outputs preimage ;;
      match claimed with
      | inr _ => ret false
      | inl txid => finishClaim r outputs preimage txid unrolled
      end
  end.

(** ** Ticks, sweeps and the operator *)

Definition step (r : row) : io bool :=
  match state r with
  | OnchainSend.quoted => whenQuoted r
  | OnchainSend.funded => whenFunded r
  | OnchainSend.funding_onchain => whenFundingOnchain r
  | OnchainSend.awaiting_claim => whenAwaitingClaim r
  | OnchainSend.claiming => whenClaiming r
  | OnchainSend.refunding_onchain => whenRefundingOnchain r
  | _ => ret false
  end.

Definition tick (fuel : nat) (i : string) : io row := guardedTick fuel self i step.

Definition held_off (i : string) : io bool :=
  skip <- asks (ShouldSkipTick i) ;;
  if skip then ret true else call (InFlight self i).

Definition tickAll (fuel : nat) : io (list row) :=
  live <- findRecoverable ;; sweep held_off live (tick fuel).

(** Puts one parked row back on the claim path; its own preimage justifies it. *)
Definition onchainClaimNow (i : string) : io unit :=
  r <- get i ;;
  if negb (bool_decide (state r = OnchainSend.stuck)) then
    throw (Thrown ("swap " +:+ i +:+ " is " +:+ state_text (state r) +:+ ", not stuck; only a stuck row is recovered by hand"))
  else match truthy (text_col r "preimage") with
  | None =>
      throw (Thrown ("swap " +:+ i +:+ " has no preimage on the row: nothing proves the client revealed P, so this is not a claim to recover. " +:+
        "If the client never claimed the onchain HTLC, the refund paths are onchain-refund-now and reclaim-l1-htlc."))
  | Some preimage =>
      if negb (preimageMatchesHash sha256 preimage (paymentHash (quote r))) then
        throw (Thrown ("the preimage on swap " +:+ i +:+ " does not hash to its payment hash (" +:+ paymentHash (quote r) +:+ ")"))
      else
      moved <- transition i OnchainSend.stuck OnchainSend.claiming [] ;;
      if negb moved
      then throw (Thrown ("swap " +:+ i +:+ " moved out of stuck while being recovered; re-read it before trying again"))
      else ret tt
  end.
End onchain_send.
