(* ===== verification/EvmSendService.v ===== *)
(** * The send service: [arkade:BTC->ethereum:<token>]

    [EvmSendSwapService] of [packages/solver-corridors-evm/src/send/evmOrchestrator.ts]:
    one tick observes, asks the planner and carries out what it says; the sweeps
    drive the live rows, watch closed rows whose lock may still be out, and hand
    refused lockups back. *)
From Stdlib Require Import QArith_base Qround Ascii String.
From S2P Require Import Prelude StateMachine EvmPlan BlockTime Prog SwapDb EvmRow Store EvmStore World EvmService SweptRefund.
#[local] Open Scope Z_scope.

(** The requests of this service that cannot be taken back. *)
Inductive EvmPayoutFundingMode := start | reconcile | recover.
Inductive SendEffect :=
  | LockCall (i : string) (call : string)
  | RefundCall (i : string) (call : string)
  | EnsureFunding (i : string) (b : EvmPayoutFundingBinding) (mode : EvmPayoutFundingMode)
  | ClaimArkade (i : string) (preimage : string)
  | RefundLockup (c : CovenantScriptRow) (outputs : list string)
  | RefundSwept (c : CovenantScriptRow) (outputs : list (string * Z))
  | SweepRecovery.

#[export] Instance SendReplies : Replies SendEffect := λ a,
  match a with EnsureFunding _ _ _ => option string | SweepRecovery => unit | _ => string end.

(** What the host injects: the funding adapter by its identity, whether an
    approval gate is set, and the cadence of [eth_blockNumber]. *)
Record SendDeps := mkSendDeps {
  payoutFunding : option string;
  approvalGate : bool;
  fastestBlock : Q;
}.

Definition TXID (s : string) : bool :=
  match s with
  | String "0"%char (String "x"%char rest) =>
      bool_decide (String.length rest = 64%nat) && bool_decide (is_Some (hex_decode rest))
  | _ => false
  end.

(** [checkedActivationTxid] of [send/evmPayoutFunding.ts]. *)
Definition checkedActivationTxid (txid : option string) : result Error (option string) :=
  match txid with
  | Some s => if TXID s then Ok (Some (toLowerCase s))
              else Err (Thrown "invalid payout funding activation transaction hash")
  | None => Ok None
  end.

Section send.
Context `{EvmHtlcBackend} (deps : SendDeps) (self : nat).
#[local] Open Scope io_scope.
#[local] Abbreviation row := EvmSendRow.
#[local] Abbreviation event := (evt EvmSend.state CommonQuote SendEffect ask).
#[local] Abbreviation io := (io event Error).

(** ** Observing *)

Definition lockReverted (r : row) : io bool :=
  match state r, text_col r "evm_lock_txid" with
  | EvmSend.locking_evm, Some txid =>
      try_catch (outcome <- asks (TransactionOutcome txid) ;;
                 ret (bool_decide (outcome = reverted)))
        (λ e, onTickError (row_id r) e ;;; ret false)
  | _, _ => ret false
  end.

Definition refundOutcome (r : row) : io EvmTransactionOutcome :=
  match state r, text_col r "evm_refund_txid" with
  | EvmSend.refunding_evm, Some txid =>
      try_catch (asks (TransactionOutcome txid))
        (λ e, onTickError (row_id r) e ;;; ret pending)
  | _, _ => ret pending
  end.

Definition refundLanded (r : row) : io bool :=
  if bool_decide (state r ≠ EvmSend.refunding_evm) then ret false
  else lock <- lockFor r ;;
       try_catch (asks (FindRefund lock (lock_timelock lock)))
         (λ e, onTickError (row_id r) e ;;; ret false).

Definition rowCreationFloor (r : row) (height nowSeconds : Z) : Z :=
  let elapsed := nowSeconds - created_at r in
  if elapsed <? 0 then 0
  else let blocks := Qceiling (inject_Z elapsed / fastestBlock deps) in
       if blocks <? height then height - blocks else 0.

Definition claimScanFloor (r : row) (height : Z) : io Z :=
  mined <- match text_col r "evm_lock_txid" with
           | None => ret None
           | Some txid => asks (TransactionBlock txid)
           end ;;
  floor <- match mined with
           | Some block => ret block
           | None => nowSeconds <- now ;; ret (rowCreationFloor r height nowSeconds)
           end ;;
  let margin := minConfirmations (quote r) in
  ret (if margin <? floor then floor - margin else 0).

Definition findPreimage (r : row) (lock : Erc20SwapLock) (height : Z) : io (option string) :=
  floor <- claimScanFloor r height ;;
  nowSeconds <- now ;;
  found <- asks (FindClaimPreimage lock floor (minConfirmations (quote r))
                           (minAgeSeconds (quote r)) nowSeconds) ;;
  ret (hex_encode <$> found).

(** The preimage of the row, or the one its claim reveals. *)
Definition observePreimage (r : row) (lock : Erc20SwapLock) (height : Z) : io (option string) :=
  match text_col r "preimage" with
  | Some preimage => ret (Some preimage)
  | None =>
      if bool_decide (state r ∈ EvmSend.EVM_SEND_EXPOSED) then
        try_catch (findPreimage r lock height)
          (λ e, match e with
                | EvmClaimVerificationError _ => throw e
                | _ => onTickError (row_id r) e ;;; ret None
                end)
      else ret None
  end.

Definition observe (r : row) : io SendPlan.EvmSendObservation :=
  lock <- lockFor r ;;
  funded <- asks (ArkadeLockupFunded (row_id r) (quote r)) ;;
  present <- asks (IsLocked lock) ;;
  height <- asks BlockHeight ;;
  clock <- asks TimelockHeight ;;
  reverted <- lockReverted r ;;
  outcome <- refundOutcome r ;;
  landed <- refundLanded r ;;
  preimage <- observePreimage r lock height ;;
  nowSeconds <- now ;;
  depth <- provenDepth (row_id r) lock present height (minConfirmations (quote r)) nowSeconds ;;
  nowSeconds <- now ;;
  ret (SendPlan.mkSeen funded present reverted outcome landed (confirmations depth)
         (ageSeconds depth) preimage nowSeconds clock).

Definition planRow (r : row) : SendPlan.EvmSendPlanRow :=
  SendPlan.mkRow (state r) (refundLocktime (quote r)) (evmTimeout (quote r)) (validUntil (quote r))
    (minConfirmations (quote r)) (minAgeSeconds (quote r)) (text_col r "preimage")
    (text_col r "evm_refund_txid").

(** ** Acting *)

Definition bindingFor (adapter : string) (r : row) : io EvmPayoutFundingBinding :=
  lock <- lockFor r ;;
  lifted InvalidBinding (payoutFundingBinding adapter (row_id r) (quote r) lock).

Definition ensurePayoutFunding (r : row) (mode : EvmPayoutFundingMode) : io unit :=
  match payoutFunding deps with
  | None => ret tt
  | Some adapter =>
      binding <- bindingFor adapter r ;;
      now ;;;
      asks BlockHeight ;;;
      asks TimelockHeight ;;;
      activation <- request (EnsureFunding (row_id r) binding mode) ;;
      checked <- lifted id (checkedActivationTxid activation) ;;
      match checked with
      | None => ret tt
      | Some txid =>
          current <- get (row_id r) ;;
          match text_col current "evm_lock_txid" with
          | Some known =>
              if bool_decide (toLowerCase known = txid) then ret tt
              else throw (Thrown "payout funding changed activation transaction")
          | None => patch (row_id r) [("evm_lock_txid", Some (VText txid))]
          end
      end
  end.

Fixpoint broadcastAll (i : string) (calls : list string) (txid : string) : io string :=
  match calls with
  | [] => ret txid
  | c :: rest => sent <- request (LockCall i c) ;; broadcastAll i rest sent
  end.

Definition lockEvm (r : row) : io bool :=
  current <- get (row_id r) ;;
  seen <- observe current ;;
  match SendPlan.planEvmSend (planRow current) seen with
  | SendPlan.lock_evm =>
      approved <- askApproval (approvalGate deps) (row_id current) (amountSats (quote current)) ;;
      if negb approved then ret false else
      match payoutFunding deps with
      | Some adapter => bindingFor adapter current ;;; ret tt
      | None => ret tt
      end ;;;
      transition (row_id current) (state current) EvmSend.locking_evm [] ;;;
      match payoutFunding deps with
      | Some _ =>
          locking <- get (row_id current) ;;
          ensurePayoutFunding locking start ;;;
          ret true
      | None =>
          lock <- lockFor current ;;
          allowance <- asks (Allowance (lock_tokenAddress lock)) ;;
          let calls := lockCalls lock allowance in
          if bool_decide (calls = []) then throw (Thrown "lockCalls returned no calls")
          else txid <- broadcastAll (row_id current) calls "" ;;
               patch (row_id current) [("evm_lock_txid", Some (VText txid))] ;;;
               ret true
      end
  | _ => ret true
  end.

(** Rows of one process lock one at a time. *)
Definition lockInSequence (r : row) : io bool :=
  call (Enter self) ;;;
  finally (lockEvm r) (trigger (Leave self)).

Definition claimArkade (r : row) (preimage : string) : io bool :=
  current <- (if bool_decide (state r = EvmSend.claiming) then ret r else get (row_id r)) ;;
  (if bool_decide (state current ≠ EvmSend.claiming)
   then transition (row_id r) (state current) EvmSend.claiming [("preimage", Some (VText preimage))]
   else ret tt) ;;;
  claiming <- get (row_id r) ;;
  txid <- request (ClaimArkade (row_id claiming) preimage) ;;
  transition (row_id r) EvmSend.claiming EvmSend.claimed [("claim_ark_txid", Some (VText txid))] ;;;
  ret false.

Definition refundEvm (r : row) : io bool :=
  (if bool_decide (state r ≠ EvmSend.refunding_evm)
   then transition (row_id r) (state r) EvmSend.refunding_evm [] else ret tt) ;;;
  lock <- lockFor r ;;
  txid <- request (RefundCall (row_id r) (refundCall lock)) ;;
  first <- claimRefundTxid (row_id r) txid ;;
  (if negb first then onTickError (row_id r) (Thrown "refund broadcast after another instance recorded one")
   else ret tt) ;;;
  ret false.

Definition recoverFunding (r : row) : io bool :=
  reason <- try_catch
    (ensurePayoutFunding r recover ;;;
     ret "no EVM lock is proven; provider recovery remains in its independent ledger")
    (λ e, onTickError (row_id r) e ;;;
     ret "provider recovery failed without a proven EVM lock; independent ledger retained") ;;
  current <- get (row_id r) ;;
  fail (row_id current) (state current) reason ;;;
  ret false.

(** Carrying out what the planner said. *)
Definition perform (r : row) (seen : SendPlan.EvmSendObservation) (action : SendPlan.EvmSendAction)
    : io bool :=
  if bool_decide (is_Some (payoutFunding deps)) && bool_decide (action = SendPlan.refund_evm) &&
     negb (SendPlan.evmLockPresent seen)
  then recoverFunding r
  else match action with
  | SendPlan.wait => ret false
  | SendPlan.refuse reason =>
      transition (row_id r) (state r) EvmSend.refused [("failure_reason", Some (VText reason))] ;;;
      ret false
  | SendPlan.stick reason => fail (row_id r) (state r) reason ;;; ret false
  | SendPlan.lock_evm => lockInSequence r
  | SendPlan.await_claim => transition (row_id r) (state r) EvmSend.awaiting_claim [] ;;; ret true
  | SendPlan.claim_arkade preimage => claimArkade r preimage
  | SendPlan.refund_evm => refundEvm r
  | SendPlan.record_refund =>
      transition (row_id r) EvmSend.refunding_evm EvmSend.refunded [] ;;; ret false
  end.

Definition step (r : row) : io bool :=
  seen <- observe r ;;
  let action := SendPlan.planEvmSend (planRow r) seen in
  if bool_decide (is_Some (payoutFunding deps)) && bool_decide (state r = EvmSend.locking_evm) &&
     bool_decide (action = SendPlan.wait)
  then ensurePayoutFunding r reconcile ;;;
       r <- get (row_id r) ;;
       seen <- observe r ;;
       perform r seen (SendPlan.planEvmSend (planRow r) seen)
  else perform r seen action.

Definition quarantine (r : row) (e : Error) : io bool :=
  match e with
  | EvmPayoutFundingQuarantinedError message =>
      current <- get (row_id r) ;;
      if bool_decide (state current ≠ EvmSend.locking_evm) then throw e
      else onTickError (row_id current) e ;;;
           fail (row_id current) (state current) message ;;;
           ret false
  | _ => throw e
  end.

Definition tick (fuel : nat) (i : string) : io row :=
  guardedTick fuel self i (λ r, try_catch (step r) (quarantine r)).

(** ** Sweeping *)

Definition watchLateLock (height : Z) (r : row) : io (option unit) :=
  try_catch
    (lock <- lockFor r ;;
     present <- asks (IsLocked lock) ;;
     claimed <- match text_col r "preimage" with
                | None => findPreimage r lock height
                | Some _ => ret None
                end ;;
     match claimed with
     | Some preimage =>
         patch (row_id r) [("preimage", Some (VText preimage))] ;;;
         onTickError (row_id r) (Thrown "the client claimed the ERC20 after this row was closed") ;;;
         ret None
     | None =>
         if present then
           first <- firstReport self (row_id r) ;;
           (if first then onTickError (row_id r) (Thrown "the ERC20 lock is funded on a closed row")
            else ret tt) ;;;
           ret None
         else ret None
     end)
    (λ e, onTickError (row_id r) e ;;; ret None).

Definition watchLateLocks : io unit :=
  nowSeconds <- now ;;
  watched <- findClosedOverLock nowSeconds ;;
  match watched with
  | [] => ret tt
  | _ =>
      height <- asks BlockHeight ;;
      for_each watched (watchLateLock height) ;;;
      ret tt
  end.

Definition sweepRows (fuel : nat) : io (list row) :=
  live <- findLive ;;
  rows <- sweep unheld live (tick fuel) ;;
  watchLateLocks ;;;
  ret rows.

(** A sweep already under way is joined: whatever it answers, [None] here. *)
Definition tickAll (fuel : nat) : io (option (list row)) :=
  free <- call (TrySweep self) ;;
  if negb free then ret None
  else finally (rows <- sweepRows fuel ;; ret (Some rows)) (trigger (EndSweep self)).

Definition payoutFundingRecoverySweep (adapter : bool) : io unit :=
  try_catch (if adapter then request SweepRecovery ;;; ret tt else ret tt)
    (λ e, onTickError "payout-funding-recovery" e ;;; ret tt).

Definition refundRefused (r : row) : io (option string) :=
  try_catch
    (outputs <- asks (FindLockups (pkScript (quote r))) ;;
     match outputs with
     | [] =>
         spent <- asks (LockupProvablySpent (pkScript (quote r))) ;;
         (if spent then patch (row_id r) [("refund_outcome", Some (VText "external"))] else ret tt) ;;;
         ret None
     | _ =>
         txid <- request (RefundLockup (evmSendCovenantRowFor (row_id r) (quote r)) outputs) ;;
         patch (row_id r) [("refund_outcome", Some (VText "pushed"));
                           ("refund_ark_txid", Some (VText txid))] ;;;
         ret (Some (row_id r))
     end)
    (λ e, onTickError (row_id r) e ;;; ret None).

Definition refundSweep : io (list string) :=
  refundable <- findRefundable ;;
  for_each refundable refundRefused.

(** What this corridor gives [refundSweptLockupFor]: no verdict of its own. *)
Definition sweptDeps : SweptLockupRefundDeps (E := event) (X := Error) (R := row) (Output := string * Z) :=
  {| swept_find := findByPkScript;
     swept_outputs script := asks (FindSweptLockups script);
     swept_refund r outputs := request (RefundSwept (evmSendCovenantRowFor (row_id r) (quote r)) outputs);
     swept_record r fields :=
       patch (row_id r) ((λ '(c, v), (c, Some (VText v))) <$> refundColumnsOnly fields);
     swept_decide := None;
     swept_close := None;
     swept_closable _ := false;
     swept_id := row_id;
     swept_refused r := bool_decide (state r = EvmSend.refused);
     swept_lockupValue _ := None;
     swept_refundOutcome r := text_col r "refund_outcome";
     output_value := snd |}.

(** [ops]: the Arkade client has the optional swept operations. *)
Definition refundSweptLockup (ops : bool) (script : string) : io (option SweptLockupRefund) :=
  if ops then refundSweptLockupFor sweptDeps script else ret None.
End send.
