(* ===== verification/EvmReceiveService.v ===== *)
(** * The receive service: [ethereum:<token>->arkade:BTC]

    [EvmReceiveSwapService] of
    [packages/solver-corridors-evm/src/receive/evmOrchestrator.ts], over the
    Arkade half of its dependencies, [receive/evmArkadeDeps.ts]: one tick
    observes, asks the planner and carries out what it says; [tickAll] drives
    the live rows. *)
From Stdlib Require Import Ascii String.
From S2P Require Import Prelude StateMachine EvmPlan Prog SwapDb EvmRow Store EvmStore World EvmService.
#[local] Open Scope Z_scope.

(** The requests of this service that cannot be taken back. *)
Inductive ReceiveEffect :=
  | FundArkade (i : string) (lockupAddress : string) (sats : Z)
  | ClaimCall (i : string) (call : string)
  | RefundArkade (c : CovenantScriptRow) (outputs : list string).
#[export] Instance ReceiveReplies : Replies ReceiveEffect := λ _, string.

Section receive.
Context `{EvmHtlcBackend} (self : nat).
#[local] Open Scope io_scope.
#[local] Abbreviation row := EvmReceiveRow.
#[local] Abbreviation event := (evt EvmReceive.state EvmReceiveQuote ReceiveEffect ask).
#[local] Abbreviation io := (io event Error).

(** ** The Arkade half of the dependencies *)

Definition receiveLockFor (r : row) : io Erc20SwapLock :=
  lifted MalformedRow (receiveLockFromRow (receive_common (quote r))).

Definition fundArkade (r : row) : io string :=
  request (FundArkade (row_id r) (lockupAddress (receive_common (quote r)))
                      (payoutSats (receive_common (quote r)))).

Definition refundArkade (r : row) : io string :=
  outputs <- asks (FindLockups (pkScript (receive_common (quote r)))) ;;
  match outputs with
  | [] => throw (Thrown "no spendable output at the lockup - nothing to refund")
  | _ => request (RefundArkade (evmReceiveCovenantRowFor (row_id r) (receive_common (quote r))
                                  (payoutPubkey (quote r))) outputs)
  end.

(** ** Observing *)

Definition claimOutcome (r : row) : io EvmTransactionOutcome :=
  match text_col r "evm_claim_txid" with
  | None => ret pending
  | Some txid =>
      try_catch (asks (TransactionOutcome txid)) (λ e, onTickError (row_id r) e ;;; ret pending)
  end.

Definition observe (r : row) : io ReceivePlan.EvmReceiveObservation :=
  lock <- receiveLockFor r ;;
  present <- asks (IsLocked lock) ;;
  funded <- asks (ArkadeLockupFunded (row_id r) (receive_common (quote r))) ;;
  height <- asks BlockHeight ;;
  clock <- asks TimelockHeight ;;
  outcome <- claimOutcome r ;;
  preimage <- match text_col r "preimage" with
              | Some preimage => ret (Some preimage)
              | None => if funded then asks (ArkadePreimage (row_id r) (receive_common (quote r)))
                        else ret None
              end ;;
  nowSeconds <- now ;;
  depth <- provenDepth (row_id r) lock present height (minConfirmations (receive_common (quote r)))
             nowSeconds ;;
  nowSeconds <- now ;;
  ret (ReceivePlan.mkSeen present (confirmations depth) (ageSeconds depth) funded outcome preimage
         nowSeconds clock).

Definition planRow (r : row) : ReceivePlan.EvmReceivePlanRow :=
  let q := receive_common (quote r) in
  ReceivePlan.mkRow (state r) (refundLocktime q) (evmTimeout q) (validUntil q) (minConfirmations q)
    (minAgeSeconds q) (text_col r "preimage") (text_col r "evm_claim_txid").

(** ** Acting *)

(** [case 'fund_arkade'] *)
Definition fundStep (r : row) : io bool :=
  height <- asks TimelockHeight ;;
  if ReceivePlan.evmReceiveFundWindowClosed height (evmTimeout (receive_common (quote r))) then
    transition (row_id r) (state r) EvmReceive.refused
      [("failure_reason", Some (VText ReceivePlan.EVM_RECEIVE_FUND_WINDOW_REFUSAL))] ;;;
    ret false
  else
    transition (row_id r) (state r) EvmReceive.funding_arkade [] ;;;
    current <- get (row_id r) ;;
    txid <- fundArkade current ;;
    patch (row_id r) [("fund_ark_txid", Some (VText txid))] ;;;
    ret true.

(** [case 'claim_evm'] *)
Definition claimStep (r : row) (preimage : string) : io bool :=
  (if bool_decide (state r ≠ EvmReceive.claiming)
   then transition (row_id r) (state r) EvmReceive.claiming [("preimage", Some (VText preimage))]
   else ret tt) ;;;
  current <- get (row_id r) ;;
  lock <- receiveLockFor current ;;
  txid <- request (ClaimCall (row_id r) (claimCall (buffer_from_hex preimage) lock)) ;;
  patch (row_id r) [("evm_claim_txid", Some (VText txid))] ;;;
  ret false.

(** [case 'refund_arkade'] *)
Definition refundStep (r : row) : io bool :=
  (if bool_decide (state r ≠ EvmReceive.refunding_arkade)
   then transition (row_id r) (state r) EvmReceive.refunding_arkade [] else ret tt) ;;;
  current <- get (row_id r) ;;
  txid <- refundArkade current ;;
  transition (row_id r) EvmReceive.refunding_arkade EvmReceive.refunded
    [("refund_ark_txid", Some (VText txid))] ;;;
  ret false.

Definition step (r : row) : io bool :=
  seen <- observe r ;;
  match ReceivePlan.planEvmReceive (planRow r) seen with
  | ReceivePlan.wait => ret false
  | ReceivePlan.refuse reason =>
      transition (row_id r) (state r) EvmReceive.refused [("failure_reason", Some (VText reason))] ;;;
      ret false
  | ReceivePlan.stick reason => fail (row_id r) (state r) reason ;;; ret false
  | ReceivePlan.fund_arkade => fundStep r
  | ReceivePlan.await_claim =>
      transition (row_id r) (state r) EvmReceive.awaiting_claim [] ;;; ret true
  | ReceivePlan.claim_evm preimage => claimStep r preimage
  | ReceivePlan.record_claim =>
      transition (row_id r) EvmReceive.claiming EvmReceive.claimed [] ;;; ret false
  | ReceivePlan.refund_arkade => refundStep r
  end.

Definition tick (fuel : nat) (i : string) : io row := guardedTick fuel self i step.

Definition tickAll (fuel : nat) : io (list row) :=
  live <- findLive ;;
  sweep unheld live (tick fuel).
End receive.
