(* ===== verification/Discipline.v ===== *)
(** * What the instances of a service may rely on

    The proof rules the services share. A service fixes an order on its
    states that every move respects, an invariant of a row, when an
    irreversible request is justified by the tables, and which requests only
    the thread that moved the row into its exposed state may send, in which
    order; every event of its handlers is then proved to keep these, whatever
    the other threads do. *)
From S2P Require Import Prelude StateMachine Prog SwapDb EvmRow Store World.

(** The last assignment of a statement to a column. *)
Fixpoint assigned (f : fields) (column : string) : option (option sqlval) :=
  match f with
  | [] => None
  | (c, v) :: rest =>
      match assigned rest column with
      | Some v' => Some v'
      | None => if decide (c = column) then Some v else None
      end
  end.

Lemma set_columns_lookup f m column :
  set_columns f m !! column =
    match assigned f column with Some v => v | None => m !! column end.
Proof.
  revert m. induction f as [|[c [v|]] f IH]; intros m; cbn; [done| |]; rewrite IH;
    destruct (assigned f column); try done; case_decide; subst; by simplify_map_eq.
Qed.

(** No column is set to NULL. *)
Definition clears_nothing (f : fields) : bool :=
  forallb (λ p, match p.2 with Some _ => true | None => false end) f.

Lemma clears_nothing_assigned f column : clears_nothing f = true → assigned f column ≠ Some None.
Proof.
  induction f as [|[c v] f IH]; cbn; [done|]. intros [Hv Hf]%andb_true_iff.
  specialize (IH Hf). destruct (assigned f column) as [[]|]; [done..|]. case_decide; [|done]. by destruct v.
Qed.

(** What a service has to say about its rows and requests. *)
Class Discipline (S Q Eff : Type) := {
  state_le : S → S → Prop;
  kept : string → Prop;              (** columns that, once set, are never cleared *)
  frozen : string → Prop;            (** columns that are written once *)
  after_grant : Row S Q → Prop;      (** nobody can win the row any more *)
  granted : Grant S;
  row_ok : Row S Q → Prop;
  effect_ok : Db S Q → Eff → Prop;
  own_of : Eff → option string;
  full : string → Q → list Eff → Prop;
}.

Section discipline.
Context {S Q Eff : Type} {Read : Type → Type} `{EqDecision S, QuoteColumns Q, SwapShape S, Replies Eff, D : Discipline S Q Eff}.
Context (port : Port Eff Read).
#[local] Abbreviation W := (World S Q Eff).
Implicit Types (w : W) (d : Db S Q) (r : Row S Q).

(** What is written once stays. *)
Definition unthawed (m m' : gmap string sqlval) : Prop :=
  ∀ c v, frozen c → m !! c = Some v → m' !! c = Some v.

(** How a row may change. *)
Definition row_le r r' : Prop :=
  row_id r' = row_id r ∧ quote r' = quote r ∧ created_at r' = created_at r ∧
  state_le (state r) (state r') ∧
  (∀ c, kept c → is_Some (cols r !! c) → is_Some (cols r' !! c)) ∧
  unthawed (cols r) (cols r').

Lemma never_frozen (m m' : gmap string sqlval) : (∀ c, ¬ frozen c) → unthawed m m'.
Proof. intros Hf c v Hc. by apply Hf in Hc. Qed.

(** How the tables may. *)
Definition db_le d d' : Prop :=
  (∀ i r, find_row d i = Some r → ∃ r', find_row d' i = Some r' ∧ row_le r r') ∧
  (∀ e, e ∈ events d → e ∈ events d').

Definition own_sent (i : string) w : list Eff :=
  filter (λ a, own_of a = Some i) (sent w).

(** What thread [t] may assume of the others: the rows move forward, and what
    it alone may send for the rows granted to it, only it sends. *)
Definition Rely (t : nat) w w' : Prop :=
  db_le (db w) (db w') ∧
  ∀ i, grants w !! i = Some t → grants w' !! i = Some t ∧ own_sent i w' = own_sent i w.

Definition Inv w : Prop :=
  db_wf state_refused (db w) ∧
  (∀ i r, find_row (db w) i = Some r → row_ok r) ∧
  (∀ a, a ∈ sent w → effect_ok (db w) a) ∧
  (∀ i t, grants w !! i = Some t → ∃ r, find_row (db w) i = Some r ∧ after_grant r) ∧
  (∀ i, own_sent i w = [] ∨
        is_Some (grants w !! i) ∧
        ∃ r l, find_row (db w) i = Some r ∧ full i (quote r) l ∧ own_sent i w `prefix_of` l).

(** The laws the rules below need of a discipline. *)
Class DisciplineLaws : Prop := {
  state_le_refl : ∀ s : S, state_le s s;
  state_le_trans : ∀ s1 s2 s3 : S, state_le s1 s2 → state_le s2 s3 → state_le s1 s3;
  after_grant_le : ∀ r r', row_le r r' → (∀ c, is_Some (cols r !! c) → is_Some (cols r' !! c)) →
    after_grant r → after_grant r';
  effect_ok_le : ∀ d d' a, db_le d d' → effect_ok d a → effect_ok d' a;
}.
Context `{!DisciplineLaws}.

Lemma unthawed_refl m : unthawed m m.
Proof. by intros c v. Qed.
Lemma row_le_refl r : row_le r r.
Proof. unfold row_le. split_and!; auto using state_le_refl, unthawed_refl. Qed.
Lemma row_le_trans r1 r2 r3 : row_le r1 r2 → row_le r2 r3 → row_le r1 r3.
Proof.
  unfold row_le, unthawed. intros (?&?&?&?&?&?) (?&?&?&?&?&?).
  split_and!; eauto using state_le_trans; congruence.
Qed.

Lemma db_le_refl d : db_le d d.
Proof. split; [|done]. intros i r Hr. exists r. split; [done|apply row_le_refl]. Qed.
Lemma db_le_trans d1 d2 d3 : db_le d1 d2 → db_le d2 d3 → db_le d1 d3.
Proof.
  intros [R12 E12] [R23 E23]. split; [|auto]. intros i r Hr.
  destruct (R12 i r Hr) as (r' & Hr' & Hle). destruct (R23 i r' Hr') as (r'' & Hr'' & Hle').
  exists r''. split; [done|]. by eapply row_le_trans.
Qed.

Lemma Rely_self t w : Rely t w w.
Proof. split; [apply db_le_refl|auto]. Qed.
Lemma Rely_then t w1 w2 w3 : Rely t w1 w2 → Rely t w2 w3 → Rely t w1 w3.
Proof.
  intros [D1 O1] [D2 O2]. split; [by eapply db_le_trans|]. intros i Hi.
  destruct (O1 i Hi) as [Hi' Hs]. destruct (O2 i Hi') as [Hi'' Hs']. by rewrite Hs', Hs.
Qed.

#[export] Instance Rely_preorders : Preorders Rely.
Proof. split; [apply Rely_self|apply Rely_then]. Qed.

(** ** Statements *)

(** How a statement may change a row: whoever won it keeps it. *)
Definition row_step r r' : Prop := row_le r r' ∧ (after_grant r → after_grant r').
Definition db_step d d' : Prop :=
  (∀ i r, find_row d i = Some r → ∃ r', find_row d' i = Some r' ∧ row_step r r') ∧
  (∀ e, e ∈ events d → e ∈ events d').
Lemma row_step_refl r : row_step r r.
Proof. split; [apply row_le_refl|done]. Qed.
Lemma db_step_refl d : db_step d d.
Proof. split; [|done]. intros i r Hr. exists r. split; [done|apply row_step_refl]. Qed.
Lemma db_step_le d d' : db_step d d' → db_le d d'.
Proof. intros [Hr He]. split; [|done]. intros i r Hi. destruct (Hr i r Hi) as (r' & ? & ? & _). by exists r'. Qed.

(** An update of rows along a relation. *)
Lemma update_where_rel (R : Row S Q → Row S Q → Prop) test (f : Row S Q → Row S Q) d n d' :
  (∀ r, row_id (f r) = row_id r) → (∀ r, R r r) →
  (∀ i r, find_row d i = Some r → test r = true → R r (f r)) →
  update_where state_refused test f d = (n, d') →
  (∀ i r, find_row d i = Some r → ∃ r', find_row d' i = Some r' ∧ R r r') ∧ events d' = events d.
Proof.
  intros Hid Hrefl Hle Hu.
  destruct (update_where_spec _ _ _ _ _ _ Hid Hu) as [(k & _ & Hr & He & _)|[_ ->]]; [|by eauto].
  split; [|done]. intros i r Hri. destruct d as [l ev], d' as [l' ev']. cbn in Hr, He. subst.
  exists (updated test f r). split; [by rewrite find_row_updated, Hri|].
  unfold updated. case_match eqn:Ht; [by eapply Hle|apply Hrefl].
Qed.

Lemma update_where_le test (f : Row S Q → Row S Q) d n d' :
  (∀ r, row_id (f r) = row_id r) →
  (∀ i r, find_row d i = Some r → test r = true → row_step r (f r)) →
  update_where state_refused test f d = (n, d') → db_step d d'.
Proof.
  intros Hid Hle Hu. destruct (update_where_rel row_step test f d n d') as [? He]; [done|apply row_step_refl|done..|].
  split; [done|by rewrite He].
Qed.

Lemma update_where_row_ok test (f : Row S Q → Row S Q) d n d' :
  (∀ r, row_id (f r) = row_id r) →
  (∀ i r, find_row d i = Some r → row_ok r) →
  (∀ i r, find_row d i = Some r → test r = true → row_ok (f r)) →
  update_where state_refused test f d = (n, d') → ∀ i r, find_row d' i = Some r → row_ok r.
Proof.
  intros Hid Hok Hf Hu i r Hr.
  destruct (update_where_spec _ _ _ _ _ _ Hid Hu) as [(k & _ & Hrows & He & _)|[_ ->]]; [|by eapply Hok].
  destruct d as [l ev], d' as [l' ev']. cbn in Hrows, He. subst.
  rewrite find_row_updated in Hr by done. apply fmap_Some in Hr as (r0 & Hr0 & ->).
  unfold updated. case_match eqn:Ht; [by eapply Hf|by eapply Hok].
Qed.

(** A row with a column set to NULL. *)
Definition cleared (column : string) r : Row S Q :=
  mkRow (row_id r) (state r) (created_at r) (updated_at r) (quote r) (delete column (cols r)).

(** When a statement is acceptable in the tables [d]; a lease is only given back
    by the thread the row was granted to: [hoare_release]. *)
Definition stmt_ok d (s : stmt S Q) : Prop :=
  match s with
  | InsertRow r | InsertUnless _ r => row_ok r
  | UpdateState i from to f at_ =>
      state_le from to ∧
      (∀ r, find_row d i = Some r → state r = from → unthawed (cols r) (set_columns f (cols r))) ∧
      (clears_nothing f = true ∨
       (∀ c, kept c → assigned f c ≠ Some None) ∧
       ∀ r, find_row d i = Some r → state r = from → after_grant r → after_grant (moved to f at_ r)) ∧
      (granted = Entry to → ∀ r, find_row d i = Some r → state r = from →
         ¬ after_grant r ∧ after_grant (moved to f at_ r)) ∧
      ∀ r, find_row d i = Some r → state r = from →
        row_ok (mkRow (row_id r) to (created_at r) at_ (quote r) (set_columns f (cols r)))
  | UpdateStateIfNull i from to f at_ column =>
      state_le from to ∧ clears_nothing f = true ∧ granted ≠ Entry to ∧
      ∀ r, find_row d i = Some r → state r = from → cols r !! column = None →
        unthawed (cols r) (set_columns f (cols r)) ∧
        row_ok (mkRow (row_id r) to (created_at r) at_ (quote r) (set_columns f (cols r)))
  | UpdateColumns i f at_ =>
      clears_nothing f = true ∧
      (∀ r, find_row d i = Some r → unthawed (cols r) (set_columns f (cols r))) ∧
      ∀ r, find_row d i = Some r →
        row_ok (mkRow (row_id r) (state r) (created_at r) at_ (quote r) (set_columns f (cols r)))
  | UpdateIfNull i column v at_ =>
      ∀ r, find_row d i = Some r →
        row_ok (mkRow (row_id r) (state r) (created_at r) at_ (quote r) (<[column := v]> (cols r)))
  | UpdateIfNullIn i from column v at_ =>
      ∀ r, find_row d i = Some r → state r = from → cols r !! column = None →
        row_ok (mkRow (row_id r) (state r) (created_at r) at_ (quote r) (<[column := v]> (cols r)))
  | ClaimLease i from column leased_at at_ stale =>
      ¬ frozen column ∧
      (∀ r, find_row d i = Some r → state r = from → row_ok (leased column leased_at at_ r)) ∧
      (granted = Lease column → ∀ r, find_row d i = Some r → state r = from →
         lease_free (cols r !! column) stale = true →
         ¬ after_grant r ∧ after_grant (leased column leased_at at_ r))
  | ClearColumn i column =>
      granted ≠ Lease column ∧ ¬ kept column ∧ ¬ frozen column ∧
      ∀ r, find_row d i = Some r → row_ok (cleared column r) ∧ (after_grant r → after_grant (cleared column r))
  | InsertEvent _ => True
  end.

Lemma set_columns_spared f (m : gmap string sqlval) c :
  assigned f c ≠ Some None → is_Some (m !! c) → is_Some (set_columns f m !! c).
Proof.
  intros Hf. rewrite set_columns_lookup. destruct (assigned f c) as [[]|]; by eauto.
Qed.

Lemma set_columns_kept f (m : gmap string sqlval) c :
  clears_nothing f = true → is_Some (m !! c) → is_Some (set_columns f m !! c).
Proof. intros Hf. by apply set_columns_spared, clears_nothing_assigned. Qed.

(** Every update of [stmt_ok] is one of these. *)
Lemma update_ok test (f : Row S Q → Row S Q) d :
  (∀ r, row_id (f r) = row_id r) →
  (∀ i r, find_row d i = Some r → test r = true → row_step r (f r) ∧ row_ok (f r)) →
  (∀ i r, find_row d i = Some r → row_ok r) →
  db_step d (update_where state_refused test f d).2 ∧
  ∀ i r, find_row (update_where state_refused test f d).2 i = Some r → row_ok r.
Proof.
  intros Hid Hf Hok. destruct (update_where _ _ _ d) as [n d'] eqn:Hu. cbn. split.
  - eapply update_where_le; [done| |done]. intros. by apply (Hf i).
  - eapply update_where_row_ok; [done|done| |done]. intros. by apply (Hf i).
Qed.

Lemma find_row_insert d r ev i r' :
  find_row d i = Some r' → find_row (mkDb (rows d ++ [r]) ev) i = Some r'.
Proof.
  unfold find_row. cbn. intros ([n r0] & Hf & ->)%fmap_Some.
  by rewrite (list_find_app_l _ _ _ _ _ Hf).
Qed.

Lemma find_row_inserted d r ev i r' :
  row_id r ∉ row_id <$> rows d →
  find_row (mkDb (rows d ++ [r]) ev) i = Some r' → find_row d i = Some r' ∨ r' = r.
Proof.
  intros Hn Hf. destruct (find_row d i) as [r0|] eqn:Hr.
  - rewrite (find_row_insert _ _ _ _ _ Hr) in Hf. by left.
  - apply find_row_Some in Hf as [Hid Hin]. cbn in Hin. apply elem_of_app in Hin as [Hin|Hin].
    + apply find_row_None in Hr. exfalso. apply Hr, list_elem_of_fmap. eauto.
    + right. by apply list_elem_of_singleton in Hin.
Qed.

(** A change that clears no column keeps the grant. *)
Lemma row_step_all r r' :
  row_id r' = row_id r → quote r' = quote r → created_at r' = created_at r → state_le (state r) (state r') →
  (∀ c, is_Some (cols r !! c) → is_Some (cols r' !! c)) → unthawed (cols r) (cols r') → row_step r r'.
Proof.
  intros Hid Hq Hc Hs Hcols Hf. assert (row_le r r') as Hle by (split_and!; by auto).
  split; [done|]. by apply after_grant_le.
Qed.

Lemma insert_unthawed (m : gmap string sqlval) column v :
  m !! column = None ∨ ¬ frozen column → unthawed m (<[column := v]> m).
Proof.
  intros Hc c v' Hf Hm. rewrite lookup_insert_ne; [done|]. intros ->. destruct Hc as [Hc|Hc]; [congruence|done].
Qed.

Lemma delete_unthawed (m : gmap string sqlval) column : ¬ frozen column → unthawed m (delete column m).
Proof. intros Hc c v Hf Hm. rewrite lookup_delete_ne; [done|]. by intros ->. Qed.

(** A column that is not kept may be given up. *)
Lemma row_le_cleared column r : ¬ kept column → ¬ frozen column → row_le r (cleared column r).
Proof.
  intros Hk Hf. unfold row_le, cleared. cbn. split_and!; try done; [apply state_le_refl| |by apply delete_unthawed].
  intros c Hc Hs. rewrite lookup_delete_ne; [done|]. by intros ->.
Qed.

Lemma insert_is_some (m : gmap string sqlval) column v c : is_Some (m !! c) → is_Some (<[column := v]> m !! c).
Proof. intros Hm. destruct (decide (column = c)) as [->|Hc]; [rewrite lookup_insert_eq; by eauto|by rewrite lookup_insert_ne]. Qed.

(** One statement along the order. *)
Lemma exec_ok d s :
  stmt_ok d s → (∀ i r, find_row d i = Some r → row_ok r) →
  db_step d (exec state_refused s d).2 ∧
  ∀ i r, find_row (exec state_refused s d).2 i = Some r → row_ok r.
Proof.
  intros Hs Hok. assert (∀ r, row_ok r → db_step d (insert_row state_refused r d).2 ∧
    ∀ i r', find_row (insert_row state_refused r d).2 i = Some r' → row_ok r') as Hins.
  { intros r Hr1. unfold insert_row. case_bool_decide as Hin; [split; [apply db_step_refl|done]|].
    case_match; [|split; [apply db_step_refl|done]]. cbn. split.
    + split; [|done]. intros i r' Hr. exists r'. split; [by apply find_row_insert|apply row_step_refl].
    + intros i r' Hr. apply find_row_inserted in Hr as [Hr| ->]; eauto. }
  assert (∀ i r, find_row d i = Some r → row_id r = i) as Hid by (intros i r Hr; by apply find_row_Some in Hr as [? _]).
  destruct s as [r|blocks r|i from to f at_|i from to f at_ column|i f at_|i column v at_|i from column v at_
    |i from column la at_ stale|i column|e]; cbn [exec stmt_ok] in *;
    [by apply Hins|case_match; [split; [apply db_step_refl|done]|by apply Hins]|apply update_ok; [done| |done]..|].
  - destruct Hs as (Hle & Hz & Hp & _ & Hrow).
    intros j r Hr [Hi%bool_decide_eq_true Hf%bool_decide_eq_true]%andb_true_iff.
    assert (j = i) as -> by (by rewrite <- (Hid _ _ Hr)). split; [|by apply Hrow].
    destruct Hp as [Hp|[Hkept Hgrant]].
    + apply row_step_all; cbn; try done; [by rewrite Hf|intros c; by apply set_columns_kept|by apply Hz].
    + split; [|by apply Hgrant]. unfold row_le. cbn. rewrite Hf. split_and!; try done; [|by apply Hz].
      intros c Hc. by apply set_columns_spared, Hkept.
  - destruct Hs as (Hle & Hp & _ & Hrow).
    intros j r Hr [[Hi%bool_decide_eq_true Hf%bool_decide_eq_true]%andb_true_iff Hn%bool_decide_eq_true]%andb_true_iff.
    assert (j = i) as -> by (by rewrite <- (Hid _ _ Hr)). destruct (Hrow r Hr Hf Hn) as [Hz Hok']. split; [|done].
    apply row_step_all; cbn; try done; [by rewrite Hf|intros c; by apply set_columns_kept].
  - destruct Hs as (Hp & Hz & Hrow). intros j r Hr Hi%bool_decide_eq_true.
    assert (j = i) as -> by (by rewrite <- (Hid _ _ Hr)). split; [|by apply Hrow].
    apply row_step_all; cbn; try done; [apply state_le_refl|intros c; by apply set_columns_kept|by apply Hz].
  - intros j r Hr [Hi%bool_decide_eq_true Hn%bool_decide_eq_true]%andb_true_iff.
    assert (j = i) as -> by (by rewrite <- (Hid _ _ Hr)). split; [|by apply Hs].
    apply row_step_all; cbn; try done; [apply state_le_refl|intros c; apply insert_is_some|].
    apply insert_unthawed. by left.
  - intros j r Hr [[Hi%bool_decide_eq_true Hf%bool_decide_eq_true]%andb_true_iff Hn%bool_decide_eq_true]%andb_true_iff.
    assert (j = i) as -> by (by rewrite <- (Hid _ _ Hr)). split; [|by apply Hs].
    apply row_step_all; cbn; try done; [apply state_le_refl|intros c; apply insert_is_some|].
    apply insert_unthawed. by left.
  - destruct Hs as (Hz & Hrow & _).
    intros j r Hr [[Hi%bool_decide_eq_true Hf%bool_decide_eq_true]%andb_true_iff _]%andb_true_iff.
    assert (j = i) as -> by (by rewrite <- (Hid _ _ Hr)). split; [|by apply Hrow].
    apply row_step_all; cbn; try done; [apply state_le_refl|intros c; apply insert_is_some|].
    apply insert_unthawed. by right.
  - destruct Hs as (_ & Hk & Hz & Hrow). intros j r Hr Hi%bool_decide_eq_true.
    assert (j = i) as -> by (by rewrite <- (Hid _ _ Hr)). destruct (Hrow r Hr) as [? ?].
    split; [|done]. split; [by apply row_le_cleared|done].
  - split; [|done]. split; [|cbn; intros; apply elem_of_app; by left].
    intros i r Hr. exists r. split; [done|apply row_step_refl].
Qed.

Lemma run_stmt_exec (s : stmt S Q) d : (run_stmt s d).2 = (exec state_refused s d).2.
Proof. unfold run_stmt. by destruct (exec _ _ _) as [[] ?]. Qed.

(** A successful [UPDATE] of a state moved a row that was in it. *)
Lemma run_move i from to f at_ d n d' :
  run_stmt (UpdateState i from to f at_) d = (Ok (Datatypes.S n), d') →
  ∃ r, r ∈ rows d ∧ row_id r = i ∧ state r = from ∧
       rows d' = updated (in_state i from) (moved to f at_) <$> rows d.
Proof.
  unfold run_stmt. destruct (exec _ _ _) as [[k|] d0] eqn:He; intros; simplify_eq.
  assert (∀ r, row_id (moved to f at_ r) = row_id r) as Hid by done.
  destruct (update_where_spec _ _ _ _ _ _ Hid He) as [(k & Hk & Hrows & _ & _ & Hpos)|[? _]]; [|done].
  simplify_eq. destruct (proj1 Hpos ltac:(lia)) as (r' & Hin & [Hi Hs]%in_state_spec). eauto 10.
Qed.

(** A successful [UPDATE] of one row found it, and changed it. *)
Lemma run_one test (f : Row S Q → Row S Q) i d n d' :
  (∀ r, row_id (f r) = row_id r) → (∀ r, test r = true → row_id r = i) → db_wf state_refused d →
  update_where state_refused test f d = (Ok (Datatypes.S n), d') →
  ∃ r, find_row d i = Some r ∧ test r = true ∧ find_row d' i = Some (f r).
Proof.
  intros Hid Hi Hwf Hup. destruct (update_where_spec _ _ _ _ _ _ Hid Hup) as [(k & Hk & Hrows & _ & _ & Hpos)|[? _]]; [|done].
  simplify_eq. destruct (proj1 Hpos ltac:(lia)) as (r & Hin & Ht).
  assert (find_row d i = Some r) as Hr by (rewrite <- (Hi r Ht); apply find_row_In; [by destruct Hwf|done]).
  exists r. split_and!; [done..|]. destruct d as [l ev], d' as [l' ev']. cbn in Hrows. subst l'.
  rewrite find_row_updated by done. change (find_row (mkDb l ev') i) with (find_row (mkDb l ev) i). rewrite Hr. cbn.
  unfold updated. by rewrite Ht.
Qed.

(** A lease won was free, on a row in its state. *)
Lemma run_claim i from column la at_ stale d n d' :
  run_stmt (ClaimLease i from column la at_ stale) d = (Ok (Datatypes.S n), d') → db_wf state_refused d →
  ∃ r, find_row d i = Some r ∧ state r = from ∧ lease_free (cols r !! column) stale = true ∧
       find_row d' i = Some (leased column la at_ r).
Proof.
  unfold run_stmt. destruct (exec _ _ _) as [[k|] d0] eqn:He; intros Hn Hwf; simplify_eq. cbn [exec] in He.
  apply (run_one _ _ i) in He as (r & Hr & Ht & Hr'); [|done| |done].
  - exists r. by apply andb_true_iff in Ht as [[_ Hf%bool_decide_eq_true]%andb_true_iff Hl].
  - by intros r [[Hi%bool_decide_eq_true _]%andb_true_iff _]%andb_true_iff.
Qed.

(** What a statement newly grants was nobody's. *)
Definition newly (t : nat) (i : string) (s : stmt S Q) (x : result Error nat) : Prop :=
  match granted, s, x with
  | Entry entered, UpdateState j _ to _ _, Ok (Datatypes.S _) => j = i ∧ to = entered
  | Lease lease, ClaimLease j _ column _ _ _, Ok (Datatypes.S _) => j = i ∧ column = lease
  | _, _, _ => False
  end.
Lemma grant_of_lookup t s x g i u d :
  stmt_ok d s → grant_of granted t s x g !! i = Some u → g !! i = Some u ∨ u = t ∧ newly t i s x.
Proof.
  unfold grant_of, newly. intros Hs. destruct granted as [entered|lease] eqn:Hgr, s; try done; try by left.
  all: try (case_decide; [|by left]; subst; by destruct Hs as [? _]).
  all: destruct x as [[|n]|]; try by left.
  all: case_decide; [|by left]; subst.
  all: destruct (decide (i = i0)) as [->|Hne]; [rewrite lookup_insert_eq; intros [= <-]; by right|].
  all: rewrite lookup_insert_ne by done; by left.
Qed.
Lemma grant_of_keeps t s x g i u d :
  stmt_ok d s → ¬ newly t i s x → g !! i = Some u → grant_of granted t s x g !! i = Some u.
Proof.
  unfold grant_of, newly. intros Hs Hn Hg. destruct granted as [entered|lease] eqn:Hgr, s; try done.
  all: try (case_decide; [|done]; subst; by destruct Hs as [? _]).
  all: destruct x as [[|n]|]; try done.
  all: case_decide; [|done]; subst.
  all: destruct (decide (i0 = i)) as [->|Hne]; [by destruct Hn|by rewrite lookup_insert_ne].
Qed.

(** A row newly granted was free before, and is taken after. *)
Lemma newly_free t i s n w d' :
  Inv w → stmt_ok (db w) s → run_stmt s (db w) = (n, d') → newly t i s n →
  grants w !! i = None ∧ ∃ r', find_row d' i = Some r' ∧ after_grant r'.
Proof.
  intros (Hwf & _ & _ & Hgr & _) Hs Hrun Hn. unfold newly in Hn.
  assert (∃ r r', find_row (db w) i = Some r ∧ ¬ after_grant r ∧ find_row d' i = Some r' ∧ after_grant r')
    as (r & r' & Hr & Hna & Hr' & Ha).
  { destruct granted as [entered|lease] eqn:Hgrant, s; try done; destruct n as [[|n]|]; try done; destruct Hn as [-> ->].
    - destruct Hs as (_ & _ & _ & Hg & _). apply run_move in Hrun as (r & Hin & Hid & Hst & Hrows).
      pose proof (find_row_In _ _ (proj1 Hwf) Hin) as Hr. rewrite Hid in Hr.
      destruct (Hg Hgrant r Hr Hst) as [Hna Ha]. exists r, (moved entered f at_ r). split_and!; try done.
      destruct d' as [l' ev']. cbn in Hrows. subst l'. rewrite find_row_updated by done.
      change (find_row (mkDb (rows (db w)) ev') i) with (find_row (db w) i). rewrite Hr. cbn.
      unfold updated. by rewrite (proj2 (in_state_spec i from r)).
    - destruct Hs as (_ & _ & Hg). apply run_claim in Hrun as (r & Hr & Hst & Hl & Hr'); [|done].
      destruct (Hg Hgrant r Hr Hst Hl) as [Hna Ha]. by eexists _, _. }
  split; [|by exists r']. destruct (grants w !! i) as [u|] eqn:Hu; [|done].
  destruct (Hgr _ _ Hu) as (r0 & Hr0 & Ha0). by simplify_eq.
Qed.

(** Whoever runs an acceptable statement keeps the invariant, and no thread,
    the one running it included, loses what it relied on. *)
Lemma sql_sound t s w :
  Inv w → stmt_ok (db w) s →
  Inv (run_sql granted t s w).2 ∧ ∀ u, Rely u w (run_sql granted t s w).2.
Proof.
  intros Hi Hs. pose proof Hi as (Hwf & Hok & Heff & Hgr & Hown).
  destruct (exec_ok _ _ Hs Hok) as [Hstep Hok']. pose proof (exec_wf state_refused s _ Hwf) as Hwf'.
  rewrite <- run_stmt_exec in Hstep, Hok', Hwf'. pose proof (db_step_le _ _ Hstep) as Hle.
  unfold run_sql. destruct (run_stmt s (db w)) as [x d'] eqn:Hrun. cbn in Hstep, Hle, Hok', Hwf' |- *.
  (* a thread is only ever granted a row that no thread had *)
  assert (∀ i u, grants w !! i = Some u → grant_of granted t s x (grants w) !! i = Some u) as Hgrow.
  { intros i u Hu. eapply grant_of_keeps; [exact Hs| |exact Hu]. intros Hn.
    destruct (newly_free _ _ _ _ _ _ Hi Hs Hrun Hn) as [He _]. congruence. }
  split.
  - split_and!; [done|done|eauto using effect_ok_le| |].
    + intros i u Hu. cbn in Hu. eapply grant_of_lookup in Hu as [Hu|[_ Hn]]; [| |exact Hs].
      * destruct (Hgr _ _ Hu) as (r & Hr & Ha). destruct (proj1 Hstep _ _ Hr) as (r' & Hr' & _ & Ha').
        exists r'. auto.
      * destruct (newly_free _ _ _ _ _ _ Hi Hs Hrun Hn) as [_ (r' & Hr' & Ha)]. by exists r'.
    + intros i. destruct (Hown i) as [Hn|(Hg & r & l & Hr & Hf & Hp)]; [by left|right]. split.
      * destruct Hg as [u Hu]. cbn. exists u. by apply Hgrow.
      * destruct (proj1 Hle _ _ Hr) as (r' & Hr' & _ & Hq & _). exists r', l. cbn. by rewrite Hq.
  - intros u. split; [done|]. intros i Hu. split; [|done]. by apply Hgrow.
Qed.

(** ** The rules *)

#[local] Abbreviation handle := (handle (Eff := Eff) granted port).
#[local] Abbreviation hoare := (hoare (X := Error) handle Inv Rely).
#[local] Abbreviation Stable := (Stable Inv Rely).
#[local] Abbreviation event := (evt S Q Eff Read).
#[local] Abbreviation io := (io event Error).

(** The process memory is nobody's business. *)
Definition same_core w w' : Prop := db w' = db w ∧ sent w' = sent w ∧ grants w' = grants w.

Lemma same_core_sound w w' :
  same_core w w' → Inv w → Inv w' ∧ ∀ u, Rely u w w'.
Proof.
  intros (Hd & Hs & Hg) Hi. split.
  - unfold Inv, own_sent. by rewrite Hd, Hs, Hg.
  - intros u. split; [rewrite Hd; apply db_le_refl|]. unfold own_sent. by rewrite Hs, Hg.
Qed.

Ltac same := split_and!; reflexivity.

Lemma hoare_asks {X} t K (q : Read X) :
  Stable t K → hoare t K (asks q) (λ x w, K w ∧ answers port X q x) (λ _, K).
Proof.
  intros HK. apply hoare_attempt; try apply _. intros w Hi HKw w' x [-> Hx].
  split_and!; [done|intros u _; apply Rely_self|]. by destruct x.
Qed.

Lemma hoare_memory {Y} t K (e : event Y) F :
  Stable t K → (∀ w w' y, handle t Y e w w' y → same_core w w') →
  hoare t K (call e) (λ _, K) F.
Proof.
  intros HK He. apply hoare_call; try apply _. intros w Hi HKw w' y Hh.
  destruct (same_core_sound w w' (He _ _ _ Hh) Hi) as [Hi' Hr].
  split_and!; [done|intros u _; apply Hr|]. by eapply HK.
Qed.

Lemma hoare_now t K F : Stable t K → hoare t K now (λ _, K) F.
Proof. intros. apply hoare_memory; [done|]. intros w w' y [-> _]. same. Qed.

(** The clock is never before the epoch. *)
Lemma hoare_clock t K F : Stable t K → hoare t K now (λ at_ w, K w ∧ 0 ≤ at_) F.
Proof.
  intros HK. apply hoare_call; try apply _. intros w Hi HKw w' at_ [-> Hat].
  split_and!; [done|intros u _; apply Rely_self|done|done].
Qed.

Lemma hoare_report t K i e F : Stable t K → hoare t K (onTickError i e) (λ _, K) F.
Proof. intros. apply hoare_memory; [done|]. intros w w' y ->. same. Qed.

Lemma hoare_firstReport t K n i F : Stable t K → hoare t K (firstReport n i) (λ _, K) F.
Proof. intros. apply hoare_memory; [done|]. intros w w' y [_ ->]. same. Qed.

Lemma hoare_query {X} t K (f : Db S Q → X) (P : X → W → Prop) :
  Stable t K → (∀ x, Stable t (P x)) → (∀ w, Inv w → K w → P (f (db w)) w) →
  hoare t K (attempt (sql_all f)) P (λ _, K).
Proof.
  intros HK HP Hf. apply hoare_attempt; try apply _. intros w Hi HKw w' x [-> Hx].
  split_and!; [done|intros u _; apply Rely_self|]. destruct Hx as [-> | [e ->]]; cbn; auto.
Qed.

Lemma hoare_sql t K (s : stmt S Q) (P : nat → W → Prop) :
  Stable t K → (∀ n, Stable t (P n)) →
  (∀ w, Inv w → K w → stmt_ok (db w) s) →
  (∀ w n w', Inv w → K w → run_sql granted t s w = (Ok n, w') → Inv w' → Rely t w w' → P n w') →
  hoare t K (attempt (sql_run s)) P (λ _, K).
Proof.
  intros HK HP Hs Hpost. apply hoare_attempt; try apply _. intros w Hi HKw w' x Hh.
  destruct (sql_sound t s w Hi (Hs w Hi HKw)) as [Hi' Hr].
  cbn in Hh. destruct Hh as [[-> ->]|(e & -> & [-> | ->])].
  - split_and!; [done|intros u _; apply Hr|]. destruct (run_sql granted t s w) as [[n|e] w'] eqn:Hrun; cbn in *.
    + eapply Hpost; [exact Hi|exact HKw|exact Hrun|exact Hi'|apply Hr].
    + eapply HK; eauto.
  - split_and!; [done|intros u _; apply Rely_self|done].
  - split_and!; [done|intros u _; apply Hr|]. cbn. eapply HK; eauto.
Qed.

(** The row [i] is there, and has moved on from [r] if at all. *)
Definition since (i : string) r w : Prop := ∃ r', find_row (db w) i = Some r' ∧ row_le r r'.

#[export] Instance since_stable t i r : Stable t (since i r).
Proof.
  intros w w' [[Hd _] _] _ (r' & Hr' & Hle). destruct (Hd _ _ Hr') as (r'' & Hr'' & Hle').
  exists r''. split; [done|]. by eapply row_le_trans.
Qed.

(** [get] port the row as it is at that moment: [φ] is whatever else the
    thread knows of that row. *)
Lemma hoare_get t K i (φ : Row S Q → Prop) :
  Stable t K → (∀ w r, Inv w → K w → find_row (db w) i = Some r → φ r) →
  hoare t K (get i) (λ r w, K w ∧ since i r w ∧ row_ok r ∧ row_id r = i ∧ φ r) (λ _, K).
Proof.
  intros HK Hφ. unfold get. eapply hoare_bind; try apply _.
  - apply (hoare_query t K _ (λ found w, K w ∧
      ∀ r, found = Some r → since i r w ∧ row_ok r ∧ row_id r = i ∧ φ r)); try apply _.
    intros w Hi HKw. split; [done|]. intros r Hr. split_and!; [| | |by eapply Hφ].
    + exists r. split; [done|apply row_le_refl].
    + destruct Hi as (_ & Hok & _). by eapply Hok.
    + by apply find_row_Some in Hr as [? _].
  - intros [r|]; [|apply hoare_throw; [apply _|by intros w _ [? _]]].
    apply hoare_ret; [apply _|]. intros w _ [HKw Hr]. destruct (Hr r eq_refl) as (? & ? & ? & ?). auto.
Qed.

(** The rows a query selects, as they were selected. *)
Lemma hoare_rows t K (f : Db S Q → list (Row S Q)) (φ : Row S Q → Prop) :
  Stable t K → (∀ d r, r ∈ f d → r ∈ rows d ∧ φ r) →
  hoare t K (attempt (sql_all f))
    (λ l w, K w ∧ ∀ r, r ∈ l → since (row_id r) r w ∧ row_ok r ∧ φ r) (λ _, K).
Proof.
  intros HK Hf. apply (hoare_query t K); try apply _. intros w Hi HKw. split; [done|].
  intros r [Hin Hφ]%Hf. destruct Hi as ([Hnd _] & Hok & _).
  pose proof (find_row_In _ _ Hnd Hin) as Hr. split_and!; [|by eapply Hok|done].
  exists r. split; [done|apply row_le_refl].
Qed.

(** The move is in the history. *)
Definition logged (i : string) (to : S) w : Prop :=
  ∃ e, e ∈ events (db w) ∧ ev_swap e = i ∧ ev_to e = to.
#[export] Instance logged_stable t i to : Stable t (logged i to).
Proof. intros w w' [[_ He] _] _ (e & Hin & Hs). exists e. auto. Qed.

(** A row won is the winner's, with nothing sent for it. *)
Lemma won_row t s w w' n i :
  Inv w → stmt_ok (db w) s → run_sql granted t s w = (n, w') → newly t i s n →
  grants w' !! i = Some t ∧ own_sent i w' = [].
Proof.
  intros Hi Hs Hrun Hn. unfold run_sql in Hrun. destruct (run_stmt s (db w)) as [x d'] eqn:Hst. simplify_eq.
  destruct (newly_free _ _ _ _ _ _ Hi Hs Hst Hn) as [Hnone _]. split.
  - cbn. unfold newly in Hn. unfold grant_of. destruct granted as [entered|lease], s; try done;
      destruct n as [[|n]|]; try done; destruct Hn as [-> ->]; rewrite decide_True by done; apply lookup_insert_eq.
  - destruct Hi as (_ & _ & _ & _ & Hown). destruct (Hown i) as [He|([u Hu] & _)]; [exact He|congruence].
Qed.

(** The [UPDATE] of a state: it moved the row, or matched none. *)
Lemma hoare_update_state t K P i from to f at_ :
  Stable t K → Stable t P →
  (∀ w, Inv w → K w → stmt_ok (db w) (UpdateState i from to f at_)) →
  (∀ w w' r, Inv w → K w → find_row (db w) i = Some r → state r = from → row_ok r →
     Inv w' → Rely t w w' → find_row (db w') i = Some (moved to f at_ r) →
     (granted = Entry to → grants w' !! i = Some t ∧ own_sent i w' = []) → P w') →
  hoare t K (attempt (sql_run (UpdateState i from to f at_)))
    (λ n w, K w ∧ ((0 < n)%nat → P w)) (λ _, K).
Proof.
  intros HK HP Hs Hpost.
  apply (hoare_sql t K _ (λ n w, K w ∧ ((0 < n)%nat → P w))); try apply _; [by auto|].
  intros w n w' Hi HKw Hrun Hi' Hr. split; [by eapply HK|]. intros Hn. destruct n as [|n]; [lia|].
  pose proof (won_row t (UpdateState i from to f at_) w w' _ i Hi (Hs w Hi HKw) Hrun) as Hwon.
  unfold run_sql in Hrun. destruct (run_stmt _ _) as [x d'] eqn:Hst. simplify_eq.
  pose proof (run_move _ _ _ _ _ _ _ _ Hst) as (r & Hin & Hid & Hfrom & Hrows).
  pose proof (proj1 (proj1 Hi)) as Hnd. pose proof (find_row_In _ _ Hnd Hin) as Hfind.
  rewrite Hid in Hfind. eapply (Hpost w _ r); try done.
  - destruct Hi as (_ & Hok & _). by eapply Hok.
  - cbn [db with_db]. destruct d' as [l' ev']. cbn in Hrows. subst l'. rewrite find_row_updated by done.
    change (find_row (mkDb (rows (db w)) ev') i) with (find_row (db w) i). rewrite Hfind. cbn.
    unfold updated. by rewrite (proj2 (in_state_spec i from r)).
  - intros Hto. apply Hwon. unfold newly. by rewrite Hto.
Qed.

(** The event of a move is in the history. *)
Lemma hoare_log t K (P : W → Prop) i at_ from to detail F :
  Stable t K → Stable t P → (∀ w, K w → P w) → (∀ w, Inv w → K w → F w) → Stable t F →
  hoare t K (attempt (sql_run (InsertEvent (mkEvent i at_ from to detail))))
    (λ _ w, P w ∧ logged i to w) (λ _, F).
Proof.
  intros HK HP HPw HF HSF. eapply hoare_conseq.
  - apply (hoare_sql t K _ (λ _ w, P w ∧ logged i to w)); [apply _|apply _|done|].
    intros w m w' Hi HKw Hrun Hi' Hr. split; [eapply HP; [done..|by apply HPw]|].
    cbn in Hrun. simplify_eq. eexists. split; [cbn; apply elem_of_app; right; by left|done].
  - done.
  - done.
  - intros e w Hi HKw. by apply HF.
Qed.

(** A request nobody owns: it only has to be justified by the tables. *)
Lemma hoare_act_reply t K (a : Eff) :
  Stable t K → own_of a = None → (∀ w, Inv w → K w → effect_ok (db w) a) →
  hoare t K (attempt (Act a)) (λ y w, K w ∧ replies port a y) (λ _, K).
Proof.
  intros HK Hown Ha. apply hoare_attempt; try apply _. intros w Hi HKw w' x Hh.
  assert (∀ i, own_sent i (with_sent w a) = own_sent i w) as Hsame.
  { intros i. unfold own_sent. cbn. rewrite filter_app, filter_cons_False, app_nil_r by congruence. done. }
  assert (Inv (with_sent w a) ∧ ∀ u, Rely u w (with_sent w a)) as [Hi' Hr].
  { pose proof (Ha w Hi HKw) as Ha'. destruct Hi as (Hwf & Hok & Heff & Hgr & Ho). split.
    - split_and!; [done|done| |done|by intros i; rewrite Hsame].
      cbn. intros b [Hb| ->%list_elem_of_singleton]%elem_of_app; auto.
    - intros u. split; [apply db_le_refl|]. intros i Hi. split; [done|apply Hsame]. }
  cbn in Hh. destruct Hh as [[-> Hx]|(-> & e & ->)].
  - split_and!; [done|intros u _; apply Hr|]. destruct x; cbn; [split; [|done]|]; by eapply HK.
  - split_and!; [done|intros u _; apply Rely_self|done].
Qed.

Lemma hoare_act t K (a : Eff) :
  Stable t K → own_of a = None → (∀ w, Inv w → K w → effect_ok (db w) a) →
  hoare t K (attempt (Act a)) (λ _, K) (λ _, K).
Proof.
  intros. eapply hoare_conseq; [by apply (hoare_act_reply t K)|done|by intros ? ? _ [? _]|done].
Qed.

(** Thread [t] holds the grant of row [i] and has sent [l] under it. *)
Definition owns (t : nat) (i : string) (l : list Eff) w : Prop :=
  grants w !! i = Some t ∧ own_sent i w = l.
#[export] Instance owns_stable t i l : Stable t (owns t i l).
Proof. intros w w' [_ Ho] _ [Hg Hl]. destruct (Ho i Hg) as [? Hs]. split; [done|]. by rewrite Hs. Qed.

(** The [UPDATE] that wins a lease: it was free and the row in its state. *)
Lemma hoare_claim_lease t K P i from column la at_ stale :
  Stable t K → Stable t P → granted = Lease column →
  (∀ w, Inv w → K w → stmt_ok (db w) (ClaimLease i from column la at_ stale)) →
  (∀ w w' r, Inv w → K w → find_row (db w) i = Some r → state r = from → row_ok r →
     Inv w' → Rely t w w' → find_row (db w') i = Some (leased column la at_ r) → P w') →
  hoare t K (attempt (sql_run (ClaimLease i from column la at_ stale)))
    (λ n w, K w ∧ ((0 < n)%nat → P w ∧ owns t i [] w)) (λ _, K).
Proof.
  intros HK HP Hgrant Hs Hpost.
  apply (hoare_sql t K _ (λ n w, K w ∧ ((0 < n)%nat → P w ∧ owns t i [] w))); try apply _; [by auto|].
  intros w n w' Hi HKw Hrun Hi' Hr. split; [by eapply HK|]. intros Hn. destruct n as [|n]; [lia|].
  pose proof (won_row t (ClaimLease i from column la at_ stale) w w' _ i Hi (Hs w Hi HKw) Hrun) as Hwon.
  unfold run_sql in Hrun. destruct (run_stmt _ _) as [x d'] eqn:Hst. simplify_eq.
  pose proof Hst as (r & Hf & Hst' & _ & Hf')%run_claim; [|by destruct Hi].
  split; [|apply Hwon; unfold newly; by rewrite Hgrant].
  eapply (Hpost w _ r); try done. destruct Hi as (_ & Hok & _). by eapply Hok.
Qed.

(** What clearing a column does to the tables. *)
Lemma run_clear i column d x d' :
  ¬ kept column → ¬ frozen column → run_stmt (ClearColumn i column) d = (x, d') →
  db_le d d' ∧ ∀ j r', find_row d' j = Some r' → ∃ r, find_row d j = Some r ∧ (r' = r ∨ j = i ∧ r' = cleared column r).
Proof.
  intros Hk Hf Hrun. assert (∀ r, row_id (cleared column r) = row_id r) as Hid by done.
  destruct (update_where state_refused (λ r, bool_decide (row_id r = i)) (cleared column) d) as [n d0] eqn:Hup.
  assert (d0 = d') as ->.
  { unfold run_stmt in Hrun. cbn [exec] in Hrun. change (λ r, mkRow _ _ _ _ _ _) with (cleared column) in Hrun.
    rewrite Hup in Hrun. by destruct n; simplify_eq. }
  split.
  - destruct (update_where_rel row_le _ _ _ _ _ Hid row_le_refl ltac:(intros j r _ _; by apply row_le_cleared) Hup)
      as [? He]. split; [done|by rewrite He].
  - intros j r' Hr'. destruct (update_where_spec _ _ _ _ _ _ Hid Hup) as [(k & _ & Hrs & _)|[_ ->]]; [|by eauto].
    destruct d as [l0 ev], d' as [l' ev']. cbn in Hrs. subst l'. rewrite find_row_updated in Hr' by done.
    apply fmap_Some in Hr' as (r & Hr & ->). exists r. split; [exact Hr|]. unfold updated. case_bool_decide; [right|by left].
    split; [|done]. pose proof (find_row_Some _ _ _ Hr) as [? _]. congruence.
Qed.

(** The world after the owner of a row gave it back. *)
Lemma released_sound t i column w w' x :
  ¬ kept column → ¬ frozen column → Inv w → owns t i [] w →
  (∀ r, find_row (db w) i = Some r → row_ok (cleared column r)) →
  run_stmt (ClearColumn i column) (db w) = (x, db w') → sent w' = sent w → grants w' = delete i (grants w) →
  Inv w' ∧ guarantees Rely t w w'.
Proof.
  intros Hk Hf (Hwf & Hok & Heff & Hgr & Hown) [Hg Hl] Hrow Hrun Hs Hg'.
  destruct (run_clear _ _ _ _ _ Hk Hf Hrun) as [Hle Hrows].
  assert (∀ j, own_sent j w' = own_sent j w) as Hsent by (intros j; unfold own_sent; by rewrite Hs).
  split; [split_and!|].
  - pose proof (exec_wf state_refused (ClearColumn i column) _ Hwf) as Hwf'. by rewrite <- run_stmt_exec, Hrun in Hwf'.
  - intros j r' Hr'. destruct (Hrows _ _ Hr') as (r & Hr & [->|[-> ->]]); [by eapply Hok|by eapply Hrow].
  - rewrite Hs. eauto using effect_ok_le.
  - rewrite Hg'. intros j u Hu. destruct (decide (j = i)) as [->|Hj]; [by rewrite lookup_delete_eq in Hu|].
    rewrite lookup_delete_ne in Hu by done. destruct (Hgr _ _ Hu) as (r & Hr & Ha).
    destruct (proj1 Hle _ _ Hr) as (r' & Hr' & _). destruct (Hrows _ _ Hr') as (r0 & Hr0 & [->|[-> _]]); [|done].
    simplify_eq. by eauto.
  - intros j. rewrite Hsent, Hg'. destruct (decide (j = i)) as [->|Hj]; [by left|].
    destruct (Hown j) as [Hn|(Hj' & r & fl & Hr & Hfl & Hp)]; [by left|right].
    rewrite lookup_delete_ne by done. split; [done|].
    destruct (proj1 Hle _ _ Hr) as (r' & Hr' & _ & Hq & _). exists r', fl. by rewrite Hq.
  - intros u Hu. split; [done|]. intros j Hj. rewrite Hg'.
    rewrite lookup_delete_ne by congruence. split; [done|apply Hsent].
Qed.

(** The owner of a lease that has sent nothing gives it back. *)
Lemma hoare_release t (K : W → Prop) i column :
  Stable t K → granted = Lease column → ¬ kept column → ¬ frozen column →
  (∀ w w', K w → db_le (db w) (db w') → Inv w' → K w') →
  (∀ w r, Inv w → K w → find_row (db w) i = Some r → row_ok (cleared column r)) →
  hoare t (λ w, K w ∧ owns t i [] w) (attempt (sql_run (ClearColumn i column))) (λ _, K) (λ _, K).
Proof.
  intros HK Hgrant Hkept Hfrozen HKdb Hrow. apply hoare_attempt; try apply _. intros w Hi [HKw Hown] w' x Hh.
  destruct (run_stmt (ClearColumn i column) (db w)) as [y d'] eqn:Hrun.
  set (w1 := with_db w d' (delete i (grants w))).
  assert (run_sql granted t (ClearColumn i column) w = (y, w1)) as Hsql.
  { unfold run_sql. rewrite Hrun. unfold grant_of. by rewrite Hgrant, decide_True. }
  destruct (released_sound t i column w w1 y) as [Hi1 Hr1]; try done; [by intros; eapply Hrow|].
  assert (K w1) as HK1.
  { eapply HKdb; [exact HKw| |done]. by destruct (run_clear i column (db w) y d'). }
  cbn in Hh. rewrite Hsql in Hh. cbn in Hh.
  destruct Hh as [[-> ->]|(e & -> & [-> | ->])]; [|by split_and!; [|intros u _; apply Rely_self|]|by split_and!].
  split_and!; [done|done|]. by destruct y.
Qed.

(** A request of the owner extends what it has sent; one that failed for certain
    leaves it as it was. The rest of what it knew has to survive its own request. *)
Lemma hoare_act_definite t (K : W → Prop) i l (a : Eff) :
  Stable t K → own_of a = Some i →
  (∀ w w', K w → db w' = db w → Inv w' → K w') →
  (∀ w, Inv w → K w → effect_ok (db w) a ∧
     ∃ r fl, find_row (db w) i = Some r ∧ full i (quote r) fl ∧ (l ++ [a]) `prefix_of` fl) →
  hoare t (λ w, K w ∧ owns t i l w) (attempt (Act a))
    (λ _ w, K w ∧ owns t i (l ++ [a]) w) (λ e w, K w ∧ (definite port a e → owns t i l w)).
Proof.
  intros HK Hown Hdb Ha. apply hoare_attempt; try apply _. intros w Hi [HKw [Hg Hl]] w' x Hh.
  assert (own_sent i (with_sent w a) = l ++ [a]) as Hnew.
  { unfold own_sent. cbn. rewrite filter_app, filter_cons_True by done. by rewrite <- Hl. }
  assert (∀ j, j ≠ i → own_sent j (with_sent w a) = own_sent j w) as Hsame.
  { intros j Hj. unfold own_sent. cbn. rewrite filter_app, filter_cons_False, app_nil_r by congruence. done. }
  assert (Inv (with_sent w a) ∧ guarantees Rely t w (with_sent w a)) as [Hi' Hr].
  { destruct (Ha w Hi HKw) as (He & r & fl & Hr & Hf & Hp). destruct Hi as (Hwf & Hok & Heff & Hgr & Ho). split.
    - split_and!; [done|done| |done|].
      + cbn. intros b [Hb| ->%list_elem_of_singleton]%elem_of_app; auto.
      + intros j. destruct (decide (j = i)) as [->|Hj]; [|by rewrite (Hsame j Hj)].
        right. rewrite Hnew. split; [by exists t|]. eauto.
    - intros u Hu. split; [apply db_le_refl|]. intros j Hj. split; [done|]. apply Hsame. congruence. }
  cbn in Hh. destruct Hh as [[-> Hx]|(-> & e & ->)].
  - split_and!; [done|done|]. assert (K (with_sent w a)) by by eapply Hdb.
    destruct x; cbn; by split.
  - split_and!; [done|intros u _; apply Rely_self|]. by split.
Qed.

Lemma hoare_act_own t (K : W → Prop) i l (a : Eff) :
  Stable t K → own_of a = Some i →
  (∀ w w', K w → db w' = db w → Inv w' → K w') →
  (∀ w, Inv w → K w → effect_ok (db w) a ∧
     ∃ r fl, find_row (db w) i = Some r ∧ full i (quote r) fl ∧ (l ++ [a]) `prefix_of` fl) →
  hoare t (λ w, K w ∧ owns t i l w) (attempt (Act a))
    (λ _ w, K w ∧ owns t i (l ++ [a]) w) (λ _, K).
Proof.
  intros. eapply hoare_conseq; [by eapply hoare_act_definite|done|done|by intros e w _ [? _]].
Qed.

Lemma hoare_lifted {A B} t K (f : A → Error) (x : result A B) :
  Stable t K → hoare t K (lifted f x) (λ b w, K w ∧ x = Ok b) (λ _, K).
Proof.
  intros HK. destruct x as [b|e]; [apply hoare_ret|apply hoare_throw]; try apply _; by auto.
Qed.

(** The rule of [try]: what is known survives the attempt and the handler. *)
Lemma hoare_try {A} t K (p : io A) (h : Error → io A) :
  Stable t K → hoare t K p (λ _, K) (λ _, K) → (∀ e, hoare t K (h e) (λ _, K) (λ _, K)) →
  hoare t K (try_catch p h) (λ _, K) (λ _, K).
Proof. intros HK Hp Hh. eapply (hoare_catch _ _ _ _ _ _ _ _ (λ _, K)); try apply _; eauto. Qed.

Lemma hoare_degraded {A} t K (p : io A) i (fallback : A) :
  Stable t K → hoare t K p (λ _, K) (λ _, K) →
  hoare t K (try_catch p (λ e, bind (onTickError i e) (λ _, ret fallback))) (λ _, K) (λ _, K).
Proof.
  intros HK Hp. apply hoare_try; [done|exact Hp|]. intros e.
  eapply hoare_bind; try apply _; [by apply (hoare_report t K)|].
  intros ?. by apply hoare_ret.
Qed.

(** ** Ticks and sweeps *)

Definition safe {A} t (p : io A) : Prop := hoare t (λ _, True) p (λ _ _, True) (λ _ _, True).

Lemma safe_weaken {A} t (p : io A) K P F : (∀ w, Inv w → K w) → hoare t K p P F → safe t p.
Proof. intros HK Hp. eapply hoare_conseq; [exact Hp|auto..]. Qed.

Lemma safe_drive t fuel i (step : Row S Q → io bool) :
  (∀ r, row_ok r → hoare t (since (row_id r) r) (step r) (λ _ _, True) (λ _ _, True)) →
  safe t (drive fuel i step).
Proof.
  intros Hstep. induction fuel as [|n IH]; [by apply hoare_ret|].
  cbn [drive]. unfold safe.
  eapply hoare_bind; try apply _; [by apply (hoare_get t (λ _, True) i (λ _, True)); [apply _|]|].
  intros r w Hi (_ & Hs & Hr & Hid & _). specialize (Hstep r Hr). rewrite Hid in Hstep.
  enough (hoare t (since i r)
    (bind (step r) (λ moved, if moved then drive n i step else ret true))
    (λ _ _, True) (λ _ _, True)) as Hh by by apply Hh.
  eapply hoare_bind; try apply _; [exact Hstep|].
  intros []; cbn beta iota; [exact IH|]. by apply hoare_ret.
Qed.

(** A step that only reports progress when a measure of the row's state went
    down is repeated at most as often as the measure allows, whatever the
    others do meanwhile. *)
Section termination.
Context (t : nat) (measure : S → nat) (i : string) (step : Row S Q → io bool).

Definition below (n : nat) w : Prop := ∃ r, find_row (db w) i = Some r ∧ (measure (state r) < n)%nat.

Context (measure_le : ∀ s s', state_le s s' → (measure s' ≤ measure s)%nat).
Context (progress : ∀ r, row_ok r →
  hoare t (since (row_id r) r) (step r)
    (λ moved w, moved = true → ∃ r', find_row (db w) (row_id r) = Some r' ∧ (measure (state r') < measure (state r))%nat)
    (λ _ _, True)).

#[local] Instance below_stable n : Stable t (below n).
Proof.
  intros w w' [[Hd _] _] _ (r & Hr & Hn). destruct (Hd _ _ Hr) as (r' & Hr' & _ & _ & _ & Hle & _).
  exists r'. split; [done|]. specialize (measure_le _ _ Hle). lia.
Qed.

Lemma drive_pass K n :
  Stable t K → (∀ w r, Inv w → K w → find_row (db w) i = Some r → (measure (state r) < Datatypes.S n)%nat) →
  hoare t (below n) (drive n i step) (λ ended _, ended = true) (λ _ _, True) →
  hoare t K (drive (Datatypes.S n) i step) (λ ended _, ended = true) (λ _ _, True).
Proof.
  intros HK Hn Hrest. cbn [drive].
  eapply hoare_seq; try apply _; [by apply (hoare_get t K i (λ r, (measure (state r) < Datatypes.S n)%nat))|done|].
  intros r. apply (hoare_pre _ _ _ _ _ (λ w, since i r w ∧ (row_ok r ∧ row_id r = i ∧ (measure (state r) < Datatypes.S n)%nat)));
    [naive_solver|].
  apply hoare_pure. intros (Hok & Hid & Hm). rewrite <- Hid.
  eapply hoare_seq; try apply _; [by apply progress|done|]. rewrite Hid.
  intros []; [|by apply hoare_ret; [apply _|]].
  apply (hoare_pre _ _ _ _ _ (below n)); [|done].
  intros w _ Hp. destruct (Hp eq_refl) as (r' & Hr' & Hlt). exists r'. split; [done|lia].
Qed.

Lemma drive_ends n : (∀ s, measure s < n)%nat → hoare t (λ _, True) (drive n i step) (λ ended _, ended = true) (λ _ _, True).
Proof.
  intros Hn.
  assert (∀ m, hoare t (below m) (drive m i step) (λ ended _, ended = true) (λ _ _, True)) as Hb.
  { induction m as [|m IH]; [intros w _ (r & _ & Hr); lia|]. apply drive_pass; [apply _| |done].
    intros w r _ (r' & Hr' & Hlt) Hr. by simplify_eq. }
  destruct n as [|n]; [specialize (Hn state_quoted); lia|]. apply drive_pass; [apply _|by intros; apply Hn|done].
Qed.
End termination.

Lemma safe_get t i : safe t (get i).
Proof. eapply safe_weaken; [|by apply (hoare_get t (λ _, True) i (λ _, True)); [apply _|]]. done. Qed.

Lemma safe_guardedTick t fuel self i (step : Row S Q → io bool) :
  (∀ r, row_ok r → hoare t (since (row_id r) r) (step r) (λ _ _, True) (λ _ _, True)) →
  safe t (guardedTick fuel self i step).
Proof.
  intros Hstep. unfold guardedTick.
  eapply hoare_bind; try apply _.
  { apply (hoare_memory t (λ _, True)); [apply _|]. intros w w' y [_ ->]. same. }
  intros []; cbn [negb]; [|apply safe_get].
  apply hoare_finally; try apply _.
  - eapply hoare_bind; try apply _; [by apply safe_drive|]. intros ?. apply safe_get.
  - intros r w Hi _ w' u ->.
    destruct (same_core_sound w (with_memory w (ticking w ∖ {[(self, i)]}) (inside w) (reported w) (sweeping w))) as [? Hr];
      [same|done|].
    split_and!; [done|intros v _; apply Hr|by destruct r].
Qed.

Lemma safe_sweep t held (l : list (Row S Q)) (tick : string → io (Row S Q)) :
  (∀ i, safe t (held i)) → (∀ i, safe t (tick i)) → safe t (sweep held l tick).
Proof.
  intros Hh Ht. apply hoare_for_each; try apply _. intros r _.
  eapply hoare_bind; try apply _; [exact (Hh (row_id r))|]. intros []; [by apply hoare_ret|].
  apply hoare_try; [apply _| |intros e].
  - eapply hoare_bind; try apply _; [exact (Ht (row_id r))|]. intros ?. by apply hoare_ret.
  - eapply hoare_bind; try apply _; [apply (hoare_report t (λ _, True)), _|].
    intros ?. apply hoare_try; [apply _| |intros ?; by apply hoare_ret].
    eapply hoare_bind; try apply _; [apply safe_get|]. intros ?. by apply hoare_ret.
Qed.

Lemma safe_unheld t i : safe t (unheld i).
Proof. by apply hoare_ret; [apply _|]. Qed.
End discipline.

(** A discipline that freezes nothing. *)
Ltac unfrozen := by intros; apply never_frozen; intros ? [].
