(* ===== verification/Rules.v ===== *)
(** * Derived rules of the services

    The steps the services repeat, as rules over any [Discipline]: reads whose
    answer does not matter, the row's own lock, sweeps over selected rows, and
    what all the instances of a service together may be assumed to do. *)
From S2P Require Import Prelude StateMachine Prog SwapDb EvmRow Store World Discipline.

(** The program logic's steps: a sequence whose failures need no weakening, one
    whose failures do, and a return. *)
Ltac hbind := eapply hoare_bind; try apply _.
Ltac hseq := eapply hoare_seq; try apply _.
Ltac hret := apply hoare_ret; [apply _|].
Ltac hdone := apply hoare_ret; [apply _|done].

Section rules.
Context {S Q Eff : Type} {Read : Type → Type} `{EqDecision S, QuoteColumns Q, SwapShape S, Replies Eff, D : Discipline S Q Eff}.
Context `{!DisciplineLaws}.
Context (port : Port Eff Read).
#[local] Abbreviation W := (World S Q Eff).
#[local] Abbreviation row := (Row S Q).
#[local] Abbreviation event := (evt S Q Eff Read).
#[local] Abbreviation io := (io event Error).
#[local] Abbreviation Stable := (Stable (W := W) Inv Rely).
#[local] Abbreviation triple := (hoare (X := Error) (handle (Eff := Eff) granted port) Inv Rely).

Lemma Inv_row_ok (w : W) i r : Inv w → find_row (db w) i = Some r → row_ok r.
Proof. intros (_ & Hok & _). apply Hok. Qed.

(** A read, when only what was known before matters. *)
Lemma asks_keep {X} t K (q : Read X) : Stable t K → triple t K (asks q) (λ _, K) (λ _, K).
Proof.
  intros HK. eapply hoare_conseq; [by apply (hoare_asks port t K)|done|by intros ? ? _ [? _]|done].
Qed.

Lemma read_keep {X} t K (q : Read X) i (fallback : X) :
  Stable t K →
  triple t K (try_catch (asks q) (λ e, bind (onTickError i e) (λ _, ret fallback))) (λ _, K) (λ _, K).
Proof. intros HK. apply (hoare_degraded port); [done|]. by apply asks_keep. Qed.

Lemma get_keep t K i : Stable t K → triple t K (get i) (λ _, K) (λ _, K).
Proof.
  intros HK. eapply hoare_conseq; [by apply (hoare_get port t K i (λ _, True))|done|by intros ? ? _ [? _]|done].
Qed.

Lemma askApproval_keep `{Approvals Read} t K gate i sats :
  Stable t K → triple t K (askApproval gate i sats) (λ _, K) (λ _, K).
Proof. intros HK. unfold askApproval. destruct gate; [by apply asks_keep|by apply hoare_ret]. Qed.

Lemma report_if t K (b : bool) i e :
  Stable t K → triple t K (if b then onTickError i e else ret tt) (λ _, K) (λ _, K).
Proof. intros HK. destruct b; [by apply (hoare_report port t K)|by apply hoare_ret]. Qed.

(** ** Sweeps *)

Lemma live_rows_safe t : safe (S := S) (Q := Q) (Eff := Eff) port t findLive.
Proof.
  unfold findLive, findByStates. destruct nonTerminal; [by apply hoare_ret; [apply _|]|].
  by apply (hoare_query port t (λ _, True) _ (λ _ _, True)); try apply _.
Qed.

(** The rows of a list, as their sweep read them. *)
Definition all_since (l : list row) (w : W) : Prop := ∀ r, r ∈ l → since (row_id r) r w.
#[export] Instance all_since_stable t l : Stable t (all_since l).
Proof. intros w w' Hr Hi Hl r Hin. by eapply (since_stable t); [exact Hr|exact Hi|apply Hl]. Qed.

Lemma for_each_row {A} t (l : list row) (body : row → io (option A)) :
  (∀ K r, Stable t K → (∀ w, K w → since (row_id r) r w) → r ∈ l → triple t K (body r) (λ _, K) (λ _, K)) →
  triple t (all_since l) (for_each l body) (λ _ _, True) (λ _ _, True).
Proof.
  intros Hb. eapply hoare_conseq; [apply (hoare_for_each _ _ _ t (all_since l)); [apply _|]|done|done|done].
  intros r Hin. apply Hb; [apply _|by intros w Hw; apply Hw|done].
Qed.

(** ** All instances together *)

Definition empty_world : W := mkWorld (mkDb [] []) [] ∅ ∅ ∅ ∅ ∅.

Lemma empty_world_inv : Inv empty_world.
Proof.
  split_and!; [split; constructor|by intros i r Hr|intros a Ha; by apply not_elem_of_nil in Ha| |by left].
  intros i t Ht. cbn in Ht. by rewrite lookup_empty in Ht.
Qed.

Lemma forget_safe {A} t (p : io A) w :
  safe port t p → Inv w → wp (handle granted port) Inv Rely t (forget p) (λ _ _, True) w.
Proof.
  intros Hp Hi. apply wp_bind; [apply _|]. eapply wp_mono; [|by apply Hp]. by intros r w' _ _.
Qed.

(** A process that comes back has an empty memory. *)
Lemma restart_safe t self w :
  Inv w → wp (handle granted port) Inv Rely t (trigger (Restart self)) (λ _ _, True) w.
Proof.
  intros Hi. cbn. intros w1 _ Hi1 w2 x ->.
  destruct (same_core_sound w1
    (with_memory w1 (filter (λ p, p.1 ≠ self) (ticking w1)) (inside w1 ∖ {[self]})
      (filter (λ p, p.1 ≠ self) (reported w1)) (sweeping w1 ∖ {[self]}))) as [Hi2 Hr]; [split_and!; reflexivity|done|].
  split_and!; [done|intros u _; apply Hr|by intros].
Qed.

(** Every interleaving of programs that are safe on their own keeps the
    invariant, and its rows only ever move on. *)
Section instances.
Context (program : prog event unit → Prop).
Context (program_safe : ∀ t p, program p → ∀ w, Inv w → wp (handle granted port) Inv Rely t p (λ _ _, True) w).
#[local] Abbreviation runs := (rtc (cstep (handle granted port) program)).

Lemma instances_sound c : runs (empty_world, []) c → sound (handle granted port) Inv Rely c.
Proof.
  intros Hc. eapply (interleaving_sound _ program); [apply _|exact program_safe|exact Hc|].
  split_and!; [constructor|apply empty_world_inv|constructor].
Qed.

Lemma instances_inv c : runs (empty_world, []) c → Inv c.1.
Proof. intros Hc. by apply instances_sound in Hc as (_ & ? & _). Qed.

Lemma instances_ordered c c' : runs (empty_world, []) c → runs c c' → db_le (db c.1) (db c'.1).
Proof.
  intros Hc Hr. eapply (run_ordered _ program Inv Rely program_safe (λ w w', db_le (db w) (db w')));
    [|intros ???; apply db_le_trans|by intros t w w' [? _]|exact Hr|by apply instances_sound].
  intros w. apply db_le_refl.
Qed.
End instances.
End rules.
