(* ===== verification/EvmRules.v ===== *)
(** * Derived rules of the EVM services

    The rules of [Discipline] and [Rules] for the methods of the EVM store and
    the reads both EVM services share. *)
From S2P Require Import Prelude StateMachine EvmPlan Prog SwapDb EvmRow Store EvmStore World EvmService Discipline Rules.

Section rules.
Context {S Q Eff : Type} {Read : Type → Type} `{EqDecision S, EvmQuote Q, SwapShape S, Replies Eff, D : Discipline S Q Eff}.
Context `{!DisciplineLaws}.
Context (port : Port Eff Read).
#[local] Abbreviation W := (World S Q Eff).
#[local] Abbreviation row := (Row S Q).
#[local] Abbreviation io := (io (evt S Q Eff Read) Error).
#[local] Abbreviation Stable := (Stable (W := W) Inv Rely).
#[local] Abbreviation triple := (hoare (X := Error) (handle (Eff := Eff) granted port) Inv Rely).

Lemma hoare_transition t K P i from to (f : fields) :
  Stable t K → Stable t P →
  (∀ w at_, Inv w → K w → stmt_ok (db w) (UpdateState i from to f at_)) →
  (∀ w w' r at_, Inv w → K w → find_row (db w) i = Some r → state r = from → row_ok r →
     Inv w' → Rely t w w' → find_row (db w') i = Some (moved to f at_ r) →
     (granted = Entry to → grants w' !! i = Some t ∧ own_sent i w' = []) → P w') →
  triple t K (transition i from to f) (λ _ w, P w ∧ logged i to w) (λ _, K).
Proof.
  intros HK HP Hs Hpost. unfold transition. destruct (assertColumns _ _) as [_|e].
  2: { apply hoare_throw; [done|]. auto. }
  hbind; [by apply (hoare_now port t K)|]. intros at_.
  hbind.
  { apply (hoare_update_state port t K P); [done|done| |].
    - intros w Hi HKw. by apply Hs.
    - intros w w' r Hi HKw. by eapply Hpost. }
  intros n. destruct (n =? 0)%nat eqn:Hn.
  - apply hoare_throw; [apply _|]. by intros w _ [? _].
  - apply Nat.eqb_neq in Hn. hbind.
    { apply (hoare_log port t (λ w, K w ∧ ((0 < n)%nat → P w)) P); try apply _;
        [intros w [_ HPw]; apply HPw; lia|by intros w _ [? _]]. }
    intros m. by hret.
Qed.

(** A move into a state that wins nothing, when the row stays right. *)
Lemma move_keep t K P i from to (f : fields) :
  Stable t K → Stable t P →
  clears_nothing f = true → (∀ c, ¬ frozen c) → granted ≠ Entry to → state_le from to →
  (∀ w r at_, Inv w → K w → find_row (db w) i = Some r → state r = from → row_ok r →
     row_ok (moved to f at_ r)) →
  (∀ w r at_, K w → find_row (db w) i = Some (moved to f at_ r) → P w) →
  triple t K (transition i from to f) (λ _ w, P w ∧ logged i to w) (λ _, K).
Proof.
  intros HK HP Hf Hz Hto Hle Hrow Hpost. apply (hoare_transition t K P); [done|done| |].
  - intros w at_ Hi HKw. cbn [stmt_ok]. split_and!; [done|by intros; apply never_frozen|by left|by intros ?|].
    intros r Hr Hs. apply (Hrow w r at_); [done|done|done|done|by eapply Inv_row_ok].
  - intros w w' r at_ _ HKw _ _ _ Hi' Hr Hr' _. eapply Hpost; [|exact Hr']. by eapply HK.
Qed.

Lemma hoare_patch t K i (f : fields) :
  Stable t K →
  (∀ w at_, Inv w → K w → stmt_ok (db w) (UpdateColumns i f at_)) →
  triple t K (patch i f) (λ _, K) (λ _, K).
Proof.
  intros HK Hs. unfold patch. destruct f as [|c f]; [by apply hoare_ret|].
  destruct (assertColumns _ _) as [_|e]; [|by apply hoare_throw].
  eapply hoare_bind; try apply _; [by apply (hoare_now port t K)|]. intros at_.
  eapply hoare_bind; try apply _; [|by intros n; apply (hoare_ret _ Inv Rely t tt K)].
  apply (hoare_sql port t K _ (λ _, K)); try apply _; [by auto|].
  intros w n w' Hi HKw _ Hi' Hr. eapply HK; eauto.
Qed.

(** A new row is right if any row in its first state with no columns set is. *)
Lemma insert_safe t i (q : Q) :
  (∀ r, state r = state_quoted → cols r = ∅ → row_ok r) → safe port t (insert i q : io row).
Proof.
  intros Hok. unfold insert. eapply hoare_seq; try apply _;
    [by apply (hoare_now port t (λ _, True) (λ _ _, True)); apply _|done|]. intros at_.
  eapply hoare_seq; try apply _.
  { apply (hoare_sql port t (λ _, True) _ (λ _ _, True)); try apply _; [|done]. intros w _ _. by apply Hok. }
  { done. }
  intros n. eapply hoare_seq; try apply _; [|done|intros ?; apply (safe_get port)].
  by apply (hoare_sql port t (λ _, True) _ (λ _ _, True)); try apply _.
Qed.

End rules.

Section reads.
Context {S Q Eff : Type} `{EqDecision S, EvmQuote Q, SwapShape S, Replies Eff, D : Discipline S Q Eff}.
Context `{!DisciplineLaws}.
Context (sha256 : list Z → list Z).
#[local] Abbreviation W := (World S Q Eff).
#[local] Abbreviation row := (Row S Q).
#[local] Abbreviation Stable := (Stable (W := W) Inv Rely).
#[local] Abbreviation triple := (hoare (X := Error) (handle (Eff := Eff) granted (port sha256)) Inv Rely).

Lemma lockFor_spec t K (r : row) :
  Stable t K →
  triple t K (lockFor r) (λ lock w, K w ∧ sendLockFromRow (common (quote r)) = Ok lock) (λ _, K).
Proof. intros HK. by apply (hoare_lifted (port sha256)). Qed.

Lemma hoare_provenDepth t K i lock present height n nowS :
  Stable t K → triple t K (provenDepth i lock present height n nowS) (λ _, K) (λ _, K).
Proof.
  intros HK. unfold provenDepth. case_match; [by apply hoare_ret|]. apply (hoare_degraded (port sha256)); [done|].
  eapply hoare_bind; try apply _; [by apply (hoare_asks (port sha256) t K)|]. intros there.
  destruct there; cbn [negb]; [|by apply hoare_ret; [apply _|intros ? _ [? _]]].
  eapply hoare_bind; try apply _; [eapply hoare_conseq; [by apply (hoare_asks (port sha256) t K)|by intros ? _ [? _]|done..]|].
  intros at_. apply hoare_ret; [apply _|by intros ? _ [? _]].
Qed.

End reads.
