(* ===== verification/BaseRules.v ===== *)
(** * Derived rules of the Bitcoin services

    The rules of [Discipline] and [Rules] for the methods of [BaseSwapStore]: a
    move answers whether it was made, an illegal one throws before anything is
    written. *)
From S2P Require Import Prelude StateMachine Prog SwapDb EvmRow Store World BaseStore Discipline Rules.

Section rules.
Context {S Q Eff : Type} {Read : Type → Type} `{EqDecision S, QuoteColumns Q, BaseShape S, Replies Eff, D : Discipline S Q Eff}.
Context `{!DisciplineLaws}.
Context (port : Port Eff Read).
#[local] Abbreviation W := (World S Q Eff).
#[local] Abbreviation row := (Row S Q).
#[local] Abbreviation Stable := (Stable (W := W) Inv Rely).
#[local] Abbreviation triple := (hoare (X := Error) (handle (Eff := Eff) granted port) Inv Rely).

Lemma recordEvent_keep t K i from to detail :
  Stable t K → triple t K (recordEvent i from to detail) (λ _, K) (λ _, K).
Proof.
  intros HK. unfold recordEvent. hbind; [by apply (hoare_now port t K)|]. intros at_.
  hbind; [|intros ?; by hret].
  eapply hoare_conseq; [by apply (hoare_log port t K K i at_ from to detail K); auto|done|by intros ? w _ [? _]|done].
Qed.

(** A move: what it needs of the tables is only asked of a legal one. *)
Lemma hoare_base_transition t K P i from to (f : fields) :
  Stable t K → Stable t P →
  (∀ w at_, Inv w → K w → to ∈ legalEdges from → stmt_ok (db w) (UpdateState i from to f at_)) →
  (∀ w w' r at_, Inv w → K w → find_row (db w) i = Some r → state r = from → row_ok r →
     Inv w' → Rely t w w' → find_row (db w') i = Some (moved to f at_ r) →
     (granted = Entry to → grants w' !! i = Some t ∧ own_sent i w' = []) → P w') →
  triple t K (transition i from to f) (λ won w, K w ∧ (won = true → P w)) (λ _, K).
Proof.
  intros HK HP Hs Hpost. unfold transition, transitionWhere. case_bool_decide as Hlegal; [by apply hoare_throw|].
  assert (to ∈ legalEdges from) as Hto by (destruct (decide (to ∈ legalEdges from)); tauto).
  destruct (assertColumns _ _) as [_|e]; [|by apply hoare_throw].
  hbind; [by apply (hoare_now port t K)|]. intros at_. hbind.
  { apply (hoare_update_state port t K P); [done|done| |].
    - intros w Hi HKw. by apply Hs.
    - intros w w' r Hi HKw. by eapply Hpost. }
  intros n. destruct (n =? 1)%nat eqn:Hn.
  - apply Nat.eqb_eq in Hn as ->. hseq; [by apply recordEvent_keep; apply _|by intros e w _ [? _]|].
    intros ?. hret. intros w _ [? HPw]. split; [done|]. intros _. apply HPw. lia.
  - hret. by intros w _ [? _].
Qed.

(** What a move may clear: nothing, or columns the order does not keep, and not
    from under the thread the row was granted to. *)
Definition spares (from to : S) (f : fields) : Prop :=
  clears_nothing f = true ∨
  (∀ c, kept c → assigned f c ≠ Some None) ∧
  (∀ (r : row) at_, state r = from → after_grant r → after_grant (moved to f at_ r)).

(** A move into a state that wins nothing, when the row stays right. *)
Lemma base_move_keep t K P i from to (f : fields) :
  Stable t K → Stable t P →
  spares from to f → granted ≠ Entry to → (to ∈ legalEdges from → state_le from to) →
  (∀ w r, Inv w → K w → find_row (db w) i = Some r → state r = from → row_ok r →
     unthawed (cols r) (set_columns f (cols r))) →
  (∀ w r at_, Inv w → K w → find_row (db w) i = Some r → state r = from → row_ok r →
     row_ok (moved to f at_ r)) →
  (∀ w r at_, K w → find_row (db w) i = Some (moved to f at_ r) → P w) →
  triple t K (transition i from to f) (λ won w, K w ∧ (won = true → P w)) (λ _, K).
Proof.
  intros HK HP Hf Hto Hle Hz Hrow Hpost. apply (hoare_base_transition t K P); [done|done| |].
  - intros w at_ Hi HKw Hlegal. cbn [stmt_ok].
    split_and!; [auto|intros r Hr Hs; apply (Hz w); try done; by eapply Inv_row_ok|destruct Hf as [?|[? ?]]; auto|by intros ?|].
    intros r Hr Hs. apply (Hrow w r at_); [done|done|done|done|by eapply Inv_row_ok].
  - intros w w' r at_ _ HKw _ _ _ Hi' Hr Hr' _. eapply Hpost; [|exact Hr']. by eapply HK.
Qed.

Lemma hoare_base_patch t K i (f : fields) :
  Stable t K →
  (∀ w at_, Inv w → K w → stmt_ok (db w) (UpdateColumns i f at_)) →
  triple t K (base_patch i f) (λ _, K) (λ _, K).
Proof.
  intros HK Hs. unfold base_patch. destruct f as [|c f]; [by apply hoare_ret|].
  destruct (assertColumns _ _) as [_|e]; [|by apply hoare_throw].
  hbind; [by apply (hoare_now port t K)|]. intros at_. hbind; [|by intros n; hret].
  apply (hoare_sql port t K _ (λ _, K)); try apply _; [by auto|].
  intros w n w' Hi HKw _ Hi' Hr. eapply HK; eauto.
Qed.

(** A query whose answer does not matter. *)
Lemma query_keep {X} t K (f : Db S Q → X) : Stable t K → triple t K (attempt (sql_all f)) (λ _, K) (λ _, K).
Proof. intros HK. by apply (hoare_query port t K f (λ _, K)); [|intros ?|]. Qed.

(** The funding lease, won by one thread, which has sent nothing under it. *)
Lemma claimFundLease_spec t K P i from stale :
  Stable t K → Stable t P → granted = Lease "fund_started_at" →
  (∀ w leased_at at_, Inv w → K w → 0 ≤ leased_at →
     stmt_ok (db w) (ClaimLease i from "fund_started_at" leased_at at_ (default (-1) stale))) →
  (∀ w w' r leased_at at_, Inv w → K w → find_row (db w) i = Some r → state r = from → row_ok r →
     Inv w' → Rely t w w' → find_row (db w') i = Some (leased "fund_started_at" leased_at at_ r) → P w') →
  triple t K (claimFundLease i from stale) (λ won w, K w ∧ (won = true → P w ∧ owns t i [] w)) (λ _, K).
Proof.
  intros HK HP Hg Hs Hpost. unfold claimFundLease.
  hbind; [by apply (hoare_clock port t K)|]. intros leased_at. apply hoare_pure. intros Hat.
  hbind; [by apply (hoare_now port t K)|]. intros at_.
  hbind; [apply (hoare_claim_lease port t K P); [done|done|done| |]|].
  - intros w Hi HKw. by apply Hs.
  - intros w w' r Hi HKw. by apply Hpost.
  - intros n. hret. intros w _ [HKw Hn]. split; [done|]. intros Hw%Nat.eqb_eq. apply Hn. lia.
Qed.

(** And given back by the thread that has it. *)
Lemma releaseFundLease_spec t (K : W → Prop) i :
  Stable t K → granted = Lease "fund_started_at" → ¬ kept "fund_started_at" → ¬ frozen "fund_started_at" →
  (∀ w w', K w → db_le (db w) (db w') → Inv w' → K w') →
  (∀ w r, Inv w → K w → find_row (db w) i = Some r →
     row_ok (cleared "fund_started_at" r)) →
  triple t (λ w, K w ∧ owns t i [] w) (releaseFundLease i) (λ _, K) (λ _, K).
Proof.
  intros HK Hg Hk Hz HKd Hrow. unfold releaseFundLease. hbind; [by apply (hoare_release port t K)|].
  intros ?. by hret.
Qed.

(** ** Writes under a condition *)

(** A write that found its row. *)
Lemma hoare_found t K P (s : stmt S Q) :
  Stable t K → Stable t P → (∀ w, Inv w → K w → stmt_ok (db w) s) →
  (∀ w n w', Inv w → K w → run_sql granted t s w = (Ok (Datatypes.S n), w') → Inv w' → Rely t w w' → P w') →
  triple t K (attempt (sql_run s)) (λ n w, K w ∧ ((0 < n)%nat → P w)) (λ _, K).
Proof.
  intros HK HP Hs Hpost. apply (hoare_sql port t K _ (λ n w, K w ∧ ((0 < n)%nat → P w))); try apply _; [done|].
  intros w n w' Hi HKw Hrun Hi' Hr. split; [by eapply HK|]. intros Hn. destruct n as [|n]; [lia|]. by apply (Hpost w n).
Qed.

(** A column set while it was NULL, in a state. *)
Lemma set_once_spec t K P i from column v at_ :
  Stable t K → Stable t P → (∀ w, Inv w → K w → stmt_ok (db w) (UpdateIfNullIn i from column v at_)) →
  (∀ w r, Inv w → K w → find_row (db w) i = Some r → cols r !! column = Some v → P w) →
  triple t K (attempt (sql_run (UpdateIfNullIn i from column v at_))) (λ n w, K w ∧ ((0 < n)%nat → P w)) (λ _, K).
Proof.
  intros HK HP Hs Hpost. apply (hoare_found t K P); [done..|]. intros w n w' Hi HKw Hrun Hi' Hr.
  unfold run_sql, run_stmt in Hrun. cbn [exec] in Hrun. destruct (update_where _ _ _ _) as [x d'] eqn:Hup.
  destruct x as [k|]; simplify_eq. apply (run_one _ _ i) in Hup as (r & _ & _ & Hr'); [|done| |by destruct Hi].
  - eapply Hpost; [exact Hi'|by eapply HK|exact Hr'|]. cbn. apply lookup_insert_eq.
  - by intros r [[Hid%bool_decide_eq_true _]%andb_true_iff _]%andb_true_iff.
Qed.

(** A move made only while a column is NULL: nothing is learnt from it. *)
Lemma transitionWhere_keep t K i from to (f : fields) column :
  Stable t K →
  (∀ w at_, Inv w → K w → to ∈ legalEdges from → stmt_ok (db w) (UpdateStateIfNull i from to f at_ column)) →
  triple t K (transitionWhere i from to f (Some column)) (λ _, K) (λ _, K).
Proof.
  intros HK Hs. unfold transitionWhere. case_bool_decide as Hlegal; [by apply hoare_throw|].
  assert (to ∈ legalEdges from) as Hto by (destruct (decide (to ∈ legalEdges from)); tauto).
  destruct (assertColumns _ _) as [_|e]; [|by apply hoare_throw].
  hbind; [by apply (hoare_now port t K)|]. intros at_. hbind.
  { apply (hoare_sql port t K _ (λ _, K)); try apply _; [by auto|]. intros w n w' Hi HKw _ Hi' Hr. by eapply HK. }
  intros n. case_match; [|by hret]. hbind; [by apply recordEvent_keep|]. intros ?. by hret.
Qed.

(** A lease that is nobody's promise: won or lost, given back by whoever asks. *)
Lemma claimFundLease_keep t K i from stale :
  Stable t K →
  (∀ w leased_at at_, Inv w → K w → stmt_ok (db w) (ClaimLease i from "fund_started_at" leased_at at_ (default (-1) stale))) →
  triple t K (claimFundLease i from stale) (λ _, K) (λ _, K).
Proof.
  intros HK Hs. unfold claimFundLease. hbind; [by apply (hoare_now port t K)|]. intros leased_at.
  hbind; [by apply (hoare_now port t K)|]. intros at_. hbind; [|intros n; by hret].
  apply (hoare_sql port t K _ (λ _, K)); try apply _; [by auto|]. intros w n w' Hi HKw _ Hi' Hr. by eapply HK.
Qed.

Lemma releaseFundLease_keep t K i :
  Stable t K → (∀ w, Inv w → K w → stmt_ok (db w) (ClearColumn i "fund_started_at")) →
  triple t K (releaseFundLease i) (λ _, K) (λ _, K).
Proof.
  intros HK Hs. unfold releaseFundLease. hbind; [|intros n; by hret].
  apply (hoare_sql port t K _ (λ _, K)); try apply _; [by auto|]. intros w n w' Hi HKw _ Hi' Hr. by eapply HK.
Qed.
End rules.
