(* ===== verification/CorridorRules.v ===== *)
(** * What a Bitcoin corridor knows of its row

    The reasoning the orchestrators of [packages/solver-corridors/src] share:
    the moves a machine declares as an order, what a handler still knows of the
    row it was given whatever the others did meanwhile, the steps that change
    nothing of it, and the progress a tick reports. *)
From S2P Require Import Prelude Timelocks StateMachine Prog SwapDb EvmRow Store World ChainClock UnrolledSpend BaseStore Discipline Rules BaseRules.
#[local] Open Scope Z_scope.

(** ** The moves of a machine *)

Section lifecycle.
Context {S : Type} `{EqDecision S} (edges : S → list S) (states : list S).
Context (complete : ∀ s, s ∈ states).

Definition edge (s s' : S) : Prop := s' ∈ edges s.
#[export] Instance edge_dec s s' : Decision (edge s s').
Proof. unfold edge. apply _. Defined.

Lemma edge_step (P : S → S → bool) s s' :
  forallb (λ s, forallb (P s) (edges s)) states = true → edge s s' → P s s' = true.
Proof.
  rewrite forallb_forall. intros Hall He. specialize (Hall s (proj1 (list_elem_of_In _ _) (complete s))).
  rewrite forallb_forall in Hall. by apply Hall, list_elem_of_In.
Qed.

(** A set of states no edge leaves. *)
Lemma edges_closed (P : S → bool) s s' :
  forallb (λ s, forallb (λ s', implb (P s) (P s')) (edges s)) states = true →
  rtc edge s s' → P s = true → P s' = true.
Proof.
  intros Hall. apply (rtc_invariant _ (λ x, P x = true)). intros x y Hxy Hx.
  pose proof (edge_step (λ s s', implb (P s) (P s')) x y Hall Hxy) as Hi. cbn in Hi. by rewrite Hx in Hi.
Qed.

(** A measure every edge lowers. *)
Lemma edges_descend (measure : S → nat) s s' :
  forallb (λ s, forallb (λ s', measure s' <=? measure s)%nat (edges s)) states = true →
  rtc edge s s' → (measure s' ≤ measure s)%nat.
Proof.
  intros Hall. induction 1 as [s|s s1 s' He _ IH]; [done|]. etrans; [exact IH|]. apply Nat.leb_le.
  by apply (edge_step (λ s s', measure s' <=? measure s)%nat).
Qed.

Lemma edges_terminal s s' : rtc edge s s' → edges s = [] → s' = s.
Proof.
  intros Hs Ht. inversion Hs as [|? y ? Hy]; subst; [done|]. exfalso. unfold edge in Hy. rewrite Ht in Hy.
  by apply not_elem_of_nil in Hy.
Qed.

(** A state reached along a path of edges. *)
Lemma edges_path l s s' :
  forallb (λ p, bool_decide (edge p.1 p.2)) (zip (s :: l) l) = true → last (s :: l) = Some s' → rtc edge s s'.
Proof.
  revert s. induction l as [|s1 l IH]; intros s Hl Hlast.
  - cbn in Hlast. simplify_eq. apply rtc_refl.
  - cbn in Hl. apply andb_true_iff in Hl as [He%bool_decide_eq_true Hl]. eapply rtc_l; [exact He|]. by apply IH.
Qed.
End lifecycle.

(** ** What a handler knows *)

Section rules.
Context {S Q Eff : Type} {Read : Type → Type} `{EqDecision S, QuoteColumns Q, BaseShape S, Replies Eff, D : Discipline S Q Eff}.
Context `{!DisciplineLaws}.
Context (port : Port Eff Read).
#[local] Abbreviation W := (World S Q Eff).
#[local] Abbreviation row := (Row S Q).
#[local] Abbreviation event := (evt S Q Eff Read).
#[local] Abbreviation io := (io event Error).
#[local] Abbreviation Stable := (Stable (W := W) Inv Rely).
#[local] Abbreviation triple := (hoare (X := Error) (handle (Eff := Eff) granted port) Inv Rely).

(** What the tables moving on does not take away. *)
Class Forward (K : W → Prop) : Prop :=
  forward w w' : db_le (db w) (db w') → Inv w' → K w → K w'.

#[export] Instance Forward_stable t K : Forward K → Stable t K.
Proof. intros HK w w' [Hd _]. by apply HK. Qed.
#[export] Instance Forward_const (P : Prop) : Forward (λ _, P).
Proof. by intros w w' _ _. Qed.
#[export] Instance Forward_and K1 K2 : Forward K1 → Forward K2 → Forward (λ w, K1 w ∧ K2 w).
Proof. intros HK1 HK2 w w' Hd Hi [??]. split; [by eapply HK1|by eapply HK2]. Qed.
#[export] Instance Forward_impl (P : Prop) K : Forward K → Forward (λ w, P → K w).
Proof. intros HK w w' Hd Hi HP Hp. eapply HK; eauto. Qed.
#[export] Instance Forward_since i r : Forward (since i r).
Proof.
  intros w w' [Hd _] _ (r' & Hr' & Hle). destruct (Hd _ _ Hr') as (r'' & Hr'' & Hle').
  exists r''. split; [done|]. by eapply row_le_trans.
Qed.

(** [r] is the row as it was read, [K] what has been learnt since. *)
Class Knows (K : W → Prop) (r : row) : Prop := {
  knows_forward :: Forward K;
  knows_since : ∀ w, K w → since (row_id r) r w;
  knows_ok : row_ok r;
}.

#[export] Instance Knows_and K P r : Knows K r → Forward P → Knows (λ w, K w ∧ P w) r.
Proof. intros [HK Hs Hr] HP. split; [apply _| |done]. intros w [HKw _]. by apply Hs. Qed.
#[export] Instance Knows_and_pure K P r : Knows K r → Knows (λ w, K w ∧ P) r.
Proof. intros HK. apply (Knows_and K (λ _, P)); apply _. Qed.

Lemma known_since r : row_ok r → Knows (since (row_id r) r) r.
Proof. intros Hr. split; [apply _|done|done]. Qed.

(** The row is past the entry into [s]. *)
Definition entered (r : row) (s : S) (w : W) : Prop :=
  ∃ r' : row, find_row (db w) (row_id r) = Some r' ∧ quote r' = quote r ∧ state_le s (state r').
#[export] Instance entered_forward r s : Forward (entered r s).
Proof.
  intros w w' [Hd _] _ (r1 & Hr & Hq & Hs). destruct (Hd _ _ Hr) as (r' & Hr' & _ & Hq' & _ & Hle & _).
  exists r'. split_and!; [done|congruence|]. by eapply state_le_trans.
Qed.

Lemma since_entered r w : since (row_id r) r w → entered r (state r) w.
Proof. intros (r' & ? & _ & ? & _ & ? & _). by exists r'. Qed.

(** The row as the tables have it now. *)
Lemma known_row K r w r' : Knows K r → K w → find_row (db w) (row_id r) = Some r' →
  row_id r' = row_id r ∧ quote r' = quote r ∧ state_le (state r) (state r').
Proof. intros HKn HKw Hr'. destruct (knows_since w HKw) as (r1 & Hr1 & ? & ? & _ & ? & _). by simplify_eq. Qed.

(** ** Steps that leave what is known as it is *)

Section keeping.
Context (t : nat) (K : W → Prop) `{!Stable t K}.
#[local] Abbreviation keeps p := (triple t K p (λ _, K) (λ _, K)).

Lemma asked {X} (q : Read X) : keeps (asks q).
Proof. by apply (asks_keep port t K). Qed.
Lemma timed : keeps now.
Proof. by apply (hoare_now port t K (λ _, K)). Qed.
Lemma told i e : keeps (onTickError i e).
Proof. by apply (hoare_report port t K i e (λ _, K)). Qed.
Lemma first_told self i : keeps (firstReport self i).
Proof. by apply (hoare_firstReport port t K self i (λ _, K)). Qed.
Lemma lifted_keep {A B} (f : A → Error) (x : result A B) : keeps (lifted f x).
Proof. eapply hoare_conseq; [by apply (hoare_lifted port t K)|done|by intros ? ? _ [? _]|done]. Qed.

Lemma caught_keep {A} (p : io A) : keeps p → keeps (caught p).
Proof.
  intros Hp. unfold caught. apply (hoare_try port t K); [apply _| |intros e; by hret].
  hbind; [exact Hp|]. intros a. by hret.
Qed.

Context `{ChainTipProvider Read}.
Lemma refundDeadlineSeconds_spec tip l purpose :
  triple t K (refundDeadlineSeconds tip l purpose : io Z)
    (λ deadline w, K w ∧ (absoluteLocktimeUnit l = seconds → deadline = l)) (λ _, K).
Proof.
  unfold refundDeadlineSeconds. cbn [time_now tip_height service_clock]. hbind; [apply timed|]. intros at_.
  destruct (absoluteLocktimeUnit l); [by hret|]. destruct tip; [|by apply hoare_throw].
  hbind; [apply asked|]. intros height. by hret.
Qed.
Lemma refundDeadlineSeconds_keep tip l purpose : keeps (refundDeadlineSeconds tip l purpose : io Z).
Proof. eapply hoare_conseq; [apply refundDeadlineSeconds_spec|done|by intros ? ? _ [? _]|done]. Qed.
Lemma refundDeadlineReached_keep tip l : keeps (refundDeadlineReached tip l : io bool).
Proof.
  unfold refundDeadlineReached. cbn [time_now tip_height service_clock]. hbind; [apply timed|]. intros at_.
  destruct (absoluteLocktimeUnit l); [by hret|]. destruct tip; [|by apply hoare_throw].
  hbind; [apply asked|]. intros height. by hret.
Qed.
End keeping.

(** ** Writing *)

Section writing.
Context (t : nat) (K : W → Prop) (r : row) `{!Knows K r}.

(** A patch of the row as it is by then, moved on from [r]. *)
Lemma row_patch_known f :
  clears_nothing f = true →
  (∀ (r' : row) at_, row_le r r' → row_ok r' →
     unthawed (cols r') (set_columns f (cols r')) ∧
     row_ok (mkRow (row_id r') (state r') (created_at r') at_ (quote r') (set_columns f (cols r')))) →
  triple t K (base_patch (row_id r) f) (λ _, K) (λ _, K).
Proof.
  intros Hf Hrow. apply (hoare_base_patch port t K); [apply _|]. intros w at_ Hi HKw.
  assert (∀ r' : row, find_row (db w) (row_id r) = Some r' → row_le r r' ∧ row_ok r') as Hle.
  { intros r' Hr'. destruct (knows_since w HKw) as (r1 & Hr1 & Hle). simplify_eq. split; [done|]. by eapply Inv_row_ok. }
  split_and!; [done|..]; intros r' Hr'; destruct (Hle r' Hr') as [? Hok]; by apply (Hrow r' at_).
Qed.

Lemma row_patch_keep f :
  clears_nothing f = true → (∀ m, unthawed m (set_columns f m)) →
  (∀ (r' : row) at_, quote r' = quote r → row_ok r' →
     row_ok (mkRow (row_id r') (state r') (created_at r') at_ (quote r') (set_columns f (cols r')))) →
  triple t K (base_patch (row_id r) f) (λ _, K) (λ _, K).
Proof.
  intros Hf Hz Hrow. apply row_patch_known; [done|]. intros r' at_ (_ & Hq & _) Hok. split; [done|by apply Hrow].
Qed.

(** A move of the row, won or lost to another instance. *)
Lemma row_move_known from to f :
  spares from to f → granted ≠ Entry to → (to ∈ legalEdges from → state_le from to) →
  (∀ (r' : row) at_, row_le r r' → state r' = from → row_ok r' →
     unthawed (cols r') (set_columns f (cols r')) ∧ row_ok (moved to f at_ r')) →
  triple t K (transition (row_id r) from to f) (λ won w, K w ∧ (won = true → entered r to w)) (λ _, K).
Proof.
  intros Hf Hg Hle Hrow.
  assert (∀ w (r' : row), K w → find_row (db w) (row_id r) = Some r' → row_le r r') as Hnow.
  { intros w r' HKw Hr'. destruct (knows_since w HKw) as (r1 & Hr1 & ?). by simplify_eq. }
  apply (base_move_keep port t K (entered r to)); [apply _|apply _|done|done|done| | |].
  - intros w r' Hi HKw Hr' Hs Hok. apply (Hrow r' 0); by eauto.
  - intros w r' at_ Hi HKw Hr' Hs Hok. apply Hrow; by eauto.
  - intros w r' at_ HKw Hr'. destruct (known_row K r w _ _ HKw Hr') as (_ & Hq & _).
    eexists. split_and!; [exact Hr'|exact Hq|apply state_le_refl].
Qed.

Lemma row_move_keep from to f :
  spares from to f → granted ≠ Entry to → (to ∈ legalEdges from → state_le from to) →
  (∀ r' : row, quote r' = quote r → state r' = from → row_ok r' → unthawed (cols r') (set_columns f (cols r'))) →
  (∀ (r' : row) at_, quote r' = quote r → state r' = from → row_ok r' → row_ok (moved to f at_ r')) →
  triple t K (transition (row_id r) from to f) (λ won w, K w ∧ (won = true → entered r to w)) (λ _, K).
Proof.
  intros Hf Hg Hle Hz Hrow. apply row_move_known; [done..|]. intros r' at_ (_ & Hq & _) Hs Hok. auto.
Qed.
End writing.

#[export] Instance all_since_forward l : Forward (all_since (S := S) (Q := Q) (Eff := Eff) l).
Proof. intros w w' Hd Hi Hl r Hin. by eapply Forward_since; [exact Hd|exact Hi|apply Hl]. Qed.

(** The rows of a sweep, one after the other. *)
Lemma for_each_known {A} t (l : list row) (body : row → io (option A)) :
  (∀ r, r ∈ l → row_ok r) →
  (∀ K r, Knows K r → r ∈ l → triple t K (body r) (λ _, K) (λ _, K)) →
  triple t (all_since l) (for_each l body) (λ _ _, True) (λ _ _, True).
Proof.
  intros Hok Hb. eapply hoare_conseq; [apply (hoare_for_each _ _ _ t (all_since l)); [apply _|]|done|done|done].
  intros r Hin. apply Hb; [|done]. split; [apply _|by intros w Hw; apply Hw|by apply Hok].
Qed.

(** The outcome of a race for the row. *)
Lemma won_or_not {A} t (K P : W → Prop) (p q : io A) (R : A → W → Prop) F (won : bool) :
  triple t (λ w, K w ∧ P w) p R F → triple t K q R F →
  triple t (λ w, K w ∧ (won = true → P w)) (if won then p else q) R F.
Proof.
  intros Hp Hq. destruct won.
  - eapply hoare_pre; [|exact Hp]. intros w _ [? HP]. auto.
  - eapply hoare_pre; [|exact Hq]. by intros w _ [? _].
Qed.

(** ** Progress *)

Section progress.
Context (measure : S → nat) (measure_le : ∀ s s', state_le s s' → (measure s' ≤ measure s)%nat).
Context (t : nat) (K : W → Prop) (r : row) `{!Knows K r}.

(** Progress: the row is in a state a tick has fewer passes left in. *)
Definition nearer (n : nat) (moved : bool) (w : W) : Prop := moved = true → below measure (row_id r) n w.

Lemma nearer_stable n moved : Stable t (nearer n moved).
Proof. apply Stable_impl. by apply below_stable. Qed.

Lemma nearer_entered n s moved w :
  (moved = true → entered r s w) → (measure s < n)%nat → nearer n moved w.
Proof.
  intros He Hn Hm. destruct (He Hm) as (r' & Hr' & _ & Hs). exists r'. split; [done|]. apply measure_le in Hs. lia.
Qed.

(** Done what there was to do, without progress to report. *)
Lemma no_progress {A} n (p : io A) :
  triple t K p (λ _, K) (λ _, K) → triple t K (bind p (λ _, ret false)) (nearer n) (λ _, K).
Proof. intros Hp. hbind; [exact Hp|]. intros ?. apply hoare_ret; [apply _|done]. Qed.

(** A move is progress when it is won. *)
Lemma move_nearer n s p :
  triple t K p (λ won w, K w ∧ (won = true → entered r s w)) (λ _, K) → (measure s < n)%nat →
  triple t K p (nearer n) (λ _, K).
Proof.
  intros Hp Hn. eapply hoare_conseq; [exact Hp|done| |done]. intros won w _ [_ Hw]. by apply (nearer_entered n s).
Qed.
End progress.
End rules.
