(* ===== verification/UnrolledRules.v ===== *)
(** * Rules for the claims of unrolled outputs

    What a service has to say of its operations and of its store so that the
    steps of [UnrolledSpend] leave what it knows as it is: every corridor with
    an Arkade lockup runs the same steps over its own row. *)
From S2P Require Import Prelude StateMachine Prog SwapDb EvmRow Store World Lockup UnrolledSpend BaseStore Discipline Rules BaseRules CorridorRules.

Section rules.
Context {S Q Eff : Type} {Read : Type → Type} `{EqDecision S, QuoteColumns Q, BaseShape S, Replies Eff, D : Discipline S Q Eff, Json}.
Context `{!DisciplineLaws}.
Context (port : Port Eff Read).
#[local] Abbreviation W := (World S Q Eff).
#[local] Abbreviation event := (evt S Q Eff Read).
#[local] Abbreviation io := (io event Error).
#[local] Abbreviation Stable := (Stable (W := W) Inv Rely).
#[local] Abbreviation triple := (hoare (X := Error) (handle (Eff := Eff) granted port) Inv Rely).

Context (t : nat) (K : W → Prop) `{!Stable t K}.
#[local] Abbreviation keeps p := (triple t K p (λ _, K) (λ _, K)).

(** A step after which as much is known as before. *)
Ltac hk := apply (hoare_bind _ _ _ _ K _ _ (λ _, K)); try apply _.
Ltac hstop := first [by hret | by apply hoare_throw; [apply _|]].

Context (ops : UnrolledOps (E := event)) (store : RowStore (E := event) S) (i : string).

(** What the row's own operations do. *)
Record OpsKeep : Prop := {
  patch_kept : ∀ steps, keeps (store_patch _ store i [("unrolled_claim", Some (VText steps))]);
  resume_kept : ∀ output, keeps (resumeUnrolled ops output);
  claim_kept : ∀ claim, claimUnrolled ops = Some claim → ∀ output record, keeps (claim output record);
  outpoints_kept : ∀ find, findLockupOutpoints ops = Some find → ∀ script, keeps (find script);
  revealed_kept : ∀ find, findClaimPreimage ops = Some find → ∀ o h, keeps (find o h);
}.
Context (Hops : OpsKeep).

Lemma keep_keep steps key step : keeps (keep store i steps key step).
Proof.
  unfold keep. case_match; [hstop|]. apply (hoare_try port t K); [apply _| |intros e; hstop].
  hk; [apply (patch_kept Hops)|]. intros ?. hstop.
Qed.

Lemma converse_keep n key steps reply : keeps (converse ops store n i key steps reply).
Proof.
  revert steps reply. induction n as [|n IH]; intros steps [record|step]; cbn [converse]; try hstop.
  hk; [apply keep_keep|]. intros [steps' [e|]]; [hstop|].
  hk; [apply (caught_keep port), (resume_kept Hops); apply _|]. intros [reply|e]; [apply IH|hstop].
Qed.

Section advancing.
Context (claim : string * num → option UnrolledSpendRecord → io ClaimReply).
Context (Hclaim : ∀ output record, keeps (claim output record)).

Lemma advanceOne_keep key steps : keeps (advanceOne ops store claim i key steps).
Proof.
  unfold advanceOne.
  assert (∀ record, keeps (bind (caught (claim (outpoint_of key) record)) (λ first, match first with
    | inr e => ret (steps, Some e)
    | inl reply =>
        bind (converse ops store (saves ops) i key steps reply) (λ said, match said with
        | (steps, inr e) => ret (steps, Some e)
        | (steps, inl waiting) => ret (steps, None)
        | (steps, inl step) => keep store i steps key step
        end)
    end))) as Ha.
  { intros record. hk; [apply (caught_keep port), Hclaim; apply _|]. intros [reply|e]; [|hstop].
    hk; [apply converse_keep|]. intros [steps' [step|e]]; [|hstop]. destruct step; try hstop; apply keep_keep. }
  destruct (step_of steps key) as [[| | | |]|]; [apply Ha..|hstop|apply Ha].
Qed.

Lemma advanceEach_keep keys steps error : keeps (advanceEach ops store claim i keys steps error).
Proof.
  revert steps error. induction keys as [|key keys IH]; intros steps error; cbn [advanceEach]; [hstop|].
  hk; [by apply advanceOne_keep|]. intros [steps' thrown]. apply IH.
Qed.
End advancing.

Lemma advanceUnrolledClaims_keep script text : keeps (advanceUnrolledClaims ops store i script text).
Proof.
  unfold advanceUnrolledClaims. destruct (findLockupOutpoints ops) as [find|] eqn:Hfind; [|hstop].
  destruct (claimUnrolled ops) as [claim|] eqn:Hclaim; [|hstop].
  hk; [repeat case_match; hstop|]. intros steps. hk; [by apply (outpoints_kept Hops)|]. intros all. case_match; [hstop|].
  hk; [by apply advanceEach_keep, (claim_kept Hops)|]. intros [steps' error]. hstop.
Qed.

Lemma revealing_keep find hash candidates ours :
  (∀ o h, keeps (find o h)) → keeps (revealing find hash candidates ours).
Proof.
  intros Hf. revert ours. induction candidates as [|o l IH]; intros ours; cbn [revealing]; [hstop|].
  hk; [apply Hf|]. intros found. apply IH.
Qed.

Lemma lockupLeftover_keep script hash text claimed claims :
  keeps (lockupLeftover ops script hash text claimed claims).
Proof.
  unfold lockupLeftover. destruct text; [|hstop].
  destruct (findLockupOutpoints ops) as [find|] eqn:Hfind; [|hstop].
  hk; [case_match; hstop|]. intros adopted. hk; [by apply (outpoints_kept Hops)|]. intros outpoints. hk; [|intros ours; hstop].
  unfold spentByUs. destruct (findClaimPreimage ops) as [reveal|] eqn:Hreveal; [|hstop].
  by apply revealing_keep, (revealed_kept Hops).
Qed.

(** How a row with such claims ends: moved on as [P] has it, or not. *)
Section ending.
Context (from to : S) (P : bool → W → Prop) `{!∀ b, Stable t (P b)}.
Context (Hstay : ∀ w, Inv w → K w → P false w).
Context (Hfail : ∀ reason, keeps (store_fail _ store i from reason)).

Lemma awaitLeftover_spec txid leftover past recourse :
  (∀ text, keeps (store_patch _ store i [("claim_ark_txid", Some (VText text))])) →
  triple t K (awaitLeftover store i from txid leftover past recourse) P (λ _, K).
Proof.
  intros Hp. unfold awaitLeftover. hk; [destruct txid; [apply Hp|hstop]|]. intros ?. case_match; [hstop|].
  hk; [apply Hfail|]. intros ?. by hret.
Qed.

Lemma settleUnrolledClaims_spec claims recourse :
  triple t K (store_transition _ store i from to []) P (λ _, K) →
  triple t K (settleUnrolledClaims store i from to claims recourse) P (λ _, K).
Proof.
  intros Ht. unfold settleUnrolledClaims. case_match; [case_match; [hstop|by hret]|]. case_match; [exact Ht|].
  hk; [apply Hfail|]. intros ?. by hret.
Qed.
End ending.
End rules.
