(* ===== verification/Refinement.v ===== *)
(** * The abstract lifecycle of a service

    What a service promises, without its database, its processes or its
    crashes: a map from the swaps to their phases and the ledger of the
    requests made, with three rules — a swap is quoted, a swap moves along an
    edge of the lifecycle, a licensed request leaves. [simulation] is the
    refinement: whatever the instances of a service whose handlers respect a
    [Discipline] do, event by event and in any interleaving, is a run of the
    specification. *)
From S2P Require Import Prelude StateMachine Prog SwapDb EvmRow Store World Discipline Rules.

Section specification.
Context {S Eff : Type} (first : S) (edge : S → S → Prop).
Context (licensed : gmap string S → list Eff → Eff → Prop).

Inductive spec_step : gmap string S * list Eff → gmap string S * list Eff → Prop :=
  | spec_quote i m l : m !! i = None → spec_step (m, l) (<[i := first]> m, l)
  | spec_move i s s' m l : m !! i = Some s → edge s s' → spec_step (m, l) (<[i := s']> m, l)
  | spec_request a m l : licensed m l a → spec_step (m, l) (m, l ++ [a]).

Lemma spec_moves i s s' m l :
  m !! i = Some s → rtc edge s s' → rtc spec_step (m, l) (<[i := s']> m, l).
Proof.
  intros Hm Hs. revert m Hm. induction Hs as [s|s s1 s' He _ IH]; intros m Hm; [by rewrite insert_id|].
  eapply rtc_l; [by apply (spec_move i s s1)|]. rewrite <- (insert_insert_eq m i s' s1). apply IH.
  by rewrite lookup_insert_eq.
Qed.

(** [m] with the phases of [m'] for the swaps of [ks]. *)
Fixpoint caught_up (m m' : gmap string S) (ks : list string) : gmap string S :=
  match ks with
  | [] => m
  | k :: ks =>
      match m' !! k with
      | Some s => <[k := s]> (caught_up m m' ks)
      | None => caught_up m m' ks
      end
  end.

Lemma caught_up_lookup m m' ks j :
  caught_up m m' ks !! j =
    if bool_decide (j ∈ ks) then match m' !! j with Some s => Some s | None => m !! j end else m !! j.
Proof.
  induction ks as [|k ks IH]; cbn; [by rewrite bool_decide_false by apply not_elem_of_nil|].
  destruct (decide (j = k)) as [->|Hj].
  - rewrite (bool_decide_true (k ∈ k :: ks)) by left.
    destruct (m' !! k) as [s|] eqn:Hk; [by rewrite lookup_insert_eq|]. rewrite IH. by case_bool_decide.
  - rewrite (bool_decide_ext (j ∈ k :: ks) (j ∈ ks)) by (rewrite elem_of_cons; tauto).
    destruct (m' !! k); [rewrite lookup_insert_ne by done|]; exact IH.
Qed.

(** Phases that moved on, swap by swap, are a run. *)
Lemma phases_run (m m' : gmap string S) l :
  (∀ i s, m !! i = Some s → ∃ s', m' !! i = Some s' ∧ rtc edge s s') →
  (∀ i s', m' !! i = Some s' → rtc edge first s') →
  rtc spec_step (m, l) (m', l).
Proof.
  intros Hold Hnew.
  assert (∀ ks, rtc spec_step (m, l) (caught_up m m' ks, l)) as Hks.
  { induction ks as [|k ks IH]; [apply rtc_refl|]. cbn. etransitivity; [exact IH|].
    destruct (m' !! k) as [s'|] eqn:Hk; [|apply rtc_refl].
    destruct (caught_up m m' ks !! k) as [s|] eqn:Hc.
    - apply (spec_moves k s s'); [done|]. rewrite caught_up_lookup, Hk in Hc. case_bool_decide; simplify_eq;
        [apply rtc_refl|]. destruct (Hold _ _ Hc) as (s2 & Hs2 & Hr). by simplify_eq.
    - eapply rtc_l; [by apply spec_quote|]. rewrite <- (insert_insert_eq _ k s' first).
      apply (spec_moves k first s'); [by rewrite lookup_insert_eq|by eapply Hnew]. }
  assert (m' = caught_up m m' (elements (dom m'))) as Heq.
  { apply map_eq. intros j. rewrite caught_up_lookup. destruct (m' !! j) as [s|] eqn:Hj.
    - rewrite bool_decide_true; [done|]. apply elem_of_elements, elem_of_dom. by eexists.
    - rewrite bool_decide_false; [|by rewrite elem_of_elements, elem_of_dom, Hj; intros []].
      destruct (m !! j) as [s|] eqn:Hm; [|done]. destruct (Hold _ _ Hm) as (s' & Hs' & _). congruence. }
  rewrite Heq at 1. apply Hks.
Qed.
End specification.

Section simulation.
Context {S Q Eff : Type} {Read : Type → Type} `{EqDecision S, QuoteColumns Q, SwapShape S, Replies Eff, D : Discipline S Q Eff}.
Context `{!DisciplineLaws}.
Context (port : Port Eff Read) (program : prog (evt S Q Eff Read) unit → Prop).
#[local] Abbreviation W := (World S Q Eff).
#[local] Abbreviation handle := (handle granted port).

(** The phase of every swap. *)
Definition phases (d : Db S Q) : gmap string S := list_to_map ((λ r, (row_id r, state r)) <$> rows d).

Lemma phases_lookup d i : phases d !! i = state <$> find_row d i.
Proof.
  unfold phases, find_row. induction (rows d) as [|r l IH]; [done|]. cbn.
  destruct (decide (row_id r = i)) as [->|Hi]; [by rewrite lookup_insert_eq|].
  rewrite lookup_insert_ne by done. rewrite IH. by destruct (list_find _ l) as [[]|].
Qed.

(** The world as the specification sees it. *)
Definition spec_of (w : W) : gmap string S * list Eff := (phases (db w), sent w).

Context (edge : S → S → Prop) (licensed : gmap string S → list Eff → Eff → Prop).
Context (le_edges : ∀ s s', state_le s s' → rtc edge s s').
Context (row_reached : ∀ r, row_ok r → rtc edge state_quoted (state r)).
Context (act_licensed : ∀ w a, Inv (with_sent w a) → licensed (phases (db w)) (sent w) a).
Context (program_safe : ∀ t p, program p → ∀ w, Inv w → wp handle Inv Rely t p (λ _ _, True) w).
#[local] Abbreviation spec_step := (spec_step state_quoted edge licensed).

Lemma tables_run (w w' : W) :
  db_le (db w) (db w') → Inv w' → sent w' = sent w → rtc spec_step (spec_of w) (spec_of w').
Proof.
  intros [Hd _] (_ & Hok & _) Hs. unfold spec_of. rewrite Hs. apply phases_run.
  - intros i s. rewrite !phases_lookup. intros (r & Hr & ->)%fmap_Some.
    destruct (Hd _ _ Hr) as (r' & Hr' & _ & _ & _ & Hle & _). exists (state r').
    rewrite Hr'. split; [done|by apply le_edges].
  - intros i s'. rewrite phases_lookup. intros (r & Hr & ->)%fmap_Some. by eapply row_reached, Hok.
Qed.

(** An event that is not a request leaves the ledger as it was. *)
Lemma event_sent t X (e : evt S Q Eff Read X) (w w' : W) x :
  handle t X e w w' x →
  sent w' = sent w ∨ ∃ a, w' = with_sent w a.
Proof.
  destruct e as [s|Y f| |Y q|a|i er|n i|n i|n i|n i|n|n|n|n|n]; cbn; intros Hh;
    try (by left; destruct_and?; destruct_or?; subst); try (by left; destruct Hh as [-> _]);
    try (by left; destruct Hh as [_ ->]); try (by left; subst).
  - left. destruct Hh as [[_ ->]|(e & _ & [-> | ->])]; [| |]; unfold run_sql; by destruct (run_stmt s (db w)).
  - destruct Hh as [[-> _]|[-> _]]; [right; by eexists|by left].
Qed.

Lemma simulation_step c c' :
  sound handle Inv Rely c → cstep handle program c c' →
  rtc spec_step (spec_of c.1) (spec_of c'.1).
Proof.
  intros Hc Hstep. pose proof (cstep_sound handle program Inv Rely program_safe c c' Hstep Hc) as [(_ & Hi' & _) Hw].
  assert (db_le (db c.1) (db c'.1)) as Hle.
  { destruct Hw as [->|[t Hg]]; [apply db_le_refl|]. exact (proj1 (Hg (Datatypes.S t) ltac:(lia))). }
  assert (sent c'.1 = sent c.1 ∨ ∃ a, c'.1 = with_sent c.1 a) as [Hs|[a Ha]].
  { destruct Hstep as [w w' l1 l2 t X e k x Hh| |]; cbn; [by eapply event_sent|by left..]. }
  - by apply tables_run.
  - rewrite Ha in *. apply rtc_once.
    apply (spec_request _ _ _ a (phases (db c.1)) (sent c.1)). by apply act_licensed.
Qed.

Lemma simulation c c' :
  sound handle Inv Rely c → rtc (cstep handle program) c c' →
  rtc spec_step (spec_of c.1) (spec_of c'.1).
Proof.
  intros Hc Hr. revert Hc. induction Hr as [c|c c1 c' Hstep _ IH]; intros Hc; [apply rtc_refl|].
  etransitivity; [by apply simulation_step|]. apply IH.
  exact (proj1 (cstep_sound handle program Inv Rely program_safe c c1 Hstep Hc)).
Qed.
End simulation.
