(* ===== verification/LnSendProof.v ===== *)
(** * What the Lightning send service never does

    The discipline of [SendSwapService] over the rules of [BaseRules]: any
    number of its instances, ticking, sweeping, refunding and inserting quotes
    at once against one database, dying at any point and restarted.

    [void h] stands for a fact of the Lightning network: the solver never gives
    the value the preimage of [h] is sold for. The ports are assumed to know: a
    payment reported failed, on anything but a missing record, is void; one
    whose preimage is out is not. [forgotten h] is the case they cannot settle:
    a failure reported because the backend has no record. *)
From S2P Require Import Prelude Timelocks StateMachine SendPolicy Prog SwapDb EvmRow Invoice Store World Lockup UnrolledSpend SweptRefund ChainClock.
From S2P Require Import BaseStore LnSendStore Corridor LnSendService Discipline Rules BaseRules CorridorRules UnrolledRules.
#[local] Open Scope Z_scope.
#[local] Opaque transition base_patch.

(** ** The lifecycle *)

Definition send_states : list LnSend.state :=
  [LnSend.quoted; LnSend.funded; LnSend.paying; LnSend.paid; LnSend.claiming; LnSend.claimed;
   LnSend.refused; LnSend.stuck].
Lemma send_complete s : s ∈ send_states.
Proof. apply list_elem_of_In. destruct s; cbn; tauto. Qed.

(** The moves the machine declares. *)
Definition ln_edge : LnSend.state → LnSend.state → Prop := edge (edges LnSendMachine).

(** The payment may have been sent, or the swap is over. *)
Definition past_paying (s : LnSend.state) : bool :=
  match s with LnSend.quoted | LnSend.funded => false | _ => true end.
(** The lockup may have been claimed, or the swap is over. *)
Definition past_claiming (s : LnSend.state) : bool :=
  match s with LnSend.claiming | LnSend.claimed | LnSend.stuck | LnSend.refused => true | _ => false end.

(** How many more passes a tick may report progress from a state. *)
Definition passes_left (s : LnSend.state) : nat :=
  match s with
  | LnSend.quoted => 5 | LnSend.funded => 4 | LnSend.paying => 3 | LnSend.paid => 2
  | LnSend.claiming | LnSend.stuck => 1
  | LnSend.claimed | LnSend.refused => 0
  end.

(** A set of states no edge leaves. *)
Lemma ln_closed (P : LnSend.state → bool) s s' :
  forallb (λ s, forallb (λ s', implb (P s) (P s')) (edges LnSendMachine s)) send_states = true →
  rtc ln_edge s s' → P s = true → P s' = true.
Proof. apply (edges_closed (edges LnSendMachine) send_states send_complete). Qed.

Lemma past_paying_le s s' : rtc ln_edge s s' → past_paying s = true → past_paying s' = true.
Proof. by apply (ln_closed past_paying). Qed.
Lemma past_claiming_le s s' : rtc ln_edge s s' → past_claiming s = true → past_claiming s' = true.
Proof. by apply (ln_closed past_claiming). Qed.

Lemma past_paying_not s : past_paying s = true → s ∉ [LnSend.quoted; LnSend.funded].
Proof. destruct s; try done; intros _; apply (bool_decide_unpack _); vm_compute; exact I. Qed.

Lemma ln_passes_left_le s s' : rtc ln_edge s s' → (passes_left s' ≤ passes_left s)%nat.
Proof. by apply (edges_descend (edges LnSendMachine) send_states send_complete). Qed.

Lemma ln_terminal_le s s' : rtc ln_edge s s' → s = LnSend.claimed ∨ s = LnSend.refused → s' = s.
Proof. intros Hs [-> | ->]; by eapply edges_terminal. Qed.

(** ** What is assumed of the ports *)

Section assumptions.
Context (sha256 : list Z → list Z) (void forgotten : string → Prop) (payment_of : string → string).

(** The payment of [h] is not going to happen, as far as the backend can tell. *)
Definition lost (h : string) : Prop := void h ∨ forgotten h.

(** A payment result that tells the truth about the payment of [h]. *)
Definition truthful (h : string) (p : PaymentResult) : Prop :=
  (status p = payment_failed → if bool_decide (evidence p = Some no_record) then forgotten h else void h) ∧
  (is_Some (result_preimage p) → ¬ void h).

Definition ln_answers X (q : read X) : X → Prop :=
  match q in read X return X → Prop with
  | GetPayment id => truthful (payment_of id)
  | GetSendHtlcState h => λ found, ∀ htlc, found = Some htlc →
      (htlc_status htlc = returned → void h) ∧ (is_Some (htlc_preimage htlc) → ¬ void h)
  | FindClaimPreimage _ h => λ found, is_Some found → ¬ void h
  | DecideSwept _ h => λ decision, match decision with DoRefund _ => lost h | DoNot _ => True end
  | _ => λ _, True
  end.

(** A payment is known by the id its submission answered. *)
Definition ln_replies (a : LnSendEffect) : Reply a → Prop :=
  match a return Reply a → Prop with
  | PayInvoice _ p => λ paid, ∀ h, idempotencyKey p = "swap-" +:+ h →
      payment_of (payment_id paid) = h ∧ truthful h paid
  | _ => λ _, True
  end.

(** Any failure of a request may hide its effect, a [PaymentNotStarted] too,
    though the port documents that nothing was submitted then. *)
Definition ln_port : Port LnSendEffect read := mkPort ln_answers ln_replies (λ _ _, False).
End assumptions.

(** ** The discipline *)

Section ln_discipline.
Context (sha256 : list Z → list Z) (void forgotten : string → Prop) (payment_of : string → string).
Context `{Bolt11Decoder, Recourse, Json} (deps : LnSendDeps).
#[local] Abbreviation row := SendRow.
#[local] Abbreviation W := (World LnSend.state SendQuote LnSendEffect).
#[local] Abbreviation event := (evt LnSend.state SendQuote LnSendEffect read).
#[local] Abbreviation io := (io event Error).
#[local] Abbreviation lost := (lost void forgotten).

Definition swap_key (hash : string) : string := "swap-" +:+ hash.

(** What a row's columns may hold. *)
Definition columns_ok (q : SendQuote) (m : gmap string sqlval) : Prop :=
  (∀ v, m !! "idempotency_key" = Some v → v = VText (swap_key (paymentHash q))) ∧
  (∀ v, m !! "payment_id" = Some v → ∃ id, v = VText id ∧ payment_of id = paymentHash q) ∧
  (∀ v, m !! "preimage" = Some v → (∃ s, v = VText s) ∧ ¬ void (paymentHash q)).

(** The lockup a row has on disk. *)
Definition records_lockup (m : gmap string sqlval) : Prop :=
  is_Some (m !! "lockup_value") ∧ is_Some (m !! "lockup_txid") ∧ is_Some (m !! "lockup_outpoints").

(** What a state says of them; and, in any state, the key of a payment: it comes
    with the moment of the attempt, for a lockup that is on disk. *)
Definition promises (s : LnSend.state) (q : SendQuote) (m : gmap string sqlval) : Prop :=
  (s ∉ [LnSend.quoted; LnSend.refused] → records_lockup m) ∧
  (s ∈ [LnSend.paying; LnSend.paid] → is_Some (m !! "idempotency_key") ∧ is_Some (m !! "pay_attempted_at")) ∧
  (s ∈ [LnSend.claiming; LnSend.claimed] →
     ∃ p, m !! "preimage" = Some (VText p) ∧ preimageMatchesHash sha256 p (paymentHash q) = true) ∧
  (is_Some (m !! "idempotency_key") → is_Some (m !! "pay_attempted_at") ∧ records_lockup m).

Definition ln_row_ok (r : row) : Prop :=
  0 < amountSats (quote r) ∧ columns_ok (quote r) (cols r) ∧ promises (state r) (quote r) (cols r).

(** The payment a quote allows: its own invoice under the one key of its hash,
    within the routing budget it was priced with and the blocks the decoded
    invoice leaves, for a lockup this provider can claim. *)
Definition pays (q : SendQuote) (p : PayInvoiceParams) : Prop :=
  receiverPubkey q = providerPubkey deps ∧ pay_invoice p = invoice q ∧ idempotencyKey p = swap_key (paymentHash q) ∧
  ∃ decoded, decodeInvoice (sendHintScidDenylist deps) (invoice q) = Ok decoded ∧
    maxFeeSats p = default (maxRoutingFeeSats (decoded_amountSats decoded)) (quotedRoutingFeeSats q) ∧
    let cltv := cltv_of deps decoded in
    SendPolicy.minFinalCltvBlocks cltv + hintCltvBlocks cltv < maxCltvBlocks p ≤ worstCaseHtlcBlocks cltv.

(** The row [i] is past [paying], has the key, and is of a quote that allows the
    payment. *)
Definition payment_ok (d : SendDb) (i : string) (p : PayInvoiceParams) : Prop :=
  ∃ r, find_row d i = Some r ∧ past_paying (state r) = true ∧ is_Some (cols r !! "idempotency_key") ∧ pays (quote r) p.

(** The preimage is the hash's, someone paid for it, and the row has it. *)
Definition claim_ok (d : SendDb) (i preimage : string) : Prop :=
  ∃ r, find_row d i = Some r ∧ past_claiming (state r) = true ∧ is_Some (cols r !! "preimage") ∧
    preimageMatchesHash sha256 preimage (paymentHash (quote r)) = true ∧ ¬ void (paymentHash (quote r)).

(** The row is refused, or its payment was tried and will not happen. *)
Definition refund_ok (d : SendDb) (i : string) : Prop :=
  ∃ r, find_row d i = Some r ∧ past_paying (state r) = true ∧ (state r = LnSend.refused ∨ lost (paymentHash (quote r))).

Definition ln_effect_ok (d : SendDb) (a : LnSendEffect) : Prop :=
  match a with
  | PayInvoice i p => payment_ok d i p
  | ClaimLockup i _ preimage | FinalizePendingClaim i preimage | ClaimUnrolled i _ _ preimage
  | ResumeUnrolled i _ preimage => claim_ok d i preimage
  | RefundLockup i _ | RefundSwept i _ => refund_ok d i
  end.

(** No request is one thread's own: the key of a payment makes it idempotent. *)
#[export] Instance LnDiscipline : Discipline LnSend.state SendQuote LnSendEffect := {
  state_le := rtc ln_edge;
  kept _ := True;
  frozen _ := False;
  after_grant _ := False;
  granted := Entry LnSend.quoted;
  row_ok := ln_row_ok;
  effect_ok := ln_effect_ok;
  own_of _ := None;
  full _ _ l := l = [];
}.

Lemma ln_effect_ok_le (d d' : SendDb) a : db_le d d' → ln_effect_ok d a → ln_effect_ok d' a.
Proof.
  intros [Hr _]. assert (∀ i preimage, claim_ok d i preimage → claim_ok d' i preimage) as Hclaim.
  { intros i p (r & Hf & Hs & Hp & Hm). destruct (Hr _ _ Hf) as (r' & Hf' & _ & Hq & _ & Hle & Hc).
    exists r'. rewrite Hq. split_and!; [done|by eapply past_claiming_le|by apply Hc|tauto..]. }
  assert (∀ i, refund_ok d i → refund_ok d' i) as Hrefund.
  { intros i (r & Hf & Ho & Hs). destruct (Hr _ _ Hf) as (r' & Hf' & _ & Hq & _ & Hle & _). exists r'. rewrite Hq.
    split_and!; [done|by eapply past_paying_le|]. destruct Hs as [Hs|]; [left|by right].
    rewrite Hs in Hle. apply ln_terminal_le in Hle; auto. }
  destruct a; cbn; auto. intros (r & Hf & Hs & Hk & Hp).
  destruct (Hr _ _ Hf) as (r' & Hf' & _ & Hq & _ & Hle & Hc). exists r'. rewrite Hq.
  split_and!; [done|by eapply past_paying_le|by apply Hc|done].
Qed.

#[export] Instance ln_laws :
  DisciplineLaws (S := LnSend.state) (Q := SendQuote) (Eff := LnSendEffect).
Proof. split; [reflexivity|intros ???; apply transitivity|by intros|apply ln_effect_ok_le]. Qed.

#[local] Abbreviation Stable := (Stable (W := W) Inv Rely).
#[local] Abbreviation port := (ln_port void forgotten payment_of).
#[local] Abbreviation triple := (hoare (X := Error) (handle (Eff := LnSendEffect) granted port) Inv Rely).
#[local] Abbreviation nearer := (nearer passes_left).
#[export] Instance ln_nearer_stable t r n moved : Stable t (nearer r n moved).
Proof. apply nearer_stable, ln_passes_left_le. Qed.
Lemma progressed r n s moved (w : W) :
  (moved = true → entered r s w) → (passes_left s < n)%nat → nearer r n moved w.
Proof. apply (nearer_entered (D := LnDiscipline) passes_left ln_passes_left_le). Qed.

Lemma ln_row_inv (w : W) i r : Inv w → find_row (db w) i = Some r → ln_row_ok r.
Proof. exact (Inv_row_ok (D := LnDiscipline) w i r). Qed.

(** ** Writing *)

(** What an assignment may put in the columns that carry evidence. *)
Definition fields_ok (q : SendQuote) (f : fields) : Prop :=
  clears_nothing f = true ∧
  (∀ v, assigned f "idempotency_key" = Some (Some v) → v = VText (swap_key (paymentHash q))) ∧
  (∀ v, assigned f "payment_id" = Some (Some v) → ∃ id, v = VText id ∧ payment_of id = paymentHash q) ∧
  (∀ v, assigned f "preimage" = Some (Some v) → (∃ s, v = VText s) ∧ ¬ void (paymentHash q)).

Lemma set_columns_Some f (m : gmap string sqlval) c v :
  set_columns f m !! c = Some v → assigned f c = Some (Some v) ∨ m !! c = Some v.
Proof. rewrite set_columns_lookup. destruct (assigned f c) as [[x|]|]; intros; simplify_eq; auto. Qed.

Lemma columns_ok_set q f m : fields_ok q f → columns_ok q m → columns_ok q (set_columns f m).
Proof.
  intros (Hf & Fk & Fi & Fp) (Hk & Hi & Hp).
  split_and!; intros v [Ha|Ha]%set_columns_Some; [by apply Fk|by apply Hk|by apply Fi|by apply Hi|by apply Fp|by apply Hp].
Qed.

(** What a move has to bring so that the state it enters keeps its promises. *)
Definition brings (s s' : LnSend.state) (q : SendQuote) (f : fields) : Prop :=
  (s' ∉ [LnSend.quoted; LnSend.refused] → s ∈ [LnSend.quoted; LnSend.refused] →
     is_Some (mjoin (assigned f "lockup_value")) ∧ is_Some (mjoin (assigned f "lockup_txid")) ∧
     is_Some (mjoin (assigned f "lockup_outpoints"))) ∧
  (s' ∈ [LnSend.paying; LnSend.paid] → s ∉ [LnSend.paying; LnSend.paid] →
     is_Some (mjoin (assigned f "idempotency_key")) ∧ is_Some (mjoin (assigned f "pay_attempted_at"))) ∧
  (s' ∈ [LnSend.claiming; LnSend.claimed] →
     (s ∈ [LnSend.claiming; LnSend.claimed] ∧ assigned f "preimage" = None) ∨
     ∃ p, assigned f "preimage" = Some (Some (VText p)) ∧ preimageMatchesHash sha256 p (paymentHash q) = true) ∧
  (assigned f "idempotency_key" = None ∨
     (s ∉ [LnSend.quoted; LnSend.refused]) ∧ is_Some (mjoin (assigned f "pay_attempted_at"))).

Lemma brought f (m : gmap string sqlval) c :
  is_Some (mjoin (assigned f c)) → is_Some (set_columns f m !! c).
Proof. rewrite set_columns_lookup. by destruct (assigned f c) as [[]|]; intros [? ?]. Qed.

Lemma promises_set s s' q f m :
  clears_nothing f = true → brings s s' q f → promises s q m → promises s' q (set_columns f m).
Proof.
  intros Hf (Bl & Bk & Bp & Ba) (Hl & Hk & Hp & Ha).
  assert (records_lockup m → records_lockup (set_columns f m)) as Hkept.
  { intros (? & ? & ?). split_and!; by apply set_columns_kept. }
  split_and!; intros Hs'.
  - destruct (decide (s ∈ [LnSend.quoted; LnSend.refused])) as [Hs|Hs]; [|auto].
    destruct (Bl Hs' Hs) as (? & ? & ?). split_and!; by apply brought.
  - destruct (decide (s ∈ [LnSend.paying; LnSend.paid])) as [Hs|Hs].
    + destruct (Hk Hs). split; by apply set_columns_kept.
    + destruct (Bk Hs' Hs). split; by apply brought.
  - destruct (Bp Hs') as [[Hs Hn]|(p & Hn & Hm)].
    + destruct (Hp Hs) as (p & ? & ?). exists p. by rewrite set_columns_lookup, Hn.
    + exists p. by rewrite set_columns_lookup, Hn.
  - destruct Ba as [Hn|[Hs Hb]]; [|split; [by apply brought|auto]].
    rewrite set_columns_lookup, Hn in Hs'. destruct (Ha Hs'). split; [by apply set_columns_kept|auto].
Qed.

Lemma ln_row_ok_moved to f at_ r :
  fields_ok (quote r) f → brings (state r) to (quote r) f → ln_row_ok r → ln_row_ok (moved to f at_ r).
Proof.
  intros Hf Hb (Ha & Hc & Hp). split_and!; [done|by apply columns_ok_set|]. apply promises_set with (state r); [apply Hf|done..].
Qed.

(** Assignments that carry no evidence. *)
Definition plain (f : fields) : bool :=
  forallb (λ p, bool_decide (p.1 ∉ ["idempotency_key"; "payment_id"; "preimage"]) && bool_decide (p.2 ≠ None)) f.

Lemma plain_assigned f c :
  plain f = true → c ∈ ["idempotency_key"; "payment_id"; "preimage"] → assigned f c = None.
Proof.
  intros Hf Hc. induction f as [|[c' v] f IH]; [done|]. cbn in Hf.
  apply andb_true_iff in Hf as [[Hn%bool_decide_eq_true _]%andb_true_iff Hf]. cbn. rewrite IH by done.
  by rewrite decide_False by (intros ->; done).
Qed.

Lemma plain_fields_ok q f : plain f = true → fields_ok q f.
Proof.
  intros Hf. split_and!.
  - revert Hf. induction f as [|[c v] f IH]; [done|]. cbn.
    intros [[_ Hv%bool_decide_eq_true]%andb_true_iff Hf]%andb_true_iff.
    apply andb_true_iff. split; [by destruct v|by apply IH].
  - intros v. rewrite plain_assigned; [done|done|]. left.
  - intros v. rewrite plain_assigned; [done|done|]. right. left.
  - intros v. rewrite plain_assigned; [done|done|]. right. right. left.
Qed.

Lemma plain_app f g : plain (f ++ g) = plain f && plain g.
Proof. apply forallb_app. Qed.
Lemma plain_set_if c v : plain (set_text c "") = true → plain (set_if c v) = true.
Proof. by destruct v. Qed.

Lemma brings_refused s q f : assigned f "idempotency_key" = None → brings s LnSend.refused q f.
Proof.
  intros Hk. split_and!; [..|by left]; intros Hs; exfalso; [destruct Hs; right; left|..]; revert Hs;
    rewrite !elem_of_cons, elem_of_nil; naive_solver.
Qed.

Lemma brings_stuck s q f :
  assigned f "idempotency_key" = None → s ∉ [LnSend.quoted; LnSend.refused] → brings s LnSend.stuck q f.
Proof. intros Hk Hs. split_and!; [done|intros Hs'..|by left]; exfalso; revert Hs'; rewrite !elem_of_cons, elem_of_nil; naive_solver. Qed.

Lemma brings_failed s q f : assigned f "idempotency_key" = None → brings s (failed_state s) q f.
Proof.
  intros Hk. unfold failed_state. case_bool_decide as He; [|by apply brings_refused]. apply brings_stuck; [done|].
  change (s ∈ [LnSend.paying; LnSend.paid; LnSend.claiming]) in He.
  by destruct s; apply (bool_decide_unpack _); vm_compute; try exact I; apply (bool_decide_pack _) in He.
Qed.

Lemma failed_not_quoted (s : LnSend.state) : failed_state s ≠ LnSend.quoted.
Proof. unfold failed_state. by case_bool_decide. Qed.

(** ** What a handler knows of its row *)

Lemma entered_le r s s' w : rtc ln_edge s s' → entered r s' w → entered r s w.
Proof. intros Hs (r' & ? & ? & ?). exists r'. split_and!; [done..|]. by etransitivity. Qed.

Lemma entered_below r s n w : entered r s w → (passes_left s < n)%nat → below passes_left (row_id r) n w.
Proof.
  intros (r' & Hr' & _ & Hs) Hn. exists r'. split; [done|]. apply ln_passes_left_le in Hs. lia.
Qed.

Lemma entered_refund r w : entered r LnSend.refused w → refund_ok (db w) (row_id r).
Proof.
  intros (r' & Hr' & _ & Hs). apply ln_terminal_le in Hs; [|auto]. exists r'. rewrite Hs. auto.
Qed.

Lemma since_lost r w :
  since (row_id r) r w → past_paying (state r) = true → lost (paymentHash (quote r)) → refund_ok (db w) (row_id r).
Proof.
  intros (r' & Hr' & _ & Hq & _ & Hle & _) Hs Hl. exists r'. rewrite Hq.
  split_and!; [done|by eapply past_paying_le|by right].
Qed.

Section writing.
Context (t : nat) (K : W → Prop) (r : row) `{!Knows K r}.

Lemma patch_keep f :
  fields_ok (quote r) f → assigned f "preimage" = None → assigned f "idempotency_key" = None →
  triple t K (patch (row_id r) f) (λ _, K) (λ _, K).
Proof.
  intros Hf Hpre Hkey. unfold patch. hbind.
  { destruct (field f "refund_outcome"); [by apply (query_keep port); apply _|by hret]. }
  intros before. hbind.
  { apply (hoare_base_patch port t K); [apply _|]. intros w at_ Hi HKw.
    split; [apply Hf|]. split; [unfrozen|]. intros r' Hr'.
    destruct (knows_since w HKw) as (r1 & Hr1 & _ & Hq & _). simplify_eq.
    destruct (ln_row_inv w _ _ Hi Hr') as (Ha & Hc & Hp). split_and!; [done|by apply columns_ok_set; [rewrite Hq|]|].
    apply promises_set with (state r'); [apply Hf| |done]. split_and!; [done..| |by left].
    intros Hs. by left. }
  intros ?. case_match; [|by hret]. case_match; [|by hret]. by apply (recordEvent_keep port); apply _.
Qed.

Lemma patch_plain f : plain f = true → triple t K (patch (row_id r) f) (λ _, K) (λ _, K).
Proof.
  intros Hf. apply patch_keep; [by apply plain_fields_ok|..]; (apply plain_assigned; [done|]); [right; right|]; left.
Qed.

(** A move of the row, won or lost to another instance. *)
Lemma move from to f :
  fields_ok (quote r) f → brings from to (quote r) f → to ≠ LnSend.quoted →
  triple t K (transition (row_id r) from to f) (λ won w, K w ∧ (won = true → entered r to w)) (λ _, K).
Proof.
  intros Hf Hb Hto.
  apply (base_move_keep port t K (entered r to)); [apply _|apply _|left; apply Hf|cbn; congruence|intros He; by apply rtc_once
    |unfrozen| |].
  - intros w r' at_ Hi HKw Hr' <- Hok. destruct (knows_since w HKw) as (r1 & Hr1 & _ & Hq & _). simplify_eq.
    apply ln_row_ok_moved; [by rewrite Hq|by rewrite Hq|done].
  - intros w r' at_ HKw Hr'. destruct (knows_since w HKw) as (r1 & Hr1 & _ & Hq & _). simplify_eq.
    by eexists.
Qed.

Lemma move_refused from reason :
  triple t K (transition (row_id r) from LnSend.refused (set_text "failure_reason" reason))
    (λ won w, K w ∧ (won = true → entered r LnSend.refused w)) (λ _, K).
Proof. by apply move; [apply plain_fields_ok|apply brings_refused|]. Qed.

Lemma failed from reason : triple t K (fail (row_id r) from reason) (λ _, K) (λ _, K).
Proof.
  unfold fail. hbind; [by apply move; [apply plain_fields_ok|apply brings_failed|apply failed_not_quoted]|].
  intros won. hret. by intros w _ [? _].
Qed.

Lemma refund_keep outputs :
  (∀ w, Inv w → K w → refund_ok (db w) (row_id r)) →
  triple t K (refund (row_id r) outputs) (λ _, K) (λ _, K).
Proof. intros Hok. by apply (hoare_act port t K (RefundLockup (row_id r) outputs)); [apply _|..]. Qed.
End writing.

(** The steps of the proofs below: a read, the clock, a report, a write. *)
Ltac ln :=
  lazymatch goal with
  | |- hoare _ _ _ _ _ (asks _) _ _ => apply (asked port); apply _
  | |- hoare _ _ _ _ _ now _ _ => apply (timed port); apply _
  | |- hoare _ _ _ _ _ (onTickError _ _) _ _ => apply (told port); apply _
  | |- hoare _ _ _ _ _ (@patch _ _ _ _) _ _ => apply patch_plain; [apply _|try reflexivity]
  | |- hoare _ _ _ _ _ (@fail _ _ _ _ _ _ _ _ _ _) _ _ => apply failed; apply _
  | |- hoare _ _ _ _ _ (ret _) _ _ => by hret
  | |- hoare _ _ _ _ _ (throw _) _ _ => by apply hoare_throw; [apply _|]
  end.

(** A step after which as much is known as before. *)
Ltac hk :=
  lazymatch goal with
  | |- hoare _ _ _ _ ?K _ _ _ => apply (hoare_bind _ _ _ _ K _ _ (λ _, K)); try apply _
  end.

(** ** Refunds *)

Section refunds.
Context (t : nat) (K : W → Prop) (r : row) `{!Knows K r}.
Context (refundable : ∀ w, Inv w → K w → refund_ok (db w) (row_id r)).

Lemma pushRefund_spec : triple t K (pushRefund r) (λ _, K) (λ _, K).
Proof.
  unfold pushRefund. hk; [ln|]. intros [|o outputs].
  - hk; [ln|]. intros spent. hk; [destruct spent; ln|]. intros ?. ln.
  - hk; [by apply refund_keep|]. intros txid. hk; [ln|]. intros at_.
    hk; [apply patch_plain; [apply _|by case_match]|]. intros ?. ln.
Qed.

Lemma tryRefund_spec : triple t K (tryRefund r) (λ _, K) (λ _, K).
Proof.
  unfold tryRefund. apply (hoare_try port t K); [apply _| |intros e].
  - hk; [ln|]. intros [|o outputs].
    + hk; [apply (hoare_try port t K); [apply _|ln|intros e; ln]|]. intros ?. ln.
    + hk; [by apply refund_keep|]. intros txid. hk; [ln|]. intros at_. ln.
  - hk; [apply (hoare_try port t K); [apply _|ln|intros ?; ln]|]. intros ?.
    hk; [ln|]. intros ?. ln.
Qed.

Lemma refundAfterTerminalFailure_spec :
  triple t K (refundAfterTerminalFailure r) (λ _, K) (λ _, K).
Proof.
  unfold refundAfterTerminalFailure. hk; [apply tryRefund_spec|]. intros [[txid all]|]; [|ln].
  hk; [|intros ?; ln].
  apply (hoare_try port t K); [apply _| |intros e; ln]. apply patch_plain; [apply _|by destruct all].
Qed.
End refunds.

(** A row read as refused may be refunded whatever happens to it. *)
Lemma read_refused K r :
  Knows K r → state r = LnSend.refused → ∀ w, Inv w → K w → refund_ok (db w) (row_id r).
Proof. intros HKn Hs w _ HKw. apply entered_refund. rewrite <- Hs. by apply since_entered, knows_since. Qed.

Lemma known_lost K r :
  Knows K r → past_paying (state r) = true → lost (paymentHash (quote r)) →
  ∀ w, Inv w → K w → refund_ok (db w) (row_id r).
Proof. intros HKn Hs Hl w _ HKw. apply since_lost; [by apply knows_since|done..]. Qed.

Lemma ln_refundRefused_spec t K r :
  Knows K r → state r = LnSend.refused → triple t K (refundRefused r) (λ _, K) (λ _, K).
Proof.
  intros HKn Hs. unfold refundRefused. case_match; [ln|].
  apply (hoare_try port t K); [apply _| |intros e; hbind; [ln|intros ?; ln]].
  hk; [apply pushRefund_spec; [apply _|by eapply read_refused]|]. intros []; ln.
Qed.

Lemma ln_refundSweep_safe t : safe port t refundSweep.
Proof.
  unfold refundSweep. hseq; [by apply (hoare_now port t (λ _, True) (λ _ _, True)); apply _|done|]. intros at_.
  hseq.
  { apply (hoare_rows port t (λ _, True) _ (λ r, state r = LnSend.refused)); [apply _|].
    intros d r [(Hs & _) Hin]%elem_of_order_by%list_elem_of_filter. done. }
  { done. }
  intros l. apply (hoare_pre _ _ _ _ _ (λ w, all_since l w ∧ ∀ r, r ∈ l → ln_row_ok r ∧ state r = LnSend.refused)).
  { intros w _ [_ Hl]. split; [intros r Hr; by apply Hl|]. intros r Hr. by apply Hl. }
  apply hoare_pure. intros Hl. apply (for_each_known port); [apply Hl|]. intros K r HK Hin.
  by apply ln_refundRefused_spec, Hl.
Qed.

(** ** A payment that failed *)

Section payments.
Context (t : nat) (K : W → Prop) (r : row) `{!Knows K r}.

Lemma refundProvenSelfPayment_spec from :
  triple t K (refundProvenSelfPayment deps r from) (λ _, K) (λ _, K).
Proof.
  assert (triple t K
    (bind (transition (row_id r) from LnSend.refused
        (set_text "failure_reason" "self-payment failed terminally; our own node says it was never paid"))
      (λ won, if negb won then ret withhold
              else match clientRefundPubkey (quote r) with
                   | None => ret resolved
                   | Some _ => bind (try_catch (bind (pushRefund r) (λ _, ret tt)) (λ e, onTickError (row_id r) e))
                                 (λ _, ret resolved)
                   end)) (λ _, K) (λ _, K)) as Hwon.
  { hbind; [by apply move_refused|]. intros won. rewrite if_negb. apply won_or_not; [|ln].
    case_match; [|by apply hoare_ret; [apply _|by intros w _ [? _]]].
    set (K' := λ w, K w ∧ entered r LnSend.refused w).
    apply (hoare_conseq _ _ _ _ _ K' _ _ (λ _, K') _ (λ _, K')); [|done|by intros ? w _ [? _]|by intros ? w _ [? _]].
    hk; [|intros ?; ln].
    apply (hoare_try port t K'); [apply _| |intros e; ln].
    hk; [apply pushRefund_spec; [apply _|by intros w _ [_ ?]; apply entered_refund]|]. intros ?. ln. }
  unfold refundProvenSelfPayment. hk.
  { destruct (probesOwnInvoice deps); [|ln].
    apply (hoare_try port t K); [apply _| |intros e; ln]. hk; [ln|]. intros own. ln. }
  intros [[[]|]|]; try ln; exact Hwon.
Qed.

Lemma settleTerminalFailure_spec from refunded verdict :
  triple t K (settleTerminalFailure r from refunded verdict) (λ _, K) (λ _, K).
Proof.
  unfold settleTerminalFailure. repeat case_match; try ln.
  hbind; [by apply move_refused|]. intros ?. apply (hoare_ret _ Inv Rely); [apply _|by intros w _ [? _]].
Qed.

Lemma whenPaymentFailed_spec from :
  past_paying (state r) = true → lost (paymentHash (quote r)) →
  triple t K (whenPaymentFailed deps r from) (λ _, K) (λ _, K).
Proof.
  intros Hs Hl. unfold whenPaymentFailed. hk; [apply refundProvenSelfPayment_spec|].
  assert (∀ verdict, triple t K
    (bind (refundAfterTerminalFailure r) (λ refunded, settleTerminalFailure r from refunded verdict))
    (λ _, K) (λ _, K)) as Hrest.
  { intros verdict. hk; [apply refundAfterTerminalFailure_spec; [apply _|by eapply known_lost]|].
    intros refunded. apply settleTerminalFailure_spec. }
  intros [| | |]; [ln|apply settleTerminalFailure_spec|apply Hrest|apply Hrest].
Qed.

(** ** The preimage *)

Lemma claimWithPreimage_spec preimage from :
  from ∉ [LnSend.quoted; LnSend.refused] → ¬ void (paymentHash (quote r)) →
  triple t K (claimWithPreimage sha256 (row_id r) (paymentHash (quote r)) preimage from)
    (λ won w, K w ∧ (won = true → entered r LnSend.claiming w)) (λ _, K).
Proof.
  intros Hfrom Hv. unfold claimWithPreimage. case_match eqn:Hm.
  - apply move; [apply _| | |done].
    + split_and!; [done|by intros ? [=]..|]. intros v [= <-]. eauto.
    + split_and!; [done| |intros _; right; exists preimage; by split|by left].
      intros Hs. exfalso. revert Hs. rewrite !elem_of_cons, elem_of_nil. naive_solver.
  - hk; [ln|]. intros ?. hret. by intros w _ HKw.
Qed.

Lemma recordPoll_spec polled : triple t K (recordPoll r polled) (λ _, K) (λ _, K).
Proof.
  unfold recordPoll. hk; [repeat case_match; ln|]. intros ?. hk; [repeat case_match; ln|]. intros ?.
  repeat case_match; ln.
Qed.

Lemma insideGrace_spec : triple t K (insideGrace r) (λ _, K) (λ _, K).
Proof. unfold insideGrace. case_match; [|ln]. hk; [ln|]. intros at_. ln. Qed.

(** The columns a poll starts from. *)
Lemma payment_id_of id : truthy (text_col r "payment_id") = Some id → payment_of id = paymentHash (quote r).
Proof.
  destruct (knows_ok (K := K) (r := r)) as (_ & (_ & Hi & _) & _). unfold text_col. intros Ht.
  destruct (cols r !! "payment_id") as [v|] eqn:Hv; [|done]. destruct (Hi v eq_refl) as (id' & -> & Hid).
  cbn in Ht. by destruct id'; simplify_eq.
Qed.
Lemma recorded_preimage p : truthy (text_col r "preimage") = Some p → ¬ void (paymentHash (quote r)).
Proof.
  destruct (knows_ok (K := K) (r := r)) as (_ & (_ & _ & Hp) & _). unfold text_col.
  destruct (cols r !! "preimage") as [v|] eqn:Hv; [|done]. intros _. by destruct (Hp v eq_refl).
Qed.

Lemma halted n (p : io bool) :
  triple t K p (λ b w, K w ∧ b = false) (λ _, K) → triple t K p (nearer r n) (λ _, K).
Proof. intros Hp. eapply hoare_conseq; [exact Hp|done| |done]. by intros b w _ [_ ->]. Qed.

(** Done what there was to do, without progress to report. *)
Lemma resting {A} n (p : io A) :
  triple t K p (λ _, K) (λ _, K) → triple t K (bind p (λ _, ret false)) (nearer r n) (λ _, K).
Proof. by apply (no_progress port). Qed.

Lemma claim_progress preimage from n :
  from ∉ [LnSend.quoted; LnSend.refused] → ¬ void (paymentHash (quote r)) → (1 < n)%nat →
  triple t K (claimWithPreimage sha256 (row_id r) (paymentHash (quote r)) preimage from) (nearer r n) (λ _, K).
Proof.
  intros Hf Hv Hn. eapply hoare_conseq; [by apply claimWithPreimage_spec|done| |done].
  intros won w _ [_ Hw]. by apply (progressed r n LnSend.claiming).
Qed.

Lemma brings_paid q f : assigned f "idempotency_key" = None → brings LnSend.paying LnSend.paid q f.
Proof.
  intros Hk. split_and!; [intros _ Hs|intros _ Hs|intros Hs|by left]; exfalso; revert Hs; rewrite ?elem_of_cons, ?elem_of_nil;
    naive_solver.
Qed.

Lemma truthful_lost h (polled : PaymentResult) :
  truthful void forgotten h polled → status polled = payment_failed → lost h.
Proof. intros [Hf _] Hs. specialize (Hf Hs). case_bool_decide; [by right|by left]. Qed.

Lemma truthful_preimage h (polled : PaymentResult) p :
  truthful void forgotten h polled → truthy (result_preimage polled) = Some p → ¬ void h.
Proof. intros [_ Hp] Ht. apply Hp. destruct (result_preimage polled); [by eexists|done]. Qed.

Lemma settleFromBackend_spec from :
  past_paying (state r) = true → from = LnSend.paying ∨ from = LnSend.paid →
  triple t K (settleFromBackend sha256 deps r from) (nearer r (passes_left from)) (λ _, K).
Proof.
  intros Hpast Hfrom. assert (LnSend.paid ∉ [LnSend.quoted; LnSend.refused]) as Hpaid by set_solver.
  assert (1 < passes_left from)%nat as Hn by (destruct Hfrom as [-> | ->]; cbn; lia).
  unfold settleFromBackend. destruct (truthy (text_col r "payment_id")) as [id|] eqn:Hid.
  2: { case_match eqn:Hp; [|by hret]. apply claim_progress; [done|by eapply recorded_preimage|done]. }
  apply payment_id_of in Hid. hbind; [by apply (hoare_asks port t K); apply _|]. intros polled.
  apply hoare_pure. cbn [answers ln_port ln_answers]. rewrite Hid. intros Ht.
  hk; [apply recordPoll_spec|]. intros ?.
  assert (triple t K
    (bind (if bool_decide (from = LnSend.paying) then transition (row_id r) LnSend.paying LnSend.paid [] else ret true)
      (λ moved, if negb moved then ret false
                else match truthy (result_preimage polled) with
                     | None => ret (bool_decide (from = LnSend.paying))
                     | Some preimage =>
                         claimWithPreimage sha256 (row_id r) (paymentHash (quote r)) preimage LnSend.paid
                     end)) (nearer r (passes_left from)) (λ _, K)) as Hon.
  { apply (hoare_bind _ _ _ _ K _ _ (λ moved w, K w ∧
      (moved = true → from = LnSend.paying → entered r LnSend.paid w))); [apply _| |].
    - case_bool_decide as Hfp; [|by hret].
      eapply hoare_conseq; [by apply move; [apply _|apply plain_fields_ok|apply brings_paid|]|done| |done].
      intros moved w _ [? Hm]. split; [done|]. auto.
    - intros moved. rewrite if_negb. destruct moved; [|by hret].
      apply (hoare_pre _ _ _ _ _ (λ w, K w ∧ (from = LnSend.paying → entered r LnSend.paid w))); [naive_solver|].
      case_match eqn:Hp.
      + apply (hoare_pre _ _ _ _ _ K); [by intros w _ [? _]|]. apply claim_progress; [done| |done].
        by eapply truthful_preimage.
      + hret. intros w _ [_ Hm]. case_bool_decide as Hfp; [|done]. intros _.
        apply (entered_below r LnSend.paid); [by apply Hm|]. rewrite Hfp. cbn. lia. }
  destruct (status polled) eqn:Hs; [exact Hon|exact Hon|].
  hk; [destruct (bool_decide (evidence polled = Some no_record)); [apply insideGrace_spec|ln]|]. intros []; [by hret|].
  apply resting, whenPaymentFailed_spec; [done|by eapply truthful_lost].
Qed.
End payments.

(** ** Paying *)

Lemma assigned_in f c v :
  (c, Some v) ∈ f → clears_nothing f = true → is_Some (mjoin (assigned f c)).
Proof.
  intros Hin Hf. enough (is_Some (assigned f c)) as [[x|] Hx];
    [by rewrite Hx; eexists|by destruct (clears_nothing_assigned f c Hf)|]. clear Hf. induction f as [|[c' v'] f IH]; [by apply not_elem_of_nil in Hin|]. cbn.
  apply elem_of_cons in Hin as [[= <- <-]|Hin].
  - rewrite decide_True by done. destruct (assigned f c); by eexists.
  - destruct (IH Hin) as [? ->]. by eexists.
Qed.

(** Assignments of evidence in front of others. *)
Lemma identified_ok q id g :
  payment_of id = paymentHash q → plain g = true →
  fields_ok q (set_text "payment_id" id ++ g) ∧ assigned (set_text "payment_id" id ++ g) "preimage" = None ∧
  assigned (set_text "payment_id" id ++ g) "idempotency_key" = None.
Proof.
  intros Hid Hg. destruct (plain_fields_ok q g Hg) as (Hc & _).
  pose proof (plain_assigned g) as Ha. split; [split_and!|split]; cbn; rewrite ?Ha by (done || set_solver); [exact Hc|done| |done|done|done].
  intros v [= <-]. eauto.
Qed.

Lemma intent_ok q at_ g :
  plain g = true →
  let f := set_int "pay_attempted_at" at_ ++ set_text "idempotency_key" (swap_key (paymentHash q)) ++ g in
  fields_ok q f ∧ brings LnSend.funded LnSend.paying q f.
Proof.
  intros Hg f. destruct (plain_fields_ok q g Hg) as (Hc & _). pose proof (plain_assigned g) as Ha.
  assert (fields_ok q f) as Hf.
  { split_and!; cbn; rewrite ?Ha by (done || set_solver); [exact Hc| |done|done]. by intros v [= <-]. }
  split; [done|]. split_and!.
  - intros _ Hs. exfalso. revert Hs. rewrite !elem_of_cons, elem_of_nil. naive_solver.
  - intros _ _. split; (eapply assigned_in; [|apply Hf]); [right; left|left].
  - intros Hs. exfalso. revert Hs. rewrite !elem_of_cons, elem_of_nil. naive_solver.
  - right. split; [rewrite !elem_of_cons, elem_of_nil; naive_solver|]. eapply assigned_in; [left|apply Hf].
Qed.

Section paying.
Context (t : nat) (K : W → Prop) (r : row) `{!Knows K r}.

Lemma fingerprint_spec : triple t K (fingerprint deps) (λ _, K) (λ _, K).
Proof.
  unfold fingerprint. destruct (namesWallet deps); [|ln].
  apply (hoare_try port t K); [apply _| |intros ?; ln]. hk; [ln|]. intros w. ln.
Qed.

Lemma payDeadline_spec d : triple t K (payDeadline deps r d) (λ _, K) (λ _, K).
Proof. unfold payDeadline. hk; [ln|]. intros outputs. case_match; [ln|]. case_match; ln. Qed.

Lemma refuseToPay_spec nothing reason : triple t K (refuseToPay r nothing reason) (λ _, K) (λ _, K).
Proof.
  unfold refuseToPay. hk; [destruct nothing; [|ln]|intros ?; ln].
  hbind; [by apply move_refused|]. intros ?. apply (hoare_ret _ Inv Rely); [apply _|by intros w _ [? _]].
Qed.

Lemma decoded_spec : triple t K (decoding deps (invoice (quote r)))
  (λ decoded w, K w ∧ decodeInvoice (sendHintScidDenylist deps) (invoice (quote r)) = Ok decoded) (λ _, K).
Proof. by apply (hoare_lifted port t K); apply _. Qed.

Lemma key_of_row key : truthy (text_col r "idempotency_key") = Some key → key = swap_key (paymentHash (quote r)).
Proof.
  destruct (knows_ok (K := K) (r := r)) as (_ & (Hk & _ & _) & _). unfold text_col. intros Ht.
  destruct (cols r !! "idempotency_key") as [v|] eqn:Hv; [|done]. rewrite (Hk v eq_refl) in Ht.
  change (Some (swap_key (paymentHash (quote r))) = Some key) in Ht. congruence.
Qed.

(** The row has its key, and its quote allows the payment. *)
Definition allowed (p : PayInvoiceParams) : Prop := is_Some (cols r !! "idempotency_key") ∧ pays (quote r) p.

Lemma payGates_spec nothing :
  triple t K (payGates deps r nothing) (λ gates w, K w ∧ ∀ p, gates = Some p → allowed p) (λ _, K).
Proof.
  assert (∀ p : io unit, triple t K p (λ _, K) (λ _, K) →
    triple t K (bind p (λ _, ret None)) (λ gates w, K w ∧ ∀ p, gates = Some p → allowed p) (λ _, K)) as Hnone.
  { intros p Hp. hk; [exact Hp|]. intros ?. by hret. }
  assert (∀ reason, triple t K (bind (refuseToPay r nothing reason) (λ _, ret None))
    (λ gates w, K w ∧ ∀ p, gates = Some p → allowed p) (λ _, K)) as Hrefuse.
  { intros reason. hk; [apply refuseToPay_spec|]. intros ?. by hret. }
  unfold payGates. destruct (truthy (text_col r "idempotency_key")) as [key|] eqn:Hkey; [|apply Hnone; ln].
  assert (is_Some (cols r !! "idempotency_key")) as Hset.
  { unfold text_col in Hkey. destruct (cols r !! "idempotency_key"); [by eexists|done]. }
  apply key_of_row in Hkey as ->.
  destruct (providerKeyCurrent _ _) eqn:Hprov; cbn [negb]; [|apply Hrefuse].
  apply bool_decide_eq_true in Hprov.
  hk; [apply (refundDeadlineSeconds_keep port); apply _|]. intros deadline0. destruct (soloRefundCovered _ _); cbn [negb]; [|apply Hrefuse].
  hbind; [apply decoded_spec|]. intros decoded. apply hoare_pure. intros Hdec.
  hk; [apply payDeadline_spec|]. intros deadline.
  hk; [destruct (dep_enforcesRouteCltv deps); [ln|hk; [ln|intros ?; ln]]|].
  intros []; cbn [negb]; [|apply Hrefuse].
  hk; [ln|]. intros at_. case_match eqn:Hb; [apply Hrefuse|]. hret. intros w _ HKw. split; [done|].
  intros p [= <-]. split; [exact Hset|]. split_and!; [done..|]. exists decoded. split_and!; [done..|]. apply Z.leb_gt in Hb.
  split; [exact Hb|apply payable_le_worst].
Qed.

Lemma refuseUnsubmittedPayment_spec detail : triple t K (refuseUnsubmittedPayment r detail) (λ _, K) (λ _, K).
Proof.
  unfold refuseUnsubmittedPayment. hbind; [by apply move_refused|]. intros won. apply won_or_not; [|ln].
  set (K' := λ w, K w ∧ entered r LnSend.refused w).
  apply (hoare_conseq _ _ _ _ _ K' _ _ (λ _, K') _ (λ _, K')); [|done|by intros ? w _ [? _]|by intros ? w _ [? _]].
  hk; [|intros ?; ln]. apply refundAfterTerminalFailure_spec; [apply _|]. by intros w _ [_ ?]; apply entered_refund.
Qed.

Lemma recordPayment_spec paid :
  payment_of (payment_id paid) = paymentHash (quote r) → triple t K (recordPayment deps r paid) (λ _, K) (λ _, K).
Proof.
  intros Hid. unfold recordPayment. hk; [apply fingerprint_spec|]. intros wallet. hk; [ln|]. intros at_.
  edestruct (identified_ok (quote r) (payment_id paid)) as (Hf & Hp & Hk); [done| |by apply patch_keep; [apply _|exact Hf|exact Hp|exact Hk]].
  destruct (truthy (backendName deps)), (truthy wallet), (feePaidSats paid); reflexivity.
Qed.

(** The submission: allowed by the gates, and answered for this row's payment. *)
Lemma submitted_spec p nothing :
  past_paying (state r) = true → allowed p →
  triple t K
    (try_catch (bind (payInvoice (row_id r) p) (λ paid, ret (Some paid)))
       (λ e, match e return io (option PaymentResult) with
             | PaymentNotStarted detail =>
                 if (nothing : bool) then bind (refuseUnsubmittedPayment r detail) (λ _, ret None) else throw e
             | _ => throw e
             end))
    (λ submitted w, K w ∧ ∀ paid, submitted = Some paid →
       payment_of (payment_id paid) = paymentHash (quote r) ∧ truthful void forgotten (paymentHash (quote r)) paid)
    (λ _, K).
Proof.
  intros Hs [Hk Hp]. apply (hoare_catch _ _ _ _ _ _ _ _ (λ _, K)); [apply _| |].
  - hbind.
    + apply (hoare_act_reply port t K (PayInvoice (row_id r) p)); [apply _|done|]. intros w _ HKw.
      destruct (knows_since w HKw) as (r' & Hr' & _ & Hq & _ & Hle & Hc). exists r'. rewrite Hq.
      split_and!; [done|by eapply past_paying_le|by apply Hc|done].
    + intros paid. hret. intros w _ [HKw Hr]. split; [done|]. intros ? [= <-].
      destruct Hp as (_ & _ & Hkey & _). by apply Hr.
  - intros e. case_match; try ln. destruct nothing; [|ln].
    hk; [apply refuseUnsubmittedPayment_spec|]. intros ?. by hret.
Qed.

Lemma submitPayment_spec nothing :
  past_paying (state r) = true → triple t K (submitPayment sha256 deps r nothing) (nearer r 3) (λ _, K).
Proof.
  intros Hs. unfold submitPayment. hbind; [apply payGates_spec|].
  intros [p|]; [|by hret]. apply hoare_pure. intros Hp. specialize (Hp p eq_refl).
  hbind; [by apply submitted_spec|]. intros [paid|]; [|by hret].
  apply hoare_pure. intros Ht. destruct (Ht paid eq_refl) as [Hid Htruth]. clear Ht.
  hk; [by apply recordPayment_spec|]. intros ?.
  assert (triple t K
    (bind (transition (row_id r) LnSend.paying LnSend.paid (set_text "payment_id" (payment_id paid)))
      (λ moved, if negb moved then ret false
                else match truthy (result_preimage paid) with
                     | Some preimage =>
                         bind (claimWithPreimage sha256 (row_id r) (paymentHash (quote r)) preimage LnSend.paid)
                           (λ _, ret true)
                     | None => ret true
                     end)) (nearer r 3) (λ _, K)) as Hmove.
  { destruct (identified_ok (quote r) (payment_id paid) [] Hid eq_refl) as (Hf & _ & Hk). rewrite app_nil_r in Hf, Hk.
    hbind; [by apply move; [apply _|exact Hf|apply brings_paid|]|]. intros moved. rewrite if_negb.
    apply won_or_not; [|by hret].
    assert (triple t (λ w, K w ∧ entered r LnSend.paid w) (ret true) (nearer r 3) (λ _, K)) as Hyes.
    { hret. intros w _ [_ He]. by apply (progressed r 3 LnSend.paid); [|cbn; lia]. }
    case_match eqn:Hp2; [|exact Hyes].
    eapply (hoare_seq _ _ _ _ _ _ _ (λ _ w, K w ∧ entered r LnSend.paid w) _ _ (λ _ w, K w ∧ entered r LnSend.paid w));
      [apply _| |by intros ? w _ [? _]|intros ?; exact Hyes].
    eapply hoare_conseq; [apply (claimWithPreimage_spec t (λ w, K w ∧ entered r LnSend.paid w) r); [set_solver|by eapply truthful_preimage]|done| |done].
    by intros ? w _ [? _]. }
  destruct (status paid) eqn:Hst; [exact Hmove|exact Hmove|].
  apply resting; [apply _|]. apply whenPaymentFailed_spec; [apply _|done|by eapply truthful_lost].
Qed.

Lemma recoverCommitted_spec htlc :
  past_paying (state r) = true →
  (htlc_status htlc = returned → void (paymentHash (quote r))) →
  (is_Some (htlc_preimage htlc) → ¬ void (paymentHash (quote r))) →
  triple t K (recoverCommitted sha256 deps r htlc) (nearer r 3) (λ _, K).
Proof.
  intros Hs Hret Hpre. unfold recoverCommitted. destruct (htlc_status htlc); [by hret| |].
  - destruct (truthy (htlc_preimage htlc)) as [preimage|] eqn:Hp; [|apply resting; [apply _|ln]].
    assert (¬ void (paymentHash (quote r))) as Hv.
    { apply Hpre. destruct (htlc_preimage htlc); [by eexists|done]. }
    hbind.
    { apply move; [apply _| |by apply brings_paid|done].
      split_and!; [done|by intros ? [=]..|]. intros v [= <-]. eauto. }
    intros moved. rewrite if_negb. apply won_or_not; [|by hret].
    apply (hoare_pre _ _ _ _ _ K); [by intros w _ [? _]|]. apply claim_progress; [apply _|set_solver|done|lia].
  - hk; [apply refundProvenSelfPayment_spec; apply _|]. intros verdict.
    assert (triple t K
      (bind (match verdict with withhold => ret tt | _ => bind (refundAfterTerminalFailure r) (λ _, ret tt) end)
        (λ _, bind (fail (row_id r) LnSend.paying "lightning payment returned by the backend") (λ _, ret false)))
      (nearer r 3) (λ _, K)) as Hrest.
    { hk; [|intros ?; apply resting; [apply _|ln]].
      assert (triple t K (bind (refundAfterTerminalFailure r) (λ _, ret tt)) (λ _, K) (λ _, K)) as Hr.
      { hk; [|intros ?; ln]. apply refundAfterTerminalFailure_spec; [apply _|].
        eapply known_lost; [apply _|done|]. left. by apply Hret. }
      destruct verdict; [exact Hr|ln|exact Hr|exact Hr]. }
    destruct verdict; [by hret|exact Hrest..].
Qed.

Lemma whenHashBlocked_spec e : triple t K (whenHashBlocked r e) (nearer r 3) (λ _, K).
Proof.
  unfold whenHashBlocked. case_match; [|ln]. hk; [ln|]. intros at_. case_match; [ln|].
  apply resting; [apply _|ln].
Qed.

Lemma whenPaying_spec :
  state r = LnSend.paying → triple t K (whenPaying sha256 deps r) (nearer r 3) (λ _, K).
Proof.
  intros Hs. unfold whenPaying. destruct (truthy (text_col r "payment_id")).
  { apply (settleFromBackend_spec t K r LnSend.paying); [by rewrite Hs|by left]. }
  hk; [apply fingerprint_spec|]. intros live.
  case_match; [apply resting; [apply _|ln]|].
  apply (hoare_bind _ _ _ _ K _ _ (λ found w, K w ∧ ∀ htlc, found = Some htlc →
    (htlc_status htlc = returned → void (paymentHash (quote r))) ∧
    (is_Some (htlc_preimage htlc) → ¬ void (paymentHash (quote r))))); [apply _| |].
  { destruct (probesHtlcState deps); [|by hret].
    eapply hoare_conseq; [by apply (hoare_asks port t K); apply _|done| |done].
    intros found w _ [HKw Ha]. split; [done|exact Ha]. }
  intros [htlc|]; apply hoare_pure; intros Hh.
  { destruct (Hh htlc eq_refl). apply recoverCommitted_spec; [by rewrite Hs|done..]. }
  hk; [destruct (probesHtlcState deps); [apply (insideGrace_spec t K r)|ln]|]. intros []; [by hret|].
  apply (hoare_catch _ _ _ _ _ _ _ _ (λ _, K)); [apply _|apply submitPayment_spec; by rewrite Hs|].
  intros e. case_match; try ln. case_match; [apply whenHashBlocked_spec|ln].
Qed.
End paying.

(** ** Funding *)

Lemma totalValue_nil outputs : totalValue outputs ≠ 0 → ∃ o rest, outputs = o :: rest.
Proof. destruct outputs as [|o rest]; [done|]. eauto. Qed.

Section funding.
Context (t : nat) (K : W → Prop) (r : row) `{!Knows K r}.

Lemma noteFundings_spec i outputs : triple t K (noteFundings i outputs) (λ _, K) (λ _, K).
Proof.
  unfold noteFundings. destruct outputs as [|o outputs]; [ln|].
  hk; [apply (query_keep port); apply _|]. intros [s|]; [|ln].
  hk; [apply (query_keep port); apply _|]. intros seen. generalize (list_to_set seen : gset string).
  induction (o :: outputs) as [|o' l IH]; intros already; [cbn; ln|]. cbn [noteEach]. case_match; [apply IH|].
  hk; [apply (recordEvent_keep port); apply _|]. intros ?. apply IH.
Qed.

Lemma recordFundedFail_spec value reason n : triple t K (recordFundedFail r value reason) (nearer r n) (λ _, K).
Proof. unfold recordFundedFail. hk; [ln|]. intros ?. apply resting; [apply _|ln]. Qed.

(** The outputs that cover the lockup are recorded with the move. *)
Lemma fund_spec outputs :
  totalValue outputs = amountSats (quote r) →
  triple t K
    (bind (noteFundings (row_id r) (funding_of <$> outputs)) (λ _,
      transition (row_id r) LnSend.quoted LnSend.funded
        [("lockup_txid", option_map (λ o, VText (txid o)) (head outputs));
         ("lockup_vout", option_map (λ o, VInt (vout o)) (head outputs));
         ("lockup_value", Some (VInt (totalValue outputs)));
         ("lockup_outpoints", Some (VText (stringifyOutpoints (adopted_of <$> outputs))))]))
    (nearer r 5) (λ _, K).
Proof.
  intros Hv. hk; [apply noteFundings_spec|]. intros ?.
  destruct (knows_ok (K := K) (r := r)) as (Ha & _).
  destruct (totalValue_nil outputs) as (o & rest & ->); [lia|].
  eapply hoare_conseq; [apply move; [apply _|by apply plain_fields_ok| |done]|done| |done].
  - split_and!; [by eexists..| | |by left]; intros Hs; exfalso; revert Hs; rewrite !elem_of_cons, elem_of_nil; naive_solver.
  - intros won w _ [_ Hw]. apply (progressed r 5 LnSend.funded); [exact Hw|cbn; lia].
Qed.

Lemma whenQuoted_spec : triple t K (whenQuoted deps r) (nearer r 5) (λ _, K).
Proof.
  unfold whenQuoted. hk; [ln|]. intros all. hk; [ln|]. intros at1. hk; [ln|]. intros at2. cbn zeta.
  destruct (_ <? totalValue (satsOutputs all)); [apply recordFundedFail_spec|].
  destruct (_ && (_ <? _)%nat); [apply recordFundedFail_spec|].
  destruct (_ && (_ <=? totalValue all)); [apply recordFundedFail_spec|].
  destruct (_ && negb _ && negb _) eqn:Hfund.
  { apply andb_true_iff in Hfund as [[Hv%Z.eqb_eq _]%andb_true_iff _]. by apply fund_spec. }
  case_match; [|by hret]. hk; [case_match; ln|]. intros ?. apply resting; [apply _|ln].
Qed.

(** ** A funded lockup *)

Lemma collectCoupled_spec coupled : triple t K (collectCoupled sha256 r coupled) (nearer r 4) (λ _, K).
Proof.
  unfold collectCoupled. case_match; [apply resting; [apply _|ln]|].
  hk; [ln|]. intros outpoints.
  apply (hoare_bind _ _ _ _ K _ _ (λ found w, K w ∧ (is_Some found → ¬ void (paymentHash (quote r))))); [apply _| |].
  { case_match; [by hret|].
    eapply hoare_conseq; [by apply (hoare_asks port t K); apply _|done| |done]. by intros found w _ [? Ha]. }
  intros [p|]; [|by hret]. apply hoare_pure. intros Hp.
  apply claim_progress; [apply _|set_solver|by apply Hp; eexists|lia].
Qed.

Lemma ownInvoiceState_spec failed : triple t K (ownInvoiceState deps r failed) (λ _, K) (λ _, K).
Proof.
  unfold ownInvoiceState. destruct (probesOwnInvoice deps); [hk; [ln|intros ?; ln]|].
  hk; [destruct (namesWallet deps); [hk; [ln|intros ?; ln]|ln]|]. intros wallet.
  repeat case_match; hk; try ln; intros ?; ln.
Qed.

Lemma refundCoupled_spec failed : triple t K (refundCoupled deps r failed) (nearer r 4) (λ _, K).
Proof.
  unfold refundCoupled. case_match; [by hret|]. case_match; [apply resting; [apply _|ln]|].
  hk; [apply ownInvoiceState_spec|]. intros own.
  assert (triple t K
    (bind (transition (row_id r) LnSend.funded LnSend.refused
        (set_text "failure_reason" "coupled receive refused before funding; client refund pending"))
      (λ won, bind (if won then bind (refundAfterTerminalFailure r) (λ _, ret tt) else ret tt) (λ _, ret false)))
    (nearer r 4) (λ _, K)) as Hwon.
  { hbind; [apply move_refused; apply _|]. intros won.
    apply (hoare_bind _ _ _ _ _ _ _ (λ _, K)); [apply _| |intros ?; by hret].
    apply won_or_not; [|ln]. set (K' := λ w, K w ∧ entered r LnSend.refused w).
    apply (hoare_conseq _ _ _ _ _ K' _ _ (λ _, K') _ (λ _, K')); [|done|by intros ? w _ [? _]|by intros ? w _ [? _]].
    hk; [|intros ?; ln]. apply refundAfterTerminalFailure_spec; [apply _|].
    by intros w _ [_ ?]; apply entered_refund. }
  destruct own as [[[]|]|]; try exact Hwon; by hret.
Qed.

Lemma below_mono n m i w : (n ≤ m)%nat → below (S := LnSend.state) (Q := SendQuote) (Eff := LnSendEffect) passes_left i n w → below passes_left i m w.
Proof. intros Hn (r' & ? & ?). exists r'. split; [done|lia]. Qed.

(** The submission right after the move into [paying], on the row read again. *)
Lemma submit_again :
  triple t (λ w, K w ∧ entered r LnSend.paying w)
    (bind (get (row_id r)) (λ current, submitPayment sha256 deps current true)) (nearer r 4) (λ _, K).
Proof.
  set (K' := λ w, K w ∧ entered r LnSend.paying w).
  apply (hoare_conseq _ _ _ _ _ K' _ _ (nearer r 4) _ (λ _, K')); [|done|done|by intros ? w _ [? _]].
  hbind.
  { apply (hoare_get port t K' (row_id r) (λ c, past_paying (state c) = true)); [apply _|].
    intros w c _ [_ (r' & Hr' & _ & Hs)] Hc. simplify_eq. by eapply past_paying_le. }
  intros c. apply (hoare_pre _ _ _ _ _ (λ w, (K' w ∧ since (row_id r) c w) ∧
    (ln_row_ok c ∧ row_id c = row_id r ∧ past_paying (state c) = true))); [by intros w _ (? & ? & ? & ? & ?)|].
  apply hoare_pure. intros (Hok & Hid & Hp).
  assert (Knows (λ w, K' w ∧ since (row_id r) c w) c) as HKn.
  { split; [apply _| |done]. rewrite Hid. by intros w [_ ?]. }
  eapply hoare_conseq; [by apply (submitPayment_spec t (λ w, K' w ∧ since (row_id r) c w) c)|done| |].
  - intros moved w _ Hm. unfold nearer in *. rewrite Hid in Hm. intros Hmv. apply (below_mono 3); [lia|auto].
  - by intros e w _ [? _].
Qed.

Lemma payFunded_spec d : triple t K (payFunded sha256 deps r d) (nearer r 4) (λ _, K).
Proof.
  unfold payFunded. hbind; [apply (decoded_spec t K r)|]. intros decoded.
  apply (hoare_pre _ _ _ _ _ K); [by intros w _ [? _]|].
  hk; [apply payDeadline_spec; apply _|]. intros deadline. hk; [ln|]. intros at_.
  case_match; [|apply resting; [apply _|ln]].
  hk; [by apply (askApproval_keep port); apply _|]. intros []; cbn [negb]; [|by hret].
  hk; [apply (fingerprint_spec t K r)|]. intros wallet. hk; [ln|]. intros at'.
  edestruct (intent_ok (quote r) at') as [Hf Hb]; [|hbind; [apply move; [apply _|exact Hf|exact Hb|done]|]].
  { by destruct (truthy (backendName deps)), (truthy wallet). }
  intros won. rewrite if_negb. apply won_or_not; [|by hret]. apply submit_again.
Qed.

Lemma whenFunded_spec : triple t K (whenFunded sha256 deps r) (nearer r 4) (λ _, K).
Proof.
  unfold whenFunded. case_match; [apply resting; [apply _|ln]|].
  hk; [apply (refundDeadlineSeconds_keep port); apply _|]. intros deadline.
  case_match; [apply resting; [apply _|ln]|].
  hk; [destruct (coupling deps); ln|]. intros [coupled|]; [apply collectCoupled_spec|].
  hk; [destruct (coupling deps); ln|]. intros [failed|]; [|apply payFunded_spec].
  case_match; [apply refundCoupled_spec|apply payFunded_spec].
Qed.
End funding.

(** ** Collecting the lockup *)

Lemma brings_claimed q f : plain f = true → brings LnSend.claiming LnSend.claimed q f.
Proof.
  intros Hf. split_and!; [..|left; apply plain_assigned; [done|left]].
  - intros _ Hs. exfalso. revert Hs. rewrite !elem_of_cons, elem_of_nil. naive_solver.
  - intros Hs. exfalso. revert Hs. rewrite !elem_of_cons, elem_of_nil. naive_solver.
  - intros _. left. split; [left|]. apply plain_assigned; [done|]. right. right. left.
Qed.

Section collecting.
Context (t : nat) (K : W → Prop) (r : row) (preimage : string) `{!Knows K r}.
Context (claimable : ∀ w, K w → claim_ok (db w) (row_id r) preimage).
#[local] Abbreviation ops := (unrolledOps deps (row_id r) preimage).
#[local] Abbreviation keeps p := (triple t K p (λ _, K) (λ _, K)).

Lemma ops_keep : OpsKeep port t K ops rowStore (row_id r).
Proof.
  split; cbn [store_patch rowStore resumeUnrolled claimUnrolled findLockupOutpoints UnrolledSpend.findClaimPreimage unrolledOps].
  - intros steps. ln.
  - intros output. apply (hoare_act port t K (ResumeUnrolled (row_id r) output preimage)); [apply _|done|].
    intros w _. apply claimable.
  - destruct (claimsUnrolled deps); [|done]. intros claim [= <-] output record.
    apply (hoare_act port t K (ClaimUnrolled (row_id r) output record preimage)); [apply _|done|].
    intros w _. apply claimable.
  - destruct (readsOutpoints deps); [|done]. intros find [= <-] script. ln.
  - destruct (readsClaimPreimage deps); [|done]. intros find [= <-] o h. hk; [ln|]. intros found. ln.
Qed.

Lemma claimed_spec f :
  plain f = true →
  triple t K (transition (row_id r) LnSend.claiming LnSend.claimed f) (nearer r 1) (λ _, K).
Proof.
  intros Hf. eapply hoare_conseq; [by apply move; [apply _|apply plain_fields_ok|apply brings_claimed|]|done| |done].
  intros won w _ [_ Hw]. apply (progressed r 1 LnSend.claimed); [exact Hw|cbn; lia].
Qed.

Lemma nearer_still n : ∀ w, Inv w → K w → nearer r n false w.
Proof. done. Qed.

Lemma whenShort_spec held : triple t K (whenShort deps r held preimage) (nearer r 1) (λ _, K).
Proof.
  unfold whenShort. hk; [ln|]. intros evidence.
  hk; [destruct (bool_decide _); [ln|]; hk; [apply (refundDeadlineReached_keep port); apply _|intros ?; ln]|].
  intros []; [ln|]. hk.
  { destruct (_ && _); [|ln].
    apply (hoare_act port t K (FinalizePendingClaim (row_id r) preimage)); [apply _|done|]. intros w _. apply claimable. }
  intros pending. case_match; [by apply claimed_spec|]. apply resting; [apply _|ln].
Qed.

(** Without a transaction only when there was nothing to claim. *)
Lemma claimOffchain_spec outputs :
  triple t K (claimOffchain deps r outputs preimage)
    (λ x w, K w ∧ (x = inl None → outputs = [])) (λ _, K).
Proof.
  unfold claimOffchain. apply (hoare_catch _ _ _ _ _ _ _ _ (λ _, K)); [apply _| |].
  - case_bool_decide as Ho; [by hret|]. hk; [|intros txid; by hret].
    apply (hoare_act port t K (ClaimLockup (row_id r) outputs preimage)); [apply _|done|]. intros w _. apply claimable.
  - intros e. hk; [apply (refundDeadlineReached_keep port); apply _|]. intros []; [|ln].
    hk; [ln|]. intros ?. by hret.
Qed.

Lemma finishClaim_spec outputs txid unrolled :
  (unrolled = None → is_Some txid) →
  triple t K (finishClaim deps r outputs preimage txid unrolled) (nearer r 1) (λ _, K).
Proof.
  intros Htx. unfold finishClaim. hk.
  { unfold leftoverNow. destruct (match unrolled with None => true | Some c => settled c end); [|ln].
    hk; [destruct txid; [hk; [ln|intros ?; ln]|ln]|]. intros claimed. by apply (lockupLeftover_keep port t K ops rowStore (row_id r)), ops_keep. }
  intros leftover. case_match.
  { hk; [apply (refundDeadlineReached_keep port); apply _|]. intros past.
    by apply (awaitLeftover_spec port t K); [apply nearer_still|intros reason; cbn [store_fail rowStore]; ln|intros text; cbn [store_patch rowStore]; ln]. }
  destruct unrolled as [claims|].
  - hk; [destruct txid; ln|]. intros ?.
    by apply (settleUnrolledClaims_spec port t K); [apply nearer_still|intros reason; cbn [store_fail rowStore]; ln|by apply claimed_spec].
  - destruct Htx as [tx ->]; [done|].
    hk; [|intros ?; by hret]. eapply hoare_conseq; [apply move; [apply _|by apply plain_fields_ok|by apply brings_claimed|done]|done| |done].
    by intros ? w _ [? _].
Qed.
End collecting.

Section ticks.
Context (t : nat).

Lemma whenClaiming_spec K r :
  Knows K r → state r = LnSend.claiming → triple t K (whenClaiming deps r) (nearer r 1) (λ _, K).
Proof.
  intros HKn Hs. unfold whenClaiming.
  destruct (truthy (text_col r "preimage")) as [preimage|] eqn:Hp; [|apply resting; [apply _|ln]].
  assert (∀ w, K w → claim_ok (db w) (row_id r) preimage) as Hclaim.
  { intros w HKw. destruct (knows_since (r := r) w HKw) as (r' & Hr' & _ & Hq & _ & Hle & Hc).
    destruct (knows_ok (K := K) (r := r)) as (_ & (_ & _ & Hv) & (_ & _ & Hpre & _)).
    destruct Hpre as (p & Hcol & Hm); [rewrite Hs; left|]. unfold text_col in Hp. rewrite Hcol in Hp.
    assert (p = preimage) as -> by (by destruct p; cbn in Hp; simplify_eq).
    exists r'. rewrite Hq. split_and!; [done| | |done|by eapply Hv].
    - eapply past_claiming_le; [exact Hle|]. by rewrite Hs.
    - apply Hc; [done|]. by eexists. }
  hk; [ln|]. intros all. hk; [by apply (advanceUnrolledClaims_keep port t K (unrolledOps deps (row_id r) preimage) rowStore (row_id r)), ops_keep|]. intros unrolled. cbn zeta.
  destruct (_ && bool_decide (unrolled = None)) eqn:Hshort; [by apply whenShort_spec|].
  hbind; [by apply claimOffchain_spec|]. intros [txid|[]]; [|hret; done].
  apply hoare_pure. intros Htx. apply finishClaim_spec; [exact HKn|done|].
  intros ->. destruct txid as [tx|]; [by eexists|]. exfalso. specialize (Htx eq_refl).
  destruct (knows_ok (K := K) (r := r)) as (Ha & _). rewrite Htx in Hshort. cbn in Hshort.
  rewrite andb_true_r in Hshort. apply Z.ltb_ge in Hshort. unfold totalValue in Hshort. cbn in Hshort. lia.
Qed.

Lemma ln_step_spec K r :
  Knows K r → triple t K (step sha256 deps r) (nearer r (passes_left (state r))) (λ _, K).
Proof.
  intros HKn. unfold step. destruct (state r) eqn:Hs; try by hret.
  - apply whenQuoted_spec; apply _.
  - apply whenFunded_spec; apply _.
  - by apply whenPaying_spec.
  - apply settleFromBackend_spec; [apply _|by rewrite Hs|by right].
  - by apply whenClaiming_spec.
Qed.

Lemma ln_tick_safe self fuel i : safe port t (tick sha256 deps self fuel i).
Proof.
  apply (safe_guardedTick port). intros r Hr. eapply hoare_conseq; [by apply ln_step_spec, known_since|done..].
Qed.

(** The loop of a tick ends within six passes. *)
Lemma ln_drive_ends i n :
  (6 ≤ n)%nat → triple t (λ _, True) (drive n i (step sha256 deps)) (λ ended _, ended = true) (λ _ _, True).
Proof.
  intros Hn. apply (drive_ends port t passes_left i).
  - exact ln_passes_left_le.
  - intros r Hr. eapply hoare_conseq; [by apply ln_step_spec, known_since|done..].
  - intros s. destruct s; cbn; lia.
Qed.

Lemma held_off_safe self i : safe port t (held_off self i).
Proof.
  unfold held_off. hseq; [by apply (asks_keep port t (λ _, True)); apply _|done|]. intros []; [by hret|].
  apply (hoare_memory port t (λ _, True)); [apply _|]. intros w w' b [_ ->]. split_and!; reflexivity.
Qed.

Lemma driveRows_safe self fuel l : safe port t (driveRows sha256 deps self fuel l).
Proof. apply (safe_sweep port); intros i; [apply held_off_safe|apply ln_tick_safe]. Qed.

Lemma ln_tickAll_safe self fuel : safe port t (tickAll sha256 deps self fuel).
Proof. unfold tickAll. hseq; [by apply (live_rows_safe port)|done|]. intros l. apply driveRows_safe. Qed.

Lemma tickHot_safe self fuel : safe port t (tickHot sha256 deps self fuel).
Proof.
  unfold tickHot. hseq; [|done|intros l; apply driveRows_safe].
  by apply (hoare_query port t (λ _, True) _ (λ _ _, True)); try apply _.
Qed.

(** ** A swept lockup *)

Lemma sweptVerdict_spec K r verdict :
  Knows K r →
  triple t K (sweptVerdict (sweptDeps verdict) r)
    (λ v w, K w ∧ (∀ closing, v = inl closing →
       state r = LnSend.refused ∨ past_paying (state r) = true ∧ lost (paymentHash (quote r)))) (λ _, K).
Proof.
  intros HKn. unfold sweptVerdict. cbn [swept_refused swept_decide swept_close swept_closable sweptDeps].
  case_bool_decide as Hs; [hret; auto|]. destruct verdict; [|hret; by split].
  case_bool_decide as Hc; [|hret; by split]. hbind; [by apply (hoare_asks port t K); apply _|].
  intros decision. hret. intros w _ [HKw Ha]. split; [done|]. intros closing Heq. destruct decision; simplify_eq.
  right. split; [|exact Ha]. unfold RECONCILABLE_SWEPT_STATES in Hc. by destruct (state r); try done; exfalso; set_solver.
Qed.

Lemma sweptPaid_spec K r outputs verdict closing :
  Knows K r →
  (state r = LnSend.refused ∨ past_paying (state r) = true ∧ lost (paymentHash (quote r))) →
  triple t K
    (bind (refundSwept (row_id r) outputs) (λ txid,
      let recorded := bool_decide (text_col r "refund_outcome" = None) in
      let unvalued := bool_decide (int_col r "lockup_value" = None) in
      bind (if unvalued || recorded
            then swept_record (sweptDeps verdict) r (mkRecord
              (if unvalued then Some (foldr (λ o, Z.add (value o)) 0 outputs) else None)
              (if recorded then Some "pushed" else None) (if recorded then Some txid else None))
            else ret tt)
        (λ _, match closing with
              | Some reason =>
                  bind (bind (transition (row_id r) (state r) LnSend.refused (set_text "failure_reason" reason))
                         (λ _, ret tt))
                    (λ _, ret (Some (SweptPaid (row_id r) txid recorded true)))
              | None => ret (Some (SweptPaid (row_id r) txid recorded false))
              end))) (λ _, K) (λ _, K).
Proof.
  intros HKn Hok. hk.
  { apply (hoare_act port t K (RefundSwept (row_id r) outputs)); [apply _|done|]. intros w Hi HKw.
    destruct Hok as [?|[? ?]]; [by eapply (read_refused K r)|by eapply (known_lost K r)]. }
  intros txid. cbn zeta. hk.
  { case_match; [|ln]. cbn [swept_record sweptDeps]. apply patch_plain; [apply _|].
    cbn [lockup_value refund_outcome refund_ark_txid]. by do 2 case_bool_decide. }
  intros ?. destruct closing; [|ln]. hk; [|intros ?; ln].
  hbind; [by apply move_refused|]. intros ?. apply (hoare_ret _ Inv Rely); [apply _|by intros w _ [? _]].
Qed.

Lemma ln_refundSweptLockup_safe verdict script : safe port t (refundSweptLockup deps verdict script).
Proof.
  unfold refundSweptLockup. destruct (refundsSwept deps); [|by hret]. unfold refundSweptLockupFor.
  cbn [swept_find sweptDeps]. hseq.
  { apply (hoare_query port t (λ _, True) _ (λ found w, ∀ r, found = Some r → since (row_id r) r w ∧ ln_row_ok r));
      try apply _.
    intros w Hi _ r Hr. apply head_Some_elem_of, elem_of_order_by, list_elem_of_filter in Hr as [_ Hin].
    destruct Hi as ([Hnd _] & Hok & _). pose proof (find_row_In _ _ Hnd Hin) as Hf.
    split; [|by eapply Hok]. exists r. split; [done|apply row_le_refl]. }
  { done. }
  intros [r|]; [|by hret].
  apply (hoare_pre _ _ _ _ _ (λ w, since (row_id r) r w ∧ ln_row_ok r)); [intros w _ Hf; by apply Hf|].
  apply hoare_pure. intros Hr. pose proof (known_since r Hr) as HKn.
  eapply hoare_conseq with (P' := λ _, since (row_id r) r) (F' := λ _, since (row_id r) r); [|done..].
  cbn [swept_outputs swept_id swept_refund swept_close sweptDeps]. hk; [ln|].
  intros [|o outputs]; [ln|]. hbind; [by apply sweptVerdict_spec|]. intros [closing|why]; [|hret; by intros w _ [? _]].
  apply hoare_pure. intros Hc. specialize (Hc closing eq_refl).
  eapply hoare_conseq; [by apply (sweptPaid_spec _ r (o :: outputs) verdict closing)|done..].
Qed.

(** ** A quote *)

Lemma insertQuote_safe i q : 0 < amountSats q → safe port t (insertQuote i q).
Proof.
  intros Ha. unfold insertQuote.
  hseq; [by apply (hoare_now port t (λ _, True) (λ _ _, True)); apply _|done|]. intros at_. hseq.
  { apply (hoare_sql port t (λ _, True) _ (λ _ _, True)); try apply _; [|done]. intros w _ _.
    split; [done|]. split; [by split_and!; intros v Hv|].
    split_and!; intros Hs; exfalso; [apply Hs; left|..|by destruct Hs];
      revert Hs; cbn; rewrite !elem_of_cons, elem_of_nil; naive_solver. }
  { done. }
  intros n. case_match; [by apply hoare_throw; [apply _|]|].
  hseq; [by apply (recordEvent_keep port t (λ _, True)); apply _|done|]. intros ?. apply (safe_get port).
Qed.
End ticks.
End ln_discipline.
