(* ===== verification/LnSendSafety.v ===== *)
(** * The guarantees of the Lightning send service

    [ln_reachable] is every point of every run of any number of instances of
    [SendSwapService]: their ticks, hot ticks, refund sweeps, swept refunds and
    inserted quotes interleaved event by event, with crashes and restarts. The
    theorems say what licenses each payment, claim and refund, what the rows
    promise, that a tick ends, and that a run of the service is a run of the
    declared lifecycle. *)
From S2P Require Import Prelude StateMachine SendPolicy Prog SwapDb EvmRow Invoice Store World Lockup UnrolledSpend SweptRefund.
From S2P Require Import BaseStore LnSendStore Corridor LnSendService Discipline Rules CorridorRules Refinement LnSendProof.
#[local] Open Scope Z_scope.

#[local] Abbreviation row := SendRow.
#[local] Abbreviation W := (World LnSend.state SendQuote LnSendEffect).
#[local] Abbreviation event := (evt LnSend.state SendQuote LnSendEffect read).

Section reachable.
Context (sha256 : list Z → list Z) (void forgotten : string → Prop) (payment_of : string → string).
Context {decoder : Bolt11Decoder} {exit : Recourse} {json : Json} (deps : LnSendDeps).

(** What an instance may start. *)
Inductive ln_program : prog event unit → Prop :=
  | ln_tick self fuel i : ln_program (forget (tick sha256 deps self fuel i))
  | ln_sweep self fuel : ln_program (forget (tickAll sha256 deps self fuel))
  | ln_hot self fuel : ln_program (forget (tickHot sha256 deps self fuel))
  | ln_refunds : ln_program (forget refundSweep)
  | ln_swept verdict script : ln_program (forget (refundSweptLockup deps verdict script))
  | ln_quote i q : 0 < amountSats q → ln_program (forget (insertQuote i q))
  | ln_process self : ln_program (trigger (Restart self)).

#[local] Abbreviation ports := (ln_port void forgotten payment_of).
#[local] Abbreviation runs := (rtc (cstep (handle (Entry LnSend.quoted) ports) ln_program)).
Definition ln_reachable (c : W * list (nat * prog event unit)) : Prop := runs (empty_world, []) c.

#[local] Abbreviation D := (LnDiscipline sha256 void forgotten payment_of deps).
#[local] Abbreviation Inv := (Discipline.Inv (D := D)).
#[local] Abbreviation Rely := (Discipline.Rely (D := D)).

Lemma ln_program_safe t p :
  ln_program p → ∀ w, Inv w → wp (handle (Entry LnSend.quoted) ports) Inv Rely t p (λ _ _, True) w.
Proof.
  intros Hp w Hi. destruct Hp; [apply (forget_safe (D := D) ports); [|done]..|by apply (restart_safe (D := D) ports)].
  - apply ln_tick_safe.
  - apply ln_tickAll_safe.
  - apply tickHot_safe.
  - apply ln_refundSweep_safe.
  - apply ln_refundSweptLockup_safe.
  - by apply insertQuote_safe.
Qed.

Lemma ln_sound c : ln_reachable c → sound (handle (Entry LnSend.quoted) ports) Inv Rely c.
Proof. apply (instances_sound (D := D) ports _ ln_program_safe). Qed.

Lemma ln_reachable_inv c : ln_reachable c → Inv c.1.
Proof. intros Hc. by apply ln_sound in Hc as (_ & ? & _). Qed.

(** ** What leaves *)

(** C5: a Lightning payment is only sent for a swap past [quoted] and [funded]
    whose row bears what the entry into [paying] writes, the one idempotency key
    its payment hash determines and the moment of the attempt, and has the
    lockup's value, transaction and outputs on disk, whatever became of the swap
    since; and only as its quote allows: the swap's own invoice, under that key,
    with the routing budget it was priced with, for longer than the
    destination's own CLTV demands and no longer than the worst case the
    deadline was quoted for, and only while this provider holds the key that can
    claim the lockup. As long as the swap is not refused, no other swap that is
    not refused has the same payment hash. *)
Theorem lightning_payments_are_licensed c i p :
  ln_reachable c → PayInvoice i p ∈ sent c.1 →
  ∃ r, find_row (db c.1) i = Some r ∧ (state r ∉ [LnSend.quoted; LnSend.funded]) ∧
    cols r !! "idempotency_key" = Some (VText ("swap-" +:+ paymentHash (quote r))) ∧
    is_Some (cols r !! "pay_attempted_at") ∧ is_Some (cols r !! "lockup_value") ∧
    is_Some (cols r !! "lockup_txid") ∧ is_Some (cols r !! "lockup_outpoints") ∧
    receiverPubkey (quote r) = providerPubkey deps ∧
    pay_invoice p = invoice (quote r) ∧ idempotencyKey p = ("swap-" +:+ paymentHash (quote r)) ∧
    (∃ decoded, decodeInvoice (sendHintScidDenylist deps) (invoice (quote r)) = Ok decoded ∧
       maxFeeSats p = default (maxRoutingFeeSats (decoded_amountSats decoded)) (quotedRoutingFeeSats (quote r)) ∧
       SendPolicy.minFinalCltvBlocks (cltv_of deps decoded) + hintCltvBlocks (cltv_of deps decoded)
         < maxCltvBlocks p ≤ worstCaseHtlcBlocks (cltv_of deps decoded)) ∧
    (state r ≠ LnSend.refused → ∀ r', r' ∈ rows (db c.1) → state r' ≠ LnSend.refused →
       paymentHash (quote r') = paymentHash (quote r) → r' = r).
Proof.
  intros Hc Hin. pose proof (ln_reachable_inv c Hc) as (Hwf & Hok & He & _).
  destruct (He _ Hin) as (r & Hr & Hs & Hkeyed & Hprov & Hinv & Hkey & Hdec). exists r.
  destruct (Hok i r Hr) as (_ & (Hk & _ & _) & _ & _ & _ & Ha).
  destruct (Ha Hkeyed) as [Hat (Hv & Htx & Ho)]. destruct Hkeyed as [v Hkeyed].
  split_and!; [done|by apply past_paying_not|by rewrite Hkeyed, (Hk _ Hkeyed)|done..|].
  intros Hs' r' Hin' Hs'' Hh. apply find_row_Some in Hr as [_ Hin2]. by eapply (live_hash_unique state_refused).
Qed.

(** The swap a request spends the lockup of, and the preimage it does it with. *)
Definition collects (a : LnSendEffect) : option (string * string) :=
  match a with
  | ClaimLockup i _ preimage | FinalizePendingClaim i preimage | ClaimUnrolled i _ _ preimage
  | ResumeUnrolled i _ preimage => Some (i, preimage)
  | _ => None
  end.
Definition gives_back (a : LnSendEffect) : option string :=
  match a with RefundLockup i _ | RefundSwept i _ => Some i | _ => None end.

(** C6: a lockup is only collected with a preimage someone was paid for: every
    claim, finalisation or claim of an unrolled output carries bytes that hash
    to the swap's payment hash, of a payment that was not void, for a row that
    has a preimage on disk and is past the entry into [claiming]. *)
Theorem lightning_claims_are_backed c a i preimage :
  ln_reachable c → a ∈ sent c.1 → collects a = Some (i, preimage) →
  ∃ r, find_row (db c.1) i = Some r ∧
    state r ∈ [LnSend.claiming; LnSend.claimed; LnSend.stuck; LnSend.refused] ∧
    is_Some (cols r !! "preimage") ∧ preimageMatchesHash sha256 preimage (paymentHash (quote r)) = true ∧
    ¬ void (paymentHash (quote r)).
Proof.
  intros Hc Hin Ha. pose proof (ln_reachable_inv c Hc) as (_ & _ & He & _). specialize (He _ Hin).
  assert (claim_ok sha256 void (db c.1) i preimage) as (r & Hr & Hs & Hrest) by (by destruct a; simplify_eq/=).
  exists r. split_and!; [done| |apply Hrest..]. apply list_elem_of_In. destruct (state r); try done; cbn; tauto.
Qed.

(** C7: a client is refunded only once the swap is refused or its payment can
    no longer happen, never while the swap is quoted or funded; and a swap that
    is being claimed, or was, has had no refund of any kind, before or after,
    unless the backend once lost its record of the payment. *)
Theorem lightning_refunds_exclude_claims c :
  ln_reachable c →
  (∀ a i, a ∈ sent c.1 → gives_back a = Some i →
     ∃ r, find_row (db c.1) i = Some r ∧ (state r ∉ [LnSend.quoted; LnSend.funded]) ∧
       (state r = LnSend.refused ∨ void (paymentHash (quote r)) ∨ forgotten (paymentHash (quote r)))) ∧
  (∀ r a, r ∈ rows (db c.1) → state r ∈ [LnSend.claiming; LnSend.claimed] → a ∈ sent c.1 →
     gives_back a = Some (row_id r) → forgotten (paymentHash (quote r))).
Proof.
  intros Hc. pose proof (ln_reachable_inv c Hc) as ([Hnd _] & Hok & He & _).
  assert (∀ a i, a ∈ sent c.1 → gives_back a = Some i → refund_ok void forgotten (db c.1) i) as Hrefund.
  { intros a i Hin Ha. specialize (He _ Hin). by destruct a; simplify_eq/=. }
  split.
  - intros a i Hin Ha. destruct (Hrefund a i Hin Ha) as (r & Hr & Hs & Hl). exists r.
    split_and!; [done|by apply past_paying_not|done].
  - intros r a Hr Hs Hin Ha. destruct (Hrefund a _ Hin Ha) as (r' & Hr' & _ & Hl).
    rewrite (find_row_In _ _ Hnd Hr) in Hr'. simplify_eq.
    destruct (Hok _ _ (find_row_In _ _ Hnd Hr)) as (_ & (_ & _ & Hv) & _ & _ & Hp & _).
    destruct (Hp Hs) as (p & Hcol & _). destruct (Hv _ Hcol) as [_ Hvoid].
    destruct Hl as [Href|[?|?]]; [|done|done]. rewrite Href in Hs. exfalso. set_solver.
Qed.

(** ** What the rows promise *)

(** C33: what the states of a send row promise is in the row: past [funded] the
    lockup's value, transaction and outputs; paying or paid, the idempotency
    key and the moment of the attempt; claiming or claimed, a preimage of the
    payment hash. The key is never anything but the hash's, a payment id is the
    id of this hash's payment, and no two swaps that are not refused share a
    payment hash. *)
Theorem lightning_rows_keep_their_promises c :
  ln_reachable c →
  (∀ i r, find_row (db c.1) i = Some r →
     (state r ∉ [LnSend.quoted; LnSend.refused] →
        is_Some (cols r !! "lockup_value") ∧ is_Some (cols r !! "lockup_txid") ∧
        is_Some (cols r !! "lockup_outpoints")) ∧
     (state r ∈ [LnSend.paying; LnSend.paid] →
        cols r !! "idempotency_key" = Some (VText ("swap-" +:+ paymentHash (quote r))) ∧
        is_Some (cols r !! "pay_attempted_at")) ∧
     (state r ∈ [LnSend.claiming; LnSend.claimed] →
        ∃ p, cols r !! "preimage" = Some (VText p) ∧ preimageMatchesHash sha256 p (paymentHash (quote r)) = true) ∧
     (∀ v, cols r !! "payment_id" = Some v → ∃ id, v = VText id ∧ payment_of id = paymentHash (quote r))) ∧
  (∀ r1 r2, r1 ∈ rows (db c.1) → r2 ∈ rows (db c.1) →
     state r1 ≠ LnSend.refused → state r2 ≠ LnSend.refused →
     paymentHash (quote r1) = paymentHash (quote r2) → r1 = r2).
Proof.
  intros Hc. destruct (ln_reachable_inv c Hc) as (Hwf & Hok & _). split.
  - intros i r Hr. destruct (Hok i r Hr) as (_ & (Hk & Hi & _) & Hl & Hp & Hpre & _). split_and!; [done| |done|done].
    intros Hs. destruct (Hp Hs) as [[v Hv] ?]. split; [|done]. by rewrite Hv, (Hk v Hv).
  - intros r1 r2 H1 H2 S1 S2 Hh. by eapply (live_hash_unique state_refused).
Qed.

(** A tick ends: started at any moment of any run, whatever the other
    instances do meanwhile and however the backends answer, its loop — read the
    row, step, again as long as the step reports progress — is over within six
    passes, because progress is only reported when the row moved on. *)
Theorem lightning_tick_ends c t i n :
  ln_reachable c → (6 ≤ n)%nat →
  wp (handle (Entry LnSend.quoted) ports) Inv Rely t (drive n i (step sha256 deps)) (λ r _, r ≠ Ok false) c.1.
Proof.
  intros Hc Hn. eapply wp_mono; [|by apply (ln_drive_ends sha256 void forgotten payment_of deps t i n Hn);
    [apply ln_reachable_inv|]].
  intros [ended|e] w _; cbn; [by intros ->|done].
Qed.

(** ** The specification the service refines *)

(** What the specification lets leave: payments and refunds past the entry into
    [paying], claims past the entry into [claiming]. *)
Definition ln_licensed (m : gmap string LnSend.state) (l : list LnSendEffect) (a : LnSendEffect) : Prop :=
  match a with
  | PayInvoice i _ | RefundLockup i _ | RefundSwept i _ => ∃ s, m !! i = Some s ∧ past_paying s = true
  | ClaimLockup i _ _ | FinalizePendingClaim i _ | ClaimUnrolled i _ _ _ | ResumeUnrolled i _ _ =>
      ∃ s, m !! i = Some s ∧ past_claiming s = true
  end.
Definition ln_spec := spec_step LnSend.quoted ln_edge ln_licensed.

Lemma ln_act_licensed (w : W) a : Inv (with_sent w a) → ln_licensed (phases (db w)) (sent w) a.
Proof.
  intros (_ & _ & He & _). specialize (He a). cbn [db sent with_sent] in *.
  assert (ln_effect_ok sha256 void forgotten deps (db w) a) as Ha by (apply He, elem_of_app; right; left).
  destruct a; cbn in Ha |- *; destruct Ha as (r & Hr & Hs & _); exists (state r); by rewrite phases_lookup, Hr.
Qed.

Lemma ln_row_reached (r : row) :
  ln_row_ok sha256 void payment_of r → rtc ln_edge LnSend.quoted (state r).
Proof.
  intros _. pose proof (edges_path (edges LnSendMachine)) as Hpath. unfold ln_edge.
  destruct (state r);
    [apply (Hpath [])|apply (Hpath [LnSend.funded])|apply (Hpath [LnSend.funded; LnSend.paying])
    |apply (Hpath [LnSend.funded; LnSend.paying; LnSend.paid])|apply (Hpath [LnSend.funded; LnSend.claiming])
    |apply (Hpath [LnSend.funded; LnSend.claiming; LnSend.claimed])|apply (Hpath [LnSend.refused])
    |apply (Hpath [LnSend.funded; LnSend.paying; LnSend.stuck])]; vm_compute; reflexivity.
Qed.

(** C17: the service refines the lifecycle the machine declares: seen as the
    phases of its swaps and the ledger of its requests, every run of its
    instances is a run of the specification, in which swaps are quoted, move
    along the machine's edges, and pay, claim and refund only in phases that
    license it. Nothing leaves claimed or refused. *)
Theorem lightning_refines_lifecycle c c' :
  ln_reachable c → runs c c' →
  rtc ln_spec (spec_of c.1) (spec_of c'.1) ∧
  ∀ i s, (spec_of c.1).1 !! i = Some s → s ∈ [LnSend.claimed; LnSend.refused] → (spec_of c'.1).1 !! i = Some s.
Proof.
  intros Hc Hr.
  pose proof (simulation (D := D) ports ln_program ln_edge ln_licensed
    (λ s s' H, H) ln_row_reached ln_act_licensed ln_program_safe c c' (ln_sound c Hc) Hr) as Hsim.
  split; [exact Hsim|]. intros i s Hi Ht.
  pose proof (instances_ordered (D := D) ports _ ln_program_safe c c' Hc Hr) as [Hd _].
  unfold spec_of in *. cbn [fst] in *. rewrite phases_lookup in *. apply fmap_Some in Hi as (r & Hf & ->).
  destruct (Hd _ _ Hf) as (r' & -> & _ & _ & _ & Hle & _). cbn. f_equal. apply ln_terminal_le; [done|].
  rewrite !elem_of_cons in Ht. destruct Ht as [?|[?|Ht]]; [by left|by right|by apply not_elem_of_nil in Ht].
Qed.
End reachable.

(** ** A run *)

Section run.
(** Every preimage of this hash function opens the first swap. *)
Definition run_sha256 : list Z → list Z := λ _, replicate 32 171.
Definition run_hash (n : nat) : string := hex_encode (replicate 32 (170 + Z.of_nat n)).

(** The second payment finds no route. A payment's id is its idempotency key. *)
Definition run_void (h : string) : Prop := h = run_hash 2.
Definition run_forgotten (h : string) : Prop := False.
Definition run_payment_of (id : string) : string := String.substring 5 (String.length id - 5) id.

Definition run_decoder : Bolt11Decoder := λ _, Some (mkBolt11
  [("coin_network", Some (VNetwork (Some "bc"))); ("amount", Some (VString "100000000"));
   ("timestamp", Some (VNumber 1700000000)); ("payment_hash", Some (VString (hex_encode (replicate 32 1))));
   ("min_final_cltv_expiry", Some (VNumber 40))] None).
Definition run_recourse : Recourse := λ _, "exit".
Definition run_json : Json := {|
  stringifyStep _ := "step"; stringifySteps _ := "{}"; parseSteps _ := Ok [];
  stringifyOutpoints _ := "[]"; parseOutpoints _ := Ok [];
|}.
#[local] Existing Instances run_decoder run_recourse run_json.

(** A backend that can be asked about a hash, or not. *)
Definition run_deps (probes : bool) : LnSendDeps :=
  mkLnSendDeps "02aa" (Some "lnd") true 900 ∅ ROUTE_CLTV_BUDGET_BLOCKS true false false false
    probes true false true false false false false true 0.

Definition ln_swap (n : nat) : SendQuote :=
  mkSendQuote ("lnbc" +:+ pretty n) (run_hash n) 100000 1700003600 (Some 1700500000) 1700500000
    "02aa" "02aa" "02bb" 512 1024 604672 ("5120" +:+ pretty n) "ark1q" (Some "5120cc") None (Some "02dd") None
    None (Some 500) None.

(** The second payment fails; the first is under way, or has succeeded. *)
Definition payment_result (settled : bool) (h : string) : PaymentResult :=
  if decide (h = run_hash 2)
  then mkPaymentResult (swap_key h) payment_failed (Some terminal) (Some "route_not_found") None None
  else if negb settled then mkPaymentResult (swap_key h) payment_pending (Some in_flight) None None None
  else mkPaymentResult (swap_key h) payment_succeeded (Some terminal) None (Some "010203") (Some 21).

(** The client funds both lockups, whether or not the indexer shows it. *)
Definition ln_oracle (indexed settled : bool) (w : W) X (q : read X) : option X :=
  match q in read X return option X with
  | FindLockups script => Some (if negb indexed then [] else [mkOutput ("fund" +:+ script) 0 100000 false None])
  | FindSweptLockups _ => Some []
  | LockupProvablySpent _ => Some false
  | SpendEvidence _ => Some evidence_unspent
  | FindLockupOutpoints _ => Some []
  | CoupledOutpoints _ => Some []
  | FindClaimPreimage _ _ => Some None
  | ChainTip => Some 800000
  | GetPayment id =>
      let r := payment_result settled (run_payment_of id) in
      Some (mkPaymentResult id (status r) (evidence r) (failureReason r) (result_preimage r) (feePaidSats r))
  | GetSendHtlcState _ => Some None
  | GetOwnInvoiceState _ => Some None
  | GetKnownInvoiceState _ => Some None
  | WalletFingerprint => Some "wallet"
  | LiveReceive _ => Some None
  | ReceiveByPaymentHash _ => Some None
  | Approval _ _ => Some true
  | ShouldSkipTick _ => Some false
  | DecideSwept _ _ => Some (DoNot "unknown")
  end.

Definition ln_reply (settled : bool) (a : LnSendEffect) : Reply a :=
  match a return Reply a with
  | PayInvoice _ p =>
      let r := payment_result settled (run_payment_of (idempotencyKey p)) in
      mkPaymentResult (idempotencyKey p) (status r) (evidence r) (failureReason r) (result_preimage r) (feePaidSats r)
  | ClaimLockup _ _ _ => "claimtx"
  | RefundLockup _ _ | RefundSwept _ _ => "refundtx"
  | FinalizePendingClaim _ _ => None
  | ClaimUnrolled _ _ _ _ | ResumeUnrolled _ _ _ => inr waiting
  end.

#[local] Abbreviation ports := (ln_port run_void run_forgotten run_payment_of).
#[local] Abbreviation reachable probes :=
  (ln_reachable run_sha256 run_void run_forgotten run_payment_of (run_deps probes)).
#[local] Abbreviation program probes := (ln_program run_sha256 (run_deps probes)).

Lemma substring_all (s : string) : String.substring 0 (String.length s) s = s.
Proof. induction s as [|a s IH]; [done|]. cbn. by rewrite IH. Qed.

Lemma run_payment_of_key h : run_payment_of ("swap-" +:+ h) = h.
Proof.
  unfold run_payment_of. change (String.length ("swap-" +:+ h)) with (5 + String.length h)%nat.
  replace (5 + String.length h - 5)%nat with (String.length h) by lia.
  change (String.substring 0 (String.length h) h = h). apply substring_all.
Qed.

Lemma payment_result_truthful settled h id :
  truthful run_void run_forgotten h
    (let r := payment_result settled h in
     mkPaymentResult id (status r) (evidence r) (failureReason r) (result_preimage r) (feePaidSats r)).
Proof.
  unfold payment_result, run_void. case_decide as Hh; [|destruct settled]; split; cbn; first [done|by intros [? ?]|by intros _].
Qed.

(** The world as these oracles answer for thread [t]. *)
#[local] Abbreviation answering t time indexed settled :=
  (served (Entry LnSend.quoted) time (ln_oracle indexed settled) (ln_reply settled) t).

Lemma answering_handle t time indexed settled :
  (0 ≤ time)%Z → ∀ X (e : event X) w x w',
  answering t time indexed settled X e w = Some (x, w') → handle (Entry LnSend.quoted) ports t X e w w' x.
Proof.
  intros Htime X e w x w'. apply served_handle; [done| |].
  - clear. intros w X q x Hx. destruct q; cbn in Hx |- *; simplify_eq; try done.
    apply payment_result_truthful.
  - intros []; try done. intros h Hkey. cbn [ln_reply]. rewrite Hkey, run_payment_of_key.
    split; [apply run_payment_of_key|apply payment_result_truthful].
Qed.

(** One program run alone, from [w] to the world it leaves. *)
Definition ln_session (time : Z) (p : prog event unit) (w : W) : W :=
  match play (answering 0 time true true) p w with
  | Some (_, w') => w'
  | None => w
  end.

Lemma ln_session_reachable probes time p w :
  (0 ≤ time)%Z → program probes p → reachable probes (w, []) → reachable probes (ln_session time p w, []).
Proof.
  intros Htime Hp Hw. unfold ln_session. case_match eqn:Hplay; [|done]. case_match; subst.
  unfold ln_reachable in *. etransitivity; [exact Hw|].
  eapply (play_session _ _ 0); [by apply answering_handle|exact Hp|exact Hplay].
Qed.

(** Two swaps quoted, funded, paid for: the first collected, the second refunded. *)
Definition quoted_world : W :=
  ln_session 1700000001 (forget (insertQuote "swap-2" (ln_swap 2)))
    (ln_session 1700000000 (forget (insertQuote "swap-1" (ln_swap 1))) empty_world).
Definition ln_world : W := ln_session 1700000070 (forget (tickAll run_sha256 (run_deps true) 0 6)) quoted_world.

Lemma ln_world_sent :
  sent ln_world =
    [PayInvoice "swap-1" (mkPay "lnbc1" 500 ("swap-" +:+ run_hash 1) 472);
     ClaimLockup "swap-1" [mkOutput "fund51201" 0 100000 false None] "010203";
     PayInvoice "swap-2" (mkPay "lnbc2" 500 ("swap-" +:+ run_hash 2) 472);
     RefundLockup "swap-2" [mkOutput "fund51202" 0 100000 false None]] ∧
  (state <$> rows (db ln_world)) = [LnSend.claimed; LnSend.refused].
Proof. vm_compute. split; reflexivity. Qed.

Lemma quoted_world_reachable probes : reachable probes (quoted_world, []).
Proof. do 2 (apply ln_session_reachable; [done|by constructor|]). apply rtc_refl. Qed.
Lemma ln_world_reachable : reachable true (ln_world, []).
Proof. apply ln_session_reachable; [done|constructor|apply quoted_world_reachable]. Qed.

(** *** A submission overtaken *)

(** Instance 0 ticks until it has moved the row into [paying], 23 events in;
    instance 1 ticks from there and pays; instance 0 goes on, its read of the
    lockup momentarily empty. *)
Definition overtaken_tick : prog event unit := forget (tick run_sha256 (run_deps false) 0 6 "swap-1").
Definition overtaken : option (prog event unit * W) :=
  advance 23 (answering 0 1700000070 true false) overtaken_tick quoted_world.
Definition overtaking : option (unit * W) :=
  match overtaken with
  | Some (_, w) => play (answering 1 1700000071 true false) (forget (tick run_sha256 (run_deps false) 1 6 "swap-1")) w
  | None => None
  end.
(** Where the other instance is done: the swap is paid for. *)
Definition paid_for : W * list (nat * prog event unit) :=
  match overtaken, overtaking with
  | Some (p, _), Some (_, w) => (w, [(0%nat, p)])
  | _, _ => (quoted_world, [])
  end.
(** What the first instance, resumed, leaves, and the refund sweep after it. *)
Definition overtaken_world : W :=
  match paid_for with
  | (w, (_, p) :: _) =>
      match play (answering 0 1700000072 false false) p w with
      | Some (_, w') => ln_session 1700000100 (forget refundSweep) w'
      | None => w
      end
  | (w, []) => w
  end.

Definition overtaking_payment : PayInvoiceParams := mkPay "lnbc1" 500 ("swap-" +:+ run_hash 1) 472.

Lemma paid_for_row :
  sent paid_for.1 = [PayInvoice "swap-1" overtaking_payment] ∧
  (state <$> find_row (db paid_for.1) "swap-1") = Some LnSend.paid ∧
  (paymentHash ∘ quote <$> find_row (db paid_for.1) "swap-1") = Some (run_hash 1) ∧
  (cols <$> find_row (db paid_for.1) "swap-1") ≫= lookup "payment_id" = Some (VText ("swap-" +:+ run_hash 1)).
Proof. vm_compute. repeat split; reflexivity. Qed.

Lemma overtaken_world_sent :
  sent overtaken_world =
    [PayInvoice "swap-1" overtaking_payment; RefundLockup "swap-1" [mkOutput "fund51201" 0 100000 false None]] ∧
  (state <$> find_row (db overtaken_world) "swap-1") = Some LnSend.refused.
Proof. vm_compute. split; reflexivity. Qed.

#[local] Abbreviation runs := (rtc (cstep (handle (Entry LnSend.quoted) ports) (program false))).

Lemma run_times : (0 ≤ 1700000070 ∧ 0 ≤ 1700000071 ∧ 0 ≤ 1700000072)%Z.
Proof. done. Qed.
Lemma paid_for_reachable : reachable false paid_for.
Proof.
  unfold paid_for. destruct overtaken as [[p w1]|] eqn:Ha; [|apply quoted_world_reachable].
  destruct overtaking as [[b w2]|] eqn:Hp; [|apply quoted_world_reachable].
  unfold ln_reachable. etransitivity; [apply quoted_world_reachable|]. unfold overtaking in Hp. rewrite Ha in Hp.
  unfold overtaken in Ha.
  eapply (overtaken_midway (handle (Entry LnSend.quoted) ports) (program false) 0 1 23 (answering 0 1700000070 true false)
    (answering 1 1700000071 true false) overtaken_tick
    (forget (tick run_sha256 (run_deps false) 1 6 "swap-1")) quoted_world p w1 b w2);
    [apply (answering_handle _ _ _ _ (proj1 run_times))|apply (answering_handle _ _ _ _ (proj1 (proj2 run_times)))
    |discriminate|apply ln_tick|apply ln_tick|exact Ha|exact Hp].
Qed.

Lemma paid_for_overtaken : runs paid_for (overtaken_world, []).
Proof.
  unfold overtaken_world, paid_for. destruct overtaken as [[p w1]|]; [|apply rtc_refl].
  destruct overtaking as [[b w2]|]; [|apply rtc_refl]. cbn [fst snd].
  destruct (play (answering 0 1700000072 false false) p w2) as [[[] w3]|] eqn:Hr; [|apply rtc_once, (cstep_crash _ _ w2 [])].
  etransitivity.
  - eapply (resumed_session (handle (Entry LnSend.quoted) ports) (program false) 0 (answering 0 1700000072 false false));
      [apply (answering_handle _ _ _ _ (proj2 (proj2 run_times)))|exact Hr].
  - unfold ln_session. destruct (play _ _ w3) as [[[] w4]|] eqn:Hplay; [|apply rtc_refl].
    eapply (play_session _ _ 0); [by apply (answering_handle 0 1700000100 true true)|constructor|exact Hplay].
Qed.

#[local] Opaque ln_world paid_for overtaken_world.

(** C28: the refusal after a lost race is not safe: with a backend that cannot be
    asked about a payment hash, a swap can be paid for, its row [paid] under the
    id of a payment that never failed and that the backend never lost, the one
    payment the only request made; and from there be taken to [refused], by an
    instance that had moved it into [paying], was overtaken by the one that paid
    before it read the row again, and then found a gate of its own submission
    not to pass; upon which the refund sweep gives the client the lockup back
    while the payment is under way. *)
Theorem overtaken_submission_refunds_a_paid_swap :
  ∃ c w r p outputs, reachable false c ∧ runs c (w, []) ∧
    find_row (db c.1) "swap-1" = Some r ∧ state r = LnSend.paid ∧ paymentHash (quote r) = run_hash 1 ∧
    cols r !! "payment_id" = Some (VText (idempotencyKey p)) ∧
    sent c.1 = [PayInvoice "swap-1" p] ∧ idempotencyKey p = ("swap-" +:+ run_hash 1) ∧
    ¬ run_void (run_hash 1) ∧ ¬ run_forgotten (run_hash 1) ∧
    sent w = [PayInvoice "swap-1" p; RefundLockup "swap-1" outputs] ∧
    (state <$> find_row (db w) "swap-1") = Some LnSend.refused.
Proof.
  destruct paid_for_row as (Hsent & Hstate & Hhash & Hid). destruct overtaken_world_sent as [Hsent' Hstate'].
  apply fmap_Some in Hstate as (r & Hr & Hstate). rewrite Hr in Hhash, Hid. injection Hhash as Hhash.
  exists paid_for, overtaken_world, r, overtaking_payment, [mkOutput "fund51201" 0 100000 false None].
  split_and!; [apply paid_for_reachable|apply paid_for_overtaken|exact Hr|exact (eq_sym Hstate)|exact Hhash|exact Hid|exact Hsent|done
    |by intros [=]|by intros []|exact Hsent'|exact Hstate'].
Qed.

(** *** The theorems at work *)

Lemma lightning_payments_are_licensed_witness :
  ∃ r, find_row (db ln_world) "swap-1" = Some r ∧ is_Some (cols r !! "pay_attempted_at") ∧
    receiverPubkey (quote r) = "02aa".
Proof.
  destruct (lightning_payments_are_licensed run_sha256 run_void run_forgotten run_payment_of (run_deps true)
    (ln_world, []) "swap-1" (mkPay "lnbc1" 500 ("swap-" +:+ run_hash 1) 472) ln_world_reachable)
    as (r & Hr & _ & _ & Ha & _ & _ & _ & Hp & _); [|exists r; split; [exact Hr|exact (conj Ha Hp)]].
  cbn [fst]. rewrite (proj1 ln_world_sent). left.
Defined.

Lemma lightning_claims_are_backed_witness :
  ∃ r, find_row (db ln_world) "swap-1" = Some r ∧ is_Some (cols r !! "preimage") ∧
    preimageMatchesHash run_sha256 "010203" (paymentHash (quote r)) = true.
Proof.
  destruct (lightning_claims_are_backed run_sha256 run_void run_forgotten run_payment_of (run_deps true)
    (ln_world, []) (ClaimLockup "swap-1" [mkOutput "fund51201" 0 100000 false None] "010203") "swap-1" "010203"
    ln_world_reachable) as (r & Hr & _ & Hp & Hm & _); [|reflexivity|exists r; split; [exact Hr|exact (conj Hp Hm)]].
  cbn [fst]. rewrite (proj1 ln_world_sent). right. left.
Defined.

Lemma lightning_refunds_exclude_claims_witness :
  ∃ r, find_row (db ln_world) "swap-2" = Some r ∧
    (state r = LnSend.refused ∨ run_void (paymentHash (quote r)) ∨ run_forgotten (paymentHash (quote r))).
Proof.
  destruct (proj1 (lightning_refunds_exclude_claims run_sha256 run_void run_forgotten run_payment_of (run_deps true)
    (ln_world, []) ln_world_reachable)
    (RefundLockup "swap-2" [mkOutput "fund51202" 0 100000 false None]) "swap-2") as (r & Hr & _ & Hl);
    [|reflexivity|exists r; exact (conj Hr Hl)].
  cbn [fst]. rewrite (proj1 ln_world_sent). do 3 right. left.
Defined.

Lemma lightning_rows_keep_their_promises_witness :
  ∃ r, r ∈ rows (db ln_world) ∧ state r = LnSend.claimed ∧ is_Some (cols r !! "preimage").
Proof.
  pose proof (proj2 ln_world_sent) as Hs.
  destruct (rows (db ln_world)) as [|r l] eqn:Hl; [discriminate|]. injection Hs as Hs _.
  exists r. split; [left|]. split; [exact Hs|].
  pose proof (lightning_rows_keep_their_promises run_sha256 run_void run_forgotten run_payment_of (run_deps true)
    (ln_world, []) ln_world_reachable) as [Hrow _].
  pose proof (ln_reachable_inv _ _ _ _ _ (ln_world, []) ln_world_reachable) as ([Hnd _] & _).
  cbn [fst] in *. destruct (Hrow (row_id r) r) as (_ & _ & Hp & _).
  { apply find_row_In; [exact Hnd|]. rewrite Hl. left. }
  destruct Hp as (p & Hp & _); [rewrite Hs; right; left|]. by eexists.
Defined.

Lemma lightning_tick_ends_witness :
  wp (handle (Entry LnSend.quoted) ports)
    (Discipline.Inv (D := LnDiscipline run_sha256 run_void run_forgotten run_payment_of (run_deps true)))
    (Discipline.Rely (D := LnDiscipline run_sha256 run_void run_forgotten run_payment_of (run_deps true)))
    7 (drive 6 "swap-1" (step run_sha256 (run_deps true))) (λ r _, r ≠ Ok false) ln_world.
Proof.
  apply (lightning_tick_ends run_sha256 run_void run_forgotten run_payment_of (run_deps true)
    (ln_world, []) 7 "swap-1" 6 ln_world_reachable). lia.
Defined.

Lemma lightning_refines_lifecycle_witness :
  rtc ln_spec (spec_of (S := LnSend.state) (Q := SendQuote) (Eff := LnSendEffect) empty_world) (spec_of ln_world).
Proof.
  apply (lightning_refines_lifecycle run_sha256 run_void run_forgotten run_payment_of (run_deps true)
    (empty_world, []) (ln_world, [])).
  - apply rtc_refl.
  - apply ln_world_reachable.
Defined.
End run.
