(* ===== verification/LnReceiveProof.v ===== *)
(** * What the Lightning receive service never does

    The discipline of [ReceiveSwapService] over the rules of [CorridorRules]:
    any number of its instances, ticking, sweeping, refunding at an operator's
    word and inserting quotes at once against one database, dying at any point
    and restarted. A lockup is funded under the lease of its row, which only a
    failure that submitted nothing gives back.

    What the ports are assumed to tell: [held h E], a payment of the hash [h]
    was held until [E]; [couples h c], [c] was the live send row of [h];
    [published p], [p] was in the witness of a spend. *)
From S2P Require Import Prelude Timelocks SendPolicy ReceivePolicy StateMachine Prog SwapDb EvmRow Store Corridor World ChainClock Lockup LockupFunding UnrolledSpend.
From S2P Require Import BaseStore LnReceiveStore Covenant LnReceiveService Discipline Rules BaseRules CorridorRules.
#[local] Open Scope Z_scope.
#[local] Opaque transition base_patch.

(** ** The lifecycle *)

Definition receive_states : list LnReceive.state :=
  [LnReceive.quoted; LnReceive.armed; LnReceive.funded; LnReceive.claimed; LnReceive.refunding;
   LnReceive.settled; LnReceive.refunded; LnReceive.refused; LnReceive.stuck].
Lemma receive_complete s : s ∈ receive_states.
Proof. apply list_elem_of_In. destruct s; cbn; tauto. Qed.

Definition receive_edge : LnReceive.state → LnReceive.state → Prop := edge (edges LnReceiveMachine).
Abbreviation receive_le := (rtc receive_edge).

(** The lockup may be funded, or the swap is over. *)
Definition past_quoted (s : LnReceive.state) : bool := negb (bool_decide (s = LnReceive.quoted)).
(** The race for the lease is over. *)
Definition past_armed (s : LnReceive.state) : bool := bool_decide (s ∉ [LnReceive.quoted; LnReceive.armed]).
(** The lockup was taken for funded, or the swap needs a human. *)
Definition past_funding (s : LnReceive.state) : bool :=
  bool_decide (s ∉ [LnReceive.quoted; LnReceive.armed; LnReceive.refused]).
Definition past_refunding (s : LnReceive.state) : bool :=
  bool_decide (s ∈ [LnReceive.refunding; LnReceive.refunded; LnReceive.claimed; LnReceive.settled; LnReceive.stuck]).
Definition past_claimed (s : LnReceive.state) : bool :=
  bool_decide (s ∈ [LnReceive.claimed; LnReceive.settled; LnReceive.stuck]).

(** How many more passes a tick may report progress from a state. *)
Definition passes_left (s : LnReceive.state) : nat :=
  match s with
  | LnReceive.quoted => 5 | LnReceive.armed => 4 | LnReceive.funded => 3 | LnReceive.refunding => 2
  | LnReceive.claimed => 1 | _ => 0
  end.

Lemma lr_receive_closed (P : LnReceive.state → bool) s s' :
  forallb (λ s, forallb (λ s', implb (P s) (P s')) (edges LnReceiveMachine s)) receive_states = true →
  receive_le s s' → P s = true → P s' = true.
Proof. apply (edges_closed (edges LnReceiveMachine) receive_states receive_complete). Qed.

Lemma receive_passes_le s s' : receive_le s s' → (passes_left s' ≤ passes_left s)%nat.
Proof. by apply (edges_descend (edges LnReceiveMachine) receive_states receive_complete). Qed.

(** ** What is assumed of the ports *)

Section assumptions.
Context (sha256 : list Z → list Z) (held : string → Z → Prop) (couples : string → CoupledSendRow → Prop).
Context (published : list Z → Prop).

(** [p] is the preimage of [h], and somebody has published it. *)
Definition opens (p : list Z) (h : string) : Prop := published p ∧ hex_encode (sha256 p) = h.

Definition lr_answers X (q : read X) : X → Prop :=
  match q in read X return X → Prop with
  | GetHoldState h => λ hold, ∀ E, hold_status hold = armed → hold_expiresAt hold = Some E → held h E
  | LiveSend h => λ found, ∀ c, found = Some c → couples h c
  | FindClaimPreimage _ h => λ found, ∀ p, found = Some p → opens p h
  | FindSpendWitness _ _ _ => λ found, ∀ items p, found = Some items → p ∈ items → published p
  | _ => λ _, True
  end.

(** A refusal for an amount too low says that nothing was submitted; nobody but
    the corridor throws its own error. *)
Definition lr_definite (a : LnReceiveEffect) (e : Error) : Prop :=
  match a with
  | WalletSend _ _ _ _ _ => amount_too_low e = true ∨ ∃ why, e = FundNotSubmittedError why
  | _ => False
  end.
Definition lr_port : Port LnReceiveEffect read := mkPort lr_answers (λ _ _, True) lr_definite.
End assumptions.

(** ** The discipline *)

Section lr_discipline.
Context (sha256 : list Z → list Z) (held : string → Z → Prop) (couples : string → CoupledSendRow → Prop).
Context (published : list Z → Prop).
Context `{Arkade, ClaimPackets, ReceiveRecourse, SpendJson} (deps : LnReceiveDeps).
#[local] Abbreviation row := ReceiveRow.
#[local] Abbreviation W := (World LnReceive.state ReceiveQuote LnReceiveEffect).
#[local] Abbreviation event := (evt LnReceive.state ReceiveQuote LnReceiveEffect read).
#[local] Abbreviation io := (io event Error).
#[local] Abbreviation opens := (opens sha256 published).

(** Why a lockup may be funded: a payment of the hash is held until an [E] that
    passed every gate, or the client's own send lockup covers the payout. *)
Definition backed (q : ReceiveQuote) : Prop :=
  (∃ E deadline at_, held (paymentHash q) E ∧
     (absoluteLocktimeUnit (refundLocktime q) = seconds → deadline = refundLocktime q) ∧
     evaluateReceiveFunding (mkFunding (invoiceExpiresAt q) (Some E) deadline (refundWithoutReceiverDelay q)
       (dep_acceptUnilateralGap deps) at_) = Ok Fund) ∨
  (∃ c deadline, couples (paymentHash q) c ∧ send_state c = LnSend.funded ∧ payoutSats q ≤ send_amountSats c ∧
     (absoluteLocktimeUnit (send_refundLocktime c) = seconds → deadline = send_refundLocktime c) ∧
     refundWithoutReceiverDelayCovers (send_refundWithoutReceiverDelay c) deadline (send_createdAt c) = true).

(** What a row's columns may hold. *)
Definition columns_ok (q : ReceiveQuote) (m : gmap string sqlval) : Prop :=
  (∀ v, m !! "fund_started_at" = Some v → ∃ z, v = VInt z ∧ 0 ≤ z) ∧
  (∀ v, m !! "preimage" = Some v → ∃ p, v = VText (hex_encode p) ∧ opens p (paymentHash q)).

Definition with_lockup : list LnReceive.state :=
  [LnReceive.funded; LnReceive.claimed; LnReceive.refunding; LnReceive.settled; LnReceive.refunded].
Definition with_preimage : list LnReceive.state := [LnReceive.claimed; LnReceive.settled].

(** What a state says of them. *)
Definition promises (s : LnReceive.state) (m : gmap string sqlval) : Prop :=
  (s ∈ with_lockup → ∃ txid vout value, m !! "arkade_lockup_txid" = Some (VText txid) ∧
     m !! "arkade_lockup_vout" = Some (VInt vout) ∧ m !! "arkade_lockup_value" = Some (VInt value)) ∧
  (s ∈ with_preimage → is_Some (m !! "preimage")).

Definition lr_row_ok (r : row) : Prop := columns_ok (quote r) (cols r) ∧ promises (state r) (cols r).

(** The one payment a quote allows: its payout to its own lockup, out of coins
    that were selected for it, stamped as its packet says. *)
Definition funding_ok (d : ReceiveDb) (i address : string) (sats : Z) (stamp : option ClaimPacketStamp)
    (selected : list FundingCandidate) : Prop :=
  ∃ r, find_row d i = Some r ∧ past_quoted (state r) = true ∧ backed (quote r) ∧
    address = lockupAddress (quote r) ∧ sats = payoutSats (quote r) ∧
    (∃ request cleared, fund_amountSats request = sats ∧ selectLockupFunding request = Selected selected cleared) ∧
    (∃ built, covenantScriptFromRow (receiveCovenantRowFor r) = Ok built ∧
       claimPacketStamp (claimPacket (quote r)) built.1 = Ok stamp).

Definition in_phase (phase : LnReceive.state → bool) (d : ReceiveDb) (i : string) (fact : ReceiveQuote → Prop) : Prop :=
  ∃ r, find_row d i = Some r ∧ phase (state r) = true ∧ fact (quote r).

Definition lr_effect_ok (d : ReceiveDb) (a : LnReceiveEffect) : Prop :=
  match a with
  | WalletSend i address sats stamp selected => funding_ok d i address sats stamp selected
  | RefundLockup i _ script destination =>
      in_phase past_funding d i (λ q, hex_encode script = pkScript q ∧ hexBytes (solverRefundPkScript q) = Ok destination)
  | FinalizePendingRefund i script => in_phase past_refunding d i (λ q, hex_encode script = pkScript q)
  | RefundUnrolled i _ _ | ResumeUnrolled i _ => in_phase past_refunding d i (λ _, True)
  | SettleHold i preimage =>
      in_phase past_claimed d i (λ q, ∃ p, preimage = hex_encode p ∧ opens p (paymentHash q))
  | CancelHold _ => True
  | Reveal i swapAddress sealed _ _ =>
      in_phase past_armed d i (λ q, swapAddress = lockupAddress q ∧ claimPacket q = Some sealed)
  end.

#[export] Instance LrDiscipline : Discipline LnReceive.state ReceiveQuote LnReceiveEffect := {
  state_le := receive_le;
  kept c := c ∉ ["fund_started_at"; "htlc_expires_at"];
  frozen _ := False;
  after_grant r := is_Some (cols r !! "fund_started_at") ∨ past_armed (state r) = true;
  granted := Lease "fund_started_at";
  row_ok := lr_row_ok;
  effect_ok := lr_effect_ok;
  own_of a := match a with WalletSend i _ _ _ _ => Some i | _ => None end;
  full i q l := ∃ stamp selected, l = [WalletSend i (lockupAddress q) (payoutSats q) stamp selected];
}.

Lemma in_phase_le phase (d d' : ReceiveDb) i fact :
  (∀ s s', receive_le s s' → phase s = true → phase s' = true) →
  db_le d d' → in_phase phase d i fact → in_phase phase d' i fact.
Proof.
  intros Hp [Hd _] (r & Hr & Hs & Hf). destruct (Hd _ _ Hr) as (r' & Hr' & _ & Hq & _ & Hle & _).
  exists r'. rewrite Hq. eauto.
Qed.

Lemma covenant_same r r' :
  row_id r' = row_id r → quote r' = quote r → receiveCovenantRowFor r' = receiveCovenantRowFor r.
Proof. unfold receiveCovenantRowFor. by intros -> ->. Qed.

Lemma funding_ok_le (d d' : ReceiveDb) i address sats stamp selected :
  db_le d d' → funding_ok d i address sats stamp selected → funding_ok d' i address sats stamp selected.
Proof.
  intros [Hd _] (r & Hr & Hs & Hrest). destruct (Hd _ _ Hr) as (r' & Hr' & Hid & Hq & _ & Hle & _).
  exists r'. rewrite Hq, (covenant_same r r') by done. split_and!; [done| |apply Hrest..].
  by eapply (lr_receive_closed past_quoted).
Qed.

Lemma lr_effect_ok_le (d d' : ReceiveDb) a : db_le d d' → lr_effect_ok d a → lr_effect_ok d' a.
Proof.
  intros Hd. destruct a; cbn; try done; [by apply funding_ok_le|..];
    apply in_phase_le; try done; intros ? ?; by apply lr_receive_closed.
Qed.

#[export] Instance lr_laws :
  DisciplineLaws (S := LnReceive.state) (Q := ReceiveQuote) (Eff := LnReceiveEffect).
Proof.
  split; [reflexivity|intros ???; apply transitivity| |apply lr_effect_ok_le].
  intros r r' (_ & _ & _ & Hle & _) Hc [Hf|Hs]; [left; by apply Hc|right].
  by eapply (lr_receive_closed past_armed).
Qed.
#[local] Abbreviation Stable := (Stable (W := W) Inv Rely).
#[local] Abbreviation port := (lr_port sha256 held couples published).
#[local] Abbreviation triple := (hoare (X := Error) (handle (Eff := LnReceiveEffect) granted port) Inv Rely).

(** ** Writing *)

Definition guarded : list string :=
  ["fund_started_at"; "preimage"; "arkade_lockup_txid"; "arkade_lockup_vout"; "arkade_lockup_value"].

(** What an assignment may put in the columns that carry evidence. *)
Definition fields_ok (q : ReceiveQuote) (f : fields) : Prop :=
  (∀ v, assigned f "fund_started_at" ≠ Some (Some v)) ∧
  (∀ v, assigned f "preimage" = Some (Some v) → ∃ p, v = VText (hex_encode p) ∧ opens p (paymentHash q)).

(** What a move has to bring so that the state it enters keeps its promises. *)
Definition brings (s s' : LnReceive.state) (f : fields) : Prop :=
  (s' ∈ with_lockup →
     (s ∈ with_lockup ∧ ∀ c, c ∈ ["arkade_lockup_txid"; "arkade_lockup_vout"; "arkade_lockup_value"] → assigned f c = None) ∨
     ∃ txid vout value, assigned f "arkade_lockup_txid" = Some (Some (VText txid)) ∧
       assigned f "arkade_lockup_vout" = Some (Some (VInt vout)) ∧
       assigned f "arkade_lockup_value" = Some (Some (VInt value))) ∧
  (s' ∈ with_preimage →
     (s ∈ with_preimage ∧ assigned f "preimage" = None) ∨ is_Some (mjoin (assigned f "preimage"))).

Lemma lr_row_ok_set s' f at_ (r : row) :
  fields_ok (quote r) f → brings (state r) s' f → lr_row_ok r →
  lr_row_ok (mkRow (row_id r) s' (created_at r) at_ (quote r) (set_columns f (cols r))).
Proof.
  intros [Ff Fp] [Bl Bp] [[Cf Cp] [Pl Pp]]. unfold lr_row_ok, columns_ok, promises. cbn. setoid_rewrite set_columns_lookup.
  split_and!.
  - intros v. destruct (assigned f "fund_started_at") as [o|] eqn:Ha; [|apply Cf]. intros ->. by destruct (Ff v).
  - intros v. destruct (assigned f "preimage") as [o|] eqn:Ha; [|apply Cp]. intros ->. by apply Fp.
  - intros Hs. destruct (Bl Hs) as [[Hs' Hn]|(tx & vo & va & Ht & Hv & Hx)]; [|exists tx, vo, va; by rewrite Ht, Hv, Hx].
    destruct (Pl Hs') as (tx & vo & va & Ht & Hv & Hx). exists tx, vo, va.
    rewrite !Hn by (apply (bool_decide_unpack _); vm_compute; exact I). by rewrite Ht, Hv, Hx.
  - intros Hs. destruct (Bp Hs) as [[Hs' ->]|Hj]; [by apply Pp|]. destruct (assigned f "preimage"); [exact Hj|by destruct Hj].
Qed.

(** Assignments that carry no evidence. *)
Definition plain (f : fields) : bool := forallb (λ p, bool_decide (p.1 ∉ guarded)) f.

Lemma lr_plain_assigned f c : plain f = true → c ∈ guarded → assigned f c = None.
Proof.
  intros Hf Hc. induction f as [|[c' v] f IH]; [done|]. cbn in Hf.
  apply andb_true_iff in Hf as [Hn%bool_decide_eq_true Hf]. cbn. rewrite IH by done.
  by rewrite decide_False by (intros ->; done).
Qed.

Lemma guarded_in c : bool_decide (c ∈ guarded) = true → c ∈ guarded.
Proof. apply bool_decide_eq_true. Qed.

Lemma lr_plain_fields_ok q f : plain f = true → fields_ok q f.
Proof. intros Hf. split; intros v; by rewrite lr_plain_assigned by (done || by apply guarded_in). Qed.

(** A move that brings no evidence: within what has it, or out of it. *)
Definition moves_plainly (s s' : LnReceive.state) : bool :=
  implb (bool_decide (s' ∈ with_lockup)) (bool_decide (s ∈ with_lockup)) &&
  implb (bool_decide (s' ∈ with_preimage)) (bool_decide (s ∈ with_preimage)).

Lemma brings_plain s s' f : plain f = true → moves_plainly s s' = true → brings s s' f.
Proof.
  intros Hf [Hl Hp]%andb_true_iff. split; intros Hs; left.
  - rewrite (bool_decide_true _ Hs) in Hl. apply bool_decide_eq_true in Hl. split; [done|].
    intros c Hc. apply lr_plain_assigned; [done|]. unfold guarded. set_solver.
  - rewrite (bool_decide_true _ Hs) in Hp. apply bool_decide_eq_true in Hp. split; [done|].
    apply lr_plain_assigned; [done|by apply guarded_in].
Qed.

Lemma lr_brings_refused s f : brings s LnReceive.refused f.
Proof. split; intros Hs; exfalso; revert Hs; unfold with_lockup, with_preimage; set_solver. Qed.

Lemma moves_failed s : moves_plainly s (failed_state s) = true.
Proof. by destruct s; vm_compute. Qed.
Section writing.
Context (t : nat) (K : W → Prop) (r : row) `{!Knows K r}.

Lemma lr_patch_plain f :
  clears_nothing f = true → plain f = true → triple t K (patch (row_id r) f) (λ _, K) (λ _, K).
Proof.
  intros Hc Hf. apply (row_patch_keep port); [apply _|done|unfrozen|]. intros r' at_ Hq Hok.
  apply lr_row_ok_set; [by apply lr_plain_fields_ok|by apply brings_plain; [|destruct (state r')]|done].
Qed.

(** A move of the row, won or lost to another instance. *)
Lemma lr_move from to f :
  spares from to f → fields_ok (quote r) f → brings from to f →
  triple t K (transition (row_id r) from to f) (λ won w, K w ∧ (won = true → entered r to w)) (λ _, K).
Proof.
  intros Hc Hf Hb. apply (row_move_keep port); [apply _|done|done|intros He; by apply rtc_once|unfrozen|].
  intros r' at_ Hq <- Hok. apply lr_row_ok_set; [by rewrite Hq|done|done].
Qed.

Lemma lr_move_plain from to f :
  clears_nothing f = true → plain f = true → moves_plainly from to = true →
  triple t K (transition (row_id r) from to f) (λ won w, K w ∧ (won = true → entered r to w)) (λ _, K).
Proof. intros Hc Hf Hm. apply lr_move; [by left|by apply lr_plain_fields_ok|by apply brings_plain]. Qed.

Lemma lr_failed from reason : triple t K (fail (row_id r) from reason) (λ _, K) (λ _, K).
Proof.
  unfold fail. hbind; [by apply lr_move_plain; [..|apply moves_failed]|]. intros won. hret. by intros w _ [? _].
Qed.
End writing.

(** The steps of the proofs below: a read, the clock, a report, a write. *)
Ltac lr :=
  lazymatch goal with
  | |- hoare _ _ _ _ _ (asks _) _ _ => apply (asked port); apply _
  | |- hoare _ _ _ _ _ now _ _ => apply (timed port); apply _
  | |- hoare _ _ _ _ _ dateNow _ _ => apply (timed port); apply _
  | |- hoare _ _ _ _ _ (onTickError _ _) _ _ => apply (told port); apply _
  | |- hoare _ _ _ _ _ (firstReport _ _) _ _ => apply (first_told port); apply _
  | |- hoare _ _ _ _ _ (lifted _ _) _ _ => apply (lifted_keep port); apply _
  | |- hoare _ _ _ _ _ (patch _ _) _ _ => apply lr_patch_plain; [apply _|reflexivity|reflexivity]
  | |- hoare _ _ _ _ _ (@fail _ _ _ _ _ _ _ _ _ _) _ _ => apply lr_failed; apply _
  | |- hoare _ _ _ _ _ (ret _) _ _ => by hret
  | |- hoare _ _ _ _ _ (throw _) _ _ => by apply hoare_throw; [apply _|]
  end.

(** A step after which as much is known as before. *)
Ltac hk :=
  lazymatch goal with
  | |- hoare _ _ _ _ ?K _ _ _ => apply (hoare_bind _ _ _ _ K _ _ (λ _, K)); try apply _
  end.

#[local] Abbreviation nearer := (nearer passes_left).
#[export] Instance nearer_forward t r n moved : Stable t (nearer r n moved).
Proof. apply nearer_stable, receive_passes_le. Qed.

Section steps.
Context (t self : nat) (K : W → Prop) (r : row) `{!Knows K r}.
#[local] Abbreviation keeps p := (triple t K p (λ _, K) (λ _, K)).
#[local] Abbreviation halts p := (triple t K p (nearer r (passes_left (state r))) (λ _, K)).

Lemma stopped {A} n (p : io A) : keeps p → triple t K (bind p (λ _, ret false)) (nearer r n) (λ _, K).
Proof. intros Hp. by apply (no_progress port). Qed.

Lemma advanced n from to f :
  clears_nothing f = true → plain f = true → moves_plainly from to = true → (passes_left to < n)%nat →
  triple t K (transition (row_id r) from to f) (nearer r n) (λ _, K).
Proof.
  intros Hc Hf Hm Hn. eapply (move_nearer (D := LrDiscipline) port passes_left receive_passes_le); [by apply lr_move_plain|done].
Qed.

(** ** The preimage *)

Lemma readWitnesses_spec script hash l unread :
  triple t K (readWitnesses sha256 script hash l unread)
    (λ found w, K w ∧ ∀ p, found = Some p → opens p hash) (λ _, K).
Proof.
  revert unread. induction l as [|o l IH]; intros unread; cbn [readWitnesses]; [destruct unread; lr|].
  apply (hoare_bind _ _ _ _ K _ _ (λ found w, K w ∧ ∀ items p, found = inl (Some items) → p ∈ items → published p));
    [apply _| |].
  { unfold caught. apply (hoare_catch _ _ _ _ _ _ _ _ (λ _, K)); [apply _| |intros e; by hret].
    hbind; [by apply (hoare_asks port t K); apply _|]. intros found. hret. intros w _ [HKw Ha].
    split; [done|]. intros items p [= ->]. by apply Ha. }
  intros [witness|e].
  2: { apply (hoare_pre _ _ _ _ _ K); [by intros w _ [? _]|]. apply IH. }
  apply hoare_pure. intros Hpub. unfold revealed_in. destruct (list_find _ (default [] witness)) as [[n p]|] eqn:Hf; cbn;
    [|apply IH].
  apply list_find_Some in Hf as (Hin%list_elem_of_lookup_2 & (_ & Hh) & _). hret. intros w _ HKw. split; [done|].
  intros ? [= <-]. split; [|done]. destruct witness as [items|]; [by eapply Hpub|by apply not_elem_of_nil in Hin].
Qed.

Lemma lr_findPreimage_spec outpoints :
  triple t K (findPreimage sha256 deps self r outpoints)
    (λ found w, K w ∧ ∀ p, found = Some p → opens p (paymentHash (quote r))) (λ _, K).
Proof.
  unfold findPreimage. destruct outpoints as [|o outpoints]; [lr|].
  hbind; [by apply (hoare_asks port t K); apply _|]. intros [p|].
  { hret. intros w _ [HKw Ha]. split; [done|]. intros ? [= <-]. by apply Ha. }
  apply (hoare_pre _ _ _ _ _ K); [by intros w _ [? _]|].
  destruct (filter _ (o :: outpoints)) as [|u unrolled]; [lr|].
  hk; [lr|]. intros first. hk; [destruct first; lr|]. intros ?. case_match; [lr|].
  hk; [lr|]. intros script. apply readWitnesses_spec.
Qed.

(** ** Arming *)

Lemma retireInvoice_keep hash : keeps (retireInvoice deps hash).
Proof.
  unfold retireInvoice. destruct (cancelsHolds deps); [|lr].
  apply (hoare_try port t K); [apply _| |intros e; lr]. by apply (hoare_act port t K (CancelHold hash)); [apply _|..].
Qed.

Lemma noteHeadroom_keep E : keeps (noteHeadroom r E).
Proof.
  unfold noteHeadroom. destruct E as [E|]; [|lr]. apply (hoare_try port t K); [apply _| |intros e; lr].
  hk; [lr|]. intros at_. by apply (recordEvent_keep port); apply _.
Qed.

Lemma liveSend_spec :
  triple t K (liveSend deps (paymentHash (quote r)))
    (λ found w, K w ∧ ∀ c, found = Some c → couples (paymentHash (quote r)) c) (λ _, K).
Proof.
  unfold liveSend. destruct (coupling deps); [|by hret].
  eapply hoare_conseq; [by apply (hoare_asks port t K); apply _|done|done|done].
Qed.

Lemma coupledRefundCovers_spec c :
  triple t K (coupledRefundCovers deps c)
    (λ covers w, K w ∧ (covers = true → ∃ deadline,
       (absoluteLocktimeUnit (send_refundLocktime c) = seconds → deadline = send_refundLocktime c) ∧
       refundWithoutReceiverDelayCovers (send_refundWithoutReceiverDelay c) deadline (send_createdAt c) = true)) (λ _, K).
Proof.
  unfold coupledRefundCovers. hbind; [apply (refundDeadlineSeconds_spec port); apply _|].
  intros deadline. apply hoare_pure. intros Hd. hret. intros w _ HKw. split; [done|]. eauto.
Qed.

(** The entry into [armed], with an [E] or none. *)
Lemma arm_spec E :
  triple t K (transition (row_id r) LnReceive.quoted LnReceive.armed [("htlc_expires_at", E)])
    (λ won w, K w ∧ (won = true → entered r LnReceive.armed w)) (λ _, K).
Proof.
  apply lr_move; [apply _|right; split| |by apply brings_plain].
  - intros c Hc. cbn. destruct (decide _) as [<-|]; [|done]. exfalso. apply Hc. right. left.
  - intros r' at_ Hq [Hl|Hs]; [left|by rewrite Hq in Hs]. cbn. destruct E; [by rewrite lookup_insert_ne|by rewrite lookup_delete_ne].
  - by split; intros v.
Qed.

End steps.

Section quoted.
Context (t : nat) (K : W → Prop) (r : row) `{!Knows K r}.

Lemma armCoupled_spec c : triple t K (armCoupled deps r c) (nearer r 5) (λ _, K).
Proof.
  unfold armCoupled. case_match; [apply (stopped t K r); lr|]. case_match.
  { hk; [apply (retireInvoice_keep t K r)|]. intros ?. apply (stopped t K r). lr. }
  case_match; [by hret|].
  hk; [eapply hoare_conseq; [apply (coupledRefundCovers_spec t K r)|done|by intros ? ? _ [? _]|done]|]. intros covers.
  case_match; [apply (stopped t K r); lr|]. hk; [lr|]. intros all. case_match; [by hret|].
  hk; [apply (retireInvoice_keep t K r)|]. intros ?.
  eapply (move_nearer (D := LrDiscipline) port passes_left receive_passes_le); [by apply arm_spec|cbn; lia].
Qed.

Lemma lr_whenQuoted_spec : triple t K (whenQuoted deps r) (nearer r 5) (λ _, K).
Proof.
  unfold whenQuoted. hk; [lr|]. intros hold. case_bool_decide.
  { hbind; [by apply arm_spec|]. intros won.
    apply (hoare_bind _ _ _ _ _ _ _ (λ _ w, K w ∧ (won = true → entered r LnReceive.armed w))); [apply _| |].
    - set (K' := λ w, K w ∧ (won = true → entered r LnReceive.armed w)).
      apply (hoare_conseq _ _ _ _ _ K' _ _ (λ _, K') _ (λ _, K')); [|done|done|by intros ? w _ [? _]].
      assert (Knows K' r) by apply _. destruct won; [|lr].
      apply (hoare_pre _ _ _ _ _ K'); [done|]. by apply (noteHeadroom_keep t K' r).
    - intros ?. hret. intros w _ [_ Hw]. by apply (nearer_entered (D := LrDiscipline) passes_left receive_passes_le r 5 LnReceive.armed); [|cbn; lia]. }
  hk; [eapply hoare_conseq; [apply (liveSend_spec t K r)|done|by intros ? ? _ [? _]|done]|]. intros [c|]; [apply armCoupled_spec|].
  hk; [lr|]. intros at_. apply (stopped t K r). case_match; [|lr]. hk; [apply (retireInvoice_keep t K r)|]. intros ?. lr.
Qed.
End quoted.
(** ** Funding *)

(** A row without a lease, or with one. *)
Lemma lr_row_ok_leased leased_at at_ (r : row) :
  0 ≤ leased_at → lr_row_ok r → lr_row_ok (leased "fund_started_at" leased_at at_ r).
Proof.
  intros Hat [[Cf Cp] [Pl Pp]]. unfold lr_row_ok, columns_ok, promises, leased. cbn.
  rewrite lookup_insert_eq. rewrite !(lookup_insert_ne (cols r) "fund_started_at") by done.
  split_and!; [|done..]. intros v [= <-]. eauto.
Qed.
Lemma lr_row_ok_released (r : row) :
  lr_row_ok r → lr_row_ok (mkRow (row_id r) (state r) (created_at r) (updated_at r) (quote r) (delete "fund_started_at" (cols r))).
Proof.
  intros [[Cf Cp] [Pl Pp]]. unfold lr_row_ok, columns_ok, promises. cbn.
  rewrite lookup_delete_eq. rewrite !(lookup_delete_ne (cols r) "fund_started_at") by done. by split_and!.
Qed.

Section selecting.
Context (t : nat) (K : W → Prop).

(** What a selection is worth is what it was made for. *)
Lemma selectFundingInputs_spec `{!Stable t K} sats :
  triple t K (selectFundingInputs deps sats)
    (λ inputs w, K w ∧ ∃ request cleared, fund_amountSats request = sats ∧
       selectLockupFunding request = Selected inputs cleared) (λ _, K).
Proof.
  unfold selectFundingInputs. hk; [lr|]. intros spendable. hk; [lr|]. intros at_. hk; [lr|]. intros pinned.
  case_match eqn:Hs; [|lr]. hret. intros w _ HKw. split; [done|]. eexists _, _. split; [|exact Hs]. done.
Qed.
End selecting.

Section funding.
Context (t : nat) (K : W → Prop).
Context (r : row) `{!Knows K r}.
#[local] Abbreviation own := (owns t (row_id r)).

(** The payment itself: failed without a doubt, it leaves the lease as it was. *)
Lemma fundLockup_spec stamp built :
  backed (quote r) → covenantScriptFromRow (receiveCovenantRowFor r) = Ok built →
  claimPacketStamp (claimPacket (quote r)) built.1 = Ok stamp →
  (∀ w, K w → entered r LnReceive.armed w) →
  triple t (λ w, K w ∧ own [] w)
    (fundLockup deps (row_id r) (lockupAddress (quote r)) (payoutSats (quote r)) stamp)
    (λ _, K) (λ e w, K w ∧ ∀ why, e = FundNotSubmittedError why → own [] w).
Proof.
  intros Hb Hbuilt Hstamp Harmed. unfold fundLockup.
  set (F := λ e w, K w ∧ ∀ why, e = FundNotSubmittedError why → own [] w).
  assert (∀ e, Stable t (F e)) as HF by (intros e; apply _).
  apply (hoare_bind _ _ _ _ _ _ _ (λ inputs w, (K w ∧ own [] w) ∧ ∃ request cleared,
    fund_amountSats request = payoutSats (quote r) ∧ selectLockupFunding request = Selected inputs cleared)); [exact HF| |].
  { apply (hoare_catch _ _ _ _ _ _ _ _ (λ _ w, K w ∧ own [] w)); [apply _|apply (selectFundingInputs_spec t (λ w, K w ∧ own [] w))|].
    intros e. apply hoare_throw; [apply _|]. intros w _ [? ?]. by split. }
  intros inputs. apply hoare_pure. intros (req & cleared & Hamount & Hsel).
  apply (hoare_catch _ _ _ _ _ _ _ _ (λ e w, K w ∧
    (lr_definite (WalletSend (row_id r) (lockupAddress (quote r)) (payoutSats (quote r)) stamp inputs) e → own [] w)));
    [apply _| |].
  - unfold request. eapply hoare_conseq; [eapply (hoare_act_definite port t K (row_id r) []); [apply _|done| |]|done| |].
    + intros w w' HKw Hd Hi. apply (forward w); [rewrite Hd; apply db_le_refl|done|done].
    + intros w Hi HKw. destruct (Harmed w HKw) as (r' & Hr' & Hq & Hs).
      pose proof (find_row_Some _ _ _ Hr') as [Hid _]. split.
      * exists r'. rewrite Hq, (covenant_same r r') by done. split_and!; try done; [|by eauto..].
        by eapply (lr_receive_closed past_quoted).
      * exists r', [WalletSend (row_id r) (lockupAddress (quote r)) (payoutSats (quote r)) stamp inputs].
        rewrite Hq. split_and!; [done|by eexists _, _|done].
    + by intros ? ? _ [? _].
    + by intros e w _ [? ?].
  - intros e. case_match eqn:Hlow; (apply hoare_throw; [apply _|]); intros w _ [HKw Ho]; split; try done; intros why Hw.
    + apply Ho. by left.
    + apply Ho. right. by exists why.
Qed.

(** Nothing submitted: the lease goes back, or the coupled row is closed. *)
Lemma submitFunding_spec coupled stamp built :
  backed (quote r) → covenantScriptFromRow (receiveCovenantRowFor r) = Ok built →
  claimPacketStamp (claimPacket (quote r)) built.1 = Ok stamp →
  (∀ w, K w → entered r LnReceive.armed w) →
  triple t (λ w, K w ∧ own [] w) (submitFunding deps r coupled stamp) (λ _, K) (λ _, K).
Proof.
  intros Hb Hbuilt Hstamp Harmed. unfold submitFunding.
  apply (hoare_catch _ _ _ _ _ _ _ _ (λ e w, K w ∧ ∀ why, e = FundNotSubmittedError why → own [] w)); [apply _| |].
  { apply (hoare_bind _ _ _ _ _ _ _ (λ _, K)); [apply _|by eapply fundLockup_spec|]. intros txid. by hret. }
  intros e. destruct e; try (apply hoare_throw; [apply _|by intros w _ [? _]]).
  apply (hoare_pre _ _ _ _ _ (λ w, K w ∧ own [] w)); [by intros w _ [HKw Ho]; split; [|by eapply Ho]|].
  destruct coupled.
  - apply (hoare_pre _ _ _ _ _ K); [by intros w _ [? _]|]. hk; [apply (retireInvoice_keep t K r)|]. intros ?.
    hbind; [apply lr_move; [apply _|right; split| |]|intros won; hret; by intros w _ [? _]].
    + intros c Hc. cbn. destruct (decide (_ = c)) as [<-|]; [done|]. destruct (decide _) as [<-|]; [|done].
      exfalso. apply Hc. left.
    + intros r' at_ _ _. by right.
    + by split; intros v.
    + apply lr_brings_refused.
  - apply (hoare_bind _ _ _ _ _ _ _ (λ _, K)); [apply _| |intros ?; lr].
    unfold releaseLease. apply (releaseFundLease_spec port t K); [apply _|done| |by intros []| |].
    + cbn. intros Hk. apply Hk. left.
    + intros w w' HKw Hd Hi. by apply (forward w).
    + intros w r' Hi _ Hr'. apply lr_row_ok_released. by apply (Inv_row_ok (D := LrDiscipline) w (row_id r) r').
Qed.

Lemma confirmFunding_spec looks txid giveUpAt : triple t K (confirmFunding looks r txid giveUpAt) (λ _, K) (λ _, K).
Proof.
  induction looks as [|n IH]; cbn [confirmFunding]; [lr|].
  hk; [lr|]. intros at_. case_match; [lr|]. hk; [apply (caught_keep port); [apply _|lr]|].
  intros [outpoints|e]; [|exact IH]. destruct (list_find _ outpoints) as [[]|]; [lr|exact IH].
Qed.

(** A lockup of ours, recorded with the move. *)
Lemma adopt_spec o : triple t K (transition (row_id r) LnReceive.armed LnReceive.funded (lockup_fields o)) (nearer r 4) (λ _, K).
Proof.
  eapply (move_nearer (D := LrDiscipline) port passes_left receive_passes_le); [apply lr_move|cbn; lia]; [apply _|by left| |].
  - by split; intros v.
  - split; [intros _; right; by eexists _, _, _|]. intros Hs. exfalso. unfold with_preimage in Hs. set_solver.
Qed.

Lemma awaitFunding_spec : triple t K (awaitFunding deps r) (nearer r 4) (λ _, K).
Proof.
  unfold awaitFunding. hbind; [apply (refundDeadlineSeconds_spec port); apply _|]. intros deadline.
  apply hoare_pure. intros _. hk; [lr|]. intros at_. apply (stopped t K r). case_match; [|lr].
  hbind; [by apply lr_move_plain|]. intros won. hret. by intros w _ [? _].
Qed.
End funding.

Section leasing.
Context (t : nat) (K : W → Prop) (r : row) `{!Knows K r}.
#[local] Abbreviation own := (owns t (row_id r)).

(** The lease: won on a row nobody has leased. *)
Lemma claimLease_spec :
  triple t K (claimLease (row_id r) LnReceive.armed)
    (λ won w, K w ∧ (won = true → entered r LnReceive.armed w ∧ own [] w)) (λ _, K).
Proof.
  apply (claimFundLease_spec port t K (entered r LnReceive.armed)); [apply _|apply _|done| |].
  - intros w la at_ Hi HKw Hla. split_and!; [by intros []| |].
    + intros r' Hr' _. apply lr_row_ok_leased; [done|]. by apply (Inv_row_ok (D := LrDiscipline) w (row_id r) r').
    + intros _ r' Hr' Hs Hfree.
      destruct (Inv_row_ok (D := LrDiscipline) w (row_id r) r' Hi Hr') as [[Cf _] _]. split.
      * intros [[v Hv]|Hp]; [|by rewrite Hs in Hp]. rewrite Hv in Hfree. destruct (Cf v Hv) as (z & -> & Hz).
        cbn in Hfree. apply Z.leb_le in Hfree. lia.
      * left. cbn. rewrite lookup_insert_eq. by eexists.
  - intros w w' r' la at_ Hi HKw Hr' Hs _ _ _ Hr''.
    destruct (known_row K r w r' _ HKw Hr') as (_ & Hq & _).
    eexists. split_and!; [exact Hr''|exact Hq|]. cbn. rewrite Hs. apply rtc_refl.
Qed.

Lemma coupledGates_spec c :
  couples (paymentHash (quote r)) c →
  triple t K (coupledGates deps r c) (λ passed w, K w ∧ (passed = true → backed (quote r))) (λ _, K).
Proof.
  intros Hc. assert (∀ reason, triple t K (bind (fail (row_id r) LnReceive.armed reason) (λ _, ret false))
    (λ passed w, K w ∧ (passed = true → backed (quote r))) (λ _, K)) as Hrefuse.
  { intros reason. hk; [lr|]. intros ?. by hret. }
  unfold coupledGates. case_bool_decide as Hs; cbn [negb]; [|apply Hrefuse].
  hbind; [apply (coupledRefundCovers_spec t K r)|]. intros covers. apply hoare_pure. intros Hcov.
  destruct covers; cbn [negb]; [|apply Hrefuse]. destruct (_ <? _) eqn:Hv; [apply Hrefuse|].
  hk; [lr|]. intros at_. case_match; [apply Hrefuse|]. hret. intros w _ HKw. split; [done|]. intros _.
  destruct Hcov as (deadline & Hd & Hcov); [done|]. right. exists c, deadline. apply Z.ltb_ge in Hv. done.
Qed.

Lemma funding_needs_expiry i : fu_htlcExpiresAt i = None → evaluateReceiveFunding i ≠ Ok Fund.
Proof. unfold evaluateReceiveFunding. intros ->. by case_match. Qed.

Lemma heldGates_spec held_until :
  (∀ E, held_until = Some E → held (paymentHash (quote r)) E) →
  triple t K (heldGates deps r held_until) (λ passed w, K w ∧ (passed = true → backed (quote r))) (λ _, K).
Proof.
  intros Hh. unfold heldGates. hbind; [apply (refundDeadlineSeconds_spec port); apply _|]. intros deadline.
  apply hoare_pure. intros Hd. hk; [lr|]. intros at_. destruct (evaluateReceiveFunding _) as [[|reason]|e] eqn:He; [|..|lr].
  - hret. intros w _ HKw. split; [done|]. intros _. left.
    destruct held_until as [E|]; [|by apply funding_needs_expiry in He]. exists E, deadline, at_. auto.
  - hk; [lr|]. intros ?. by hret.
Qed.

Lemma fundLeased_spec coupled :
  backed (quote r) →
  triple t (λ w, K w ∧ entered r LnReceive.armed w ∧ own [] w) (fundLeased deps r coupled) (nearer r 4) (λ _, K).
Proof.
  intros Hb. unfold fundLeased. set (K1 := λ w, K w ∧ entered r LnReceive.armed w).
  set (L := λ w, K1 w ∧ own [] w).
  apply (hoare_pre _ _ _ _ _ L); [by intros w _ (? & ? & ?)|].
  apply (hoare_seq _ _ _ _ _ _ _ (λ script w, L w ∧ covenantScriptFromRow (receiveCovenantRowFor r) = Ok script) _ _ (λ _, L));
    [apply _|by apply (hoare_lifted port t L); apply _|by intros e w _ [[? _] _]|].
  intros script. apply hoare_pure. intros Hscript.
  apply (hoare_seq _ _ _ _ _ _ _ (λ stamp w, L w ∧ claimPacketStamp (claimPacket (quote r)) script.1 = Ok stamp) _ _ (λ _, L));
    [apply _|by apply (hoare_lifted port t L); apply _|by intros e w _ [[? _] _]|].
  intros stamp. apply hoare_pure. intros Hstamp.
  apply (hoare_seq _ _ _ _ _ _ _ (λ _, K1) _ _ (λ _, K1)); [apply _| |by intros e w _ [? _]|].
  { eapply (submitFunding_spec t K1 r); [done|done|done|by intros w [_ ?]]. }
  intros [txid|]; [|by hret].
  apply (hoare_pre _ _ _ _ _ K); [by intros w _ [? _]|].
  hk; [destruct stamp; [hk; [lr|intros at_; lr]|lr]|]. intros ?. hk; [lr|]. intros started.
  hk; [apply (confirmFunding_spec t K r)|]. intros funded. apply (adopt_spec t K r).
Qed.

Lemma fundArmed_spec : triple t K (fundArmed deps r) (nearer r 4) (λ _, K).
Proof.
  unfold fundArmed. hbind; [by apply (hoare_asks port t K); apply _|]. intros fresh. apply hoare_pure. intros Hfresh.
  set (until := if bool_decide (hold_status fresh = armed) then hold_expiresAt fresh else None).
  assert (∀ E, until = Some E → held (paymentHash (quote r)) E) as Huntil.
  { intros E. unfold until. case_bool_decide; [|done]. by apply Hfresh. }
  apply (hoare_bind _ _ _ _ K _ _ (λ coupled w, K w ∧ ∀ c, coupled = Some c → couples (paymentHash (quote r)) c)); [apply _| |].
  { destruct until; [by hret|apply (liveSend_spec t K r)]. }
  intros coupled. apply hoare_pure. intros Hcoupled.
  apply (hoare_bind _ _ _ _ K _ _ (λ passed w, K w ∧ (passed = true → backed (quote r)))); [apply _| |].
  { destruct coupled as [c|]; [by apply coupledGates_spec, Hcoupled|by apply heldGates_spec]. }
  intros passed. apply hoare_pure. intros Hb. destruct passed; cbn [negb]; [|by hret].
  hbind; [apply claimLease_spec|]. intros won. rewrite if_negb.
  apply won_or_not; [|by hret]. by apply fundLeased_spec, Hb.
Qed.

Lemma whenArmed_spec : triple t K (whenArmed deps r) (nearer r 4) (λ _, K).
Proof.
  unfold whenArmed. hk; [lr|]. intros outpoints. case_match; [apply (adopt_spec t K r)|].
  case_match; [apply (awaitFunding_spec t K r)|apply fundArmed_spec].
Qed.
End leasing.

(** ** Watching the claim *)

Lemma rebuilt_ok (r : row) script : rebuilt r = Ok script → hex_encode script = pkScript (quote r).
Proof.
  unfold rebuilt, assertScriptMatchesRow. destruct (covenantScriptFromRow _) as [built|]; [|done]. cbn.
  unfold throw_if. case_bool_decide as Heq; [|done]. cbn. intros [= <-]. exact Heq.
Qed.

Section watching.
Context (t self : nat) (K : W → Prop) (r : row) `{!Knows K r}.

Lemma known_phase phase fact w :
  (∀ s s', receive_le s s' → phase s = true → phase s' = true) →
  K w → phase (state r) = true → fact (quote r) → in_phase phase (db w) (row_id r) fact.
Proof.
  intros Hmono HKw Hs Hf. destruct (knows_since w HKw) as (r' & Hr' & _ & Hq & _ & Hle & _).
  exists r'. rewrite Hq. eauto.
Qed.

(** The columns a preimage is read from. *)
Lemma preimage_of preimage :
  truthy (text_col r "preimage") = Some preimage → ∃ p, preimage = hex_encode p ∧ opens p (paymentHash (quote r)).
Proof.
  destruct (knows_ok (K := K) (r := r)) as [[_ Hp] _]. unfold text_col.
  destruct (cols r !! "preimage") as [v|] eqn:Hv; [|done]. destruct (Hp v eq_refl) as (p & -> & Ho).
  intros Ht. exists p. split; [|done]. by destruct (hex_encode p); cbn in Ht; simplify_eq.
Qed.

(** A move into [claimed], with the preimage. *)
Lemma lr_claimed_spec from p n :
  opens p (paymentHash (quote r)) → from ∈ [LnReceive.funded; LnReceive.refunding] → (1 < n)%nat →
  triple t K (transition (row_id r) from LnReceive.claimed (set_text "preimage" (hex_encode p))) (nearer r n) (λ _, K).
Proof.
  intros Hp Hfrom Hn. eapply (move_nearer (D := LrDiscipline) port passes_left receive_passes_le); [apply lr_move|cbn; lia];
    [apply _|by left| |].
  - split; [done|]. intros v [= <-]. by exists p.
  - split; intros _; [left|right; by eexists]. split; [unfold with_lockup; set_solver|].
    intros c Hc. cbn. rewrite decide_False; [done|]. intros <-. revert Hc. apply (bool_decide_unpack _). by vm_compute.
Qed.

Lemma revealToCovclaimd_spec :
  past_armed (state r) = true → triple t K (revealToCovclaimd deps r) (λ _, K) (λ _, K).
Proof.
  intros Hs. unfold revealToCovclaimd. destruct (claimPacket (quote r)) as [sealed|] eqn:Hc; [|lr]. case_match; [lr|].
  hk; [lr|]. intros built. case_match; [|lr]. hk; [|intros ?; hk; [lr|intros at_; lr]].
  apply (hoare_act port t K (Reveal _ _ _ _ _)); [apply _|done|]. intros w _ HKw.
  apply known_phase; [intros ??; by apply lr_receive_closed|done|done|done].
Qed.

Lemma lr_whenFunded_spec : state r = LnReceive.funded → triple t K (whenFunded sha256 deps self r) (nearer r 3) (λ _, K).
Proof.
  intros Hs. unfold whenFunded. hk; [lr|]. intros outputs. destruct (fundedOutpoint r) as [funded|]; [|apply (stopped t K r); lr].
  assert (triple t K (transition (row_id r) LnReceive.funded LnReceive.refunding []) (nearer r 3) (λ _, K)) as Hopen
    by (apply (advanced t K r); (done || (cbn; lia))).
  case_match.
  - hk; [apply (refundDeadlineReached_keep port); apply _|]. intros []; [exact Hopen|]. apply (stopped t K r).
    case_match; [|lr]. apply revealToCovclaimd_spec. by rewrite Hs.
  - hk; [lr|]. intros historical. hbind; [apply (lr_findPreimage_spec t self K r)|]. intros [p|]; apply hoare_pure; intros Hp.
    + apply lr_claimed_spec; [by apply Hp|left|lia].
    + hk; [apply (refundDeadlineReached_keep port); apply _|]. intros []; [exact Hopen|by hret].
Qed.

(** ** Settling *)

Lemma settleFailed_spec e : triple t K (settleFailed r e) (nearer r 1) (λ _, K).
Proof.
  unfold settleFailed. hk.
  { case_match; [|lr]. apply (hoare_try port t K); [apply _|hk; [lr|intros hold; lr]|intros ?; lr]. }
  intros []; [apply (advanced t K r); (done || (cbn; lia))|].
  case_match; [|apply (stopped t K r); lr]. hk; [lr|]. intros at_. case_match; [apply (stopped t K r); lr|lr].
Qed.

Lemma whenClaimed_spec : state r = LnReceive.claimed → triple t K (whenClaimed deps r) (nearer r 1) (λ _, K).
Proof.
  intros Hs. unfold whenClaimed.
  assert (triple t K (transition (row_id r) LnReceive.claimed LnReceive.settled []) (nearer r 1) (λ _, K)) as Hsettled
    by (apply (advanced t K r); (done || (cbn; lia))).
  destruct (truthy (text_col r "preimage")) as [preimage|] eqn:Hp; [|apply (stopped t K r); lr].
  apply preimage_of in Hp as (p & -> & Hp).
  hk; [case_match; [lr|]|].
  { eapply hoare_conseq; [apply (liveSend_spec t K r)|done|by intros ? ? _ [? _]|done]. }
  intros [c|]; [exact Hsettled|]. hk; [case_match; [hk; [lr|intros at_; lr]|lr]|]. intros ?.
  hk; [|intros [[]|e]; [exact Hsettled|apply settleFailed_spec]].
  apply (caught_keep port); [apply _|]. apply (hoare_act port t K (SettleHold _ _)); [apply _|done|].
  intros w _ HKw. apply known_phase; [intros ??; by apply lr_receive_closed|done|by rewrite Hs|by exists p].
Qed.

(** ** Refunding *)

Lemma refund_spec outputs :
  past_funding (state r) = true → triple t K (refund r outputs) (λ _, K) (λ _, K).
Proof.
  intros Hs. unfold refund. hbind; [by apply (hoare_lifted port t K); apply _|]. intros script. apply hoare_pure. intros Hsc.
  hbind; [by apply (hoare_lifted port t K); apply _|]. intros dest. apply hoare_pure. intros Hd.
  apply (hoare_act port t K (RefundLockup _ _ _ _)); [apply _|done|]. intros w _ HKw.
  apply known_phase; [intros ??; by apply lr_receive_closed|done|done|]. split; [by apply rebuilt_ok|done].
Qed.

Context (refunding : state r = LnReceive.refunding).

Lemma in_refunding fact w : K w → fact (quote r) → in_phase past_refunding (db w) (row_id r) fact.
Proof. intros HKw Hf. apply known_phase; [intros ??; by apply lr_receive_closed|done|by rewrite refunding|done]. Qed.

Lemma finalizePendingRefund_spec : triple t K (finalizePendingRefund deps r) (λ _, K) (λ _, K).
Proof.
  unfold finalizePendingRefund. case_match; [|lr].
  hbind; [by apply (hoare_lifted port t K); apply _|]. intros script. apply hoare_pure. intros Hsc.
  apply (hoare_act port t K (FinalizePendingRefund _ _)); [apply _|done|]. intros w _ HKw.
  apply in_refunding; [done|by apply rebuilt_ok].
Qed.

Lemma converseRefund_spec n output reply : triple t K (converseRefund n (row_id r) output reply) (λ _, K) (λ _, K).
Proof.
  revert reply. induction n as [|n IH]; intros [record|step]; cbn [converseRefund]; try lr.
  hk; [lr|]. intros ?. hk; [|intros next; apply IH].
  apply (hoare_act port t K (ResumeUnrolled _ _)); [apply _|done|]. intros w _ HKw. by apply in_refunding.
Qed.

Lemma beforeE_spec : triple t K (beforeE r) (λ _, K) (λ _, K).
Proof. unfold beforeE. case_match; [hk; [lr|intros at_; lr]|lr]. Qed.

Lemma refunded_spec f n :
  clears_nothing f = true → plain f = true → (0 < n)%nat →
  triple t K (transition (row_id r) LnReceive.refunding LnReceive.refunded f) (nearer r n) (λ _, K).
Proof. intros. by apply (advanced t K r). Qed.

Lemma refundUnrolledRow_spec unrolled : triple t K (refundUnrolledRow deps r unrolled) (nearer r 2) (λ _, K).
Proof.
  unfold refundUnrolledRow. hk; [case_match; [hk; [lr|intros record; lr]|lr]|]. intros record. hk.
  { unfold refundUnrolled. hk; [lr|]. intros ?. hk; [|intros first; apply converseRefund_spec].
    apply (hoare_act port t K (RefundUnrolled _ _ _)); [apply _|done|]. intros w _ HKw. by apply in_refunding. }
  intros step. hk; [apply beforeE_spec|]. intros useful. unfold applyUnrolledSpendStep.
  cbn [store_patch store_transition store_fail rowStore].
  destruct step; cbn zeta; [by hret|case_match; [by hret|apply (stopped t K r); lr]..| |].
  - hk; [case_bool_decide; lr|intros ?; by hret].
  - hk; [case_bool_decide; lr|]. intros ?. apply refunded_spec; [done|done|lia].
Qed.

Lemma whenGone_spec : triple t K (whenGone deps r) (nearer r 2) (λ _, K).
Proof.
  unfold whenGone. hk; [apply finalizePendingRefund_spec|]. intros own. case_match; [apply refunded_spec; [done|done|lia]|].
  hk; [lr|]. intros at_. case_match; [by hret|]. hk; [apply beforeE_spec|]. intros []; [by hret|apply (stopped t K r); lr].
Qed.

Lemma lr_pushRefund_spec outputs : triple t K (pushRefund r outputs) (nearer r 2) (λ _, K).
Proof.
  unfold pushRefund. hk; [apply (caught_keep port); [apply _|apply refund_spec; by rewrite refunding]|].
  intros [txid|e]; [apply refunded_spec; [done|done|lia]|]. hk; [lr|]. intros at_.
  case_match; [apply (stopped t K r); lr|lr].
Qed.

Lemma whenRefunding_spec : triple t K (whenRefunding sha256 deps self r) (nearer r 2) (λ _, K).
Proof.
  unfold whenRefunding. destruct (fundedOutpoint r) as [funded|]; [|apply (stopped t K r); lr].
  hk; [lr|]. intros historical.
  hbind; [apply (lr_findPreimage_spec t self K r)|]. intros [p|]; apply hoare_pure; intros Hp.
  { apply lr_claimed_spec; [by apply Hp|right; left|lia]. }
  assert (triple t K (bind (asks (FindLockups (pkScript (quote r)))) (λ outputs,
    if existsb (is_output funded) outputs then pushRefund r outputs else whenGone deps r)) (nearer r 2) (λ _, K)) as Hrest.
  { hk; [lr|]. intros outputs. case_match; [apply lr_pushRefund_spec|apply whenGone_spec]. }
  repeat case_match; try exact Hrest. apply refundUnrolledRow_spec.
Qed.
End watching.

(** ** Ticks, and what an operator asks for *)

Section ticks.
Context (t self : nat).
#[local] Abbreviation step := (step sha256 deps self).

Lemma lr_step_spec K r : Knows K r → triple t K (step r) (nearer r (passes_left (state r))) (λ _, K).
Proof.
  intros HKn. unfold LnReceiveService.step. destruct (state r) eqn:Hs; try by hret.
  - apply (lr_whenQuoted_spec t K r).
  - apply (whenArmed_spec t K r).
  - by apply (lr_whenFunded_spec t self K r).
  - by apply (whenClaimed_spec t K r).
  - by apply (whenRefunding_spec t self K r).
Qed.

Lemma lr_tick_safe fuel i : safe port t (tick sha256 deps self fuel i).
Proof.
  apply (safe_guardedTick port). intros r Hr. eapply hoare_conseq; [by apply lr_step_spec, known_since|done..].
Qed.

(** The loop of a tick ends within six passes. *)
Lemma lr_drive_ends i n :
  (6 ≤ n)%nat → triple t (λ _, True) (drive n i step) (λ ended _, ended = true) (λ _ _, True).
Proof.
  intros Hn. apply (drive_ends port t passes_left i).
  - exact receive_passes_le.
  - intros r Hr. eapply hoare_conseq; [by apply lr_step_spec, known_since|done..].
  - intros s. destruct s; cbn; lia.
Qed.

Lemma lr_held_off_safe i : safe port t (held_off self i).
Proof.
  unfold held_off. hseq; [by apply (asks_keep port t (λ _, True)); apply _|done|]. intros []; [by hret|].
  apply (hoare_memory port t (λ _, True)); [apply _|]. intros w w' b [_ ->]. split_and!; reflexivity.
Qed.

Lemma lr_tickAll_safe fuel : safe port t (tickAll sha256 deps self fuel).
Proof.
  unfold tickAll. hseq; [by apply (live_rows_safe port)|done|]. intros l.
  apply (safe_sweep port); intros i; [apply lr_held_off_safe|apply lr_tick_safe].
Qed.

(** Past the operator's gate the lockup was taken for funded, or the row is stuck. *)
Lemma refund_gate s :
  negb (bool_decide (s ∈ exposed_states LnReceiveMachine)) && negb (bool_decide (s = LnReceive.stuck)) = false →
  past_funding s = true.
Proof. by destruct s; vm_compute. Qed.

Lemma refundNow_safe i : safe port t (refundNow i).
Proof.
  unfold refundNow.
  hseq; [by apply (hoare_get port t (λ _, True) i (λ _, True)); [apply _|]|done|]. intros r.
  apply (hoare_pre _ _ _ _ _ (λ w, since (row_id r) r w ∧ row_ok r ∧ row_id r = i)); [intros w _ (_ & ? & ? & <- & _); done|].
  apply hoare_pure. intros [Hr <-]. pose proof (known_since r Hr) as HKn.
  destruct (_ && _) eqn:Hgate; [by apply hoare_throw; [apply _|]|].
  eapply hoare_conseq with (P' := λ _, since (row_id r) r) (F' := λ _, since (row_id r) r); [|done..].
  hk; [lr|]. intros [|o outputs]; [lr|]. hk; [|intros txid; hk; [lr|intros ?; lr]].
  apply refund_spec; [apply _|]. by apply refund_gate.
Qed.

Lemma lr_insertQuote_safe i q : safe port t (insertQuote i q).
Proof.
  unfold insertQuote.
  hseq; [by apply (hoare_now port t (λ _, True) (λ _ _, True)); apply _|done|]. intros at_. hseq.
  { apply (hoare_sql port t (λ _, True) _ (λ _ _, True)); try apply _; [|done]. intros w _ _.
    split; [by split; intros v Hv|]. split; intros Hs; exfalso; revert Hs; unfold with_lockup, with_preimage; set_solver. }
  { done. }
  intros n. hseq; [by apply (recordEvent_keep port t (λ _, True)); apply _|done|]. intros ?. apply (safe_get port).
Qed.
End ticks.
End lr_discipline.

