(* ===== verification/LnReceiveSafety.v ===== *)
(** * The guarantees of the Lightning receive service

    [lr_reachable] is every point of every run of any number of instances of
    [ReceiveSwapService]: their ticks, sweeps, operator refunds and inserted
    quotes interleaved event by event, with crashes and restarts. The theorems
    say what licenses the one payment into a lockup, each settlement and each
    refund, what the rows promise, that a tick ends, and that a run of the
    service is a run of the declared lifecycle; and that a worker whose view of
    a row predates the funding lease can close a swap that is being funded. *)
From S2P Require Import Prelude Timelocks StateMachine SendPolicy ReceivePolicy Prog SwapDb EvmRow Store Corridor World Lockup LockupFunding UnrolledSpend.
From S2P Require Import BaseStore LnReceiveStore Covenant LnReceiveService Discipline Rules CorridorRules Refinement LnReceiveProof.
#[local] Open Scope Z_scope.

#[local] Abbreviation row := ReceiveRow.
#[local] Abbreviation W := (World LnReceive.state ReceiveQuote LnReceiveEffect).
#[local] Abbreviation event := (evt LnReceive.state ReceiveQuote LnReceiveEffect read).
#[local] Abbreviation lease := (Lease (S := LnReceive.state) "fund_started_at").

Section reachable.
Context (sha256 : list Z → list Z) (held : string → Z → Prop) (couples : string → CoupledSendRow → Prop).
Context (published : list Z → Prop).
Context {arkade : Arkade} {packets : ClaimPackets} {recourse : ReceiveRecourse} {json : SpendJson}.
Context (deps : LnReceiveDeps).

(** What an instance may start. *)
Inductive lr_program : prog event unit → Prop :=
  | lr_tick self fuel i : lr_program (forget (tick sha256 deps self fuel i))
  | lr_sweep self fuel : lr_program (forget (tickAll sha256 deps self fuel))
  | lr_refund i : lr_program (forget (refundNow i))
  | lr_quote i q : lr_program (forget (insertQuote i q))
  | lr_process self : lr_program (trigger (Restart self)).

#[local] Abbreviation ports := (lr_port sha256 held couples published).
#[local] Abbreviation runs := (rtc (cstep (handle lease ports) lr_program)).
Definition lr_reachable (c : W * list (nat * prog event unit)) : Prop := runs (empty_world, []) c.

#[local] Abbreviation D := (LrDiscipline sha256 held couples published deps).
#[local] Abbreviation Inv := (Discipline.Inv (D := D)).
#[local] Abbreviation Rely := (Discipline.Rely (D := D)).

Lemma lr_program_safe t p :
  lr_program p → ∀ w, Inv w → wp (handle lease ports) Inv Rely t p (λ _ _, True) w.
Proof.
  intros Hp w Hi. destruct Hp; [apply (forget_safe (D := D) ports); [|done]..|by apply (restart_safe (D := D) ports)].
  - apply lr_tick_safe.
  - apply lr_tickAll_safe.
  - apply refundNow_safe.
  - apply lr_insertQuote_safe.
Qed.

Lemma lr_sound c : lr_reachable c → sound (handle lease ports) Inv Rely c.
Proof. apply (instances_sound (D := D) ports _ lr_program_safe). Qed.
Lemma lr_reachable_inv c : lr_reachable c → Inv c.1.
Proof. intros Hc. by apply lr_sound in Hc as (_ & ? & _). Qed.

(** ** What leaves *)

(** At most one element passes a test. *)
Lemma filter_single {A} (P : A → Prop) `{∀ a, Decision (P a)} l x y :
  x ∈ l → P x → filter P l `prefix_of` [y] → filter P l = [x].
Proof.
  intros Hin Hx [k Hk]. assert (x ∈ filter P l) as Hf by by apply list_elem_of_filter.
  destruct (filter P l) as [|z l']; [by apply not_elem_of_nil in Hf|].
  injection Hk as <- Hk. symmetry in Hk. apply app_eq_nil in Hk as [-> _]. apply list_elem_of_singleton in Hf. by subst.
Qed.
Lemma filter_before {A} (P : A → Prop) `{∀ a, Decision (P a)} l x y :
  P x → filter P (l ++ [x]) `prefix_of` [y] → filter P l = [].
Proof.
  intros Hx [k Hk]. rewrite filter_app, filter_cons_True in Hk by done.
  destruct (filter P l) as [|z l']; [done|]. exfalso. injection Hk as _ Hk. by destruct l'.
Qed.

(** The swap a payment out of the wallet funds. *)
Definition pays_out (a : LnReceiveEffect) : option string :=
  match a with WalletSend i _ _ _ _ => Some i | _ => None end.

(** C8: the solver's bitcoin only enters a lockup for a swap that was armed, at
    most once for each swap however many workers race and crash, at the swap's
    own address and for its payout; while the payer's payment was held past
    every deadline the policy asks for, or the client's own send lockup covered
    the payout; out of coins selected for exactly this amount; and stamped as
    the swap's packet and the covenant built from its row say. The swap is then
    leased, or past the race for the lease. *)
Theorem inbound_lockup_is_funded_once c i address sats stamp selected :
  lr_reachable c → WalletSend i address sats stamp selected ∈ sent c.1 →
  filter (λ a, pays_out a = Some i) (sent c.1) = [WalletSend i address sats stamp selected] ∧
  ∃ r, find_row (db c.1) i = Some r ∧ state r ≠ LnReceive.quoted ∧
    address = lockupAddress (quote r) ∧ sats = payoutSats (quote r) ∧
    backed held couples deps (quote r) ∧
    (∃ request cleared, fund_amountSats request = sats ∧ selectLockupFunding request = Selected selected cleared) ∧
    (∃ built, covenantScriptFromRow (receiveCovenantRowFor r) = Ok built ∧
       claimPacketStamp (claimPacket (quote r)) built.1 = Ok stamp) ∧
    (is_Some (cols r !! "fund_started_at") ∨ (state r ∉ [LnReceive.quoted; LnReceive.armed])).
Proof.
  intros Hc Hin. pose proof (lr_reachable_inv c Hc) as (_ & _ & He & Hg & Ho). destruct (Ho i) as [Hn|([t Ht] & r0 & l & _ & (st & sel & ->) & Hpre)].
  { exfalso. apply (not_elem_of_nil (WalletSend i address sats stamp selected)). rewrite <- Hn.
    by apply list_elem_of_filter. }
  destruct (He _ Hin) as (r & Hr & Hs & Hb & -> & -> & Hsel & Hst). split; [by eapply filter_single; [exact Hin|reflexivity|exact Hpre]|].
  destruct (Hg _ _ Ht) as (r' & Hr' & Ha). rewrite Hr in Hr'. injection Hr' as <-.
  exists r. split_and!; try done; [by intros Hq; rewrite Hq in Hs|].
  destruct Ha as [?|Hp%bool_decide_eq_true]; [by left|by right].
Qed.

(** C9: the payer's payment is only settled with a preimage that was published,
    in the claim of a lockup or in the witness of its spend, and that hashes to
    the swap's payment hash; for a swap that is past the entry into [claimed]. *)
Theorem inbound_settles_what_was_claimed c i preimage :
  lr_reachable c → SettleHold i preimage ∈ sent c.1 →
  ∃ r p, find_row (db c.1) i = Some r ∧ state r ∈ [LnReceive.claimed; LnReceive.settled; LnReceive.stuck] ∧
    preimage = hex_encode p ∧ published p ∧ hex_encode (sha256 p) = paymentHash (quote r).
Proof.
  intros Hc Hin. pose proof (lr_reachable_inv c Hc) as (_ & _ & He & _).
  destruct (He _ Hin) as (r & Hr & Hs%bool_decide_eq_true & p & Hp & Hpub & Hh). by exists r, p.
Qed.

(** C10: the solver only takes back a lockup of a swap in [funded] or after it,
    whose row then has the lockup's transaction, output and value on disk, or of
    a parked one, whether or not it was parked from [funded]; never while the
    swap is quoted, armed or refused: by a transaction that spends the script
    the row derives to the solver's own refund script. The operations on an
    unrolled output, and the completion of a refund, are asked for only past the
    entry into [refunding]. *)
Theorem inbound_refunds_are_licensed c :
  lr_reachable c →
  (∀ i outputs script destination, RefundLockup i outputs script destination ∈ sent c.1 →
     ∃ r, find_row (db c.1) i = Some r ∧ (state r ∉ [LnReceive.quoted; LnReceive.armed; LnReceive.refused]) ∧
       (state r = LnReceive.stuck ∨
          ∃ txid vout value, cols r !! "arkade_lockup_txid" = Some (VText txid) ∧
            cols r !! "arkade_lockup_vout" = Some (VInt vout) ∧ cols r !! "arkade_lockup_value" = Some (VInt value)) ∧
       hex_encode script = pkScript (quote r) ∧ hex_decode (solverRefundPkScript (quote r)) = Some destination) ∧
  (∀ a i, a ∈ sent c.1 →
     (∃ script, a = FinalizePendingRefund i script) ∨ (∃ output record, a = RefundUnrolled i output record) ∨
       (∃ output, a = ResumeUnrolled i output) →
     ∃ r, find_row (db c.1) i = Some r ∧
       state r ∈ [LnReceive.refunding; LnReceive.refunded; LnReceive.claimed; LnReceive.settled; LnReceive.stuck]).
Proof.
  intros Hc. pose proof (lr_reachable_inv c Hc) as (_ & Hok & He & _). split.
  - intros i outputs script destination Hin.
    destruct (He _ Hin) as (r & Hr & Hs%bool_decide_eq_true & Hsc & Hd). exists r.
    destruct (Hok i r Hr) as [_ [Hl _]]. split_and!; [done..| |done|].
    { destruct (decide (state r = LnReceive.stuck)) as [|Hn]; [by left|right]. apply Hl.
      destruct (state r); try done; [..|exfalso; apply Hs]; unfold with_lockup; set_solver. }
    unfold hexBytes in Hd. destruct (hex_decode _); congruence.
  - intros a i Hin Ha.
    assert (∃ fact, in_phase past_refunding (db c.1) i fact) as (fact & r & Hr & Hs%bool_decide_eq_true & _).
    { specialize (He _ Hin). destruct Ha as [[? ->]|[(? & ? & ->)|[? ->]]]; eexists; exact He. }
    by exists r.
Qed.

(** ** What the rows promise *)

(** What the states of a receive row promise is in the row: funded, claimed,
    refunding and their outcomes, the outpoint and value of the lockup; claimed
    and settled, a published preimage of the payment hash. A preimage is never
    anything else, and no two swaps that are not refused share a hash. *)
Theorem inbound_rows_keep_their_promises c :
  lr_reachable c →
  (∀ i r, find_row (db c.1) i = Some r →
     (state r ∈ with_lockup → ∃ txid vout value, cols r !! "arkade_lockup_txid" = Some (VText txid) ∧
        cols r !! "arkade_lockup_vout" = Some (VInt vout) ∧ cols r !! "arkade_lockup_value" = Some (VInt value)) ∧
     (state r ∈ with_preimage → is_Some (cols r !! "preimage")) ∧
     (∀ v, cols r !! "preimage" = Some v → ∃ p, v = VText (hex_encode p) ∧ published p ∧
        hex_encode (sha256 p) = paymentHash (quote r))) ∧
  (∀ r1 r2, r1 ∈ rows (db c.1) → r2 ∈ rows (db c.1) →
     state r1 ≠ LnReceive.refused → state r2 ≠ LnReceive.refused →
     paymentHash (quote r1) = paymentHash (quote r2) → r1 = r2).
Proof.
  intros Hc. destruct (lr_reachable_inv c Hc) as (Hwf & Hok & _). split.
  - intros i r Hr. destruct (Hok i r Hr) as [[_ Hp] [Hl Hs]]. split_and!; [exact Hl|exact Hs|exact Hp].
  - intros r1 r2 H1 H2 S1 S2 Hh. by eapply (live_hash_unique state_refused).
Qed.

(** A tick ends: started at any moment of any run, whatever the other
    instances do meanwhile and however the backends answer, its loop is over
    within six passes. *)
Theorem inbound_tick_ends c t self i n :
  lr_reachable c → (6 ≤ n)%nat →
  wp (handle lease ports) Inv Rely t (drive n i (step sha256 deps self)) (λ r _, r ≠ Ok false) c.1.
Proof.
  intros Hc Hn. eapply wp_mono; [|by apply (lr_drive_ends sha256 held couples published deps t self i n Hn);
    [apply lr_reachable_inv|]].
  intros [ended|e] w _; cbn; [by intros ->|done].
Qed.

(** ** The specification the service refines *)

Definition in_phase_of (m : gmap string LnReceive.state) (i : string) (phase : LnReceive.state → bool) : Prop :=
  ∃ s, m !! i = Some s ∧ phase s = true.

(** What the specification lets leave: one payment for a swap that was armed,
    and the rest past the entry into its state. *)
Definition lr_licensed (m : gmap string LnReceive.state) (l : list LnReceiveEffect) (a : LnReceiveEffect) : Prop :=
  match a with
  | WalletSend i _ _ _ _ => in_phase_of m i past_quoted ∧ filter (λ a, pays_out a = Some i) l = []
  | RefundLockup i _ _ _ => in_phase_of m i past_funding
  | FinalizePendingRefund i _ | RefundUnrolled i _ _ | ResumeUnrolled i _ => in_phase_of m i past_refunding
  | SettleHold i _ => in_phase_of m i past_claimed
  | Reveal i _ _ _ _ => in_phase_of m i past_armed
  | CancelHold _ => True
  end.
Definition lr_spec := spec_step LnReceive.quoted receive_edge lr_licensed.

Lemma in_phase_spec (w : W) i phase fact : in_phase phase (db w) i fact → in_phase_of (phases (db w)) i phase.
Proof. intros (r & Hr & Hs & _). exists (state r). by rewrite phases_lookup, Hr. Qed.

Lemma lr_act_licensed (w : W) a : Inv (with_sent w a) → lr_licensed (phases (db w)) (sent w) a.
Proof.
  intros (_ & _ & He & _ & Ho). specialize (He a). cbn [db sent with_sent] in *.
  assert (lr_effect_ok sha256 held couples published deps (db w) a) as Ha by (apply He, elem_of_app; right; left).
  destruct a; cbn in Ha |- *; try (by eapply in_phase_spec); [|done].
  destruct Ha as (r & Hr & Hs & _). split; [exists (state r); by rewrite phases_lookup, Hr|].
  destruct (Ho i) as [Hn|(_ & r0 & l & _ & (st & sel & ->) & Hpre)].
  - exfalso. apply (not_elem_of_nil (WalletSend i address sats stamp selected)). rewrite <- Hn.
    apply list_elem_of_filter. split; [done|]. apply elem_of_app. right. left.
  - exact (filter_before (λ a, pays_out a = Some i) (sent w) (WalletSend i address sats stamp selected) _ eq_refl Hpre).
Qed.

Lemma lr_row_reached (r : row) :
  lr_row_ok sha256 published r → receive_le LnReceive.quoted (state r).
Proof.
  intros _. pose proof (edges_path (edges LnReceiveMachine)) as Hpath. unfold receive_edge.
  destruct (state r);
    [apply (Hpath [])|apply (Hpath [LnReceive.armed])|apply (Hpath [LnReceive.armed; LnReceive.funded])
    |apply (Hpath [LnReceive.armed; LnReceive.funded; LnReceive.claimed])
    |apply (Hpath [LnReceive.armed; LnReceive.funded; LnReceive.refunding])
    |apply (Hpath [LnReceive.armed; LnReceive.funded; LnReceive.claimed; LnReceive.settled])
    |apply (Hpath [LnReceive.armed; LnReceive.funded; LnReceive.refunding; LnReceive.refunded])
    |apply (Hpath [LnReceive.refused])
    |apply (Hpath [LnReceive.armed; LnReceive.stuck])]; vm_compute; reflexivity.
Qed.

(** C18: the service refines the lifecycle the machine declares: seen as the
    phases of its swaps and the ledger of its requests, every run of its
    instances is a run of the specification, in which swaps are quoted, move
    along the machine's edges, and pay — once — settle, reveal and refund only
    in phases that license it. Nothing leaves a settled, refunded or refused
    swap. *)
Theorem inbound_refines_lifecycle c c' :
  lr_reachable c → runs c c' →
  rtc lr_spec (spec_of c.1) (spec_of c'.1) ∧
  ∀ i s, (spec_of c.1).1 !! i = Some s → edges LnReceiveMachine s = [] → (spec_of c'.1).1 !! i = Some s.
Proof.
  intros Hc Hr.
  pose proof (simulation (D := D) ports lr_program receive_edge lr_licensed
    (λ s s' H, H) lr_row_reached lr_act_licensed lr_program_safe c c' (lr_sound c Hc) Hr) as Hsim.
  split; [exact Hsim|]. intros i s Hi Ht.
  pose proof (instances_ordered (D := D) ports _ lr_program_safe c c' Hc Hr) as [Hd _].
  unfold spec_of in *. cbn [fst] in *. rewrite phases_lookup in *. apply fmap_Some in Hi as (r & Hf & ->).
  destruct (Hd _ _ Hf) as (r' & -> & _ & _ & _ & Hle & _). cbn. f_equal.
  exact (edges_terminal (edges LnReceiveMachine) _ _ Hle Ht).
Qed.

(** Nothing is done any more for a swap that was refused. *)
Lemma refused_is_final c c' r i :
  lr_reachable c → runs c c' → find_row (db c.1) i = Some r → state r = LnReceive.refused →
  (state <$> find_row (db c'.1) i) = Some LnReceive.refused ∧
  ∀ a, a ∈ sent c'.1 → (∀ preimage, a ≠ SettleHold i preimage) ∧
    (∀ outputs script destination, a ≠ RefundLockup i outputs script destination).
Proof.
  intros Hc Hr Hf Hs. assert (lr_reachable c') as Hc' by (unfold lr_reachable; by etransitivity).
  pose proof (lr_reachable_inv c' Hc') as (_ & _ & He & _).
  pose proof (instances_ordered (D := D) ports _ lr_program_safe c c' Hc Hr) as [Hd _].
  destruct (Hd _ _ Hf) as (r' & Hf' & _ & _ & _ & Hle & _). rewrite Hs in Hle.
  pose proof (edges_terminal (edges LnReceiveMachine) _ _ Hle eq_refl) as Hs'. rewrite Hf'. cbn. split; [by rewrite Hs'|].
  intros a Hin. specialize (He _ Hin).
  split; [intros preimage ->|intros outputs script destination ->]; destruct He as (r1 & Hr1 & Hp & _);
    rewrite Hf' in Hr1; injection Hr1 as <-; by rewrite Hs' in Hp.
Qed.
End reachable.

(** ** A run *)

Section run.
(** The second byte of a hash tells the swaps apart. *)
Definition rr_sha256 : list Z → list Z := λ _, replicate 32 171.
Definition rr_hash (n : nat) : string := hex_encode (replicate 32 (170 + Z.of_nat n)).
Definition rr_script (n : nat) : list Z := 81 :: 32 :: replicate 32 (Z.of_nat n).
Definition rr_held (h : string) (E : Z) : Prop := E = 1701000000.
Definition rr_couples (h : string) (c : CoupledSendRow) : Prop := False.
Definition rr_published (p : list Z) : Prop := p = [1; 2; 3].
Definition rr_p2tr : list Z := 81 :: 32 :: replicate 32 9.

#[local] Instance rr_arkade : Arkade := {
  arkAddressDecode s := Some rr_p2tr;
  arkAddressServer _ := replicate 32 187;
  vhtlcScript p := Some (rr_script (Z.to_nat (hd 0 (preimageHash p) - 170)));
  vhtlcAddress _ hrp _ := hrp +:+ "1swap";
  ripemd160 bytes := take 20 bytes;
}.
#[local] Instance rr_packets : ClaimPackets := {
  claimPacketShape _ := Ok ciphertext;
  appendArkadeScript body _ := Ok body;
  nonInteractiveClaimArkadeScript _ := None;
  encodeProgram _ := [];
  base64Encode _ := "";
}.
#[local] Instance rr_recourse : ReceiveRecourse := λ _, "exit".
#[local] Instance rr_json : SpendJson := {
  stringifyRecord _ := "{}";
  parseRecord _ := Err (Thrown "no record");
}.

Definition rr_deps : LnReceiveDeps := mkLnReceiveDeps true true false false false true false false 330 330 0.

Definition rr_swap (n : nat) : ReceiveQuote :=
  mkReceiveQuote (rr_hash n) 50500 50000 "lnbc1" None None 1700003600 "ark1client" (hex_encode rr_p2tr)
    (hex_encode (replicate 32 1)) None 1700010000 (hex_encode (replicate 32 2)) (hex_encode (replicate 32 3))
    512 604672 1024 (hex_encode (replicate 32 4)) (hex_encode (rr_script n)) ("ark1" +:+ hex_encode (rr_script n))
    (hex_encode rr_p2tr) (Some true) None.
Definition rr_coin : FundingCandidate := mkCoin "coin" 0 100000 (Some 1800000000000) false.

(** Whether the wallet was made to pay into a script. *)
Definition paid_into (script : string) (w : W) : bool :=
  existsb (λ a, match a with WalletSend _ address _ _ _ => bool_decide (address = "ark1" +:+ script) | _ => false end) (sent w).

(** A payer's payment is held on both hashes. The client claims the first lockup
    once [claimed]; the indexer shows a lockup once [indexed]. *)
Definition rr_oracle (indexed claimed : bool) (w : W) X (q : read X) : option X :=
  match q in read X return option X with
  | GetHoldState _ => Some (mkHold armed (Some 1701000000))
  | LiveSend _ => Some None
  | FindLockups script =>
      Some (if paid_into script w && negb (claimed && bool_decide (script = hex_encode (rr_script 1)))
            then [mkOutput "fundtx" 0 50000 false None] else [])
  | FindLockupOutpoints script =>
      Some (if indexed && paid_into script w then [mkReceiveOutpoint (mkLockupOutpoint "fundtx" 0 50000 false) false] else [])
  | FindClaimPreimage _ h => Some (if claimed && bool_decide (h = rr_hash 1) then Some [1; 2; 3] else None)
  | FindSpendWitness _ _ _ => Some None
  | SpendableVtxos => Some [rr_coin]
  | PinnedOutpoints => Some ∅
  | ChainTip => Some 800000
  | ShouldSkipTick _ => Some false
  end.

Definition rr_reply (a : LnReceiveEffect) : Reply a :=
  match a return Reply a with
  | WalletSend _ _ _ _ _ => "fundtx"
  | RefundLockup _ _ _ _ => "refundtx"
  | FinalizePendingRefund _ _ => None
  | RefundUnrolled _ _ _ | ResumeUnrolled _ _ => inr waiting
  | SettleHold _ _ | CancelHold _ | Reveal _ _ _ _ _ => tt
  end.

#[local] Abbreviation ports := (lr_port rr_sha256 rr_held rr_couples rr_published).
#[local] Abbreviation reachable := (lr_reachable rr_sha256 rr_held rr_couples rr_published rr_deps).
#[local] Abbreviation program := (lr_program rr_sha256 rr_deps).
#[local] Abbreviation answering t time indexed claimed := (served lease time (rr_oracle indexed claimed) rr_reply t).

Lemma rr_answering_handle t time indexed claimed :
  (0 ≤ time)%Z → ∀ X (e : event X) w x w',
  answering t time indexed claimed X e w = Some (x, w') → handle lease ports t X e w w' x.
Proof.
  intros Htime X e w x w'. apply served_handle; [done| |by intros []].
  clear. intros w X q x Hx. destruct q; cbn in Hx |- *; simplify_eq; try done.
  - cbn. by intros E _ [= <-].
  - case_match eqn:Hc; intros p; [|done]. intros [= <-]. apply andb_true_iff in Hc as [_ ->%bool_decide_eq_true].
    split; [done|]. by vm_compute.
Qed.

Definition lr_session (time : Z) (indexed claimed : bool) (p : prog event unit) (w : W) : W :=
  match play (answering 0 time indexed claimed) p w with
  | Some (_, w') => w'
  | None => w
  end.

Lemma lr_session_reachable time indexed claimed p w :
  (0 ≤ time)%Z → program p → reachable (w, []) → reachable (lr_session time indexed claimed p w, []).
Proof.
  intros Htime Hp Hw. unfold lr_session. case_match eqn:Hplay; [|done]. case_match; subst.
  unfold lr_reachable in *. etransitivity; [exact Hw|].
  eapply (play_session _ _ 0); [by apply rr_answering_handle|exact Hp|exact Hplay].
Qed.

(** Two swaps quoted and funded; the first claimed and settled, the second taken
    back once its deadline has passed. *)
Definition lr_quoted_world : W :=
  lr_session 1700000001 true false (forget (insertQuote "swap-2" (rr_swap 2)))
    (lr_session 1700000000 true false (forget (insertQuote "swap-1" (rr_swap 1))) empty_world).
Definition lr_funded_world : W :=
  lr_session 1700000070 true false (forget (tickAll rr_sha256 rr_deps 0 6)) lr_quoted_world.
Definition lr_world : W :=
  lr_session 1700010070 true true (forget (tickAll rr_sha256 rr_deps 0 6)) lr_funded_world.

(** *** A funding overtaken *)

(** Instance 0 ticks a second before the invoice expires, until it has read the
    empty script, 14 events in; instance 1 passes the gates, takes the lease and
    pays, and does not see its payment at the indexer in time; instance 0 goes
    on a second later. *)
Definition late_tick : prog event unit := forget (tick rr_sha256 rr_deps 0 6 "swap-1").
Definition late : option (prog event unit * W) :=
  advance 14 (answering 0 1700003599 false false) late_tick lr_quoted_world.
Definition racing : option (unit * W) :=
  match late with
  | Some (_, w) => play (answering 1 1700003599 false false) (forget (tick rr_sha256 rr_deps 1 6 "swap-1")) w
  | None => None
  end.
Definition closing : option (unit * W) :=
  match late, racing with
  | Some (p, _), Some (_, w) => play (answering 0 1700003600 false false) p w
  | _, _ => None
  end.
Definition closing_world : W := match closing with Some (_, w) => w | None => lr_quoted_world end.

Lemma lr_world_facts :
  sent lr_world =
    [WalletSend "swap-1" ("ark1" +:+ hex_encode (rr_script 1)) 50000 None [rr_coin];
     WalletSend "swap-2" ("ark1" +:+ hex_encode (rr_script 2)) 50000 None [rr_coin];
     SettleHold "swap-1" "010203";
     RefundLockup "swap-2" [mkOutput "fundtx" 0 50000 false None] (rr_script 2) rr_p2tr] ∧
  (state <$> rows (db lr_world)) = [LnReceive.settled; LnReceive.refunded].
Proof. vm_compute. split; reflexivity. Qed.

Lemma closing_world_facts :
  sent closing_world = [WalletSend "swap-1" ("ark1" +:+ hex_encode (rr_script 1)) 50000 None [rr_coin]] ∧
  option_map (λ r, (state r, cols r !! "failure_reason")) (find_row (db closing_world) "swap-1") =
    Some (LnReceive.refused, Some (VText "refused to fund: invoice_expired")).
Proof. vm_compute. split; reflexivity. Qed.

Lemma lr_quoted_world_reachable : reachable (lr_quoted_world, []).
Proof. do 2 (apply lr_session_reachable; [done|constructor|]). apply rtc_refl. Qed.
Lemma lr_world_reachable : reachable (lr_world, []).
Proof. do 2 (apply lr_session_reachable; [done|constructor|]). apply lr_quoted_world_reachable. Qed.

Lemma race_times : (0 ≤ 1700003599 ∧ 0 ≤ 1700003600)%Z.
Proof. done. Qed.
Lemma closing_world_reachable : reachable (closing_world, []).
Proof.
  unfold closing_world. destruct closing as [[[] w]|] eqn:Hr; [|apply lr_quoted_world_reachable].
  unfold lr_reachable. etransitivity; [apply lr_quoted_world_reachable|].
  unfold closing, racing in Hr. destruct late as [[p w1]|] eqn:Ha; [|done].
  destruct (play _ _ w1) as [[b w2]|] eqn:Hp; [|done]. unfold late in Ha.
  eapply (overtaken_session (handle lease ports) program 0 1 14 (answering 0 1700003599 false false)
    (answering 1 1700003599 false false) (answering 0 1700003600 false false) late_tick
    (forget (tick rr_sha256 rr_deps 1 6 "swap-1")) lr_quoted_world p w1 b w2 tt w);
    [apply (rr_answering_handle _ _ _ _ (proj1 race_times))|apply (rr_answering_handle _ _ _ _ (proj1 race_times))
    |apply (rr_answering_handle _ _ _ _ (proj2 race_times))|discriminate|apply lr_tick|apply lr_tick
    |exact Ha|exact Hp|exact Hr].
Qed.

#[local] Opaque lr_world closing_world.

(** C29: the lease does not protect the swap it was taken for: a worker that read
    the row and the empty script before the lease was taken, and whose gates
    fail after it — here because the invoice expired in between — moves the row
    from [armed] to [refused], since that move is conditional on the state
    alone, while the worker with the lease has paid into the lockup. From there
    on, whatever the service does, the swap stays refused: the payer's payment
    is never settled and the lockup never taken back. *)
Theorem stale_worker_refuses_a_funded_swap :
  ∃ w address coins, reachable (w, []) ∧
    sent w = [WalletSend "swap-1" address 50000 None coins] ∧
    (state <$> find_row (db w) "swap-1") = Some LnReceive.refused ∧
    ∀ c', rtc (cstep (handle lease ports) program) (w, []) c' →
      (state <$> find_row (db c'.1) "swap-1") = Some LnReceive.refused ∧
      ∀ a, a ∈ sent c'.1 → (∀ preimage, a ≠ SettleHold "swap-1" preimage) ∧
        (∀ outputs script destination, a ≠ RefundLockup "swap-1" outputs script destination).
Proof.
  destruct closing_world_facts as [Hsent Hrow]. destruct (find_row _ _) as [r|] eqn:Hr; [|done].
  injection Hrow as Hs _. eexists closing_world, _, _. split; [apply closing_world_reachable|].
  split; [exact Hsent|]. rewrite Hr. cbn. split; [by rewrite Hs|]. intros c' Hc'.
  exact (refused_is_final rr_sha256 rr_held rr_couples rr_published rr_deps (closing_world, []) c' r "swap-1"
    closing_world_reachable Hc' Hr Hs).
Qed.

(** *** The theorems at work *)

Lemma inbound_lockup_is_funded_once_witness :
  ∃ r, find_row (db lr_world) "swap-1" = Some r ∧ payoutSats (quote r) = 50000 ∧
    backed rr_held rr_couples rr_deps (quote r).
Proof.
  destruct (inbound_lockup_is_funded_once rr_sha256 rr_held rr_couples rr_published rr_deps (lr_world, []) "swap-1"
    ("ark1" +:+ hex_encode (rr_script 1)) 50000 None [rr_coin] lr_world_reachable) as (_ & r & Hr & _ & _ & Hs & Hb & _);
    [|exists r; exact (conj Hr (conj (eq_sym Hs) Hb))].
  cbn [fst]. rewrite (proj1 lr_world_facts). left.
Defined.

Lemma inbound_settles_what_was_claimed_witness :
  ∃ r p, find_row (db lr_world) "swap-1" = Some r ∧ "010203" = hex_encode p ∧ rr_published p.
Proof.
  destruct (inbound_settles_what_was_claimed rr_sha256 rr_held rr_couples rr_published rr_deps (lr_world, []) "swap-1"
    "010203" lr_world_reachable) as (r & p & Hr & _ & Hp & Hpub & _); [|exists r, p; exact (conj Hr (conj Hp Hpub))].
  cbn [fst]. rewrite (proj1 lr_world_facts). do 2 right. left.
Defined.

Lemma inbound_refunds_are_licensed_witness :
  ∃ r, find_row (db lr_world) "swap-2" = Some r ∧ hex_encode (rr_script 2) = pkScript (quote r) ∧
    (state r = LnReceive.stuck ∨ is_Some (cols r !! "arkade_lockup_txid")).
Proof.
  destruct (proj1 (inbound_refunds_are_licensed rr_sha256 rr_held rr_couples rr_published rr_deps (lr_world, [])
    lr_world_reachable) "swap-2" [mkOutput "fundtx" 0 50000 false None] (rr_script 2) rr_p2tr)
    as (r & Hr & _ & Hl & Hp & _); [|exists r; split; [exact Hr|split; [exact Hp|]]].
  { cbn [fst]. rewrite (proj1 lr_world_facts). do 3 right. left. }
  destruct Hl as [Hl|(txid & _ & _ & Hl & _)]; [left; exact Hl|right; exists (VText txid); exact Hl].
Defined.

Lemma inbound_rows_keep_their_promises_witness :
  ∃ r, r ∈ rows (db lr_world) ∧ state r = LnReceive.settled ∧ is_Some (cols r !! "preimage").
Proof.
  pose proof (proj2 lr_world_facts) as Hs.
  destruct (rows (db lr_world)) as [|r l] eqn:Hl; [discriminate|]. injection Hs as Hs _.
  exists r. split; [left|]. split; [exact Hs|].
  pose proof (inbound_rows_keep_their_promises rr_sha256 rr_held rr_couples rr_published rr_deps
    (lr_world, []) lr_world_reachable) as [Hrow _].
  pose proof (lr_reachable_inv _ _ _ _ _ (lr_world, []) lr_world_reachable) as ([Hnd _] & _).
  cbn [fst] in *. destruct (Hrow (row_id r) r) as (_ & Hp & _).
  { apply find_row_In; [exact Hnd|]. rewrite Hl. left. }
  apply Hp. rewrite Hs. right. left.
Defined.

Lemma inbound_tick_ends_witness :
  wp (handle lease ports)
    (Discipline.Inv (D := LrDiscipline rr_sha256 rr_held rr_couples rr_published rr_deps))
    (Discipline.Rely (D := LrDiscipline rr_sha256 rr_held rr_couples rr_published rr_deps))
    7 (drive 6 "swap-1" (step rr_sha256 rr_deps 2)) (λ r _, r ≠ Ok false) lr_world.
Proof.
  apply (inbound_tick_ends rr_sha256 rr_held rr_couples rr_published rr_deps (lr_world, []) 7 2 "swap-1" 6
    lr_world_reachable). lia.
Defined.

Lemma inbound_refines_lifecycle_witness :
  rtc lr_spec (spec_of (S := LnReceive.state) (Q := ReceiveQuote) (Eff := LnReceiveEffect) empty_world) (spec_of lr_world).
Proof.
  apply (inbound_refines_lifecycle rr_sha256 rr_held rr_couples rr_published rr_deps (empty_world, []) (lr_world, [])).
  - apply rtc_refl.
  - apply lr_world_reachable.
Defined.
End run.
