(* ===== verification/OnchainSendProof.v ===== *)
(** * What the onchain send service never does

    The discipline of [OnchainSendSwapService] over the rules of [BaseRules] and
    [CorridorRules]: any number of its instances, ticking, sweeping, refunding,
    reclaiming and inserting quotes at once against one database, dying at any
    point and restarted.

    The bitcoin chain enters through facts the ports are assumed to report:
    [spends], the witness that spends an outpoint; [landed], a transaction that
    is confirmed; [onchain_paid], an output of an address; [signature_of], what
    the signer makes of a transaction. *)
From Stdlib Require Import QArith_base Strings.Ascii.
From S2P Require Import Prelude JsString Timelocks OnchainPolicy StateMachine Prog SwapDb EvmRow Store World Corridor Lockup UnrolledSpend SweptRefund Covenant OnchainRail.
From S2P Require Import BaseStore OnchainSendStore OnchainSendService Discipline Rules BaseRules CorridorRules UnrolledRules.
#[local] Open Scope Z_scope.
#[local] Opaque transition transitionWhere base_patch.

(** A decision by computation. *)
#[local] Ltac decided := apply (bool_decide_unpack _); vm_compute; exact I.

(** ** The lifecycle *)

Definition onchain_states : list OnchainSend.state :=
  [OnchainSend.quoted; OnchainSend.funded; OnchainSend.funding_onchain; OnchainSend.awaiting_claim; OnchainSend.claiming;
   OnchainSend.refunding_onchain; OnchainSend.claimed; OnchainSend.refunded; OnchainSend.refused; OnchainSend.stuck].
Lemma onchain_complete s : s ∈ onchain_states.
Proof. apply list_elem_of_In. destruct s; cbn; tauto. Qed.

(** The moves the machine declares. *)
Definition onchain_edge : OnchainSend.state → OnchainSend.state → Prop := edge (edges OnchainSendMachine).

(** The solver may have signed a funding, or the swap is over. *)
Definition past_entry (s : OnchainSend.state) : bool :=
  match s with OnchainSend.quoted | OnchainSend.funded => false | _ => true end.
(** The client's preimage is known. *)
Definition revealed (s : OnchainSend.state) : bool :=
  match s with OnchainSend.claiming | OnchainSend.claimed | OnchainSend.stuck => true | _ => false end.
(** The client's lockup goes back. *)
Definition returnable (s : OnchainSend.state) : bool :=
  match s with OnchainSend.refused | OnchainSend.refunded => true | _ => false end.
(** The funding outpoint is on the row. *)
Definition outpoint_known (s : OnchainSend.state) : bool :=
  match s with
  | OnchainSend.awaiting_claim | OnchainSend.claiming | OnchainSend.claimed
  | OnchainSend.refunding_onchain | OnchainSend.refunded => true
  | _ => false
  end.

(** How many more passes a tick may report progress from a state. *)
Definition onchain_passes (s : OnchainSend.state) : nat :=
  match s with
  | OnchainSend.quoted => 6 | OnchainSend.funded => 5 | OnchainSend.funding_onchain => 4
  | OnchainSend.awaiting_claim => 3 | OnchainSend.refunding_onchain => 2
  | OnchainSend.claiming | OnchainSend.stuck => 1
  | OnchainSend.claimed | OnchainSend.refunded | OnchainSend.refused => 0
  end.

(** A set of states no edge leaves. *)
Lemma onchain_closed (P : OnchainSend.state → bool) s s' :
  forallb (λ s, forallb (λ s', implb (P s) (P s')) (edges OnchainSendMachine s)) onchain_states = true →
  rtc onchain_edge s s' → P s = true → P s' = true.
Proof. apply (edges_closed (edges OnchainSendMachine) onchain_states onchain_complete). Qed.

Lemma past_entry_le s s' : rtc onchain_edge s s' → past_entry s = true → past_entry s' = true.
Proof. by apply (onchain_closed past_entry). Qed.
Lemma revealed_le s s' : rtc onchain_edge s s' → revealed s = true → revealed s' = true.
Proof. by apply (onchain_closed revealed). Qed.
Lemma returnable_le s s' : rtc onchain_edge s s' → returnable s = true → returnable s' = true.
Proof. by apply (onchain_closed returnable). Qed.

Lemma onchain_passes_le s s' : rtc onchain_edge s s' → (onchain_passes s' ≤ onchain_passes s)%nat.
Proof. by apply (edges_descend (edges OnchainSendMachine) onchain_states onchain_complete). Qed.

(** ** Lists of transaction ids *)

(** What a transaction id looks like. *)
Definition txid_text (s : string) : Prop := s ≠ EmptyString ∧ split " "%char s = [s].

Lemma txidList_join l : Forall txid_text l → txidList (Some (join " " l)) = l.
Proof.
  intros Hl. unfold txidList. destruct l as [|s l]; [done|].
  assert (split " "%char (join " " (s :: l)) = s :: l) as ->.
  { apply split_join; [done|]. eapply Forall_impl; [exact Hl|]. by intros x [_ ?]. }
  revert Hl. generalize (s :: l). clear. induction 1 as [|x l [Hx _] _ IH]; [done|].
  by rewrite filter_cons_True, IH.
Qed.


(** ** What is assumed of the ports *)

Section assumptions.
Context (spends : string → Z → list (list Z) → Prop) (landed : string → Prop).
Context (onchain_paid : string → FundedOnchainOutput → Prop) (signature_of : Transaction → SignedTx → Prop).

Definition onchain_answers X (q : onchain_read X) : X → Prop :=
  match q in onchain_read X return X → Prop with
  | FindSpendWitness txid vout _ => λ found, ∀ w, found = Some w → spends txid vout w ∧ Forall (Forall is_byte) w
  | TransactionOutcome txid => λ outcome, outcome = outcome_confirmed → landed txid
  | FindOutputs address => λ l, Forall (onchain_paid address) l
  | EstimateFeeRate => λ rate, ∃ q, rate = Fin q
  | SignRefund unsigned => λ signed, signature_of unsigned signed ∧ txid_text (signed_id signed)
  | _ => λ _, True
  end.

Definition onchain_port : Port OnchainEffect onchain_read := mkPort onchain_answers (λ _ _, True) (λ _ _, False).
End assumptions.

(** ** The discipline *)

Section onchain_discipline.
Context (sha256 : list Z → list Z) (power : num → num → num).
Context (spends : string → Z → list (list Z) → Prop) (landed : string → Prop).
Context (onchain_paid : string → FundedOnchainOutput → Prop) (signature_of : Transaction → SignedTx → Prop).
(** The swaps an operator refunds by hand, having read the chain. *)
Context (sanctioned : string → Prop).
Context `{BtcSigner, Arkade, TxParser, OnchainRecourse, Json} (deps : OnchainDeps).
#[local] Abbreviation row := OnchainRow.
#[local] Abbreviation W := (World OnchainSend.state OnchainQuote OnchainEffect).
#[local] Abbreviation event := (evt OnchainSend.state OnchainQuote OnchainEffect onchain_read).
#[local] Abbreviation io := (io event Error).

(** The outpoint of a row's funding: an output of the transaction it recorded,
    or one the chain showed at its address, of exactly the payout. *)
Definition paid_by (r : row) (txid : string) (vout : Z) : Prop :=
  (∃ tx, cols r !! "funding_tx" = Some (VText tx) ∧ fundingOutputOf tx (quote r) = Ok (txid, vout)) ∨
  (∃ o, onchain_paid (onchainAddress (quote r)) o ∧ output_txid o = txid ∧ output_vout o = vout ∧
     valueSats o = payoutSats (quote r)).
Definition funded_at (r : row) (txid : string) (vout : Z) : Prop :=
  cols r !! "funding_txid" = Some (VText txid) ∧ cols r !! "funding_vout" = Some (VInt vout) ∧ paid_by r txid vout.

(** A preimage of the quote's hash that a spend of the outpoint reveals. *)
Definition reveals (q : OnchainQuote) (txid : string) (vout : Z) (p : list Z) : Prop :=
  ∃ w, spends txid vout w ∧ preimageFromClaimWitness w = Some p ∧ Forall is_byte p ∧
    paymentHashFromPreimage sha256 p = paymentHash q.

(** A version of the solver's refund of the quote's HTLC at that outpoint: it
    pays its own relay and leaves no dust. *)
Definition refund_of (q : OnchainQuote) (txid : string) (vout : Z) (s : SignedTx) : Prop :=
  ∃ htlc sats, rebuiltHtlc deps q = Ok htlc ∧ hex_encode (OnchainRail.pkScript htlc) = onchainPkScript q ∧
    signature_of (buildOnchainRefundTx (spendOf deps q htlc txid vout sats)) s ∧ txid_text (signed_id s) ∧
    ONCHAIN_DUST_SATS ≤ sats ∧
    sats + Zpos (estimateRefundTxVsize (spendOf deps q htlc txid vout (payoutSats q))) ≤ payoutSats q.
Definition version_of (r : row) (s : SignedTx) : Prop :=
  ∃ txid vout, funded_at r txid vout ∧ refund_of (quote r) txid vout s.

(** What a row's columns may hold. *)
Record columns_ok (r : row) : Prop := {
  funding_text : ∀ v, cols r !! "funding_tx" = Some v → ∃ tx, v = VText tx;
  outpoint_both : ∀ v, cols r !! "funding_txid" = Some v → ∃ txid vout, funded_at r txid vout;
  outpoint_paired : is_Some (cols r !! "funding_vout") → is_Some (cols r !! "funding_txid");
  preimage_revealed : ∀ v, cols r !! "preimage" = Some v →
    ∃ p txid vout, v = VText (hex_encode p) ∧ funded_at r txid vout ∧ reveals (quote r) txid vout p;
  tracked_ours : ∀ t, t ∈ trackedRefundTxids r → ∃ s, signed_id s = t ∧ version_of r s;
}.

(** What a state says of them. *)
Record promises (s : OnchainSend.state) (r : row) : Prop := {
  recorded_in : is_Some (cols r !! "funding_tx") → s ∉ [OnchainSend.quoted; OnchainSend.funded; OnchainSend.refused];
  outpoint_in : is_Some (cols r !! "funding_txid") →
    s ∉ [OnchainSend.quoted; OnchainSend.funded; OnchainSend.funding_onchain; OnchainSend.refused];
  preimage_in : is_Some (cols r !! "preimage") → revealed s = true;
  outpoint_out : outpoint_known s = true → is_Some (cols r !! "funding_txid");
  preimage_out : s ∈ [OnchainSend.claiming; OnchainSend.claimed] → is_Some (cols r !! "preimage");
  refund_landed : s = OnchainSend.refunded → ∃ v, version_of r v ∧ landed (signed_id v);
}.

Definition onchain_row_ok (r : row) : Prop := columns_ok r ∧ promises (state r) r.

(** The requests, each with what the tables have to say for it. *)
Definition signing_ok (d : OnchainDb) (i address : string) (sats : Z) : Prop :=
  ∃ r, find_row d i = Some r ∧ past_entry (state r) = true ∧ address = onchainAddress (quote r) ∧
    sats = payoutSats (quote r) ∧ providerPubkey (quote r) = live_providerPubkey deps.
(** The one recorded transaction, which pays the HTLC once. *)
Definition funding_ok (d : OnchainDb) (i tx : string) : Prop :=
  ∃ r o, find_row d i = Some r ∧ cols r !! "funding_tx" = Some (VText tx) ∧ fundingOutputOf tx (quote r) = Ok o.
Definition reclaim_ok (d : OnchainDb) (i tx : string) : Prop :=
  ∃ r s, find_row d i = Some r ∧ version_of r s ∧ extracted s = tx.
Definition claim_ok (d : OnchainDb) (i preimage : string) : Prop :=
  ∃ r p txid vout, find_row d i = Some r ∧ revealed (state r) = true ∧ preimage = hex_encode p ∧
    funded_at r txid vout ∧ reveals (quote r) txid vout p.
Definition return_ok (d : OnchainDb) (i : string) : Prop :=
  sanctioned i ∨ ∃ r, find_row d i = Some r ∧ returnable (state r) = true.

Definition onchain_effect_ok (d : OnchainDb) (a : OnchainEffect) : Prop :=
  match a with
  | SignFunding i address sats _ => signing_ok d i address sats
  | BroadcastFunding i tx => funding_ok d i tx
  | BroadcastRefund i tx => reclaim_ok d i tx
  | ClaimLockup i _ preimage | FinalizePendingClaim i preimage | ClaimUnrolled i _ _ preimage
  | ResumeUnrolled i _ preimage => claim_ok d i preimage
  | RefundLockup i _ | RefundSwept i _ => return_ok d i
  | SettleReceiveAddress => True
  end.

(** The funding is written once; the lease of it lapses and is nobody's. *)
Definition FROZEN : list string := ["funding_tx"; "funding_txid"; "funding_vout"].
#[export] Instance OnchainDiscipline : Discipline OnchainSend.state OnchainQuote OnchainEffect := {
  state_le := rtc onchain_edge;
  kept c := c = "preimage";
  frozen c := c ∈ FROZEN;
  after_grant _ := False;
  granted := Entry OnchainSend.quoted;
  row_ok := onchain_row_ok;
  effect_ok := onchain_effect_ok;
  own_of _ := None;
  full _ _ l := l = [];
}.

(** ** Facts a row keeps *)

(** The columns that carry evidence. *)
Definition EVIDENCE : list string :=
  ["funding_tx"; "funding_txid"; "funding_vout"; "preimage"; "onchain_refund_txid"; "onchain_refund_prior_txids"].
Definition agree (cs : list string) (m m' : gmap string sqlval) : Prop := ∀ c, c ∈ cs → m' !! c = m !! c.

Lemma funded_at_thawed (r r' : row) txid vout :
  quote r' = quote r → unthawed (cols r) (cols r') → funded_at r txid vout → funded_at r' txid vout.
Proof.
  intros Hq Hz (Ht & Hv & Hp).
  assert (∀ c v, c ∈ FROZEN → cols r !! c = Some v → cols r' !! c = Some v) as Hf by exact Hz.
  split_and!; [by apply Hf; [set_solver|]..|]. unfold paid_by in *. rewrite Hq.
  destruct Hp as [(tx & ? & ?)|?]; [left|by right]. exists tx. split; [|done]. apply Hf; [set_solver|done].
Qed.

Lemma version_of_thawed (r r' : row) s :
  quote r' = quote r → unthawed (cols r) (cols r') → version_of r s → version_of r' s.
Proof.
  intros Hq Hz (txid & vout & Hf & Hs). exists txid, vout. rewrite Hq. split; [by eapply funded_at_thawed|done].
Qed.

Lemma row_le_thawed (r r' : row) : row_le r r' → quote r' = quote r ∧ unthawed (cols r) (cols r').
Proof. by intros (_ & ? & _ & _ & _ & ?). Qed.

Lemma agree_unthawed m m' : agree FROZEN m m' → unthawed m m'.
Proof. intros Ha c v Hc Hm. by rewrite (Ha c Hc). Qed.
Lemma agree_sub cs cs' m m' : cs ⊆ cs' → agree cs' m m' → agree cs m m'.
Proof. intros Hs Ha c Hc. by apply Ha, Hs. Qed.
Lemma EVIDENCE_frozen : FROZEN ⊆ EVIDENCE.
Proof. set_solver. Qed.

Lemma onchain_effect_ok_le (d d' : OnchainDb) a : db_le d d' → onchain_effect_ok d a → onchain_effect_ok d' a.
Proof.
  intros [Hr _].
  assert (∀ i preimage, claim_ok d i preimage → claim_ok d' i preimage) as Hclaim.
  { intros i preimage (r & p & txid & vout & Hf & Hs & Hp & Ha & Hw). destruct (Hr _ _ Hf) as (r' & Hf' & Hle).
    destruct (row_le_thawed _ _ Hle) as [Hq Hz]. exists r', p, txid, vout. rewrite Hq. split_and!; [done| |done| |done].
    - eapply revealed_le; [apply Hle|done].
    - by eapply funded_at_thawed. }
  assert (∀ i, return_ok d i → return_ok d' i) as Hreturn.
  { intros i [?|(r & Hf & Hs)]; [by left|right]. destruct (Hr _ _ Hf) as (r' & Hf' & Hle). exists r'.
    split; [done|]. eapply returnable_le; [apply Hle|done]. }
  destruct a; cbn; auto.
  - intros (r & Hf & Hs & Ha). destruct (Hr _ _ Hf) as (r' & Hf' & Hle). exists r'.
    destruct (row_le_thawed _ _ Hle) as [-> _]. split_and!; [done| |apply Ha..]. eapply past_entry_le; [apply Hle|done].
  - intros (r & o & Hf & Hc & Ho). destruct (Hr _ _ Hf) as (r' & Hf' & Hle). exists r', o.
    destruct (row_le_thawed _ _ Hle) as [-> Hz]. split_and!; [done| |done]. apply Hz; [|done]. cbn. set_solver.
  - intros (r & s & Hf & Hv & He). destruct (Hr _ _ Hf) as (r' & Hf' & Hle). exists r', s.
    destruct (row_le_thawed _ _ Hle) as [? ?]. split_and!; [done| |done]. by eapply version_of_thawed.
Qed.

#[export] Instance onchain_laws :
  DisciplineLaws (S := OnchainSend.state) (Q := OnchainQuote) (Eff := OnchainEffect).
Proof. split; [reflexivity|intros ???; apply transitivity|by intros|apply onchain_effect_ok_le]. Qed.

#[local] Abbreviation Stable := (Stable (W := W) Inv Rely).
#[local] Abbreviation port := (onchain_port spends landed onchain_paid signature_of).
#[local] Abbreviation triple := (hoare (X := Error) (handle (Eff := OnchainEffect) granted port) Inv Rely).
#[local] Abbreviation nearer := (nearer onchain_passes).
#[export] Instance onchain_nearer_stable t r n moved : Stable t (nearer r n moved).
Proof. apply nearer_stable, onchain_passes_le. Qed.
Lemma onchain_progressed r n s moved (w : W) :
  (moved = true → entered r s w) → (onchain_passes s < n)%nat → nearer r n moved w.
Proof. apply (nearer_entered (D := OnchainDiscipline) onchain_passes onchain_passes_le). Qed.

Lemma onchain_row_inv (w : W) i r : Inv w → find_row (db w) i = Some r → onchain_row_ok r.
Proof. exact (Inv_row_ok (D := OnchainDiscipline) w i r). Qed.

(** ** Writing what carries no evidence *)

Lemma agree_text cs (r r' : row) c : agree cs (cols r) (cols r') → c ∈ cs → text_col r' c = text_col r c.
Proof. intros Ha Hc. unfold text_col. by rewrite Ha. Qed.

Lemma tracked_agree (r r' : row) : agree EVIDENCE (cols r) (cols r') → trackedRefundTxids r' = trackedRefundTxids r.
Proof.
  intros Ha. unfold trackedRefundTxids, priorRefundTxids.
  by rewrite !(agree_text _ r r' _ Ha) by set_solver.
Qed.

Lemma columns_ok_agree (r r' : row) :
  quote r' = quote r → agree EVIDENCE (cols r) (cols r') → columns_ok r → columns_ok r'.
Proof.
  intros Hq Ha [Ht Hb Hp Hr Hv].
  assert (unthawed (cols r) (cols r')) as Hz by (eapply agree_unthawed, agree_sub; [apply EVIDENCE_frozen|done]).
  assert (∀ txid vout, funded_at r txid vout → funded_at r' txid vout) as Hf by (intros; by eapply funded_at_thawed).
  split.
  - intros v. rewrite Ha by set_solver. apply Ht.
  - intros v. rewrite Ha by set_solver. intros Hv'. destruct (Hb v Hv') as (txid & vout & ?). eauto.
  - rewrite !Ha by set_solver. done.
  - intros v. rewrite Ha by set_solver. intros Hv'. destruct (Hr v Hv') as (p & txid & vout & ? & ? & ?).
    exists p, txid, vout. rewrite Hq. auto.
  - intros u. rewrite (tracked_agree r r' Ha). intros Hu. destruct (Hv u Hu) as (s & ? & ?). exists s.
    split; [done|]. by eapply version_of_thawed.
Qed.

(** A state that promises nothing the other one does not. *)
Definition stays (s s' : OnchainSend.state) : bool :=
  let among l := implb (bool_decide (s' ∈ l)) (bool_decide (s ∈ l)) in
  among [OnchainSend.quoted; OnchainSend.funded; OnchainSend.refused] &&
  among [OnchainSend.quoted; OnchainSend.funded; OnchainSend.funding_onchain; OnchainSend.refused] &&
  implb (revealed s) (revealed s') && implb (outpoint_known s') (outpoint_known s) &&
  among [OnchainSend.claiming; OnchainSend.claimed] && among [OnchainSend.refunded].

Lemma stays_self s : stays s s = true.
Proof. destruct s; vm_compute; reflexivity. Qed.

Lemma promises_agree s s' (r r' : row) :
  stays s s' = true → quote r' = quote r → agree EVIDENCE (cols r) (cols r') → promises s r → promises s' r'.
Proof.
  intros Hs Hq Ha [Ht Ho Hp Hk Hc Hl]. unfold stays in Hs. rewrite !andb_true_iff, !implb_true_iff in Hs.
  rewrite !bool_decide_eq_true in Hs. destruct Hs as (((((S1 & S2) & S3) & S4) & S5) & S6).
  assert (unthawed (cols r) (cols r')) as Hz by (eapply agree_unthawed, agree_sub; [apply EVIDENCE_frozen|done]).
  split; rewrite ?Ha by set_solver; [naive_solver..|].
  intros ->. destruct Hl as (v & Hv & ?); [by apply list_elem_of_singleton, S6, list_elem_of_singleton|].
  exists v. split; [|done]. by eapply version_of_thawed.
Qed.

Lemma row_ok_agree s' (r r' : row) :
  stays (state r) s' = true → state r' = s' → quote r' = quote r → agree EVIDENCE (cols r) (cols r') →
  onchain_row_ok r → onchain_row_ok r'.
Proof.
  intros Hs <- Hq Ha [Hc Hp]. split; [by eapply columns_ok_agree|by eapply promises_agree].
Qed.

(** Assignments that carry no evidence. *)
Definition plain (f : fields) : bool := forallb (λ p, bool_decide (p.1 ∉ EVIDENCE)) f.

Lemma plain_unassigned f c : plain f = true → c ∈ EVIDENCE → assigned f c = None.
Proof.
  intros Hf Hc. induction f as [|[c' v] f IH]; [done|]. cbn in Hf.
  apply andb_true_iff in Hf as [Hn%bool_decide_eq_true Hf]. cbn. rewrite IH by done.
  by rewrite decide_False by (intros ->; done).
Qed.

Lemma plain_agree f m : plain f = true → agree EVIDENCE m (set_columns f m).
Proof. intros Hf c Hc. by rewrite set_columns_lookup, plain_unassigned. Qed.

Lemma insert_agree c v (m : gmap string sqlval) : c ∉ EVIDENCE → agree EVIDENCE m (<[c := v]> m).
Proof. intros Hc c' Hc'. rewrite lookup_insert_ne; [done|]. by intros ->. Qed.
Lemma delete_agree c (m : gmap string sqlval) : c ∉ EVIDENCE → agree EVIDENCE m (delete c m).
Proof. intros Hc c' Hc'. rewrite lookup_delete_ne; [done|]. by intros ->. Qed.

Lemma plain_spares from to f : plain f = true → spares (S := OnchainSend.state) (Q := OnchainQuote) from to f.
Proof.
  intros Hf. right. split; [|by intros]. intros c ->. rewrite plain_unassigned; [done|done|]. set_solver.
Qed.

Lemma lease_evidence : "fund_started_at" ∉ EVIDENCE.
Proof. decided. Qed.

Section writing.
Context (t : nat) (K : W → Prop) (r : row) `{!Knows K r}.

Lemma onchain_patch f :
  plain f = true → clears_nothing f = true → triple t K (base_patch (row_id r) f) (λ _, K) (λ _, K).
Proof.
  intros Hf Hc. apply (row_patch_keep port); [done|done| |].
  - intros m. eapply agree_unthawed, agree_sub; [apply EVIDENCE_frozen|by apply plain_agree].
  - intros r' at_ _ Hok. apply (row_ok_agree (state r') r'); [apply stays_self|done|done|by apply plain_agree|done].
Qed.

(** A move of the row, won or lost to another instance. *)
Lemma onchain_move from to f :
  plain f = true → stays from to = true → to ≠ OnchainSend.quoted →
  triple t K (transition (row_id r) from to f) (λ won w, K w ∧ (won = true → entered r to w)) (λ _, K).
Proof.
  intros Hf Hs Hto. apply (row_move_known port); [done|by apply plain_spares|cbn; congruence|intros He; by apply rtc_once|].
  intros r' at_ _ <- Hok. split.
  - eapply agree_unthawed, agree_sub; [apply EVIDENCE_frozen|by apply plain_agree].
  - apply (row_ok_agree to r'); [exact Hs|done|done|by apply plain_agree|done].
Qed.

Lemma onchain_failed from reason :
  stays from (failed_state from) = true →
  triple t K (fail (row_id r) from reason) (λ _, K) (λ _, K).
Proof.
  intros Hs. unfold fail. hbind.
  { apply onchain_move; [done|done|]. unfold failed_state. by case_bool_decide. }
  intros won. hret. by intros w _ [? _].
Qed.

(** Won by entering the state [to]: progress. *)
Lemma onchain_moved n from to f :
  plain f = true → stays from to = true → to ≠ OnchainSend.quoted → (onchain_passes to < n)%nat →
  triple t K (transition (row_id r) from to f) (nearer r n) (λ _, K).
Proof.
  intros Hf Hs Hto Hn. eapply hoare_conseq; [by apply onchain_move|done| |done].
  intros won w _ [_ Hw]. by apply (onchain_progressed r n to).
Qed.

Lemma onchain_resting {A} n (p : io A) :
  triple t K p (λ _, K) (λ _, K) → triple t K (bind p (λ _, ret false)) (nearer r n) (λ _, K).
Proof. by apply (no_progress port). Qed.

Lemma releaseLease_spec i : triple t K (releaseLease i) (λ _, K) (λ _, K).
Proof.
  unfold releaseLease. apply (releaseFundLease_keep port); [apply _|]. intros w Hi _.
  split_and!; [done|done|cbn; decided|]. intros r' Hr'. split; [|done].
  apply (row_ok_agree (state r') r'); [apply stays_self|done|done|apply delete_agree, lease_evidence|by eapply onchain_row_inv].
Qed.

Lemma onchain_claimLease_spec i from : triple t K (claimLease i from) (λ _, K) (λ _, K).
Proof.
  unfold claimLease. hbind; [by apply (timed port); apply _|]. intros at_.
  apply (claimFundLease_keep port); [apply _|]. intros w la at' Hi _.
  split_and!; [cbn; decided| |done]. intros r' Hr' _.
  apply (row_ok_agree (state r') r'); [apply stays_self|done|done|apply insert_agree, lease_evidence|by eapply onchain_row_inv].
Qed.
End writing.

(** ** Writing evidence *)

Lemma known_columns K r : Knows K r → columns_ok r.
Proof. intros HKn. by destruct (knows_ok (K := K) (r := r)) as [? _]. Qed.

Lemma outpoint_funded (r : row) txid vout :
  columns_ok r → fundingOutpoint r = Some (txid, vout) → funded_at r txid vout.
Proof.
  intros Hc Ho. unfold fundingOutpoint, text_col, int_col in Ho.
  destruct (cols r !! "funding_txid") as [v|] eqn:Ht; [|done].
  destruct (outpoint_both r Hc v Ht) as (txid' & vout' & Hf). pose proof Hf as (Ht' & Hv' & _).
  rewrite Hv' in Ho. rewrite Ht' in Ht. simplify_eq. cbn [value_text] in Ho. destruct txid'; cbn in Ho; by simplify_eq.
Qed.

(** Revealed by a spend of the outpoint. *)
Lemma row_ok_claiming (r : row) from p txid vout at_ :
  state r = from → from ∈ [OnchainSend.awaiting_claim; OnchainSend.refunding_onchain] →
  funded_at r txid vout → reveals (quote r) txid vout p → onchain_row_ok r →
  onchain_row_ok (moved OnchainSend.claiming (set_text "preimage" (hex_encode p)) at_ r).
Proof.
  intros Hs Hfrom Hf Hp [Hc Hm]. set (r' := moved _ _ _ r).
  assert (unthawed (cols r) (cols r')) as Hz by (apply insert_unthawed; right; cbn; decided).
  assert (∀ c, c ≠ "preimage" → cols r' !! c = cols r !! c) as Hne by (intros c Hne; by apply lookup_insert_ne).
  assert (cols r' !! "preimage" = Some (VText (hex_encode p))) as Hpre by apply lookup_insert_eq.
  assert (∀ x y, funded_at r x y → funded_at r' x y) as Hf' by (intros; by eapply (funded_at_thawed r)).
  assert (trackedRefundTxids r' = trackedRefundTxids r) as Htr.
  { unfold trackedRefundTxids, priorRefundTxids, text_col. by rewrite !Hne. }
  destruct Hc as [Ht Hb Hpd Hr Hv], Hm as [M1 M2 M3 M4 M5 M6].
  split; split; rewrite ?Hne by done.
  - apply Ht.
  - intros v Hv'. destruct (Hb v Hv') as (x & y & ?). eauto.
  - apply Hpd.
  - rewrite Hpre. intros v [= <-]. exists p, txid, vout. auto.
  - rewrite Htr. intros u Hu. destruct (Hv u Hu) as (s & ? & ?). exists s. split; [done|]. by eapply (version_of_thawed r).
  - intros _. decided.
  - intros _. decided.
  - done.
  - intros _. apply M4. rewrite Hs. by apply list_elem_of_In in Hfrom as [<-|[<-|[]]].
  - rewrite Hpre. by eexists.
  - done.
Qed.

(** The outpoint of the funding, on a row that had none. *)
Lemma row_ok_awaiting (r : row) txid vout at_ :
  state r = OnchainSend.funding_onchain → paid_by r txid vout → onchain_row_ok r →
  let r' := moved OnchainSend.awaiting_claim (set_text "funding_txid" txid ++ set_int "funding_vout" vout) at_ r in
  unthawed (cols r) (cols r') ∧ onchain_row_ok r'.
Proof.
  intros Hs Hpaid [Hc Hm] r'.
  assert (cols r !! "funding_txid" = None) as Ht0.
  { destruct (cols r !! "funding_txid") eqn:Ht; [|done]. destruct (outpoint_in _ _ Hm); [by rewrite Ht|].
    rewrite Hs. decided. }
  assert (cols r !! "funding_vout" = None) as Hv0.
  { destruct (cols r !! "funding_vout") eqn:Hv; [|done]. destruct (outpoint_paired _ Hc) as [? ?]; [by rewrite Hv|congruence]. }
  assert (∀ c, c ≠ "funding_txid" → c ≠ "funding_vout" → cols r' !! c = cols r !! c) as Hne
    by (intros c ? ?; cbn; by rewrite !lookup_insert_ne).
  assert (cols r' !! "funding_txid" = Some (VText txid)) as Ht by (cbn; rewrite lookup_insert_ne by done; apply lookup_insert_eq).
  assert (cols r' !! "funding_vout" = Some (VInt vout)) as Hv by (cbn; apply lookup_insert_eq).
  assert (funded_at r' txid vout) as Hf.
  { split_and!; [done..|]. unfold paid_by in *. by rewrite Hne. }
  assert (trackedRefundTxids r' = trackedRefundTxids r) as Htr.
  { unfold trackedRefundTxids, priorRefundTxids, text_col. by rewrite !Hne. }
  assert (∀ x y, ¬ funded_at r x y) as Hnone by (intros x y (? & _); congruence).
  split.
  { intros c v Hc' Hcv. assert (c ≠ "funding_txid" ∧ c ≠ "funding_vout") as [? ?] by (split; intros ->; congruence). by rewrite Hne. }
  split; split; rewrite ?Hne by done.
  - apply Hc.
  - intros _ _. eauto.
  - rewrite Ht. by eexists.
  - intros v Hv'. destruct (preimage_revealed _ Hc v Hv') as (p & x & y & _ & Hx & _). by destruct (Hnone x y).
  - rewrite Htr. intros u Hu. destruct (tracked_ours _ Hc u Hu) as (s & _ & x & y & Hx & _). by destruct (Hnone x y).
  - intros _. decided.
  - intros _. decided.
  - intros Hp. apply (preimage_in _ _ Hm) in Hp. by rewrite Hs in Hp.
  - rewrite Ht. by eexists.
  - intros Hin. exfalso. revert Hin. decided.
  - done.
Qed.

(** A signed funding, on a row with none. *)
Lemma row_ok_recorded (r : row) tx at_ :
  state r = OnchainSend.funding_onchain → onchain_row_ok r →
  onchain_row_ok (mkRow (row_id r) (state r) (created_at r) at_ (quote r) (<["funding_tx" := VText tx]> (cols r))).
Proof.
  intros Hs [Hc Hm]. set (r' := mkRow _ _ _ _ _ _).
  assert (cols r !! "funding_txid" = None) as Ht0.
  { destruct (cols r !! "funding_txid") eqn:Ht; [|done]. destruct (outpoint_in _ _ Hm); [by rewrite Ht|].
    rewrite Hs. decided. }
  assert (∀ c, c ≠ "funding_tx" → cols r' !! c = cols r !! c) as Hne by (intros c Hne; by apply lookup_insert_ne).
  assert (trackedRefundTxids r' = trackedRefundTxids r) as Htr.
  { unfold trackedRefundTxids, priorRefundTxids, text_col. by rewrite !Hne. }
  assert (∀ x y, ¬ funded_at r x y) as Hnone by (intros x y (? & _); congruence).
  split; split; rewrite ?Hne by done.
  - change (cols r' !! "funding_tx") with (<["funding_tx" := VText tx]> (cols r) !! "funding_tx").
    rewrite lookup_insert_eq. intros v [= <-]. by eexists.
  - intros v Hv. congruence.
  - apply Hc.
  - intros v Hv'. destruct (preimage_revealed _ Hc v Hv') as (p & x & y & _ & Hx & _). by destruct (Hnone x y).
  - rewrite Htr. intros u Hu. destruct (tracked_ours _ Hc u Hu) as (s & _ & x & y & Hx & _). by destruct (Hnone x y).
  - intros _. cbn. rewrite Hs. decided.
  - apply Hm.
  - apply Hm.
  - apply Hm.
  - apply Hm.
  - cbn. rewrite Hs. done.
Qed.

(** A refund of which one tracked version is confirmed. *)
Lemma row_ok_refunded (r : row) v at_ :
  state r = OnchainSend.refunding_onchain → version_of r v → landed (signed_id v) → onchain_row_ok r →
  onchain_row_ok (moved OnchainSend.refunded (set_text "onchain_refund_txid" (signed_id v)) at_ r).
Proof.
  intros Hs Hv Hl [Hc Hm]. set (r' := moved _ _ _ r).
  assert (unthawed (cols r) (cols r')) as Hz by (apply insert_unthawed; right; cbn; decided).
  assert (∀ c, c ≠ "onchain_refund_txid" → cols r' !! c = cols r !! c) as Hne by (intros c Hne; by apply lookup_insert_ne).
  assert (∀ x y, funded_at r x y → funded_at r' x y) as Hf' by (intros; by eapply (funded_at_thawed r)).
  assert (∀ s, version_of r s → version_of r' s) as Hv' by (intros s; by apply (version_of_thawed r)).
  destruct Hc as [Ht Hb Hpd Hr Htr], Hm as [M1 M2 M3 M4 M5 M6].
  split; split; rewrite ?Hne by done.
  - apply Ht.
  - intros x Hx. destruct (Hb x Hx) as (a & b & ?). eauto.
  - apply Hpd.
  - intros x Hx. destruct (Hr x Hx) as (p & a & b & ? & ? & ?). exists p, a, b. auto.
  - intros u Hu. unfold trackedRefundTxids in Hu. unfold text_col in Hu at 1.
    change (cols r' !! "onchain_refund_txid") with (<["onchain_refund_txid" := VText (signed_id v)]> (cols r) !! "onchain_refund_txid") in Hu.
    rewrite lookup_insert_eq in Hu. cbn [value_text] in Hu. apply elem_of_cons in Hu as [->|Hu]; [exists v; auto|].
    destruct (Htr u) as (s & ? & ?); [|exists s; auto]. unfold trackedRefundTxids.
    assert (priorRefundTxids r' = priorRefundTxids r) as <- by (unfold priorRefundTxids, text_col; by rewrite Hne).
    case_match; [by right|done].
  - intros _. decided.
  - intros _. decided.
  - intros Hp. apply M3 in Hp. by rewrite Hs in Hp.
  - intros _. apply M4. by rewrite Hs.
  - intros Hin. exfalso. revert Hin. decided.
  - intros _. exists v. auto.
Qed.

(** The columns a version is recorded in before it is broadcast. *)
Definition version_fields (r : row) (id : string) (rate : num) (at_ : Z) : fields :=
  set_text "onchain_refund_txid" id ++
  set_text "onchain_refund_prior_txids" (join " " (filter (λ txid, txid ≠ id) (unique [] (trackedRefundTxids r)))) ++
  [("onchain_refund_fee_rate", Some (VReal rate))] ++ set_int "onchain_refund_broadcast_at" at_.

Lemma elem_of_unique seen l s : s ∈ unique seen l → s ∈ l.
Proof.
  revert seen. induction l as [|x l IH]; intros seen; cbn; [done|]. case_decide; [right; by eapply IH|].
  intros [->|Hs]%elem_of_cons; [left|right; by eapply IH].
Qed.

Lemma tracked_text (r : row) u : columns_ok r → u ∈ trackedRefundTxids r → txid_text u.
Proof. intros Hc Hu. by destruct (tracked_ours _ Hc u Hu) as (s & <- & txid & vout & _ & htlc & sats & _ & _ & _ & ? & _). Qed.

Lemma row_ok_version (r0 r : row) v rate at_ at' :
  row_le r0 r → columns_ok r0 → version_of r v → onchain_row_ok r →
  let r' := mkRow (row_id r) (state r) (created_at r) at' (quote r) (set_columns (version_fields r0 (signed_id v) rate at_) (cols r)) in
  unthawed (cols r) (cols r') ∧ onchain_row_ok r'.
Proof.
  intros Hle Hc0 Hv [Hc Hm] r'. destruct (row_le_thawed _ _ Hle) as [Hq0 Hz0].
  set (prior := join " " (filter (λ txid, txid ≠ signed_id v) (unique [] (trackedRefundTxids r0)))).
  assert (∀ c, c ∉ ["onchain_refund_txid"; "onchain_refund_prior_txids"; "onchain_refund_fee_rate"; "onchain_refund_broadcast_at"] →
    cols r' !! c = cols r !! c) as Hne.
  { intros c Hc'. cbn. rewrite !lookup_insert_ne; [done|intros <-; apply Hc'; set_solver..]. }
  assert (cols r' !! "onchain_refund_txid" = Some (VText (signed_id v))) as Hid.
  { cbn. do 3 rewrite lookup_insert_ne by done. apply lookup_insert_eq. }
  assert (cols r' !! "onchain_refund_prior_txids" = Some (VText prior)) as Hprior.
  { cbn. do 2 rewrite lookup_insert_ne by done. apply lookup_insert_eq. }
  assert (unthawed (cols r) (cols r')) as Hz.
  { intros c x Hf Hx. rewrite Hne; [done|]. cbn in Hf. set_solver. }
  assert (∀ x y, funded_at r x y → funded_at r' x y) as Hf' by (intros; by eapply (funded_at_thawed r)).
  assert (∀ s, version_of r s → version_of r' s) as Hv' by (intros s; by apply (version_of_thawed r)).
  split; [done|]. destruct Hc as [Ht Hb Hpd Hr Htr], Hm as [M1 M2 M3 M4 M5 M6].
  split; split; rewrite ?Hne by decided; cbn [state quote r']; [..|exact M1|exact M2|exact M3|exact M4|exact M5|].
  - apply Ht.
  - intros x Hx. destruct (Hb x Hx) as (a & b & ?). eauto.
  - apply Hpd.
  - intros x Hx. destruct (Hr x Hx) as (p & a & b & ? & ? & ?). exists p, a, b. auto.
  - intros u Hu. unfold trackedRefundTxids, priorRefundTxids, text_col in Hu. rewrite Hid, Hprior in Hu. cbn [value_text] in Hu.
    apply elem_of_cons in Hu as [->|Hu]; [exists v; auto|]. unfold prior in Hu. rewrite txidList_join in Hu.
    + apply list_elem_of_filter in Hu as [_ Hu%elem_of_unique]. destruct (tracked_ours _ Hc0 u Hu) as (s & ? & Hs).
      exists s. split; [done|]. by apply Hv', (version_of_thawed r0 r).
    + apply Forall_forall. intros x [_ Hx%elem_of_unique]%list_elem_of_filter. by apply (tracked_text r0).
  - intros Hs. destruct (M6 Hs) as (s & ? & ?). exists s. auto.
Qed.

(** The steps of the proofs below: a read, the clock, a report, a write. *)
Ltac oc :=
  lazymatch goal with
  | |- hoare _ _ _ _ _ (asks _) _ _ => apply (asked port); apply _
  | |- hoare _ _ _ _ _ now _ _ => apply (timed port); apply _
  | |- hoare _ _ _ _ _ (onTickError _ _) _ _ => apply (told port); apply _
  | |- hoare _ _ _ _ _ (decoded _) _ _ => apply (lifted_keep port); apply _
  | |- hoare _ _ _ _ _ (base_patch _ _) _ _ => apply onchain_patch; [apply _|try reflexivity..]
  | |- hoare _ _ _ _ _ (@fail _ _ _ _ _ _ _ _ _ _) _ _ => apply onchain_failed; [apply _|try reflexivity]
  | |- hoare _ _ _ _ _ (ret _) _ _ => by hret
  | |- hoare _ _ _ _ _ (throw _) _ _ => by apply hoare_throw; [apply _|]
  end.

(** A step after which as much is known as before. *)
Ltac hk :=
  lazymatch goal with
  | |- hoare _ _ _ _ ?K _ _ _ => apply (hoare_bind _ _ _ _ K _ _ (λ _, K)); try apply _
  end.

(** ** Reading the chain *)

Section reading.
Context (t : nat) (K : W → Prop) (r : row) `{!Knows K r}.

Lemma findSpendWitness_spec txid vout :
  triple t K (findSpendWitness r txid vout)
    (λ found w, K w ∧ ∀ x, found = Some x → spends txid vout x ∧ Forall (Forall is_byte) x) (λ _, K).
Proof.
  unfold findSpendWitness. hk; [oc|]. intros script.
  apply (hoare_asks port t K (FindSpendWitness txid vout script)). apply _.
Qed.

Lemma revealedBy_reveals txid vout x p :
  spends txid vout x → Forall (Forall is_byte) x → revealedBy sha256 r x = Some p → reveals (quote r) txid vout p.
Proof.
  unfold revealedBy. intros Hs Hb Hr. destruct (preimageFromClaimWitness x) as [p'|] eqn:Hp; [|done].
  case_bool_decide as Hh; [|done]. simplify_eq. exists x. split_and!; [done..| |done].
  rewrite Forall_forall in Hb. apply Hb. unfold preimageFromClaimWitness in Hp. by eapply list_elem_of_lookup_2.
Qed.

Lemma outcomeOfAny_spec l seen :
  triple t K (outcomeOfAny l seen) (λ o w, K w ∧ ∀ u, o = tracked_confirmed u → u ∈ l ∧ landed u) (λ _, K).
Proof.
  revert seen. induction l as [|u l IH]; intros seen; cbn [outcomeOfAny].
  { hret. intros w _ HKw. split; [done|]. by destruct seen. }
  hbind; [by apply (hoare_asks port t K (TransactionOutcome u)); apply _|]. intros outcome.
  apply hoare_pure. intros Ho. cbn in Ho.
  assert (∀ seen, triple t K (outcomeOfAny l seen)
    (λ o w, K w ∧ ∀ v, o = tracked_confirmed v → v ∈ u :: l ∧ landed v) (λ _, K)) as Hrest.
  { intros b. eapply hoare_conseq; [apply IH|done| |done]. intros o w _ [HKw Hv]. split; [done|].
    intros v Hv'. destruct (Hv v Hv'). split; [by right|done]. }
  destruct outcome; [apply Hrest|apply Hrest|]. hret. intros w _ HKw. split; [done|].
  intros v [= <-]. split; [left|by apply Ho].
Qed.
End reading.

(** ** Giving the lockup back *)

Section returning.
Context (t : nat) (K : W → Prop) (r : row) `{!Knows K r}.
Context (may_return : ∀ w, Inv w → K w → return_ok (db w) (row_id r)).

Lemma onchain_pushRefund_spec swept : triple t K (pushRefund deps r swept) (λ _, K) (λ _, K).
Proof.
  unfold pushRefund. hk; [oc|]. intros [|o outputs].
  - hk; [case_match; oc|]. intros found. case_match.
    + hk; [by apply (hoare_act port t K (RefundSwept (row_id r) found)); [apply _|..]|]. intros txid.
      hk; [oc|]. intros ?. oc.
    + hk; [oc|]. intros evidence. case_match; [hk; [oc|intros ?; oc]|]. hk; [oc|]. intros at_. oc.
  - hk; [by apply (hoare_act port t K (RefundLockup (row_id r) (o :: outputs))); [apply _|..]|]. intros txid.
    hk; [oc|]. intros at_. hk; [|intros ?; oc]. apply onchain_patch; [apply _|by case_match..].
Qed.
End returning.

Lemma returnable_return K r :
  Knows K r → returnable (state r) = true → ∀ w, Inv w → K w → return_ok (db w) (row_id r).
Proof.
  intros HKn Hs w _ HKw. right. destruct (knows_since (r := r) w HKw) as (r' & Hr' & _ & _ & _ & Hle & _).
  exists r'. split; [done|]. by eapply returnable_le.
Qed.

Section sweeping.
Context (t : nat).

Lemma onchainRefundIsFinal_keep K r : Knows K r → triple t K (onchainRefundIsFinal sha256 r) (λ _, K) (λ _, K).
Proof.
  intros HKn. unfold onchainRefundIsFinal. case_match; [|oc]. case_match.
  hbind; [by apply (findSpendWitness_spec t K r)|]. intros [x|].
  - apply (hoare_pre _ _ _ _ _ K); [by intros w _ [? _]|]. case_match; oc.
  - apply (hoare_pre _ _ _ _ _ K); [by intros w _ [? _]|]. oc.
Qed.

Lemma refundRow_spec K r :
  Knows K r → returnable (state r) = true → triple t K (refundRow sha256 deps r) (λ _, K) (λ _, K).
Proof.
  intros HKn Hs. unfold refundRow. hk; [case_match; [by apply onchainRefundIsFinal_keep|oc]|]. intros []; [|oc].
  hk; [apply onchain_pushRefund_spec; [apply _|by apply returnable_return]|]. intros ?. oc.
Qed.

Lemma refundRows_spec l parked pushed :
  (∀ r, r ∈ l → onchain_row_ok r ∧ returnable (state r) = true) →
  triple t (all_since l) (refundRows sha256 deps l parked pushed) (λ _ _, True) (λ _ _, True).
Proof.
  intros Hl. eapply hoare_conseq with (P' := λ _ _, True) (F' := λ _, all_since l); [|done..].
  enough (∀ l1, l1 ⊆ l → ∀ parked pushed, triple t (all_since l) (refundRows sha256 deps l1 parked pushed)
    (λ _ _, True) (λ _, all_since l)) as Hall by by apply Hall.
  clear parked pushed. induction l1 as [|r l1 IH]; intros Hl1 parked pushed; cbn [refundRows]; [by hret|].
  assert (Knows (all_since l) r) as HKn.
  { split; [apply _| |by apply Hl, Hl1; left]. intros w Hw. apply Hw, Hl1. left. }
  assert (∀ parked pushed, triple t (all_since l) (refundRows sha256 deps l1 parked pushed) (λ _ _, True) (λ _, all_since l)) as Hrest.
  { intros. apply IH. etrans; [|exact Hl1]. by apply list_subseteq_cons. }
  hk; [case_match; [hk; [oc|intros ?; oc]|oc]|]. intros [e|]; [hk; [oc|intros ?; apply Hrest]|].
  hk; [apply (caught_keep port); [apply _|]; apply refundRow_spec; [done|by apply Hl, Hl1; left]|].
  intros [moved|e]; [apply Hrest|]. hk; [destruct e; try oc; hk; [oc|intros ?; oc]|].
  intros parked'. hk; [oc|]. intros ?. apply Hrest.
Qed.

Lemma onchain_refundSweep_safe parked : safe port t (refundSweep sha256 deps parked).
Proof.
  unfold refundSweep. hseq; [by apply (hoare_now port t (λ _, True) (λ _ _, True)); apply _|done|]. intros at_.
  hseq.
  { apply (hoare_rows port t (λ _, True) _ (λ r, returnable (state r) = true)); [apply _|].
    intros d r [(Hs & _) Hin]%elem_of_order_by%list_elem_of_filter. split; [done|by rewrite Hs]. }
  { done. }
  intros l1. eapply hoare_seq; try apply _.
  { apply (hoare_rows port t _ _ (λ r, returnable (state r) = true)); [apply _|].
    intros d r [(Hs & _) Hin]%elem_of_order_by%list_elem_of_filter. split; [done|by rewrite Hs]. }
  { done. }
  intros l2. cbn zeta.
  apply (hoare_pre _ _ _ _ _ (λ w, all_since (l1 ++ l2) w ∧ ∀ r, r ∈ l1 ++ l2 → onchain_row_ok r ∧ returnable (state r) = true)).
  { intros w _ [[_ Hl1] Hl2]. split; intros r [Hr|Hr]%elem_of_app; [by apply Hl1|by apply Hl2|split; by apply Hl1|split; by apply Hl2]. }
  apply hoare_pure. intros Hl. by apply refundRows_spec.
Qed.
End sweeping.

Section returning_by_script.
Context (t : nat).

Lemma onchain_refundSweptLockup_safe script : safe port t (refundSweptLockup deps script).
Proof.
  unfold refundSweptLockup. case_match; [|by hret]. unfold refundSweptLockupFor. cbn [swept_find sweptDeps]. hseq.
  { apply (hoare_query port t (λ _, True) _ (λ found w, ∀ r, found = Some r → since (row_id r) r w ∧ onchain_row_ok r));
      try apply _.
    intros w Hi _ r Hr. apply head_Some_elem_of, elem_of_order_by, list_elem_of_filter in Hr as [_ Hin].
    destruct Hi as ([Hnd _] & Hok & _). pose proof (find_row_In _ _ Hnd Hin) as Hf.
    split; [|by eapply Hok]. exists r. split; [done|apply row_le_refl]. }
  { done. }
  intros [r|]; [|by hret].
  apply (hoare_pre _ _ _ _ _ (λ w, since (row_id r) r w ∧ onchain_row_ok r)); [intros w _ Hf; by apply Hf|].
  apply hoare_pure. intros Hr. pose proof (known_since r Hr) as HKn.
  eapply hoare_conseq with (P' := λ _, since (row_id r) r) (F' := λ _, since (row_id r) r); [|done..].
  cbn [swept_outputs swept_id swept_refund swept_close sweptDeps]. hk; [oc|]. intros [|o outputs]; [oc|].
  hbind.
  { assert (triple t (since (row_id r) r) (sweptVerdict sweptDeps r)
      (λ v w, since (row_id r) r w ∧ (∀ closing, v = inl closing → returnable (state r) = true)) (λ _, since (row_id r) r)) as Hv.
    { unfold sweptVerdict. cbn [swept_refused swept_decide swept_close swept_closable sweptDeps].
      case_bool_decide as Hs; hret; [|by split]. intros w _ Hw. rewrite Hs. by split. }
    exact Hv. }
  intros [closing|why]; [|hret; by intros w _ [? _]]. apply hoare_pure. intros Hs. specialize (Hs closing eq_refl). hk.
  { apply (hoare_act port t _ (RefundSwept (row_id r) (o :: outputs))); [apply _|done|]. exact (returnable_return _ r HKn Hs). }
  intros txid. cbn zeta. hk; [|intros ?; destruct closing; oc]. case_match; [|oc].
  cbn [swept_record sweptDeps swept_refundOutcome]. apply onchain_patch; [apply _|..]; by destruct (bool_decide (text_col r _ = _)).
Qed.

(** The operator's refund of one swap. *)
Lemma onchain_refundNow_safe i : sanctioned i → safe port t (refundNow sha256 deps i).
Proof.
  intros Hs. unfold refundNow. hseq; [by apply (hoare_get port t (λ _, True) i (λ _, True))|done|].
  intros r. apply (hoare_pre _ _ _ _ _ (λ w, since i r w ∧ (onchain_row_ok r ∧ row_id r = i))); [naive_solver|].
  apply hoare_pure. intros [Hok <-]. pose proof (known_since r Hok) as HKn.
  eapply hoare_conseq with (P' := λ _, since (row_id r) r) (F' := λ _, since (row_id r) r); [|done..]. hk.
  { unfold clientClaimPreimage. case_match; [|oc]. case_match. hbind; [by apply (findSpendWitness_spec t _ r)|].
    intros found. apply (hoare_pre _ _ _ _ _ (since (row_id r) r)); [by intros w _ [? _]|]. oc. }
  intros [p|]; [oc|]. apply onchain_pushRefund_spec; [apply _|]. intros w _ _. by left.
Qed.
End returning_by_script.

(** ** Taking the solver's HTLC back *)

Context (Hpower : interpolates power).

Lemma integer_num_sub a b : integer (num_sub (of_Z a) (of_Z b)) = Some (a - b).
Proof. unfold integer, num_sub, of_Z. cbn. rewrite Z.mod_1_r, Z.div_1_r. f_equal. lia. Qed.

Section reclaiming.
Context (t : nat) (K : W → Prop) (r : row) (txid : string) (vout : Z) `{!Knows K r}.
Context (Hout : fundingOutpoint r = Some (txid, vout)).

Lemma known_outpoint (r' : row) : row_le r r' → funded_at r' txid vout.
Proof.
  intros [Hq Hz]%row_le_thawed. eapply (funded_at_thawed r); [done..|].
  apply outpoint_funded; [by eapply known_columns|done].
Qed.

Lemma record_version s rate at_ :
  refund_of (quote r) txid vout s →
  triple t K (base_patch (row_id r) (version_fields r (signed_id s) rate at_)) (λ _, K) (λ _, K).
Proof.
  intros Hs. apply (row_patch_known port); [done|done|]. intros r' at' Hle Hok.
  apply row_ok_version; [done|by eapply known_columns| |done].
  exists txid, vout. split; [by apply known_outpoint|]. by destruct (row_le_thawed _ _ Hle) as [-> _].
Qed.

Lemma broadcast_version s :
  refund_of (quote r) txid vout s →
  triple t K (request (BroadcastRefund (row_id r) (extracted s))) (λ _, K) (λ _, K).
Proof.
  intros Hs. apply (hoare_act port t K (BroadcastRefund (row_id r) (extracted s))); [apply _|done|].
  intros w _ HKw. destruct (knows_since (r := r) w HKw) as (r' & Hr' & Hle). exists r', s. split_and!; [done| |done].
  exists txid, vout. split; [by apply known_outpoint|]. by destruct (row_le_thawed _ _ Hle) as [-> _].
Qed.

Lemma pushOnchainHtlcRefund_spec estimate previous :
  triple t K (pushOnchainHtlcRefund power deps r txid vout (Fin estimate) previous) (λ _, K) (λ _, K).
Proof.
  unfold pushOnchainHtlcRefund. hbind; [by apply (hoare_lifted port t K); apply _|]. intros htlc.
  apply hoare_pure. intros Hhtlc. case_bool_decide as Hscript; cbn [negb]; [|oc]. cbn zeta.
  set (vsize := estimateRefundTxVsize _). set (rate := feeCapRate _ _ _). hk; [oc|]. intros at_.
  pose proof (replacement_pays_for_its_deadline power vsize (payoutSats (quote r)) ONCHAIN_DUST_SATS estimate
    (onchainRefundConfirmDeadline (OnchainSendStore.refundLocktime (quote r))) at_ Hpower) as Hfee.
  destruct (affordableFee _ _ _ _) as [fee|] eqn:Ha; [|oc]. destruct Hfee as (z & -> & Hz & _).
  case_match; [oc|]. hbind; [by apply (hoare_lifted port t K); apply _|]. intros sats.
  apply hoare_pure. unfold BigInt. rewrite integer_num_sub. intros [= <-].
  hbind; [by apply (hoare_asks port t K (SignRefund _)); apply _|]. intros s. apply hoare_pure. intros [Hsig Htext].
  assert (refund_of (quote r) txid vout s) as Hs.
  { exists htlc, (payoutSats (quote r) - z). split_and!; [done..|lia|]. fold vsize. lia. }
  hk; [oc|]. intros at'. hk; [by apply record_version|]. intros ?. hk; [by apply broadcast_version|]. intros ?. oc.
Qed.

Lemma replaceOnchainHtlcRefund_spec : triple t K (replaceOnchainHtlcRefund power deps r txid vout) (λ _, K) (λ _, K).
Proof.
  unfold replaceOnchainHtlcRefund. hk; [oc|]. intros at_. case_match; [oc|].
  hbind; [by apply (hoare_asks port t K EstimateFeeRate); apply _|]. intros rate. apply hoare_pure. intros [q ->].
  hk; [apply pushOnchainHtlcRefund_spec|]. intros ?. oc.
Qed.

Lemma landed_refund_move u :
  u ∈ trackedRefundTxids r → landed u →
  triple t K (transition (row_id r) OnchainSend.refunding_onchain OnchainSend.refunded (set_text "onchain_refund_txid" u))
    (nearer r 2) (λ _, K).
Proof.
  intros Hu Hl. destruct (tracked_ours r (known_columns K r _) u Hu) as (s & <- & Hs).
  eapply hoare_conseq; [apply (row_move_known port)|done| |done].
  - done.
  - by left.
  - done.
  - intros He. by apply rtc_once.
  - intros r' at_ Hle Hst Hok. destruct (row_le_thawed _ _ Hle) as [Hq Hz]. split.
    + apply insert_unthawed. right. cbn. decided.
    + apply row_ok_refunded; [done| |done|done]. by eapply (version_of_thawed r).
  - intros won w _ [_ Hw]. by apply (onchain_progressed r 2 OnchainSend.refunded); [|cbn; lia].
Qed.

Lemma revealed_move from p n :
  from ∈ [OnchainSend.awaiting_claim; OnchainSend.refunding_onchain] → reveals (quote r) txid vout p → (1 < n)%nat →
  triple t K (transition (row_id r) from OnchainSend.claiming (set_text "preimage" (hex_encode p))) (nearer r n) (λ _, K).
Proof.
  intros Hfrom Hp Hn. eapply hoare_conseq; [apply (row_move_known port)|done| |done].
  - done.
  - by left.
  - done.
  - intros He. by apply rtc_once.
  - intros r' at_ Hle Hst Hok. split.
    + apply insert_unthawed. right. cbn. decided.
    + eapply row_ok_claiming; [done|done|by apply known_outpoint| |done].
      by destruct (row_le_thawed _ _ Hle) as [-> _].
  - intros won w _ [_ Hw]. by apply (onchain_progressed r n OnchainSend.claiming).
Qed.
End reclaiming.

Section refunding.
Context (t : nat) (K : W → Prop) (r : row) `{!Knows K r}.

Lemma whenRefundingOnchain_spec : triple t K (whenRefundingOnchain sha256 power deps r) (nearer r 2) (λ _, K).
Proof.
  unfold whenRefundingOnchain. destruct (fundingOutpoint r) as [[txid vout]|] eqn:Ho; [|apply onchain_resting; [apply _|oc]].
  hbind; [by apply (outcomeOfAny_spec t K r)|]. intros tracked. apply hoare_pure. intros Htr. destruct tracked as [u| |].
  - destruct (Htr u eq_refl). by apply landed_refund_move.
  - apply onchain_resting; [apply _|]. by apply replaceOnchainHtlcRefund_spec.
  - hbind; [by apply (findSpendWitness_spec t K r)|]. intros found. apply hoare_pure. intros Hf. destruct found as [x|].
    + destruct (Hf x eq_refl) as [Hx Hb]. destruct (revealedBy sha256 r x) as [p|] eqn:Hp; [|apply onchain_resting; [apply _|oc]].
      eapply (revealed_move t K r txid vout Ho); [decided|by eapply revealedBy_reveals|lia].
    + hbind; [by apply (hoare_asks port t K EstimateFeeRate); apply _|]. intros rate. apply hoare_pure. intros [q ->].
      hk; [by apply pushOnchainHtlcRefund_spec|]. intros [u|reason again]; [oc|].
      hk; [destruct again; [hk; [oc|intros ?; oc]|oc]|]. intros []; [oc|]. apply onchain_resting; [apply _|oc].
Qed.

Lemma slotted_keep {A} self i (p : io A) :
  triple t K p (λ _, K) (λ _, K) → triple t K (slotted self i p) (λ _, K) (λ _, K).
Proof.
  intros Hp. unfold slotted. hbind.
  { apply (hoare_memory port t K); [apply _|]. intros w w' y [_ ->]. split_and!; reflexivity. }
  intros []; cbn [negb]; [|oc]. apply hoare_finally; try apply _; [exact Hp|].
  intros x w Hi Hw w' u ->.
  destruct (same_core_sound w (with_memory w (ticking w ∖ {[(self, i)]}) (inside w) (reported w) (sweeping w))) as [? Hr];
    [split_and!; reflexivity|done|].
  split_and!; [done|intros v _; apply Hr|]. by destruct x; apply (Forward_stable t K _ w); [apply Hr|..].
Qed.

Lemma reclaimUnclaimed_spec self txid vout waiting :
  fundingOutpoint r = Some (txid, vout) →
  triple t K (reclaimUnclaimed sha256 power deps self r txid vout waiting) (λ _, K) (λ _, K).
Proof.
  intros Ho. unfold reclaimUnclaimed. hbind; [by apply (findSpendWitness_spec t K r)|]. intros found.
  apply (hoare_pre _ _ _ _ _ K); [by intros w _ [? _]|]. case_match; [oc|]. apply slotted_keep.
  unfold reclaimVersion. destruct waiting as [latest|].
  - hk; [by apply replaceOnchainHtlcRefund_spec|]. intros ?. oc.
  - hbind; [by apply (hoare_asks port t K EstimateFeeRate); apply _|]. intros rate. apply hoare_pure. intros [q ->].
    hk; [by apply pushOnchainHtlcRefund_spec|]. intros [u|reason again]; oc.
Qed.
End refunding.

Lemma reclaimOnchainHtlc_safe t self i : safe port t (reclaimOnchainHtlc sha256 power deps self i).
Proof.
  unfold reclaimOnchainHtlc. hseq; [by apply (hoare_get port t (λ _, True) i (λ _, True))|done|].
  intros r. apply (hoare_pre _ _ _ _ _ (λ w, since i r w ∧ (onchain_row_ok r ∧ row_id r = i))); [naive_solver|].
  apply hoare_pure. intros [Hok <-]. pose proof (known_since r Hok) as HKn.
  eapply hoare_conseq with (P' := λ _, since (row_id r) r) (F' := λ _, since (row_id r) r); [|done..].
  destruct (fundingOutpoint r) as [[txid vout]|] eqn:Ho; [|oc].
  hbind; [by apply (outcomeOfAny_spec t (since (row_id r) r) r)|]. intros tracked.
  apply (hoare_pre _ _ _ _ _ (since (row_id r) r)); [by intros w _ [? _]|].
  destruct tracked; [oc|by apply reclaimUnclaimed_spec..].
Qed.

Lemma settleRefundDeposits_safe t : safe port t (settleRefundDeposits deps).
Proof.
  unfold settleRefundDeposits. case_match; [|by hret]. by apply (hoare_act port t (λ _, True) SettleReceiveAddress); [apply _|..].
Qed.

(** ** Funding *)

(** The row has recorded [tx]. *)
Definition recorded (r : row) (tx : string) (w : W) : Prop :=
  ∃ r' : row, find_row (db w) (row_id r) = Some r' ∧ quote r' = quote r ∧ cols r' !! "funding_tx" = Some (VText tx).
#[export] Instance recorded_forward r tx : Forward (recorded r tx).
Proof.
  intros w w' [Hd _] _ (r1 & Hr & Hq & Hc). destruct (Hd _ _ Hr) as (r' & Hr' & Hle).
  destruct (row_le_thawed _ _ Hle) as [Hq' Hz]. exists r'. split_and!; [done|congruence|]. apply Hz; [|done]. cbn. decided.
Qed.

Section publishing.
Context (t : nat) (K : W → Prop) (r : row) `{!Knows K r}.

Lemma adopt_move txid vout n :
  (∀ w (r' : row), K w → find_row (db w) (row_id r) = Some r' → paid_by r' txid vout) → (3 < n)%nat →
  triple t K (transition (row_id r) OnchainSend.funding_onchain OnchainSend.awaiting_claim
      (set_text "funding_txid" txid ++ set_int "funding_vout" vout)) (nearer r n) (λ _, K).
Proof.
  intros Hpaid Hn. eapply hoare_conseq with (P' := λ won w, K w ∧ (won = true → entered r OnchainSend.awaiting_claim w));
    [apply (base_move_keep port t K)|done| |done]; try apply _.
  - by left.
  - done.
  - intros He. by apply rtc_once.
  - intros w r' Hi HKw Hr' Hs Hok. by apply (row_ok_awaiting r' txid vout 0); eauto.
  - intros w r' at_ Hi HKw Hr' Hs Hok. apply row_ok_awaiting; eauto.
  - intros w r' at_ HKw Hr'. destruct (known_row K r w _ _ HKw Hr') as (_ & Hq & _).
    eexists. split_and!; [exact Hr'|exact Hq|apply state_le_refl].
  - intros won w _ [_ Hw]. by apply (onchain_progressed r n OnchainSend.awaiting_claim).
Qed.

Lemma lockupShortfall_keep : triple t K (lockupShortfall r) (λ _, K) (λ _, K).
Proof. unfold lockupShortfall. hk; [oc|]. intros outputs. oc. Qed.

Lemma fundingDecision_keep : triple t K (fundingDecision r) (λ _, K) (λ _, K).
Proof. unfold fundingDecision. hk; [oc|]. intros at_. oc. Qed.

Lemma fundingRefusal_spec :
  triple t K (fundingRefusal deps r)
    (λ x w, K w ∧ (x = None → providerPubkey (quote r) = live_providerPubkey deps)) (λ _, K).
Proof.
  unfold fundingRefusal. destruct (providerKeyCurrent _ _) eqn:Hk; cbn [negb]; [|by hret].
  apply bool_decide_eq_true in Hk. eapply hoare_conseq; [apply fundingDecision_keep|done| |done]. by intros x w _ HKw.
Qed.
Lemma fundingRefusal_keep : triple t K (fundingRefusal deps r) (λ _, K) (λ _, K).
Proof. eapply hoare_conseq; [apply fundingRefusal_spec|done|by intros x w _ [? _]|done]. Qed.

Lemma publishFunding_spec tx again :
  (∀ w, K w → recorded r tx w) → triple t K (publishFunding deps r tx again) (nearer r 4) (λ _, K).
Proof.
  intros Hrec. unfold publishFunding. hbind; [by apply (hoare_lifted port t K); apply _|]. intros [txid vout].
  apply hoare_pure. intros Ho. hk; [oc|]. intros outcome.
  hk.
  { case_match; [|oc]. unfold or_else. hk; [apply fundingRefusal_keep|]. intros [x|]; [oc|apply lockupShortfall_keep]. }
  intros [refusal|]; [apply onchain_resting; [apply _|oc]|]. hk.
  { case_match; [|oc]. apply (hoare_act port t K (BroadcastFunding (row_id r) tx)); [apply _|done|].
    intros w _ HKw. destruct (Hrec w HKw) as (r' & Hr' & Hq & Hc). exists r', (txid, vout). by rewrite Hq. }
  intros ?. apply adopt_move; [|lia]. intros w r' HKw Hr'. destruct (Hrec w HKw) as (r1 & Hr1 & Hq & Hc). simplify_eq.
  left. exists tx. by rewrite Hq.
Qed.

Lemma recordFundingTx_spec tx :
  triple t K (recordFundingTx (row_id r) tx) (λ won w, K w ∧ (won = true → recorded r tx w)) (λ _, K).
Proof.
  unfold recordFundingTx. hk; [apply (timed port); apply _|]. intros at_. hbind.
  { apply (set_once_spec port t K (recorded r tx)); try apply _.
    - intros w Hi _ r' Hr' Hs _. apply row_ok_recorded; [done|by eapply onchain_row_inv].
    - intros w r' Hi HKw Hr' Hc. destruct (known_row K r w _ _ HKw Hr') as (_ & Hq & _). by exists r'. }
  intros n. hret. intros w _ [HKw Hn]. split; [done|]. intros Hw%Nat.eqb_eq. apply Hn. lia.
Qed.

(** A refusal that finds no recorded funding. *)
Lemma refuseUnrecorded_keep reason : triple t K (refuseUnrecorded (row_id r) reason) (λ _, K) (λ _, K).
Proof.
  unfold refuseUnrecorded. apply (transitionWhere_keep port); [apply _|]. intros w at_ Hi _ _.
  split_and!; [by apply rtc_once; apply (bool_decide_unpack _); vm_compute|done|done|].
  intros r' Hr' Hs Hn. pose proof (onchain_row_inv _ _ _ Hi Hr') as Hok.
  set (f := [("failure_reason", Some (VText reason))]).
  assert (agree EVIDENCE (cols r') (set_columns f (cols r'))) as Ha by by apply plain_agree.
  split; [eapply agree_unthawed, agree_sub; [apply EVIDENCE_frozen|done]|].
  destruct Hok as [Hc [M1 M2 M3 M4 M5 M6]]. set (r2 := mkRow _ _ _ _ _ _).
  split; [by apply (columns_ok_agree r' r2)|]. change (promises OnchainSend.refused r2).
  split; unfold r2; cbn [cols]; rewrite ?Ha by set_solver.
  - rewrite Hn. by intros [? ?].
  - intros Hx%M2. exfalso. apply Hx. rewrite Hs. decided.
  - intros Hx%M3. by rewrite Hs in Hx.
  - done.
  - intros Hx. exfalso. revert Hx. decided.
  - done.
Qed.

Lemma refuseFunding_keep fresh reason : triple t K (refuseFunding r fresh reason) (nearer r 4) (λ _, K).
Proof.
  unfold refuseFunding. apply onchain_resting; [apply _|]. destruct fresh; [|oc].
  hk; [apply refuseUnrecorded_keep|]. intros []; [by apply (releaseLease_spec t K r)|oc].
Qed.

End publishing.

Section submitting.
Context (t : nat) (K : W → Prop) (r : row) `{!Knows K r} (Hpast : past_entry (state r) = true).

Lemma signFunding_keep :
  providerPubkey (quote r) = live_providerPubkey deps → triple t K (signFunding r) (λ _, K) (λ _, K).
Proof.
  intros Hkey. unfold signFunding. apply (hoare_try port t K); [apply _| |].
  - hk; [by apply lockupShortfall_keep|]. intros [x|]; [oc|]. hk; [oc|]. intros rate. hk; [|intros tx; oc].
    apply (hoare_act port t K (SignFunding _ _ _ _)); [apply _|done|].
    intros w _ HKw. destruct (knows_since (r := r) w HKw) as (r' & Hr' & _ & Hq & _ & Hle & _). exists r'. rewrite Hq.
    split_and!; [done|by eapply past_entry_le|done..].
  - intros e. hk; [by apply (releaseLease_spec t K r)|]. intros ?. oc.
Qed.

Lemma onchain_submitFunding_spec fresh : triple t K (submitFunding deps r fresh) (nearer r 4) (λ _, K).
Proof.
  unfold submitFunding. hk; [destruct fresh; [oc|by apply (onchain_claimLease_spec t K r)]|]. intros []; cbn [negb]; [|by hret].
  hbind; [by apply fundingRefusal_spec|]. intros refusal. apply hoare_pure. intros Hkey. destruct refusal as [x|]; [by apply refuseFunding_keep|].
  hk; [by apply signFunding_keep, Hkey|]. intros [tx|x]; [|by apply refuseFunding_keep].
  hbind; [by apply recordFundingTx_spec|]. intros won. rewrite if_negb. apply won_or_not; [|by hret].
  eapply hoare_conseq; [apply (publishFunding_spec t (λ w, K w ∧ recorded r tx w) r)|done|done|by intros e w _ [? _]].
  by intros w [_ ?].
Qed.
End submitting.

Section funding.
Context (t : nat) (K : W → Prop) (r : row) `{!Knows K r}.

Lemma onchain_whenQuoted_spec : triple t K (whenQuoted deps r) (nearer r 6) (λ _, K).
Proof.
  assert (∀ held reason, triple t K (recordHeldFail r held reason) (nearer r 6) (λ _, K)) as Hheld.
  { intros held reason. unfold recordHeldFail. hk; [oc|]. intros ?. apply onchain_resting; [apply _|oc]. }
  unfold whenQuoted. hk; [oc|]. intros all. hk; [oc|]. intros at_. case_match; [apply Hheld|].
  case_match; [apply onchain_resting; [apply _|oc]|]. case_match; [apply Hheld|].
  case_match; [case_match; [apply onchain_resting; [apply _|oc]|]|].
  - apply onchain_moved; [apply _|done|decided|done|cbn; lia].
  - case_match; [|by hret]. hk; [case_match; oc|]. intros ?. apply onchain_resting; [apply _|oc].
Qed.

Lemma onchain_below_mono n m i w :
  (n ≤ m)%nat → below (S := OnchainSend.state) (Q := OnchainQuote) (Eff := OnchainEffect) onchain_passes i n w →
  below onchain_passes i m w.
Proof. intros Hn (r' & ? & ?). exists r'. split; [done|lia]. Qed.

(** The funding right after the entry, on the row read again. *)
Lemma submit_entered :
  triple t (λ w, K w ∧ entered r OnchainSend.funding_onchain w)
    (bind (get (row_id r)) (λ current, submitFunding deps current true)) (nearer r 5) (λ _, K).
Proof.
  set (K' := λ w, K w ∧ entered r OnchainSend.funding_onchain w).
  apply (hoare_conseq _ _ _ _ _ K' _ _ (nearer r 5) _ (λ _, K')); [|done|done|by intros ? w _ [? _]].
  hbind.
  { apply (hoare_get port t K' (row_id r) (λ c, past_entry (state c) = true)); [apply _|].
    intros w c _ [_ (r' & Hr' & _ & Hs)] Hc. simplify_eq. by eapply past_entry_le. }
  intros c. apply (hoare_pre _ _ _ _ _ (λ w, (K' w ∧ since (row_id r) c w) ∧
    (onchain_row_ok c ∧ row_id c = row_id r ∧ past_entry (state c) = true))); [by intros w _ (? & ? & ? & ? & ?)|].
  apply hoare_pure. intros (Hok & Hid & Hp).
  assert (Knows (λ w, K' w ∧ since (row_id r) c w) c) as HKn.
  { split; [apply _| |done]. rewrite Hid. by intros w [_ ?]. }
  eapply hoare_conseq; [by apply (onchain_submitFunding_spec t (λ w, K' w ∧ since (row_id r) c w) c)|done| |].
  - intros moved w _ Hm. unfold CorridorRules.nearer in *. rewrite Hid in Hm. intros Hmv. apply (onchain_below_mono 4); [lia|auto].
  - by intros e w _ [? _].
Qed.

Lemma onchain_whenFunded_spec : triple t K (whenFunded deps r) (nearer r 5) (λ _, K).
Proof.
  unfold whenFunded. case_match; [apply onchain_resting; [apply _|oc]|].
  hk; [by apply fundingDecision_keep|]. intros [reason|]; [apply onchain_resting; [apply _|oc]|].
  hk; [by apply (askApproval_keep port); apply _|]. intros []; cbn [negb]; [|by hret].
  hk; [by apply lockupShortfall_keep|]. intros [x|]; [apply onchain_resting; [apply _|oc]|].
  hbind.
  { unfold enterFunding. hk; [apply (timed port); apply _|]. intros at_.
    apply onchain_move; [apply _|done|decided|done]. }
  intros won. rewrite if_negb. apply won_or_not; [|by hret]. apply submit_entered.
Qed.

Context (Hstate : state r = OnchainSend.funding_onchain).

Lemma onchain_recoverFunding_spec : triple t K (recoverFunding deps r) (nearer r 4) (λ _, K).
Proof.
  unfold recoverFunding. destruct (truthy (text_col r "funding_tx")) as [tx|] eqn:Htx.
  - apply publishFunding_spec; [apply _|]. intros w HKw. destruct (knows_since (r := r) w HKw) as (r' & Hr' & Hle).
    destruct (row_le_thawed _ _ Hle) as [Hq Hz]. exists r'. split_and!; [done..|]. apply Hz; [cbn; decided|].
    unfold text_col in Htx. destruct (cols r !! "funding_tx") as [v|] eqn:Hv; [|done].
    destruct (funding_text r (known_columns K r _) v Hv) as [tx' ->]. cbn in Htx. by destruct tx'; simplify_eq.
  - hbind; [by apply (hoare_asks port t K (FindOutputs _)); apply _|]. intros outputs. apply hoare_pure. intros Hpaid. cbn in Hpaid.
    destruct (list_find _ outputs) as [[n o]|] eqn:Hf; [|by apply onchain_submitFunding_spec; [apply _|rewrite Hstate]].
    apply list_find_Some in Hf as (Hn & Hval & _). apply adopt_move; [apply _| |lia].
    intros w r' HKw Hr'. destruct (known_row K r w r' _ HKw Hr') as (_ & Hq & _). right. exists o. rewrite Hq.
    split_and!; [|done..]. rewrite Forall_forall in Hpaid. apply Hpaid. by eapply list_elem_of_lookup_2.
Qed.

Lemma whenFundingOnchain_spec : triple t K (whenFundingOnchain deps r) (nearer r 4) (λ _, K).
Proof.
  unfold whenFundingOnchain. case_bool_decide as Ht; [|apply onchain_recoverFunding_spec].
  exfalso. destruct (knows_ok (K := K) (r := r)) as [_ Hm]. destruct (outpoint_in _ _ Hm); [|rewrite Hstate; decided].
  unfold text_col in Ht. destruct (cols r !! "funding_txid"); [by eexists|]. by destruct Ht.
Qed.
End funding.

Lemma whenAwaitingClaim_spec t K r : Knows K r → triple t K (whenAwaitingClaim sha256 r) (nearer r 3) (λ _, K).
Proof.
  intros HKn. unfold whenAwaitingClaim. destruct (fundingOutpoint r) as [[txid vout]|] eqn:Ho; [|apply onchain_resting; [apply _|oc]].
  hbind; [by apply (findSpendWitness_spec t K r)|]. intros found. apply hoare_pure. intros Hf. destruct found as [x|].
  - destruct (Hf x eq_refl) as [Hx Hb]. destruct (revealedBy sha256 r x) as [p|] eqn:Hp; [|apply onchain_resting; [apply _|oc]].
    hk; [oc|]. intros at_. hk; [case_match; oc|]. intros ?.
    eapply (revealed_move t K r txid vout Ho); [decided|by eapply revealedBy_reveals|lia].
  - hk; [oc|]. intros at_. case_match; [by apply onchain_moved; [apply _|done|decided|done|cbn; lia]|].
    apply onchain_resting; [apply _|]. unfold alertUnconfirmed, overdue. hk; [case_match; [hk; [oc|intros ?; oc]|oc]|].
    intros []; cbn [negb]; [|oc]. hk; [oc|]. intros outcome. case_match; [oc|]. hk; [oc|]. intros ?. oc.
Qed.

(** ** Collecting the lockup *)

Section collecting.
Context (t : nat) (K : W → Prop) (r : row) (preimage : string) `{!Knows K r}.
Context (claimable : ∀ w, K w → claim_ok (db w) (row_id r) preimage).
#[local] Abbreviation ops := (unrolledOps deps (row_id r) preimage).

Lemma onchain_ops_keep : OpsKeep port t K ops rowStore (row_id r).
Proof.
  split; cbn [store_patch rowStore resumeUnrolled claimUnrolled findLockupOutpoints UnrolledSpend.findClaimPreimage unrolledOps].
  - intros steps. oc.
  - intros output. apply (hoare_act port t K (ResumeUnrolled (row_id r) output preimage)); [apply _|done|].
    intros w _. apply claimable.
  - destruct (claimsUnrolled deps); [|done]. intros claim [= <-] output record.
    apply (hoare_act port t K (ClaimUnrolled (row_id r) output record preimage)); [apply _|done|].
    intros w _. apply claimable.
  - destruct (readsOutpoints deps); [|done]. intros find [= <-] script. oc.
  - destruct (readsClaimPreimage deps); [|done]. intros find [= <-] o h. hk; [oc|]. intros found. oc.
Qed.

Lemma onchain_claimed f :
  plain f = true →
  triple t K (transition (row_id r) OnchainSend.claiming OnchainSend.claimed f) (nearer r 1) (λ _, K).
Proof. intros Hf. by apply onchain_moved; [apply _|done|decided|done|cbn; lia]. Qed.

Lemma onchain_still : ∀ w, Inv w → K w → nearer r 1 false w.
Proof. done. Qed.

Lemma leftoverOf_keep claimed unrolled : triple t K (leftoverOf deps r preimage claimed unrolled) (λ _, K) (λ _, K).
Proof. by apply (lockupLeftover_keep port t K ops rowStore (row_id r)), onchain_ops_keep. Qed.

Lemma pastRefund_keep : triple t K (pastRefund r) (λ _, K) (λ _, K).
Proof. unfold pastRefund. hk; [oc|]. intros at_. oc. Qed.

Lemma landedEarlier_keep : triple t K (landedEarlier deps r preimage) (λ _, K) (λ _, K).
Proof.
  unfold landedEarlier. hk; [case_match; oc|]. intros outpoints. hk; [case_match; oc|]. intros found.
  case_match; [|oc]. hk; [apply leftoverOf_keep|]. intros leftover. oc.
Qed.

Lemma onchain_whenShort_spec held : triple t K (whenShort deps r held preimage) (nearer r 1) (λ _, K).
Proof.
  unfold whenShort. hk; [oc|]. intros evidence. cbn zeta.
  hk; [case_match; [oc|hk; [apply pastRefund_keep|intros ?; oc]]|]. intros []; [oc|]. hk.
  { case_match; [|oc].
    apply (hoare_act port t K (FinalizePendingClaim (row_id r) preimage)); [apply _|done|]. intros w _. apply claimable. }
  intros pending. case_match; [by apply onchain_claimed|]. hk; [apply landedEarlier_keep|].
  intros []; [by apply onchain_claimed|]. apply onchain_resting; [apply _|oc].
Qed.

Lemma onchain_claimOffchain_keep outputs : triple t K (claimOffchain r outputs preimage) (λ _, K) (λ _, K).
Proof.
  unfold claimOffchain. apply (hoare_try port t K); [apply _| |].
  - case_match; [oc|]. hk; [|intros txid; oc].
    apply (hoare_act port t K (ClaimLockup (row_id r) outputs preimage)); [apply _|done|]. intros w _. apply claimable.
  - intros e. hk; [apply pastRefund_keep|]. intros []; [|oc]. hk; [oc|]. intros ?. oc.
Qed.

Lemma onchain_finishClaim_spec outputs txid unrolled :
  triple t K (finishClaim deps r outputs preimage txid unrolled) (nearer r 1) (λ _, K).
Proof.
  unfold finishClaim. hk.
  { unfold leftoverNow. destruct (match unrolled with None => true | Some c => settled c end); [|oc].
    hk; [destruct txid; [hk; [oc|intros ?; oc]|oc]|]. intros claimed. apply leftoverOf_keep. }
  intros leftover. case_match.
  { hk; [apply pastRefund_keep|]. intros past.
    by apply (awaitLeftover_spec port t K); [apply onchain_still|intros reason; cbn [store_fail rowStore]; oc|intros text; cbn [store_patch rowStore]; oc]. }
  destruct unrolled as [claims|].
  - hk; [destruct txid; oc|]. intros ?.
    by apply (settleUnrolledClaims_spec port t K); [apply onchain_still|intros reason; cbn [store_fail rowStore]; oc|by apply onchain_claimed].
  - apply onchain_resting; [apply _|]. eapply hoare_conseq; [by apply onchain_move; [apply _|done|decided|done]|done| |done].
    by intros ? w _ [? _].
Qed.
End collecting.

(** A row that is claiming has the client's preimage. *)
Lemma claiming_claimable K r preimage :
  Knows K r → revealed (state r) = true → truthy (text_col r "preimage") = Some preimage →
  ∀ w, K w → claim_ok (db w) (row_id r) preimage.
Proof.
  intros HKn Hs Hp w HKw. destruct (knows_since (r := r) w HKw) as (r' & Hr' & Hle). destruct (row_le_thawed _ _ Hle) as [Hq Hz].
  unfold text_col in Hp. destruct (cols r !! "preimage") as [v|] eqn:Hv; [|done].
  destruct (preimage_revealed r (known_columns K r _) v Hv) as (p & txid & vout & -> & Hf & Hw).
  exists r', p, txid, vout. rewrite Hq. split_and!; [done| | |by eapply (funded_at_thawed r)|done].
  - eapply revealed_le; [apply Hle|done].
  - cbn [value_text] in Hp. by destruct (hex_encode p); cbn in Hp; simplify_eq.
Qed.

Lemma onchain_whenClaiming_spec t K r :
  Knows K r → state r = OnchainSend.claiming → triple t K (whenClaiming deps r) (nearer r 1) (λ _, K).
Proof.
  intros HKn Hs. unfold whenClaiming.
  destruct (truthy (text_col r "preimage")) as [preimage|] eqn:Hp; [|apply onchain_resting; [apply _|oc]].
  assert (∀ w, K w → claim_ok (db w) (row_id r) preimage) as Hclaim by (apply claiming_claimable; [done|by rewrite Hs|done]).
  hk; [oc|]. intros all.
  hk; [by apply (advanceUnrolledClaims_keep port t K (unrolledOps deps (row_id r) preimage) rowStore (row_id r)), onchain_ops_keep|].
  intros unrolled. cbn zeta. case_match; [by apply onchain_whenShort_spec|].
  hk; [by apply onchain_claimOffchain_keep|]. intros [txid|[]]; [by apply onchain_finishClaim_spec|by hret].
Qed.

(** ** Ticks and sweeps *)

Section ticks.
Context (t : nat).

Lemma onchain_step_spec K r :
  Knows K r → triple t K (step sha256 power deps r) (nearer r (onchain_passes (state r))) (λ _, K).
Proof.
  intros HKn. unfold step. destruct (state r) eqn:Hs; try by hret.
  - apply onchain_whenQuoted_spec; apply _.
  - apply onchain_whenFunded_spec; apply _.
  - by apply whenFundingOnchain_spec.
  - by apply whenAwaitingClaim_spec.
  - by apply onchain_whenClaiming_spec.
  - by apply whenRefundingOnchain_spec.
Qed.

Lemma onchain_tick_safe self fuel i : safe port t (tick sha256 power deps self fuel i).
Proof.
  apply (safe_guardedTick port). intros r Hr. eapply hoare_conseq; [by apply onchain_step_spec, known_since|done..].
Qed.

(** The loop of a tick ends within seven passes. *)
Lemma onchain_drive_ends i n :
  (7 ≤ n)%nat → triple t (λ _, True) (drive n i (step sha256 power deps)) (λ ended _, ended = true) (λ _ _, True).
Proof.
  intros Hn. apply (drive_ends port t onchain_passes i).
  - exact onchain_passes_le.
  - intros r Hr. eapply hoare_conseq; [by apply onchain_step_spec, known_since|done..].
  - intros s. destruct s; cbn; lia.
Qed.

Lemma onchain_held_off_safe self i : safe port t (held_off self i).
Proof.
  unfold held_off. hseq; [by apply (asks_keep port t (λ _, True)); apply _|done|]. intros []; [by hret|].
  apply (hoare_memory port t (λ _, True)); [apply _|]. intros w w' b [_ ->]. split_and!; reflexivity.
Qed.

Lemma onchain_tickAll_safe self fuel : safe port t (tickAll sha256 power deps self fuel).
Proof.
  unfold tickAll. hseq; [by apply (live_rows_safe port)|done|]. intros l.
  apply (safe_sweep port); intros i; [apply onchain_held_off_safe|apply onchain_tick_safe].
Qed.

(** Back to the claim: the preimage on the row is what justifies it. *)
Lemma onchainClaimNow_safe i : safe port t (onchainClaimNow sha256 i).
Proof.
  unfold onchainClaimNow. hseq; [by apply (hoare_get port t (λ _, True) i (λ _, True))|done|].
  intros r. apply (hoare_pre _ _ _ _ _ (λ w, since i r w ∧ (onchain_row_ok r ∧ row_id r = i))); [naive_solver|].
  apply hoare_pure. intros [Hok <-]. pose proof (known_since r Hok) as HKn.
  eapply hoare_conseq with (P' := λ _, since (row_id r) r) (F' := λ _, since (row_id r) r); [|done..].
  case_match; [oc|]. destruct (truthy (text_col r "preimage")) as [p|] eqn:Hp; [|oc]. case_match; [oc|].
  hk; [|intros won; case_match; oc].
  eapply hoare_conseq; [apply (row_move_known port)|done|by intros won w _ [? _]|done].
  - done.
  - by left.
  - done.
  - intros He. by apply rtc_once.
  - intros r' at_ (_ & _ & _ & _ & Hk & _) Hs [Hc [M1 M2 M3 M4 M5 M6]]. split; [by eapply agree_unthawed|].
    assert (is_Some (cols r' !! "preimage")) as [v Hv].
    { apply Hk; [done|]. unfold text_col in Hp. destruct (cols r !! "preimage"); [by eexists|done]. }
    split; [by apply (columns_ok_agree r')|]. split; cbn [cols moved set_columns].
    + intros _. decided.
    + intros _. decided.
    + done.
    + intros _. destruct (preimage_revealed _ Hc v Hv) as (q & txid & vout & _ & (Ht & _) & _). rewrite Ht. by eexists.
    + intros _. by exists v.
    + done.
Qed.

(** ** A quote *)

Lemma onchain_insertQuote_safe i q : safe port t (insertQuote i q).
Proof.
  unfold insertQuote. hseq; [apply (timed port t (λ _, True)); apply _|done|]. intros at_. hseq.
  { apply (hoare_sql port t (λ _, True) _ (λ _ _, True)); try apply _; [|done]. intros w _ _.
    assert (∀ c, (∅ : gmap string sqlval) !! c = None) as He by (intros c; apply lookup_empty).
    split; split; cbn [cols state]; rewrite ?He; try done; try by intros [? ?].
    - intros u Hu. unfold trackedRefundTxids, priorRefundTxids, text_col in Hu. cbn [cols] in Hu. rewrite !He in Hu.
      by apply not_elem_of_nil in Hu.
    - intros Hx. exfalso. revert Hx. decided. }
  { done. }
  intros n. hseq; [by apply (recordEvent_keep port t (λ _, True)); apply _|done|]. intros ?. apply (safe_get port).
Qed.
End ticks.
End onchain_discipline.
