(* ===== verification/OnchainSendSafety.v ===== *)
(** * The guarantees of the onchain send service

    [onchain_reachable] is every point of every run of any number of instances
    of [OnchainSendSwapService]: their ticks, sweeps, refund sweeps, swept
    refunds, an operator's refunds, reclaims and recoveries, and inserted
    quotes, interleaved event by event, with crashes and restarts. The theorems
    say that a funding is single, what licenses the return and the collection of
    a lockup, what a reclaim of the HTLC spends, what the rows promise, that a
    tick ends, that a run is a run of the declared lifecycle, and that two
    instances replacing a refund at once lose track of one of them. *)
From Stdlib Require Import QArith_base.
From S2P Require Import Prelude Timelocks StateMachine Prog SwapDb EvmRow Store World Corridor Lockup UnrolledSpend SweptRefund Covenant OnchainRail.
From S2P Require Import BaseStore OnchainSendStore OnchainSendService Discipline Rules CorridorRules Refinement OnchainSendProof.
#[local] Open Scope Z_scope.

#[local] Abbreviation row := OnchainRow.
#[local] Abbreviation W := (World OnchainSend.state OnchainQuote OnchainEffect).
#[local] Abbreviation event := (evt OnchainSend.state OnchainQuote OnchainEffect onchain_read).

Section reachable.
Context (sha256 : list Z → list Z) (power : num → num → num).
Context (spends : string → Z → list (list Z) → Prop) (landed : string → Prop).
Context (onchain_paid : string → FundedOnchainOutput → Prop) (signature_of : Transaction → SignedTx → Prop).
Context (sanctioned : string → Prop) (Hpower : interpolates power).
Context {signer : BtcSigner} {arkade : Arkade} {parser : TxParser} {exit : OnchainRecourse} {json : Json} (deps : OnchainDeps).

(** What an instance may start. *)
Inductive onchain_program : prog event unit → Prop :=
  | onchain_tick self fuel i : onchain_program (forget (tick sha256 power deps self fuel i))
  | onchain_sweep self fuel : onchain_program (forget (tickAll sha256 power deps self fuel))
  | onchain_refunds parked : onchain_program (forget (refundSweep sha256 deps parked))
  | onchain_swept script : onchain_program (forget (refundSweptLockup deps script))
  | onchain_refund_now i : sanctioned i → onchain_program (forget (refundNow sha256 deps i))
  | onchain_reclaim self i : onchain_program (forget (reclaimOnchainHtlc sha256 power deps self i))
  | onchain_claim_now i : onchain_program (forget (onchainClaimNow sha256 i))
  | onchain_settle : onchain_program (forget (settleRefundDeposits deps))
  | onchain_quote i q : onchain_program (forget (insertQuote i q))
  | onchain_process self : onchain_program (trigger (Restart self)).

#[local] Abbreviation ports := (onchain_port spends landed onchain_paid signature_of).
#[local] Abbreviation runs := (rtc (cstep (handle (Entry OnchainSend.quoted) ports) onchain_program)).
Definition onchain_reachable (c : W * list (nat * prog event unit)) : Prop := runs (empty_world, []) c.

#[local] Abbreviation D := (OnchainDiscipline sha256 spends landed onchain_paid signature_of sanctioned deps).
#[local] Abbreviation Inv := (Discipline.Inv (D := D)).
#[local] Abbreviation Rely := (Discipline.Rely (D := D)).
#[local] Abbreviation funded_at := (funded_at onchain_paid).
#[local] Abbreviation refund_of := (refund_of signature_of deps).
#[local] Abbreviation version_of := (version_of onchain_paid signature_of deps).
#[local] Abbreviation reveals := (reveals sha256 spends).

Lemma onchain_program_safe t p :
  onchain_program p → ∀ w, Inv w → wp (handle (Entry OnchainSend.quoted) ports) Inv Rely t p (λ _ _, True) w.
Proof.
  intros Hp w Hi. destruct Hp; [apply (forget_safe (D := D) ports); [|done]..|by apply (restart_safe (D := D) ports)].
  - by apply onchain_tick_safe.
  - by apply onchain_tickAll_safe.
  - apply onchain_refundSweep_safe.
  - apply onchain_refundSweptLockup_safe.
  - by apply onchain_refundNow_safe.
  - by apply reclaimOnchainHtlc_safe.
  - apply onchainClaimNow_safe.
  - apply settleRefundDeposits_safe.
  - apply onchain_insertQuote_safe.
Qed.

Lemma onchain_sound c : onchain_reachable c → sound (handle (Entry OnchainSend.quoted) ports) Inv Rely c.
Proof. apply (instances_sound (D := D) ports _ onchain_program_safe). Qed.

Lemma onchain_reachable_inv c : onchain_reachable c → Inv c.1.
Proof. intros Hc. by apply onchain_sound in Hc as (_ & ? & _). Qed.

(** ** What leaves *)

(** C11: the solver funds a swap's HTLC with one transaction: every funding ever
    broadcast for a swap is the transaction its row recorded before, so any two
    are the same one, it pays the quoted script the quoted payout in exactly one
    output, and the swap was not refused; what the solver signs for a swap is a
    payment of exactly the payout to the swap's own address, by the key the
    quote was given under. *)
Theorem onchain_funding_is_single c i :
  onchain_reachable c →
  (∀ tx, BroadcastFunding i tx ∈ sent c.1 →
     ∃ r o, find_row (db c.1) i = Some r ∧ cols r !! "funding_tx" = Some (VText tx) ∧
       fundingOutputOf tx (quote r) = Ok o ∧
       (state r ∉ [OnchainSend.quoted; OnchainSend.funded; OnchainSend.refused])) ∧
  (∀ tx1 tx2, BroadcastFunding i tx1 ∈ sent c.1 → BroadcastFunding i tx2 ∈ sent c.1 → tx1 = tx2) ∧
  (∀ address sats rate, SignFunding i address sats rate ∈ sent c.1 →
     ∃ r, find_row (db c.1) i = Some r ∧ address = onchainAddress (quote r) ∧ sats = payoutSats (quote r) ∧
       providerPubkey (quote r) = live_providerPubkey deps).
Proof.
  intros Hc. pose proof (onchain_reachable_inv c Hc) as (_ & Hok & He & _).
  assert (∀ tx, BroadcastFunding i tx ∈ sent c.1 → funding_ok (db c.1) i tx) as Hf by (intros tx Hin; exact (He _ Hin)).
  split_and!.
  - intros tx Hin. destruct (Hf tx Hin) as (r & o & Hr & Hcol & Ho). exists r, o. split_and!; [done..|].
    destruct (Hok i r Hr) as [_ Hm]. apply (recorded_in _ _ _ _ _ _ Hm). rewrite Hcol. by eexists.
  - intros tx1 tx2 (r & _ & Hr & Hc1 & _)%Hf (r' & _ & Hr' & Hc2 & _)%Hf. simplify_eq. congruence.
  - intros address sats rate Hin. destruct (He _ Hin) as (r & Hr & _ & Ha). by exists r.
Qed.

(** The swap a request spends the lockup of, and the preimage it does it with. *)
Definition onchain_collects (a : OnchainEffect) : option (string * string) :=
  match a with
  | ClaimLockup i _ preimage | FinalizePendingClaim i preimage | ClaimUnrolled i _ _ preimage
  | ResumeUnrolled i _ preimage => Some (i, preimage)
  | _ => None
  end.
Definition onchain_gives_back (a : OnchainEffect) : option string :=
  match a with RefundLockup i _ | RefundSwept i _ => Some i | _ => None end.

Lemma collected c a i preimage :
  onchain_reachable c → a ∈ sent c.1 → onchain_collects a = Some (i, preimage) →
  claim_ok sha256 spends onchain_paid (db c.1) i preimage.
Proof.
  intros Hc Hin Ha. pose proof (onchain_reachable_inv c Hc) as (_ & _ & He & _). specialize (He _ Hin). by destruct a; simplify_eq/=.
Qed.

(** C12: a lockup is only collected with what the client gave away: every claim,
    finalisation or claim of an unrolled output carries the preimage of the
    swap's payment hash that a spend of the row's own funding outpoint revealed
    on chain, and the outpoint is an output of the recorded funding or one of
    exactly the payout at the swap's address. *)
Theorem onchain_claims_are_backed c a i preimage :
  onchain_reachable c → a ∈ sent c.1 → onchain_collects a = Some (i, preimage) →
  ∃ r p txid vout witness, find_row (db c.1) i = Some r ∧
    state r ∈ [OnchainSend.claiming; OnchainSend.claimed; OnchainSend.stuck] ∧
    preimage = hex_encode p ∧ preimageMatchesHash sha256 preimage (paymentHash (quote r)) = true ∧
    funded_at r txid vout ∧ spends txid vout witness ∧ preimageFromClaimWitness witness = Some p.
Proof.
  intros Hc Hin Ha. destruct (collected c a i preimage Hc Hin Ha) as (r & p & txid & vout & Hr & Hs & -> & Hf & w & Hw & Hp & Hb & Hh).
  exists r, p, txid, vout, w. split_and!; try done.
  - apply list_elem_of_In. destruct (state r); try done; cbn; tauto.
  - unfold preimageMatchesHash. rewrite hex_decode_encode by done. by apply bool_decide_eq_true.
Qed.

(** C13: unless an operator, having read the chain, orders it, a client's lockup
    goes back in two cases only: the swap was refused, and then no funding of it
    was ever broadcast; or the solver's own refund of the HTLC, a version signed
    for the row's own outpoint, is confirmed. A swap that gives a lockup back
    has collected nothing, before or after. *)
Theorem onchain_returns_exclude_payouts c a i :
  onchain_reachable c → a ∈ sent c.1 → onchain_gives_back a = Some i → ¬ sanctioned i →
  ∃ r, find_row (db c.1) i = Some r ∧
    ((state r = OnchainSend.refused ∧ ∀ tx, BroadcastFunding i tx ∉ sent c.1) ∨
     (state r = OnchainSend.refunded ∧
        ∃ v txid vout, funded_at r txid vout ∧ refund_of (quote r) txid vout v ∧ landed (signed_id v))) ∧
    ∀ a' preimage, a' ∈ sent c.1 → onchain_collects a' ≠ Some (i, preimage).
Proof.
  intros Hc Hin Ha Hn. pose proof (onchain_reachable_inv c Hc) as (_ & Hok & He & _).
  assert (return_ok sanctioned (db c.1) i) as [?|(r & Hr & Hs)] by (specialize (He _ Hin); by destruct a; simplify_eq/=); [done|].
  destruct (Hok i r Hr) as [_ Hm]. exists r. split_and!; [done| |].
  - destruct (state r) eqn:Hst; try done; [right|left]; (split; [done|]).
    + destruct (refund_landed _ _ _ _ _ _ Hm eq_refl) as (v & (txid & vout & ? & ?) & ?). by exists v, txid, vout.
    + intros tx Hb. destruct (He _ Hb) as (r' & o & Hr' & Hcol & _). simplify_eq.
      apply (recorded_in _ _ _ _ _ _ Hm); [rewrite Hcol; by eexists|]. set_solver.
  - intros a' preimage Hin' Hcol. destruct (collected c a' i preimage Hc Hin' Hcol) as (r' & _ & _ & _ & Hr' & Hs' & _).
    assert (r' = r) as -> by congruence. by destruct (state r).
Qed.

(** A swap once parked, which no operator refunds, has its lockup given back
    neither before nor after. *)
Lemma parked_is_not_given_back c c' r i :
  onchain_reachable c → runs c c' → find_row (db c.1) i = Some r → state r = OnchainSend.stuck → ¬ sanctioned i →
  (∃ r', find_row (db c'.1) i = Some r' ∧ state r' ∈ [OnchainSend.claiming; OnchainSend.claimed; OnchainSend.stuck]) ∧
  ∀ a, a ∈ sent c'.1 → onchain_gives_back a ≠ Some i.
Proof.
  intros Hc Hr Hf Hs Hn. assert (onchain_reachable c') as Hc' by (unfold onchain_reachable; by etransitivity).
  pose proof (onchain_reachable_inv c' Hc') as (_ & _ & He & _).
  pose proof (instances_ordered (D := D) ports _ onchain_program_safe c c' Hc Hr) as [Hd _].
  destruct (Hd _ _ Hf) as (r' & Hf' & _ & _ & _ & Hle & _). rewrite Hs in Hle.
  pose proof (revealed_le _ _ Hle eq_refl) as Hk. split.
  - exists r'. split; [done|]. apply list_elem_of_In. destruct (state r'); try done; cbn; tauto.
  - intros a Hin Ha.
    assert (return_ok sanctioned (db c'.1) i) as [?|(r1 & Hr1 & Hs1)] by (specialize (He _ Hin); by destruct a; simplify_eq/=); [done|].
    rewrite Hf' in Hr1. injection Hr1 as <-. by destruct (state r').
Qed.

(** What a rebuilt HTLC has of its quote. *)
Lemma rebuilt_locktime q htlc : rebuiltHtlc deps q = Ok htlc → OnchainRail.refundLocktime htlc = htlcLocktime q.
Proof.
  unfold rebuiltHtlc, buildOnchainHtlc. intros H.
  repeat match type of H with mbind _ ?x = _ => destruct x; cbn [mbind result_bind] in H; [|done] end.
  by simplify_eq.
Qed.

(** C14: every reclaim of an HTLC the solver broadcasts spends the row's own
    funding outpoint: one input, under the refund leaf of the very script that
    was funded, not before the HTLC's locktime; one output, to the solver's
    destination, that is not dust and is short of the payout by at least one
    satoshi per virtual byte. *)
Theorem onchain_reclaims_spend_their_own_htlc c i tx :
  onchain_reachable c → BroadcastRefund i tx ∈ sent c.1 →
  ∃ r s t txid vout htlc sats, find_row (db c.1) i = Some r ∧ extracted s = tx ∧ signature_of t s ∧
    funded_at r txid vout ∧ rebuiltHtlc deps (quote r) = Ok htlc ∧
    hex_encode (OnchainRail.pkScript htlc) = onchainPkScript (quote r) ∧
    lockTime t = Some (htlcLocktime (quote r)) ∧
    (λ x, (in_txid x, in_index x, in_script x, in_amount x)) <$> inputs t =
      [(txid, vout, OnchainRail.pkScript htlc, payoutSats (quote r))] ∧
    in_leaf <$> inputs t = [Some (refundControlBlock htlc, refundScript htlc ++ [LEAF_VERSION])] ∧
    outputs t = [mkTxOutput (refundDestinationScript deps) sats] ∧
    ONCHAIN_DUST_SATS ≤ sats ∧
    sats + Zpos (estimateRefundTxVsize (spendOf deps (quote r) htlc txid vout (payoutSats (quote r)))) ≤ payoutSats (quote r).
Proof.
  intros Hc Hin. pose proof (onchain_reachable_inv c Hc) as (_ & _ & He & _).
  destruct (He _ Hin) as (r & s & Hr & (txid & vout & Hf & htlc & sats & Hh & Hscript & Hsig & _ & Hdust & Hfee) & Hx).
  exists r, s, (buildOnchainRefundTx (spendOf deps (quote r) htlc txid vout sats)), txid, vout, htlc, sats.
  split_and!; try done. cbn. by rewrite (rebuilt_locktime _ _ Hh).
Qed.

(** ** What the rows promise *)

(** C34: what the states of an onchain send row promise is in the row: from
    [awaiting_claim] on, unless it is parked, the funding outpoint, which the recorded transaction or
    the chain gave; claiming or claimed, the preimage a spend of it revealed,
    which no other row holds but a parked one; refunded, a confirmed refund of
    that outpoint. Every refund the row tracks is a version the solver signed
    for it. No funding is recorded or
    known before [funding_onchain], nor in a refused row. *)
Theorem onchain_rows_keep_their_promises c i r :
  onchain_reachable c → find_row (db c.1) i = Some r →
  (state r ∈ [OnchainSend.awaiting_claim; OnchainSend.claiming; OnchainSend.claimed;
              OnchainSend.refunding_onchain; OnchainSend.refunded] → ∃ txid vout, funded_at r txid vout) ∧
  (state r ∈ [OnchainSend.claiming; OnchainSend.claimed] →
     ∃ p txid vout, cols r !! "preimage" = Some (VText (hex_encode p)) ∧ funded_at r txid vout ∧ reveals (quote r) txid vout p) ∧
  (is_Some (cols r !! "preimage") → state r ∈ [OnchainSend.claiming; OnchainSend.claimed; OnchainSend.stuck]) ∧
  (state r = OnchainSend.refunded → ∃ v, version_of r v ∧ landed (signed_id v)) ∧
  (∀ t, t ∈ trackedRefundTxids r → ∃ v, signed_id v = t ∧ version_of r v) ∧
  (state r ∈ [OnchainSend.quoted; OnchainSend.funded; OnchainSend.refused] →
     cols r !! "funding_tx" = None ∧ cols r !! "funding_txid" = None).
Proof.
  intros Hc Hr. pose proof (onchain_reachable_inv c Hc) as (_ & Hok & _). destruct (Hok i r Hr) as [Hcol [M1 M2 M3 M4 M5 M6]].
  split_and!.
  - intros Hs. destruct M4 as [v Hv]; [|exact (outpoint_both _ _ _ _ _ _ Hcol v Hv)].
    apply list_elem_of_In in Hs. cbn in Hs. by destruct Hs as [<-|[<-|[<-|[<-|[<-|[]]]]]].
  - intros Hs. destruct (M5 Hs) as [v Hv]. destruct (preimage_revealed _ _ _ _ _ _ Hcol v Hv) as (p & txid & vout & -> & ? & ?).
    by exists p, txid, vout.
  - intros Hp. apply M3 in Hp. apply list_elem_of_In. destruct (state r); try done; cbn; tauto.
  - exact M6.
  - exact (tracked_ours _ _ _ _ _ _ Hcol).
  - intros Hs. split; [destruct (cols r !! "funding_tx") eqn:Ht|destruct (cols r !! "funding_txid") eqn:Ht]; try done; exfalso.
    + by destruct M1; [eexists|].
    + destruct M2; [by eexists|]. set_solver.
Qed.

(** C35: a tick ends: started at any moment of any run, whatever the other
    instances do meanwhile and however the backends answer, its loop is over
    within seven passes. *)
Theorem onchain_tick_ends c t i n :
  onchain_reachable c → (7 ≤ n)%nat →
  wp (handle (Entry OnchainSend.quoted) ports) Inv Rely t (drive n i (step sha256 power deps)) (λ r _, r ≠ Ok false) c.1.
Proof.
  intros Hc Hn. eapply wp_mono; [|by eapply (onchain_drive_ends sha256 power spends landed onchain_paid signature_of sanctioned deps Hpower t i n Hn);
    [apply onchain_reachable_inv|]].
  intros [ended|e] w _; cbn; [by intros ->|done].
Qed.

(** ** The specification the service refines *)

(** What the specification lets leave: signed and broadcast fundings and their
    reclaims past the entry into [funding_onchain], claims once the preimage is
    out, returns of lockups that were refused or reclaimed, or that an operator
    ordered. *)
Definition onchain_licensed (m : gmap string OnchainSend.state) (l : list OnchainEffect) (a : OnchainEffect) : Prop :=
  match a with
  | SignFunding i _ _ _ | BroadcastFunding i _ | BroadcastRefund i _ => ∃ s, m !! i = Some s ∧ past_entry s = true
  | ClaimLockup i _ _ | FinalizePendingClaim i _ | ClaimUnrolled i _ _ _ | ResumeUnrolled i _ _ =>
      ∃ s, m !! i = Some s ∧ revealed s = true
  | RefundLockup i _ | RefundSwept i _ => sanctioned i ∨ ∃ s, m !! i = Some s ∧ returnable s = true
  | SettleReceiveAddress => True
  end.
Definition onchain_spec := spec_step OnchainSend.quoted onchain_edge onchain_licensed.

Lemma onchain_act_licensed (w : W) a : Inv (with_sent w a) → onchain_licensed (phases (db w)) (sent w) a.
Proof.
  intros (_ & Hok & He & _). specialize (He a). cbn [db sent with_sent] in *.
  assert (onchain_effect_ok sha256 spends onchain_paid signature_of sanctioned deps (db w) a) as Ha by (apply He, elem_of_app; right; left).
  assert (∀ i r, find_row (db w) i = Some r → is_Some (cols r !! "funding_tx") ∨ is_Some (cols r !! "funding_txid") →
    past_entry (state r) = true) as Hpast.
  { intros i r Hr Hf. destruct (Hok i r Hr) as [_ [M1 M2 _ _ _ _]]. destruct (state r); try done; exfalso;
      destruct Hf as [Hf|Hf]; [apply (M1 Hf)|apply (M2 Hf)|apply (M1 Hf)|apply (M2 Hf)]; set_solver. }
  destruct a; cbn in Ha |- *; try done.
  - destruct Ha as (r & Hr & Hs & _). exists (state r). by rewrite phases_lookup, Hr.
  - destruct Ha as (r & o & Hr & Hcol & _). exists (state r). rewrite phases_lookup, Hr. split; [done|].
    eapply Hpast; [done|left]. rewrite Hcol. by eexists.
  - destruct Ha as (r & s & Hr & (txid & vout & (Hcol & _) & _) & _). exists (state r). rewrite phases_lookup, Hr. split; [done|].
    eapply Hpast; [done|right]. rewrite Hcol. by eexists.
  - destruct Ha as (r & p & txid & vout & Hr & Hs & _). exists (state r). by rewrite phases_lookup, Hr.
  - destruct Ha as (r & p & txid & vout & Hr & Hs & _). exists (state r). by rewrite phases_lookup, Hr.
  - destruct Ha as (r & p & txid & vout & Hr & Hs & _). exists (state r). by rewrite phases_lookup, Hr.
  - destruct Ha as (r & p & txid & vout & Hr & Hs & _). exists (state r). by rewrite phases_lookup, Hr.
  - destruct Ha as [?|(r & Hr & Hs)]; [by left|right]. exists (state r). by rewrite phases_lookup, Hr.
  - destruct Ha as [?|(r & Hr & Hs)]; [by left|right]. exists (state r). by rewrite phases_lookup, Hr.
Qed.

Lemma onchain_row_reached (r : row) :
  onchain_row_ok sha256 spends landed onchain_paid signature_of deps r → rtc onchain_edge OnchainSend.quoted (state r).
Proof.
  intros _. pose proof (edges_path (edges OnchainSendMachine)) as Hpath. unfold onchain_edge.
  set (live := [OnchainSend.funded; OnchainSend.funding_onchain; OnchainSend.awaiting_claim]).
  destruct (state r);
    [apply (Hpath [])|apply (Hpath [OnchainSend.funded])|apply (Hpath [OnchainSend.funded; OnchainSend.funding_onchain])
    |apply (Hpath live)|apply (Hpath (live ++ [OnchainSend.claiming]))|apply (Hpath (live ++ [OnchainSend.refunding_onchain]))
    |apply (Hpath (live ++ [OnchainSend.claiming; OnchainSend.claimed]))
    |apply (Hpath (live ++ [OnchainSend.refunding_onchain; OnchainSend.refunded]))
    |apply (Hpath [OnchainSend.refused])|apply (Hpath (live ++ [OnchainSend.stuck]))]; vm_compute; reflexivity.
Qed.

(** C19: the service refines the lifecycle the machine declares: seen as the
    phases of its swaps and the ledger of its requests, every run of its
    instances is a run of the specification, in which swaps are quoted, move
    along the machine's edges, and fund, reclaim, claim and return only in
    phases that license it. Nothing leaves claimed, refunded or refused. *)
Theorem onchain_refines_lifecycle c c' :
  onchain_reachable c → runs c c' →
  rtc onchain_spec (spec_of c.1) (spec_of c'.1) ∧
  ∀ i s, (spec_of c.1).1 !! i = Some s →
    s ∈ [OnchainSend.claimed; OnchainSend.refunded; OnchainSend.refused] → (spec_of c'.1).1 !! i = Some s.
Proof.
  intros Hc Hr.
  pose proof (simulation (D := D) ports onchain_program onchain_edge onchain_licensed
    (λ s s' H, H) onchain_row_reached onchain_act_licensed onchain_program_safe c c' (onchain_sound c Hc) Hr) as Hsim.
  split; [exact Hsim|]. intros i s Hi Ht.
  pose proof (instances_ordered (D := D) ports _ onchain_program_safe c c' Hc Hr) as [Hd _].
  unfold spec_of in *. cbn [fst] in *. rewrite phases_lookup in *. apply fmap_Some in Hi as (r & Hf & ->).
  destruct (Hd _ _ Hf) as (r' & -> & _ & _ & _ & Hle & _). cbn. f_equal. eapply edges_terminal; [exact Hle|].
  apply list_elem_of_In in Ht. cbn in Ht. by destruct Ht as [<-|[<-|[<-|[]]]].
Qed.
End reachable.

(** ** A run *)

Section run.
(** Every preimage of this hash function opens the first swap. *)
Definition or_sha256 : list Z → list Z := λ _, replicate 32 171.
Definition or_hash (n : nat) : string := hex_encode (replicate 32 (170 + Z.of_nat n)).
Definition or_script : list Z := 81 :: 32 :: replicate 32 5.

#[local] Instance or_signer : BtcSigner := {|
  scriptEncode items := [Z.of_nat (length items)];
  p2tr leaves _ := mkP2TR "bcrt1p" or_script ((λ leaf, (replicate 33 7, leaf ++ [LEAF_VERSION])) <$> leaves);
  vsizeWith _ _ := 120%positive;
|}.
#[local] Instance or_arkade : Arkade := {|
  arkAddressDecode _ := None; arkAddressServer _ := []; vhtlcScript _ := None; vhtlcAddress _ _ _ := "ark1q";
  ripemd160 _ := replicate 20 9;
|}.
(** A transaction of one output, its change aside; its id is its text. *)
#[local] Instance or_parser : TxParser := λ tx, Some ("id-" +:+ tx, [(Some [0], Some 7); (Some or_script, Some 90000)]).
#[local] Instance or_recourse : OnchainRecourse := λ _, "exit".
#[local] Instance or_json : Json := {|
  stringifyStep _ := "step"; stringifySteps _ := "{}"; parseSteps _ := Ok [];
  stringifyOutpoints _ := "[]"; parseOutpoints _ := Ok [];
|}.
Definition or_deps : OnchainDeps :=
  mkOnchainDeps "02aa" regtest_network [81; 32] false false false false false false false true 0.

Definition or_swap (n : nat) : OnchainQuote :=
  mkOnchainQuote (or_hash n) 100000 (Some 90000) 1700030000 "02aa" "02bb" 512 1024 604672
    ("5120" +:+ pretty n) "ark1q" "5120cc" "02ee" (Some "02dd") "5120ff" (Some true)
    (hex_encode (replicate 32 1)) (hex_encode (replicate 32 2)) 1700011400 1 ("bcrt1p" +:+ pretty n) (hex_encode or_script) None.

(** The client claims the first HTLC; the second is spent by the solver's own
    refund. *)
Definition or_witness (txid : string) : list (list Z) :=
  if decide (txid = "id-tx-bcrt1p1") then [[1]; [4; 5]] else [[1]].
Definition or_spends (txid : string) (vout : Z) (w : list (list Z)) : Prop := w = or_witness txid.
Definition or_paid (address : string) (o : FundedOnchainOutput) : Prop := False.
Definition or_sanctioned (i : string) : Prop := False.

(** A refund is known by what it pays. *)
Definition or_paid_out (t : Transaction) : Z := foldr (λ o, Z.add (out_amount o)) 0 (outputs t).
Definition or_sign (t : Transaction) : SignedTx :=
  mkSigned ("refund-" +:+ pretty (or_paid_out t)) ("hex-" +:+ pretty (or_paid_out t)).
Definition or_signature (t : Transaction) (s : SignedTx) : Prop := s = or_sign t.
#[local] Instance txid_text_dec s : Decision (txid_text s).
Proof. unfold txid_text. apply _. Defined.

(** What a moment shows: which outpoints are spent, which transaction is seen,
    which is confirmed, and the fee rate. *)
Record Moment := mkMoment {
  seen_spends : list string;
  in_mempool : list string;
  is_confirmed : option string;
  fee_rate : Z;
}.
Context (final : string).
(** One transaction is ever confirmed. *)
Definition or_landed (txid : string) : Prop := txid = final.

Definition or_oracle (m : Moment) (w : W) X (q : onchain_read X) : option X :=
  match q in onchain_read X return option X with
  | FindLockups script => Some [mkOutput ("fund" +:+ script) 0 100000 false None]
  | FindSweptLockups _ => Some []
  | SpendEvidence _ => Some evidence_unspent
  | FindLockupOutpoints _ => Some []
  | FindClaimPreimage _ _ => Some None
  | FindOutputs _ => Some []
  | FindSpendWitness txid _ _ =>
      Some (if decide (txid ∈ seen_spends m) then Some (or_witness txid) else None)
  | TransactionOutcome txid =>
      Some (if decide (is_confirmed m = Some txid ∧ txid = final) then outcome_confirmed
            else if decide (txid ∈ in_mempool m) then outcome_mempool else outcome_unknown)
  | EstimateFeeRate => Some (of_Z (fee_rate m))
  | SignRefund t => if decide (txid_text (signed_id (or_sign t))) then Some (or_sign t) else None
  | Approval _ _ => Some true
  | ShouldSkipTick _ => Some false
  end.

Definition or_reply (a : OnchainEffect) : Reply a :=
  match a return Reply a with
  | SignFunding _ address _ _ => "tx-" +:+ address
  | BroadcastFunding _ _ | BroadcastRefund _ _ => tt
  | ClaimLockup _ _ _ => "claimtx"
  | RefundLockup _ _ | RefundSwept _ _ => "refundtx"
  | FinalizePendingClaim _ _ => None
  | ClaimUnrolled _ _ _ _ | ResumeUnrolled _ _ _ => inr waiting
  | SettleReceiveAddress => []
  end.

#[local] Abbreviation ports := (onchain_port or_spends or_landed or_paid or_signature).
#[local] Abbreviation reachable :=
  (onchain_reachable or_sha256 linear_power or_spends or_landed or_paid or_signature or_sanctioned or_deps).
#[local] Abbreviation program := (onchain_program or_sha256 linear_power or_sanctioned or_deps).

(** The world as this moment answers for thread [t]. *)
#[local] Abbreviation answering t time m := (served (Entry OnchainSend.quoted) time (or_oracle m) or_reply t).

Lemma or_answering_handle t time m :
  (0 ≤ time)%Z → ∀ X (e : event X) w x w',
  answering t time m X e w = Some (x, w') → handle (Entry OnchainSend.quoted) ports t X e w w' x.
Proof.
  intros Htime X e w x w'. apply served_handle; [done| |by intros []].
  clear. intros w X q x Hx. destruct q; cbn in Hx |- *; simplify_eq; try done.
  - case_decide; [|done]. intros y [= <-]. split; [done|]. unfold or_witness. by case_decide; repeat constructor.
  - case_decide as Hd; [|by case_decide]. intros _. apply Hd.
  - by eexists.
  - case_decide as Ht; [|done]. by simplify_eq.
Qed.

(** One program run alone, from [w] to the world it leaves. *)
Definition or_session (time : Z) (m : Moment) (p : prog event unit) (w : W) : W :=
  match play (answering 0 time m) p w with
  | Some (_, w') => w'
  | None => w
  end.

Lemma or_session_reachable time m p w :
  (0 ≤ time)%Z → program p → reachable (w, []) → reachable (or_session time m p w, []).
Proof.
  intros Htime Hp Hw. unfold or_session. case_match eqn:Hplay; [|done]. case_match; subst.
  unfold onchain_reachable in *. etransitivity; [exact Hw|].
  eapply (play_session _ _ 0); [by apply or_answering_handle|exact Hp|exact Hplay].
Qed.

Definition or_tick (i : string) : prog event unit := forget (tick or_sha256 linear_power or_deps 0 7 i).

(** Two swaps quoted and funded on chain. *)
Definition or_funded : W :=
  let quiet := mkMoment [] [] None 2 in
  or_session 1700000060 quiet (forget (tickAll or_sha256 linear_power or_deps 0 7))
    (or_session 1700000001 quiet (forget (insertQuote "swap-2" (or_swap 2)))
      (or_session 1700000000 quiet (forget (insertQuote "swap-1" (or_swap 1))) empty_world)).

Lemma or_funded_reachable : reachable (or_funded, []).
Proof. do 3 (apply or_session_reachable; [done|constructor|]). apply rtc_refl. Qed.

(** The first is claimed by the client and collected; the second is not, and
    the solver takes its HTLC back before the lockup is returned. *)
Definition or_reclaiming : W :=
  or_session 1700016900 (mkMoment [] [] None 2) (or_tick "swap-2")
    (or_session 1700000200 (mkMoment ["id-tx-bcrt1p1"] [] None 2) (or_tick "swap-1") or_funded).
Definition or_world : W :=
  or_session 1700022000 (mkMoment ["id-tx-bcrt1p2"] [] None 2) (forget (refundSweep or_sha256 or_deps ∅))
    (or_session 1700017500 (mkMoment [] [] (Some final) 2) (or_tick "swap-2") or_reclaiming).

Lemma or_reclaiming_reachable : reachable (or_reclaiming, []).
Proof. do 2 (apply or_session_reachable; [done|constructor|]). apply or_funded_reachable. Qed.
Lemma or_world_reachable : reachable (or_world, []).
Proof. do 2 (apply or_session_reachable; [done|constructor|]). apply or_reclaiming_reachable. Qed.

(** *** Two replacements at once *)

(** The first version of the second swap's refund waits in the mempool and is
    due for a bump. Instance 0 signs its replacement, 9 events in; instance 1
    ticks from there, at a higher estimate, and records and broadcasts its own;
    instance 0 goes on. The replacement of instance 1 confirms, and the row is
    ticked again. *)
Definition bumping (rate : Z) : Moment := mkMoment [] ["refund-89760"] None rate.
Definition bump_by (self : nat) : prog event unit := forget (tick or_sha256 linear_power or_deps self 7 "swap-2").
Definition signed_first : option (prog event unit * W) :=
  advance 9 (answering 0 1700018200 (bumping 3)) (bump_by 0) or_reclaiming.
Definition bumped_by_other : option (unit * W) :=
  match signed_first with
  | Some (_, w) => play (answering 1 1700018201 (bumping 5)) (bump_by 1) w
  | None => None
  end.
Definition recorded_last : option (unit * W) :=
  match signed_first, bumped_by_other with
  | Some (p, _), Some (_, w) => play (answering 0 1700018202 (bumping 3)) p w
  | _, _ => None
  end.
Definition bumped_world : W :=
  match recorded_last with
  | Some (_, w) => or_session 1700019000 (mkMoment ["id-tx-bcrt1p2"] [] (Some final) 3) (or_tick "swap-2") w
  | None => or_reclaiming
  end.

(** The runs are compared as they are written. *)
#[local] Strategy expand [signed_first bumped_by_other recorded_last bump_by bumped_world].

Lemma or_times : (0 ≤ 1700018200 ∧ 0 ≤ 1700018201 ∧ 0 ≤ 1700018202)%Z.
Proof. done. Qed.
Lemma recorded_last_reachable w : recorded_last = Some (tt, w) → reachable (w, []).
Proof.
  unfold recorded_last, bumped_by_other. destruct signed_first as [[p w1]|] eqn:Ha; [|discriminate].
  destruct (play (answering 1 1700018201 (bumping 5)) (bump_by 1) w1) as [[b w2]|] eqn:Hp; [|discriminate].
  intros Hr. unfold onchain_reachable. etransitivity; [exact or_reclaiming_reachable|].
  exact (overtaken_session (handle (Entry OnchainSend.quoted) ports) program 0 1 9 (answering 0 1700018200 (bumping 3))
    (answering 1 1700018201 (bumping 5)) (answering 0 1700018202 (bumping 3)) (bump_by 0) (bump_by 1) or_reclaiming p w1 b w2 tt w
    (or_answering_handle _ _ _ (proj1 or_times)) (or_answering_handle _ _ _ (proj1 (proj2 or_times)))
    (or_answering_handle _ _ _ (proj2 (proj2 or_times))) (Nat.neq_0_succ 0) (onchain_tick _ _ _ _ 0 7 "swap-2") (onchain_tick _ _ _ _ 1 7 "swap-2") Ha Hp Hr).
Qed.

Lemma bumped_world_reachable : reachable (bumped_world, []).
Proof.
  unfold bumped_world. destruct recorded_last as [[[] w]|] eqn:Hr; [|apply or_reclaiming_reachable].
  apply or_session_reachable; [done|constructor|]. by apply recorded_last_reachable.
Qed.
End run.

#[local] Existing Instances or_signer or_arkade or_parser or_recourse or_json.
#[local] Abbreviation reachable final :=
  (onchain_reachable or_sha256 linear_power or_spends (or_landed final) or_paid or_signature or_sanctioned or_deps).
#[local] Abbreviation program := (onchain_program or_sha256 linear_power or_sanctioned or_deps).
#[local] Abbreviation reclaimed := "refund-89760".
#[local] Abbreviation replaced := "refund-74536".

Definition or_output (script : string) : FundedOutput := mkOutput ("fund" +:+ script) 0 100000 false None.

Lemma or_world_sent :
  sent (or_world reclaimed) =
    [SignFunding "swap-1" "bcrt1p1" 90000 (Fin 2); BroadcastFunding "swap-1" "tx-bcrt1p1";
     SignFunding "swap-2" "bcrt1p2" 90000 (Fin 2); BroadcastFunding "swap-2" "tx-bcrt1p2";
     ClaimLockup "swap-1" [or_output "51201"] "0405";
     BroadcastRefund "swap-2" "hex-89760"; RefundLockup "swap-2" [or_output "51202"]] ∧
  (state <$> rows (db (or_world reclaimed))) = [OnchainSend.claimed; OnchainSend.refunded].
Proof. vm_compute. split; reflexivity. Qed.

Lemma bumped_world_facts :
  (λ r, (state r, trackedRefundTxids r)) <$> find_row (db (bumped_world replaced)) "swap-2" =
    Some (OnchainSend.stuck, ["refund-74755"; "refund-89760"]) ∧
  BroadcastRefund "swap-2" "hex-74536" ∈ sent (bumped_world replaced).
Proof. split; [by vm_compute|]. apply (list_elem_of_lookup_2 _ 6%nat). by vm_compute. Qed.

#[local] Opaque or_world bumped_world.

(** C30: the ids a refund is tracked by do not survive two instances replacing it
    at once: each patch writes the list its own read of the row had, so the
    replacement the other instance has recorded and broadcast in between is
    forgotten. When that one confirms, the solver's own refund is taken for a
    foreign spend and the swap is parked as stuck; from there on, whatever the
    service does, it is not refunded and its lockup not given back as long as no
    operator runs [refundNow] on it. *)
Theorem concurrent_replacements_lose_a_refund :
  ∃ w r, reachable replaced (w, []) ∧ find_row (db w) "swap-2" = Some r ∧ state r = OnchainSend.stuck ∧
    BroadcastRefund "swap-2" "hex-74536" ∈ sent w ∧ or_landed replaced "refund-74536" ∧
    ("refund-74536" ∉ trackedRefundTxids r) ∧ length (trackedRefundTxids r) = 2%nat ∧
    ∀ c', rtc (cstep (handle (Entry OnchainSend.quoted)
        (onchain_port or_spends (or_landed replaced) or_paid or_signature)) program) (w, []) c' →
      (∃ r', find_row (db c'.1) "swap-2" = Some r' ∧
         state r' ∈ [OnchainSend.claiming; OnchainSend.claimed; OnchainSend.stuck]) ∧
      ∀ a, a ∈ sent c'.1 → onchain_gives_back a ≠ Some "swap-2".
Proof.
  destruct bumped_world_facts as [Hf Hin]. destruct (find_row _ _) as [r|] eqn:Hr; [|done]. cbn in Hf. injection Hf as Hs Ht.
  exists (bumped_world replaced), r. split_and!; [apply bumped_world_reachable|done|done|done|done| |by rewrite Ht|].
  - rewrite Ht. by apply (bool_decide_unpack _).
  - intros c' Hc'. exact (parked_is_not_given_back or_sha256 linear_power or_spends (or_landed replaced) or_paid or_signature
      or_sanctioned linear_interpolates or_deps (bumped_world replaced, []) c' r "swap-2" (bumped_world_reachable replaced)
      Hc' Hr Hs (λ H, H)).
Qed.

(** *** The theorems at work *)

Lemma onchain_funding_is_single_witness :
  ∃ r, find_row (db (or_world reclaimed)) "swap-2" = Some r ∧ cols r !! "funding_tx" = Some (VText "tx-bcrt1p2").
Proof.
  destruct (onchain_funding_is_single or_sha256 linear_power or_spends (or_landed reclaimed) or_paid or_signature or_sanctioned
    linear_interpolates or_deps (or_world reclaimed, []) "swap-2" (or_world_reachable reclaimed)) as (Hf & _ & _).
  destruct (Hf "tx-bcrt1p2") as (r & o & Hr & Hc & _); [|exists r; exact (conj Hr Hc)].
  cbn [fst]. rewrite (proj1 or_world_sent). do 3 right. left.
Defined.

Lemma onchain_claims_are_backed_witness :
  ∃ r txid vout, find_row (db (or_world reclaimed)) "swap-1" = Some r ∧ funded_at or_paid r txid vout ∧
    preimageMatchesHash or_sha256 "0405" (paymentHash (quote r)) = true.
Proof.
  destruct (onchain_claims_are_backed or_sha256 linear_power or_spends (or_landed reclaimed) or_paid or_signature or_sanctioned
    linear_interpolates or_deps (or_world reclaimed, []) (ClaimLockup "swap-1" [or_output "51201"] "0405") "swap-1" "0405"
    (or_world_reachable reclaimed)) as (r & p & txid & vout & w & Hr & _ & _ & Hm & Hf & _);
    [|reflexivity|exists r, txid, vout; exact (conj Hr (conj Hf Hm))].
  cbn [fst]. rewrite (proj1 or_world_sent). do 4 right. left.
Defined.

Lemma onchain_returns_exclude_payouts_witness :
  ∃ r, find_row (db (or_world reclaimed)) "swap-2" = Some r ∧
    (state r = OnchainSend.refused ∨ state r = OnchainSend.refunded).
Proof.
  destruct (onchain_returns_exclude_payouts or_sha256 linear_power or_spends (or_landed reclaimed) or_paid or_signature or_sanctioned
    linear_interpolates or_deps (or_world reclaimed, []) (RefundLockup "swap-2" [or_output "51202"]) "swap-2"
    (or_world_reachable reclaimed)) as (r & Hr & [[Hs _]|[Hs _]] & _);
    [|reflexivity|intros []|exists r; exact (conj Hr (or_introl Hs))|exists r; exact (conj Hr (or_intror Hs))].
  cbn [fst]. rewrite (proj1 or_world_sent). do 6 right. left.
Defined.

Lemma onchain_reclaims_spend_their_own_htlc_witness :
  ∃ r t, find_row (db (or_world reclaimed)) "swap-2" = Some r ∧ extracted (or_sign t) = "hex-89760" ∧
    lockTime t = Some (htlcLocktime (quote r)).
Proof.
  destruct (onchain_reclaims_spend_their_own_htlc or_sha256 linear_power or_spends (or_landed reclaimed) or_paid or_signature
    or_sanctioned linear_interpolates or_deps (or_world reclaimed, []) "swap-2" "hex-89760" (or_world_reachable reclaimed))
    as (r & s & t & txid & vout & htlc & sats & Hr & Hx & Hs & _ & _ & _ & Hl & _).
  { cbn [fst]. rewrite (proj1 or_world_sent). do 5 right. left. }
  exists r, t. rewrite <- Hs. exact (conj Hr (conj Hx Hl)).
Defined.

Lemma onchain_rows_keep_their_promises_witness :
  ∃ r p, find_row (db (or_world reclaimed)) "swap-1" = Some r ∧ cols r !! "preimage" = Some (VText (hex_encode p)).
Proof.
  destruct (find_row (db (or_world reclaimed)) "swap-1") as [r|] eqn:Hr; [|by vm_compute in Hr].
  destruct (onchain_rows_keep_their_promises or_sha256 linear_power or_spends (or_landed reclaimed) or_paid or_signature
    or_sanctioned linear_interpolates or_deps (or_world reclaimed, []) "swap-1" r (or_world_reachable reclaimed) Hr)
    as (_ & Hp & _).
  assert (state <$> find_row (db (or_world reclaimed)) "swap-1" = Some OnchainSend.claimed) as Hs by (vm_compute; reflexivity).
  rewrite Hr in Hs. injection Hs as Hs. destruct Hp as (p & _ & _ & Hp & _); [rewrite Hs; right; left|].
  exists r, p. split; [reflexivity|exact Hp].
Defined.

Lemma onchain_tick_ends_witness :
  wp (handle (Entry OnchainSend.quoted) (onchain_port or_spends (or_landed reclaimed) or_paid or_signature))
    (Discipline.Inv (D := OnchainDiscipline or_sha256 or_spends (or_landed reclaimed) or_paid or_signature or_sanctioned or_deps))
    (Discipline.Rely (D := OnchainDiscipline or_sha256 or_spends (or_landed reclaimed) or_paid or_signature or_sanctioned or_deps))
    7 (drive 7 "swap-1" (step or_sha256 linear_power or_deps)) (λ r _, r ≠ Ok false) (or_world reclaimed).
Proof.
  apply (onchain_tick_ends or_sha256 linear_power or_spends (or_landed reclaimed) or_paid or_signature or_sanctioned
    linear_interpolates or_deps (or_world reclaimed, []) 7 "swap-1" 7 (or_world_reachable reclaimed)). lia.
Defined.

Lemma onchain_refines_lifecycle_witness :
  rtc (onchain_spec or_sanctioned) (spec_of (S := OnchainSend.state) (Q := OnchainQuote) (Eff := OnchainEffect) empty_world)
    (spec_of (or_world reclaimed)).
Proof.
  apply (onchain_refines_lifecycle or_sha256 linear_power or_spends (or_landed reclaimed) or_paid or_signature or_sanctioned
    linear_interpolates or_deps (empty_world, []) (or_world reclaimed, [])).
  - apply rtc_refl.
  - apply or_world_reachable.
Defined.
