(* ===== verification/EvmSendProof.v ===== *)
(** * What the send service never does

    Any number of instances of the service, ticking, sweeping and quoting at
    once against one database, dying at any point and restarted: what holds of
    the rows and of every request that left, proved with the rules of
    [Rules]. *)
From S2P Require Import Prelude StateMachine EvmPlan BlockTime Prog SwapDb EvmRow Store EvmStore.
From S2P Require Import World EvmService SweptRefund Discipline Rules EvmRules EvmSendService.
#[local] Opaque transition patch.

(** ** The discipline of the service *)

(** The solver's ERC20 may be out, or has been. *)
Definition is_out (s : EvmSend.state) : bool :=
  match s with EvmSend.quoted | EvmSend.funded | EvmSend.refused => false | _ => true end.
(** Reached only once the ERC20 is being refunded, claimed, or given up on. *)
Definition post_refund (s : EvmSend.state) : bool :=
  match s with
  | EvmSend.refunding_evm | EvmSend.refunded | EvmSend.claiming | EvmSend.claimed | EvmSend.stuck => true
  | _ => false
  end.
Definition post_claim (s : EvmSend.state) : bool :=
  match s with EvmSend.claiming | EvmSend.claimed | EvmSend.stuck => true | _ => false end.

Definition send_le (s s' : EvmSend.state) : Prop :=
  (s = EvmSend.refused → s' = EvmSend.refused) ∧ (is_out s = true → is_out s' = true) ∧
  (post_refund s = true → post_refund s' = true) ∧ (post_claim s = true → post_claim s' = true).

Section send_discipline.
Context (sha256 : list Z → list Z) `{EvmHtlcBackend} (deps : SendDeps) (self : nat).

(** [s] is the hexadecimal of a preimage that opens the lock of the row. *)
Definition opening (q : CommonQuote) (s : string) : Prop :=
  ∃ p lock, s = hex_encode p ∧ sendLockFromRow q = Ok lock ∧ sha256 p = lock_preimageHash lock.

Definition send_row_ok (r : EvmSendRow) : Prop :=
  (∀ v, cols r !! "preimage" = Some v →
     is_out (state r) = true ∧ ∃ s, v = VText s ∧ opening (quote r) s) ∧
  (state r ∈ [EvmSend.claiming; EvmSend.claimed] → is_Some (cols r !! "preimage")) ∧
  (state r = EvmSend.claimed → is_Some (cols r !! "claim_ark_txid")).

(** What licenses each irreversible request. *)
Definition send_effect_ok (d : EvmSendDb) (a : SendEffect) : Prop :=
  match a with
  | LockCall i _ =>
      (∃ r, find_row d i = Some r ∧ is_out (state r) = true) ∧
      ∃ e, e ∈ events d ∧ ev_swap e = i ∧ ev_to e = EvmSend.locking_evm
  | EnsureFunding i _ _ => ∃ r, find_row d i = Some r ∧ is_out (state r) = true
  | RefundCall i _ => ∃ r, find_row d i = Some r ∧ post_refund (state r) = true
  | ClaimArkade i s =>
      ∃ r, find_row d i = Some r ∧ post_claim (state r) = true ∧
           is_Some (cols r !! "preimage") ∧ opening (quote r) s
  | RefundLockup c _ | RefundSwept c _ =>
      ∃ r, find_row d (cov_id c) = Some r ∧ state r = EvmSend.refused ∧
           c = evmSendCovenantRowFor (cov_id c) (quote r)
  | SweepRecovery => True
  end.

#[export] Instance SendDiscipline : Discipline EvmSend.state CommonQuote SendEffect := {
  state_le := send_le;
  kept _ := True;
  frozen _ := False;
  after_grant r := is_out (state r) = true;
  granted := Entry EvmSend.locking_evm;
  row_ok := send_row_ok;
  effect_ok := send_effect_ok;
  own_of a := match a with LockCall i _ => Some i | _ => None end;
  full i q l := ∃ lock allowance,
    sendLockFromRow q = Ok lock ∧ l = LockCall i <$> lockCalls lock allowance;
}.

Lemma send_le_refl s : send_le s s.
Proof. unfold send_le. auto. Qed.
Lemma send_le_trans s1 s2 s3 : send_le s1 s2 → send_le s2 s3 → send_le s1 s3.
Proof. unfold send_le. intros (?&?&?&?) (?&?&?&?). split_and!; auto. Qed.
Lemma is_out_le s s' : send_le s s' → is_out s = true → is_out s' = true.
Proof. by intros (_ & ? & _). Qed.

Lemma send_effect_ok_le (d d' : EvmSendDb) a :
  db_le d d' → send_effect_ok d a → send_effect_ok d' a.
Proof.
  intros [Hr He]. destruct a; cbn.
  - intros [(r & Hf & Ho) (e & Hin & Hs)]. split; [|by exists e; auto].
    destruct (Hr _ _ Hf) as (r' & Hf' & _ & _ & _ & Hle & _). exists r'. split; [done|by eapply is_out_le].
  - intros (r & Hf & Ho). destruct (Hr _ _ Hf) as (r' & Hf' & _ & _ & _ & (_ & _ & Hp & _) & _). eauto.
  - intros (r & Hf & Ho). destruct (Hr _ _ Hf) as (r' & Hf' & _ & _ & _ & (_ & Hp & _) & _). eauto.
  - intros (r & Hf & Ho & Hpre & Hop).
    destruct (Hr _ _ Hf) as (r' & Hf' & _ & Hq & _ & (_ & _ & _ & Hp) & Hpr & _). exists r'. rewrite Hq.
    specialize (λ c, Hpr c I) as Hpr'. auto.
  - intros (r & Hf & Hs & Hc). destruct (Hr _ _ Hf) as (r' & Hf' & _ & Hq & _ & (Hp & _) & _).
    exists r'. rewrite Hq. auto.
  - intros (r & Hf & Hs & Hc). destruct (Hr _ _ Hf) as (r' & Hf' & _ & Hq & _ & (Hp & _) & _).
    exists r'. rewrite Hq. auto.
  - done.
Qed.

(** Writing columns other than the preimage and the claim keeps a row right. *)
Lemma send_row_ok_cols r f s at_ :
  send_row_ok r → assigned f "preimage" = None → assigned f "claim_ark_txid" = None →
  send_le (state r) s → s ∉ [EvmSend.claiming; EvmSend.claimed] →
  send_row_ok (mkRow (row_id r) s (created_at r) at_ (quote r) (set_columns f (cols r))).
Proof.
  intros (Hp & Hc & Hd) Ha Hb Hle Hs. unfold send_row_ok. cbn [state cols quote].
  rewrite !set_columns_lookup, Ha, Hb. split_and!.
  - intros v Hv. destruct (Hp v Hv) as [Ho Hop]. split; [by eapply is_out_le|done].
  - intros Hin. by destruct Hs.
  - intros ->. destruct Hs. right. left.
Qed.

Lemma send_row_ok_patch r f at_ :
  send_row_ok r → assigned f "preimage" = None → assigned f "claim_ark_txid" = None →
  send_row_ok (mkRow (row_id r) (state r) (created_at r) at_ (quote r) (set_columns f (cols r))).
Proof.
  intros (Hp & Hc & Hd) Ha Hb. unfold send_row_ok. cbn [state cols quote].
  by rewrite !set_columns_lookup, Ha, Hb.
Qed.
#[export] Instance send_laws : DisciplineLaws (S := EvmSend.state) (Q := CommonQuote) (Eff := SendEffect).
Proof.
  split; [apply send_le_refl|apply send_le_trans|intros r r' (_ & _ & _ & Hs & _) _; by apply is_out_le|apply send_effect_ok_le].
Qed.

#[local] Abbreviation row := EvmSendRow.
#[local] Abbreviation W := (World EvmSend.state CommonQuote SendEffect).
#[local] Abbreviation event := (evt EvmSend.state CommonQuote SendEffect ask).
#[local] Abbreviation io := (io event Error).
#[local] Abbreviation Stable := (Stable (W := W) Inv Rely).
#[local] Abbreviation triple := (hoare (X := Error) (handle (Eff := SendEffect) granted (port sha256)) Inv Rely).

(** ** Observing *)


Lemma lockReverted_keep t K r : Stable t K → triple t K (lockReverted r) (λ _, K) (λ _, K).
Proof.
  intros HK. unfold lockReverted. repeat case_match; try by apply hoare_ret.
  apply (hoare_degraded (port sha256)); [done|]. hbind; [by apply (asks_keep (port sha256))|]. intros ?. by hret.
Qed.

Lemma refundOutcome_keep t K r : Stable t K → triple t K (refundOutcome r) (λ _, K) (λ _, K).
Proof.
  intros HK. unfold refundOutcome. repeat case_match; try (by apply hoare_ret). by apply (read_keep (port sha256)).
Qed.

Lemma refundLanded_keep t K r : Stable t K → triple t K (refundLanded r) (λ _, K) (λ _, K).
Proof.
  intros HK. unfold refundLanded. case_match; [by apply hoare_ret|].
  hbind; [by apply (lockFor_spec sha256)|]. intros lock.
  eapply hoare_conseq; [apply (read_keep (port sha256) t K); apply _|by intros ? _ [? _]|done..].
Qed.

Lemma claimScanFloor_keep t K r height :
  Stable t K → triple t K (claimScanFloor deps r height) (λ _, K) (λ _, K).
Proof.
  intros HK. unfold claimScanFloor. hbind; [case_match; [by apply (asks_keep (port sha256))|by apply hoare_ret]|].
  intros mined. hbind.
  - destruct mined; [by apply (hoare_ret _ _ _ _ _ K (λ _, K))|].
    hbind; [by apply (hoare_now (port sha256) t K)|]. intros ?. by apply (hoare_ret _ _ _ _ _ K (λ _, K)).
  - intros ?. by hret.
Qed.

(** A preimage read on chain opens the row's lock. *)
Lemma findPreimage_spec t K r lock height :
  Stable t K → sendLockFromRow (quote r) = Ok lock →
  triple t K (findPreimage deps r lock height)
    (λ found w, K w ∧ ∀ s, found = Some s → opening (quote r) s) (λ _, K).
Proof.
  intros HK Hl. unfold findPreimage. hbind; [by apply claimScanFloor_keep|]. intros floor.
  hbind; [by apply (hoare_now (port sha256) t K)|]. intros nowS.
  hbind; [by apply (hoare_asks (port sha256) t K)|]. intros found.
  hret. intros w _ [HKw Hf]. split; [done|]. intros s Hs.
  destruct found as [p|]; [|done]. injection Hs as <-. exists p, lock. split_and!; [done|done|by apply Hf].
Qed.

Lemma text_col_preimage (r : row) s :
  send_row_ok r → text_col r "preimage" = Some s →
  is_out (state r) = true ∧ opening (quote r) s.
Proof.
  intros (Hp & _) Ht. unfold text_col in Ht. destruct (cols r !! "preimage") as [v|] eqn:Hv; [|done].
  destruct (Hp v eq_refl) as (Ho & s' & -> & Hop). by simplify_eq/=.
Qed.

Lemma exposed_out (s : EvmSend.state) : s ∈ EvmSend.EVM_SEND_EXPOSED → is_out s = true.
Proof. intros Hs%list_elem_of_In. by repeat destruct Hs as [<-|Hs]. Qed.

Lemma observePreimage_spec t K r lock height :
  Stable t K → send_row_ok r → sendLockFromRow (quote r) = Ok lock →
  triple t K (observePreimage deps r lock height)
    (λ found w, K w ∧ ∀ s, found = Some s → is_out (state r) = true ∧ opening (quote r) s)
    (λ _, K).
Proof.
  intros HK Hr Hl. unfold observePreimage.
  destruct (text_col r "preimage") as [s|] eqn:Ht.
  { hret. intros w _ HKw. split; [done|]. intros ? [= <-]. by apply text_col_preimage. }
  case_bool_decide as Hx; [|by hret].
  apply (hoare_catch _ _ _ _ _ _ _ _ (λ _, K)); try apply _.
  - eapply hoare_conseq; [by apply (findPreimage_spec t K)|done| |done].
    intros found w _ [HKw Hf]. split; [done|]. intros s Hs. split; [by apply exposed_out|by apply Hf].
  - intros e. assert (triple t K (bind (onTickError (row_id r) e) (λ _, ret None))
      (λ found w, K w ∧ ∀ s, found = Some s → is_out (state r) = true ∧ opening (quote r) s)
      (λ _, K)) as Hd.
    { hbind; [by apply (hoare_report (port sha256) t K)|]. intros ?. by hret. }
    destruct e; try exact Hd. by apply hoare_throw.
Qed.

(** What an observation of a right row may show. *)
Lemma observe_spec t K r :
  Stable t K → send_row_ok r →
  triple t K (observe deps r)
    (λ seen w, K w ∧ (∃ lock, sendLockFromRow (quote r) = Ok lock) ∧
       ∀ s, SendPlan.seen_preimage seen = Some s → is_out (state r) = true ∧ opening (quote r) s)
    (λ _, K).
Proof.
  intros HK Hr. unfold observe. hbind; [by apply (lockFor_spec sha256)|]. intros lock.
  apply hoare_pure. intros Hl.
  hbind; [by apply (asks_keep (port sha256))|]. intros funded. hbind; [by apply (asks_keep (port sha256))|]. intros present.
  hbind; [by apply (asks_keep (port sha256))|]. intros height. hbind; [by apply (asks_keep (port sha256))|]. intros clock.
  hbind; [by apply lockReverted_keep|]. intros reverted.
  hbind; [by apply refundOutcome_keep|]. intros outcome.
  hbind; [by apply refundLanded_keep|]. intros landed.
  hbind; [by apply (observePreimage_spec t K)|]. intros preimage. apply hoare_pure. intros Hp.
  hbind; [by apply (hoare_now (port sha256) t K)|]. intros now1.
  hbind; [by apply (hoare_provenDepth sha256 t K)|]. intros depth.
  hbind; [by apply (hoare_now (port sha256) t K)|]. intros now2.
  hret. intros w _ HKw. split_and!; eauto.
Qed.

(** ** Writing *)

Lemma row_inv (w : W) i r : Inv w → find_row (db w) i = Some r → send_row_ok r.
Proof. exact (Inv_row_ok (D := SendDiscipline) w i r). Qed.

Lemma patch_other t K i f :
  Stable t K → clears_nothing f = true → assigned f "preimage" = None → assigned f "claim_ark_txid" = None →
  triple t K (patch i f) (λ _, K) (λ _, K).
Proof.
  intros HK Hn Hp Hc. apply (hoare_patch (port sha256)); [done|]. intros w at_ Hi _.
  split; [done|]. split; [unfrozen|].
  intros r Hr. apply send_row_ok_patch; [|done..]. by eapply row_inv.
Qed.

(** A move that neither reveals a preimage nor settles the claim. *)
Lemma move_plain t K i from to f :
  Stable t K → clears_nothing f = true → assigned f "preimage" = None → assigned f "claim_ark_txid" = None →
  send_le from to → to ∉ [EvmSend.locking_evm; EvmSend.claiming; EvmSend.claimed] →
  triple t K (transition i from to f) (λ _, K) (λ _, K).
Proof.
  intros HK Hn Hp Hc Hle Hto. rewrite !not_elem_of_cons in Hto. destruct Hto as (H1 & H2 & H3 & _).
  eapply hoare_conseq.
  - apply (hoare_transition (port sha256) t K K); [done|done| |].
    + intros w at_ Hi _. cbn [stmt_ok]. split_and!; [done|unfrozen|by left|cbn; congruence|].
      intros r Hr Hs. apply send_row_ok_cols; [by eapply row_inv|done|done|by rewrite Hs|].
      rewrite !not_elem_of_cons. split_and!; [done|done|apply not_elem_of_nil].
    + intros w w' r at_ Hi HKw _ _ _ Hi' Hr _ _. by eapply HK.
  - done.
  - by intros ? ? _ [? _].
  - done.
Qed.

Lemma fail_plain t K i from reason :
  Stable t K → from ≠ EvmSend.refused → triple t K (fail i from reason) (λ _, K) (λ _, K).
Proof.
  intros HK Hf. apply move_plain; [done|reflexivity|reflexivity|reflexivity| |].
  - unfold send_le. cbn. split_and!; done.
  - vm_compute. intros Hin. repeat (apply elem_of_cons in Hin as [Hin|Hin]; [done|]). by apply not_elem_of_nil in Hin.
Qed.

(** ** Funding by an external provider *)

Lemma bindingFor_keep t K adapter r : Stable t K → triple t K (bindingFor adapter r) (λ _, K) (λ _, K).
Proof.
  intros HK. unfold bindingFor. hbind; [by apply (lockFor_spec sha256)|]. intros lock. apply hoare_pure. intros _.
  eapply hoare_conseq; [by apply (hoare_lifted (port sha256) t K)|done|by intros ? ? _ [? _]|done].
Qed.

Lemma since_out (w : W) i r :
  since i r w → is_out (state r) = true → ∃ r', find_row (db w) i = Some r' ∧ is_out (state r') = true.
Proof.
  intros (r' & Hr' & _ & _ & _ & Hle & _) Ho. exists r'. split; [done|by eapply is_out_le].
Qed.

Lemma ensurePayoutFunding_keep t K r mode :
  Stable t K → (∀ w, K w → since (row_id r) r w) → is_out (state r) = true →
  triple t K (ensurePayoutFunding deps r mode) (λ _, K) (λ _, K).
Proof.
  intros HK Hsince Ho. unfold ensurePayoutFunding. case_match; [|by apply hoare_ret].
  hbind; [by apply bindingFor_keep|]. intros b. hbind; [by apply (hoare_now (port sha256) t K)|]. intros ?.
  hbind; [by apply (asks_keep (port sha256))|]. intros ?. hbind; [by apply (asks_keep (port sha256))|]. intros ?.
  hbind.
  { apply (hoare_act (port sha256) t K); [done|done|]. intros w _ HKw. cbn. eapply since_out; eauto. }
  intros activation. hbind; [by apply (hoare_lifted (port sha256) t K)|]. intros [txid|]; apply hoare_pure; intros _.
  - hbind; [by apply (get_keep (port sha256))|]. intros current. repeat case_match;
      [by apply hoare_ret|by apply hoare_throw|by apply patch_other].
  - by hret.
Qed.

(** ** Locking *)

(** The row [i] of quote [q] is past the point where the ERC20 may be out. *)
Definition out_row (i : string) (q : CommonQuote) (w : W) : Prop :=
  ∃ r, find_row (db w) i = Some r ∧ is_out (state r) = true ∧ quote r = q.
#[local] Instance out_row_stable t i q : Stable t (out_row i q).
Proof.
  intros w w' [[Hd _] _] _ (r & Hr & Ho & Hq). destruct (Hd _ _ Hr) as (r' & Hr' & _ & Hq' & _ & Hle & _).
  exists r'. split_and!; [done|by eapply is_out_le|congruence].
Qed.

Lemma broadcastAll_spec t i q lock allowance calls : ∀ done_ txid,
  sendLockFromRow q = Ok lock → lockCalls lock allowance = done_ ++ calls →
  triple t (λ w, (out_row i q w ∧ logged i EvmSend.locking_evm w) ∧ owns t i (LockCall i <$> done_) w)
    (broadcastAll i calls txid) (λ _ _, True) (λ _ _, True).
Proof.
  induction calls as [|c rest IH]; intros done_ txid Hl Hc; [by apply hoare_ret; [apply _|]|].
  cbn [broadcastAll]. hbind.
  - eapply hoare_conseq.
    + apply (hoare_act_own (port sha256) t (λ w, out_row i q w ∧ logged i EvmSend.locking_evm w) i
               (LockCall i <$> done_) (LockCall i c)); [apply _|done| |].
      * intros w w' [(r & Hr & Ho) (e & He)] Hdb _. split; [exists r|exists e]; by rewrite Hdb.
      * intros w _ [(r & Hr & Ho & Hq) (e & He & Hs)]. split; [split; [by exists r|by exists e]|].
        exists r, (LockCall i <$> lockCalls lock allowance). split_and!; [done|exists lock, allowance; by rewrite Hq|].
        rewrite Hc, fmap_app. cbn. exists (LockCall i <$> rest). by rewrite <- app_assoc.
    + done.
    + intros ? ? _ Hw. exact Hw.
    + done.
  - intros sent. change ((LockCall i <$> done_) ++ [LockCall i c]) with ((LockCall i <$> done_) ++ (LockCall i <$> [c])).
    rewrite <- fmap_app. apply IH; [done|]. by rewrite Hc, <- app_assoc.
Qed.


(** The entry into [locking_evm]: the thread that made it owns the row's lock. *)
Lemma enter_locking t current :
  state current = EvmSend.funded ∨ state current = EvmSend.quoted →
  let i := row_id current in
  triple t (since i current) (transition i (state current) EvmSend.locking_evm [])
    (λ _ w, (out_row i (quote current) w ∧ owns t i [] w) ∧ logged i EvmSend.locking_evm w)
    (λ _, since i current).
Proof.
  intros Hopen i.
  apply (hoare_transition (port sha256) t (since i current) (λ w, out_row i (quote current) w ∧ owns t i [] w));
    [apply _|apply _| |].
  - intros w at_ Hi HK. cbn [stmt_ok]. split_and!; [|unfrozen|by left| |].
    + unfold state_le; cbn. unfold send_le. by destruct Hopen as [-> | ->].
    + intros _ r _ Hs. cbn. rewrite Hs. by destruct Hopen as [-> | ->].
    + intros r Hr Hs. apply send_row_ok_cols; [by eapply row_inv|done|done| |].
      * rewrite Hs. unfold send_le. by destruct Hopen as [-> | ->].
      * rewrite !not_elem_of_cons; split_and!; [done|done|apply not_elem_of_nil].
  - intros w w' r at_ Hi HK Hr Hs _ Hi' _ Hr' Hown. split; [|by apply Hown].
    eexists. split_and!; [exact Hr'|done|]. cbn. destruct HK as (r0 & Hr0 & _ & Hq & _). by simplify_eq.
Qed.

Lemma lockEvm_spec t r :
  send_row_ok r →
  triple t (since (row_id r) r) (lockEvm deps r) (λ _ _, True) (λ _ _, True).
Proof.
  intros Hr. unfold lockEvm.
  hseq; [apply (hoare_get (port sha256) t (since (row_id r) r) (row_id r) (λ _, True)); [apply _|done]|done|].
  intros current.
  apply (hoare_pre _ _ _ _ _ (λ w, since (row_id current) current w ∧ send_row_ok current));
    [intros w _ (_ & Hs & Hok & -> & _); by split|].
  apply hoare_pure. intros Hok. set (i := row_id current).
  hseq; [apply (observe_spec t (since i current)); [apply _|done]|done|]. intros seen.
  eapply hoare_pre; [intros w _ [HK _]; exact HK|].
  destruct (SendPlan.planEvmSend (planRow current) seen) eqn:Hplan; try hdone.
  apply SendPlan.plan_lock_iff in Hplan as [_ Hst]. cbn in Hst.
  hseq; [apply (askApproval_keep (port sha256) t (since i current)); apply _|done|]. intros approved.
  destruct approved; cbn [negb]; [|hdone].
  eapply (hoare_seq _ _ _ _ _ _ _ (λ _, since i current) _ _ (λ _, since i current)); try apply _.
  { case_match; [|hdone]. hbind; [apply bindingFor_keep; apply _|]. intros ?. hdone. }
  { done. }
  intros ?. hseq; [apply enter_locking; tauto|done|]. intros ?. fold i.
  destruct (payoutFunding deps) as [adapter|] eqn:Hfund.
  - hseq.
    { apply (hoare_get (port sha256) t _ i (λ r, is_out (state r) = true)); [apply _|].
      intros w r0 _ [[(r' & Hr' & Ho & _) _] _] Hr0. by simplify_eq. }
    { done. }
    intros locking. hseq; [|done|intros ?; by apply (hoare_ret _ _ _ _ _ (λ _, True))].
    apply (hoare_pre _ _ _ _ _ (λ w, since (row_id locking) locking w ∧ is_out (state locking) = true)).
    { intros w _ (_ & Hs & _ & Hid & Ho). by rewrite <- Hid in Hs. }
    apply hoare_pure. intros Ho.
    eapply hoare_conseq; [apply (ensurePayoutFunding_keep t (since (row_id locking) locking)); [apply _|done|done]|done..].
  - hseq; [apply (lockFor_spec sha256); apply _|done|].
    intros lock. apply hoare_pure. intros Hl. hseq; [apply (asks_keep (port sha256)); apply _|done|]. intros allowance.
    case_bool_decide; [apply hoare_throw; [apply _|done]|].
    hseq.
    { eapply hoare_pre; [|by apply (broadcastAll_spec t i (quote current) lock allowance _ [])].
      intros w _ [[? ?] ?]. done. }
    { done. }
    intros txid. hseq; [apply (patch_other t (λ _, True)); [apply _|done..]|done|].
    intros ?. by apply (hoare_ret _ _ _ _ _ (λ _, True)).
Qed.

Lemma lockInSequence_spec t r :
  send_row_ok r → triple t (since (row_id r) r) (lockInSequence deps self r) (λ _ _, True) (λ _ _, True).
Proof.
  intros Hr. unfold lockInSequence. hbind.
  { apply (hoare_memory (port sha256) t (since (row_id r) r)); [apply _|]. intros w w' y [_ ->]. split_and!; reflexivity. }
  intros ?. apply hoare_finally; try apply _; [by apply lockEvm_spec|].
  intros x w Hi _ w' u ->.
  destruct (same_core_sound w (with_memory w (ticking w) (inside w ∖ {[self]}) (reported w) (sweeping w))) as [? Hrely];
    [split_and!; reflexivity|done|].
  split_and!; [done|intros v _; apply Hrely|by destruct x].
Qed.

(** ** Claiming, refunding, recovering *)

(** The row may be claimed: its preimage is on disk and opens the lock. *)
Definition claimable (i : string) (q : CommonQuote) (w : W) : Prop :=
  ∃ r : row, find_row (db w) i = Some r ∧ post_claim (state r) = true ∧
       is_Some (cols r !! "preimage") ∧ quote r = q.
#[local] Instance claimable_stable t i q : Stable t (claimable i q).
Proof.
  intros w w' [[Hd _] _] _ (r & Hr & Ho & Hp & Hq).
  destruct (Hd _ _ Hr) as (r' & Hr' & _ & Hq' & _ & (_ & _ & _ & Hle) & Hp').
  exists r'. split_and!; [done|auto|by apply Hp'|congruence].
Qed.

Lemma since_claimable (w : W) i r :
  send_row_ok r → since i r w → state r = EvmSend.claiming → claimable i (quote r) w.
Proof.
  intros (_ & Hc & _) (r' & Hr' & _ & Hq & _ & (_ & _ & _ & Hle) & Hp) Hs.
  exists r'. split_and!; [done|apply Hle; by rewrite Hs|apply Hp; [done|]; apply Hc; rewrite Hs; left|done].
Qed.

(** The CAS into [claiming], with the preimage in the same statement. *)
Lemma enter_claiming t (current : row) i q preimage :
  is_out (state current) = true → state current ≠ EvmSend.claiming → opening q preimage →
  triple t (λ w, ∃ r, find_row (db w) i = Some r ∧ quote r = q)
    (transition i (state current) EvmSend.claiming [("preimage", Some (VText preimage))])
    (λ _, claimable i q) (λ _ _, True).
Proof.
  intros Ho Hne Hop.
  assert (Stable t (λ w : W, ∃ r, find_row (db w) i = Some r ∧ quote r = q)) as HK.
  { intros w w' [[Hd _] _] _ (r & Hr & Hq). destruct (Hd _ _ Hr) as (r' & Hr' & _ & Hq' & _).
    exists r'. split; [done|congruence]. }
  eapply hoare_conseq.
  - apply (hoare_transition (port sha256) t _ (claimable i q)); [exact HK|apply _| |].
    + intros w at_ Hi (r0 & Hr0 & Hq0). cbn [stmt_ok]. split_and!; [|unfrozen|by left|done|].
      * unfold state_le; cbn. unfold send_le. split_and!; try done. by intros Hs; rewrite Hs in Ho.
      * intros r Hr Hs. simplify_eq.
        hnf. cbn [state cols quote]. rewrite !set_columns_lookup. cbn. split_and!; [|by eexists|done].
        intros v Hv. change (Some (VText preimage) = Some v) in Hv. simplify_eq. split; [done|]. by exists preimage.
    + intros w w' r at_ Hi (r0 & Hr0 & Hq0) Hr Hs _ Hi' _ Hr' _.
      eexists. split_and!; [exact Hr'|done| |]; cbn; [rewrite lookup_insert_eq; by eexists|]. congruence.
  - done.
  - by intros ? ? _ [? _].
  - done.
Qed.

Lemma claimArkade_spec t r preimage :
  send_row_ok r → is_out (state r) = true → opening (quote r) preimage →
  triple t (since (row_id r) r) (claimArkade r preimage) (λ _ _, True) (λ _ _, True).
Proof.
  intros Hr Ho Hop. unfold claimArkade. set (i := row_id r). set (K := since i r).
  (* the row acted on is [r] itself or one read later *)
  eapply (hoare_seq _ _ _ _ _ _ _ (λ current w, K w ∧ send_row_ok current ∧ since i current w ∧
      is_out (state current) = true ∧ quote current = quote r) _ _ (λ _, K)); try apply _; [|done|].
  { case_bool_decide as Hs; [by apply hoare_ret; [apply _|]; intros w _ HK; auto|].
    eapply hoare_conseq; [apply (hoare_get (port sha256) t K i (λ c, is_out (state c) = true ∧ quote c = quote r)); [apply _|]|done| |done].
    - intros w c _ (c' & Hc' & _ & Hq & _ & Hle & _) Hc. simplify_eq. split; [by eapply is_out_le|done].
    - intros c w _ (HK & Hs' & Hok & _ & Hoc & Hqc). auto. }
  intros current. cbn beta.
  eapply (hoare_seq _ _ _ _ _ _ _ (λ _, claimable i (quote r)) _ _ (λ _ _, True)); try apply _; [|done|].
  { case_bool_decide as Hs.
    - intros w Hi (HK & Hok & Hsince & Hoc & Hq).
      apply (enter_claiming t current i (quote r)); [done|done|done|done|].
      destruct Hsince as (r' & Hr' & _ & Hq' & _). exists r'. split; [done|congruence].
    - intros w Hi (HK & Hok & Hsince & Hoc & Hq) w' Hr' Hi'.
      rewrite <- Hq. apply (since_claimable w'); [done|by eapply (since_stable t i current)|done]. }
  intros ?. hseq; [by apply (hoare_get (port sha256) t (claimable i (quote r)) i (λ _, True)); [apply _|]|done|].
  intros claiming. apply (hoare_pre _ _ _ _ _ (λ w, claimable i (quote r) w ∧ row_id claiming = i));
    [by intros w _ (? & _ & _ & ? & _)|]. apply hoare_pure. intros Hid.
  hseq; [|done|].
  { apply (hoare_act (port sha256) t (claimable i (quote r))); [apply _|done|].
    intros w _ (r' & Hr' & Hp & Hpre & Hq). exists r'. rewrite Hid, Hq. done. }
  intros txid. hseq; [|done|intros ?; by apply (hoare_ret _ _ _ _ _ (λ _, True))].
  eapply hoare_conseq.
  - apply (hoare_transition (port sha256) t (claimable i (quote r)) (λ _, True)); [apply _|apply _| |done].
    intros w at_ Hi _. cbn [stmt_ok]. split_and!; [|unfrozen|by left|done|].
    + unfold state_le; cbn. unfold send_le. by split_and!.
    + intros r0 Hr0 Hs. destruct (row_inv w i r0 Hi Hr0) as (Hp & Hc & _). hnf.
      cbn [state cols quote]. rewrite !set_columns_lookup. cbn. split_and!; [|by intros _; apply Hc; rewrite Hs; left|done].
      intros v Hv. by destruct (Hp v Hv).
  - done.
  - done.
  - done.
Qed.

(** The row's ERC20 is past the point where it is still to be locked. *)
Definition refunding (i : string) (w : W) : Prop :=
  ∃ r : row, find_row (db w) i = Some r ∧ post_refund (state r) = true.
#[local] Instance refunding_stable t i : Stable t (refunding i).
Proof.
  intros w w' [[Hd _] _] _ (r & Hr & Ho). destruct (Hd _ _ Hr) as (r' & Hr' & _ & _ & _ & (_ & _ & Hle & _) & _).
  exists r'. split; [done|auto].
Qed.

Lemma enter_refunding t K i from :
  Stable t K → is_out from = true → post_claim from = false →
  triple t K (transition i from EvmSend.refunding_evm []) (λ _, refunding i) (λ _, K).
Proof.
  intros HK Ho Hc. eapply hoare_conseq.
  - apply (hoare_transition (port sha256) t K (refunding i)); [done|apply _| |].
    + intros w at_ Hi _. cbn [stmt_ok].
      assert (send_le from EvmSend.refunding_evm) as Hle.
      { unfold send_le. split_and!; try done; [by intros ->|by rewrite Hc]. }
      split_and!; [done|unfrozen|by left|done|].
      intros r Hr Hs. apply send_row_ok_cols; [by eapply row_inv|done|done|by rewrite Hs|].
      rewrite !not_elem_of_cons. split_and!; [done|done|apply not_elem_of_nil].
    + intros w w' r at_ _ _ _ _ _ _ _ Hr' _. by eexists.
  - done.
  - by intros ? ? _ [? _].
  - done.
Qed.

Lemma claimRefundTxid_keep t K i txid :
  Stable t K → triple t K (claimRefundTxid i txid) (λ _, K) (λ _, K).
Proof.
  intros HK. unfold claimRefundTxid. hbind; [by apply (hoare_now (port sha256) t K)|]. intros at_.
  hbind; [|intros n; by apply (hoare_ret _ _ _ _ _ K (λ _, K))].
  apply (hoare_sql (port sha256) t K _ (λ _, K)); try apply _.
  - intros w Hi _ r Hr. destruct (row_inv w i r Hi Hr) as (Hp & Hc & Hd).
    hnf. cbn [state cols quote]. rewrite !lookup_insert_ne by done. by split_and!.
  - intros w n w' _ HKw _ Hi' Hr. by eapply HK.
Qed.

Lemma refundEvm_spec t r :
  is_out (state r) = true → post_claim (state r) = false →
  triple t (since (row_id r) r) (refundEvm r) (λ _ _, True) (λ _ _, True).
Proof.
  intros Ho Hc. unfold refundEvm. set (K := since (row_id r) r).
  eapply (hoare_seq _ _ _ _ _ _ _ (λ _, refunding (row_id r)) _ _ (λ _, K)); try apply _; [|done|].
  { case_bool_decide as Hs; [by apply enter_refunding; [apply _|..]|].
    hret. intros w _ (r' & Hr' & _ & _ & _ & (_ & _ & Hle & _) & _). exists r'. split; [done|]. apply Hle. by rewrite Hs. }
  intros ?. hseq; [by apply (lockFor_spec sha256 t (refunding (row_id r))); apply _|done|].
  intros lock. apply hoare_pure. intros _. hseq; [|done|].
  { apply (hoare_act (port sha256) t (refunding (row_id r))); [apply _|done|]. intros w _ Hw. exact Hw. }
  intros txid. hseq; [by apply (claimRefundTxid_keep t (refunding (row_id r))); apply _|done|].
  intros first. hseq; [apply (report_if (port sha256) t (refunding (row_id r))); apply _|done|].
  intros ?. by apply hoare_ret; [apply _|].
Qed.

Lemma recoverFunding_spec t r :
  send_row_ok r → is_out (state r) = true →
  triple t (since (row_id r) r) (recoverFunding deps r) (λ _ _, True) (λ _ _, True).
Proof.
  intros Hr Ho. unfold recoverFunding. set (K := since (row_id r) r).
  hseq; [|done|].
  { apply (hoare_try (port sha256) t K); [apply _| |].
    - hbind; [by apply (ensurePayoutFunding_keep t K); [apply _|done|]|]. intros ?.
      by hret.
    - intros e. hbind; [by apply (hoare_report (port sha256) t K); apply _|]. intros ?.
      by hret. }
  intros reason. hseq; [|done|].
  { apply (hoare_get (port sha256) t K (row_id r) (λ c, is_out (state c) = true)); [apply _|].
    intros w c _ (c' & Hc' & _ & _ & _ & Hle & _) Hc. simplify_eq. by eapply is_out_le. }
  intros current.
  apply (hoare_pre _ _ _ _ _ (λ w, K w ∧ is_out (state current) = true)); [by intros w _ (? & _ & _ & _ & ?)|].
  apply hoare_pure. intros Hoc.
  hseq; [|done|intros ?; by apply (hoare_ret _ _ _ _ _ (λ _, True))].
  eapply hoare_conseq; [by apply (fail_plain t K); [apply _|intros Hs; rewrite Hs in Hoc]|done|done|done].
Qed.

(** ** One tick *)

(** What is known of an observation of [r]. *)
Definition seen_ok (r : row) (seen : SendPlan.EvmSendObservation) : Prop :=
  ∀ s, SendPlan.seen_preimage seen = Some s → is_out (state r) = true ∧ opening (quote r) s.

Lemma plan_preimage_opens (r : row) seen s :
  send_row_ok r → seen_ok r seen → SendPlan.plan_preimage (planRow r) seen = Some s →
  is_out (state r) = true ∧ opening (quote r) s.
Proof.
  intros Hr Hs. unfold SendPlan.plan_preimage. destruct (SendPlan.seen_preimage seen) eqn:Hp; cbn.
  - intros. simplify_eq. by apply Hs.
  - by apply text_col_preimage.
Qed.

Lemma plan_refund_state (r : row) seen :
  SendPlan.planEvmSend (planRow r) seen = SendPlan.refund_evm →
  is_out (state r) = true ∧ post_claim (state r) = false.
Proof. intros (_ & _ & [Hs|[[Hs _]|[Hs _]]])%SendPlan.plan_refund_iff; cbn in Hs; by rewrite Hs. Qed.

(** A move whose post-condition nobody needs. *)
Lemma moves {A} t K i from to f (b : A) :
  Stable t K → clears_nothing f = true → assigned f "preimage" = None → assigned f "claim_ark_txid" = None →
  send_le from to → to ∉ [EvmSend.locking_evm; EvmSend.claiming; EvmSend.claimed] →
  triple t K (bind (transition i from to f) (λ _, ret b)) (λ _ _, True) (λ _ _, True).
Proof.
  intros. hseq; [by apply (move_plain t K)|done|]. intros ?. by apply (hoare_ret _ _ _ _ _ K).
Qed.

Lemma perform_spec t r seen :
  send_row_ok r → seen_ok r seen →
  triple t (since (row_id r) r) (perform deps self r seen (SendPlan.planEvmSend (planRow r) seen))
    (λ _ _, True) (λ _ _, True).
Proof.
  intros Hr Hseen. unfold perform. case_match eqn:Hrec.
  { apply andb_true_iff in Hrec as [[_ Ha%bool_decide_eq_true]%andb_true_iff _].
    apply recoverFunding_spec; [done|]. by eapply plan_refund_state. }
  clear Hrec. destruct (SendPlan.planEvmSend (planRow r) seen) as [| | |s| | |reason|reason] eqn:Hplan.
  - by apply hoare_ret; [apply _|].
  - by apply lockInSequence_spec.
  - apply SendPlan.plan_await_iff in Hplan as (_ & Hs & _). cbn in Hs.
    apply moves; [apply _|done|done|done|rewrite Hs; by unfold send_le|apply (bool_decide_unpack _); vm_compute; exact I].
  - apply SendPlan.plan_claim_iff in Hplan as (_ & Hp & _).
    destruct (plan_preimage_opens r seen s Hr Hseen Hp). by apply claimArkade_spec.
  - destruct (plan_refund_state r seen Hplan). by apply refundEvm_spec.
  - apply moves; [apply _|done|done|done|by unfold send_le|apply (bool_decide_unpack _); vm_compute; exact I].
  - apply SendPlan.plan_refuse in Hplan as (Hs & _). cbn in Hs.
    apply moves; [apply _|done|done|done|rewrite Hs; by unfold send_le|apply (bool_decide_unpack _); vm_compute; exact I].
  - apply SendPlan.plan_stick in Hplan. cbn in Hplan.
    hseq; [apply (fail_plain t (since (row_id r) r)); [apply _|by intros Hs; rewrite Hs in Hplan]|done|].
    intros ?. by apply hoare_ret; [apply _|].
Qed.

Lemma observed_perform t r :
  send_row_ok r →
  triple t (since (row_id r) r)
    (bind (observe deps r) (λ seen, perform deps self r seen (SendPlan.planEvmSend (planRow r) seen)))
    (λ _ _, True) (λ _ _, True).
Proof.
  intros Hr. hseq; [by apply (observe_spec t (since (row_id r) r)); [apply _|]|done|]. intros seen.
  apply (hoare_pre _ _ _ _ _ (λ w, since (row_id r) r w ∧ seen_ok r seen)); [by intros w _ (? & _ & ?)|].
  apply hoare_pure. intros. by apply perform_spec.
Qed.

Lemma step_spec t r :
  send_row_ok r →
  triple t (since (row_id r) r) (step deps self r) (λ _ _, True) (λ _ _, True).
Proof.
  intros Hr. unfold step. set (K := since (row_id r) r).
  hseq; [by apply (observe_spec t K); [apply _|]|done|]. intros seen.
  apply (hoare_pre _ _ _ _ _ (λ w, K w ∧ seen_ok r seen)); [by intros w _ (? & _ & ?)|].
  apply hoare_pure. intros Hseen. case_match eqn:Hrec; [|by apply perform_spec].
  apply andb_true_iff in Hrec as [[_ Hs%bool_decide_eq_true]%andb_true_iff _].
  hseq; [by apply (ensurePayoutFunding_keep t K); [apply _|done|rewrite Hs]|done|]. intros ?.
  hseq; [by apply (hoare_get (port sha256) t K (row_id r) (λ _, True)); [apply _|]|done|]. intros r'.
  apply (hoare_pre _ _ _ _ _ (λ w, since (row_id r') r' w ∧ send_row_ok r')).
  { intros w _ (_ & Hsi & Hok & Hid & _). by rewrite <- Hid in Hsi. }
  apply hoare_pure. intros. by apply observed_perform.
Qed.

Lemma quarantine_spec t r e :
  triple t (λ _, True) (quarantine r e) (λ _ _, True) (λ _ _, True).
Proof.
  destruct e; cbn [quarantine]; try by apply hoare_throw; [apply _|].
  hseq; [apply (get_keep (port sha256) t (λ _, True)); apply _|done|]. intros current.
  case_bool_decide as Hs; [by apply hoare_throw; [apply _|]|].
  hseq; [apply (hoare_report (port sha256) t (λ _, True) _ _ (λ _ _, True)); apply _|done|]. intros ?.
  hseq; [apply (fail_plain t (λ _, True)); [apply _|]|done|intros ?; by apply (hoare_ret _ _ _ _ _ (λ _, True))].
  intros Hr. by rewrite Hr in Hs.
Qed.

Lemma tick_safe t fuel i : safe (port sha256) t (tick deps self fuel i).
Proof.
  unfold tick. apply (safe_guardedTick (port sha256)). intros r Hr.
  apply (hoare_catch _ _ _ _ _ _ _ _ (λ _ _, True)); try apply _; [by apply step_spec|].
  intros e. apply quarantine_spec.
Qed.

(** ** The sweeps *)

(** A preimage may be recorded on a row whose ERC20 is out. *)
Lemma preimage_ok (w : W) i r s at_ :
  Inv w → find_row (db w) i = Some r → is_out (state r) = true → opening (quote r) s →
  send_row_ok (mkRow (row_id r) (state r) (created_at r) at_ (quote r)
                 (set_columns [("preimage", Some (VText s))] (cols r))).
Proof.
  intros Hi Hr Ho Hop. destruct (row_inv w i r Hi Hr) as (_ & _ & Hd).
  hnf. cbn [state cols quote]. rewrite !set_columns_lookup. split_and!; [|by eexists|exact Hd].
  intros v Hv. change (Some (VText s) = Some v) in Hv. simplify_eq. split; [done|by exists s].
Qed.

Lemma watchLateLock_spec t K height r :
  Stable t K → (∀ w, K w → since (row_id r) r w) → send_row_ok r → is_out (state r) = true →
  triple t K (watchLateLock deps self height r) (λ _, K) (λ _, K).
Proof.
  intros HK Hsince Hr Ho. unfold watchLateLock. apply (hoare_degraded (port sha256)); [done|].
  hbind; [by apply (lockFor_spec sha256 t K)|]. intros lock. apply hoare_pure. intros Hl.
  hbind; [by apply (asks_keep (port sha256) t K)|]. intros present.
  apply (hoare_bind _ _ _ _ _ _ _ (λ claimed w, K w ∧ ∀ s, claimed = Some s → opening (quote r) s)); try apply _.
  { case_match; [by hret|]. by apply findPreimage_spec. }
  intros [s|]; apply hoare_pure; intros Hf.
  - apply (hoare_bind _ _ _ _ _ _ _ (λ _, K)); try apply _.
    { specialize (Hf s eq_refl). apply (hoare_patch (port sha256)); [done|]. intros w at_ Hi HKw.
      apply Hsince in HKw as (r' & Hr' & _ & Hq & _ & Hle & _).
      split; [done|]. split; [unfrozen|]. intros r0 Hr0. simplify_eq.
      apply (preimage_ok w (row_id r)); [done|done|by eapply is_out_le|by rewrite Hq]. }
    intros ?. hbind; [by apply (hoare_report (port sha256) t K)|]. intros ?. by hret.
  - destruct present; [|by hret]. hbind; [by apply (hoare_firstReport (port sha256) t K)|]. intros first.
    hbind; [by apply (report_if (port sha256) t K)|]. intros ?. by hret.
Qed.

Lemma findClosed_rows d n (r : row) :
  r ∈ select_findClosedOverLock n d → r ∈ rows d ∧ is_out (state r) = true.
Proof.
  intros Hin. unfold select_findClosedOverLock in Hin. rewrite elem_of_order_by in Hin.
  apply list_elem_of_filter in Hin as [(Hs & _) Hin]. split; [done|].
  apply list_elem_of_In in Hs. by destruct Hs as [<-|[<-|[]]].
Qed.

Lemma watchLateLocks_safe t : safe (port sha256) t (watchLateLocks deps self).
Proof.
  unfold watchLateLocks. hseq; [by apply (hoare_now (port sha256) t (λ _, True) (λ _ _, True)); apply _|done|].
  intros n. hseq; [|done|].
  { apply (hoare_rows (port sha256) t (λ _, True) _ (λ r, is_out (state r) = true)); [apply _|].
    intros d r. apply findClosed_rows. }
  intros l. apply (hoare_pre _ _ _ _ _ (λ w, all_since l w ∧ ∀ r, r ∈ l → send_row_ok r ∧ is_out (state r) = true)).
  { intros w _ [_ Hl]. split; [intros r Hin; by apply Hl|]. intros r Hin. by apply Hl. }
  apply hoare_pure. intros Hl. destruct l as [|r0 l0] eqn:Heq; [by apply hoare_ret; [apply _|]|]. rewrite <- Heq in *.
  clear Heq. hseq; [apply (asks_keep (port sha256) t (all_since l)); apply _|done|]. intros height.
  hseq; [|done|intros ?; by apply (hoare_ret _ _ _ _ _ (λ _, True))].
  apply (for_each_row (port sha256)). intros K r HK Hsi Hin. destruct (Hl r Hin). by apply watchLateLock_spec.
Qed.

Lemma sweepRows_safe t fuel : safe (port sha256) t (sweepRows deps self fuel).
Proof.
  unfold sweepRows. hseq; [by apply (live_rows_safe (port sha256))|done|]. intros l.
  hseq; [apply (safe_sweep (port sha256)); intros i; [apply safe_unheld|apply tick_safe]|done|]. intros rs.
  hseq; [by apply watchLateLocks_safe|done|]. intros ?. by apply (hoare_ret _ _ _ _ _ (λ _, True)).
Qed.

Lemma refundRefused_spec t K r :
  Stable t K → (∀ w, K w → since (row_id r) r w) → state r = EvmSend.refused →
  triple t K (refundRefused r) (λ _, K) (λ _, K).
Proof.
  intros HK Hsince Hs. unfold refundRefused. apply (hoare_degraded (port sha256)); [done|].
  hbind; [by apply (asks_keep (port sha256) t K)|]. intros [|o outputs].
  - hbind; [by apply (asks_keep (port sha256) t K)|]. intros spent.
    hbind; [destruct spent; [by apply (patch_other t K)|by hret]|]. intros ?. by hret.
  - hbind.
    { apply (hoare_act (port sha256) t K); [done|done|]. intros w _ HKw.
      apply Hsince in HKw as (r' & Hr' & _ & Hq & _ & (Href & _) & _). exists r'.
      split_and!; [exact Hr'|auto|by rewrite Hq]. }
    intros txid. hbind; [by apply (patch_other t K)|]. intros ?. by hret.
Qed.

Lemma refundSweep_safe t : safe (S := EvmSend.state) (Q := CommonQuote) (Eff := SendEffect) (port sha256) t refundSweep.
Proof.
  unfold refundSweep. hseq; [|done|].
  { apply (hoare_rows (port sha256) t (λ _, True) select_findRefundable (λ r, state r = EvmSend.refused)); [apply _|].
    intros d r Hin. unfold select_findRefundable in Hin. rewrite elem_of_order_by in Hin.
    apply list_elem_of_filter in Hin as [[Hs _] Hin]. done. }
  intros l. apply (hoare_pre _ _ _ _ _ (λ w, all_since l w ∧ ∀ r, r ∈ l → state r = EvmSend.refused)).
  { intros w _ [_ Hl]. split; [intros r Hin; by apply Hl|]. intros r Hin. by apply Hl. }
  apply hoare_pure. intros Hl. apply (for_each_row (port sha256)). intros K r HK Hsi Hin. apply refundRefused_spec; auto.
Qed.

Lemma tickAll_safe t fuel : safe (port sha256) t (tickAll deps self fuel).
Proof.
  unfold tickAll. hbind.
  { apply (hoare_memory (port sha256) t (λ _, True)); [apply _|]. intros w w' y [_ ->]. split_and!; reflexivity. }
  intros []; cbn [negb]; [|by apply (hoare_ret _ _ _ _ _ (λ _, True))]. apply hoare_finally; try apply _.
  - hseq; [by apply sweepRows_safe|done|]. intros ?. by apply (hoare_ret _ _ _ _ _ (λ _, True)).
  - intros x w Hi _ w' u ->.
    destruct (same_core_sound w (with_memory w (ticking w) (inside w) (reported w) (sweeping w ∖ {[self]}))) as [? Hrely];
      [split_and!; reflexivity|done|].
    split_and!; [done|intros v _; apply Hrely|by destruct x].
Qed.

Lemma recoverySweep_safe t adapter : safe (S := EvmSend.state) (Q := CommonQuote) (port sha256) t (payoutFundingRecoverySweep adapter).
Proof.
  unfold payoutFundingRecoverySweep. apply (hoare_degraded (port sha256) t (λ _, True)); [apply _|].
  destruct adapter; [|by apply (hoare_ret _ _ _ _ _ (λ _, True))].
  hseq; [|done|intros ?; by apply (hoare_ret _ _ _ _ _ (λ _, True))].
  by apply (hoare_act (port sha256) t (λ _, True)); [apply _|..].
Qed.

(** The row found by a script, as it was read. *)
Lemma found_spec t script :
  triple t (λ _, True) (findByPkScript script : io (option row))
    (λ found w, ∀ r, found = Some r → since (row_id r) r w) (λ _ _, True).
Proof.
  eapply hoare_conseq.
  - apply (hoare_query (port sha256) t (λ _, True) (select_findByPkScript script)
      (λ found w, ∀ r, found = Some r → since (row_id r) r w)); try apply _.
    intros w Hi _ r Hr. exists r. split; [|apply row_le_refl]. destruct Hi as ([Hnd _] & _).
      apply find_row_In; [done|]. unfold select_findByPkScript in Hr. apply head_Some_elem_of in Hr.
      rewrite elem_of_order_by in Hr. by apply list_elem_of_filter in Hr as [_ ?].
  - done.
  - done.
  - done.
Qed.

Lemma sweptRecord_spec t K (r : row) fields :
  Stable t K → triple t K (swept_record sweptDeps r fields) (λ _, K) (λ _, K).
Proof.
  intros HK. destruct fields as [v [outcome|] [txid|]]; cbn;
    first [by apply (patch_other t K)|by apply (hoare_ret _ _ _ _ _ K)].
Qed.

Lemma sweptRefund_spec t (r : row) outputs :
  state r = EvmSend.refused →
  triple t (since (row_id r) r) (swept_refund sweptDeps r outputs) (λ _, since (row_id r) r) (λ _, since (row_id r) r).
Proof.
  intros Hs. refine (hoare_act (port sha256) t (since (row_id r) r) (RefundSwept _ outputs) _ eq_refl _).
  intros w _ (r' & Hr' & _ & Hq & _ & (Href & _) & _). exists r'. split_and!; [exact Hr'|auto|by rewrite Hq].
Qed.

Lemma refundSweptLockup_safe t ops script :
  safe (S := EvmSend.state) (Q := CommonQuote) (Eff := SendEffect) (port sha256) t (refundSweptLockup ops script).
Proof.
  unfold refundSweptLockup. destruct ops; [|by apply (hoare_ret _ _ _ _ _ (λ _, True))].
  unfold refundSweptLockupFor. hseq; [by apply found_spec|done|].
  intros [r|]; [|by apply hoare_ret; [apply _|]]. cbn [swept_outputs swept_id sweptDeps].
  apply (hoare_pre _ _ _ _ _ (since (row_id r) r)); [by intros w _ Hf; apply Hf|].
  hseq; [by apply (asks_keep (port sha256) t (since (row_id r) r)); apply _|done|].
  intros outputs. destruct outputs as [|o outputs]; [by apply hoare_ret; [apply _|]|].
  unfold sweptVerdict. cbn [swept_refused swept_decide sweptDeps].
  case_bool_decide as Hs; [|by apply hoare_ret; [apply _|]].
  match goal with |- context [bind (ret ?x) ?f] => change (bind (ret x) f) with (f x); cbv beta iota end.
  hseq; [by apply sweptRefund_spec|done|].
  intros txid. hseq; [by apply (sweptRecord_spec t (since (row_id r) r)); apply _|done|].
  intros ?. by apply hoare_ret; [apply _|].
Qed.

(** ** Quoting *)

Lemma quoted_safe t i (q : CommonQuote) : safe (port sha256) t (insert i q : io row).
Proof.
  apply (insert_safe (port sha256)). intros r Hs Hc. hnf. rewrite Hs, Hc, lookup_empty.
  split_and!; [by intros v Hv|intros [?|[?|[]]]%list_elem_of_In; done|done].
Qed.
End send_discipline.
