(* ===== verification/EvmSendSafety.v ===== *)
(** * The guarantees of the send service

    The service run by any number of instances against one database: every
    interleaving, event by event, of any ticks, sweeps, quotes and restarts,
    any of them dying at any point, every read answering anything it may and
    every request failing before or after it took effect. [reachable] is every
    point of every such run; the theorems say what holds at all of them. *)
From S2P Require Import Prelude StateMachine EvmPlan BlockTime Prog SwapDb EvmRow Store EvmStore.
From S2P Require Import World EvmService EvmExample Discipline Rules EvmRules EvmSendService EvmSendProof.

#[local] Abbreviation row := EvmSendRow.
#[local] Abbreviation W := (World EvmSend.state CommonQuote SendEffect).
#[local] Abbreviation event := (evt EvmSend.state CommonQuote SendEffect ask).

Section reachable.
Context (sha256 : list Z → list Z) `{EvmHtlcBackend}.

(** What an instance may start, whatever its configuration. *)
Inductive send_program : prog event unit → Prop :=
  | starts_tick deps self fuel i : send_program (forget (tick deps self fuel i))
  | starts_sweep deps self fuel : send_program (forget (tickAll deps self fuel))
  | starts_refund_sweep : send_program (forget refundSweep)
  | starts_swept_refund ops script : send_program (forget (refundSweptLockup ops script))
  | starts_recovery_sweep adapter : send_program (forget (payoutFundingRecoverySweep adapter))
  | starts_quote i q : send_program (forget (insert i q : io event Error row))
  | starts_process self : send_program (trigger (Restart self)).

Definition reachable (c : W * list (nat * prog event unit)) : Prop :=
  rtc (cstep (handle (Entry EvmSend.locking_evm) (port sha256)) send_program) (empty_world, []) c.

#[local] Abbreviation Inv := (Inv (D := SendDiscipline sha256)).
#[local] Abbreviation Rely := (Rely (D := SendDiscipline sha256)).

Lemma send_program_safe t p :
  send_program p → ∀ w, Inv w → wp (handle (Entry EvmSend.locking_evm) (port sha256)) Inv Rely t p (λ _ _, True) w.
Proof.
  intros Hp w Hi. destruct Hp; [apply (forget_safe (D := SendDiscipline sha256) (port sha256)); [|done]..|by apply (restart_safe (D := SendDiscipline sha256) (port sha256))].
  - apply tick_safe.
  - apply tickAll_safe.
  - apply refundSweep_safe.
  - apply refundSweptLockup_safe.
  - apply recoverySweep_safe.
  - apply quoted_safe.
Qed.

(** The invariant of the service holds throughout. *)
Lemma reachable_inv c : reachable c → Inv c.1.
Proof. apply (instances_inv (D := SendDiscipline sha256) (port sha256) _ send_program_safe). Qed.

(** ** The guarantees *)

(** The swap whose money a request moves, refunding a refused lockup aside. *)
Definition spends (a : SendEffect) : option string :=
  match a with
  | LockCall i _ | RefundCall i _ | EnsureFunding i _ _ | ClaimArkade i _ => Some i
  | RefundLockup _ _ | RefundSwept _ _ | SweepRecovery => None
  end.

(** The covenant a request hands back to the client. *)
Definition hands_back (a : SendEffect) : option CovenantScriptRow :=
  match a with RefundLockup cov _ | RefundSwept cov _ => Some cov | _ => None end.

(** C15: a client whose lockup was handed back got nothing else: in every
    interleaving of the instances of the service, once [refundSweep] or
    [refundSweptLockup] has sent the refund of a lockup, no ERC20 lock, provider funding, ERC20 refund or
    Arkade claim has left for that swap, and what was refunded is the covenant
    the swap was quoted with. *)
Theorem refunded_lockup_is_all c refund cov :
  reachable c → refund ∈ sent c.1 → hands_back refund = Some cov →
  (∀ a, a ∈ sent c.1 → spends a ≠ Some (cov_id cov)) ∧
  ∃ r, find_row (db c.1) (cov_id cov) = Some r ∧ state r = EvmSend.refused ∧
       cov = evmSendCovenantRowFor (row_id r) (quote r).
Proof.
  intros Hc Hin Hback. destruct (reachable_inv c Hc) as (_ & _ & He & _).
  assert (∃ r, find_row (db c.1) (cov_id cov) = Some r ∧ state r = EvmSend.refused ∧
               cov = evmSendCovenantRowFor (cov_id cov) (quote r)) as (r & Hr & Hs & Hcov).
  { specialize (He _ Hin). by destruct refund; simplify_eq; cbn in Hback; simplify_eq. }
  split.
  - intros a Ha Hp. pose proof (He a Ha) as Hok.
    destruct a; cbn in Hp, Hok; simplify_eq; cbn in Hok;
      destruct_and?; repeat match goal with H : ∃ _, _ |- _ => destruct H end; destruct_and?; simplify_eq;
      rewrite Hs in *; done.
  - exists r. pose proof (find_row_Some _ _ _ Hr) as [-> _]. done.
Qed.

(** The calls of the ERC20 lock sent for a swap, in order. *)
Definition lock_calls_sent (i : string) (l : list SendEffect) : list string :=
  omap (λ a, match a with LockCall j c => if decide (j = i) then Some c else None | _ => None end) l.

Lemma lock_calls_own (i : string) (w : W) :
  LockCall i <$> lock_calls_sent i (sent w) = own_sent (D := SendDiscipline sha256) i w.
Proof.
  unfold lock_calls_sent, own_sent. induction (sent w) as [|a l IH]; [done|]. rewrite filter_cons.
  destruct a as [j c|j c|j b m|j s|cov os|cov os|]; cbn [own_of SendDiscipline];
    try (rewrite decide_False by done; exact IH).
  cbn. destruct (decide (j = i)) as [->|Hj].
  - rewrite decide_True by done. cbn. by f_equal.
  - rewrite decide_False by congruence. exact IH.
Qed.

(** C1: the ERC20 is locked at most once per swap: whatever instances, ticks
    and crashes there are, the lock calls that ever left for a swap are the
    first ones, each once and in order, of the calls for one lock, the lock its
    row records. *)
Theorem erc20_locked_at_most_once c i :
  reachable c →
  lock_calls_sent i (sent c.1) = [] ∨
  ∃ r lock allowance, find_row (db c.1) i = Some r ∧ sendLockFromRow (quote r) = Ok lock ∧
    lock_calls_sent i (sent c.1) `prefix_of` lockCalls lock allowance.
Proof.
  intros Hc. destruct (reachable_inv c Hc) as (_ & _ & _ & _ & Ho). specialize (Ho i).
  rewrite <- lock_calls_own in Ho. destruct Ho as [Hn|(_ & r & l & Hr & (lock & allowance & Hl & ->) & Hp)].
  - left. by destruct (lock_calls_sent i (sent c.1)).
  - right. exists r, lock, allowance. split_and!; [done..|].
    destruct Hp as [k Hk]. apply fmap_app_inv in Hk as (l1 & l2 & H1 & _ & ->).
    enough (l1 = lock_calls_sent i (sent c.1)) as -> by by eexists.
    symmetry. apply (list_fmap_eq_inj (LockCall i)); [by intros ? ? [= ->]|done].
Qed.

(** C3: the Arkade lockup is only ever claimed with a preimage the solver can
    defend: every claim sent carries the hexadecimal of a value whose hash is
    the payment hash of the lock of its row, the row then already has a
    preimage on disk, and it is claiming, claimed or stuck. *)
Theorem claims_are_backed c i s :
  reachable c → ClaimArkade i s ∈ sent c.1 →
  ∃ r p lock, find_row (db c.1) i = Some r ∧ is_Some (cols r !! "preimage") ∧
    state r ∈ [EvmSend.claiming; EvmSend.claimed; EvmSend.stuck] ∧
    s = hex_encode p ∧ sendLockFromRow (quote r) = Ok lock ∧ sha256 p = lock_preimageHash lock.
Proof.
  intros Hc Hin. destruct (reachable_inv c Hc) as (_ & _ & He & _).
  destruct (He _ Hin) as (r & Hr & Hs & Hp & p & lock & -> & Hl & Hh). exists r, p, lock.
  split_and!; try done. apply list_elem_of_In. destruct (state r); cbn in Hs |- *; try done; tauto.
Qed.

(** A lock that left is never forgotten: as long as the client could still
    claim it, the row of a lock call ever sent is either live, claimed, or
    among the closed rows every sweep re-reads the contract for. *)
Theorem sent_lock_stays_watched c i call nowSeconds :
  reachable c → LockCall i call ∈ sent c.1 →
  ∃ r, find_row (db c.1) i = Some r ∧
    (nowSeconds < refundLocktime (quote r) →
     r ∈ select_findByStates EvmSend.EVM_SEND_NON_TERMINAL (db c.1) ∨ state r = EvmSend.claimed ∨
     r ∈ select_findClosedOverLock nowSeconds (db c.1)).
Proof.
  intros Hc Hin. destruct (reachable_inv c Hc) as (_ & _ & He & _).
  destruct (He _ Hin) as [(r & Hr & Ho) (e & Hev & Hi & Hto)]. exists r. split; [done|]. intros Hn.
  pose proof (find_row_Some _ _ _ Hr) as [Hid Hrow].
  unfold select_findByStates, select_findClosedOverLock. rewrite !elem_of_order_by, !list_elem_of_filter.
  destruct (decide (state r ∈ EvmSend.EVM_SEND_NON_TERMINAL)); [by left|].
  destruct (decide (state r = EvmSend.claimed)); [by right; left|]. right; right.
  split_and!; [|done| |done].
  - apply list_elem_of_In. destruct (state r); cbn; try done; try tauto;
      match goal with H : _ ∉ _ |- _ => destruct H; apply (bool_decide_unpack _); vm_compute; exact I end.
  - apply existsb_exists. exists e. split; [by apply list_elem_of_In|].
    by rewrite !bool_decide_true by congruence.
Qed.

(** What the states promise is in the row: a claiming or claimed row has its
    preimage, a claimed one the transaction that claimed it, and a preimage is
    only ever on a row whose lock was entered and opens it; and at no point do
    two swaps that are not refused share a payment hash. *)
Theorem rows_keep_their_promises c :
  reachable c →
  (∀ i r, find_row (db c.1) i = Some r →
     (state r ∈ [EvmSend.claiming; EvmSend.claimed] → is_Some (cols r !! "preimage")) ∧
     (state r = EvmSend.claimed → is_Some (cols r !! "claim_ark_txid")) ∧
     (∀ v, cols r !! "preimage" = Some v → (state r ∉ [EvmSend.quoted; EvmSend.funded; EvmSend.refused]) ∧
        ∃ p lock, v = VText (hex_encode p) ∧ sendLockFromRow (quote r) = Ok lock ∧
          sha256 p = lock_preimageHash lock)) ∧
  (∀ r1 r2, r1 ∈ rows (db c.1) → r2 ∈ rows (db c.1) →
     state r1 ≠ EvmSend.refused → state r2 ≠ EvmSend.refused →
     paymentHash (quote r1) = paymentHash (quote r2) → r1 = r2).
Proof.
  intros Hc. destruct (reachable_inv c Hc) as (Hwf & Hok & _). split.
  - intros i r Hr. destruct (Hok i r Hr) as (Hp & Hcl & Hd). split_and!; [done|done|].
    intros v Hv. destruct (Hp v Hv) as (Ho & s & -> & p & lock & -> & Hl & Hh). split; [|by exists p, lock].
    rewrite !not_elem_of_cons. destruct (state r); try done; split_and!; try done; apply not_elem_of_nil.
  - intros r1 r2 H1 H2 S1 S2 Hh. by eapply (live_hash_unique state_refused).
Qed.
End reachable.

(** ** A run *)

Section run.
#[local] Existing Instance example_backend.
Definition example_deps : SendDeps := mkSendDeps None true (QArith_base.Qmake 12 1).
(** The chains: the lock is in place once its call left, the client claims the
    ERC20 or not, and only "swap-1" is funded. *)
Definition example_oracle (claims : bool) (height : Z) (w : W) X (q : ask X) : option X :=
  match q in ask X return option X with
  | ArkadeLockupFunded i _ => Some (bool_decide (i = "swap-1"))
  | IsLocked _ => Some (existsb (λ a, match a with LockCall _ _ => true | _ => false end) (sent w))
  | BlockHeight => Some height
  | TimelockHeight => Some height
  | TransactionOutcome _ => Some pending
  | FindRefund _ _ => Some (existsb (λ a, match a with RefundCall _ _ => true | _ => false end) (sent w))
  | TransactionBlock _ => Some None
  | FindClaimPreimage lock _ _ _ _ =>
      if claims && bool_decide (lock_preimageHash lock = replicate 32 171) then Some (Some [1; 2; 3]) else Some None
  | IsLockedAt _ _ => Some true
  | BlockTimestampAt _ => Some 1600000000
  | Allowance _ => Some 0
  | Approval _ _ => Some true
  | FindLockups _ => Some ["outpoint"]
  | LockupProvablySpent _ => Some false
  | ArkadePreimage _ _ => Some None
  | FindSweptLockups _ => Some [("swept", 100000)]
  end.
Definition example_reply (a : SendEffect) : Reply a :=
  match a with EnsureFunding _ _ _ => None | SweepRecovery => tt | _ => "0xtx" end.

(** One program run alone, from [w] to the world it leaves. *)
Definition session (claims : bool) (height time : Z) (p : prog event unit) (w : W) : W :=
  match play (served (Entry EvmSend.locking_evm) time (example_oracle claims height) example_reply 0) p w with
  | Some (_, w') => w'
  | None => w
  end.

Lemma session_reachable claims height time p w :
  (0 ≤ time)%Z → send_program p → reachable example_sha256 (w, []) →
  reachable example_sha256 (session claims height time p w, []).
Proof.
  intros Htime Hp Hw. unfold session. case_match eqn:Hplay; [|done]. case_match; subst.
  unfold reachable in *. etransitivity; [exact Hw|]. eapply (play_session _ _ 0); [|exact Hp|exact Hplay].
  intros X e w2 x w3. apply served_handle; [done| |done]. clear. intros w X q x Hx.
  destruct q; cbn in Hx |- *; try done; intros p Hp; simplify_eq. case_match eqn:Hc; simplify_eq.
  apply andb_true_iff in Hc as [_ Hl%bool_decide_eq_true]. by rewrite Hl.
Qed.

(** Two swaps quoted; the first locked; the second refused and handed back. *)
Definition locked_world : W :=
  session false 20000000 1700000100 (forget refundSweep)
    (session false 20000000 1700000070 (forget (tickAll example_deps 0 3))
      (session false 20000000 1700000010 (forget (tickAll example_deps 0 3))
        (session false 20000000 1700000001 (forget (insert "swap-2" (swap_of "swap-2") : io event Error row))
          (session false 20000000 1700000000 (forget (insert "swap-1" (swap_of "swap-1") : io event Error row))
            empty_world)))).
Definition claimed_world : W :=
  session true 20000100 1700001000 (forget (tickAll example_deps 0 3)) locked_world.
(** The client does not claim: refunded at the timeout. *)
Definition refunded_world : W :=
  session false 21000001 1700001100 (forget (tickAll example_deps 0 3))
    (session false 21000000 1700001000 (forget (tickAll example_deps 0 3)) locked_world).

Lemma locked_world_reachable : reachable example_sha256 (locked_world, []).
Proof. repeat (apply session_reachable; [done|constructor|]). apply rtc_refl. Qed.
Lemma claimed_world_reachable : reachable example_sha256 (claimed_world, []).
Proof. apply session_reachable; [done|constructor|apply locked_world_reachable]. Qed.
Lemma refunded_world_reachable : reachable example_sha256 (refunded_world, []).
Proof. do 2 (apply session_reachable; [done|constructor|]). apply locked_world_reachable. Qed.

Lemma locked_world_sent :
  sent locked_world =
    [LockCall "swap-1" "approve"; LockCall "swap-1" "lock";
     RefundLockup (evmSendCovenantRowFor "swap-2" (swap_of "swap-2")) ["outpoint"]].
Proof. vm_compute. reflexivity. Qed.
Lemma claimed_world_sent : sent claimed_world = sent locked_world ++ [ClaimArkade "swap-1" "010203"].
Proof. vm_compute. reflexivity. Qed.
Lemma refunded_world_sent : sent refunded_world = sent locked_world ++ [RefundCall "swap-1" "refund"].
Proof. vm_compute. reflexivity. Qed.
Lemma claimed_world_state : state <$> find_row (db claimed_world) "swap-1" = Some EvmSend.claimed.
Proof. vm_compute. reflexivity. Qed.
Lemma refunded_world_state : state <$> find_row (db refunded_world) "swap-1" = Some EvmSend.refunded.
Proof. vm_compute. reflexivity. Qed.

#[local] Opaque locked_world claimed_world refunded_world.

Lemma refunded_lockup_is_all_witness :
  RefundLockup (evmSendCovenantRowFor "swap-2" (swap_of "swap-2")) ["outpoint"] ∈ sent locked_world ∧
  ∀ a, a ∈ sent locked_world → spends a ≠ Some "swap-2".
Proof.
  assert (RefundLockup (evmSendCovenantRowFor "swap-2" (swap_of "swap-2")) ["outpoint"] ∈ sent locked_world) as Hin.
  { rewrite locked_world_sent. right. right. left. }
  split; [exact Hin|].
  apply (refunded_lockup_is_all _ (locked_world, []) _ _ locked_world_reachable Hin eq_refl).
Defined.

Lemma erc20_locked_at_most_once_witness :
  lock_calls_sent "swap-1" (sent claimed_world) = [] ∨
  ∃ r lock allowance, find_row (db claimed_world) "swap-1" = Some r ∧
    sendLockFromRow (quote r) = Ok lock ∧
    lock_calls_sent "swap-1" (sent claimed_world) `prefix_of` lockCalls lock allowance.
Proof. exact (erc20_locked_at_most_once _ (claimed_world, []) "swap-1" claimed_world_reachable). Defined.

Lemma claims_are_backed_witness :
  ∃ r p lock, find_row (db claimed_world) "swap-1" = Some r ∧ is_Some (cols r !! "preimage") ∧
    state r ∈ [EvmSend.claiming; EvmSend.claimed; EvmSend.stuck] ∧
    "010203" = hex_encode p ∧ sendLockFromRow (quote r) = Ok lock ∧
    example_sha256 p = lock_preimageHash lock.
Proof.
  apply (claims_are_backed _ (claimed_world, []) _ _ claimed_world_reachable). cbn [fst].
  rewrite claimed_world_sent. apply elem_of_app. right. left.
Defined.

Lemma sent_lock_stays_watched_witness :
  ∃ r, find_row (db refunded_world) "swap-1" = Some r ∧
    (1700080000 < refundLocktime (quote r) →
     r ∈ select_findByStates EvmSend.EVM_SEND_NON_TERMINAL (db refunded_world) ∨
     state r = EvmSend.claimed ∨
     r ∈ select_findClosedOverLock 1700080000 (db refunded_world)).
Proof.
  apply (sent_lock_stays_watched _ (refunded_world, []) _ "lock" 1700080000 refunded_world_reachable). cbn [fst].
  rewrite refunded_world_sent, locked_world_sent. right. left.
Defined.

Lemma rows_keep_their_promises_witness :
  ∃ r, find_row (db claimed_world) "swap-1" = Some r ∧ state r = EvmSend.claimed ∧
       is_Some (cols r !! "claim_ark_txid").
Proof.
  pose proof claimed_world_state as Hs.
  destruct (find_row (db claimed_world) "swap-1") as [r|] eqn:Hr; [|discriminate].
  injection Hs as Hs. exists r. split; [reflexivity|]. split; [exact Hs|].
  exact (proj1 (proj2 (proj1 (rows_keep_their_promises _ (claimed_world, []) claimed_world_reachable) _ _ Hr)) Hs).
Defined.
End run.
