(* ===== verification/EvmReceiveProof.v ===== *)
(** * What the receive service never does

    The discipline of [EvmReceiveSwapService] over the rules of [Rules]: any
    number of its instances, ticking, sweeping and quoting at once against one
    database, dying at any point and restarted. *)
From S2P Require Import Prelude StateMachine EvmPlan Prog SwapDb EvmRow Store EvmStore.
From S2P Require Import World EvmService Discipline Rules EvmRules EvmReceiveService.
#[local] Opaque transition patch.

(** ** The lifecycle the handlers walk *)

Definition receive_edges (s : EvmReceive.state) : list EvmReceive.state :=
  match s with
  | EvmReceive.quoted => [EvmReceive.funding_arkade; EvmReceive.claiming; EvmReceive.refused; EvmReceive.stuck]
  | EvmReceive.funding_arkade => [EvmReceive.awaiting_claim; EvmReceive.claiming; EvmReceive.stuck]
  | EvmReceive.awaiting_claim => [EvmReceive.refunding_arkade; EvmReceive.claiming; EvmReceive.stuck]
  | EvmReceive.claiming => [EvmReceive.claimed; EvmReceive.stuck]
  | EvmReceive.refunding_arkade => [EvmReceive.refunded; EvmReceive.claiming; EvmReceive.stuck]
  | _ => []
  end.
Definition receive_edge (s s' : EvmReceive.state) : Prop := s' ∈ receive_edges s.
#[export] Instance receive_edge_dec s s' : Decision (receive_edge s s').
Proof. unfold receive_edge. apply _. Defined.

(** The solver's sats may be out, or have been, or the swap is given up. *)
Definition sats_out (s : EvmReceive.state) : bool :=
  match s with
  | EvmReceive.quoted | EvmReceive.awaiting_lock | EvmReceive.locked | EvmReceive.refused => false
  | _ => true
  end.
Definition receive_post_refund (s : EvmReceive.state) : bool :=
  match s with
  | EvmReceive.refunding_arkade | EvmReceive.refunded | EvmReceive.claiming | EvmReceive.claimed
  | EvmReceive.stuck => true
  | _ => false
  end.
Definition receive_post_claim (s : EvmReceive.state) : bool :=
  match s with EvmReceive.claiming | EvmReceive.claimed | EvmReceive.stuck => true | _ => false end.

(** A set of states no edge leaves. *)
Lemma receive_closed (P : EvmReceive.state → bool) s s' :
  forallb (λ s, implb (P s) (forallb P (receive_edges s)))
    [EvmReceive.quoted; EvmReceive.awaiting_lock; EvmReceive.locked; EvmReceive.funding_arkade;
     EvmReceive.awaiting_claim; EvmReceive.claiming; EvmReceive.claimed; EvmReceive.refunding_arkade;
     EvmReceive.refunded; EvmReceive.refused; EvmReceive.stuck] = true →
  rtc receive_edge s s' → P s = true → P s' = true.
Proof.
  rewrite forallb_forall. intros Hall. apply (rtc_invariant _ (λ x, P x = true)). intros x y Hxy Hx.
  assert (implb (P x) (forallb P (receive_edges x)) = true) as Hx' by (apply Hall; destruct x; vm_compute; tauto).
  clear Hall; rename Hx' into Hall. rewrite Hx in Hall. cbn in Hall.
  rewrite forallb_forall in Hall. by apply Hall, list_elem_of_In.
Qed.

Lemma sats_out_le s s' : rtc receive_edge s s' → sats_out s = true → sats_out s' = true.
Proof. by apply (receive_closed sats_out). Qed.
Lemma receive_post_refund_le s s' :
  rtc receive_edge s s' → receive_post_refund s = true → receive_post_refund s' = true.
Proof. by apply (receive_closed receive_post_refund). Qed.
Lemma receive_post_claim_le s s' :
  rtc receive_edge s s' → receive_post_claim s = true → receive_post_claim s' = true.
Proof. by apply (receive_closed receive_post_claim). Qed.
Lemma receive_terminal_le s s' :
  rtc receive_edge s s' → s ∉ EvmReceive.EVM_RECEIVE_NON_TERMINAL → s' = s.
Proof.
  intros Hs Hn. inversion Hs as [|? y ? Hy]; subst; [done|]. exfalso. unfold receive_edge in Hy.
  destruct s; cbn in Hy; try (by apply not_elem_of_nil in Hy);
    apply Hn; apply (bool_decide_unpack _); vm_compute; exact I.
Qed.

Section receive_discipline.
Context (sha256 : list Z → list Z) `{EvmHtlcBackend} (self : nat).
#[local] Abbreviation row := EvmReceiveRow.
#[local] Abbreviation W := (World EvmReceive.state EvmReceiveQuote ReceiveEffect).
#[local] Abbreviation event := (evt EvmReceive.state EvmReceiveQuote ReceiveEffect ask).
#[local] Abbreviation io := (io event Error).

(** [s] is the hexadecimal of a preimage of the swap's payment hash. *)
Definition reveals (q : EvmReceiveQuote) (s : string) : Prop :=
  ∃ p, Forall is_byte p ∧ s = hex_encode p ∧ hex_encode (sha256 p) = paymentHash (receive_common q).

Definition receive_row_ok (r : row) : Prop :=
  (state r ∉ [EvmReceive.awaiting_lock; EvmReceive.locked]) ∧
  (∀ v, cols r !! "preimage" = Some v →
     receive_post_claim (state r) = true ∧ ∃ s, v = VText s ∧ reveals (quote r) s) ∧
  (state r ∈ [EvmReceive.claiming; EvmReceive.claimed] → is_Some (cols r !! "preimage")) ∧
  (state r = EvmReceive.claimed → is_Some (cols r !! "evm_claim_txid")) ∧
  (state r = EvmReceive.refunded → is_Some (cols r !! "refund_ark_txid")).

(** What licenses each irreversible request. *)
Definition receive_effect_ok (d : EvmReceiveDb) (a : ReceiveEffect) : Prop :=
  match a with
  | FundArkade i _ _ => ∃ r, find_row d i = Some r ∧ sats_out (state r) = true
  | ClaimCall i call =>
      ∃ r p lock, find_row d i = Some r ∧ receive_post_claim (state r) = true ∧
        is_Some (cols r !! "preimage") ∧ Forall is_byte p ∧
        hex_encode (sha256 p) = paymentHash (receive_common (quote r)) ∧
        receiveLockFromRow (receive_common (quote r)) = Ok lock ∧ call = claimCall p lock
  | RefundArkade c _ =>
      ∃ r, find_row d (cov_id c) = Some r ∧ receive_post_refund (state r) = true ∧
        c = evmReceiveCovenantRowFor (cov_id c) (receive_common (quote r)) (payoutPubkey (quote r))
  end.

#[export] Instance ReceiveDiscipline : Discipline EvmReceive.state EvmReceiveQuote ReceiveEffect := {
  state_le := rtc receive_edge;
  kept _ := True;
  frozen _ := False;
  after_grant r := sats_out (state r) = true;
  granted := Entry EvmReceive.funding_arkade;
  row_ok := receive_row_ok;
  effect_ok := receive_effect_ok;
  own_of a := match a with FundArkade i _ _ => Some i | _ => None end;
  full i q l := l = [FundArkade i (lockupAddress (receive_common q)) (payoutSats (receive_common q))];
}.

Lemma receive_effect_ok_le (d d' : EvmReceiveDb) a :
  db_le d d' → receive_effect_ok d a → receive_effect_ok d' a.
Proof.
  intros [Hr _]. destruct a; cbn.
  - intros (r & Hf & Ho). destruct (Hr _ _ Hf) as (r' & Hf' & _ & _ & _ & Hle & _).
    exists r'. split; [done|by eapply sats_out_le].
  - intros (r & p & lock & Hf & Ho & Hp & Hrest). destruct (Hr _ _ Hf) as (r' & Hf' & _ & Hq & _ & Hle & Hc).
    exists r', p, lock. rewrite Hq. split_and!; [done|by eapply receive_post_claim_le|by apply Hc|tauto..].
  - intros (r & Hf & Ho & Hcov). destruct (Hr _ _ Hf) as (r' & Hf' & _ & Hq & _ & Hle & _).
    exists r'. rewrite Hq. split_and!; [done|by eapply receive_post_refund_le|done].
Qed.

#[export] Instance receive_laws :
  DisciplineLaws (S := EvmReceive.state) (Q := EvmReceiveQuote) (Eff := ReceiveEffect).
Proof.
  split; [intros; reflexivity|intros ???; apply transitivity|intros r r' (_ & _ & _ & Hs & _) _; by apply sats_out_le|apply receive_effect_ok_le].
Qed.

#[local] Abbreviation Stable := (Stable (W := W) Inv Rely).
#[local] Abbreviation triple := (hoare (X := Error) (handle (Eff := ReceiveEffect) granted (port sha256)) Inv Rely).

Lemma receive_row_inv (w : W) i r : Inv w → find_row (db w) i = Some r → receive_row_ok r.
Proof. exact (Inv_row_ok (D := ReceiveDiscipline) w i r). Qed.

(** ** Writing *)

(** Columns written without touching the preimage keep a row right, in its
    state or in one that promises no more. *)
Lemma receive_row_ok_cols (r : row) f s at_ :
  receive_row_ok r → clears_nothing f = true → assigned f "preimage" = None →
  rtc receive_edge (state r) s →
  s = state r ∨ s ∉ [EvmReceive.awaiting_lock; EvmReceive.locked; EvmReceive.claiming; EvmReceive.claimed;
                     EvmReceive.refunded] →
  receive_row_ok (mkRow (row_id r) s (created_at r) at_ (quote r) (set_columns f (cols r))).
Proof.
  intros (Hn & Hp & Hc & Hd & Hf) Hnull Ha Hle Hs. hnf. cbn [state cols quote].
  assert (set_columns f (cols r) !! "preimage" = cols r !! "preimage") as -> by by rewrite set_columns_lookup, Ha.
  pose proof (λ c, set_columns_kept f (cols r) c Hnull) as Hk.
  destruct Hs as [->|Hs]; [split_and!; auto|]. rewrite !not_elem_of_cons in Hs.
  destruct Hs as (H1 & H2 & H3 & H4 & H5 & _). split_and!; try done.
  - rewrite !not_elem_of_cons. split_and!; [done|done|apply not_elem_of_nil].
  - intros v Hv. destruct (Hp v Hv) as [Ho Hop]. split; [by eapply receive_post_claim_le|done].
  - intros [?|[?|[]]]%list_elem_of_In; done.
Qed.

Lemma receive_patch t K i f :
  Stable t K → clears_nothing f = true → assigned f "preimage" = None →
  triple t K (patch i f) (λ _, K) (λ _, K).
Proof.
  intros HK Hn Hp. apply (hoare_patch (port sha256)); [done|]. intros w at_ Hi _.
  split; [done|]. split; [unfrozen|].
  intros r Hr. apply receive_row_ok_cols; [by eapply receive_row_inv|done|done|done|by left].
Qed.

(** The row [i] got as far as [s]. *)
Definition reached (i : string) (s : EvmReceive.state) (w : W) : Prop :=
  ∃ r, find_row (db w) i = Some r ∧ rtc receive_edge s (state r).
#[export] Instance reached_stable t i s : Stable t (reached i s).
Proof.
  intros w w' [[Hd _] _] _ (r & Hr & Hs). destruct (Hd _ _ Hr) as (r' & Hr' & _ & _ & _ & Hs' & _).
  exists r'. split; [done|]. by etransitivity.
Qed.

(** A move that neither grants, nor reveals a preimage, nor settles anything. *)
Lemma receive_move t K i from to f :
  Stable t K → clears_nothing f = true → assigned f "preimage" = None →
  rtc receive_edge from to →
  to ∉ [EvmReceive.funding_arkade; EvmReceive.awaiting_lock; EvmReceive.locked; EvmReceive.claiming;
        EvmReceive.claimed; EvmReceive.refunded] →
  triple t K (transition i from to f)
    (λ _ w, K w ∧ reached i to w) (λ _, K).
Proof.
  intros HK Hn Hp Hle [Hg Hto]%not_elem_of_cons.
  eapply hoare_conseq.
  - apply (move_keep (port sha256) t K (λ w, K w ∧ reached i to w) i from to f); [done|apply _|done|by intros ? []|cbn; congruence|done| |].
    + intros w r at_ _ _ _ Hs Hr. apply receive_row_ok_cols; [done|done|done|by rewrite Hs|by right].
    + intros w r at_ HKw Hr. split; [done|]. eexists. split; [exact Hr|]. reflexivity.
  - done.
  - by intros ? w _ [? _].
  - done.
Qed.

Lemma receive_fail t K i from reason :
  Stable t K → rtc receive_edge from EvmReceive.stuck →
  triple t K (fail i from reason) (λ _, K) (λ _, K).
Proof.
  intros HK Hf. eapply hoare_conseq; [apply (receive_move t K); [done|reflexivity|reflexivity|exact Hf|]|done| |done].
  - apply (bool_decide_unpack _); vm_compute; exact I.
  - by intros ? w _ [? _].
Qed.

(** ** Observing *)

Lemma receive_text_col_preimage (r : row) s :
  receive_row_ok r → text_col r "preimage" = Some s → reveals (quote r) s.
Proof.
  intros (_ & Hp & _) Ht. unfold text_col in Ht. destruct (cols r !! "preimage") as [v|] eqn:Hv; [|done].
  destruct (Hp v eq_refl) as (_ & s' & -> & Hop). by simplify_eq/=.
Qed.

Lemma receiveLockFor_spec t K (r : row) :
  Stable t K →
  triple t K (receiveLockFor r)
    (λ lock w, K w ∧ receiveLockFromRow (receive_common (quote r)) = Ok lock) (λ _, K).
Proof. intros HK. by apply (hoare_lifted (port sha256)). Qed.

Lemma claimOutcome_keep t K (r : row) : Stable t K → triple t K (claimOutcome r) (λ _, K) (λ _, K).
Proof.
  intros HK. unfold claimOutcome. case_match; [by apply (read_keep (port sha256))|by apply hoare_ret].
Qed.

(** A preimage a right row is observed with is one of its hash. *)
Lemma receive_observe_spec t K (r : row) :
  Stable t K → receive_row_ok r →
  triple t K (observe r)
    (λ seen w, K w ∧ ∀ s, ReceivePlan.seen_preimage seen = Some s → reveals (quote r) s) (λ _, K).
Proof.
  intros HK Hr. unfold observe. hbind; [by apply receiveLockFor_spec|]. intros lock. apply hoare_pure. intros _.
  hbind; [by apply (asks_keep (port sha256))|]. intros present. hbind; [by apply (asks_keep (port sha256))|]. intros funded.
  hbind; [by apply (asks_keep (port sha256))|]. intros height. hbind; [by apply (asks_keep (port sha256))|]. intros clock.
  hbind; [by apply claimOutcome_keep|]. intros outcome.
  apply (hoare_bind _ _ _ _ _ _ _ (λ found w, K w ∧ ∀ s, found = Some s → reveals (quote r) s)); try apply _.
  { destruct (text_col r "preimage") as [s|] eqn:Ht.
    - hret. intros w _ HKw. split; [done|]. intros ? [= <-]. by apply receive_text_col_preimage.
    - destruct funded; [|by hret].
      eapply hoare_conseq; [by apply (hoare_asks (port sha256) t K)|done|by intros found w _ [? Hf]|done]. }
  intros preimage. apply hoare_pure. intros Hp.
  hbind; [by apply (hoare_now (port sha256) t K)|]. intros now1.
  hbind; [by apply (hoare_provenDepth sha256 t K)|]. intros depth.
  hbind; [by apply (hoare_now (port sha256) t K)|]. intros now2. hret. by intros w _ HKw.
Qed.

(** ** Funding *)

(** The row [i] of quote [q] has granted the funding of its lockup. *)
Definition funding_row (i : string) (q : EvmReceiveQuote) (w : W) : Prop :=
  ∃ r, find_row (db w) i = Some r ∧ sats_out (state r) = true ∧ quote r = q.
#[local] Instance funding_row_stable t i q : Stable t (funding_row i q).
Proof.
  intros w w' [[Hd _] _] _ (r & Hr & Ho & Hq). destruct (Hd _ _ Hr) as (r' & Hr' & _ & Hq' & _ & Hle & _).
  exists r'. split_and!; [done|by eapply sats_out_le|congruence].
Qed.

(** The entry into [funding_arkade]: the thread that made it owns the funding. *)
Lemma enter_funding t (r : row) :
  state r = EvmReceive.quoted → let i := row_id r in
  triple t (since i r) (transition i (state r) EvmReceive.funding_arkade [])
    (λ _ w, (funding_row i (quote r) w ∧ owns t i [] w) ∧ logged i EvmReceive.funding_arkade w)
    (λ _, since i r).
Proof.
  intros Hopen i.
  apply (hoare_transition (port sha256) t (since i r) (λ w, funding_row i (quote r) w ∧ owns t i [] w));
    [apply _|apply _| |].
  - intros w at_ Hi _. cbn [stmt_ok].
    assert (rtc receive_edge (state r) EvmReceive.funding_arkade) as Hle.
    { apply rtc_once. rewrite Hopen. left. }
    split_and!; [exact Hle|unfrozen|by left|by intros _ r1 _ Hs1; cbn; rewrite Hs1, Hopen|].
    intros r0 Hr0 Hs. apply receive_row_ok_cols; [by eapply receive_row_inv|done|done|by rewrite Hs|right].
    apply (bool_decide_unpack _); vm_compute; exact I.
  - intros w w' r0 at_ Hi HK Hr0 Hs _ Hi' _ Hr' Hown. split; [|by apply Hown].
    eexists. split_and!; [exact Hr'|done|]. destruct HK as (r1 & Hr1 & _ & Hq & _). by simplify_eq.
Qed.

Lemma fundArkade_spec t (r current : row) :
  row_id current = row_id r → quote current = quote r →
  triple t (λ w, funding_row (row_id r) (quote r) w ∧ owns t (row_id r) [] w)
    (fundArkade current) (λ _, funding_row (row_id r) (quote r)) (λ _, funding_row (row_id r) (quote r)).
Proof.
  intros Hid Hq. unfold fundArkade. rewrite Hid, Hq.
  set (a := FundArkade _ _ _). set (K := funding_row (row_id r) (quote r)).
  apply (hoare_conseq _ _ _ _ _ (λ w, K w ∧ owns t (row_id r) [] w) _ _ (λ _ w, K w ∧ owns t (row_id r) [a] w)
           _ (λ _, K)); [|by auto|by intros ? w _ [? _]|by auto].
  refine (hoare_act_own (port sha256) t K (row_id r) [] a _ eq_refl _ _).
  - intros w w' (r0 & Hr0 & ?) Hdb _. exists r0. by rewrite Hdb.
  - intros w _ (r0 & Hr0 & Ho0 & Hq0). split; [by exists r0|].
    eexists r0, _. split_and!; [exact Hr0|reflexivity|by rewrite Hq0].
Qed.

Lemma fundStep_spec t (r : row) :
  receive_row_ok r → sats_out (state r) = false → state r ≠ EvmReceive.refused →
  triple t (since (row_id r) r) (fundStep r)
    (λ moved w, moved = true → funding_row (row_id r) (quote r) w) (λ _ _, True).
Proof.
  intros Hr Ho Hne. set (i := row_id r).
  assert (state r = EvmReceive.quoted) as Hq.
  { destruct Hr as (Hn & _). rewrite !not_elem_of_cons in Hn. destruct (state r); naive_solver. }
  unfold fundStep. hseq; [apply (asks_keep (port sha256) t (since i r)); apply _|done|]. intros height. case_match.
  - hseq; [apply (receive_move t (since i r)); [apply _|done|done|rewrite Hq; apply rtc_once; right; right; left|]|done|].
    { apply (bool_decide_unpack _); vm_compute; exact I. }
    intros ?. hdone.
  - hseq; [by apply enter_funding|done|]. intros ?. fold i.
    apply (hoare_pre _ _ _ _ _ (λ w, funding_row i (quote r) w ∧ owns t i [] w)); [by intros w _ [? _]|].
    hseq.
    { apply (hoare_get (port sha256) t _ i (λ c, quote c = quote r)); [apply _|].
      intros w c _ [(r' & Hr' & _ & Hq') _] Hc. by simplify_eq. }
    { done. }
    intros current.
    apply (hoare_pre _ _ _ _ _ (λ w, (funding_row i (quote r) w ∧ owns t i [] w) ∧
             (row_id current = i ∧ quote current = quote r))); [naive_solver|].
    apply hoare_pure. intros [Hid Hcq].
    hseq; [by apply fundArkade_spec|done|].
    intros txid. hseq; [apply (receive_patch t (funding_row i (quote r))); [apply _|done..]|done|].
    intros ?. by hret.
Qed.

(** ** Claiming *)

(** The row may be claimed: its preimage is on disk. *)
Definition receive_claimable (i : string) (q : EvmReceiveQuote) (w : W) : Prop :=
  ∃ r : row, find_row (db w) i = Some r ∧ receive_post_claim (state r) = true ∧
       is_Some (cols r !! "preimage") ∧ quote r = q.
#[local] Instance receive_claimable_stable t i q : Stable t (receive_claimable i q).
Proof.
  intros w w' [[Hd _] _] _ (r & Hr & Ho & Hp & Hq).
  destruct (Hd _ _ Hr) as (r' & Hr' & _ & Hq' & _ & Hle & Hc).
  exists r'. split_and!; [done|by eapply receive_post_claim_le|by apply Hc|congruence].
Qed.

(** The CAS into [claiming], with the preimage in the same statement. *)
Lemma receive_enter_claiming t (r : row) preimage :
  rtc receive_edge (state r) EvmReceive.claiming → reveals (quote r) preimage →
  triple t (since (row_id r) r)
    (transition (row_id r) (state r) EvmReceive.claiming [("preimage", Some (VText preimage))])
    (λ _, receive_claimable (row_id r) (quote r)) (λ _, since (row_id r) r).
Proof.
  intros Hle Hop. eapply hoare_conseq.
  - apply (hoare_transition (port sha256) t (since (row_id r) r) (receive_claimable (row_id r) (quote r)));
      [apply _|apply _| |].
    + intros w at_ Hi (r' & Hr' & _ & Hq & _). cbn [stmt_ok]. split_and!; [exact Hle|unfrozen|by left|done|].
      intros r0 Hr0 Hs. simplify_eq. hnf. cbn [state cols quote]. rewrite set_columns_lookup.
      split_and!; [apply (bool_decide_unpack _); vm_compute; exact I| |by eexists|done..].
      intros v Hv. change (Some (VText preimage) = Some v) in Hv. simplify_eq.
      split; [done|]. exists preimage. by rewrite Hq.
    + intros w w' r0 at_ _ (r' & Hr' & _ & Hq & _) Hr0 Hs _ _ _ Hr1 _. simplify_eq.
      eexists. split_and!; [exact Hr1|done| |exact Hq]. cbn. rewrite lookup_insert_eq. by eexists.
  - done.
  - by intros ? w _ [? _].
  - done.
Qed.

Lemma claimStep_spec t (r : row) preimage :
  receive_row_ok r → rtc receive_edge (state r) EvmReceive.claiming → reveals (quote r) preimage →
  triple t (since (row_id r) r) (claimStep r preimage) (λ moved _, moved = false) (λ _ _, True).
Proof.
  intros Hr Hle Hop. unfold claimStep. set (i := row_id r). set (K := receive_claimable i (quote r)).
  eapply (hoare_seq _ _ _ _ _ _ _ (λ _, K) _ _ (λ _, since i r)); try apply _; [|done|].
  { case_bool_decide as Hs; [by apply receive_enter_claiming|].
    hret. intros w _ (r' & Hr' & _ & Hq & _ & Hle' & Hc). exists r'.
    assert (state r = EvmReceive.claiming) as Hc' by (destruct (decide (state r = EvmReceive.claiming)); tauto).
    split_and!; [done| | |done].
    - eapply receive_post_claim_le; [exact Hle'|]. by rewrite Hc'.
    - apply Hc; [done|]. destruct Hr as (_ & _ & Hp & _). apply Hp. rewrite Hc'. left. }
  intros ?. hseq.
  { apply (hoare_get (port sha256) t K i (λ c, quote c = quote r)); [apply _|].
    intros w c _ (r' & Hr' & _ & _ & Hq) Hc. by simplify_eq. }
  { done. }
  intros current.
  apply (hoare_pre _ _ _ _ _ (λ w, K w ∧ quote current = quote r)); [naive_solver|].
  apply hoare_pure. intros Hq. hseq; [apply (receiveLockFor_spec t K); apply _|done|].
  intros lock. apply hoare_pure. rewrite Hq. intros Hl.
  hseq; [|done|intros txid; hseq; [by apply (receive_patch t K); [apply _|..]|done|intros ?; hdone]].
  apply (hoare_act (port sha256) t K); [apply _|done|]. intros w _ (r' & Hr' & Ho & Hp & Hq').
  destruct Hop as (p & Hb & -> & Hh). exists r', p, lock. rewrite Hq'.
  split_and!; [done|done|done|done|done|done|]. by rewrite buffer_from_hex_encode.
Qed.

(** [claimed] over a claim transaction that is on the row. *)
Lemma recordClaim_spec t (r : row) :
  is_Some (cols r !! "evm_claim_txid") →
  triple t (since (row_id r) r) (transition (row_id r) EvmReceive.claiming EvmReceive.claimed [])
    (λ _ _, True) (λ _ _, True).
Proof.
  intros Htx. eapply hoare_conseq.
  - apply (move_keep (port sha256) t (since (row_id r) r) (λ _, True)); [apply _|apply _|done|by intros ? []|done| | |done].
    + apply rtc_once. left.
    + intros w r0 at_ Hi (r' & Hr' & _ & _ & _ & _ & Hc) Hr0 Hs (_ & Hp & Hpc & _). simplify_eq.
      hnf. cbn. split_and!; [apply (bool_decide_unpack _); vm_compute; exact I| | |by intros _; apply Hc|done].
      * intros v Hv. by destruct (Hp v Hv).
      * intros _. apply Hpc. rewrite Hs. left.
  - done.
  - done.
  - done.
Qed.

(** ** Refunding *)

(** The row's sats are on their way back, or past it. *)
Definition receive_refunding (i : string) (q : EvmReceiveQuote) (w : W) : Prop :=
  ∃ r : row, find_row (db w) i = Some r ∧ receive_post_refund (state r) = true ∧ quote r = q.
#[local] Instance receive_refunding_stable t i q : Stable t (receive_refunding i q).
Proof.
  intros w w' [[Hd _] _] _ (r & Hr & Ho & Hq). destruct (Hd _ _ Hr) as (r' & Hr' & _ & Hq' & _ & Hle & _).
  exists r'. split_and!; [done|by eapply receive_post_refund_le|congruence].
Qed.

Lemma since_refunding (w : W) (r r' : row) :
  since (row_id r) r w → find_row (db w) (row_id r) = Some r' →
  receive_post_refund (state r') = true → receive_refunding (row_id r) (quote r) w.
Proof. intros (r1 & Hr1 & _ & Hq & _) Hr' Ho. rewrite Hr1 in Hr'. injection Hr' as <-. by exists r1. Qed.

Lemma refundArkade_spec t (current : row) i q :
  row_id current = i → quote current = q →
  triple t (receive_refunding i q) (refundArkade current)
    (λ _, receive_refunding i q) (λ _, receive_refunding i q).
Proof.
  intros Hid Hq. unfold refundArkade. hbind; [by apply (asks_keep (port sha256) t (receive_refunding i q)); apply _|].
  intros [|o outputs]; [by apply hoare_throw; [apply _|]|].
  refine (hoare_act (port sha256) t (receive_refunding i q) (RefundArkade _ (o :: outputs)) _ eq_refl _).
  intros w _ (r & Hr & Ho & Hq'). rewrite Hid, Hq. exists r. rewrite Hq'. split_and!; done.
Qed.

Lemma refundStep_spec t (r : row) :
  state r = EvmReceive.awaiting_claim ∨ state r = EvmReceive.refunding_arkade →
  triple t (since (row_id r) r) (refundStep r) (λ moved _, moved = false) (λ _ _, True).
Proof.
  intros Hs. unfold refundStep. set (i := row_id r). set (K := receive_refunding i (quote r)).
  eapply (hoare_seq _ _ _ _ _ _ _ (λ _, K) _ _ (λ _, since i r)); try apply _; [|done|].
  { case_bool_decide as Hb.
    - destruct Hs as [Hs|Hs]; [|done]. rewrite Hs. eapply hoare_conseq.
      + apply (receive_move t (since i r)); [apply _|done|done|apply rtc_once; left|].
        apply (bool_decide_unpack _); vm_compute; exact I.
      + done.
      + intros ? w _ [Hsi (r' & Hr' & Hle)]. by eapply since_refunding, receive_post_refund_le.
      + done.
    - hret. intros w _ Hsi. pose proof Hsi as (r' & Hr' & _ & _ & _ & Hle & _).
      eapply since_refunding; [done|exact Hr'|]. eapply receive_post_refund_le; [exact Hle|].
      assert (state r = EvmReceive.refunding_arkade) as -> by (destruct (state r); try done; tauto). done. }
  intros ?. hseq.
  { apply (hoare_get (port sha256) t K i (λ c, quote c = quote r)); [apply _|].
    intros w c _ (r' & Hr' & _ & Hq) Hc. by simplify_eq. }
  { done. }
  intros current. apply (hoare_pre _ _ _ _ _ (λ w, K w ∧ (row_id current = i ∧ quote current = quote r))); [naive_solver|].
  apply hoare_pure. intros [Hid Hq]. hseq; [by apply refundArkade_spec|done|]. intros txid.
  hseq; [|done|intros ?; by apply (hoare_ret _ _ _ _ _ (λ _, True))].
  eapply hoare_conseq.
  - apply (move_keep (port sha256) t K (λ _, True)); [apply _|apply _|done|by intros ? []|done|apply rtc_once; left| |done].
    intros w r0 at_ Hi _ Hr0 Hst (_ & Hp & _). hnf. cbn.
    split_and!; [apply (bool_decide_unpack _); vm_compute; exact I| |intros [?|[?|[]]]%list_elem_of_In; done|done|].
    + intros v Hv. rewrite lookup_insert_ne in Hv by done. by destruct (Hp v Hv) as [Ho _]; rewrite Hst in Ho.
    + intros _. rewrite lookup_insert_eq. by eexists.
  - done.
  - done.
  - done.
Qed.

(** ** One tick *)

Lemma receive_plan_reveals (r : row) seen s :
  receive_row_ok r → (∀ s, ReceivePlan.seen_preimage seen = Some s → reveals (quote r) s) →
  ReceivePlan.plan_preimage (planRow r) seen = Some s → reveals (quote r) s.
Proof.
  intros Hr Hs. unfold ReceivePlan.plan_preimage. destruct (ReceivePlan.seen_preimage seen) eqn:Hp; cbn.
  - intros. simplify_eq. by apply Hs.
  - by apply receive_text_col_preimage.
Qed.

(** From a live state the handlers can always claim or give up. *)
Lemma live_edges (r : row) :
  receive_row_ok r → ReceivePlan.is_terminal (state r) = false →
  rtc receive_edge (state r) EvmReceive.stuck ∧
  rtc receive_edge (state r) EvmReceive.claiming.
Proof.
  intros (Hn & _) Ht. rewrite !not_elem_of_cons in Hn. destruct Hn as (H1 & H2 & _).
  destruct (state r); try done;
    (split; [apply rtc_once; apply (bool_decide_unpack _); vm_compute; exact I|]);
    first [reflexivity|apply rtc_once; apply (bool_decide_unpack _); vm_compute; exact I].
Qed.

(** How often a tick can still find the row further on. *)
Definition passes_left (s : EvmReceive.state) : nat :=
  match s with
  | EvmReceive.quoted | EvmReceive.awaiting_lock | EvmReceive.locked => 2
  | EvmReceive.funding_arkade => 1
  | _ => 0
  end.

Lemma passes_left_le s s' : rtc receive_edge s s' → (passes_left s' ≤ passes_left s)%nat.
Proof.
  induction 1 as [s|s1 s2 s3 He _ IH]; [done|]. etransitivity; [exact IH|].
  revert He. unfold receive_edge. rewrite list_elem_of_In.
  destruct s1; cbn; intros He; repeat destruct He as [<-|He]; cbn; lia || done.
Qed.

Lemma passes_left_out s : sats_out s = true → (passes_left s ≤ 1)%nat.
Proof. destruct s; cbn; (done || lia). Qed.

Lemma receive_step_spec t (r : row) :
  receive_row_ok r →
  triple t (since (row_id r) r) (step r)
    (λ moved w, moved = true →
       ∃ r', find_row (db w) (row_id r) = Some r' ∧ (passes_left (state r') < passes_left (state r))%nat)
    (λ _ _, True).
Proof.
  intros Hr. unfold step. set (K := since (row_id r) r).
  hseq; [by apply (receive_observe_spec t K); [apply _|]|done|]. intros seen. apply hoare_pure. intros Hseen.
  pose proof Hr as (Hn & _). rewrite !not_elem_of_cons in Hn. destruct Hn as (Hn1 & Hn2 & _).
  destruct (ReceivePlan.planEvmReceive (planRow r) seen) as [| | |s| | |reason|reason] eqn:Hplan.
  - hdone.
  - apply ReceivePlan.plan_fund_iff in Hplan as (_ & Hs). cbn in Hs.
    eapply hoare_conseq; [apply fundStep_spec; [done|destruct Hs as [Hs|[[Hs|Hs] _]]; by rewrite Hs..]|done| |done].
    intros moved w _ Hf Hm. destruct (Hf Hm) as (r' & Hr' & Ho & _). exists r'. split; [done|].
    apply passes_left_out in Ho. destruct Hs as [Hs|[[Hs|Hs] _]]; rewrite Hs; cbn; lia.
  - apply ReceivePlan.receive_plan_await_iff in Hplan as (_ & Hs & _). cbn in Hs.
    hseq; [apply (receive_move t K); [apply _|done|done|rewrite Hs; apply rtc_once; left|]|done|].
    { apply (bool_decide_unpack _); vm_compute; exact I. }
    intros ?. hret. intros w _ [_ (r' & Hr' & Hle)] _. exists r'. split; [done|].
    apply passes_left_le in Hle. cbn in Hle. rewrite Hs. cbn. lia.
  - apply ReceivePlan.receive_plan_claim_iff in Hplan as (Ht & Hp & _).
    eapply hoare_conseq;
      [apply claimStep_spec; [done|by apply live_edges|by eapply receive_plan_reveals]|done| |done].
    by intros moved w _ ->.
  - apply ReceivePlan.plan_record_claim_iff in Hplan as (_ & _ & Htx & _). cbn in Htx.
    hseq; [apply recordClaim_spec|done|intros ?; hdone]. unfold text_col in Htx.
    destruct (cols r !! "evm_claim_txid"); [by eexists|done].
  - apply ReceivePlan.receive_plan_refund_iff in Hplan as (_ & Hs). cbn in Hs.
    eapply hoare_conseq; [apply refundStep_spec; tauto|done| |done]. by intros moved w _ ->.
  - apply ReceivePlan.receive_plan_refuse in Hplan as (Hs & _). cbn in Hs.
    assert (state r = EvmReceive.quoted) as Hq by tauto.
    hseq; [apply (receive_move t K); [apply _|done|done|rewrite Hq; apply rtc_once; right; right; left|]|done|intros ?; hdone].
    apply (bool_decide_unpack _); vm_compute; exact I.
  - apply ReceivePlan.receive_plan_stick in Hplan. cbn in Hplan.
    hseq; [apply (receive_fail t K); [apply _|by apply live_edges]|done|intros ?; hdone].
Qed.

Lemma receive_tick_safe t fuel i : safe (port sha256) t (tick self fuel i).
Proof.
  apply (safe_guardedTick (port sha256)). intros r Hr. eapply hoare_conseq; [by apply receive_step_spec|done..].
Qed.

(** The loop of a tick ends within three passes. *)
Lemma receive_drive_ends t i n :
  (3 ≤ n)%nat → triple t (λ _, True) (drive n i step) (λ ended _, ended = true) (λ _ _, True).
Proof.
  intros Hn. apply (drive_ends (port sha256) t passes_left i step).
  - exact passes_left_le.
  - intros r. apply receive_step_spec.
  - intros s. destruct s; cbn; lia.
Qed.

Lemma receive_tickAll_safe t fuel : safe (port sha256) t (tickAll self fuel).
Proof.
  unfold tickAll. hseq; [by apply (live_rows_safe (port sha256))|done|]. intros l.
  apply (safe_sweep (port sha256)); [apply safe_unheld|]. intros i. apply receive_tick_safe.
Qed.

Lemma receive_quoted_safe t i (q : EvmReceiveQuote) : safe (port sha256) t (insert i q : io row).
Proof.
  apply (insert_safe (port sha256)). intros r Hs Hc. hnf. rewrite Hs, Hc, !lookup_empty.
  split_and!; [apply (bool_decide_unpack _); vm_compute; exact I|by intros v Hv
              |intros [?|[?|[]]]%list_elem_of_In; done|done|done].
Qed.
End receive_discipline.
