(* ===== verification/EvmReceiveSafety.v ===== *)
(** * The guarantees of the receive service

    As [EvmSendSafety] for the other direction: [receive_reachable] is every
    point of every run of any number of instances of the service. The theorems
    bound what leaves, say what the rows promise, and show that a run of the
    service is a run of the specification of [Refinement]. *)
From S2P Require Import Prelude StateMachine EvmPlan Prog SwapDb EvmRow Store EvmStore.
From S2P Require Import World EvmService EvmExample Discipline Rules EvmRules Refinement EvmReceiveService EvmReceiveProof.

#[local] Abbreviation row := EvmReceiveRow.
#[local] Abbreviation W := (World EvmReceive.state EvmReceiveQuote ReceiveEffect).
#[local] Abbreviation event := (evt EvmReceive.state EvmReceiveQuote ReceiveEffect ask).

Section reachable.
Context (sha256 : list Z → list Z) `{EvmHtlcBackend}.

(** What an instance may start. *)
Inductive receive_program : prog event unit → Prop :=
  | receive_tick self fuel i : receive_program (forget (tick self fuel i))
  | receive_sweep self fuel : receive_program (forget (tickAll self fuel))
  | receive_quote i q : receive_program (forget (insert i q : io event Error row))
  | receive_process self : receive_program (trigger (Restart self)).

#[local] Abbreviation runs := (rtc (cstep (handle (Entry EvmReceive.funding_arkade) (port sha256)) receive_program)).
Definition receive_reachable (c : W * list (nat * prog event unit)) : Prop := runs (empty_world, []) c.

#[local] Abbreviation Inv := (Inv (D := ReceiveDiscipline sha256)).
#[local] Abbreviation Rely := (Rely (D := ReceiveDiscipline sha256)).

Lemma receive_program_safe t p :
  receive_program p → ∀ w, Inv w →
  wp (handle (Entry EvmReceive.funding_arkade) (port sha256)) Inv Rely t p (λ _ _, True) w.
Proof.
  intros Hp w Hi. destruct Hp; [apply (forget_safe (D := ReceiveDiscipline sha256) (port sha256)); [|done]..
    |by apply (restart_safe (D := ReceiveDiscipline sha256) (port sha256))].
  - apply receive_tick_safe.
  - apply receive_tickAll_safe.
  - apply receive_quoted_safe.
Qed.

Lemma receive_sound c : receive_reachable c → sound (handle (Entry EvmReceive.funding_arkade) (port sha256)) Inv Rely c.
Proof. apply (instances_sound (D := ReceiveDiscipline sha256) (port sha256) _ receive_program_safe). Qed.

Lemma receive_reachable_inv c : receive_reachable c → Inv c.1.
Proof. intros Hc. by apply receive_sound in Hc as (_ & ? & _). Qed.

(** ** What leaves *)

(** The fundings of a swap among the requests. *)
Definition fundings (i : string) (l : list ReceiveEffect) : list ReceiveEffect :=
  filter (λ a, match a with FundArkade j _ _ => Some j | _ => None end = Some i) l.

(** C2: the solver's sats are paid at most once per swap: whatever instances,
    ticks and crashes there are, either no funding of a swap's Arkade lockup
    ever left, or exactly one did, to the address and for the amount the swap
    was quoted with, and the swap is past the state that grants it. *)
Theorem arkade_funded_at_most_once c i :
  receive_reachable c →
  fundings i (sent c.1) = [] ∨
  ∃ r, find_row (db c.1) i = Some r ∧ sats_out (state r) = true ∧
    fundings i (sent c.1) =
      [FundArkade i (lockupAddress (receive_common (quote r))) (payoutSats (receive_common (quote r)))].
Proof.
  intros Hc. pose proof (receive_reachable_inv c Hc) as (_ & _ & He & _ & Ho).
  destruct (Ho i) as [Hn|(_ & r & l & Hr & -> & Hp)]; [by left|].
  change (own_sent i c.1) with (fundings i (sent c.1)) in *.
  destruct (fundings i (sent c.1)) as [|a l] eqn:Hf; [by left|right]. exists r.
  apply prefix_cons_inv_1 in Hp as Ha. apply prefix_cons_inv_2 in Hp. apply prefix_nil_inv in Hp as ->. subst a.
  split_and!; [done| |done].
  assert (FundArkade i (lockupAddress (receive_common (quote r))) (payoutSats (receive_common (quote r)))
            ∈ sent c.1) as Hin.
  { eapply (list_elem_of_filter (λ a, match a with FundArkade j _ _ => Some j | _ => None end = Some i)).
    fold (fundings i (sent c.1)). rewrite Hf. left. }
  destruct (He _ Hin) as (r' & Hr' & Hs). by simplify_eq.
Qed.

(** The swap a request is for. *)
Definition concerns (a : ReceiveEffect) : string :=
  match a with FundArkade i _ _ | ClaimCall i _ => i | RefundArkade c _ => cov_id c end.

Lemma concerned_out (d : EvmReceiveDb) a :
  receive_effect_ok sha256 d a → ∃ r, find_row d (concerns a) = Some r ∧ sats_out (state r) = true.
Proof.
  destruct a; cbn; [done| |]; intros; destruct_and?;
    repeat match goal with H : ∃ _, _ |- _ => destruct H end; destruct_and?;
    eexists; (split; [done|]); by destruct (state _).
Qed.

(** C4: the ERC20 is only claimed with a preimage of the swap's payment hash:
    every claim sent is the call that claims the lock of its row with bytes
    whose hash is the row's payment hash, and by then a preimage is on disk and
    the row is claiming, claimed or stuck. A swap still quoted, or refused, has
    had no request of any kind. *)
Theorem erc20_claims_are_backed c :
  receive_reachable c →
  (∀ i call, ClaimCall i call ∈ sent c.1 →
     ∃ r p lock, find_row (db c.1) i = Some r ∧ is_Some (cols r !! "preimage") ∧
       state r ∈ [EvmReceive.claiming; EvmReceive.claimed; EvmReceive.stuck] ∧
       Forall is_byte p ∧ hex_encode (sha256 p) = paymentHash (receive_common (quote r)) ∧
       receiveLockFromRow (receive_common (quote r)) = Ok lock ∧ call = claimCall p lock) ∧
  (∀ r a, r ∈ rows (db c.1) → state r ∈ [EvmReceive.quoted; EvmReceive.refused] →
     a ∈ sent c.1 → concerns a ≠ row_id r).
Proof.
  intros Hc. pose proof (receive_reachable_inv c Hc) as ([Hnd _] & _ & He & _). split.
  - intros i call Hin. destruct (He _ Hin) as (r & p & lock & Hr & Hs & Hp & Hb & Hh & Hl & Hcall).
    exists r, p, lock.
    split_and!; try done. apply list_elem_of_In. destruct (state r); cbn in Hs |- *; try done; tauto.
  - intros r a Hr Hs Ha Hi. destruct (concerned_out _ _ (He _ Ha)) as (r' & Hr' & Ho).
    rewrite Hi, (find_row_In _ _ Hnd Hr) in Hr'. simplify_eq.
    apply list_elem_of_In in Hs. by destruct Hs as [Hs|[Hs|[]]]; rewrite <- Hs in Ho.
Qed.

(** A tick ends: started at any moment of any run, whatever the other
    instances do meanwhile and however the reads come back, the loop of a tick
    — read the row, step, again as long as the step reports progress — is over
    within three passes, because progress is only reported when the row moved
    on. *)
Theorem receive_tick_ends c t i n :
  receive_reachable c → (3 ≤ n)%nat →
  wp (handle (Entry EvmReceive.funding_arkade) (port sha256)) Inv Rely t (drive n i step) (λ r _, r ≠ Ok false) c.1.
Proof.
  intros Hc Hn. eapply wp_mono; [|by apply (receive_drive_ends sha256 t i n Hn); [apply receive_reachable_inv|]].
  intros [ended|e] w _; cbn; [by intros ->|done].
Qed.

(** What the states of a receive row promise is in the row: a claiming or
    claimed row has its preimage, a claimed one the transaction that claimed
    the ERC20, a refunded one the transaction that brought the sats back, and a
    preimage only ever stands on a row that is being claimed. No row is ever in
    [awaiting_lock] or [locked], and no two swaps that are not refused share a
    payment hash. *)
Theorem receive_rows_keep_their_promises c :
  receive_reachable c →
  (∀ i r, find_row (db c.1) i = Some r →
     (state r ∈ [EvmReceive.claiming; EvmReceive.claimed] → is_Some (cols r !! "preimage")) ∧
     (state r = EvmReceive.claimed → is_Some (cols r !! "evm_claim_txid")) ∧
     (state r = EvmReceive.refunded → is_Some (cols r !! "refund_ark_txid")) ∧
     (∀ v, cols r !! "preimage" = Some v →
        state r ∈ [EvmReceive.claiming; EvmReceive.claimed; EvmReceive.stuck] ∧
        ∃ p, v = VText (hex_encode p) ∧ hex_encode (sha256 p) = paymentHash (receive_common (quote r))) ∧
     (state r ∉ [EvmReceive.awaiting_lock; EvmReceive.locked])) ∧
  (∀ r1 r2, r1 ∈ rows (db c.1) → r2 ∈ rows (db c.1) →
     state r1 ≠ EvmReceive.refused → state r2 ≠ EvmReceive.refused →
     paymentHash (receive_common (quote r1)) = paymentHash (receive_common (quote r2)) → r1 = r2).
Proof.
  intros Hc. destruct (receive_reachable_inv c Hc) as (Hwf & Hok & _). split.
  - intros i r Hr. destruct (Hok i r Hr) as (Hn & Hp & Hcl & Hd & Hf). split_and!; [done|done|done| |done].
    intros v Hv. destruct (Hp v Hv) as (Ho & s & -> & p & _ & -> & Hh). split; [|by exists p].
    apply list_elem_of_In. destruct (state r); cbn in Ho |- *; try done; tauto.
  - intros r1 r2 H1 H2 S1 S2 Hh. by eapply (live_hash_unique state_refused).
Qed.

(** ** The specification the service refines *)

(** What the specification lets leave: a swap is funded once, in a phase that
    has granted it; claimed or refunded only past the entry into that phase. *)
Definition receive_licensed (m : gmap string EvmReceive.state) (l : list ReceiveEffect) (a : ReceiveEffect)
    : Prop :=
  match a with
  | FundArkade i _ _ => fundings i l = [] ∧ ∃ s, m !! i = Some s ∧ sats_out s = true
  | ClaimCall i _ => ∃ s, m !! i = Some s ∧ receive_post_claim s = true
  | RefundArkade c _ => ∃ s, m !! cov_id c = Some s ∧ receive_post_refund s = true
  end.
Definition receive_spec := spec_step EvmReceive.quoted receive_edge receive_licensed.

Lemma receive_act_licensed (w : W) a :
  Inv (with_sent w a) → receive_licensed (phases (db w)) (sent w) a.
Proof.
  intros (_ & _ & He & _ & Ho). specialize (He a). cbn [db sent with_sent] in *.
  assert (receive_effect_ok sha256 (db w) a) as Ha by (apply He, elem_of_app; right; left).
  destruct a as [i addr sats|i call|cov os]; cbn in Ha |- *; rewrite phases_lookup.
  - destruct Ha as (r & Hr & Hs). split; [|exists (state r); by rewrite Hr].
    destruct (Ho i) as [Hn|(_ & r' & l & _ & -> & Hp)]; unfold own_sent in *; cbn [db sent with_sent] in *.
    + by rewrite filter_app, filter_cons_True, app_nil in Hn by done; destruct Hn.
    + rewrite filter_app, filter_cons_True in Hp by done. cbn in Hp.
      change (filter _ (sent w)) with (fundings i (sent w)) in Hp.
      destruct (fundings i (sent w)) as [|b l] eqn:Hf; [done|]. exfalso.
      apply prefix_length in Hp. rewrite length_app in Hp. cbn in Hp. lia.
  - destruct Ha as (r & p & lock & Hr & Hs & _). exists (state r). by rewrite Hr.
  - destruct Ha as (r & Hr & Hs & _). exists (state r). by rewrite Hr.
Qed.

Lemma receive_row_reached (r : row) : receive_row_ok sha256 r → rtc receive_edge EvmReceive.quoted (state r).
Proof.
  intros (Hn & _). rewrite !not_elem_of_cons in Hn. destruct Hn as (H1 & H2 & _).
  assert (∀ l s, forallb (λ p, bool_decide (receive_edge p.1 p.2)) (zip (EvmReceive.quoted :: l) l) = true →
            last (EvmReceive.quoted :: l) = Some s → rtc receive_edge EvmReceive.quoted s) as Hpath.
  { intros l. generalize EvmReceive.quoted. induction l as [|s1 l IH]; intros s s' Hl Hlast.
    - cbn in Hlast. simplify_eq. apply rtc_refl.
    - cbn in Hl. apply andb_true_iff in Hl as [He%bool_decide_eq_true Hl].
      eapply rtc_l; [exact He|]. by apply IH. }
  destruct (state r); try done;
    [apply (Hpath [EvmReceive.funding_arkade])
    |apply (Hpath [EvmReceive.funding_arkade; EvmReceive.awaiting_claim])|apply (Hpath [EvmReceive.claiming])
    |apply (Hpath [EvmReceive.claiming; EvmReceive.claimed])
    |apply (Hpath [EvmReceive.funding_arkade; EvmReceive.awaiting_claim; EvmReceive.refunding_arkade])
    |apply (Hpath [EvmReceive.funding_arkade; EvmReceive.awaiting_claim; EvmReceive.refunding_arkade;
                   EvmReceive.refunded])
    |apply (Hpath [EvmReceive.refused])|apply (Hpath [EvmReceive.stuck])]; reflexivity.
Qed.

(** C16: the service refines its lifecycle: seen as the phases of its swaps and
    the ledger of its requests, every run of its instances — interleaved event
    by event, crashes and restarts included — is a run of the specification, in
    which swaps are quoted, move along the edges of the lifecycle and make only
    licensed requests. In particular nothing leaves claimed, refunded, refused
    or stuck. *)
Theorem receive_refines_lifecycle c c' :
  receive_reachable c → runs c c' →
  rtc receive_spec (spec_of c.1) (spec_of c'.1) ∧
  ∀ i s, (spec_of c.1).1 !! i = Some s → s ∉ EvmReceive.EVM_RECEIVE_NON_TERMINAL →
    (spec_of c'.1).1 !! i = Some s.
Proof.
  intros Hc Hr.
  pose proof (simulation (D := ReceiveDiscipline sha256) (port sha256) receive_program receive_edge receive_licensed
    (λ s s' H, H) receive_row_reached receive_act_licensed receive_program_safe c c' (receive_sound c Hc) Hr) as Hsim.
  split; [exact Hsim|]. intros i s Hi Ht.
  pose proof (instances_ordered (D := ReceiveDiscipline sha256) (port sha256) _ receive_program_safe c c' Hc Hr) as [Hd _].
  unfold spec_of in *. cbn [fst] in *. rewrite phases_lookup in *. apply fmap_Some in Hi as (r & Hf & ->).
  destruct (Hd _ _ Hf) as (r' & -> & _ & _ & _ & Hle & _). cbn. f_equal. by apply receive_terminal_le.
Qed.
End reachable.

(** ** A run *)

Section run.
#[local] Existing Instance example_backend.
Definition receive_swap_of (i : string) : EvmReceiveQuote := mkReceiveQuote (swap_of i) "02ab".

(** The chains: the client of "swap-1" locked the ERC20, the other did not; the
    client reveals its preimage or not. *)
Definition receive_oracle (reveals : bool) (height : Z) (w : W) X (q : ask X) : option X :=
  match q in ask X return option X with
  | ArkadeLockupFunded i _ =>
      Some (existsb (λ a, match a with FundArkade j _ _ => bool_decide (i = j) | _ => false end) (sent w))
  | IsLocked lock => Some (bool_decide (lock_preimageHash lock = replicate 32 171))
  | BlockHeight => Some height
  | TimelockHeight => Some height
  | TransactionOutcome _ => Some success
  | FindRefund _ _ => Some false
  | TransactionBlock _ => Some None
  | FindClaimPreimage _ _ _ _ _ => Some None
  | IsLockedAt _ _ => Some true
  | BlockTimestampAt _ => Some 1600000000
  | Allowance _ => Some 0
  | Approval _ _ => Some true
  | FindLockups _ => Some ["outpoint"]
  | LockupProvablySpent _ => Some false
  | ArkadePreimage _ q =>
      if reveals && bool_decide (paymentHash q = hex_encode (replicate 32 171)) then Some (Some "010203")
      else Some None
  | FindSweptLockups _ => Some []
  end.

(** One program run alone, from [w] to the world it leaves. *)
Definition receive_session (reveals : bool) (height time : Z) (p : prog event unit) (w : W) : W :=
  match play (served (Entry EvmReceive.funding_arkade) time (receive_oracle reveals height) (λ _, "0xtx") 0) p w with
  | Some (_, w') => w'
  | None => w
  end.

Lemma receive_session_reachable reveals height time p w :
  (0 ≤ time)%Z → receive_program p → receive_reachable example_sha256 (w, []) →
  receive_reachable example_sha256 (receive_session reveals height time p w, []).
Proof.
  intros Htime Hp Hw. unfold receive_session. case_match eqn:Hplay; [|done]. case_match; subst.
  unfold receive_reachable in *. etransitivity; [exact Hw|].
  eapply (play_session _ _ 0); [|exact Hp|exact Hplay].
  intros X e w2 x w3. apply served_handle; [done| |done]. clear. intros w X q x Hx.
  destruct q; cbn in Hx |- *; try done; [intros p Hp; by simplify_eq|].
  case_match eqn:Hc; simplify_eq; [|done]. apply andb_true_iff in Hc as [_ Hl%bool_decide_eq_true].
  intros s [= <-]. exists [1; 2; 3]. rewrite Hl. split_and!; [|reflexivity..]. repeat constructor; done.
Qed.

Lemma receive_empty_reachable : receive_reachable example_sha256 (empty_world, []).
Proof. apply rtc_refl. Qed.

(** Two swaps quoted; the first funded and awaiting the client's claim, the
    second refused when its quote expired. *)
Definition funded_world : W :=
  receive_session false 20000000 1700000070 (forget (tickAll 0 3))
    (receive_session false 20000000 1700000010 (forget (tickAll 0 3))
      (receive_session false 20000000 1700000001
        (forget (insert "swap-2" (receive_swap_of "swap-2") : io event Error row))
        (receive_session false 20000000 1700000000
          (forget (insert "swap-1" (receive_swap_of "swap-1") : io event Error row)) empty_world))).
Definition collected_world : W :=
  receive_session true 20000200 1700002000 (forget (tickAll 0 3))
    (receive_session true 20000100 1700001000 (forget (tickAll 0 3)) funded_world).
(** The client does not claim: the sats come back at the timeout. *)
Definition returned_world : W :=
  receive_session false 20900000 1700090001 (forget (tickAll 0 3)) funded_world.

Lemma funded_world_sent :
  sent funded_world = [FundArkade "swap-1" "ark1q" 99500] ∧
  (state <$> rows (db funded_world)) = [EvmReceive.awaiting_claim; EvmReceive.refused].
Proof. vm_compute. split; reflexivity. Qed.
Lemma collected_world_sent :
  sent collected_world = sent funded_world ++ [ClaimCall "swap-1" "claim"] ∧
  (state <$> rows (db collected_world)) = [EvmReceive.claimed; EvmReceive.refused].
Proof. vm_compute. split; reflexivity. Qed.
Lemma returned_world_sent :
  sent returned_world = sent funded_world ++
    [RefundArkade (evmReceiveCovenantRowFor "swap-1" (swap_of "swap-1") "02ab") ["outpoint"]] ∧
  (state <$> rows (db returned_world)) = [EvmReceive.refunded; EvmReceive.refused].
Proof. vm_compute. split; reflexivity. Qed.

Lemma funded_world_reachable : receive_reachable example_sha256 (funded_world, []).
Proof. repeat (apply receive_session_reachable; [done|constructor|]). apply rtc_refl. Qed.
Lemma collected_world_reachable : receive_reachable example_sha256 (collected_world, []).
Proof. do 2 (apply receive_session_reachable; [done|constructor|]). apply funded_world_reachable. Qed.

#[local] Opaque funded_world collected_world returned_world.

Lemma arkade_funded_at_most_once_witness :
  fundings "swap-1" (sent collected_world) = [] ∨
  ∃ r, find_row (db collected_world) "swap-1" = Some r ∧ sats_out (state r) = true ∧
    fundings "swap-1" (sent collected_world) =
      [FundArkade "swap-1" (lockupAddress (receive_common (quote r))) (payoutSats (receive_common (quote r)))].
Proof. exact (arkade_funded_at_most_once _ (collected_world, []) "swap-1" collected_world_reachable). Defined.

Lemma erc20_claims_are_backed_witness :
  ∃ r p lock, find_row (db collected_world) "swap-1" = Some r ∧ is_Some (cols r !! "preimage") ∧
    state r ∈ [EvmReceive.claiming; EvmReceive.claimed; EvmReceive.stuck] ∧
    Forall is_byte p ∧ hex_encode (example_sha256 p) = paymentHash (receive_common (quote r)) ∧
    receiveLockFromRow (receive_common (quote r)) = Ok lock ∧ "claim" = claimCall p lock.
Proof.
  apply (proj1 (erc20_claims_are_backed _ (collected_world, []) collected_world_reachable)). cbn [fst].
  rewrite (proj1 collected_world_sent), (proj1 funded_world_sent). right. left.
Defined.

Lemma receive_rows_keep_their_promises_witness :
  ∃ r, r ∈ rows (db collected_world) ∧ state r = EvmReceive.claimed ∧ is_Some (cols r !! "evm_claim_txid").
Proof.
  pose proof (proj2 collected_world_sent) as Hs.
  destruct (rows (db collected_world)) as [|r l] eqn:Hl; [discriminate|]. injection Hs as Hs _.
  exists r. split; [left|]. split; [exact Hs|].
  pose proof (receive_rows_keep_their_promises _ (collected_world, []) collected_world_reachable) as [Hrow _].
  pose proof (receive_reachable_inv _ (collected_world, []) collected_world_reachable) as ([Hnd _] & _).
  cbn [fst] in *. refine (proj1 (proj2 (Hrow (row_id r) r _)) Hs).
  apply find_row_In; [exact Hnd|]. rewrite Hl. left.
Defined.

Lemma receive_tick_ends_witness :
  wp (handle (Entry EvmReceive.funding_arkade) (port example_sha256)) (Discipline.Inv (D := ReceiveDiscipline example_sha256))
    (Discipline.Rely (D := ReceiveDiscipline example_sha256)) 7 (drive 3 "swap-1" step) (λ r _, r ≠ Ok false) funded_world.
Proof.
  apply (receive_tick_ends example_sha256 (funded_world, []) 7 "swap-1" 3 funded_world_reachable). lia.
Defined.

Lemma receive_refines_lifecycle_witness :
  rtc (receive_spec) (spec_of (S := EvmReceive.state) (Q := EvmReceiveQuote) (Eff := ReceiveEffect) empty_world)
    (spec_of collected_world).
Proof.
  apply (receive_refines_lifecycle example_sha256 (empty_world, []) (collected_world, [])).
  - apply receive_empty_reachable.
  - apply collected_world_reachable.
Defined.
End run.
