(* ===== verification/Admission.v ===== *)
(** * Admission control

    [packages/solver-core/src/core/admission.ts]: the two counters a process
    keeps against the exposure cap and the wallet, the holds on its inventory,
    and the reservations handed out over them. The synchronous stretches
    between two awaits are atomic ([Local]); what is awaited is an event. *)
From S2P Require Import Prelude Prog.
#[local] Open Scope Z_scope.

(** [Number.isSafeInteger] *)
Definition isSafeInteger (n : Z) : bool := (Z.abs n <=? 2 ^ 53 - 1).

Inductive AdmissionError :=
  | NeedsPositiveSize (n : Z)
  | InvalidInventoryReservation
  | InventoryExceedsSafeInteger
  | InvalidInventoryBalance
  | InvalidInventoryRequirement
  | ReadFailed.
#[export] Instance AdmissionError_eq_dec : EqDecision AdmissionError.
Proof. solve_decision. Defined.

(** The closures a reservation runs when it is released; [undoHeld] is
    [() => held.release()] of the inventory reservation [hold]. *)
Inductive undo :=
  | undoExposure (sats : Z)
  | undoFloat (required : Z)
  | undoInventory (poolId : string) (requiredSats : Z)
  | undoHeld (hold : nat) (poolId : string) (requiredSats : Z).

Record Reservation := mkReservation { reservation_id : nat; undos : list undo }.

(** The fields of the class, and the [released] flags of the reservations it
    made ([next_id] of them so far). *)
Record AdmissionControl := mkAdmission {
  reserved : Z;
  reservedFloat : Z;
  inventory : gmap string Z;
  inventoryGeneration : Z;
  released : gset nat;
  next_id : nat;
}.
Definition new_admission : AdmissionControl := mkAdmission 0 0 ∅ 0 ∅ 0.

Definition with_reserved (a : AdmissionControl) (n : Z) : AdmissionControl :=
  mkAdmission n (reservedFloat a) (inventory a) (inventoryGeneration a) (released a) (next_id a).
Definition with_float (a : AdmissionControl) (n : Z) : AdmissionControl :=
  mkAdmission (reserved a) n (inventory a) (inventoryGeneration a) (released a) (next_id a).
Definition with_inventory (a : AdmissionControl) (m : gmap string Z) (g : Z) : AdmissionControl :=
  mkAdmission (reserved a) (reservedFloat a) m g (released a) (next_id a).
Definition with_released (a : AdmissionControl) (i : nat) : AdmissionControl :=
  mkAdmission (reserved a) (reservedFloat a) (inventory a) (inventoryGeneration a) ({[i]} ∪ released a) (next_id a).

(** ** The synchronous operations *)

Definition releasing (us : list undo) (a : AdmissionControl) : Reservation * AdmissionControl :=
  (mkReservation (next_id a) us,
   mkAdmission (reserved a) (reservedFloat a) (inventory a) (inventoryGeneration a) (released a) (S (next_id a))).

Definition outstandingInventorySats (a : AdmissionControl) (poolId : string) : Z :=
  default 0 (inventory a !! poolId).

Definition giveInventory (poolId : string) (requiredSats : Z) (a : AdmissionControl) : AdmissionControl :=
  with_inventory a (<[poolId := outstandingInventorySats a poolId - requiredSats]> (inventory a))
    (inventoryGeneration a + 1).

Definition run_undo (u : undo) (a : AdmissionControl) : AdmissionControl :=
  match u with
  | undoExposure sats => with_reserved a (reserved a - sats)
  | undoFloat required => with_float a (reservedFloat a - required)
  | undoInventory poolId requiredSats => giveInventory poolId requiredSats a
  | undoHeld hold poolId requiredSats =>
      if bool_decide (hold ∈ released a) then a
      else giveInventory poolId requiredSats (with_released a hold)
  end.
Definition run_undos (us : list undo) (a : AdmissionControl) : AdmissionControl :=
  foldl (λ a u, run_undo u a) a us.

Definition release (r : Reservation) (a : AdmissionControl) : AdmissionControl :=
  if bool_decide (reservation_id r ∈ released a) then a
  else run_undos (undos r) (with_released a (reservation_id r)).

Definition claimExposure (sats capSats committed : Z) (a : AdmissionControl)
    : option undo * AdmissionControl :=
  if committed + reserved a + sats >? capSats then (None, a)
  else (Some (undoExposure sats), with_reserved a (reserved a + sats)).

Definition claimFloat (required availableSats owed : Z) (a : AdmissionControl)
    : option undo * AdmissionControl :=
  if owed + reservedFloat a + required >? availableSats then (None, a)
  else (Some (undoFloat required), with_float a (reservedFloat a + required)).

Definition restoreInventory (poolId : string) (requiredSats : Z) (a : AdmissionControl)
    : result AdmissionError Reservation * AdmissionControl :=
  if bool_decide (poolId = "") || negb (isSafeInteger requiredSats) || (requiredSats <=? 0)
  then (Err InvalidInventoryReservation, a)
  else
    let next := outstandingInventorySats a poolId + requiredSats in
    if negb (isSafeInteger next) then (Err InventoryExceedsSafeInteger, a)
    else
      let '(held, a) := releasing [undoInventory poolId requiredSats]
            (with_inventory a (<[poolId := next]> (inventory a)) (inventoryGeneration a)) in
      (Ok held, a).

(** ** The awaiting operations *)

Inductive Ceiling := exposure | float.

Record FloatRequirement := mkFloat { requiredSats : Z; available : option Z }.
Record AdmissionRequest := mkRequest {
  giveSats : Z;
  capSats : Z;
  float_required : option FloatRequirement;
  inventory_required : option (string * FloatRequirement);
}.

(** [Owed None] is the request's [float.owedSats()], [Owed (Some pool)] the
    [owedSats()] of its inventory. [Work] is whatever a quote awaits between
    its reservation and its row, [Land] the insert of the row, [Settle] a row
    leaving the committed states. *)
Inductive adm_evt : Type → Type :=
  | Enter : adm_evt unit
  | Leave : adm_evt unit
  | Local {X} (f : AdmissionControl → X * AdmissionControl) : adm_evt X
  | CommittedSats : adm_evt (result AdmissionError Z)
  | Owed (pool : option string) : adm_evt (result AdmissionError Z)
  | InventoryFor : adm_evt (result AdmissionError (option (string * FloatRequirement)))
  | OnRefused (c : Ceiling) : adm_evt unit
  | Work : adm_evt (result AdmissionError bool)
  | Land (sats : Z) : adm_evt (result AdmissionError unit)
  | Settle (sats : Z) : adm_evt unit.

#[local] Open Scope io_scope.
#[local] Abbreviation io := (io adm_evt AdmissionError).

Definition local {X} (f : AdmissionControl → X * AdmissionControl) : io X := call (Local f).
(** A local step that may throw. *)
Definition locally {X} (f : AdmissionControl → result AdmissionError X * AdmissionControl) : io X :=
  attempt (Local f).

(** [createSerialiser]: one job at a time, a job that throws leaving the queue
    as one that returns. *)
Definition serialise {A} (job : io A) : io A :=
  call Enter ;;; finally job (trigger Leave).

Definition reserve (sats cap : Z) : io (option Reservation) :=
  serialise (
    if negb (0 <? sats) then throw (NeedsPositiveSize sats)
    else
      committed <- attempt CommittedSats ;;
      claimed <- local (claimExposure sats cap committed) ;;
      match claimed with
      | None => ret None
      | Some u => r <- local (releasing [u]) ;; ret (Some r)
      end).

Definition reserveInventory (poolId : string) (required availableSats : Z) : io (option Reservation) :=
  serialise (
    obligations <- attempt (Owed (Some poolId)) ;;
    if negb (isSafeInteger availableSats) || (availableSats <? 0) ||
       negb (isSafeInteger obligations) || (obligations <? 0)
    then throw InvalidInventoryBalance
    else
      locally (λ a,
        if obligations + outstandingInventorySats a poolId + required >? availableSats then (Ok None, a)
        else match restoreInventory poolId required a with
             | (Ok held, a) => (Ok (Some held), a)
             | (Err e, a) => (Err e, a)
             end)).

(** [try job catch (error) { undo.forEach(release => release()); throw error }] *)
Definition guarded {A} (us : list undo) (job : io A) : io A :=
  try_catch job (λ e, local (λ a, (tt, run_undos us a)) ;;; throw e).
Definition refuse {A} (us : list undo) (c : Ceiling) : io (option A) :=
  local (λ a, (tt, run_undos us a)) ;;; call (OnRefused c) ;;; ret None.

(** The inventory's share of [admitRequest], [us] what is claimed so far: what is
    claimed after it, or a refusal. *)
Definition admitInventory (generation : Z) (guardedInventory : option (string * FloatRequirement))
    (u : undo) : io (option (list undo)) :=
  match guardedInventory with
  | None => ret (Some [u])
  | Some (poolId, required) =>
      owed <- attempt (Owed (Some poolId)) ;;
      if negb (isSafeInteger owed) || (owed <? 0) || negb (isSafeInteger (requiredSats required)) ||
         (requiredSats required <=? 0) ||
         match available required with
         | Some sats => negb (isSafeInteger sats) || (sats <? 0)
         | None => false
         end
      then throw InvalidInventoryRequirement
      else
        held <- locally (λ a,
          if negb (generation =? inventoryGeneration a) ||
             match available required with
             | None => true
             | Some sats => (owed + outstandingInventorySats a poolId + requiredSats required >? sats)
             end
          then (Ok None, a)
          else match restoreInventory poolId (requiredSats required) a with
               | (Ok held, a) => (Ok (Some held), a)
               | (Err e, a) => (Err e, a)
               end) ;;
        match held with
        | None => refuse [u] float
        | Some held => ret (Some [u; undoHeld (reservation_id held) poolId (requiredSats required)])
        end
  end.

(** The wallet's share. *)
Definition admitFloat (req : AdmissionRequest) (us : list undo) : io (option Reservation) :=
  match float_required req with
  | None => r <- local (releasing us) ;; ret (Some r)
  | Some required =>
      match available required with
      | None => refuse us float
      | Some sats =>
          owed <- attempt (Owed None) ;;
          claimed <- local (claimFloat (requiredSats required) sats owed) ;;
          match claimed with
          | None => refuse us float
          | Some u => r <- local (releasing (us ++ [u])) ;; ret (Some r)
          end
      end
  end.

(** [admit] of the source. *)
Definition admitRequest (req : AdmissionRequest) : io (option Reservation) :=
  if negb (0 <? giveSats req) then throw (NeedsPositiveSize (giveSats req))
  else
    generation <- local (λ a, (inventoryGeneration a, a)) ;;
    guardedInventory <- match inventory_required req with
                        | Some i => ret (Some i)
                        | None => attempt InventoryFor
                        end ;;
    serialise (
      committed <- attempt CommittedSats ;;
      claimed <- local (claimExposure (giveSats req) (capSats req) committed) ;;
      match claimed with
      | None => call (OnRefused exposure) ;;; ret None
      | Some u =>
          us <- guarded [u] (admitInventory generation guardedInventory u) ;;
          match us with
          | None => ret None
          | Some us => guarded us (admitFloat req us)
          end
      end).

(** A corridor's [quote()] around its reservation: [try { ...; insert } finally
    { reservation.release() }], [true] when the row landed. *)
Definition quoteUnder (sats : Z) (reservation : io (option Reservation)) : io bool :=
  r <- reservation ;;
  match r with
  | None => ret false
  | Some r =>
      finally (go <- attempt Work ;; if go : bool then attempt (Land sats) ;;; ret true else ret false)
        (trigger (Local (λ a, (tt, release r a))))
  end.

(** ** What a reservation holds *)

Inductive counter := ExposureSats | FloatSats | PoolSats (poolId : string).

Definition value (a : AdmissionControl) (c : counter) : Z :=
  match c with
  | ExposureSats => reserved a
  | FloatSats => reservedFloat a
  | PoolSats p => outstandingInventorySats a p
  end.

Definition held_by (u : undo) (c : counter) : Z :=
  match u, c with
  | undoExposure n, ExposureSats | undoFloat n, FloatSats => n
  | undoInventory p n, PoolSats q | undoHeld _ p n, PoolSats q => if decide (p = q) then n else 0
  | _, _ => 0
  end.
Definition held_by_all (us : list undo) (c : counter) : Z := foldr (λ u n, held_by u c + n) 0 us.
Definition flags (us : list undo) : list nat :=
  omap (λ u, match u with undoHeld i _ _ => Some i | _ => None end) us.

Lemma value_giveInventory p n a c :
  value (giveInventory p n a) c = value a c - held_by (undoInventory p n) c.
Proof.
  destruct c as [| |q]; cbn; try lia. unfold outstandingInventorySats. cbn.
  destruct (decide (p = q)) as [->|Hp]; [by rewrite lookup_insert_eq|]. rewrite lookup_insert_ne by done. lia.
Qed.

(** An undo whose flag is down gives back exactly what was held. *)
Lemma value_run_undo u a c :
  (∀ i, i ∈ flags [u] → i ∉ released a) → value (run_undo u a) c = value a c - held_by u c.
Proof.
  intros Hf. destruct u as [n|n|p n|i p n]; cbn [run_undo]; [destruct c; unfold value, outstandingInventorySats; cbn; lia..|apply value_giveInventory|].
  rewrite bool_decide_false by (apply Hf; left).
  rewrite value_giveInventory. by destruct c.
Qed.

Lemma released_run_undo u a i : i ∈ released (run_undo u a) → i ∈ released a ∨ i ∈ flags [u].
Proof.
  destruct u as [n|n|p n|j p n]; cbn; try tauto. case_bool_decide; [tauto|].
  cbn. rewrite elem_of_union, elem_of_singleton, elem_of_cons. tauto.
Qed.

Lemma value_run_undos us a c :
  NoDup (flags us) → (∀ i, i ∈ flags us → i ∉ released a) →
  value (run_undos us a) c = value a c - held_by_all us c.
Proof.
  revert a. induction us as [|u us IH]; intros a Hnd Hf; [cbn; lia|].
  assert (flags (u :: us) = flags [u] ++ flags us) as Hsplit by by destruct u.
  rewrite Hsplit in *. apply NoDup_app in Hnd as (_ & Hd & Hnd).
  change (run_undos (u :: us) a) with (run_undos us (run_undo u a)).
  change (held_by_all (u :: us) c) with (held_by u c + held_by_all us c).
  rewrite IH; [|done|].
  - rewrite value_run_undo; [lia|]. intros i Hi. apply Hf, elem_of_app. by left.
  - intros i Hi [Hr|Hu]%released_run_undo; [|by eapply Hd].
    eapply Hf; [|exact Hr]. apply elem_of_app. by right.
Qed.

Lemma release_twice r a : release r (release r a) = release r a.
Proof.
  unfold release at 1. rewrite bool_decide_true; [done|]. unfold release.
  case_bool_decide as Hr; [done|]. unfold run_undos.
  assert (∀ us b, released b ⊆ released (foldl (λ a u, run_undo u a) b us)) as Hmono.
  { induction us as [|u us IH]; intros b; [done|]. cbn. etransitivity; [|apply IH].
    destruct u; cbn; try done. case_bool_decide; [done|]. cbn. set_solver. }
  apply Hmono. cbn. set_solver.
Qed.

(** ** A process that answers *)

(** Reads answer what [o] says; the counters are only touched locally. *)
Definition answered (o : ∀ X, adm_evt X → option X) X (e : adm_evt X) (a : AdmissionControl)
    : option (X * AdmissionControl) :=
  match e in adm_evt X return option (X * AdmissionControl) with
  | Local f => Some (f a)
  | e => match o _ e with Some x => Some (x, a) | None => None end
  end.

(** What the call claimed is what its reservation holds. *)
Definition holds (a a' : AdmissionControl) (us : list undo) : Prop :=
  (∀ c, value a' c = value a c + held_by_all us c) ∧
  (∀ i, i ∈ flags us → (next_id a ≤ i < next_id a')%nat) ∧ NoDup (flags us) ∧
  (next_id a ≤ next_id a')%nat ∧ released a' = released a.

Definition unchanged (a a' : AdmissionControl) : Prop := ∀ c, value a' c = value a c.
#[export] Instance unchanged_equivalence : Equivalence unchanged.
Proof.
  split; [by intros a c|by intros a b H c|intros a b d H1 H2 c; by rewrite H2, H1].
Qed.

Definition adm_wf (a : AdmissionControl) : Prop := ∀ i, i ∈ released a → (i < next_id a)%nat.

(** Undoing it all restores every counter. *)
Lemma holds_undone a a' us :
  adm_wf a → holds a a' us → unchanged a (run_undos us a').
Proof.
  intros Hwf (Hv & Hf & Hnd & _ & Hr) c. rewrite value_run_undos, Hv; [lia|done|].
  intros i Hi. rewrite Hr. intros Hin. specialize (Hf i Hi). specialize (Hwf i Hin). lia.
Qed.

Ltac counters := intros []; unfold value, outstandingInventorySats; cbn; lia.

Lemma claimExposure_spec n cap committed a u a' :
  claimExposure n cap committed a = (Some u, a') →
  u = undoExposure n ∧ committed + reserved a + n ≤ cap ∧ holds a a' [u].
Proof.
  unfold claimExposure. case_match eqn:Hc; intros; simplify_eq. rewrite Z.gtb_ltb in Hc. bool_to_prop.
  split_and!; [done|lia|]. unfold holds. cbn. split_and!; [|by intros ? ?%not_elem_of_nil|constructor|done|done].
  counters.
Qed.
Lemma claimExposure_refused n cap committed a a' :
  claimExposure n cap committed a = (None, a') → a' = a.
Proof. unfold claimExposure. case_match; intros; by simplify_eq. Qed.

Lemma claimFloat_spec n avail owed a u a' :
  claimFloat n avail owed a = (Some u, a') →
  u = undoFloat n ∧ owed + reservedFloat a + n ≤ avail ∧ holds a a' [u].
Proof.
  unfold claimFloat. case_match eqn:Hc; intros; simplify_eq. rewrite Z.gtb_ltb in Hc. bool_to_prop.
  split_and!; [done|lia|]. unfold holds. cbn. split_and!; [|by intros ? ?%not_elem_of_nil|constructor|done|done].
  counters.
Qed.
Lemma claimFloat_refused n avail owed a a' : claimFloat n avail owed a = (None, a') → a' = a.
Proof. unfold claimFloat. case_match; intros; by simplify_eq. Qed.

Lemma restoreInventory_spec p n a held a' :
  restoreInventory p n a = (Ok held, a') →
  p ≠ "" ∧ 0 < n ∧ holds a a' [undoHeld (reservation_id held) p n] ∧ reserved a' = reserved a.
Proof.
  unfold restoreInventory. case_match eqn:Hc; [done|]. case_match; [done|]. cbn. intros; simplify_eq.
  apply orb_false_iff in Hc as [[Hp%bool_decide_eq_false _]%orb_false_iff Hn%Z.leb_gt].
  split_and!; [done|lia| |done]. unfold holds. cbn.
  split_and!; [|intros i ->%list_elem_of_singleton; lia|apply NoDup_singleton|lia|done].
  intros [| |q]; unfold value, outstandingInventorySats; cbn; try lia.
  destruct (decide (p = q)) as [->|Hpq]; [rewrite lookup_insert_eq|rewrite lookup_insert_ne by done]; cbn;
    unfold outstandingInventorySats; lia.
Qed.
Lemma restoreInventory_Err p n a e a' : restoreInventory p n a = (Err e, a') → a' = a.
Proof. unfold restoreInventory. repeat case_match; cbn; intros; by simplify_eq. Qed.

Lemma held_by_all_app us1 us2 c : held_by_all (us1 ++ us2) c = held_by_all us1 c + held_by_all us2 c.
Proof.
  induction us1 as [|u us1 IH]; [done|]. cbn [app].
  change (held_by_all (u :: us1 ++ us2) c) with (held_by u c + held_by_all (us1 ++ us2) c).
  change (held_by_all (u :: us1) c) with (held_by u c + held_by_all us1 c). lia.
Qed.

(** Claims one after the other. *)
Lemma holds_app a1 a2 a3 us1 us2 : holds a1 a2 us1 → holds a2 a3 us2 → holds a1 a3 (us1 ++ us2).
Proof.
  intros (V1 & F1 & N1 & L1 & R1) (V2 & F2 & N2 & L2 & R2).
  assert (flags (us1 ++ us2) = flags us1 ++ flags us2) as Hf by apply omap_app.
  unfold holds. rewrite Hf. split_and!; [| | |lia|congruence].
  - intros c. rewrite V2, V1, held_by_all_app. lia.
  - intros i [Hi%F1|Hi%F2]%elem_of_app; lia.
  - apply NoDup_app. split_and!; [done| |done]. intros i Hi%F1 Hj%F2. lia.
Qed.

(** An answer an event may get; the counters are only touched locally. *)
Definition may_answer {X} (e : adm_evt X) (a : AdmissionControl) (x : X) (a' : AdmissionControl) : Prop :=
  match e in adm_evt X return X → Prop with
  | Local f => λ x, x = (f a).1 ∧ a' = (f a).2
  | _ => λ _, a' = a
  end x.

(** What every answer leads to. *)
Fixpoint yields {A} (p : prog adm_evt A) (a : AdmissionControl) (Q : A → AdmissionControl → Prop) : Prop :=
  match p with
  | Ret x => Q x a
  | Vis e k => ∀ x a', may_answer e a x a' → yields (k x) a' Q
  end.
#[local] Abbreviation answer A := (result AdmissionError A).

Lemma yields_mono {A} (p : prog adm_evt A) a (Q Q' : A → AdmissionControl → Prop) :
  yields p a Q → (∀ r a', Q r a' → Q' r a') → yields p a Q'.
Proof.
  intros Hp HQ. revert a Hp. induction p as [x|X e k IH]; cbn; intros a Hp; [by apply HQ|].
  intros x a' Hx. apply IH, (Hp x a' Hx).
Qed.
Lemma yields_prog {A B} (p : prog adm_evt A) (f : A → prog adm_evt B) a (Q : B → AdmissionControl → Prop) :
  yields p a (λ r a', yields (f r) a' Q) → yields (prog_bind p f) a Q.
Proof.
  revert a. induction p as [x|X e k IH]; cbn; intros a Hp; [done|].
  intros x a' Hx. apply IH, (Hp x a' Hx).
Qed.
Lemma yields_bind {A B} (p : io A) (f : A → io B) a (Q : answer B → AdmissionControl → Prop) :
  yields p a (λ r a', match r with Ok x => yields (f x) a' Q | Err e => Q (Err e) a' end) →
  yields (bind p f) a Q.
Proof. intros Hp. apply yields_prog. eapply yields_mono; [exact Hp|]. by intros [] a'. Qed.
Lemma yields_ret {A} (x : A) a (Q : answer A → AdmissionControl → Prop) : Q (Ok x) a → yields (ret x : io A) a Q.
Proof. done. Qed.
Lemma yields_throw {A} e a (Q : answer A → AdmissionControl → Prop) : Q (Err e) a → yields (throw e : io A) a Q.
Proof. done. Qed.

(** A read leaves the counters alone. *)
Lemma read_leaves X (e : adm_evt X) a x a' :
  match e with Local _ => False | _ => True end → may_answer e a x a' → a' = a.
Proof. by destruct e. Qed.
Lemma yields_read {A} (e : adm_evt (answer A)) a (Q : answer A → AdmissionControl → Prop) :
  match e with Local _ => False | _ => True end → (∀ x, Q x a) → yields (attempt e) a Q.
Proof. intros Hr HQ x a' ->%read_leaves; [|done]. apply HQ. Qed.
Lemma yields_call {A} (e : adm_evt A) a (Q : answer A → AdmissionControl → Prop) :
  match e with Local _ => False | _ => True end → (∀ x, Q (Ok x) a) → yields (call e : io A) a Q.
Proof. intros Hr HQ x a' ->%read_leaves; [|done]. apply HQ. Qed.
Lemma yields_local {A} (f : AdmissionControl → A * AdmissionControl) a (Q : answer A → AdmissionControl → Prop) :
  (∀ x a', f a = (x, a') → Q (Ok x) a') → yields (local f) a Q.
Proof. intros HQ x a' [-> ->]. apply HQ. by destruct (f a). Qed.
Lemma yields_locally {A} (f : AdmissionControl → answer A * AdmissionControl) a
    (Q : answer A → AdmissionControl → Prop) :
  (∀ x a', f a = (x, a') → Q x a') → yields (locally f) a Q.
Proof. intros HQ x a' [-> ->]. apply HQ. by destruct (f a). Qed.

Lemma yields_guarded {A} us (p : io A) a (Q : answer A → AdmissionControl → Prop) :
  yields p a (λ r a', match r with Ok x => Q (Ok x) a' | Err e => Q (Err e) (run_undos us a') end) →
  yields (guarded us p) a Q.
Proof. intros Hp. apply yields_prog. eapply yields_mono; [exact Hp|]. by intros [x|e] a' Hr; [|intros ? ? [-> ->]]. Qed.
Lemma yields_refuse {A} us c a (Q : answer (option A) → AdmissionControl → Prop) :
  Q (Ok None) (run_undos us a) → yields (refuse us c) a Q.
Proof.
  intros HQ. apply yields_bind, yields_local. intros ? ? [= <- <-].
  apply yields_bind, yields_call; [done|]. intros ?. by apply yields_ret.
Qed.
Lemma yields_serialise {A} (p : io A) a (Q : answer A → AdmissionControl → Prop) :
  yields p a Q → yields (serialise p) a Q.
Proof.
  intros Hp. apply yields_bind, yields_call; [done|]. intros _. apply yields_prog.
  eapply yields_mono; [exact Hp|]. intros r a' Hr x a1 ->. done.
Qed.

(** The pieces of [admitRequest]. *)
Lemma admitInventory_yields generation gi u a :
  yields (admitInventory generation gi u) a (λ r a',
    match r with
    | Ok (Some us) => ∃ us', us = u :: us' ∧ holds a a' us' ∧ reserved a' = reserved a
    | Ok None => a' = run_undos [u] a
    | Err _ => a' = a
    end).
Proof.
  unfold admitInventory. destruct gi as [[p required]|].
  2: { apply yields_ret. exists []. split_and!; try done. split_and!; try done; [intros c; cbn; lia| |constructor].
       by intros ? ?%not_elem_of_nil. }
  apply yields_bind, yields_read; [done|]. intros [owed|e]; [|done].
  case_match; [by apply yields_throw|]. apply yields_bind, yields_locally. intros x a1.
  match goal with |- (if ?b then _ else _) = _ → _ => destruct b end;
    [|destruct (restoreInventory _ _ _) as [[held|e] a2] eqn:Hr]; intros [= <- <-].
  - by apply yields_refuse.
  - apply yields_ret. apply restoreInventory_spec in Hr as (_ & _ & Hh & Heq). by eexists.
  - by eapply restoreInventory_Err.
Qed.

Lemma releasing_holds us a r a' :
  releasing us a = (r, a') →
  undos r = us ∧ reservation_id r = next_id a ∧ next_id a' = S (next_id a) ∧ holds a a' [] ∧ reserved a' = reserved a.
Proof.
  intros [= <- <-]. unfold holds. cbn. split_and!; try done; [|by intros ? ?%not_elem_of_nil|constructor|lia].
  counters.
Qed.

Lemma admitFloat_yields req us a :
  yields (admitFloat req us) a (λ r a',
    match r with
    | Ok (Some res) => ∃ us', undos res = us ++ us' ∧ holds a a' us' ∧ reserved a' = reserved a ∧
        (next_id a ≤ reservation_id res < next_id a')%nat ∧ flags us' = []
    | Ok None => a' = run_undos us a
    | Err _ => a' = a
    end).
Proof.
  unfold admitFloat. destruct (float_required req) as [required|].
  2: { apply yields_bind, yields_local. intros res a1 (Hu & Hi & Hn & Hh & Hr)%releasing_holds.
       apply yields_ret. exists []. rewrite app_nil_r. split_and!; try done; lia. }
  destruct (available required) as [sats|]; [|by apply yields_refuse].
  apply yields_bind, yields_read; [done|]. intros [owed|e]; [|done].
  apply yields_bind, yields_local. intros [u|] a1 Hc.
  - apply claimFloat_spec in Hc as (-> & _ & Hh1). apply yields_bind, yields_local.
    intros res a2 (Hu & Hi & Hn & Hh2 & Hr2)%releasing_holds. apply yields_ret.
    exists [undoFloat (requiredSats required)].
    pose proof (proj1 Hh1 ExposureSats) as Hr1. pose proof Hh1 as (_ & _ & _ & Hle & _). cbn in Hr1.
    split_and!; [done|exact (holds_app a a1 a2 [undoFloat (requiredSats required)] [] Hh1 Hh2)|lia|lia|lia|done].
  - apply claimFloat_refused in Hc. subst a1. by apply yields_refuse.
Qed.

Lemma admit_yields req a :
  adm_wf a →
  yields (admitRequest req) a (λ r a',
    match r with
    | Ok (Some res) =>
        0 < giveSats req ∧ reserved a' = reserved a + giveSats req ∧ holds a a' (undos res) ∧
        (next_id a ≤ reservation_id res < next_id a')%nat ∧ (reservation_id res ∉ flags (undos res))
    | _ => unchanged a a'
    end).
Proof.
  intros Hwf. unfold admitRequest. case_match eqn:Hpos; [by apply yields_throw|]. bool_to_prop.
  apply yields_bind, yields_local. intros g ? [= <- <-]. apply yields_bind.
  eapply (yields_mono _ _ (λ _ a', a' = a)).
  { case_match; [by apply yields_ret|]. by apply yields_read. }
  intros [gi|e] ? ->; [|done]. apply yields_serialise.
  apply yields_bind, yields_read; [done|]. intros [committed|e]; [|done].
  apply yields_bind, yields_local. intros [u|] a1 Hc.
  2: { apply claimExposure_refused in Hc. subst a1. apply yields_bind, yields_call; [done|]. intros ?. by apply yields_ret. }
  apply claimExposure_spec in Hc as (-> & _ & Hh1).
  apply yields_bind, yields_guarded. eapply yields_mono; [apply admitInventory_yields|].
  intros [[us|]|e] a2; cbn beta iota.
  - intros (us2 & -> & Hh2 & Hr2). pose proof (holds_app _ _ _ _ _ Hh1 Hh2) as Hh. apply yields_guarded.
    eapply yields_mono; [apply admitFloat_yields|]. intros [[res|]|e] a3; cbn beta iota.
    + intros (us3 & Hu & Hh3 & Hr3 & Hid & Hf3). pose proof (holds_app _ _ _ _ _ Hh Hh3) as Hall.
      change ([undoExposure (giveSats req)] ++ us2) with (undoExposure (giveSats req) :: us2) in *.
      pose proof (proj1 Hh1 ExposureSats) as Hr1. pose proof Hh as (_ & Hfl & _ & Hle & _). cbn in Hr1.
      rewrite Hu. split_and!; [lia|lia|exact Hall|lia|lia|].
      unfold flags. rewrite omap_app. fold (flags us3). rewrite Hf3, app_nil_r. intros Hin%Hfl. lia.
    + intros ->. by apply holds_undone.
    + intros ->. by apply holds_undone.
  - intros ->. apply yields_ret. by apply holds_undone.
  - intros ->. by apply holds_undone.
Qed.
(** What a reservation made since [a] holds, and its flag. *)
Definition Holding (a : AdmissionControl) (r : Reservation) (a' : AdmissionControl) : Prop :=
  holds a a' (undos r) ∧ (next_id a ≤ reservation_id r < next_id a')%nat ∧ reservation_id r ∉ flags (undos r).

Lemma reserve_yields n cap a :
  yields (reserve n cap) a (λ r a',
    match r with
    | Ok (Some res) => 0 < n ∧ Holding a res a'
    | _ => a' = a
    end).
Proof.
  unfold reserve. apply yields_serialise. case_match eqn:Hpos; [by apply yields_throw|]. bool_to_prop.
  apply yields_bind, yields_read; [done|]. intros [committed|e]; [|done].
  apply yields_bind, yields_local. intros [u|] a1 Hc.
  - apply claimExposure_spec in Hc as (-> & _ & Hh1). apply yields_bind, yields_local.
    intros res a2 (Hu & Hi & Hn & Hh2 & _)%releasing_holds. apply yields_ret.
    pose proof Hh1 as (_ & _ & _ & Hle & _). unfold Holding. rewrite Hu.
    split_and!; [lia|exact (holds_app a a1 a2 [undoExposure n] [] Hh1 Hh2)|lia|lia|by apply not_elem_of_nil].
  - apply claimExposure_refused in Hc. subst a1. by apply yields_ret.
Qed.

(** A reservation gives back what it holds. *)
Lemma release_gives_back a r a' : adm_wf a → Holding a r a' → unchanged a (release r a').
Proof.
  intros Hwf ((Hv & Hf & Hnd & Hle & Hr) & Hid & Hn) c. unfold release.
  rewrite bool_decide_false by (rewrite Hr; intros Hin%Hwf; lia).
  assert (∀ c, value (with_released a' (reservation_id r)) c = value a' c) as Hw by (by intros []).
  rewrite value_run_undos, Hw, Hv; [lia|done|].
  intros i Hi. cbn. rewrite elem_of_union, elem_of_singleton, Hr. intros [->|Hin%Hwf]; [done|].
  apply Hf in Hi. lia.
Qed.

(** A process that answers is one of them. *)
Lemma yields_play {A} o (p : prog adm_evt A) a Q r a' :
  yields p a Q → play (answered o) p a = Some (r, a') → Q r a'.
Proof.
  revert a. induction p as [x|X e k IH]; cbn; intros a Hp; [by intros [= <- <-]|].
  destruct (answered o X e a) as [[x a1]|] eqn:He; [|done]. apply IH, Hp.
  destruct e as [| |Y f| | | | | | |]; [| |injection He as He; cbn; by rewrite He|..];
    cbn in He |- *; repeat case_match; by simplify_eq.
Qed.

(** Admission is all or nothing: whatever its reads answer or throw, a call
    that refuses or throws leaves every counter — exposure, wallet and each
    inventory pool — as it found it; one that admits has claimed the quote's
    size against the cap, and its reservation, released at any later time,
    gives back exactly what the call claimed, once. *)
Theorem admit_all_or_nothing o req a r a' :
  adm_wf a → play (answered o) (admitRequest req) a = Some (r, a') →
  match r with
  | Ok (Some res) =>
      0 < giveSats req ∧ reserved a' = reserved a + giveSats req ∧
      (∀ b, (∀ i, (next_id a ≤ i < next_id a')%nat → i ∉ released b) →
         (∀ c, value (release res b) c = value b c - (value a' c - value a c)) ∧
         release res (release res b) = release res b)
  | _ => unchanged a a'
  end.
Proof.
  intros Hwf Hp. pose proof (yields_play o _ _ _ _ _ (admit_yields req a Hwf) Hp) as Hy. destruct r as [[res|]|e]; [|exact Hy..].
  destruct Hy as (Hpos & Hr & Hh & Hid & Hn). pose proof Hh as (Hv & Hf & Hnd & _).
  split_and!; [done|done|]. intros b Hb. split; [|apply release_twice]. intros c.
  unfold release. rewrite bool_decide_false by by apply Hb.
  assert (value b c = value (with_released b (reservation_id res)) c) as -> by by destruct c.
  rewrite value_run_undos, Hv; [lia|done|].
  intros i Hi. cbn. rewrite elem_of_union, elem_of_singleton. intros [->|Hin]; [done|]. by eapply Hb; [apply Hf|].
Qed.

Definition example_request : AdmissionRequest :=
  mkRequest 600 1000 (Some (mkFloat 610 (Some 5000))) (Some ("arkade", mkFloat 605 (Some 2000))).
(** 300 sats committed, 1000 owed by the wallet, and an [owedSats()] of the
    inventory that throws or answers. *)
Definition example_reads (inventory_answers : bool) X (e : adm_evt X) : option X :=
  match e in adm_evt X return option X with
  | Enter => Some tt
  | Leave => Some tt
  | CommittedSats => Some (Ok 300)
  | Owed None => Some (Ok 1000)
  | Owed (Some _) => Some (if inventory_answers then Ok 100 else Err ReadFailed)
  | _ => None
  end.

Lemma none_released a : released a = ∅ → ∀ i, i ∉ released a.
Proof. intros -> i. apply not_elem_of_empty. Qed.

Lemma admit_all_or_nothing_witness :
  (∃ res a', play (answered (example_reads true)) (admitRequest example_request) new_admission = Some (Ok (Some res), a') ∧
     reserved a' = 600 ∧ outstandingInventorySats a' "arkade" = 605 ∧
     ∀ c, value (release res a') c = value new_admission c) ∧
  (∃ a', play (answered (example_reads false)) (admitRequest example_request) new_admission = Some (Err ReadFailed, a') ∧
     unchanged new_admission a').
Proof.
  assert (adm_wf new_admission) as Hwf by (intros i Hi; by apply none_released in Hi).
  split.
  - eexists _, _. split; [vm_compute; reflexivity|]. split; [reflexivity|]. split; [reflexivity|]. intros c.
    pose proof (admit_all_or_nothing (example_reads true) example_request new_admission _ _ Hwf
      ltac:(vm_compute; reflexivity)) as (_ & _ & Hb).
    match goal with |- value (release _ ?b) _ = _ =>
      destruct (Hb b (λ i _, none_released b eq_refl i)) as [Hv _] end.
    rewrite Hv. lia.
  - eexists. split; [vm_compute; reflexivity|].
    exact (admit_all_or_nothing (example_reads false) example_request new_admission (Err ReadFailed) _ Hwf
      ltac:(vm_compute; reflexivity)).
Defined.
