(* ===== verification/AdmissionRace.v ===== *)
(** * The exposure cap under concurrent quotes

    Any number of quotes of one process, each reserving headroom, doing its
    work, inserting its row and releasing — interleaved event by event. The
    database answers the committed total asynchronously; [strict] says whether
    a reservation may be released while such a read is in flight. What the
    program keeps in [AdmissionControl] is complemented by what it means: whose
    claims they are, and which of them have no row yet. *)
From S2P Require Import Prelude Prog Admission.
#[local] Open Scope Z_scope.

(** ** Totals *)

Definition total (m : gmap nat Z) : Z := map_fold (λ _ x acc, x + acc) 0 m.
Definition at_ (m : gmap nat Z) (t : nat) : Z := default 0 (m !! t).

Lemma total_insert t x m : total (<[t := x]> m) = total m - at_ m t + x.
Proof.
  unfold total, at_. rewrite <- insert_delete_eq, map_fold_insert_L by (lia || apply lookup_delete_eq).
  destruct (m !! t) as [y|] eqn:Hm; cbn.
  - rewrite <- (insert_delete_id m t y Hm) at 2. rewrite map_fold_insert_L by (lia || apply lookup_delete_eq). lia.
  - rewrite delete_id by done. lia.
Qed.

Lemma at_insert t x m u : at_ (<[t := x]> m) u = if decide (u = t) then x else at_ m u.
Proof.
  unfold at_. case_decide as Hu; [subst; by rewrite lookup_insert_eq|by rewrite lookup_insert_ne].
Qed.

Lemma total_nonneg m : (∀ t, 0 ≤ at_ m t) → 0 ≤ total m.
Proof.
  induction m as [|t x m Hm IH] using map_ind; intros Hp; [done|].
  rewrite total_insert. unfold at_ at 1. rewrite Hm. cbn.
  pose proof (Hp t) as Ht. rewrite at_insert, decide_True in Ht by done.
  enough (0 ≤ total m) by lia. apply IH. intros u. specialize (Hp u). rewrite at_insert in Hp.
  case_decide; [subst; unfold at_; by rewrite Hm|done].
Qed.

Lemma total_le m m' : (∀ t, at_ m t ≤ at_ m' t) → total m ≤ total m'.
Proof.
  revert m'. induction m as [|t x m Hm IH] using map_ind; intros m' Hp.
  - apply total_nonneg. intros t. specialize (Hp t). unfold at_ in Hp at 1. by rewrite lookup_empty in Hp.
  - rewrite total_insert. unfold at_ at 1. rewrite Hm. cbn.
    pose proof (Hp t) as Ht. rewrite at_insert, decide_True in Ht by done.
    pose proof (total_insert t 0 m') as Hd.
    enough (total m ≤ total (<[t := 0]> m')) by lia. apply IH. intros u. specialize (Hp u).
    rewrite at_insert in Hp |- *. case_decide; [subst; unfold at_; by rewrite Hm|done].
Qed.

(** ** The process and its database *)

Record AdmWorld := mkAdmWorld {
  adm : AdmissionControl;
  committed : Z;               (** what [committedSats()] sums *)
  busy : option nat;           (** whose job the serialiser runs *)
  claims : gmap nat Z;         (** what each quote has reserved *)
  promised : gmap nat Z;       (** of which for a row not inserted yet *)
  fresh : Z;                   (** inserted since the job read the total *)
}.

(** What the solver stands committed to: the rows, and the quotes admitted. *)
Definition exposed (w : AdmWorld) : Z := committed w + total (promised w).

Section world.
Context (strict : bool) (cap : Z).

(** A synchronous stretch of thread [t]. *)
Definition run_local (t : nat) (a : AdmissionControl) (w : AdmWorld) : AdmWorld :=
  let d := reserved a - reserved (adm w) in
  mkAdmWorld a (committed w) (busy w)
    (if d =? 0 then claims w else <[t := at_ (claims w) t + d]> (claims w))
    (if d =? 0 then promised w else <[t := Z.max 0 (at_ (promised w) t + d)]> (promised w))
    (if 0 <? d then 0 else fresh w).

Definition adm_handle (t : nat) X (e : adm_evt X) (w w' : AdmWorld) : X → Prop :=
  match e in adm_evt X return X → Prop with
  | Enter => λ _, busy w = None ∧
      w' = mkAdmWorld (adm w) (committed w) (Some t) (claims w) (promised w) 0
  | Leave => λ _, w' = mkAdmWorld (adm w) (committed w) None (claims w) (promised w) (fresh w)
  | Local f => λ x,
      x = (f (adm w)).1 ∧ w' = run_local t (f (adm w)).2 w ∧
      (strict = true → reserved (f (adm w)).2 < reserved (adm w) → busy w = None ∨ busy w = Some t)
  | CommittedSats => λ x,
      w' = mkAdmWorld (adm w) (committed w) (busy w) (claims w) (promised w) 0 ∧
      (x = Ok (committed w) ∨ ∃ e, x = Err e)
  | Owed _ => λ _, w' = w
  | InventoryFor => λ _, w' = w
  | OnRefused _ => λ _, w' = w
  | Work => λ _, w' = w
  | Land sats => λ x,
      (w' = mkAdmWorld (adm w) (committed w + sats) (busy w) (claims w)
              (<[t := at_ (promised w) t - sats]> (promised w)) (fresh w + sats)) ∨
      (w' = w ∧ ∃ e, x = Err e)
  | Settle sats => λ _,
      0 ≤ sats ≤ committed w ∧
      w' = mkAdmWorld (adm w) (committed w - sats) (busy w) (claims w) (promised w) (fresh w)
  end.

(** What one quote may assume of the others. *)
Definition AdmRely (t : nat) (w w' : AdmWorld) : Prop :=
  at_ (claims w') t = at_ (claims w) t ∧ at_ (promised w') t = at_ (promised w) t ∧
  (busy w' = Some t → busy w = Some t) ∧
  (busy w = Some t → busy w' = Some t ∧ committed w' - fresh w' ≤ committed w - fresh w).

Definition AdmInv (w : AdmWorld) : Prop :=
  reserved (adm w) = total (claims w) ∧
  (∀ t, 0 ≤ at_ (promised w) t ≤ at_ (claims w) t) ∧
  0 ≤ committed w ∧ reserved (adm w) ≤ cap ∧
  0 ≤ fresh w ∧ fresh w + total (promised w) ≤ cap ∧
  exposed w ≤ (if strict then cap else 2 * cap) ∧
  (strict = true → busy w ≠ None → fresh w ≤ reserved (adm w) - total (promised w)).

#[export] Instance AdmRely_preorders : Preorders AdmRely.
Proof.
  split.
  - intros t w. split_and!; [done|done|done|]. intros Hb. split; [done|lia].
  - intros t w1 w2 w3 (C1 & P1 & N1 & B1) (C2 & P2 & N2 & B2). split_and!; [congruence|congruence|auto|].
    intros Hb. destruct (B1 Hb) as [Hb2 Hc1]. destruct (B2 Hb2) as [Hb3 Hc2]. split; [done|lia].
Qed.

#[local] Abbreviation Stable := (Stable (W := AdmWorld) AdmInv AdmRely).
#[local] Abbreviation triple := (hoare (X := AdmissionError) adm_handle AdmInv AdmRely).

(** Thread [t] holds the serialiser. *)
Definition holding (t : nat) (w : AdmWorld) : Prop := busy w = Some t.
(** It has [n] sats reserved, or [n] of them promised. *)
Definition has_claim (t : nat) (n : Z) (w : AdmWorld) : Prop := n ≤ at_ (claims w) t.
Definition has_promise (t : nat) (n : Z) (w : AdmWorld) : Prop := n ≤ at_ (promised w) t.
(** It read [n], and only what landed since is missing from it. *)
Definition has_read (t : nat) (n : Z) (w : AdmWorld) : Prop :=
  busy w = Some t ∧ 0 ≤ n ∧ committed w ≤ n + fresh w.

#[export] Instance holding_stable t : Stable t (holding t).
Proof. intros w w' (_ & _ & _ & Hb) _ Hh. by apply Hb. Qed.
#[export] Instance has_claim_stable t n : Stable t (has_claim t n).
Proof. intros w w' (Hc & _) _ Hn. unfold has_claim. by rewrite Hc. Qed.
#[export] Instance has_promise_stable t n : Stable t (has_promise t n).
Proof. intros w w' (_ & Hp & _) _ Hn. unfold has_promise. by rewrite Hp. Qed.
#[export] Instance has_read_stable t n : Stable t (has_read t n).
Proof.
  intros w w' (_ & _ & _ & Hb) _ (Hh & Hn & Hc). destruct (Hb Hh) as [Hb' Hle].
  split_and!; [done|done|lia].
Qed.

(** An event that touches nothing but itself. *)
Lemma quiet w : AdmInv w → ∀ t, AdmInv w ∧ guarantees AdmRely t w w.
Proof. intros Hi t. split; [done|]. intros u _. apply Rely_refl. Qed.

Lemma same_reserved_sound t w a :
  AdmInv w → reserved a = reserved (adm w) →
  AdmInv (run_local t a w) ∧ ∀ u, AdmRely u w (run_local t a w).
Proof.
  intros Hi Hr. assert (run_local t a w = mkAdmWorld a (committed w) (busy w) (claims w) (promised w) (fresh w)) as ->.
  { unfold run_local. rewrite Hr, Z.sub_diag. done. }
  split.
  - unfold AdmInv, exposed in *. cbn. rewrite Hr. exact Hi.
  - intros u. split_and!; [done|done|done|]. cbn. intros Hb. split; [done|lia].
Qed.

(** ** The moves that matter *)

Lemma total_promised w : AdmInv w → 0 ≤ total (promised w) ≤ reserved (adm w).
Proof.
  intros (-> & Hp & _). split; [apply total_nonneg|apply total_le]; intros u; destruct (Hp u); lia.
Qed.

(** A claim within the cap, by the job that read the total. *)
Lemma claim_sound t w a n s :
  AdmInv w → has_read t n w → 0 < s → n + reserved (adm w) + s ≤ cap →
  reserved a = reserved (adm w) + s →
  let w' := run_local t a w in
  AdmInv w' ∧ guarantees AdmRely t w w' ∧ holding t w' ∧ has_promise t s w'.
Proof.
  intros Hi (Hb & Hn & Hc) Hs Hcap Ha w'. pose proof (total_promised w Hi) as Htp.
  destruct Hi as (Hr & Hp & H0 & Hrc & Hf & Hfp & Hx & Hst).
  assert (w' = mkAdmWorld a (committed w) (busy w) (<[t := at_ (claims w) t + s]> (claims w))
                 (<[t := at_ (promised w) t + s]> (promised w)) 0) as ->.
  { unfold w', run_local. replace (reserved a - reserved (adm w)) with s by lia.
    rewrite (proj2 (Z.eqb_neq s 0)), (proj2 (Z.ltb_lt 0 s)) by lia. destruct (Hp t). by rewrite Z.max_r by lia. }
  unfold AdmInv, exposed, holding, has_promise in *. cbn. rewrite !total_insert, Ha.
  assert (∀ u, 0 ≤ at_ (<[t := at_ (promised w) t + s]> (promised w)) u
                 ≤ at_ (<[t := at_ (claims w) t + s]> (claims w)) u) as Hp'.
  { intros u. rewrite !at_insert. destruct (Hp u), (Hp t). case_decide; lia. }
  split_and!; try done; try lia.
  - destruct strict; [specialize (Hst eq_refl ltac:(by rewrite Hb))|]; lia.
  - intros u Hu. unfold AdmRely. cbn. rewrite !at_insert, !decide_False by done.
    split_and!; [done|done|by rewrite Hb|]. rewrite Hb. intros [= ->]. done.
  - rewrite at_insert, decide_True by done. destruct (Hp t). lia.
Qed.

(** Giving a claim back. *)
Lemma give_sound t w a s :
  AdmInv w → has_claim t s w → 0 < s → reserved a = reserved (adm w) - s →
  (strict = true → busy w = None ∨ busy w = Some t ∧ has_promise t s w) →
  let w' := run_local t a w in AdmInv w' ∧ guarantees AdmRely t w w' ∧ busy w' = busy w.
Proof.
  intros Hi Hc Hs Ha Hstrict w'. pose proof (total_promised w Hi) as Htp.
  destruct Hi as (Hr & Hp & H0 & Hrc & Hf & Hfp & Hx & Hst).
  assert (w' = mkAdmWorld a (committed w) (busy w) (<[t := at_ (claims w) t - s]> (claims w))
                 (<[t := Z.max 0 (at_ (promised w) t - s)]> (promised w)) (fresh w)) as ->.
  { unfold w', run_local. replace (reserved a - reserved (adm w)) with (- s) by lia.
    rewrite (proj2 (Z.eqb_neq (- s) 0)), (proj2 (Z.ltb_ge 0 (- s))) by lia. done. }
  unfold AdmInv, exposed, has_claim, has_promise in *. cbn. rewrite !total_insert, Ha.
  destruct (Hp t) as [Hpt0 Hpt1].
  assert (∀ u, 0 ≤ at_ (<[t := Z.max 0 (at_ (promised w) t - s)]> (promised w)) u
                 ≤ at_ (<[t := at_ (claims w) t - s]> (claims w)) u) as Hp'.
  { intros u. rewrite !at_insert. destruct (Hp u). case_decide; lia. }
  split_and!; try done; try lia.
  - intros Ht Hb. specialize (Hst Ht Hb). destruct (Hstrict Ht) as [Hn|[Hn Hpr]]; [done|]. lia.
  - intros u Hu. unfold AdmRely. cbn. rewrite !at_insert, !decide_False by done.
    split_and!; [done|done|done|]. intros Hb. split; [done|lia].
Qed.

(** A row inserted under a promise. *)
Lemma land_sound t w s :
  AdmInv w → has_promise t s w → 0 < s →
  let w' := mkAdmWorld (adm w) (committed w + s) (busy w) (claims w)
              (<[t := at_ (promised w) t - s]> (promised w)) (fresh w + s) in
  AdmInv w' ∧ guarantees AdmRely t w w'.
Proof.
  intros Hi Hpr Hs w'. pose proof (total_promised w Hi) as Htp.
  destruct Hi as (Hr & Hp & H0 & Hrc & Hf & Hfp & Hx & Hst). unfold w'. clear w'.
  unfold AdmInv, exposed, has_promise in *. cbn. rewrite !total_insert.
  assert (∀ u, 0 ≤ at_ (<[t := at_ (promised w) t - s]> (promised w)) u ≤ at_ (claims w) u) as Hp'.
  { intros u. rewrite !at_insert. destruct (Hp u), (Hp t). case_decide; [subst|]; lia. }
  split_and!; try done; try lia.
  - intros Ht Hb. specialize (Hst Ht Hb). lia.
  - intros u Hu. unfold AdmRely. cbn. rewrite !at_insert, !decide_False by done.
    split_and!; [done|done|done|]. intros Hb. split; [done|lia].
Qed.

(** ** Rules *)

Lemma quiet_attempt {A} t K (e : adm_evt (result AdmissionError A)) :
  Stable t K → (∀ w w' x, adm_handle t _ e w w' x → w' = w) →
  triple t K (attempt e) (λ _, K) (λ _, K).
Proof.
  intros HK He. apply hoare_attempt; try apply _. intros w Hi HKw w' x ->%He.
  split_and!; [done|apply (quiet w Hi t)|by destruct x].
Qed.
Lemma quiet_call {A} t K (e : adm_evt A) F :
  Stable t K → (∀ w w' x, adm_handle t _ e w w' x → w' = w) →
  triple t K (call e) (λ _, K) F.
Proof.
  intros HK He. apply hoare_call; try apply _. intros w Hi HKw w' x ->%He.
  split_and!; [done|apply (quiet w Hi t)|done].
Qed.

(** A local step that reserves nothing. *)
Lemma local_keep {A} t K (f : AdmissionControl → A * AdmissionControl) F :
  Stable t K → (∀ a, reserved (f a).2 = reserved a) →
  triple t K (local f) (λ x w, K w ∧ ∃ a, x = (f a).1) F.
Proof.
  intros HK Hf. apply hoare_call; try apply _. intros w Hi HKw w' x (-> & -> & _).
  destruct (same_reserved_sound t w (f (adm w)).2 Hi (Hf _)) as [Hi' Hr].
  split_and!; [done|intros u _; apply Hr| |by eexists]. by eapply HK.
Qed.
Lemma locally_keep {A} t K (f : AdmissionControl → result AdmissionError A * AdmissionControl) :
  Stable t K → (∀ a, reserved (f a).2 = reserved a) → triple t K (locally f) (λ _, K) (λ _, K).
Proof.
  intros HK Hf. apply hoare_attempt; try apply _. intros w Hi HKw w' x (-> & -> & _).
  destruct (same_reserved_sound t w (f (adm w)).2 Hi (Hf _)) as [Hi' Hr].
  assert (K (run_local t (f (adm w)).2 w)) by by eapply HK.
  split_and!; [done|intros u _; apply Hr|by destruct (f (adm w)).1].
Qed.

(** Not holding the serialiser. *)
Definition outside (t : nat) (w : AdmWorld) : Prop := busy w ≠ Some t.
#[export] Instance outside_stable t : Stable t (outside t).
Proof. intros w w' (_ & _ & Hb & _) _ Ho Hb'. by apply Ho, Hb. Qed.

Definition leave (w : AdmWorld) : AdmWorld :=
  mkAdmWorld (adm w) (committed w) None (claims w) (promised w) (fresh w).
Lemma leave_sound t w : AdmInv w → holding t w → AdmInv (leave w) ∧ guarantees AdmRely t w (leave w).
Proof.
  intros (Hr & Hp & H0 & Hrc & Hf & Hfp & Hx & Hst) Hh. split; [by split_and!|].
  intros u Hu. split_and!; [done|done|done|]. unfold holding in Hh. rewrite Hh. by intros [= ->].
Qed.

Lemma serialise_spec {A} t (job : prog adm_evt (result AdmissionError A)) (P : A → AdmWorld → Prop) :
  (∀ a, Stable t (P a)) → (∀ a w, P a w → P a (leave w)) →
  triple t (holding t) job (λ a w, holding t w ∧ P a w) (λ _, holding t) →
  triple t (λ _, True) (serialise job) (λ a w, P a w ∧ outside t w) (λ _ _, True).
Proof.
  intros HP Hleave Hjob. unfold serialise.
  apply (hoare_bind _ _ _ _ _ _ _ (λ _, holding t)); try apply _.
  - apply hoare_call; try apply _. intros w Hi _ w' x [Hb ->].
    destruct Hi as (Hr & Hp & H0 & Hrc & Hf & Hfp & Hx & Hst).
    assert (AdmInv w) as Hi by by split_and!. pose proof (total_promised w Hi).
    split_and!; [|intros u Hu|done].
    + unfold AdmInv, exposed in *. cbn. split_and!; try done; lia.
    + split_and!; [done|done| |]; cbn; [by intros [= ->]|by rewrite Hb].
  - intros []. apply (hoare_ensure _ _ _ _ _ _ _ (λ a w, holding t w ∧ P a w) _ (λ _, holding t)); try apply _;
      [done|].
    intros r w Hi Hr w' u ->. change (mkAdmWorld _ _ _ _ _ _) with (leave w).
    assert (holding t w) as Hh by (destruct r; [apply Hr|exact Hr]).
    destruct (leave_sound t w Hi Hh) as [Hi' Hg]. split_and!; [done|done|].
    destruct r as [a|e]; cbn; [|done]. split; [apply Hleave, Hr|done].
Qed.

(** ** The read and the claim *)

Lemma committedSats_spec t :
  triple t (holding t) (attempt CommittedSats) (λ n, has_read t n) (λ _, holding t).
Proof.
  apply hoare_attempt; try apply _. intros w Hi Hh w' x [-> Hx]. pose proof (total_promised w Hi) as Htp.
  destruct Hi as (Hr & Hp & H0 & Hrc & Hf & Hfp & Hex & Hst). split_and!.
  - unfold AdmInv, exposed in *. cbn. split_and!; try done; lia.
  - intros u Hu. split_and!; [done|done|done|]. cbn. rewrite Hh. by intros [= ->].
  - destruct Hx as [->|[e ->]]; cbn; [|done]. unfold has_read. cbn. split_and!; [done|done|lia].
Qed.

(** What a claim of [s] leaves its thread with. *)
Definition owns_claim (t : nat) (s : Z) (w : AdmWorld) : Prop := has_promise t s w ∧ has_claim t s w.

Lemma claim_spec t n s cap' :
  0 < s → cap' ≤ cap →
  triple t (has_read t n) (local (claimExposure s cap' n))
    (λ u w, holding t w ∧ match u with None => True | Some u => u = undoExposure s ∧ owns_claim t s w end)
    (λ _, holding t).
Proof.
  intros Hs Hcap. apply hoare_call; [apply _|intros []; apply _|].
  intros w Hi Hread w' x (-> & -> & _). destruct (claimExposure s cap' n (adm w)) as [[u|] a] eqn:Hc; cbn.
  - pose proof (claimExposure_spec s cap' n (adm w) u a Hc) as (-> & Hle & Hv & _).
    specialize (Hv ExposureSats). cbn in Hv.
    destruct (claim_sound t w a n s Hi Hread Hs ltac:(lia) ltac:(lia)) as (Hi' & Hg & Hh & Hpr).
    split; [done|]. split; [done|]. split; [done|]. split; [done|]. split; [done|].
    destruct Hi' as (_ & Hp & _). unfold has_promise, has_claim in *. specialize (Hp t). lia.
  - apply claimExposure_refused in Hc as ->. destruct (same_reserved_sound t w (adm w) Hi eq_refl) as [Hi' Hr].
    split_and!; [done|intros v _; apply Hr| |done]. by apply Hread.
Qed.

Lemma releasing_keep us a : reserved (releasing us a).2 = reserved a.
Proof. done. Qed.

(** A reservation worth [s] against the cap, held by thread [t]. *)
Definition admitted (t : nat) (s : Z) (r : option Reservation) (w : AdmWorld) : Prop :=
  match r with
  | None => True
  | Some r => (0 < s ∧ held_by_all (undos r) ExposureSats = s) ∧ owns_claim t s w
  end.
#[export] Instance admitted_stable t s r : Stable t (admitted t s r).
Proof. unfold admitted. destruct r; apply _. Qed.

Lemma reserve_spec t s cap' :
  cap' ≤ cap →
  triple t (λ _, True) (reserve s cap') (λ r w, admitted t s r w ∧ outside t w) (λ _ _, True).
Proof.
  intros Hcap. unfold reserve. apply serialise_spec; [apply _|by intros []|].
  case_match eqn:Hs; [by apply hoare_throw; [apply _|]|]. bool_to_prop.
  eapply hoare_bind; try apply _; [apply committedSats_spec|]. intros n.
  eapply hoare_bind; try apply _; [by apply claim_spec|]. intros [u|].
  - apply (hoare_pre _ _ _ _ _ (λ w, (holding t w ∧ owns_claim t s w) ∧ u = undoExposure s)); [naive_solver|].
    apply hoare_pure. intros ->.
    eapply hoare_bind; try apply _; [by apply (local_keep t (λ w, holding t w ∧ owns_claim t s w)); [apply _|]|].
    intros r. apply hoare_pure. intros [a ->]. apply hoare_ret; [apply _|]. intros w _ [Hh Ho].
    split; [done|]. split; [|done]. split; [done|]. cbn. lia.
  - by apply hoare_ret; [apply _|].
Qed.

(** ** [admitRequest] *)

Lemma reserved_run_undos us a : reserved (run_undos us a) = reserved a - held_by_all us ExposureSats.
Proof.
  revert a. induction us as [|u us IH]; intros a; [cbn; lia|].
  change (run_undos (u :: us) a) with (run_undos us (run_undo u a)). rewrite IH.
  change (held_by_all (u :: us) ExposureSats) with (held_by u ExposureSats + held_by_all us ExposureSats).
  destruct u; cbn; try lia. case_bool_decide; cbn; lia.
Qed.

Section admitRequest.
Context (t : nat) (s : Z) (Hs : 0 < s).
(** Inside the serialiser, with [s] claimed. *)
Definition claiming (w : AdmWorld) : Prop := holding t w ∧ owns_claim t s w.

Lemma undo_spec us F :
  held_by_all us ExposureSats = s →
  triple t claiming (local (λ a, (tt, run_undos us a))) (λ _, holding t) F.
Proof.
  intros Hus. apply hoare_call; try apply _. intros w Hi (Hh & Hp & Hc) w' x (_ & -> & _). cbn.
  destruct (give_sound t w (run_undos us (adm w)) s Hi Hc Hs) as (Hi' & Hg & Hb).
  { by rewrite reserved_run_undos, Hus. }
  { intros _. by right. }
  split_and!; [done|done|]. unfold holding in *. by rewrite Hb.
Qed.

Lemma refuse_spec {A} us c (Q : option A → AdmWorld → Prop) F :
  (∀ r, Stable t (Q r)) → (∀ e, Stable t (F e)) → held_by_all us ExposureSats = s →
  (∀ w, holding t w → Q None w) → triple t claiming (refuse us c) Q F.
Proof.
  intros HQ HF Hus HN. eapply hoare_bind; try apply _; [by apply undo_spec|]. intros [].
  eapply hoare_bind; try apply _; [by apply quiet_call; [apply _|]; intros ??? ->|]. intros [].
  apply hoare_ret; [apply _|]. by intros w _ Hh; apply HN.
Qed.

Lemma guarded_spec {A} us (job : prog adm_evt (result AdmissionError A)) (P : A → AdmWorld → Prop) :
  (∀ a, Stable t (P a)) → held_by_all us ExposureSats = s →
  triple t claiming job P (λ _, claiming) → triple t claiming (guarded us job) P (λ _, holding t).
Proof.
  intros HP Hus Hjob. apply (hoare_catch _ _ _ _ _ _ _ _ (λ _, claiming)); [apply _|exact Hjob|]. intros e.
  eapply hoare_bind; try apply _; [by apply undo_spec|]. intros []. by apply hoare_throw; [apply _|].
Qed.

Definition claimed_so_far (us : option (list undo)) (w : AdmWorld) : Prop :=
  match us with None => holding t w | Some us => claiming w ∧ held_by_all us ExposureSats = s end.
#[local] Instance claimed_so_far_stable us : Stable t (claimed_so_far us).
Proof. unfold claimed_so_far. destruct us; apply _. Qed.

Lemma admitInventory_spec generation gi :
  triple t claiming (admitInventory generation gi (undoExposure s)) claimed_so_far (λ _, claiming).
Proof.
  unfold admitInventory. destruct gi as [[p required]|].
  2: { apply hoare_ret; [apply _|]. intros w _ Hw. split; [done|]. cbn. lia. }
  eapply hoare_bind; try apply _; [apply quiet_attempt; [apply _|]; by intros ??? ->|]. intros owed.
  case_match; [by apply hoare_throw; [apply _|]|].
  eapply hoare_bind; try apply _.
  - apply (locally_keep t claiming); [apply _|]. intros a.
    match goal with |- context [if ?b then (Ok None, a) else _] => destruct b; [done|] end.
    destruct (restoreInventory _ _ _) as [[held|e] a'] eqn:Hr; cbn.
    + by apply restoreInventory_spec in Hr as (_ & _ & _ & ->).
    + by apply restoreInventory_Err in Hr as ->.
  - intros [held|].
    + apply hoare_ret; [apply _|]. intros w _ Hw. split; [done|]. cbn. lia.
    + apply refuse_spec; [apply _|apply _|cbn; lia|done].
Qed.

Lemma admitFloat_spec req us :
  held_by_all us ExposureSats = s →
  triple t claiming (admitFloat req us) (λ r w, holding t w ∧ admitted t s r w) (λ _, claiming).
Proof.
  intros Hus. unfold admitFloat.
  assert (∀ us', held_by_all us' ExposureSats = s →
    triple t claiming (bind (local (releasing us')) (λ r, ret (Some r)))
      (λ r w, holding t w ∧ admitted t s r w) (λ _, claiming)) as Hok.
  { intros us' Hus'. eapply hoare_bind; try apply _; [by apply (local_keep t claiming); [apply _|]|].
    intros r. apply hoare_pure. intros [a ->]. apply hoare_ret; [apply _|]. by intros w _ [Hh Ho]. }
  destruct (float_required req) as [required|]; [|by apply Hok].
  destruct (available required) as [sats|]; [|by apply refuse_spec; try apply _].
  eapply hoare_bind; try apply _; [apply quiet_attempt; [apply _|]; by intros ??? ->|]. intros owed.
  eapply hoare_bind; try apply _.
  { apply (local_keep t claiming); [apply _|]. intros a. unfold claimFloat. by case_match. }
  intros u. apply hoare_pure. intros [a Ha].
  destruct (claimFloat (requiredSats required) sats owed a) as [claimed a'] eqn:Hf. cbn in Ha. subst claimed.
  destruct u as [u|]; [|by apply refuse_spec; try apply _].
  apply claimFloat_spec in Hf as (-> & _). apply Hok. rewrite held_by_all_app. cbn. lia.
Qed.
End admitRequest.

Lemma admit_spec t req :
  capSats req ≤ cap →
  triple t (λ _, True) (admitRequest req) (λ r w, admitted t (giveSats req) r w ∧ outside t w) (λ _ _, True).
Proof.
  intros Hcap. unfold admitRequest. case_match eqn:Hs; [by apply hoare_throw; [apply _|]|]. bool_to_prop.
  eapply hoare_seq; try apply _; [by apply (local_keep t (λ _, True) _ (λ _ _, True)); [apply _|]|done|].
  intros generation. apply (hoare_pre _ _ _ _ _ (λ _, True)); [done|].
  apply (hoare_bind _ _ _ _ _ _ _ (λ _ _, True)); [apply _| |].
  { case_match; [by apply hoare_ret; [apply _|]|].
    apply (quiet_attempt t (λ _, True)); [apply _|]. by intros ??? ->. }
  intros gi. eapply hoare_pre; [|apply serialise_spec; [apply _|by intros []|]]; [done|].
  eapply hoare_bind; try apply _; [apply committedSats_spec|]. intros n.
  eapply hoare_bind; try apply _; [by apply claim_spec|]. intros [u|].
  - apply (hoare_pre _ _ _ _ _ (λ w, claiming t (giveSats req) w ∧ u = undoExposure (giveSats req))).
    { intros w _ (Hh & Hu & Ho). by split. }
    apply hoare_pure. intros ->.
    eapply (hoare_bind _ _ _ _ _ _ _ (claimed_so_far t (giveSats req))); [apply _| |].
    { apply guarded_spec; [done|intros []; unfold claimed_so_far; apply _|cbn; lia|by apply admitInventory_spec]. }
    intros [us|]; cbn [claimed_so_far].
    + apply hoare_pure. intros Hus. apply guarded_spec; [done|apply _|done|by apply admitFloat_spec].
    + by apply hoare_ret; [apply _|].
  - apply (hoare_pre _ _ _ _ _ (holding t)); [by intros w _ [? _]|].
    eapply hoare_bind; try apply _; [by apply (quiet_call t (holding t)); [apply _|]; intros ??? ->|].
    intros []. by apply hoare_ret; [apply _|].
Qed.

(** ** Quotes *)

Lemma release_reserved r a :
  reserved (release r a) = reserved a ∨ reserved (release r a) = reserved a - held_by_all (undos r) ExposureSats.
Proof. unfold release. case_bool_decide; [by left|right]. by rewrite reserved_run_undos. Qed.

Lemma release_sound t s r w w' :
  AdmInv w → 0 < s → held_by_all (undos r) ExposureSats = s → has_claim t s w → outside t w →
  adm_handle t unit (Local (λ a, (tt, release r a))) w w' tt →
  AdmInv w' ∧ guarantees AdmRely t w w'.
Proof.
  intros Hi Hs Hr Hc Ho (_ & -> & Hstrict). cbn [fst snd] in *.
  destruct (release_reserved r (adm w)) as [He|He].
  - destruct (same_reserved_sound t w _ Hi He) as [Hi' Hg]. split; [done|]. intros u _. apply Hg.
  - rewrite Hr in He.
    destruct (give_sound t w _ s Hi Hc Hs He) as (Hi' & Hg & _); [|done].
    intros Ht. destruct (Hstrict Ht ltac:(lia)) as [Hn|Hb]; [by left|]. by destruct Ho.
Qed.

Lemma quote_spec t s reservation :
  triple t (λ _, True) reservation (λ r w, admitted t s r w ∧ outside t w) (λ _ _, True) →
  triple t (λ _, True) (quoteUnder s reservation) (λ _ _, True) (λ _ _, True).
Proof.
  intros Hr. unfold quoteUnder. eapply hoare_bind; try apply _; [exact Hr|]. intros [r|].
  2: by apply hoare_ret; [apply _|].
  apply (hoare_pre _ _ _ _ _ (λ w, (owns_claim t s w ∧ outside t w) ∧ (0 < s ∧ held_by_all (undos r) ExposureSats = s))).
  { intros w _ [[Hp Ho] Hout]. by split. }
  apply hoare_pure. intros [Hs Hh]. set (K := λ w, has_claim t s w ∧ outside t w).
  apply (hoare_ensure _ _ _ _ _ _ _ (λ _, K) _ (λ _, K)); try apply _.
  - apply (hoare_bind _ _ _ _ _ _ _ (λ _ w, owns_claim t s w ∧ outside t w)); [apply _| |].
    { eapply hoare_conseq; [apply (quiet_attempt t (λ w, owns_claim t s w ∧ outside t w)); [apply _|]; by intros ??? ->
        |done|done|]. by intros e w _ [[_ Hc] Ho]. }
    intros [].
    + apply (hoare_bind _ _ _ _ _ _ _ (λ _, K)); [apply _| |intros ?; by apply hoare_ret; [apply _|]].
      apply hoare_attempt; try apply _. intros w Hi ([Hp Hc] & Ho) w' x [->|[-> [e ->]]].
      * destruct (land_sound t w s Hi Hp Hs) as [Hi' Hg]. split_and!; [done|done|]. by destruct x.
      * split_and!; [done|apply (quiet w Hi t)|done].
    + apply hoare_ret; [apply _|]. by intros w _ ([_ Hc] & Ho).
  - intros x w Hi Hx w' [] Hl. assert (K w) as [Hc Ho] by by destruct x.
    destruct (release_sound t s r w w' Hi Hs Hh Hc Ho Hl). split_and!; [done|done|by destruct x].
Qed.

Lemma reserveInventory_spec t p n a :
  triple t (λ _, True) (reserveInventory p n a) (λ _ _, True) (λ _ _, True).
Proof.
  eapply hoare_conseq; [apply (serialise_spec t _ (λ _ _, True)); [apply _|done|]|done|done|done].
  eapply hoare_bind; try apply _; [apply quiet_attempt; [apply _|]; by intros ??? ->|]. intros obligations.
  case_match; [by apply hoare_throw; [apply _|]|].
  eapply hoare_conseq; [apply (locally_keep t (holding t)); [apply _|]|done|done|done].
  intros b. match goal with |- context [if ?c then (Ok None, b) else _] => destruct c; [done|] end.
  destruct (restoreInventory _ _ _) as [[held|e] b'] eqn:Hr; cbn.
  - by apply restoreInventory_spec in Hr as (_ & _ & _ & ->).
  - by apply restoreInventory_Err in Hr as ->.
Qed.

(** What the process runs. *)
Inductive quote_program : prog adm_evt unit → Prop :=
  | quotes_reserved sats cap' : cap' ≤ cap → quote_program (forget (quoteUnder sats (reserve sats cap')))
  | quotes_admitted req : capSats req ≤ cap → quote_program (forget (quoteUnder (giveSats req) (admitRequest req)))
  | holds_inventory p n a : quote_program (forget (reserveInventory p n a))
  | settles sats : quote_program (trigger (Settle sats)).

Lemma quote_program_safe t p :
  quote_program p → ∀ w, AdmInv w → wp adm_handle AdmInv AdmRely t p (λ _ _, True) w.
Proof.
  assert (∀ A (p : prog adm_evt (result AdmissionError A)),
    triple t (λ _, True) p (λ _ _, True) (λ _ _, True) →
    ∀ w, AdmInv w → wp adm_handle AdmInv AdmRely t (forget p) (λ _ _, True) w) as Hforget.
  { intros A q Hq w Hi. apply wp_bind; [apply _|]. eapply wp_mono; [|by apply Hq]. by intros r w' _ _. }
  intros Hp w Hi. destruct Hp.
  - apply Hforget; [|done]. by apply quote_spec, reserve_spec.
  - apply Hforget; [|done]. by apply quote_spec, admit_spec.
  - apply Hforget; [|done]. apply reserveInventory_spec.
  - cbn. intros w1 _ Hi1 w2 x [Hs ->].
    destruct Hi1 as (Hr & Hq & H0 & Hrc & Hf & Hfp & Hx & Hst). split_and!.
    + unfold AdmInv, exposed in *. cbn. split_and!; try done; lia.
    + intros u _. split_and!; [done|done|done|]. cbn. intros Hb. split; [done|lia].
    + done.
Qed.

(** The process starts with an empty memory over what the database holds. *)
Definition fresh_process (n : Z) : AdmWorld := mkAdmWorld new_admission n None ∅ ∅ 0.
Definition quoting (n : Z) (c : AdmWorld * list (nat * prog adm_evt unit)) : Prop :=
  rtc (cstep adm_handle quote_program) (fresh_process n, []) c.

Lemma quoting_inv n c : 0 ≤ n ≤ cap → quoting n c → AdmInv c.1.
Proof.
  intros Hn Hc. eapply (interleaving_sound _ quote_program AdmInv AdmRely) in Hc; [|exact quote_program_safe|].
  { by destruct Hc as (_ & ? & _). }
  assert (total ∅ = 0) as Ht by done.
  split_and!; [constructor| |constructor]. unfold AdmInv, exposed, at_. cbn. rewrite !Ht.
  split_and!; try done; try lia; try (destruct strict; lia).
Qed.
End world.

(** C27: the exposure cap holds among concurrent quotes when a reservation is
    not released while a read of the committed total is in flight: the rows and
    the admitted quotes that have no row yet never sum to more than the cap,
    whatever the interleaving of reserving, failing, inserting, releasing and
    settling. Without that proviso — the code has none — the sum is at most
    twice the cap. *)
Theorem exposure_bounded strict cap n c :
  0 ≤ n ≤ cap → quoting strict cap n c →
  0 ≤ exposed c.1 ≤ (if strict then cap else 2 * cap) ∧ 0 ≤ reserved (adm c.1) ≤ cap.
Proof.
  intros Hn Hc. pose proof (quoting_inv strict cap n c Hn Hc) as Hi.
  pose proof (total_promised _ _ _ Hi) as Htp.
  destruct Hi as (Hr & Hp & H0 & Hrc & Hf & Hfp & Hx & Hst).
  unfold exposed in *. split; [|lia]. split; [lia|exact Hx].
Qed.

(** ** The bound is reached *)

(** Every read and write answers. *)
Definition adm_served (t : nat) X (e : adm_evt X) (w : AdmWorld) : option (X * AdmWorld) :=
  match e in adm_evt X return option (X * AdmWorld) with
  | Enter => match busy w with
             | None => Some (tt, mkAdmWorld (adm w) (committed w) (Some t) (claims w) (promised w) 0)
             | Some _ => None
             end
  | Leave => Some (tt, mkAdmWorld (adm w) (committed w) None (claims w) (promised w) (fresh w))
  | Local f => Some ((f (adm w)).1, run_local t (f (adm w)).2 w)
  | CommittedSats =>
      Some (Ok (committed w), mkAdmWorld (adm w) (committed w) (busy w) (claims w) (promised w) 0)
  | Owed _ => Some (Ok 0, w)
  | InventoryFor => Some (Ok None, w)
  | OnRefused _ => Some (tt, w)
  | Work => Some (Ok true, w)
  | Land sats => Some (Ok tt, mkAdmWorld (adm w) (committed w + sats) (busy w) (claims w)
                                 (<[t := at_ (promised w) t - sats]> (promised w)) (fresh w + sats))
  | Settle _ => None
  end.

Lemma adm_served_handle t X (e : adm_evt X) w x w' :
  adm_served t X e w = Some (x, w') → adm_handle false t X e w w' x.
Proof. destruct e; cbn; intros Hs; repeat case_match; simplify_eq; split_and?; eauto; by split_and?. Qed.

(** A quote of 1000 sats under a cap of 1000, alone, [n] of its events in. *)
Definition a_quote : prog adm_evt unit := forget (quoteUnder 1000 (reserve 1000 1000)).
Definition moved_on (t n : nat) (p : prog adm_evt unit) (w : AdmWorld) : prog adm_evt unit * AdmWorld :=
  default (p, w) (advance n (adm_served t) p w).

Lemma moved_on_steps t n l1 l2 (p : prog adm_evt unit) w :
  rtc (cstep (adm_handle false) (quote_program 1000)) (w, l1 ++ (t, p) :: l2)
    ((moved_on t n p w).2, l1 ++ (t, (moved_on t n p w).1) :: l2).
Proof.
  unfold moved_on. destruct (advance n (adm_served t) p w) as [[p' w']|] eqn:Ha; cbn; [|apply rtc_refl].
  eapply advance_steps; [apply adm_served_handle|exact Ha].
Qed.

(** The first quote is admitted (5 events); the second reads the committed
    total, 0 (2 events); the first lands and releases; the second, against what
    it read, is admitted and lands. *)
Definition race1 := moved_on 1 5 a_quote (fresh_process 0).
Definition race2 := moved_on 2 2 a_quote race1.2.
Definition race3 := moved_on 1 3 race1.1 race2.2.
Definition race4 := moved_on 2 6 race2.1 race3.2.

Lemma race_quoting : quoting false 1000 0 (race4.2, [(2%nat, race4.1); (1%nat, race3.1)]).
Proof.
  unfold quoting.
  eapply rtc_l; [by apply (cstep_start _ _ _ [] 1 a_quote); [constructor|apply not_elem_of_nil]|].
  etransitivity; [apply (moved_on_steps 1 5 [] [])|]. cbn [app]. fold race1.
  eapply rtc_l; [apply (cstep_start _ _ _ [(1%nat, race1.1)] 2 a_quote); [constructor; lia|]|].
  { cbn. rewrite list_elem_of_singleton. lia. }
  etransitivity; [apply (moved_on_steps 2 2 [] [(1%nat, race1.1)])|]. cbn [app]. fold race2.
  etransitivity; [apply (moved_on_steps 1 3 [(2%nat, race2.1)] [])|]. cbn [app]. fold race3.
  apply (moved_on_steps 2 6 [] [(1%nat, race3.1)]).
Qed.

(** C31: and the cap is overrun by as much as that: with two quotes of 1000 sats
    under a cap of 1000, if the first lands its row and releases while the
    second awaits the committed total, both are admitted, and 2000 sats of rows
    stand committed. *)
Theorem exposure_cap_overrun :
  ∃ c, quoting false 1000 0 c ∧ committed c.1 = 2 * 1000 ∧ exposed c.1 = 2 * 1000.
Proof.
  eexists. split; [exact race_quoting|]. cbn [fst]. vm_compute. split; reflexivity.
Qed.

#[local] Opaque race1 race2 race3 race4.

Lemma exposure_bounded_witness :
  0 ≤ exposed race4.2 ≤ 2 * 1000 ∧ 0 ≤ reserved (adm race4.2) ≤ 1000.
Proof.
  exact (exposure_bounded false 1000 0 (race4.2, [(2%nat, race4.1); (1%nat, race3.1)]) ltac:(lia) race_quoting).
Defined.
