(* ===== verification/RateLimit.v ===== *)
(** * Rate limiting of quotes

    [RateLimiter] of [packages/solver-core/src/core/rateLimit.ts]: a fixed
    window per requester key, in a JS [Map] — an association list in insertion
    order, which is also the order of eviction. *)
From Stdlib Require Import Sorted.
From S2P Require Import Prelude.
#[local] Open Scope Z_scope.

Definition QUOTE_RATE_LIMIT : Z := 5.
Definition QUOTE_RATE_WINDOW_SECONDS : Z := 15 * 60.
Definition MAX_TRACKED_KEYS : nat := 100 * 100.

Record Window := mkWindow { start : Z; count : Z }.
Abbreviation windows := (list (string * Window)).

(** The operations of [Map]. *)
Definition map_get (m : windows) (key : string) : option Window :=
  snd <$> list_find (λ p, p.1 = key) m ≫= λ p, Some p.2.
Definition map_delete (m : windows) (key : string) : windows := filter (λ p, p.1 ≠ key) m.
(** [set] of a key that is not there. *)
Definition map_append (m : windows) (key : string) (w : Window) : windows := m ++ [(key, w)].
(** [window.count += 1] through the shared reference. *)
Definition map_bump (m : windows) (key : string) : windows :=
  (λ p, if decide (p.1 = key) then (p.1, mkWindow (start p.2) (count p.2 + 1)) else p) <$> m.

Section limiter.
Context (limit windowSeconds : Z).

Definition expired (now : Z) (w : Window) : bool := windowSeconds <=? now - start w.

Definition prune (now : Z) (m : windows) : windows :=
  let m := filter (λ p, expired now p.2 = false) m in
  if (length m <? MAX_TRACKED_KEYS)%nat then m
  else drop (length m - Nat.div MAX_TRACKED_KEYS 2) m.

Definition take (key : string) (now : Z) (m : windows) : bool * windows :=
  let m := if (MAX_TRACKED_KEYS <=? length m)%nat then prune now m else m in
  match map_get m key with
  | Some w =>
      if expired now w then (true, map_append (map_delete m key) key (mkWindow now 1))
      else if limit <=? count w then (false, m)
      else (true, map_bump m key)
  | None => (true, map_append (map_delete m key) key (mkWindow now 1))
  end.

(** A history of calls, oldest first: the windows it leaves, and when [k] was
    granted. *)
Fixpoint history (k : string) (calls : list (string * Z)) (m : windows) (granted : list Z)
    : windows * list Z :=
  match calls with
  | [] => (m, granted)
  | (key, now) :: rest =>
      let '(ok, m) := take key now m in
      history k rest m (if ok && bool_decide (key = k) then granted ++ [now] else granted)
  end.
End limiter.

(** ** The map *)

Lemma map_get_elem m key w : map_get m key = Some w → (key, w) ∈ m.
Proof.
  unfold map_get. destruct (list_find _ m) as [[i p]|] eqn:Hf; [|done]. cbn. intros [= <-].
  apply list_find_Some in Hf as (Hl & <- & _). destruct p. by eapply list_elem_of_lookup_2.
Qed.

Lemma map_get_None m key : map_get m key = None ↔ key ∉ m.*1.
Proof.
  unfold map_get. destruct (list_find _ m) as [[i p]|] eqn:Hf; cbn.
  - split; [done|]. intros Hn. destruct Hn. apply list_find_Some in Hf as (Hl & <- & _).
    apply list_elem_of_fmap. exists p. split; [done|]. by eapply list_elem_of_lookup_2.
  - split; [|done]. intros _ Hin. apply list_find_None in Hf.
    apply list_elem_of_fmap in Hin as (p & -> & Hp). rewrite Forall_forall in Hf. by apply (Hf p).
Qed.

Lemma map_get_NoDup m key w : NoDup m.*1 → (key, w) ∈ m → map_get m key = Some w.
Proof.
  intros Hnd Hin. destruct (map_get m key) as [w'|] eqn:Hg.
  - apply map_get_elem in Hg. f_equal.
    enough ((key, w') = (key, w)) by by simplify_eq. by eapply NoDup_fmap_eq.
  - apply map_get_None in Hg. destruct Hg. apply list_elem_of_fmap. by exists (key, w).
Qed.

Lemma map_bump_fst m key : (map_bump m key).*1 = m.*1.
Proof. unfold map_bump. rewrite <- list_fmap_compose. apply list_fmap_ext. intros i [k w] _. cbn. by case_decide. Qed.

Lemma length_map_delete_le m key : (length (map_delete m key) ≤ length m)%nat.
Proof. apply length_filter. Qed.

Section properties.
Context (limit windowSeconds : Z).
#[local] Abbreviation take := (take limit windowSeconds).
#[local] Abbreviation history := (history limit windowSeconds).

Lemma prune_length now m : (length (prune windowSeconds now m) < MAX_TRACKED_KEYS)%nat.
Proof.
  unfold prune. destruct (_ <? _)%nat eqn:Hl; [by apply Nat.ltb_lt in Hl|]. rewrite length_drop.
  apply Nat.ltb_ge in Hl.
  assert (Nat.div MAX_TRACKED_KEYS 2 < MAX_TRACKED_KEYS)%nat as Hh by (apply Nat.ltb_lt; vm_compute; reflexivity).
  lia.
Qed.

(** The windows of an update: a key bumped in place, or moved to the back. *)
Lemma take_length key now m :
  (length m ≤ MAX_TRACKED_KEYS)%nat → (length (take key now m).2 ≤ MAX_TRACKED_KEYS)%nat.
Proof.
  intros Hm. unfold take. set (m' := if (MAX_TRACKED_KEYS <=? length m)%nat then prune windowSeconds now m else m).
  assert (length m' < MAX_TRACKED_KEYS)%nat as Hm'.
  { unfold m'. destruct (_ <=? _)%nat eqn:Hl; [apply prune_length|by apply Nat.leb_gt in Hl]. }
  pose proof (length_map_delete_le m' key).
  assert (length (map_bump m' key) = length m') as Hbump by (unfold map_bump; apply length_fmap).
  destruct (map_get m' key) as [w|]; [case_match; [|case_match]|]; cbn [snd];
    unfold map_append; rewrite ?length_app; cbn [length]; lia.
Qed.

(** Keys are distinct and starts are in order, oldest first. *)
Definition windows_wf (now : Z) (m : windows) : Prop :=
  NoDup m.*1 ∧ StronglySorted (λ p q, start p.2 ≤ start q.2) m ∧
  Forall (λ p, start p.2 ≤ now ∧ 1 ≤ count p.2 ≤ limit) m.

Lemma StronglySorted_drop {A} (R : A → A → Prop) n l : StronglySorted R l → StronglySorted R (drop n l).
Proof. revert l. induction n as [|n IH]; intros [|x l] Hl; try done. inversion Hl; subst. by apply IH. Qed.
Lemma StronglySorted_snoc {A} (R : A → A → Prop) l x :
  StronglySorted R l → Forall (λ y, R y x) l → StronglySorted R (l ++ [x]).
Proof.
  induction 1 as [|y l Hl IH Hy]; cbn; intros Hx; [repeat constructor|].
  apply Forall_cons in Hx as [Hyx Hx]. constructor; [by apply IH|]. apply Forall_app. by split; [|repeat constructor].
Qed.

Lemma filter_wf now (P : string * Window → Prop) `{∀ x, Decision (P x)} m : windows_wf now m → windows_wf now (filter P m).
Proof.
  intros (Hnd & Hs & Hf). split_and!; [|by apply StronglySorted_filter|].
  - clear Hs Hf. induction m as [|p m IH]; [done|]. cbn in Hnd. apply NoDup_cons in Hnd as [Hp Hnd].
    rewrite filter_cons. case_decide; [|auto]. cbn. apply NoDup_cons. split; [|auto].
    intros (q & Hq & [_ Hin]%list_elem_of_filter)%list_elem_of_fmap. apply Hp, list_elem_of_fmap. by exists q.
  - rewrite Forall_forall in *. intros p [_ Hp]%list_elem_of_filter. auto.
Qed.

Lemma prune_wf now m : windows_wf now m → windows_wf now (prune windowSeconds now m).
Proof.
  intros Hwf. unfold prune. pose proof (filter_wf now (λ p, expired windowSeconds now p.2 = false) m Hwf) as Hf.
  destruct (_ <? _)%nat; [done|]. set (n := (_ - _)%nat). clearbody n.
  destruct Hf as (Hnd & Hs & Hall). split_and!; [|by apply StronglySorted_drop|by apply Forall_drop].
  rewrite fmap_drop. by eapply sublist_NoDup; [|apply sublist_drop].
Qed.

Lemma bump_wf key w now m :
  windows_wf now m → map_get m key = Some w → count w < limit → windows_wf now (map_bump m key).
Proof.
  intros (Hnd & Hs & Hf) Hg Hc. split_and!; [by rewrite map_bump_fst| |].
  - unfold map_bump. clear Hnd Hf Hg. induction Hs as [|p l _ IH Hp]; cbn; constructor; [done|].
    apply Forall_fmap. eapply Forall_impl; [exact Hp|]. intros q Hq. cbn. by repeat case_decide.
  - unfold map_bump. apply Forall_fmap. rewrite Forall_forall in *. intros [k v] Hin. cbn. specialize (Hf _ Hin). cbn in Hf.
    case_decide as Hk; cbn; [|done]. cbn in Hk. subst k.
    rewrite (map_get_NoDup _ _ _ Hnd Hin) in Hg. simplify_eq. lia.
Qed.

Lemma reset_wf key now m :
  0 < limit → windows_wf now m → windows_wf now (map_append (map_delete m key) key (mkWindow now 1)).
Proof.
  intros Hl Hwf. destruct (filter_wf now (λ p, p.1 ≠ key) m Hwf) as (Hnd & Hs & Hf).
  unfold map_append, map_delete. split_and!.
  - rewrite fmap_app. apply NoDup_app. split_and!; [done| |apply NoDup_singleton].
    intros k Hk Heq%list_elem_of_singleton. cbn in Heq. subst k.
    apply list_elem_of_fmap in Hk as (p & Hk & [Hp _]%list_elem_of_filter). done.
  - apply StronglySorted_snoc; [done|]. eapply Forall_impl; [exact Hf|]. by intros p [Hp _].
  - apply Forall_app. split; [done|]. repeat constructor; cbn; lia.
Qed.

Lemma windows_wf_later now now' m : now ≤ now' → windows_wf now m → windows_wf now' m.
Proof.
  intros Hn (Hnd & Hs & Hf). split_and!; [done|done|]. eapply Forall_impl; [exact Hf|]. cbn. lia.
Qed.

Lemma take_wf key now m :
  0 < limit → windows_wf now m → windows_wf now (take key now m).2.
Proof.
  intros Hl Hwf. unfold take. set (m' := if (MAX_TRACKED_KEYS <=? length m)%nat then prune windowSeconds now m else m).
  assert (windows_wf now m') as Hwf' by (unfold m'; case_match; [by apply prune_wf|done]). clearbody m'.
  destruct (map_get m' key) as [w|] eqn:Hg; [|by apply reset_wf].
  destruct (expired _ _ _); [by apply reset_wf|]. destruct (limit <=? count w) eqn:Hc; [done|]. bool_to_prop.
  by eapply bump_wf.
Qed.

(** ** What a key is granted *)

(** The grants of [l] in [a, b). *)
Definition granted_in (a b : Z) (l : list Z) : Z := Z.of_nat (length (filter (λ t, a ≤ t < b) l)).

Lemma granted_in_app a b l1 l2 : granted_in a b (l1 ++ l2) = granted_in a b l1 + granted_in a b l2.
Proof. unfold granted_in. rewrite filter_app, length_app. lia. Qed.
Lemma granted_in_one a b t : granted_in a b [t] = if decide (a ≤ t < b) then 1 else 0.
Proof. unfold granted_in. rewrite filter_cons. by case_decide. Qed.
Lemma granted_in_nonneg a b l : 0 ≤ granted_in a b l.
Proof. unfold granted_in. lia. Qed.
Lemma granted_in_split a m b l : a ≤ m ≤ b → granted_in a b l = granted_in a m l + granted_in m b l.
Proof.
  intros Hm. induction l as [|t l IH]; [done|].
  change (t :: l) with ([t] ++ l). rewrite !granted_in_app, !granted_in_one. repeat case_decide; lia.
Qed.
Lemma granted_in_none a b l : Forall (λ t, t < a) l → granted_in a b l = 0.
Proof.
  induction 1 as [|t l Ht _ IH]; [done|]. change (t :: l) with ([t] ++ l).
  rewrite granted_in_app, granted_in_one, IH, decide_False by lia. done.
Qed.
Lemma granted_in_mono a a' b b' l : a' ≤ a → b ≤ b' → granted_in a b l ≤ granted_in a' b' l.
Proof.
  intros Ha Hb. induction l as [|t l IH]; [done|]. change (t :: l) with ([t] ++ l).
  rewrite !granted_in_app, !granted_in_one. repeat case_decide; lia.
Qed.

(** What the grants of a key look like, its window being [w] or none. *)
Definition grants_ok (now : Z) (w : option Window) (l : list Z) : Prop :=
  Forall (λ t, t ≤ now) l ∧
  (∀ a, granted_in a (a + windowSeconds) l ≤ 2 * limit) ∧
  match w with
  | None => l = []
  | Some w =>
      start w ≤ now ∧ Forall (λ t, t < start w + windowSeconds) l ∧
      granted_in (start w) (now + 1) l = count w ∧ count w ≤ limit ∧
      ∀ x, start w - windowSeconds < x → granted_in x (start w) l ≤ limit
  end.

Lemma grants_ok_later now now' w l : now ≤ now' → grants_ok now w l → grants_ok now' w l.
Proof.
  intros Hn (Hf & Ha & Hw). split_and!; [|done|].
  - eapply Forall_impl; [exact Hf|]. cbn. lia.
  - destruct w as [w|]; [|done]. destruct Hw as (Hs & Hb & Hc & Hl & Hx). split_and!; [lia|done| |done|done].
    rewrite (granted_in_split _ (now + 1)) by lia. rewrite (granted_in_none (now + 1)); [lia|].
    eapply Forall_impl; [exact Hf|]. cbn. lia.
Qed.

(** A grant in the window it opens. *)
Lemma grants_ok_open now w l :
  0 < limit → 0 < windowSeconds → grants_ok now w l →
  match w with Some w => expired windowSeconds now w = true | None => True end →
  grants_ok now (Some (mkWindow now 1)) (l ++ [now]).
Proof.
  intros Hl Hw (Hf & Ha & Hwin) Hexp.
  assert (Forall (λ t, t < now) l ∧ ∀ x, now - windowSeconds < x → granted_in x now l ≤ limit) as [Hlt Hprev].
  { destruct w as [w|]; [|subst; split; [done|]; intros; unfold granted_in; cbn; lia].
    destruct Hwin as (Hs & Hb & Hc & Hcl & _). unfold expired in Hexp. bool_to_prop. split.
    - eapply Forall_impl; [exact Hb|]. cbn. lia.
    - intros x Hx. pose proof (granted_in_mono x (start w) now (now + 1) l). lia. }
  split; [|split].
  - apply Forall_app. by split; [|repeat constructor].
  - intros a. rewrite granted_in_app, granted_in_one. case_decide as Hin; [|specialize (Ha a); lia].
    rewrite (granted_in_split a now) by lia. rewrite (granted_in_none now) by done. specialize (Hprev a). lia.
  - split_and!; [cbn; lia| | |cbn; lia|]; cbn [start count].
    + apply Forall_app. split; [|repeat constructor; lia]. eapply Forall_impl; [exact Hlt|]. cbn. lia.
    + rewrite granted_in_app, granted_in_one, decide_True, granted_in_none by (done || lia). lia.
    + intros x Hx. rewrite granted_in_app, granted_in_one, decide_False by lia. specialize (Hprev x Hx). lia.
Qed.

(** A grant in a window that is open. *)
Lemma grants_ok_bump now w l :
  grants_ok now (Some w) l → expired windowSeconds now w = false → count w < limit →
  grants_ok now (Some (mkWindow (start w) (count w + 1))) (l ++ [now]).
Proof.
  intros (Hf & Ha & Hs & Hb & Hc & Hcl & Hx) Hexp Hlt. unfold expired in Hexp. bool_to_prop.
  pose proof (granted_in_nonneg (start w) (now + 1) l) as Hpos. split; [|split].
  - apply Forall_app. by split; [|repeat constructor].
  - intros a. rewrite granted_in_app, granted_in_one. case_decide as Hin; [|specialize (Ha a); lia].
    destruct (Z.le_gt_cases a (start w)) as [Has|Has].
    + rewrite (granted_in_split a (start w)) by lia.
      pose proof (granted_in_mono (start w) (start w) (a + windowSeconds) (now + 1) l ltac:(lia)) as Hm.
      destruct (Z.le_gt_cases (a + windowSeconds) (now + 1)); [specialize (Hx a ltac:(lia)); lia|].
      rewrite (granted_in_split (start w) (now + 1)) by lia. rewrite (granted_in_none (now + 1)).
      * specialize (Hx a ltac:(lia)). lia.
      * eapply Forall_impl; [exact Hf|]. cbn. lia.
    + destruct (Z.le_gt_cases (a + windowSeconds) (now + 1)).
      * pose proof (granted_in_mono a (start w) (a + windowSeconds) (now + 1) l). lia.
      * rewrite (granted_in_split a (now + 1)) by lia. rewrite (granted_in_none (now + 1)).
        -- pose proof (granted_in_mono a (start w) (now + 1) (now + 1) l). lia.
        -- eapply Forall_impl; [exact Hf|]. cbn. lia.
  - split_and!; cbn [start count]; [done| | |lia|].
    + apply Forall_app. split; [done|]. repeat constructor. lia.
    + rewrite granted_in_app, granted_in_one, decide_True by lia. lia.
    + intros x Hx'. rewrite granted_in_app, granted_in_one, decide_False by lia. specialize (Hx x Hx'). lia.
Qed.

Lemma map_get_other key k w m : key ≠ k → map_get (map_append (map_delete m key) key w) k = map_get m k.
Proof.
  intros Hk. unfold map_append, map_delete, map_get. induction m as [|[k0 w0] m IH].
  - cbn. by destruct (decide (key = k)).
  - rewrite filter_cons. cbn. destruct (decide (k0 = key)) as [->|Hk0].
    + rewrite decide_False by tauto. destruct (decide (key = k)); [done|].
      rewrite IH. by destruct (list_find _ m) as [[]|].
    + rewrite decide_True by done. cbn. destruct (decide (k0 = k)); [done|]. revert IH.
      destruct (list_find _ (filter _ m ++ _)) as [[]|], (list_find _ m) as [[]|]; cbn; congruence.
Qed.
Lemma map_get_appended key w m : map_get (map_append (map_delete m key) key w) key = Some w.
Proof.
  unfold map_append, map_delete, map_get. induction m as [|[k0 w0] m IH].
  - cbn. by destruct (decide (key = key)).
  - rewrite filter_cons. cbn. destruct (decide (k0 = key)) as [->|Hk0].
    + rewrite decide_False by tauto. exact IH.
    + rewrite decide_True by done. cbn. destruct (decide (k0 = key)); [done|]. revert IH.
      by destruct (list_find _ (filter _ m ++ _)) as [[]|].
Qed.
Lemma map_get_bump key k m :
  map_get (map_bump m key) k =
    (λ w, if decide (k = key) then mkWindow (start w) (count w + 1) else w) <$> map_get m k.
Proof.
  unfold map_bump, map_get. induction m as [|[k0 w0] m IH]; [done|]. cbn.
  destruct (decide (k0 = key)) as [->|Hk0]; cbn.
  - destruct (decide (key = k)) as [->|]; cbn; [by rewrite decide_True|]. revert IH.
    destruct (list_find _ (_ <$> m)) as [[]|], (list_find _ m) as [[]|]; cbn; congruence.
  - destruct (decide (k0 = k)) as [->|]; cbn; [by rewrite decide_False|]. revert IH.
    destruct (list_find _ (_ <$> m)) as [[]|], (list_find _ m) as [[]|]; cbn; congruence.
Qed.

(** One call, the map below its bound: what it does to the grants of [k]. *)
Lemma take_grants k key now m l :
  0 < limit → 0 < windowSeconds → (length m < MAX_TRACKED_KEYS)%nat →
  grants_ok now (map_get m k) l →
  let '(ok, m') := take key now m in
  grants_ok now (map_get m' k) (if ok && bool_decide (key = k) then l ++ [now] else l) ∧
  (∀ x, x ∈ m'.*1 → x = key ∨ x ∈ m.*1).
Proof.
  intros Hl Hw Hlen Hg. unfold take. rewrite (proj2 (Nat.leb_gt _ _) Hlen).
  assert (∀ w x, x ∈ (map_append (map_delete m key) key w).*1 → x = key ∨ x ∈ m.*1) as Hkeys.
  { intros w x. unfold map_append, map_delete. rewrite fmap_app, elem_of_app. cbn.
    intros [(p & -> & [_ Hp]%list_elem_of_filter)%list_elem_of_fmap|Hx%list_elem_of_singleton]; [right|by left].
    apply list_elem_of_fmap. by exists p. }
  destruct (map_get m key) as [w|] eqn:Hkey; [destruct (expired _ _ _) eqn:Hexp;
    [|destruct (limit <=? count w) eqn:Hfull]|]; (split; [|try (by apply Hkeys); try (by intros; right)]); cbn [andb].
  - case_bool_decide as Hk; [subst key|rewrite map_get_other; done].
    rewrite map_get_appended. eapply grants_ok_open; [done..|]. by rewrite Hkey.
  - exact Hg.
  - rewrite map_get_bump. case_bool_decide as Hk; [subst key|].
    + rewrite Hkey in *. cbn. rewrite decide_True by done. bool_to_prop. by apply grants_ok_bump.
    + destruct (map_get m k); cbn; [rewrite decide_False by congruence|]; exact Hg.
  - intros x. rewrite map_bump_fst. by right.
  - case_bool_decide as Hk; [subst key|rewrite map_get_other; done].
    rewrite map_get_appended. eapply grants_ok_open; [done..|]. by rewrite Hkey.
Qed.

Lemma history_length k calls : ∀ m l,
  (length m ≤ MAX_TRACKED_KEYS)%nat → (length (history k calls m l).1 ≤ MAX_TRACKED_KEYS)%nat.
Proof.
  induction calls as [|[key now] calls IH]; intros m l Hm; [done|]. cbn [RateLimit.history].
  pose proof (take_length key now m Hm) as Ht. destruct (take key now m) as [ok m']. by apply IH.
Qed.

(** Times in order, from [now] on. *)
Fixpoint in_order (now : Z) (calls : list (string * Z)) : Prop :=
  match calls with [] => True | (_, t) :: rest => now ≤ t ∧ in_order t rest end.

Lemma history_grants k keys calls : ∀ now m l,
  0 < limit → 0 < windowSeconds → in_order now calls →
  (∀ c, c ∈ calls → c.1 ∈ keys) → (length keys < MAX_TRACKED_KEYS)%nat →
  windows_wf now m → (∀ x, x ∈ m.*1 → x ∈ keys) → grants_ok now (map_get m k) l →
  ∃ now' m' l', history k calls m l = (m', l') ∧ grants_ok now' (map_get m' k) l'.
Proof.
  induction calls as [|[key t] calls IH]; intros now m l Hl Hw Hord Hin Hlen Hwf Hkeys Hg; [by exists now, m, l|].
  cbn [RateLimit.history]. destruct Hord as [Ht Hord].
  pose proof (windows_wf_later now t m Ht Hwf) as Hwf'.
  assert (length m < MAX_TRACKED_KEYS)%nat as Hm.
  { eapply Nat.le_lt_trans; [|exact Hlen]. rewrite <- (length_fmap fst m).
    apply submseteq_length, NoDup_submseteq; [apply Hwf|]. exact Hkeys. }
  pose proof (take_grants k key t m l Hl Hw Hm (grants_ok_later _ _ _ _ Ht Hg)) as Hstep.
  pose proof (take_wf key t m Hl Hwf') as Hwf2.
  destruct (take key t m) as [ok m'] eqn:Htake. destruct Hstep as [Hg' Hk'].
  eapply (IH t); try done.
  - intros c Hc. apply Hin. by right.
  - intros x [->|Hx]%Hk'; [apply (Hin (key, t)); left|by apply Hkeys].
Qed.
End properties.

(** The limiter bounds what it must: its memory never exceeds
    [MAX_TRACKED_KEYS] windows, whatever is asked of it; and as long as fewer
    keys than that have been seen, a key is granted at most twice its limit in
    any stretch of one window's length, and is refused only when its current
    window has been granted its whole limit. *)
Theorem rate_limiter_bounds limit windowSeconds k calls :
  0 < limit → 0 < windowSeconds →
  (length (history limit windowSeconds k calls [] []).1 ≤ MAX_TRACKED_KEYS)%nat ∧
  (∀ keys, (∀ c, c ∈ calls → c.1 ∈ keys) → (length keys < MAX_TRACKED_KEYS)%nat →
     in_order 0 calls →
     ∀ a, granted_in a (a + windowSeconds) (history limit windowSeconds k calls [] []).2 ≤ 2 * limit) ∧
  (∀ key now m, (length m < MAX_TRACKED_KEYS)%nat → (take limit windowSeconds key now m).1 = false →
     (take limit windowSeconds key now m).2 = m ∧
     ∃ w, map_get m key = Some w ∧ now < start w + windowSeconds ∧ limit ≤ count w).
Proof.
  intros Hl Hw. split_and!.
  - apply history_length. cbn. lia.
  - intros keys Hin Hlen Hord a.
    assert (windows_wf limit 0 []) as Hwf by (split_and!; constructor).
    assert (grants_ok limit windowSeconds 0 (map_get [] k) []) as Hg.
    { split_and!; [constructor|intros; unfold granted_in; cbn; lia|done]. }
    assert (∀ x, x ∈ ([] : windows).*1 → x ∈ keys) as Hno by (intros x Hx; by apply not_elem_of_nil in Hx).
    destruct (history_grants limit windowSeconds k keys calls 0 [] [] Hl Hw Hord Hin Hlen Hwf Hno Hg)
      as (now & m & l & -> & _ & Ha & _).
    apply Ha.
  - intros key now m Hm. unfold take. rewrite (proj2 (Nat.leb_gt _ _) Hm).
    destruct (map_get m key) as [w|]; [|done]. unfold expired. destruct (windowSeconds <=? now - start w) eqn:He; [done|].
    destruct (limit <=? count w) eqn:Hc; [|done]. bool_to_prop. intros _. split; [done|]. exists w. split_and!; [done|lia|done].
Qed.

Definition example_calls : list (string * Z) :=
  [("a", 1); ("b", 1); ("a", 850); ("a", 851); ("a", 852); ("a", 853); ("a", 854); ("a", 902); ("a", 903)].
Lemma rate_limiter_bounds_witness :
  (history QUOTE_RATE_LIMIT QUOTE_RATE_WINDOW_SECONDS "a" example_calls [] []).2 = [1; 850; 851; 852; 853; 902; 903] ∧
  granted_in 850 1750 (history QUOTE_RATE_LIMIT QUOTE_RATE_WINDOW_SECONDS "a" example_calls [] []).2
    ≤ 2 * QUOTE_RATE_LIMIT.
Proof.
  split; [vm_compute; reflexivity|].
  apply (proj1 (proj2 (rate_limiter_bounds QUOTE_RATE_LIMIT QUOTE_RATE_WINDOW_SECONDS "a" example_calls
    eq_refl eq_refl)) ["a"; "b"]).
  - intros c Hc. apply list_elem_of_In in Hc. apply list_elem_of_In.
    repeat destruct Hc as [<-|Hc]; cbn; tauto.
  - apply Nat.ltb_lt. vm_compute. reflexivity.
  - cbn. repeat split; lia.
Defined.
