(* ===== verification/Page.v ===== *)
(** * Keyset pages over a swap table

    [packages/solver-core/src/core/page.ts]: cursors, the query every store's
    [page()] runs, and the split of its result; and [page()] of
    [EvmSwapStore] ([packages/solver-corridors-evm/src/db/evmSwapStore.ts]).
    A table is a list of rows with their rowids. SQL's [LIKE] belongs to the
    database: it is the function [like], under the documented rules of the
    class [LikeRules]. *)
From Stdlib Require Import Ascii Sorting.Sorted.
From stdpp Require Import sorting.
From S2P Require Import Prelude JsString StateMachine Prog SwapDb EvmRow Store EvmStore.
#[local] Open Scope Z_scope.

Record Search := mkSearch { term : string; columns : list string }.
Record PageOptions := mkOptions {
  states : option (list string);
  limit_ : option num;
  cursor : option string;
  search : option Search;
  searchTerm : option string;
}.

Definition DEFAULT_PAGE_LIMIT : Z := 50.
Definition MAX_PAGE_LIMIT : Z := 500.
Definition MIN_SEARCH_LENGTH : nat := 3.
Definition LIKE_ESCAPE : ascii := "\"%char.

Definition escapeLike (term : string) : string :=
  let e := String LIKE_ESCAPE EmptyString in
  replaceAll "_" (e +:+ "_") (replaceAll "%" (e +:+ "%") (replaceAll LIKE_ESCAPE (e +:+ e) term)).

Inductive PageError :=
  | NoSearchColumn
  | NotPlainIdentifier (column : string)
  | MalformedCursor (raw : string)
  | BadLimit
  | SearchTooShort.
#[export] Instance PageError_eq_dec : EqDecision PageError.
Proof. solve_decision. Defined.

(** [/^[a-z_][a-z0-9_]*$/] *)
Definition identifier_start (c : ascii) : bool :=
  let n := nat_of_ascii c in (97 <=? n)%nat && (n <=? 122)%nat || (n =? 95)%nat.
Definition identifier_char (c : ascii) : bool :=
  let n := nat_of_ascii c in identifier_start c || (48 <=? n)%nat && (n <=? 57)%nat.
Definition plain_identifier (column : string) : bool :=
  match column with
  | EmptyString => false
  | String c rest => identifier_start c && all_chars identifier_char rest
  end.

Definition assertSearchable (columns : list string) : result PageError unit :=
  match columns with
  | [] => Err NoSearchColumn
  | _ =>
      match list_find (λ c, plain_identifier c = false) columns with
      | Some (_, c) => Err (NotPlainIdentifier c)
      | None => Ok tt
      end
  end.

Record Cursor := mkCursor { createdAt : Z; rowid : Z }.

Definition encodeCursor (c : Cursor) : string :=
  pretty (createdAt c) +:+ String "." (pretty (rowid c)).

Definition decodeCursor (raw : option string) : result PageError (option Cursor) :=
  match raw with
  | None | Some EmptyString => Ok None
  | Some raw =>
      match split "." raw with
      | [a; b] =>
          match integer (Number a), integer (Number b) with
          | Some createdAt, Some rowid => Ok (Some (mkCursor createdAt rowid))
          | _, _ => Err (MalformedCursor raw)
          end
      | _ => Err (MalformedCursor raw)
      end
  end.

Definition clampLimit (limit : option num) : result PageError Z :=
  match limit with
  | None => Ok DEFAULT_PAGE_LIMIT
  | Some n =>
      match integer n with
      | Some limit => if limit <=? 0 then Err BadLimit else Ok (Z.min limit MAX_PAGE_LIMIT)
      | None => Err BadLimit
      end
  end.

(** ** The query

    A clause of the WHERE has its text, its parameters and, below, its meaning. *)

Inductive Clause :=
  | StateIn (states : list string)
  | Before (c : Cursor)
  | AnyLike (columns : list string) (pattern : string).

Definition clause_sql (c : Clause) : string :=
  match c with
  | StateIn states => "state IN (" +:+ join "," ((λ _, "?") <$> states) +:+ ")"
  | Before _ => "(created_at < ? OR (created_at = ? AND rowid < ?))"
  | AnyLike columns _ =>
      "(" +:+ join " OR " ((λ c, c +:+ " LIKE ? ESCAPE '" +:+ String LIKE_ESCAPE "'") <$> columns) +:+ ")"
  end.

Definition clause_params (c : Clause) : list sqlval :=
  match c with
  | StateIn states => VText <$> states
  | Before c => [VInt (createdAt c); VInt (createdAt c); VInt (rowid c)]
  | AnyLike columns pattern => (λ _, VText pattern) <$> columns
  end.

Definition state_clause (options : PageOptions) : list Clause :=
  match states options with
  | None | Some [] => []
  | Some states => [StateIn states]
  end.

Definition search_clause (options : PageOptions) : result PageError (list Clause) :=
  match search options with
  | None => Ok []
  | Some s =>
      let t := trim (term s) in
      if (String.length t <? MIN_SEARCH_LENGTH)%nat then Err SearchTooShort
      else _ ← assertSearchable (columns s); Ok [AnyLike (columns s) ("%" +:+ escapeLike t +:+ "%")]
  end.

Definition cursor_clause (c : option Cursor) : list Clause :=
  match c with Some c => [Before c] | None => [] end.

(** What [pageQuery] returns, with the clauses its text stands for. *)
Record PageQuery := mkQuery { clauses : list Clause; sql : string; params : list sqlval; page_limit : Z }.

Definition query_of (table : string) (clauses : list Clause) (limit : Z) : PageQuery :=
  let where_ := match clauses with [] => "" | _ => "WHERE " +:+ join " AND " (clause_sql <$> clauses) end in
  mkQuery clauses
    ("SELECT *, rowid AS _rowid FROM " +:+ table +:+ " " +:+ where_ +:+
     " ORDER BY created_at DESC, rowid DESC LIMIT ?")
    ((clauses ≫= clause_params) ++ [VInt (limit + 1)]) limit.

Definition pageQuery (table : string) (options : PageOptions) : result PageError PageQuery :=
  limit ← clampLimit (limit_ options);
  c ← decodeCursor (cursor options);
  found ← search_clause options;
  Ok (query_of table (state_clause options ++ cursor_clause c ++ found) limit).

(** ** Its result *)

(** What the query reads of a row. *)
Class Paged (R : Type) := {
  paged_state : R → string;
  paged_created : R → Z;
  paged_text : string → R → option string;   (** a column as text, [None] for [NULL] *)
}.

Section select.
Context {R : Type} `{Paged R} (like : string → string → bool).
#[local] Abbreviation row := (Z * R)%type.

Definition row_cursor (r : row) : Cursor := mkCursor (paged_created r.2) r.1.

Definition cursor_before (a b : Cursor) : bool :=
  (createdAt a <? createdAt b) || (createdAt a =? createdAt b) && (rowid a <? rowid b).

Definition clause_holds (c : Clause) (r : row) : bool :=
  match c with
  | StateIn states => bool_decide (paged_state r.2 ∈ states)
  | Before c => cursor_before (row_cursor r) c
  | AnyLike columns pattern =>
      existsb (λ col, match paged_text col r.2 with Some text => like pattern text | None => false end) columns
  end.

(** [ORDER BY created_at DESC, rowid DESC] *)
Definition page_order (a b : row) : bool := negb (cursor_before (row_cursor a) (row_cursor b)).

Definition run_query (q : PageQuery) (table : list row) : list row :=
  take (Z.to_nat (page_limit q + 1))
    (order_by page_order (filter (λ r, forallb (λ c, clause_holds c r) (clauses q) = true) table)).

Definition takePage (raw : list row) (limit : Z) : list row * option string :=
  let page := take (Z.to_nat limit) raw in
  (page, match last page with
         | Some r => if limit <? Z.of_nat (length raw) then Some (encodeCursor (row_cursor r)) else None
         | None => None
         end).

(** A store's [page()] on one state of its table. *)
Definition page (table : string) (options : PageOptions) (rows : list row)
    : result PageError (list row * option string) :=
  q ← pageQuery table options; Ok (takePage (run_query q rows) (page_limit q)).

Definition with_cursor (options : PageOptions) (c : option string) : PageOptions :=
  mkOptions (states options) (limit_ options) c (search options) (searchTerm options).

(** [EvmSwapStore.page]: the options as they come. *)
Definition evm_page := page.

(** [BaseSwapStore.page]: the store's own columns for a caller's term. *)
Definition base_page (searchColumns : list string) (table : string) (options : PageOptions) (rows : list row)
    : result PageError (list row * option string) :=
  page table
    (mkOptions (states options) (limit_ options) (cursor options)
       (match searchTerm options with
        | None | Some EmptyString => search options
        | Some t => Some (mkSearch t searchColumns)
        end) (searchTerm options)) rows.

(** An operator following the cursors, the table changing in between; [None]
    if the snapshots run out first. *)
Fixpoint follow (table : string) (options : PageOptions) (snapshots : list (list row))
    : result PageError (option (list (list row))) :=
  match snapshots with
  | [] => Ok None
  | rows :: rest =>
      '(got, next) ← page table options rows;
      match next with
      | None => Ok (Some [got])
      | Some c => pages ← follow table (with_cursor options (Some c)) rest; Ok ((λ more, got :: more) <$> (pages : option (list (list row))))
      end
  end.
End select.

(** ** Cursors *)

Definition safe_cursor (c : Cursor) : Prop := Z.abs (createdAt c) < 2 ^ 53 ∧ Z.abs (rowid c) < 2 ^ 53.

(** A cursor means the same position when it comes back: for every
    position a table can have, the text [encodeCursor] hands out decodes to that
    very position. *)
Theorem cursor_roundtrip c : safe_cursor c → decodeCursor (Some (encodeCursor c)) = Ok (Some c).
Proof.
  intros [Ha Hr]. unfold decodeCursor, encodeCursor. destruct (pretty (createdAt c) +:+ _) eqn:He.
  - by destruct (pretty (createdAt c)).
  - rewrite <- He, split_app, split_pretty by apply split_pretty.
    rewrite !Number_pretty by done. by destruct c.
Qed.

Lemma cursor_roundtrip_witness :
  decodeCursor (Some (encodeCursor (mkCursor 1767225600 41))) = Ok (Some (mkCursor 1767225600 41)).
Proof. apply (cursor_roundtrip (mkCursor 1767225600 41)). split; cbn; lia. Defined.

(** ** The order of the pages *)

Lemma cursor_before_lt a b :
  cursor_before a b = true ↔ createdAt a < createdAt b ∨ createdAt a = createdAt b ∧ rowid a < rowid b.
Proof. unfold cursor_before. rewrite orb_true_iff, andb_true_iff, !Z.ltb_lt, Z.eqb_eq. done. Qed.
Lemma cursor_before_irrefl a : cursor_before a a = false.
Proof. apply not_true_iff_false. rewrite cursor_before_lt. lia. Qed.
Lemma cursor_before_trans a b c :
  cursor_before a b = true → cursor_before b c = true → cursor_before a c = true.
Proof. rewrite !cursor_before_lt. lia. Qed.
Lemma cursor_before_asym a b : cursor_before a b = true → cursor_before b a = false.
Proof. rewrite cursor_before_lt. intros H. apply not_true_iff_false. rewrite cursor_before_lt. lia. Qed.
Lemma cursor_before_total a b : cursor_before a b = false → cursor_before b a = false → a = b.
Proof.
  rewrite <- !not_true_iff_false, !cursor_before_lt. destruct a, b; cbn. intros. f_equal; lia.
Qed.

(** Newest first, no two alike. *)
Abbreviation newest_to_oldest := (StronglySorted (λ a b, cursor_before b a = true)).

Lemma filter_all {A} (P : A → Prop) `{∀ x, Decision (P x)} (l : list A) : Forall P l → filter P l = l.
Proof. induction 1; [done|]. rewrite filter_cons_True by done. by f_equal. Qed.

(** In such a list, what is before the last of the first [n] is the rest. *)
Lemma filter_before_last n l k :
  newest_to_oldest l → last (take n l) = Some k →
  filter (λ c, cursor_before c k = true) l = drop n l.
Proof.
  intros Hs Hk. rewrite <- (take_drop n l) in Hs at 1. rewrite <- (take_drop n l) at 1.
  apply last_Some in Hk as [l' Hl']. rewrite Hl' in Hs |- *.
  apply StronglySorted_app in Hs as (Hcross & Hl & _). rewrite filter_app.
  assert (filter (λ c, cursor_before c k = true) (l' ++ [k]) = []) as ->.
  { apply elem_of_nil_inv. intros c [Hc Hin]%list_elem_of_filter.
    apply elem_of_app in Hin as [Hin| ->%list_elem_of_singleton]; [|by rewrite cursor_before_irrefl in Hc].
    apply StronglySorted_app in Hl as (Hl & _). specialize (Hl c k Hin ltac:(by left)). cbn in Hl.
    by rewrite (cursor_before_asym _ _ Hl) in Hc. }
  cbn. apply filter_all. apply Forall_forall. intros c Hc. apply (Hcross k c); [|done].
  apply elem_of_app. right. by left.
Qed.

Section pages.
Context {R : Type} `{Paged R} (like : string → string → bool).
#[local] Abbreviation row := (Z * R)%type.
#[local] Abbreviation clause_holds := (clause_holds like).
Implicit Types (T : list row) (cl : list Clause).

(** The rows the filters of a listing keep, whatever the cursor. *)
Definition listed cl T : list row := filter (λ r, forallb (λ c, clause_holds c r) cl = true) T.
Definition positions T : list Cursor := row_cursor <$> T.

Definition before_opt (c : option Cursor) (k : Cursor) : bool :=
  match c with None => true | Some c => cursor_before k c end.

Lemma page_order_sorted T :
  NoDup (positions T) → newest_to_oldest (positions (order_by page_order T)).
Proof.
  intros Hnd. assert (StronglySorted (λ a b, page_order a b = true) (order_by page_order T)) as Hs.
  { apply order_by_sorted; unfold page_order.
    - intros x y Hxy%negb_false_iff. by rewrite (cursor_before_asym _ _ Hxy).
    - intros x y z Hx%negb_true_iff Hy%negb_true_iff. apply negb_true_iff, not_true_iff_false.
      rewrite <- !not_true_iff_false, !cursor_before_lt in *. lia. }
  assert (NoDup (positions (order_by page_order T))) as Hnd'.
  { unfold positions. by rewrite order_by_perm. }
  revert Hs Hnd'. generalize (order_by page_order T). intros l Hs Hnd'.
  induction Hs as [|x l Hs IH Hx]; [constructor|]. cbn in Hnd'. apply NoDup_cons in Hnd' as [Hni Hnd'].
  cbn. apply SSorted_cons; [by apply IH|]. apply Forall_fmap. rewrite Forall_forall in Hx |- *.
  intros y Hy. cbn. specialize (Hx y Hy). unfold page_order in Hx. apply negb_true_iff in Hx.
  destruct (cursor_before (row_cursor y) (row_cursor x)) eqn:Hyx; [done|]. destruct Hni.
  rewrite (cursor_before_total _ _ Hx Hyx). by apply list_elem_of_fmap_2.
Qed.

Lemma positions_filter c cl T :
  positions (filter (λ r, before_opt c (row_cursor r) = true) (listed cl T)) =
  filter (λ k, before_opt c k = true) (positions (listed cl T)).
Proof.
  induction (listed cl T) as [|r l IH]; [done|]. cbn [positions fmap list_fmap]. rewrite !filter_cons.
  destruct (decide (before_opt c (row_cursor r) = true)); cbn; [by f_equal|done].
Qed.

(** The rows a page is taken from, newest first: those listed before the cursor. *)
Definition ahead cl (c : option Cursor) T : list row :=
  order_by page_order (filter (λ r, before_opt c (row_cursor r) = true) (listed cl T)).

Lemma page_spec table options limit cl c T :
  clampLimit (limit_ options) = Ok limit → decodeCursor (cursor options) = Ok c →
  search_clause options = Ok cl →
  page like table options T =
  Ok (takePage (take (Z.to_nat (limit + 1)) (ahead (state_clause options ++ cl) c T)) limit).
Proof.
  intros Hl Hc Hs. unfold page, pageQuery. rewrite Hl, Hc, Hs. cbn. unfold run_query, ahead, listed. cbn.
  rewrite list_filter_filter. do 4 f_equal. apply list_filter_iff. intros r.
  rewrite !forallb_app, !andb_true_iff. destruct c; cbn; rewrite ?andb_true_r; tauto.
Qed.

(** [T'] is a later state of the table: the listed rows of [T] are still
    listed, and any other is newer than them all. *)
Definition only_newer cl T T' : Prop :=
  ∃ newer, positions (listed cl T') ≡ₚ positions (listed cl T) ++ newer ∧
    ∀ n k, n ∈ newer → k ∈ positions (listed cl T) → cursor_before k n = true.

Definition table_ok T : Prop := NoDup T.*1 ∧ ∀ r, r ∈ T → safe_cursor (row_cursor r).

Lemma positions_NoDup (l : list row) : NoDup l.*1 → NoDup (positions l).
Proof.
  intros Hnd. apply (NoDup_fmap_1 rowid). unfold positions. rewrite <- list_fmap_compose. done.
Qed.

Lemma listed_NoDup cl T : NoDup T.*1 → NoDup (listed cl T).*1.
Proof. intros. eapply sublist_NoDup; [done|]. apply fmap_sublist. unfold listed. apply sublist_filter. Qed.

(** The positions of a page, when the rows ahead of it are at [ahead_keys]. *)
Lemma ahead_positions cl c T keys :
  NoDup T.*1 → newest_to_oldest keys →
  filter (λ k, before_opt c k = true) (positions (listed cl T)) ≡ₚ keys →
  positions (ahead cl c T) = keys.
Proof.
  intros Hnd Hk Hp. eapply (StronglySorted_unique_strong (λ a b, cursor_before b a = true)).
  - intros x y _ _ Hxy Hyx. by rewrite (cursor_before_asym _ _ Hxy) in Hyx.
  - apply page_order_sorted. rewrite positions_filter. apply NoDup_filter, positions_NoDup, listed_NoDup, Hnd.
  - done.
  - unfold ahead, positions. rewrite order_by_perm. fold (positions (filter (λ r, before_opt c (row_cursor r) = true) (listed cl T))).
    by rewrite positions_filter.
Qed.

Lemma only_newer_ahead cl c k T T' keys n :
  newest_to_oldest keys → last (take n keys) = Some k →
  filter (λ j, before_opt c j = true) (positions (listed cl T)) ≡ₚ keys →
  only_newer cl T T' →
  filter (λ j, before_opt (Some k) j = true) (positions (listed cl T')) ≡ₚ drop n keys.
Proof.
  intros Hs Hk Hp (newer & Hnew & Hlt). rewrite Hnew, filter_app.
  assert (k ∈ keys) as Hin.
  { apply last_Some in Hk as [l Hl]. rewrite <- (take_drop n keys), Hl. set_solver. }
  assert (k ∈ filter (λ j, before_opt c j = true) (positions (listed cl T))) as Hk' by by rewrite Hp.
  apply list_elem_of_filter in Hk' as [Hkc HkT].
  assert (filter (λ j, before_opt (Some k) j = true) newer = []) as ->.
  { apply elem_of_nil_inv. intros j [Hj Hjn]%list_elem_of_filter. cbn in Hj.
    by rewrite (cursor_before_asym _ _ (Hlt j k Hjn HkT)) in Hj. }
  rewrite app_nil_r. erewrite <- (filter_before_last n keys k) by done. rewrite <- Hp, list_filter_filter.
  apply reflexive_eq, list_filter_iff. intros j. cbn. split; [|tauto]. intros Hj. split; [done|].
  destruct c as [c|]; [|done]. cbn in *. by eapply cursor_before_trans.
Qed.

(** One page: the first [limit] positions ahead, and a cursor at its last row
    exactly when more are ahead. *)
Lemma takePage_spec cl c T limit :
  0 < limit →
  let l := ahead cl c T in
  takePage (take (Z.to_nat (limit + 1)) l) limit =
  (take (Z.to_nat limit) l,
   if limit <? Z.of_nat (length l)
   then r ← last (take (Z.to_nat limit) l); Some (encodeCursor (row_cursor r)) else None).
Proof.
  intros Hl l. unfold takePage. rewrite take_take, Nat.min_l by lia. f_equal.
  rewrite length_take. destruct (limit <? Z.of_nat (length l)) eqn:Hlen; bool_to_prop.
  - destruct (last _); [|done]. cbn. by rewrite (proj2 (Z.ltb_lt _ _)) by lia.
  - destruct (last _); [|done]. by rewrite (proj2 (Z.ltb_ge _ _)) by lia.
Qed.

(** The induction over the pages: [keys] are the positions still ahead. *)
Lemma follow_ahead table limit cl : 0 < limit → ∀ snapshots options c keys,
  clampLimit (limit_ options) = Ok limit → decodeCursor (cursor options) = Ok c →
  search_clause options = Ok cl →
  let all := state_clause options ++ cl in
  Sorted (only_newer all) snapshots → Forall table_ok snapshots →
  newest_to_oldest keys →
  (∀ T, head snapshots = Some T → filter (λ k, before_opt c k = true) (positions (listed all T)) ≡ₚ keys) →
  snapshots ≠ [] → Z.of_nat (length keys) ≤ limit * Z.of_nat (length snapshots) →
  ∃ pages, follow like table options snapshots = Ok (Some pages) ∧
    positions (concat pages) = keys ∧ Forall (λ p, Z.of_nat (length p) ≤ limit) pages.
Proof.
  intros Hlim. induction snapshots as [|T rest IH]; intros options c keys Hl Hc Hs all Hsorted Hok Hk Hp Hne Hlen;
    [done|].
  specialize (Hp T eq_refl). apply Forall_cons in Hok as [HT Hok].
  pose proof (ahead_positions all c T keys (proj1 HT) Hk Hp) as Hpos.
  assert (length (ahead all c T) = length keys) as Hlk.
  { rewrite <- Hpos. symmetry. apply length_fmap. }
  cbn [follow]. rewrite (page_spec table options limit cl c T Hl Hc Hs).
  fold all. rewrite takePage_spec by done. cbn zeta. rewrite Hlk. cbn [mbind result_bind].
  destruct (limit <? Z.of_nat (length keys)) eqn:Hmore; bool_to_prop.
  - destruct (last (take (Z.to_nat limit) (ahead all c T))) as [r|] eqn:Hlast; cbn.
    2: { apply last_None in Hlast. apply (f_equal length) in Hlast. rewrite length_take in Hlast. cbn in Hlast. lia. }
    assert (last (take (Z.to_nat limit) keys) = Some (row_cursor r)) as Hlk'.
    { rewrite <- Hpos. unfold positions. by rewrite <- fmap_take, fmap_last, Hlast. }
    assert (safe_cursor (row_cursor r)) as Hsafe.
    { apply HT. apply last_Some in Hlast as [l' Hl'].
      assert (r ∈ ahead all c T) as Hr.
      { rewrite <- (take_drop (Z.to_nat limit) (ahead all c T)), Hl'. set_solver. }
      unfold ahead in Hr. rewrite elem_of_order_by in Hr. unfold listed in Hr.
      by apply list_elem_of_filter in Hr as [_ [_ Hr]%list_elem_of_filter]. }
    destruct rest as [|T' rest].
    { exfalso. cbn in Hlen. lia. }
    edestruct (IH (with_cursor options (Some (encodeCursor (row_cursor r)))) (Some (row_cursor r))
      (drop (Z.to_nat limit) keys)) as (pages & Hf & Hcat & Hsz).
    + done.
    + by apply cursor_roundtrip.
    + done.
    + by inversion Hsorted.
    + done.
    + by eapply StronglySorted_app_1_r; rewrite take_drop.
    + intros ? [= <-]. eapply only_newer_ahead; [done..|]. inversion Hsorted as [|? ? _ Hhd]; subst.
      by inversion Hhd.
    + done.
    + rewrite length_drop. cbn [length] in Hlen |- *. lia.
    + rewrite Hf. eexists. split; [reflexivity|]. split.
      * cbn [concat]. unfold positions in *. rewrite fmap_app, Hcat, fmap_take, Hpos. apply take_drop.
      * constructor; [rewrite length_take; lia|done].
  - eexists. split; [reflexivity|]. split.
    + cbn. rewrite app_nil_r, take_ge by lia. done.
    + constructor; [rewrite length_take; lia|constructor].
Qed.
End pages.

(** Paging neither skips nor repeats: an operator who follows the cursors
    of a listing — by states, by a search, or of everything — while newer rows
    are being written gets every row that matched when the first page was
    read, once each, newest first, in pages within the limit, and is told
    where the listing ends; enough requests to hold the rows are enough to
    finish. *)
Theorem pages_enumerate_once {R} `{Paged R} like table options limit cl rows later :
  clampLimit (limit_ options) = Ok limit → cursor options = None → search_clause options = Ok cl →
  let all := state_clause options ++ cl in
  Sorted (only_newer like all) (rows :: later) → Forall table_ok (rows :: later) →
  Z.of_nat (length (listed like all rows)) ≤ limit * Z.of_nat (length (rows :: later)) →
  ∃ pages, follow like table options (rows :: later) = Ok (Some pages) ∧
    positions (concat pages) ≡ₚ positions (listed like all rows) ∧
    newest_to_oldest (positions (concat pages)) ∧
    Forall (λ p, Z.of_nat (length p) ≤ limit) pages.
Proof.
  intros Hl Hc Hs all Hsorted Hok Hlen.
  assert (0 < limit) as Hlim.
  { unfold clampLimit in Hl. split_cases Hl; bool_to_prop; unfold DEFAULT_PAGE_LIMIT, MAX_PAGE_LIMIT; lia. }
  pose proof (proj1 (Forall_cons _ _ _) Hok) as [[Hnd _] _].
  set (keys := positions (order_by page_order (listed like all rows))).
  assert (keys ≡ₚ positions (listed like all rows)) as Hkeys by (unfold keys, positions; by rewrite order_by_perm).
  assert (newest_to_oldest keys) as Hk by by apply page_order_sorted, positions_NoDup, listed_NoDup.
  destruct (follow_ahead like table limit cl Hlim (rows :: later) options None keys) as (pages & Hf & Hcat & Hsz);
    [done|by rewrite Hc|done|done|done|done| |done| |].
  - intros ? [= <-]. rewrite filter_all by by apply Forall_forall. done.
  - rewrite Hkeys. unfold positions. by rewrite length_fmap.
  - exists pages. rewrite Hcat. by split_and!.
Qed.

(** ** The EVM swap tables *)

(** The columns [EvmSwapStore.insert] writes for a quote. *)
Class QuoteFields (Q : Type) := quote_fields : Q → fields.

Definition insert_values (q : CommonQuote) : fields :=
  [("payment_hash", Some (VText (paymentHash q))); ("amount_sats", Some (VInt (amountSats q)));
   ("payout_sats", Some (VInt (payoutSats q))); ("evm_amount", Some (VText (evmAmount q)));
   ("token_address", Some (VText (tokenAddress q)));
   ("evm_contract_address", Some (VText (evmContractAddress q)));
   ("evm_chain_id", Some (VInt (evmChainId q))); ("evm_timeout", Some (VInt (evmTimeout q)));
   ("valid_until", Some (VInt (validUntil q))); ("min_confirmations", Some (VInt (minConfirmations q)));
   ("min_age_seconds", Some (VInt (minAgeSeconds q)));
   ("evm_claim_address", Some (VText (evmClaimAddress q)));
   ("evm_refund_address", Some (VText (evmRefundAddress q)));
   ("refund_locktime", Some (VInt (refundLocktime q)));
   ("provider_pubkey", Some (VText (providerPubkey q))); ("server_pubkey", Some (VText (serverPubkey q)));
   ("claim_delay", Some (VInt (claimDelay q))); ("refund_delay", Some (VInt (refundDelay q)));
   ("refund_without_receiver_delay", Some (VInt (refundWithoutReceiverDelay q)));
   ("pk_script", Some (VText (pkScript q))); ("lockup_address", Some (VText (lockupAddress q)));
   ("refund_pk_script", Some (VText (refundPkScript q)));
   ("emulator_pubkey", Some (VText (emulatorPubkey q)));
   ("client_refund_pubkey", Some (VText (clientRefundPubkey q)));
   ("receiver_pk_script", Some (VText (receiverPkScript q)));
   ("non_interactive_parameters", if nonInteractiveParameters q then Some (VText "1") else None);
   ("rfq_id", VText <$> rfqId q)].
Definition insertQuote_values (q : EvmReceiveQuote) : fields :=
  insert_values (receive_common q) ++ [("payout_pubkey", Some (VText (payoutPubkey q)))].
#[export] Instance CommonQuote_fields : QuoteFields CommonQuote := insert_values.
#[export] Instance EvmReceiveQuote_fields : QuoteFields EvmReceiveQuote := insertQuote_values.

Section evm_tables.
Context {S Q : Type} `{EqDecision S, EvmQuote Q, SwapShape S, QuoteFields Q}.
Implicit Types (d : Db S Q).

#[export] Instance swap_row_paged : Paged (Row S Q) := {
  paged_state r := state_name (state r);
  paged_created := created_at;
  paged_text column r :=
    if decide (column = "id") then Some (row_id r)
    else if decide (column = "state") then Some (state_name (state r))
    else if decide (column = "created_at") then Some (pretty (created_at r))
    else if decide (column = "updated_at") then Some (pretty (updated_at r))
    else match list_find (λ f, f.1 = column) (quote_fields (quote r)) with
         | Some (_, (_, v)) => v ≫= value_text
         | None => text_col r column
         end;
}.

(** Rowids are handed out in order, and no statement of the stores deletes. *)
Definition numbered d : list (Z * Row S Q) := imap (λ n r, (Z.of_nat n + 1, r)) (rows d).

Lemma numbered_positions d :
  positions (numbered d) = imap (λ n r, mkCursor (created_at r) (Z.of_nat n + 1)) (rows d).
Proof. unfold positions, numbered. rewrite fmap_imap. done. Qed.

Lemma positions_updated test f d ev :
  (∀ r, created_at (f r) = created_at r) →
  positions (numbered (mkDb (updated test f <$> rows d) ev)) = positions (numbered d).
Proof.
  intros Hf. rewrite !numbered_positions. cbn [rows]. rewrite imap_fmap. apply imap_ext. intros n r _. cbn.
  unfold updated. case_match; [by rewrite Hf|done].
Qed.

(** The row a statement may add. *)
Definition inserts (s : stmt S Q) : option (Row S Q) :=
  match s with InsertRow r | InsertUnless _ r => Some r | _ => None end.

(** Whatever a store writes, with a clock that does not go back, every row that
    was there stays where it was and a new one is newer than all of them. *)
Lemma exec_only_newer like refused s d :
  (∀ r r', inserts s = Some r → r' ∈ rows d → created_at r' ≤ created_at r) →
  only_newer like [] (numbered d) (numbered (exec refused s d).2).
Proof.
  intros Hclock. unfold only_newer, listed.
  assert (∀ T : list (Z * Row S Q), filter (λ r, forallb (λ c, clause_holds like c r) [] = true) T = T) as Hall
    by (intros; by apply filter_all, Forall_forall).
  rewrite !Hall.
  assert (∀ test f, (∀ r, row_id (f r) = row_id r) → (∀ r, created_at (f r) = created_at r) →
    ∃ newer, positions (numbered (update_where refused test f d).2) ≡ₚ positions (numbered d) ++ newer ∧
      (∀ n k, n ∈ newer → k ∈ positions (numbered d) → cursor_before k n = true)) as Hup.
  { intros test f Hi Hc. exists []. rewrite app_nil_r. split; [|by intros ? ? ?%not_elem_of_nil].
    destruct (update_where refused test f d) as [n d'] eqn:He.
    destruct (update_where_spec refused test f d n d' Hi He) as [(k & _ & Hr & _)|[_ ->]]; [|done]. cbn.
    destruct d' as [l ev]. cbn in Hr. subst l. by rewrite positions_updated. }
  assert (∃ newer, positions (numbered d) ≡ₚ positions (numbered d) ++ newer ∧
      (∀ n k, n ∈ newer → k ∈ positions (numbered d) → cursor_before k n = true)) as Hsame
    by (exists []; rewrite app_nil_r; split; [done|by intros ? ? ?%not_elem_of_nil]).
  assert (∀ r, inserts s = Some r → ∃ newer, positions (numbered (insert_row refused r d).2) ≡ₚ positions (numbered d) ++ newer ∧
      (∀ n k, n ∈ newer → k ∈ positions (numbered d) → cursor_before k n = true)) as Hins.
  { intros r Hr. unfold insert_row. repeat case_match; cbn [snd]; try exact Hsame.
    exists [mkCursor (created_at r) (Z.of_nat (length (rows d)) + 1)]. rewrite !numbered_positions. cbn [rows].
    rewrite imap_app. split; [cbn; by rewrite Nat.add_0_r|].
    intros n k ->%list_elem_of_singleton Hk. apply elem_of_lookup_imap in Hk as (i & r' & -> & Hr').
    apply cursor_before_lt. cbn. pose proof (Hclock r r' Hr (list_elem_of_lookup_2 _ _ _ Hr')).
    apply lookup_lt_Some in Hr'. lia. }
  destruct s; cbn [exec]; try (by apply Hup); [by apply Hins| |exact Hsame].
  case_match; [exact Hsame|by apply Hins].
Qed.
End evm_tables.

(** ** What a search finds *)

Definition like_special (c : ascii) : bool :=
  bool_decide (c = "%"%char) || bool_decide (c = "_"%char) || bool_decide (c = LIKE_ESCAPE).

(** [LIKE ... ESCAPE '\'], as databases document it: [%] matches any run of
    characters, an escaped special character matches itself, any other
    character matches those the collation holds the [same]. *)
Class LikeRules (like : string → string → bool) (same : ascii → ascii → bool) := {
  like_end t : like EmptyString t = bool_decide (t = EmptyString);
  like_any p t : like (String "%" p) t =
    match t with EmptyString => like p EmptyString | String _ rest => like p t || like (String "%" p) rest end;
  like_escaped c p t : like_special c = true → like (String LIKE_ESCAPE (String c p)) t =
    match t with EmptyString => false | String d rest => same c d && like p rest end;
  like_char c p t : like_special c = false → like (String c p) t =
    match t with EmptyString => false | String d rest => same c d && like p rest end;
}.

Fixpoint starts (same : ascii → ascii → bool) (term text : string) : bool :=
  match term, text with
  | EmptyString, _ => true
  | String c term, String d text => same c d && starts same term text
  | _, EmptyString => false
  end.

(** The term occurs in the text. *)
Definition occurs (same : ascii → ascii → bool) (term text : string) : Prop :=
  ∃ before rest, text = before +:+ rest ∧ starts same term rest = true.

Lemma replaceAll_app c by_ s t : replaceAll c by_ (s +:+ t) = replaceAll c by_ s +:+ replaceAll c by_ t.
Proof.
  induction s as [|d s IH]; [done|]. change (String d s +:+ t) with (String d (s +:+ t)). cbn [replaceAll].
  case_decide; rewrite IH; [|done]. by rewrite append_assoc.
Qed.

Lemma escapeLike_cons c s :
  escapeLike (String c s) =
    if like_special c then String LIKE_ESCAPE (String c (escapeLike s)) else String c (escapeLike s).
Proof.
  unfold escapeLike, like_special. set (e := String LIKE_ESCAPE EmptyString).
  assert (∀ by_ u, replaceAll c by_ (String c u) = by_ +:+ replaceAll c by_ u) as Hhit
    by (intros; cbn [replaceAll]; by rewrite decide_True).
  assert (∀ c' d by_ u, d ≠ c' → replaceAll c' by_ (String d u) = String d (replaceAll c' by_ u)) as Hmiss
    by (intros; cbn [replaceAll]; by rewrite decide_False).
  destruct (decide (c = LIKE_ESCAPE)) as [->|Hne].
  { rewrite Hhit, !replaceAll_app. rewrite (bool_decide_true (LIKE_ESCAPE = LIKE_ESCAPE)), orb_true_r by done.
    reflexivity. }
  rewrite (Hmiss LIKE_ESCAPE) by done. rewrite (bool_decide_false (c = LIKE_ESCAPE)), orb_false_r by done.
  destruct (decide (c = "%"%char)) as [->|Hp].
  { rewrite Hhit, replaceAll_app. reflexivity. }
  rewrite (Hmiss "%"%char) by done. rewrite (bool_decide_false (c = "%"%char)) by done. cbn [orb].
  case_bool_decide as Hu; [subst; by rewrite Hhit|]. by rewrite Hmiss.
Qed.

Section search.
Context {R : Type} `{Paged R} (like : string → string → bool) (same : ascii → ascii → bool).
Context `{!LikeRules like same}.

Lemma like_anything t : like "%" t = true.
Proof.
  induction t as [|c t IH]; rewrite like_any; [by rewrite like_end|]. by rewrite IH, orb_true_r.
Qed.

Lemma like_starts term text : like (escapeLike term +:+ "%") text = starts same term text.
Proof.
  revert text. induction term as [|c term IH]; intros text; [by rewrite like_anything|].
  rewrite escapeLike_cons. destruct (like_special c) eqn:Hc.
  - change (String LIKE_ESCAPE (String c (escapeLike term)) +:+ "%")
      with (String LIKE_ESCAPE (String c (escapeLike term +:+ "%"))).
    rewrite like_escaped by done. destruct text; [done|]. by rewrite IH.
  - change (String c (escapeLike term) +:+ "%") with (String c (escapeLike term +:+ "%")).
    rewrite like_char by done. destruct text; [done|]. by rewrite IH.
Qed.

Lemma like_occurs term text :
  like ("%" +:+ escapeLike term +:+ "%") text = true ↔ occurs same term text.
Proof.
  change ("%" +:+ escapeLike term +:+ "%") with (String "%" (escapeLike term +:+ "%")).
  unfold occurs. induction text as [|c text IH]; rewrite like_any.
  - rewrite like_starts. split; [by exists "", ""|]. by intros ([|] & [|] & [= ] & Hs).
  - rewrite orb_true_iff, like_starts, IH. split.
    + intros [Hs|(b & r & -> & Hs)]; [by exists "", (String c text)|by exists (String c b), r].
    + intros ([|d b] & r & He & Hs); [left|right].
      * change (String c text = r) in He. by subst.
      * change (String c text = String d (b +:+ r)) in He. simplify_eq. eauto.
Qed.

(** A listing shows what was asked for: when [pageQuery] accepts the
    options, a row meets its WHERE exactly when it is in one of the states
    named, if any are; is older than the cursor, if there is one; and, for a
    search, holds the trimmed term literally — wildcards and escapes in it are
    plain characters — in one of the columns searched, which are at least
    one, every one a bare identifier, the term at least three characters. *)
Theorem listing_is_what_was_asked table options q r :
  pageQuery table options = Ok q →
  forallb (λ c, clause_holds like c r) (clauses q) = true ↔
  match states options with None | Some [] => True | Some s => paged_state r.2 ∈ s end ∧
  (∀ c, decodeCursor (cursor options) = Ok (Some c) → cursor_before (row_cursor r) c = true) ∧
  match search options with
  | None => True
  | Some s =>
      (MIN_SEARCH_LENGTH ≤ String.length (trim (term s)))%nat ∧ columns s ≠ [] ∧
      (∀ col, col ∈ columns s → plain_identifier col = true) ∧
      ∃ col text, col ∈ columns s ∧ paged_text col r.2 = Some text ∧ occurs same (trim (term s)) text
  end.
Proof.
  unfold pageQuery. intros Hq. apply bind_Ok in Hq as (limit & _ & Hq).
  apply bind_Ok in Hq as (c & Hc & Hq). apply bind_Ok in Hq as (found & Hf & [= <-]). cbn [clauses query_of].
  rewrite !forallb_app, !andb_true_iff, Hc.   assert (∀ A A' B B' : Prop, (A ↔ A') → (B ↔ B') → A ∧ B ↔ A' ∧ B') as Hboth by tauto.
  apply Hboth; [|apply Hboth].
  - unfold state_clause. destruct (states options) as [[|x l]|]; cbn; [done| |done].
    by rewrite andb_true_r, bool_decide_eq_true.
  - destruct c; cbn; [rewrite andb_true_r|]; naive_solver.
  - unfold search_clause in Hf. destruct (search options) as [s|]; [|by simplify_eq].
    destruct (String.length (trim (term s)) <? MIN_SEARCH_LENGTH)%nat eqn:Hlen; [done|].
    apply Nat.ltb_ge in Hlen. apply bind_Ok in Hf as ([] & Hcols & [= <-]). unfold assertSearchable in Hcols.
    destruct (columns s) as [|x l]; [done|]. destruct (list_find _ _) as [[]|] eqn:Hfind; [done|].
    apply list_find_None in Hfind. rewrite Forall_forall in Hfind. cbn [forallb clause_holds].
    rewrite andb_true_r, existsb_exists. setoid_rewrite <- list_elem_of_In. split.
    + intros (col & Hin & Hl). split_and!; [done|done|by intros col' Hin'; apply not_false_iff_true, Hfind|].
      destruct (paged_text col r.2) as [text|] eqn:Ht; [|done]. exists col, text. by rewrite <- like_occurs.
    + intros (_ & _ & _ & col & text & Hin & Ht & Ho). exists col. rewrite Ht. by rewrite like_occurs.
Qed.
End search.

(** ** The text of the query *)

Fixpoint placeholders (s : string) : nat :=
  match s with
  | EmptyString => 0
  | String c rest => (if decide (c = "?"%char) then 1 else 0) + placeholders rest
  end.

Lemma placeholders_app s t : placeholders (s +:+ t) = (placeholders s + placeholders t)%nat.
Proof.
  induction s as [|c s IH]; [done|]. change (String c s +:+ t) with (String c (s +:+ t)).
  cbn [placeholders]. lia.
Qed.

Lemma placeholders_join sep parts :
  placeholders sep = 0%nat → placeholders (join sep parts) = sum_list (placeholders <$> parts).
Proof.
  intros Hs. induction parts as [|p [|p' parts] IH]; [done|cbn; lia|].
  change (join sep (p :: p' :: parts)) with (p +:+ sep +:+ join sep (p' :: parts)).
  rewrite !placeholders_app, IH, Hs. done.
Qed.

Lemma placeholders_identifier c : plain_identifier c = true → placeholders c = 0%nat.
Proof.
  assert (∀ d, identifier_char d = true → d ≠ "?"%char) as Hne by (intros ? Hd ->; discriminate Hd).
  assert (∀ s, all_chars identifier_char s = true → placeholders s = 0%nat) as Hall.
  { induction s as [|d s IH]; cbn; [done|]. intros [Hd Hs]%andb_true_iff.
    rewrite decide_False by by apply Hne. by apply IH. }
  destruct c as [|d s]; [done|]. cbn. intros [Hd Hs]%andb_true_iff.
  rewrite decide_False, (Hall s Hs); [done|]. apply Hne. unfold identifier_char. by rewrite Hd.
Qed.

Lemma sum_list_const {A} (f : A → nat) n l : Forall (λ x, f x = n) l → sum_list (f <$> l) = (n * length l)%nat.
Proof. induction 1; cbn; lia. Qed.

(** Count the placeholders of the constant pieces of a text. *)
Ltac count_placeholders :=
  rewrite ?placeholders_app;
  repeat match goal with |- context [placeholders ?s] =>
    let n := eval vm_compute in (placeholders s) in
    lazymatch n with 0%nat => idtac | S _ => idtac end; change (placeholders s) with n
  end.

Lemma marks_fmap {A} (l l' : list A) :
  length l = length l' → (λ _, "?") <$> l = (λ _, "?") <$> l'.
Proof.
  revert l'. induction l as [|x l IH]; intros [|x' l'] Hlen; cbn in Hlen; [done|lia|lia|].
  cbn. f_equal. apply IH. lia.
Qed.

(** Every clause has a placeholder for each of its parameters. *)
Lemma clause_placeholders c :
  match c with AnyLike columns _ => Forall (λ col, plain_identifier col = true) columns | _ => True end →
  placeholders (clause_sql c) = length (clause_params c).
Proof.
  destruct c as [l|c|columns pattern]; cbn [clause_sql clause_params]; intros Hc; [|done|].
  - rewrite !placeholders_app, placeholders_join by done. rewrite <- list_fmap_compose, length_fmap.
    rewrite (sum_list_const _ 1) by by apply Forall_forall. count_placeholders. lia.
  - rewrite !placeholders_app, placeholders_join by done. rewrite <- list_fmap_compose, length_fmap.
    rewrite (sum_list_const _ 1); [count_placeholders; lia|]. eapply Forall_impl; [exact Hc|]. intros col Hcol. cbn.
    rewrite placeholders_app, placeholders_identifier by done. by count_placeholders.
Qed.

(** The part of the options the text of the query may depend on. *)
Definition shape (options : PageOptions) (c : option Cursor) : nat * bool * option (list string) :=
  (length (default [] (states options)), bool_decide (is_Some c), columns <$> search options).

(** Nothing a caller sends reaches the SQL: for a table name without a
    placeholder in it, the text of an accepted query has exactly one
    placeholder per parameter, and two accepted requests that name as many
    states, both have a cursor or neither, and search the same columns get the
    same text, whatever their states, cursors, terms and limits are. *)
Theorem query_is_parameterised table options q :
  placeholders table = 0%nat → pageQuery table options = Ok q →
  placeholders (sql q) = length (params q) ∧
  ∀ options' q' c c',
    decodeCursor (cursor options) = Ok c → decodeCursor (cursor options') = Ok c' →
    pageQuery table options' = Ok q' → shape options c = shape options' c' → sql q = sql q'.
Proof.
  intros Htable. unfold pageQuery. intros Hq. apply bind_Ok in Hq as (limit & _ & Hq).
  apply bind_Ok in Hq as (c & Hc & Hq). apply bind_Ok in Hq as (found & Hf & [= <-]). split.
  - cbn [sql params query_of]. rewrite !placeholders_app, Htable.
    set (cs := state_clause options ++ cursor_clause c ++ found).
    assert (Forall (λ k, placeholders (clause_sql k) = length (clause_params k)) cs) as Hall.
    { apply Forall_app; split; [|apply Forall_app; split].
      - unfold state_clause. destruct (states options) as [[]|]; repeat constructor. by apply clause_placeholders.
      - destruct c; repeat constructor.
      - unfold search_clause in Hf. destruct (search options) as [s|]; [|by simplify_eq].
        destruct (_ <? _)%nat; [done|]. apply bind_Ok in Hf as ([] & Hcols & [= <-]).
        repeat constructor. apply clause_placeholders. unfold assertSearchable in Hcols.
        destruct (columns s) as [|x l]; [done|]. destruct (list_find _ _) as [[]|] eqn:Hfind; [done|].
        apply list_find_None in Hfind. eapply Forall_impl; [exact Hfind|]. cbn.
        intros col Hcol. by apply not_false_iff_true. }
    assert (sum_list (placeholders <$> (clause_sql <$> cs)) = length (cs ≫= clause_params)) as Hsum.
    { induction Hall as [|k l Hk _ IH]; [done|]. cbn. rewrite length_app. cbn in IH. lia. }
    rewrite length_app, <- Hsum. destruct cs as [|k l]; [done|].
    rewrite placeholders_app, placeholders_join by done. cbn [length]. count_placeholders. lia.
  - intros options' q' c0 c' Hc0 Hc' Hq' Hshape. rewrite Hc in Hc0. injection Hc0 as <-.
    apply bind_Ok in Hq' as (limit' & _ & Hq'). apply bind_Ok in Hq' as (c1 & Hc1 & Hq').
    rewrite Hc' in Hc1. injection Hc1 as <-. apply bind_Ok in Hq' as (found' & Hf' & [= <-]). cbn [sql query_of].
    unfold shape in Hshape. injection Hshape as Hstates Hcur Hsearch.
    assert (clause_sql <$> (state_clause options ++ cursor_clause c ++ found) =
            clause_sql <$> (state_clause options' ++ cursor_clause c' ++ found')) as Hsql.
    { rewrite !fmap_app. f_equal; [|f_equal].
      - unfold state_clause. destruct (states options) as [[|x l]|], (states options') as [[|x' l']|];
          cbn in Hstates; try lia; try done. cbn [fmap list_fmap clause_sql]. do 4 f_equal.
        by apply (marks_fmap (x :: l) (x' :: l')).
      - destruct c, c'; repeat case_bool_decide; done || naive_solver.
      - unfold search_clause in Hf, Hf'.
        destruct (search options) as [s|], (search options') as [s'|]; try done; [|by simplify_eq].
        cbn in Hsearch. injection Hsearch as Hcols.
        destruct (_ <? _)%nat; [done|]. destruct (_ <? _)%nat; [done|].
        apply bind_Ok in Hf as (_ & _ & [= <-]). apply bind_Ok in Hf' as (_ & _ & [= <-]). cbn. by rewrite Hcols. }
    destruct (state_clause options ++ _) as [|k l], (state_clause options' ++ _) as [|k' l']; try done.
    by rewrite Hsql.
Qed.

(** ** Examples *)

(** A [LIKE] that follows the rules, up to the case of letters. *)
Definition same_letter (c d : ascii) : bool := bool_decide (lower_char c = lower_char d).
Fixpoint example_like (p t : string) : bool :=
  match p with
  | EmptyString => bool_decide (t = EmptyString)
  | String c p' =>
      if decide (c = "%"%char) then
        (fix any t := match t with EmptyString => example_like p' EmptyString
                                 | String _ rest => example_like p' t || any rest end) t
      else if decide (c = LIKE_ESCAPE) then
        match p', t with
        | String e p'', String d rest => same_letter e d && example_like p'' rest
        | _, _ => false
        end
      else match t with
           | String d rest => (bool_decide (c = "_"%char) || same_letter c d) && example_like p' rest
           | EmptyString => false
           end
  end.

#[export] Instance example_like_rules : LikeRules example_like same_letter.
Proof.
  split; [done|by intros p [|c t]| |].
  - intros c p t Hc. cbn [example_like]. rewrite decide_False, decide_True by done. done.
  - intros c p t Hc. unfold like_special in Hc. bool_to_prop.
    repeat match goal with H : bool_decide _ = false |- _ => apply bool_decide_eq_false in H end.
    cbn [example_like]. rewrite !decide_False by done. by rewrite (bool_decide_false (c = _)).
Qed.

(** Three refused swaps, two of them quoted in one second, then a fourth. *)
Definition example_swap (i : string) (at_ : Z) : EvmSendRow :=
  mkRow i EvmSend.refused at_ at_ example_quote ∅.
Definition example_then : EvmSendDb :=
  mkDb [example_swap "a" 10; example_swap "b" 10; example_swap "c" 11] [].
Definition example_now : EvmSendDb :=
  mkDb (rows example_then ++ [example_swap "d" 12]) [].
Definition by_two : PageOptions := mkOptions None (Some (of_Z 2)) None None None.

Example pages_of_two :
  follow (λ _ _, false) "send_evm_swap" by_two [numbered example_then; numbered example_now] =
  Ok (Some [[(3, example_swap "c" 11); (2, example_swap "b" 10)]; [(1, example_swap "a" 10)]]).
Proof. vm_compute. reflexivity. Qed.

Lemma numbered_ok {S Q} `{SwapShape S, QuoteFields Q} (d : Db S Q) :
  Z.of_nat (length (rows d)) < 2 ^ 53 → Forall (λ r, Z.abs (created_at r) < 2 ^ 53) (rows d) →
  table_ok (numbered d).
Proof.
  intros Hlen Hat. split.
  - unfold numbered. rewrite fmap_imap. apply NoDup_alt. intros i j k Hi Hj.
    apply list_lookup_imap_Some in Hi as (? & _ & ->), Hj as (? & _ & Hj). cbn in *. lia.
  - intros r Hr. apply elem_of_lookup_imap in Hr as (i & x & -> & Hx). split; cbn.
    + rewrite Forall_forall in Hat. apply Hat. by eapply list_elem_of_lookup_2.
    + apply lookup_lt_Some in Hx. lia.
Qed.

Lemma pages_enumerate_once_witness :
  ∃ pages, follow (λ _ _, false) "send_evm_swap" by_two [numbered example_then; numbered example_now] = Ok (Some pages) ∧
    positions (concat pages) ≡ₚ positions (listed (λ _ _, false) [] (numbered example_then)) ∧
    newest_to_oldest (positions (concat pages)) ∧
    Forall (λ p, Z.of_nat (length p) ≤ 2) pages.
Proof.
  apply (pages_enumerate_once (λ _ _, false) "send_evm_swap" by_two 2 [] (numbered example_then)
    [numbered example_now]); [reflexivity..| | |vm_compute; discriminate].
  - apply Sorted_cons; [by repeat constructor|]. constructor.
    change (numbered example_now) with (numbered (exec EvmSend.refused
      (InsertRow (example_swap "d" 12)) example_then).2).
    apply exec_only_newer. intros r r' [= <-] Hr'.
    cbn in Hr'. rewrite !elem_of_cons in Hr'. destruct Hr' as [->|[->|[->|[]%not_elem_of_nil]]]; cbn; lia.
  - apply Forall_cons; split; [|apply Forall_singleton];
      (apply numbered_ok; [reflexivity|repeat constructor]).
Defined.

Definition example_search : PageOptions :=
  mkOptions (Some ["quoted"; "refused"]) None None (Some (mkSearch " 100%_ok " ["pk_script"; "rfq_id"])) None.
Definition example_found (q : option string) : Z * EvmSendRow :=
  (7, mkRow "x" EvmSend.quoted 10 10 example_quote
     (match q with Some q => <["failure_reason" := VText q]> ∅ | None => ∅ end)).

Lemma listing_is_what_was_asked_witness :
  ∃ q, pageQuery "send_evm_swap" example_search = Ok q ∧
    forallb (λ c, clause_holds example_like c (example_found None)) (clauses q) = false.
Proof.
  eexists. split; [reflexivity|]. apply not_true_iff_false.
  rewrite (listing_is_what_was_asked example_like same_letter "send_evm_swap" example_search _ _ eq_refl).
  intros (_ & _ & _ & _ & _ & col & text & Hin & Ht & before & rest & He & Hs).
  assert (occurs same_letter "100%_ok" text) as Ho by (by exists before, rest). clear before rest He Hs.
  apply (like_occurs example_like same_letter) in Ho. cbn in Hin. rewrite !elem_of_cons in Hin.
  destruct Hin as [->|[->|[]%not_elem_of_nil]]; vm_compute in Ht; simplify_eq; vm_compute in Ho; discriminate.
Defined.

Lemma query_is_parameterised_witness :
  ∃ q, pageQuery "send_evm_swap" example_search = Ok q ∧ placeholders (sql q) = length (params q) ∧
    length (params q) = 5%nat.
Proof.
  eexists. split; [reflexivity|].
  pose proof (query_is_parameterised "send_evm_swap" example_search _ eq_refl eq_refl) as [H _].
  split; [exact H|reflexivity].
Defined.

(** [EvmSwapStore.page] does not know a [searchTerm]; [BaseSwapStore.page] does. *)
Example evm_page_ignores_the_term :
  let options := mkOptions None None None None (Some "no such swap") in
  evm_page example_like "send_evm_swap" options (numbered example_then) =
    evm_page example_like "send_evm_swap" (mkOptions None None None None None) (numbered example_then) ∧
  base_page example_like ["pk_script"] "send_evm_swap" options (numbered example_then) = Ok ([], None).
Proof. vm_compute. by split. Qed.
