(* ===== verification/Quote.v ===== *)
(** * What every quote does

    The parts of [quote()] the corridors share: the events of a quote — the
    store's statements, the shared [AdmissionControl] and rate limiter, what a
    corridor reads off its rails —, the reservation around the work that lands
    the row, and the check of a hash against the other corridors' stores. *)
From S2P Require Import Prelude StateMachine Timelocks Prog SwapDb EvmRow Store ChainClock Covenant Admission Pricing.
#[local] Open Scope Z_scope.

(** [ArkadeOps]: the solver's own part of a lockup. *)
Record ArkadeOps := mkArkade {
  hrp : string;
  ark_serverPubkey : string;
  ark_solverPubkey : string;      (** [providerPubkey] on the send leg *)
  ark_emulatorPubkey : string;
  ark_solverPkScript : string;    (** [receiverPkScript], or [solverRefundPkScript] *)
  delays : UnilateralDelays;
}.

(** [ArkAddress.decode] of an address under this network's prefix. *)
Definition arkDestination `{Arkade} (hrp address : string) : option (list Z) :=
  match arkAddressDecode address with
  | Some script => if String.prefix (hrp +:+ "1") (toLowerCase address) then Some script else None
  | None => None
  end.

(** A refund address: one of this network, on this server. *)
Definition refundDestination `{Arkade} (ark : ArkadeOps) (address : string) : option (list Z) :=
  match arkDestination (hrp ark) address with
  | Some script =>
      if bool_decide (hex_encode (arkAddressServer address) = ark_serverPubkey ark) then Some script else None
  | None => None
  end.

(** Which amount the client named: its give, or what it receives. *)
Inductive AmountSide := from_side | to_side.
Definition exactOut (side : option AmountSide) : bool :=
  match side with Some to_side => true | _ => false end.

(** [CreateHoldInvoiceParams] and [HoldInvoice] ([ports/lightning.ts]). *)
Record CreateHoldInvoiceParams := mkHoldParams {
  hold_amountSats : Z;
  hold_paymentHash : string;
  hold_expirySeconds : Z;
  hold_minFinalCltvBlocks : Z;
}.
Record HoldInvoice := mkHoldInvoice {
  held_id : string;
  held_invoice : string;
  held_paymentHash : string;
  held_payableSats : Z;
}.

(** ** Events *)

(** [R]: what a corridor reads off its rails. *)
Inductive qevt (S Q : Type) (R : Type → Type) : Type → Type :=
  | QSql (s : stmt S Q) : qevt S Q R (result Error nat)
  | QAll {X} (f : Db S Q → X) : qevt S Q R (result Error X)
  | QClock : qevt S Q R Z
  | AcceptingQuotes : qevt S Q R bool
  | QuoteLimiterTake (key : string) : qevt S Q R bool
  | PeerLive (peer : nat) (hash : string) : qevt S Q R (result Error bool)
  | Outside {X} (q : R X) : qevt S Q R (result Error X)
  | Adm {X} (e : adm_evt X) : qevt S Q R X
  | RandomUUID : qevt S Q R string
  | PrepareQuote (b : EvmPayoutFundingBinding)
      (nowSeconds blockHeight timelockHeight tokenDecimals orderMargin validity : Z)
      : qevt S Q R (result Error (option num))
  | AbandonQuote (b : EvmPayoutFundingBinding) : qevt S Q R (result Error unit)
  | CreateHoldInvoice (p : CreateHoldInvoiceParams) : qevt S Q R (result Error HoldInvoice)
  | CancelHoldInvoice (hash : string) : qevt S Q R (result Error unit)
  | QReport (i : string) (e : Error) : qevt S Q R unit.
Arguments QSql {S Q R} s.
Arguments QAll {S Q R X} f.
Arguments QClock {S Q R}.
Arguments AcceptingQuotes {S Q R}.
Arguments QuoteLimiterTake {S Q R} key.
Arguments PeerLive {S Q R} peer hash.
Arguments Outside {S Q R X} q.
Arguments Adm {S Q R X} e.
Arguments RandomUUID {S Q R}.
Arguments PrepareQuote {S Q R} b nowSeconds blockHeight timelockHeight tokenDecimals orderMargin validity.
Arguments AbandonQuote {S Q R} b.
Arguments CreateHoldInvoice {S Q R} p.
Arguments CancelHoldInvoice {S Q R} hash.
Arguments QReport {S Q R} i e.

#[export] Instance qevt_sql {S Q R} : SqlEvents (qevt S Q R) S Q :=
  {| sql_run := QSql; sql_all _ := QAll; clock := QClock |}.

(** An event of the admission control, run by a service: what the corridor owes
    its wallet, or a pool, is the service's own [owedSats()]. *)
Definition admission_event {S Q R X} (owed : option string → io (qevt S Q R) Error Z) (e : adm_evt X)
    : prog (qevt S Q R) X :=
  match e in adm_evt X return prog (qevt S Q R) X with
  | Owed pool =>
      prog_bind (owed pool) (λ r, Ret (match r with Ok sats => Ok sats | Err _ => Err ReadFailed end))
  | e => trigger (Adm e)
  end.
(** The ceiling the last [onRefused] named. *)
Definition noted {X} (e : adm_evt X) (refusal : option Ceiling) : option Ceiling :=
  match e with OnRefused ceiling => Some ceiling | _ => refusal end.
Fixpoint admission_noting {S Q R A} (owed : option string → io (qevt S Q R) Error Z) (refusal : option Ceiling)
    (p : prog adm_evt (result AdmissionError A)) : io (qevt S Q R) Error (A * option Ceiling) :=
  match p with
  | Ret (Ok a) => ret (a, refusal)
  | Ret (Err _) => throw (Thrown "admission control")
  | Vis e k => prog_bind (admission_event owed e) (λ x, admission_noting owed (noted e refusal) (k x))
  end.
Definition admission {S Q R A} (owed : option string → io (qevt S Q R) Error Z)
    (p : prog adm_evt (result AdmissionError A)) : io (qevt S Q R) Error A :=
  bind (admission_noting owed None p) (λ r, ret r.1).
(** [reserve] asks nobody what it owes. *)
Definition owes_nothing {S Q R} (pool : option string) : io (qevt S Q R) Error Z := ret 0.

(** What a rail answers, or the failure of asking it. *)
Abbreviation outside q := (attempt (Outside q)).

(** The clock of a quote, its corridor's reads one of them the chain's tip. *)
#[export] Instance quote_clock {S Q R} `{ChainTipProvider R} : ChainClock (qevt S Q R) :=
  {| time_now := call QClock; tip_height := outside tip |}.

(** ** Shared steps *)

Section common.
Context {S Q : Type} {R : Type → Type} `{EqDecision S, QuoteColumns Q, SwapShape S}.
#[local] Open Scope io_scope.
#[local] Abbreviation io := (io (qevt S Q R) Error).

Definition qlift {A} (r : result Error A) : io A :=
  match r with Ok a => ret a | Err e => throw e end.
Definition qthrow {X A} (message : string) (r : result X A) : io A :=
  match r with Ok a => ret a | Err _ => throw (Thrown message) end.

(** [{ accepted: true, swap } | { accepted: false, reason }] *)
Inductive QuoteOutcome := Accepted (swap : Row S Q) | Refused (reason : string).

(** [None]: the strategy threw. *)
Definition priced (answer : option Z) : io Z :=
  match answer with Some sats => ret sats | None => throw (Thrown "pricing") end.

(** Exact-in the client names its give; exact-out it is solved up from the fee. *)
Definition giveSats (pricing : PricingStrategy) (pair : string) (side : option AmountSide) (amount : Z) : io Z :=
  if exactOut side then priced (giveFor pricing pair amount) else ret amount.
Definition payoutOf (pricing : PricingStrategy) (pair : string) (side : option AmountSide) (amount give : Z) : io Z :=
  if exactOut side then ret amount else priced (payoutFor pricing pair give).

(** [hash] live in a peer's store, asked one after the other. *)
Fixpoint livePeers (n : nat) (peer : nat) (hash : string) : io bool :=
  match n with
  | O => ret false
  | Datatypes.S n =>
      live <- attempt (PeerLive peer hash) ;;
      if live : bool then ret true else livePeers n (Datatypes.S peer) hash
  end.

(** [try { return await work() } finally { reservation.release() }] *)
Definition whileReserved {A} (r : Reservation) (work : io A) : io A :=
  finally work (trigger (Adm (Local (λ a, (tt, release r a))))).

(** The insert of the row, a lost race for its payment hash refused by name. *)
Definition landing (inserted : io (Row S Q)) : io QuoteOutcome :=
  try_catch (row <- inserted ;; ret (Accepted row))
    (λ e, match e with
          | UniqueConstraintError => ret (Refused "duplicate_swap")
          | e => throw e
          end).
End common.
Arguments QuoteOutcome S Q : clear implicits.
