(* ===== verification/QuoteRules.v ===== *)
(** * The rules of quotes

    A quote run against a database, the shared admission control, the rate
    limiter, the funding adapter's open preparations and the hold invoices asked
    for, with every answer from outside arbitrary and every outside call free to fail: the rules the quotes
    of every corridor are proved by. One quote is run at a time; that several do
    not overrun the cap together is [AdmissionRace]'s. *)
From S2P Require Import Prelude Timelocks StateMachine Prog SwapDb EvmRow Store BaseStore ChainClock Covenant Admission Pricing RateLimit Quote.
#[local] Open Scope Z_scope.

(** A call about a hold invoice, and what was answered to its minting. *)
Inductive HoldCall :=
  | Minted (p : CreateHoldInvoiceParams) (answer : result Error HoldInvoice)
  | Cancelled (hash : string).

(** What quotes have opened outside. *)
Record Opened := mkOpened {
  preparations : gset string;   (** intents prepared, not landed and not abandoned *)
  hold_calls : list HoldCall;
  unabandoned : gset string;    (** intents whose abandonment failed *)
}.
Definition add_preparation (i : string) (o : Opened) : Opened :=
  mkOpened ({[ i ]} ∪ preparations o) (hold_calls o) (unabandoned o).
Definition drop_preparation (i : string) (o : Opened) : Opened :=
  mkOpened (preparations o ∖ {[ i ]}) (hold_calls o) (unabandoned o).
Definition fail_abandon (i : string) (o : Opened) : Opened :=
  mkOpened (preparations o) (hold_calls o) ({[ i ]} ∪ unabandoned o).
Definition add_call (c : HoldCall) (o : Opened) : Opened :=
  mkOpened (preparations o) (hold_calls o ++ [c]) (unabandoned o).

(** Nothing was left open, or only what a quote asked to abandon in vain: its
    own new preparation, if that is open at all. *)
Definition abandoned (o op : Opened) : Prop :=
  op = o ∨ ∃ i, (i ∉ preparations o) ∧ (op = fail_abandon i o ∨ op = fail_abandon i (add_preparation i o)).

Lemma drop_added i o o' :
  i ∉ preparations o → o' = o ∨ o' = add_preparation i o → drop_preparation i o' = o.
Proof.
  intros Hi Ho. destruct o as [prep calls failed]. unfold drop_preparation, add_preparation in *. cbn in *.
  destruct Ho as [->| ->]; cbn; f_equal; set_solver.
Qed.

Record QWorld (S Q : Type) := mkQWorld {
  q_db : Db S Q;
  q_adm : AdmissionControl;
  q_windows : list (string * Window);
  q_open : Opened;
}.
Arguments mkQWorld {S Q} q_db q_adm q_windows q_open.
Arguments q_db {S Q} _.
Arguments q_adm {S Q} _.
Arguments q_windows {S Q} _.
Arguments q_open {S Q} _.

(** One event of thread 0. *)
Ltac event w x Hh :=
  let w1 := fresh "w" in let Hr := fresh "Hr" in
  intros w1 Hr _ w x Hh; specialize (Hr eq_refl); subst w1;
  split; [done|]; split; [intros u Hu ?; by destruct Hu|]; cbn in Hh.

(** A script on this network, on this server, is bytes. *)
Lemma refundDestination_bytes `{Arkade} ark address script :
  (∀ s bytes, arkAddressDecode s = Some bytes → Forall is_byte bytes) →
  refundDestination ark address = Some script → Forall is_byte script.
Proof.
  intros Hbytes. unfold refundDestination, arkDestination.
  destruct (arkAddressDecode _) as [bytes|] eqn:Hd; [|done]. destruct (String.prefix _ _); [|done].
  case_bool_decide; [|done]. intros [= <-]. by eapply Hbytes.
Qed.

Section world.
Context {S Q : Type} {R : Type → Type} `{EqDecision S, QuoteColumns Q, SwapShape S}.
#[local] Abbreviation W := (QWorld S Q).

Definition set_db (w : W) (d : Db S Q) : W := mkQWorld d (q_adm w) (q_windows w) (q_open w).
Definition set_adm (w : W) (a : AdmissionControl) : W := mkQWorld (q_db w) a (q_windows w) (q_open w).
Definition set_open (w : W) (o : Opened) : W := mkQWorld (q_db w) (q_adm w) (q_windows w) o.

(** Events as they may go. A statement that breaks a unique index says so and
    has no effect; any other failure may hide an effect, or have had none. *)
Definition qhandle (t : nat) X (e : qevt S Q R X) (w w' : W) : X → Prop :=
  match e in qevt _ _ _ X return X → Prop with
  | QSql s => λ x,
      (x = (run_stmt s (q_db w)).1 ∧ w' = set_db w (run_stmt s (q_db w)).2) ∨
      (∃ e, x = Err e ∧ e ≠ UniqueConstraintError ∧ (w' = w ∨ w' = set_db w (run_stmt s (q_db w)).2))
  | QAll f => λ x, w' = w ∧ (x = Ok (f (q_db w)) ∨ ∃ e, x = Err e ∧ e ≠ UniqueConstraintError)
  | QuoteLimiterTake key => λ b, ∃ now,
      b = (RateLimit.take QUOTE_RATE_LIMIT QUOTE_RATE_WINDOW_SECONDS key now (q_windows w)).1 ∧
      w' = mkQWorld (q_db w) (q_adm w)
             (RateLimit.take QUOTE_RATE_LIMIT QUOTE_RATE_WINDOW_SECONDS key now (q_windows w)).2 (q_open w)
  | Adm e =>
      match e in adm_evt X return X → Prop with
      | Local f => λ x, x = (f (q_adm w)).1 ∧ w' = set_adm w (f (q_adm w)).2
      | _ => λ _, w' = w
      end
  | RandomUUID => λ i, w' = w ∧ i ∉ preparations (q_open w)
  | PrepareQuote b _ _ _ _ _ _ => λ x,
      w' = set_open w (add_preparation (intentId b) (q_open w)) ∨ (w' = w ∧ ∃ e, x = Err e)
  | AbandonQuote b => λ x,
      match x with
      | Ok _ => w' = set_open w (drop_preparation (intentId b) (q_open w))
      | Err _ => w' = set_open w (fail_abandon (intentId b) (q_open w)) ∨
                 w' = set_open w (fail_abandon (intentId b) (drop_preparation (intentId b) (q_open w)))
      end
  | CreateHoldInvoice p => λ x, w' = set_open w (add_call (Minted p x) (q_open w))
  | CancelHoldInvoice hash => λ _, w' = set_open w (add_call (Cancelled hash) (q_open w))
  | _ => λ _, w' = w
  end.

(** Nobody else acts while thread 0 quotes. *)
Definition QRely (t : nat) (w w' : W) : Prop := t = 0%nat → w' = w.
#[export] Instance QRely_preorders : Preorders QRely.
Proof. split; unfold QRely; naive_solver. Qed.

#[local] Abbreviation always := (λ _ : W, True).
#[export] Instance q_stable (K : W → Prop) : Stable always QRely 0 K.
Proof. by intros w w' Hr _; rewrite (Hr eq_refl). Qed.

Definition qtriple {A} (K : W → Prop) (p : io (qevt S Q R) Error A) (P : A → W → Prop) (F : Error → W → Prop)
    : Prop := hoare qhandle always QRely 0 K p P F.

(** The database, the counters and the open preparations. *)
Definition At (d : Db S Q) (a : AdmissionControl) (o : Opened) (w : W) : Prop :=
  q_db w = d ∧ q_adm w = a ∧ q_open w = o.

Lemma q_ret {A} (x : A) (K : W → Prop) (P : A → W → Prop) F : (∀ w, K w → P x w) → qtriple K (ret x) P F.
Proof. intros HP. apply hoare_ret; [apply _|auto]. Qed.
Lemma q_throw {A} e (K : W → Prop) (P : A → W → Prop) (F : Error → W → Prop) :
  (∀ w, K w → F e w) → qtriple K (throw e) P F.
Proof. intros HF. apply hoare_throw; [apply _|auto]. Qed.
Lemma q_bind {A B} (K : W → Prop) (p : io (qevt S Q R) Error A) (f : A → io (qevt S Q R) Error B) (M : A → W → Prop) P F :
  qtriple K p M F → (∀ x, qtriple (M x) (f x) P F) → qtriple K (bind p f) P F.
Proof. intros Hp Hf. eapply hoare_bind; try apply _; [exact Hp|exact Hf]. Qed.
Lemma q_catch {A} (K : W → Prop) (p : io (qevt S Q R) Error A) (h : Error → io (qevt S Q R) Error A) (P : A → W → Prop) G F :
  qtriple K p P G → (∀ e, qtriple (G e) (h e) P F) → qtriple K (try_catch p h) P F.
Proof. intros Hp Hh. eapply hoare_catch; try apply _; [exact Hp|exact Hh]. Qed.
Lemma q_conseq {A} (K K' : W → Prop) (p : io (qevt S Q R) Error A) (P P' : A → W → Prop) (F F' : Error → W → Prop) :
  qtriple K' p P' F' → (∀ w, K w → K' w) → (∀ x w, P' x w → P x w) → (∀ e w, F' e w → F e w) →
  qtriple K p P F.
Proof. intros Hp HK HP HF. eapply hoare_conseq; [exact Hp|auto..]. Qed.
Lemma q_pure {A} (φ : Prop) (K : W → Prop) (p : io (qevt S Q R) Error A) (P : A → W → Prop) (F : Error → W → Prop) :
  (φ → qtriple K p P F) → qtriple (λ w, K w ∧ φ) p P F.
Proof. intros Hp. by apply hoare_pure. Qed.

Lemma q_exists {A Y} (K : Y → W → Prop) (p : io (qevt S Q R) Error A) (P : A → W → Prop) (F : Error → W → Prop) :
  (∀ y, qtriple (K y) p P F) → qtriple (λ w, ∃ y, K y w) p P F.
Proof. intros Hp w Hi [y Hy]. by apply (Hp y). Qed.

(** A single event. *)
Lemma q_attempt {Y} (e : qevt S Q R (result Error Y)) (K : W → Prop) (P : Y → W → Prop) (F : Error → W → Prop) :
  (∀ w w' x, K w → qhandle 0 _ e w w' x → match x with Ok y => P y w' | Err err => F err w' end) →
  qtriple K (attempt e) P F.
Proof.
  intros He. apply hoare_attempt; try apply _. intros w _ HK w' x Hh. split; [done|]. split.
  - intros u Hu ?. by destruct Hu.
  - specialize (He w w' x HK Hh). by destruct x.
Qed.
Lemma q_call {Y} (e : qevt S Q R Y) (K : W → Prop) (P : Y → W → Prop) F :
  (∀ w w' x, K w → qhandle 0 _ e w w' x → P x w') → qtriple K (call e) P F.
Proof.
  intros He. apply hoare_call; try apply _. intros w _ HK w' x Hh. split; [done|]. split.
  - intros u Hu ?. by destruct Hu.
  - by eapply He.
Qed.

(** The outside reads. *)
Definition q_read {X} (e : qevt S Q R X) : Prop :=
  match e with
  | QSql _ | Adm (Local _) | PrepareQuote _ _ _ _ _ _ _ | AbandonQuote _
  | CreateHoldInvoice _ | CancelHoldInvoice _ => False
  | _ => True
  end.
Lemma read_same {X} (e : qevt S Q R X) w w' x d a o :
  q_read e → qhandle 0 _ e w w' x → At d a o w → At d a o w'.
Proof.
  destruct e as [| | | | | | |X e| | | | | |]; cbn; try done; try (by intros _ ->).
  - by intros _ [-> _].
  - by intros _ (now & _ & ->).
  - destruct e; try done; by intros _ ->.
  - by intros _ [-> _].
Qed.

(** The failure of a step that left the counters and the preparations alone. *)
Definition Clean (a : AdmissionControl) (o : Opened) (w : W) : Prop := q_adm w = a ∧ q_open w = o.
Lemma At_Clean d a o w : At d a o w → Clean a o w.
Proof. by intros (_ & ? & ?). Qed.

Lemma q_ask {Y} (e : qevt S Q R (result Error Y)) K d a o :
  q_read e → (∀ w, K w → At d a o w) → qtriple K (attempt e) (λ _, At d a o) (λ _, Clean a o).
Proof.
  intros He HK. apply q_attempt. intros w w' x Hw%HK Hh. pose proof (read_same _ _ _ _ _ _ _ He Hh Hw).
  destruct x; [done|by eapply At_Clean].
Qed.
Lemma q_look {Y} (e : qevt S Q R Y) K d a o F :
  q_read e → (∀ w, K w → At d a o w) → qtriple K (call e) (λ _, At d a o) F.
Proof. intros He HK. apply q_call. intros w w' x Hw%HK Hh. by eapply read_same. Qed.
Lemma q_select {Y} (f : Db S Q → Y) K d a o :
  (∀ w, K w → At d a o w) →
  qtriple K (attempt (sql_all f)) (λ y w, At d a o w ∧ y = f d)
    (λ e w, Clean a o w ∧ e ≠ UniqueConstraintError).
Proof.
  intros HK. apply q_attempt. intros w w' x Hw%HK [-> [->|(e & -> & He)]].
  - split; [done|]. by destruct Hw as (-> & _).
  - split; [by eapply At_Clean|done].
Qed.
Lemma q_read_row {Y} (f : Db S Q → Y) K d a o :
  (∀ w, K w → At d a o w) →
  qtriple K (attempt (sql_all f)) (λ _, At d a o) (λ _, Clean a o).
Proof.
  intros HK. eapply q_conseq; [by apply (q_select f K d a o)|done|by intros ? ? [? _]|by intros ? ? [? _]].
Qed.
Lemma q_lifted {A} (r : result Error A) (K : W → Prop) (F : Error → W → Prop) :
  (∀ e w, K w → r = Err e → F e w) → qtriple K (qlift r) (λ x w, K w ∧ r = Ok x) F.
Proof. intros HF. destruct r; cbn; [by apply q_ret|]. apply q_throw. eauto. Qed.
Lemma q_checked {X A} m (r : result X A) (K : W → Prop) (F : Error → W → Prop) :
  (∀ w, K w → F (Thrown m) w) → qtriple K (qthrow m r) (λ x w, K w ∧ r = Ok x) F.
Proof. intros HF. destruct r; cbn; [by apply q_ret|]. by apply q_throw. Qed.

(** ** The shared steps *)

Lemma livePeers_spec n peer hash d a o :
  qtriple (At d a o) (livePeers n peer hash) (λ _, At d a o) (λ _, Clean a o).
Proof.
  revert peer. induction n as [|n IH]; intros peer; cbn [livePeers]; [by apply q_ret|].
  eapply q_bind; [by apply q_ask|]. intros []; [by apply q_ret|apply IH].
Qed.

(** The two amounts, whichever the client named. *)
Lemma priced_spec answer d a o :
  qtriple (At d a o) (priced answer) (λ sats w, At d a o w ∧ answer = Some sats) (λ _, Clean a o).
Proof. destruct answer; cbn; [by apply q_ret|]. apply q_throw. intros w. apply At_Clean. Qed.
Lemma giveSats_spec pricing pair side amount d a o :
  qtriple (At d a o) (giveSats pricing pair side amount)
    (λ give w, At d a o w ∧ if exactOut side then giveFor pricing pair amount = Some give else give = amount)
    (λ _, Clean a o).
Proof. unfold giveSats. destruct (exactOut side); [apply priced_spec|by apply q_ret]. Qed.
Lemma payoutOf_spec pricing pair side amount give d a o :
  qtriple (At d a o) (payoutOf pricing pair side amount give)
    (λ payout w, At d a o w ∧ if exactOut side then payout = amount else payoutFor pricing pair give = Some payout)
    (λ _, Clean a o).
Proof. unfold payoutOf. destruct (exactOut side); [by apply q_ret|apply priced_spec]. Qed.

(** Deadlines read against the quote's clock. *)
Lemma quoted_refundDeadline_spec `{!ChainTipProvider R} tipped l purpose d a o :
  qtriple (At d a o) (refundDeadlineSeconds tipped l purpose)
    (λ s w, At d a o w ∧ ∃ moment, s = absoluteLocktimeSeconds l moment) (λ _, Clean a o).
Proof.
  unfold refundDeadlineSeconds. eapply q_bind; [by apply (q_look QClock (At d a o) d a o)|]. intros at_.
  destruct (absoluteLocktimeUnit l) eqn:Hu.
  - apply q_ret. intros w Hw. split; [done|]. exists (mkMoment 0 0). unfold absoluteLocktimeSeconds. by rewrite Hu.
  - destruct tipped; [|apply q_throw; intros w; apply At_Clean].
    eapply q_bind; [by apply q_ask|]. intros height. apply q_ret. intros w Hw. split; [done|]. by eexists.
Qed.

Lemma quoted_locktime_spec `{!ChainTipProvider R} tipped deadline delay d a o :
  qtriple (At d a o) (absoluteLocktimeFor tipped deadline delay)
    (λ l w, At d a o w ∧ ∃ moment, absoluteLocktimeIn deadline (unit_of (relativeDelayFrom delay)) moment = Ok l)
    (λ _, Clean a o).
Proof.
  unfold absoluteLocktimeFor. destruct (unit_of _).
  - apply q_ret. intros w Hw. split; [done|]. by exists (mkMoment 0 0).
  - destruct tipped; [|apply q_throw; intros w; apply At_Clean].
    eapply q_bind; [by apply (q_look QClock (At d a o) d a o)|]. intros at_.
    eapply q_bind; [by apply q_ask|]. intros height.
    destruct (absoluteLocktimeIn _ _ _) as [l|e] eqn:Hl; [|apply q_throw; intros w; apply At_Clean].
    apply q_ret. intros w Hw. split; [done|]. by eexists.
Qed.

(** A landed row is the last one, as it was written; a refusal wrote none; neither
    opened anything. *)
Definition Settled (d : Db S Q) (a : AdmissionControl) (o : Opened) (good : string → Q → Prop)
    (out : QuoteOutcome S Q) (w : W) : Prop :=
  q_adm w = a ∧
  match out with
  | Accepted row => ∃ i q at_,
      row = mkRow i state_quoted at_ at_ q ∅ ∧ rows (q_db w) = rows d ++ [row] ∧ q_open w = o ∧ good i q
  | Refused _ => rows (q_db w) = rows d ∧ q_open w = o
  end.

(** The row of a quote, written at [at_]. *)
Definition Written (d : Db S Q) (a : AdmissionControl) (o : Opened) (row : Row S Q) (w : W) : Prop :=
  q_adm w = a ∧ q_open w = o ∧ rows (q_db w) = rows d ++ [row] ∧ row_id row ∉ row_id <$> rows d.

(** Past the unique index: every other row of the hash is closed. *)
Lemma unique_alone (row : Row S Q) l :
  unique_ok state_refused (l ++ [row]) = true → state row ≠ state_refused →
  Forall (λ r, payment_hash (quote r) = payment_hash (quote row) → state r = state_refused) l.
Proof.
  intros Hu%bool_decide_eq_true Hs. unfold live_hashes in Hu. apply Forall_forall. intros r Hr Hh.
  destruct (decide (state r = state_refused)) as [|Hl]; [done|]. exfalso.
  rewrite filter_app, fmap_app, filter_cons_True in Hu by done. apply NoDup_app in Hu as (_ & Hd & _).
  apply (Hd (payment_hash (quote r))).
  - apply list_elem_of_fmap. exists r. split; [done|]. by apply list_elem_of_filter.
  - apply list_elem_of_fmap. exists row. split; [done|]. apply list_elem_of_here.
Qed.

Lemma insert_row_spec row d a o :
  qtriple (At d a o) (attempt (QSql (InsertRow row)))
    (λ _ w, Written d a o row w ∧ unique_ok state_refused (rows d ++ [row]) = true)
    (λ e w, Clean a o w ∧ (e = UniqueConstraintError → rows (q_db w) = rows d)).
Proof.
  apply q_attempt. intros w w' x (Hd & Ha & Ho) Hh. cbn in Hh. unfold run_stmt in Hh. rewrite Hd in Hh.
  cbn [exec] in Hh. unfold insert_row in Hh. destruct Hh as [[-> ->]|(e & -> & He & Hw)].
  - case_bool_decide as Hin; cbn; [by split; [split|]; cbn; rewrite ?Hd|].
    destruct (unique_ok _ _) eqn:Hu; cbn; [by split_and!|by split; [split|]; cbn; rewrite ?Hd].
  - split; [|done]. destruct Hw as [->| ->]; by split.
Qed.

Lemma insert_event_spec ev row d a o :
  qtriple (Written d a o row) (attempt (QSql (InsertEvent ev))) (λ _, Written d a o row)
    (λ e w, Clean a o w ∧ (e = UniqueConstraintError → rows (q_db w) = rows d)).
Proof.
  apply q_attempt. intros w w' x (Ha & Ho & Hr & Hi) Hh. cbn in Hh.
  destruct Hh as [[-> ->]|(e & -> & He & Hw)]; [by split_and!|].
  split; [|done]. destruct Hw as [->| ->]; by split.
Qed.

Lemma find_last_row i (row : Row S Q) l ev :
  row_id row = i → i ∉ row_id <$> l → find_row (mkDb (l ++ [row]) ev) i = Some row.
Proof.
  intros Hid Hl. unfold find_row. cbn [rows]. rewrite list_find_app_r.
  - cbn. by rewrite decide_True.
  - apply list_find_None, Forall_forall. intros r Hr Hi. apply Hl. rewrite <- Hi. by apply list_elem_of_fmap_2.
Qed.

Lemma get_written i row d a o :
  row_id row = i →
  qtriple (Written d a o row) (get i) (λ r w, r = row ∧ Written d a o row w)
    (λ e w, Clean a o w ∧ (e = UniqueConstraintError → rows (q_db w) = rows d)).
Proof.
  intros Hi. unfold get. eapply (q_bind _ _ _ (λ r w, r = Some row ∧ Written d a o row w)).
  - apply q_attempt. intros w w' x Hw [-> [->|(e & -> & He)]]; destruct Hw as (Ha & Ho & Hr & Hn).
    + split; [|by split_and!]. destruct (q_db w) as [l ev]. cbn in Hr. subst l.
      apply find_last_row; [done|by rewrite <- Hi].
    + split; [by split|done].
  - intros [r|]; [|by apply q_throw; intros w [? _]]. apply q_ret. intros w [Heq Hw]. by injection Heq as ->.
Qed.

(** Past its statement, the insert of a Bitcoin corridor notes the event and
    reads the row back. *)
Lemma recorded_spec `{!BaseShape S} i row (to : S) detail d a o :
  row_id row = i →
  qtriple (Written d a o row) (bind (recordEvent i None to detail) (λ _, get i))
    (λ r w, r = row ∧ Written d a o row w)
    (λ e w, Clean a o w ∧ (e = UniqueConstraintError → rows (q_db w) = rows d)).
Proof.
  intros Hi. eapply (q_bind _ _ _ (λ _, Written d a o row)); [|by intros ?; apply get_written].
  unfold recordEvent. eapply (q_bind _ _ _ (λ _, Written d a o row)); [by apply q_call; intros w w' x Hw ->|].
  intros now. eapply q_bind; [apply insert_event_spec|]. intros ?. by apply q_ret.
Qed.
Lemma inserted_spec `{!BaseShape S} i row (to : S) detail d a o :
  row_id row = i → state row ≠ state_refused →
  qtriple (At d a o) (bind (attempt (QSql (InsertRow row))) (λ _, bind (recordEvent i None to detail) (λ _, get i)))
    (λ r w, r = row ∧ Written d a o row w ∧
       Forall (λ other, payment_hash (quote other) = payment_hash (quote row) → state other = state_refused) (rows d))
    (λ e w, Clean a o w ∧ (e = UniqueConstraintError → rows (q_db w) = rows d)).
Proof.
  intros Hi Hs. eapply q_bind; [apply (insert_row_spec row)|]. intros ins. apply q_pure. intros Hu.
  eapply q_conseq; [by apply recorded_spec|done| |done]. intros r w [-> Hw]. split_and!; [done|done|].
  by apply unique_alone.
Qed.

(** The insert of a row, however the store makes it. *)
Lemma landing_spec i q (inserted : io (qevt S Q R) Error (Row S Q)) d a o (good : string → Q → Prop) :
  qtriple (At d a o) inserted
    (λ row w, ∃ at_, row = mkRow i state_quoted at_ at_ q ∅ ∧ Written d a o row w ∧ good i q)
    (λ e w, Clean a o w ∧ (e = UniqueConstraintError → rows (q_db w) = rows d)) →
  qtriple (At d a o) (landing inserted) (Settled d a o good) (λ _, Clean a o).
Proof.
  intros Hins. unfold landing.
  apply (q_catch _ _ _ _ (λ e w, Clean a o w ∧ (e = UniqueConstraintError → rows (q_db w) = rows d))).
  2: { intros e. destruct (decide (e = UniqueConstraintError)) as [->|He].
       - apply q_ret. intros w [[Ha Ho] Hr]. split; [done|]. split; [by apply Hr|done].
       - destruct e; try (by destruct He); apply q_throw; by intros w [? _]. }
  eapply q_bind; [exact Hins|].
  intros row. apply q_ret. intros w (at_ & -> & (Ha & Ho & Hr & _) & Hgood). split; [done|]. by exists i, q, at_.
Qed.

(** ** Under a reservation *)

(** The admission control, run by a service that may be asked what it owes. *)
Lemma admission_event_spec owed {X} (e : adm_evt X) d a o w :
  (∀ pool, qtriple (At d a o) (owed pool) (λ _, At d a o) (λ _, At d a o)) → At d a o w →
  wp qhandle always QRely 0 (admission_event owed e) (λ x w', ∃ a', At d a' o w' ∧ may_answer e a x a') w.
Proof.
  intros Howed Hw. destruct e as [| |Y f| |pool| | | | |]; cbn [admission_event].
  5: { apply wp_bind; [apply _|]. eapply wp_mono; [|by apply (Howed pool w)].
       intros r w1 _ Hr w2 Hr2 _. rewrite (Hr2 eq_refl). exists a. by destruct r. }
  3: { event w1 x1 Hh. destruct Hh as [-> ->]. intros w2 Hr2 _. rewrite (Hr2 eq_refl).
       destruct Hw as (Hd & <- & Ho). exists (f (q_adm w)).2. by split_and!. }
  all: event w1 x1 Hh; subst w1; intros w2 Hr2 _; rewrite (Hr2 eq_refl); by exists a.
Qed.

Lemma admission_noting_spec {A} owed refusal (p : prog adm_evt (result AdmissionError A)) d a o G :
  (∀ a pool, qtriple (At d a o) (owed pool) (λ _, At d a o) (λ _, At d a o)) → yields p a G →
  qtriple (At d a o) (admission_noting owed refusal p) (λ x w, ∃ a', At d a' o w ∧ G (Ok x.1) a')
    (λ _ w, ∃ e a', At d a' o w ∧ G (Err e) a').
Proof.
  intros Howed Hp w _ Hw. revert a w refusal Hp Hw. induction p as [r|X e k IH]; intros a w refusal Hp Hw.
  - destruct r as [x|e]; cbn; intros w1 Hr _; rewrite (Hr eq_refl); cbn; eauto.
  - cbn [admission_noting]. apply wp_bind; [apply _|]. eapply wp_mono; [|apply (admission_event_spec _ _ d a o); eauto].
    intros x w1 _ (a' & Hat & Hx). exact (IH x a' w1 _ (Hp x a' Hx) Hat).
Qed.

(** A quote that is over: the counters are back where they were, and a row is
    written exactly when it is accepted. *)
Definition Quoted (d : Db S Q) (a : AdmissionControl) (o : Opened) (good : string → Q → Prop)
    (out : QuoteOutcome S Q) (w : W) : Prop :=
  unchanged a (q_adm w) ∧
  match out with
  | Accepted row => ∃ i q at_,
      row = mkRow i state_quoted at_ at_ q ∅ ∧ rows (q_db w) = rows d ++ [row] ∧ q_open w = o ∧ good i q
  | Refused _ => rows (q_db w) = rows d ∧ q_open w = o
  end.
Definition Failed (a : AdmissionControl) (o : Opened) (w : W) : Prop :=
  unchanged a (q_adm w) ∧ q_open w = o.

Lemma Clean_Failed a o w : Clean a o w → Failed a o w.
Proof. intros [Ha Ho]. unfold Failed. by rewrite Ha, Ho. Qed.
Lemma At_Refused d a o good reason w : At d a o w → Quoted d a o good (Refused reason) w.
Proof. intros (Hd & Ha & Ho). unfold Quoted. rewrite Hd, Ha, Ho. by split. Qed.

(** A step that leaves the world alone, in a quote. *)
Lemma q_harmless {A B} (p : io (qevt S Q R) Error A) (f : A → io (qevt S Q R) Error B) P F d a o :
  (∀ w, Clean a o w → F w) → qtriple (At d a o) p (λ _, At d a o) (λ _, Clean a o) →
  (∀ x, qtriple (At d a o) (f x) P (λ _, F)) → qtriple (At d a o) (bind p f) P (λ _, F).
Proof.
  intros HF Hp Hf. apply (q_bind _ _ _ (λ _, At d a o)); [|done].
  eapply q_conseq; [exact Hp|done|done|]. intros e w. apply HF.
Qed.
Lemma q_step {A B} (p : io (qevt S Q R) Error A) (f : A → io (qevt S Q R) Error B) P d a o :
  qtriple (At d a o) p (λ _, At d a o) (λ _, Clean a o) →
  (∀ x, qtriple (At d a o) (f x) P (λ _, Failed a o)) →
  qtriple (At d a o) (bind p f) P (λ _, Failed a o).
Proof. apply q_harmless. intros w. apply Clean_Failed. Qed.

(** Whatever the work does, its reservation is given back: what it says of the
    rows and of what it opened outside, once it is over, stays. *)
Lemma whileReserved_spec {A} r (work : io (qevt S Q R) Error A) d a a' o
    (P : A → list (Row S Q) → Opened → Prop) (F : Error → list (Row S Q) → Opened → Prop) :
  adm_wf a → Holding a r a' →
  qtriple (At d a' o) work (λ x w, q_adm w = a' ∧ P x (rows (q_db w)) (q_open w))
    (λ e w, q_adm w = a' ∧ F e (rows (q_db w)) (q_open w)) →
  qtriple (At d a' o) (whileReserved r work)
    (λ x w, unchanged a (q_adm w) ∧ P x (rows (q_db w)) (q_open w))
    (λ e w, unchanged a (q_adm w) ∧ F e (rows (q_db w)) (q_open w)).
Proof.
  intros Hwf Hh Hwork. unfold whileReserved.
  eapply (hoare_ensure _ _ _ 0 _ _ _ (λ x w, q_adm w = a' ∧ P x (rows (q_db w)) (q_open w)) _
    (λ e w, q_adm w = a' ∧ F e (rows (q_db w)) (q_open w)));
    try apply _; [exact Hwork|].
  intros res w _ Hres w' u [_ ->]. split; [done|]. split; [intros v Hv ?; by destruct Hv|]. cbn.
  pose proof (release_gives_back a r a' Hwf Hh) as Hback.
  destruct res as [x|e]; cbn in *; destruct Hres as [-> Hp]; by split.
Qed.

(** Work around its reservation, however that is made. *)
Lemma reserved_spec {A} owed (reserving : prog adm_evt (result AdmissionError (option Reservation))) d a o
    (P : A → list (Row S Q) → Opened → Prop) (F : Error → list (Row S Q) → Opened → Prop)
    (refused : option Ceiling → io (qevt S Q R) Error A) (work : Reservation → io (qevt S Q R) Error A) :
  adm_wf a → (∀ a pool, qtriple (At d a o) (owed pool) (λ _, At d a o) (λ _, At d a o)) →
  yields reserving a (λ r a', match r with Ok (Some res) => Holding a res a' | _ => unchanged a a' end) →
  (∀ e, F e (rows d) o) →
  (∀ a' ceiling, qtriple (λ w, At d a' o w ∧ unchanged a a') (refused ceiling)
     (λ x w, unchanged a (q_adm w) ∧ P x (rows (q_db w)) (q_open w))
     (λ e w, unchanged a (q_adm w) ∧ F e (rows (q_db w)) (q_open w))) →
  (∀ r a', Holding a r a' → qtriple (At d a' o) (work r)
     (λ x w, q_adm w = a' ∧ P x (rows (q_db w)) (q_open w)) (λ e w, q_adm w = a' ∧ F e (rows (q_db w)) (q_open w))) →
  qtriple (At d a o)
    (bind (admission_noting owed None reserving) (λ '(reservation, ceiling),
       match reservation with None => refused ceiling | Some r => whileReserved r (work r) end))
    (λ x w, unchanged a (q_adm w) ∧ P x (rows (q_db w)) (q_open w))
    (λ e w, unchanged a (q_adm w) ∧ F e (rows (q_db w)) (q_open w)).
Proof.
  intros Hwf Howed Hres HF Hrefused Hwork. eapply q_bind.
  - eapply q_conseq; [by apply (admission_noting_spec owed None reserving d a o _ Howed Hres)|done|by intros ? ? ?|].
    intros e w (e' & a' & (Hd & <- & Ho) & Hu). rewrite Hd, Ho. by split.
  - intros [[r|] ceiling]; cbn [fst].
    + apply q_exists. intros a'. apply q_pure. intros Hh. apply whileReserved_spec; [done..|]. by apply Hwork.
    + apply q_exists. intros a'. apply Hrefused.
Qed.

(** What an admitted request holds until it is released. *)
Lemma admit_holds request a :
  adm_wf a →
  yields (admitRequest request) a (λ r a', match r with Ok (Some res) => Holding a res a' | _ => unchanged a a' end).
Proof.
  intros Hwf. eapply yields_mono; [by apply admit_yields|]. intros [[res|]|e] a' Hy; [|done..].
  destruct Hy as (_ & _ & Hh & Hid & Hn). exact (conj Hh (conj Hid Hn)).
Qed.

(** A quote that opens nothing outside, around its reservation. *)
Definition landed (d : Db S Q) (o : Opened) (good : string → Q → Prop) (out : QuoteOutcome S Q)
    (rs : list (Row S Q)) (op : Opened) : Prop :=
  match out with
  | Accepted row => ∃ i q at_, row = mkRow i state_quoted at_ at_ q ∅ ∧ rs = rows d ++ [row] ∧ op = o ∧ good i q
  | Refused _ => rs = rows d ∧ op = o
  end.
Lemma reserved_quote_spec owed reserving d a o good refused (work : Reservation → io (qevt S Q R) Error (QuoteOutcome S Q)) :
  adm_wf a → (∀ a pool, qtriple (At d a o) (owed pool) (λ _, At d a o) (λ _, At d a o)) →
  yields reserving a (λ r a', match r with Ok (Some res) => Holding a res a' | _ => unchanged a a' end) →
  (∀ a' ceiling, qtriple (λ w, At d a' o w ∧ unchanged a a') (refused ceiling) (Quoted d a o good) (λ _, Failed a o)) →
  (∀ r a', Holding a r a' → qtriple (At d a' o) (work r) (Settled d a' o good) (λ _, Clean a' o)) →
  qtriple (At d a o)
    (bind (admission_noting owed None reserving) (λ '(reservation, ceiling),
       match reservation with None => refused ceiling | Some r => whileReserved r (work r) end))
    (Quoted d a o good) (λ _, Failed a o).
Proof.
  intros. apply (reserved_spec owed reserving d a o (landed d o good) (λ _ _ op, op = o)); auto.
Qed.

(** Every run of a program from a world: its result and the world it leaves. *)
Inductive runs {A} : prog (qevt S Q R) A → W → A → W → Prop :=
  | runs_ret a w : runs (Ret a) w a w
  | runs_event X (e : qevt S Q R X) k w w1 x r w' :
      qhandle 0 X e w w1 x → runs (k x) w1 r w' → runs (Vis e k) w r w'.

Lemma qtriple_runs {A} (K : W → Prop) (p : io (qevt S Q R) Error A) P F w r w' :
  qtriple K p P F → K w → runs p w r w' → outcome P F r w'.
Proof.
  intros Hp HK Hr. specialize (Hp w I HK). clear HK.
  induction Hr as [a w|X e k w w1 x r w' Hh _ IH].
  - by apply (Hp w).
  - destruct (Hp w ltac:(done) I w1 x Hh) as (_ & _ & Hk). by apply IH.
Qed.
End world.

(** ** A world that answers *)

Section answers.
Context {S Q : Type} {R : Type → Type} `{EqDecision S, QuoteColumns Q, SwapShape S}.
#[local] Abbreviation W := (QWorld S Q).
Context (time committed : Z) (uuid : string) (reads : ∀ X, R X → option X).
(** What the invoice of a hold asks for: as much, or a wrapper's reserve more. *)
Context (wrapped : Z → Z).

Definition q_served X (e : qevt S Q R X) (w : W) : option (X * W) :=
  match e in qevt _ _ _ X return option (X * W) with
  | QSql s => Some ((run_stmt s (q_db w)).1, set_db w (run_stmt s (q_db w)).2)
  | QAll f => Some (Ok (f (q_db w)), w)
  | QClock => Some (time, w)
  | AcceptingQuotes => Some (true, w)
  | QuoteLimiterTake key =>
      let '(b, windows) := RateLimit.take QUOTE_RATE_LIMIT QUOTE_RATE_WINDOW_SECONDS key time (q_windows w) in
      Some (b, mkQWorld (q_db w) (q_adm w) windows (q_open w))
  | PeerLive _ _ => Some (Ok false, w)
  | Outside q => match reads _ q with Some x => Some (Ok x, w) | None => None end
  | Adm e =>
      match e in adm_evt X return option (X * W) with
      | Enter | Leave => Some (tt, w)
      | Local f => Some ((f (q_adm w)).1, set_adm w (f (q_adm w)).2)
      | CommittedSats => Some (Ok committed, w)
      | InventoryFor => Some (Ok None, w)
      | OnRefused _ => Some (tt, w)
      | _ => None
      end
  | RandomUUID => if bool_decide (uuid ∈ preparations (q_open w)) then None else Some (uuid, w)
  | PrepareQuote b now _ _ _ _ _ =>
      Some (Ok (Some (of_Z (now + 60))), set_open w (add_preparation (intentId b) (q_open w)))
  | AbandonQuote b => Some (Ok tt, set_open w (drop_preparation (intentId b) (q_open w)))
  | CreateHoldInvoice p =>
      let held := mkHoldInvoice "hold-1" "lnbc1hold" (hold_paymentHash p) (wrapped (hold_amountSats p)) in
      Some (Ok held, set_open w (add_call (Minted p (Ok held)) (q_open w)))
  | CancelHoldInvoice hash => Some (Ok tt, set_open w (add_call (Cancelled hash) (q_open w)))
  | QReport _ _ => Some (tt, w)
  end.

Lemma q_served_handle X (e : qevt S Q R X) w x w' : q_served X e w = Some (x, w') → qhandle 0 X e w w' x.
Proof.
  intros Hs. destruct e; cbn in *; repeat case_match; simplify_eq; eauto.
  - exists time. by match goal with Ht : RateLimit.take _ _ _ _ _ = _ |- _ => rewrite Ht end.
  - case_bool_decide; [done|]. by simplify_eq.
Qed.

Lemma play_runs {A} (p : prog (qevt S Q R) A) w r w' : play q_served p w = Some (r, w') → runs p w r w'.
Proof.
  revert w. induction p as [a|X e k IH]; cbn; intros w Hp; [simplify_eq; constructor|].
  destruct (q_served X e w) as [[x w1]|] eqn:He; [|done].
  econstructor; [by apply q_served_handle|]. by apply IH.
Qed.
End answers.
