(* ===== verification/QuoteService.v ===== *)
(** * Quotes of the EVM services

    [quote()] of [EvmSendSwapService] and [EvmReceiveSwapService]
    ([packages/solver-corridors-evm/src/send/evmOrchestrator.ts],
    [receive/evmOrchestrator.ts]): every check in its order, the reservation
    taken from the shared [AdmissionControl], and the row it inserts. *)
From Stdlib Require Import QArith_base Qround Ascii.
From S2P Require Import Prelude JsString StateMachine Timelocks EvmPolicy BlockTime Prog SwapDb EvmRow Store EvmStore Covenant Admission Pricing RateLimit Quote.
#[local] Open Scope Z_scope.

(** ** What the services are given *)

Record EvmToken := mkToken { token_address : string; decimals : Z }.
Record EvmMarketTerms := mkMarket {
  token : EvmToken;
  priceFeed : string;
  pricePath : string;
  limit_minSats : Z;
  limit_maxSats : Z;
  tokenLimits : option (Z * Z);
  fee : Fee;
}.

Record ChainConfig := mkChain {
  contract_address : string;
  chain_id : Z;
  chain_minConfirmations : Z;
  chain_minAgeSeconds : Z;
  timelockCadence : EvmBlockCadence;
  quoteValiditySeconds : Z;
  orderMarginSeconds : option Z;
}.

Record QuoteDeps := mkDeps {
  arkade : ArkadeOps;
  chain : ChainConfig;
  markets : gmap string EvmMarketTerms;
  maxExposedSats : Z;
  peerStores : nat;
  solverEvmAddress : list Z;           (** send *)
  solverClaimAddress : string;         (** receive: [evmClaimAddress] *)
  fundingIdentity : option string;     (** send: a funding adapter that prepares quotes *)
}.

(** What the EVM corridors read while they quote. *)
Inductive evm_read : Type → Type :=
  | QBlockHeight : evm_read Z
  | QTimelockHeight : evm_read Z
  | AssertClaimTraceSupport (token : list Z) : evm_read unit
  | FetchPrice (feed path : string) : evm_read Price.

(** ** What both directions do *)

Section common.
Context {S Q : Type} `{EqDecision S, EvmQuote Q, SwapShape S}.
#[local] Open Scope io_scope.
#[local] Abbreviation io := (io (qevt S Q evm_read) Error).

(** A requester is metered, an operator is not; [Some reason] refuses. *)
Definition metered (requesterKey : option string) (hash : string) : io (option string) :=
  match requesterKey with
  | None => ret None
  | Some key =>
      live <- findLiveByPaymentHash (Q := Q) hash ;;
      match live with
      | Some _ => ret (Some "duplicate_swap")
      | None =>
          taken <- call (QuoteLimiterTake key) ;;
          ret (if taken : bool then None else Some "rate_limited")
      end
  end.

(** [hash] live in this store or in a peer's. *)
Definition liveSomewhere (peers : nat) (hash : string) : io bool :=
  live <- findLiveByPaymentHash (Q := Q) hash ;;
  match live with Some _ => ret true | None => livePeers peers 0 hash end.

(** [s.slice(2)] *)
Definition slice2 (s : string) : string :=
  match s with String _ (String _ rest) => rest | _ => EmptyString end.

Definition land (i : string) (q : Q) : io (QuoteOutcome S Q) := landing (insert i q).
End common.

(** ** Send *)

Record EvmSendQuoteRequest := mkSendRequest {
  req_paymentHash : string;
  req_tokenAddress : string;
  req_amountSats : Z;
  req_evmClaimAddress : string;
  req_refundAddress : string;
  req_clientRefundPubkey : string;
  req_requesterKey : option string;
  req_rfqId : option string;
}.

Definition sendLockRefusal (r : EvmSendLockRefusal) : string :=
  match r with
  | evm_timeout_in_past => "evm_timeout_in_past"
  | claim_window_too_short => "claim_window_too_short"
  | recourse_after_refund_deadline => "recourse_after_refund_deadline"
  | send_deadlines_cannot_be_ordered => "deadlines_cannot_be_ordered"
  end.

Section send.
Context `{Arkade} (deps : QuoteDeps).
#[local] Open Scope io_scope.
#[local] Abbreviation io := (io (qevt EvmSend.state CommonQuote evm_read) Error).
#[local] Abbreviation outcome := (QuoteOutcome EvmSend.state CommonQuote).
#[local] Abbreviation ark := (arkade deps).
#[local] Abbreviation conf := (chain deps).

(** The covenant a quote is priced against: the solver is its receiver. *)
Definition sendCovenant (req : EvmSendQuoteRequest) (refundPkScript : list Z) (refundAt : Z)
    : result Error CovenantSwapParams :=
  server ← hexBytes (ark_serverPubkey ark);
  receiver ← hexBytes (ark_solverPubkey ark);
  hash ← scriptHashFromPaymentHash (req_paymentHash req);
  client ← hexBytes (req_clientRefundPubkey req);
  emulator ← hexBytes (ark_emulatorPubkey ark);
  receiverScript ← hexBytes (ark_solverPkScript ark);
  Ok (mkParams receiver server hash refundAt (unilateralClaimDelay (delays ark)) client
        (unilateralRefundWithoutReceiverDelay (delays ark)) (unilateralRefundDelay (delays ark))
        emulator receiverScript refundPkScript false).

Definition sendCandidate (req : EvmSendQuoteRequest) (served : EvmMarketTerms) (refundPkScript : list Z)
    (refundAt timeoutHeight until payout amount : Z) : result Error CommonQuote :=
  params ← sendCovenant req refundPkScript refundAt;
  script ← CovenantSwapScript params;
  Ok (mkQuote (req_paymentHash req) (req_amountSats req) payout (pretty amount)
        (token_address (token served)) (contract_address conf) (chain_id conf) timeoutHeight until
        (chain_minConfirmations conf) (chain_minAgeSeconds conf)
        (req_evmClaimAddress req) (hex_encode (solverEvmAddress deps)) refundAt
        (ark_solverPubkey ark) (ark_serverPubkey ark) (unilateralClaimDelay (delays ark))
        (unilateralRefundDelay (delays ark)) (unilateralRefundWithoutReceiverDelay (delays ark))
        (hex_encode script) (vhtlcAddress params (hrp ark) (server params))
        (hex_encode refundPkScript) (ark_emulatorPubkey ark) (req_clientRefundPubkey req)
        (ark_solverPkScript ark) true (req_rfqId req)).

Definition with_validUntil (q : CommonQuote) (until : Z) : CommonQuote :=
  mkQuote (paymentHash q) (amountSats q) (payoutSats q) (evmAmount q) (tokenAddress q)
    (evmContractAddress q) (evmChainId q) (evmTimeout q) until (minConfirmations q) (minAgeSeconds q)
    (evmClaimAddress q) (evmRefundAddress q) (refundLocktime q) (providerPubkey q) (serverPubkey q)
    (claimDelay q) (refundDelay q) (refundWithoutReceiverDelay q) (pkScript q) (lockupAddress q)
    (refundPkScript q) (emulatorPubkey q) (clientRefundPubkey q) (receiverPkScript q)
    (nonInteractiveParameters q) (rfqId q).

Definition quoteBinding (adapter i : string) (q : CommonQuote) : result Error EvmPayoutFundingBinding :=
  match sendLockFromRow q with
  | Err e => Err (MalformedRow e)
  | Ok lock =>
      match payoutFundingBinding adapter i q lock with Ok b => Ok b | Err e => Err (InvalidBinding e) end
  end.

(** Asking the funding adapter: the candidate as it may go out, and its binding. *)
Definition prepare (adapter i : string) (served : EvmMarketTerms) (q : CommonQuote)
    (b : EvmPayoutFundingBinding) : io (CommonQuote * EvmPayoutFundingBinding) :=
  nowSeconds <- call QClock ;;
  blockHeight <- outside QBlockHeight ;;
  timelockHeight <- outside QTimelockHeight ;;
  prepared <- attempt (PrepareQuote b nowSeconds blockHeight timelockHeight (decimals (token served))
                (default EVM_ORDER_MARGIN_SECONDS (orderMarginSeconds conf)) (quoteValiditySeconds conf)) ;;
  end_ <- call QClock ;;
  match prepared with
  | Some until =>
      match integer until with
      | Some until =>
          if negb (isSafeInteger until) || (until <=? end_) || (end_ + quoteValiditySeconds conf <? until) ||
             (refundLocktime q <=? until)
          then throw (Thrown "invalid prepared quote expiry")
          else let q := with_validUntil q until in
               b <- qlift (quoteBinding adapter i q) ;; ret (q, b)
      | None => throw (Thrown "invalid prepared quote expiry")
      end
  | None =>
      if validUntil q <=? end_ then throw (Thrown "prepared quote expired") else ret (q, b)
  end.

Definition abandon (i : string) (b : EvmPayoutFundingBinding) : io unit :=
  try_catch (attempt (AbandonQuote b)) (λ e, call (QReport i e)).

(** [finally { if (preparedBinding) abandon }]: unless a row landed. *)
Definition orAbandon (i : string) (b : EvmPayoutFundingBinding) (work : io outcome) : io outcome :=
  prog_bind work (λ r,
    match r with
    | Ok (Accepted _) => Ret r
    | _ => prog_bind (abandon i b) (λ _, Ret r)
    end).

Definition landPrepared (i : string) (served : EvmMarketTerms) (q : CommonQuote) : io outcome :=
  match fundingIdentity deps with
  | None => land i q
  | Some adapter =>
      b <- qlift (quoteBinding adapter i q) ;;
      prepared <- try_catch (p <- prepare adapter i served q b ;; ret (Some p))
                    (λ e, call (QReport i e) ;;; ret None) ;;
      match prepared with
      | None => orAbandon i b (ret (Refused "execution_unavailable"))
      | Some (q, b) => orAbandon i b (land i q)
      end
  end.

(** What is done while the exposure is reserved. *)
Definition sendQuoteReserved (req : EvmSendQuoteRequest) (served : EvmMarketTerms)
    (refundPkScript : list Z) (refundAt timeoutHeight until payout : Z) : io outcome :=
  priced <- try_catch
    (price <- outside (FetchPrice (priceFeed served) (pricePath served)) ;;
     amount <- qthrow "price" (convertAmount payout price 8 (decimals (token served)) down) ;;
     ret (Some amount))
    (λ _, ret None) ;;
  match priced with
  | None => ret (Refused "price_unavailable")
  | Some amount =>
      if amount <=? 0 then ret (Refused "payout_below_dust")
      else if match tokenLimits served with
              | Some (minUnits, maxUnits) => (amount <? minUnits) || (maxUnits <? amount)
              | None => false
              end
      then ret (Refused "amount_out_of_range")
      else
        i <- call RandomUUID ;;
        q <- qlift (sendCandidate req served refundPkScript refundAt timeoutHeight until payout amount) ;;
        landPrepared i served q
  end.

(** From an accepted pair of deadlines on. *)
Definition sendQuoteOrdered (req : EvmSendQuoteRequest) (served : EvmMarketTerms)
    (refundPkScript : list Z) (nowSeconds refundAt timeoutAt : Z) : io outcome :=
  height <- outside QTimelockHeight ;;
  blocks <- qthrow "cadence" (blocksForDuration (of_Z (timeoutAt - nowSeconds)) (timelockCadence conf)) ;;
  let payout := payoutSatsFor (req_amountSats req) (fee served) in
  if payout <=? 0 then ret (Refused "fee_consumes_swap")
  else
    live <- liveSomewhere (peerStores deps) (req_paymentHash req) ;;
    if live : bool then ret (Refused "duplicate_swap")
    else
      supported <- try_catch
        (bytes <- qlift (hexBytes (slice2 (token_address (token served)))) ;;
         outside (AssertClaimTraceSupport bytes) ;;; ret true)
        (λ e, call (QReport (req_paymentHash req) e) ;;; ret false) ;;
      if negb supported then ret (Refused "execution_unavailable")
      else
        reservation <- admission owes_nothing (reserve (req_amountSats req) (maxExposedSats deps)) ;;
        match reservation with
        | None => ret (Refused "provider_at_capacity")
        | Some r =>
            whileReserved r
              (sendQuoteReserved req served refundPkScript refundAt (height + blocks)
                 (nowSeconds + quoteValiditySeconds conf) payout)
        end.

Definition sendQuote (req : EvmSendQuoteRequest) : io outcome :=
  accepting <- call AcceptingQuotes ;;
  if negb accepting then ret (Refused "provider_at_capacity")
  else
    unmetered <- metered (req_requesterKey req) (req_paymentHash req) ;;
    match unmetered, markets deps !! toLowerCase (req_tokenAddress req) with
    | Some reason, _ => ret (Refused reason)
    | None, None => ret (Refused "unsupported_token")
    | None, Some served =>
        match arkDestination (hrp ark) (req_refundAddress req) with
        | None => ret (Refused "invalid_refund_address")
        | Some refundPkScript =>
            nowSeconds <- call QClock ;;
            acceptance <- qthrow "deadlines"
              (evaluateEvmSendAcceptance (req_amountSats req) (limit_minSats served) (limit_maxSats served)
                 (unilateralClaimDelay (delays ark)) nowSeconds (orderMarginSeconds conf) None) ;;
            match acceptance with
            | EvmAmountOutOfRange => ret (Refused "amount_out_of_range")
            | RefuseEvmSend reason => ret (Refused (sendLockRefusal reason))
            | AcceptEvmSend refundAt timeoutAt =>
                sendQuoteOrdered req served refundPkScript nowSeconds refundAt timeoutAt
            end
        end
    end.
End send.

(** ** Receive *)

Record EvmReceiveQuoteRequest := mkReceiveRequest {
  rreq_paymentHash : string;
  rreq_tokenAddress : string;
  rreq_evmAmount : string;
  rreq_evmTimeout : Z;
  rreq_evmRefundAddress : string;
  rreq_payoutAddress : string;
  rreq_payoutPubkey : string;
  rreq_requesterKey : option string;
  rreq_rfqId : option string;
}.

Definition receiveFundRefusal (r : EvmReceiveFundRefusal) : string :=
  match r with
  | evm_lock_expired => "evm_lock_expired"
  | evm_timeout_too_far_out => "evm_timeout_too_far_out"
  | client_claim_window_too_short => "client_claim_window_too_short"
  | recourse_after_evm_timeout => "recourse_after_evm_timeout"
  | receive_deadlines_cannot_be_ordered => "deadlines_cannot_be_ordered"
  end.

(** Zero, or digits without a leading zero. *)
Definition canonical_decimal (s : string) : bool := bool_decide (s = "0") || positive_decimal s.

Definition MAX_SAFE_INTEGER : Z := 2 ^ 53 - 1.

(** The solver's refund time behind the client's deadline, in seconds — a
    fraction of a second is not a locktime, and throws. *)
Definition receiveDeadlines (margin : option Z) (deadline : Q) (nowSeconds : Z) : result Error (Z + string) :=
  match integer (Fin deadline) with
  | None => Err (Thrown "refundLocktime must be an integer")
  | Some evmTimeoutSeconds =>
      match arkadeRefundLocktimeFor evmTimeoutSeconds nowSeconds margin None with
      | Err _ => Err (Thrown "refundLocktime")
      | Ok (Some refundAt) => Ok (inl refundAt)
      | Ok None =>
          match evaluateEvmReceiveFund evmTimeoutSeconds evmTimeoutSeconds nowSeconds
                  (default EVM_ORDER_MARGIN_SECONDS margin) EVM_MIN_CLAIM_WINDOW_SECONDS with
          | Err _ => Err (Thrown "refundLocktime")
          | Ok FundOk => Ok (inr "deadlines_cannot_be_ordered")
          | Ok (RefuseFund reason) => Ok (inr (receiveFundRefusal reason))
          end
      end
  end.

Section receive.
Context `{Arkade} (deps : QuoteDeps).
#[local] Open Scope io_scope.
#[local] Abbreviation io := (io (qevt EvmReceive.state EvmReceiveQuote evm_read) Error).
#[local] Abbreviation outcome := (QuoteOutcome EvmReceive.state EvmReceiveQuote).
#[local] Abbreviation ark := (arkade deps).
#[local] Abbreviation conf := (chain deps).

(** The roles exchanged: the client is the receiver, the solver the funder. *)
Definition receiveCovenant (req : EvmReceiveQuoteRequest) (payoutPkScript : list Z) (refundAt : Z)
    : result Error CovenantSwapParams :=
  server ← hexBytes (ark_serverPubkey ark);
  receiver ← hexBytes (rreq_payoutPubkey req);
  hash ← scriptHashFromPaymentHash (rreq_paymentHash req);
  client ← hexBytes (ark_solverPubkey ark);
  emulator ← hexBytes (ark_emulatorPubkey ark);
  senderScript ← hexBytes (ark_solverPkScript ark);
  Ok (mkParams receiver server hash refundAt (unilateralClaimDelay (delays ark)) client
        (unilateralRefundWithoutReceiverDelay (delays ark)) (unilateralRefundDelay (delays ark))
        emulator payoutPkScript senderScript false).

Definition receiveCandidate (req : EvmReceiveQuoteRequest) (served : EvmMarketTerms)
    (payoutPkScript : list Z) (params : CovenantSwapParams) (script : list Z)
    (nowSeconds refundAt gross payout : Z) : EvmReceiveQuote :=
  mkReceiveQuote
    (mkQuote (rreq_paymentHash req) gross payout (rreq_evmAmount req)
       (token_address (token served)) (contract_address conf) (chain_id conf) (rreq_evmTimeout req)
       (nowSeconds + quoteValiditySeconds conf)
       (chain_minConfirmations conf) (chain_minAgeSeconds conf)
       (solverClaimAddress deps) (rreq_evmRefundAddress req) refundAt
       (ark_solverPubkey ark) (ark_serverPubkey ark) (unilateralClaimDelay (delays ark))
       (unilateralRefundDelay (delays ark)) (unilateralRefundWithoutReceiverDelay (delays ark))
       (hex_encode script) (vhtlcAddress params (hrp ark) (server params))
       (ark_solverPkScript ark) (ark_emulatorPubkey ark) (ark_solverPubkey ark)
       (hex_encode payoutPkScript) true (rreq_rfqId req))
    (rreq_payoutPubkey req).

(** The sats the tokens are worth, or why they are not priced. *)
Definition priceLocked (served : EvmMarketTerms) (locked : Z) : io (Z + string) :=
  try_catch
    (price <- outside (FetchPrice (priceFeed served) (pricePath served)) ;;
     sats <- qthrow "price" (convertQuoteToBase locked price 8 (decimals (token served)) down) ;;
     ret (if MAX_SAFE_INTEGER <? sats then inr "amount_out_of_range" else inl sats))
    (λ _, ret (inr "price_unavailable")).

(** From a priced amount on. *)
Definition receiveQuotePriced (req : EvmReceiveQuoteRequest) (served : EvmMarketTerms)
    (payoutPkScript : list Z) (gross : Z) : io outcome :=
  if (gross <? limit_minSats served) || (limit_maxSats served <? gross)
  then ret (Refused "amount_out_of_range")
  else
    let payout := payoutSatsFor gross (fee served) in
    if payout <=? 0 then ret (Refused "fee_consumes_swap")
    else
      live <- liveSomewhere (peerStores deps) (rreq_paymentHash req) ;;
      if live : bool then ret (Refused "duplicate_swap")
      else
        nowSeconds <- call QClock ;;
        height <- outside QTimelockHeight ;;
        deadline <- qthrow "cadence"
          (deadlineSecondsForBlock (rreq_evmTimeout req) height nowSeconds (timelockCadence conf)) ;;
        ordered <- qlift (receiveDeadlines (orderMarginSeconds conf) deadline nowSeconds) ;;
        match ordered with
        | inr reason => ret (Refused reason)
        | inl refundAt =>
            params <- qlift (receiveCovenant req payoutPkScript refundAt) ;;
            script <- qlift (CovenantSwapScript params) ;;
            reservation <- admission owes_nothing (reserve payout (maxExposedSats deps)) ;;
            match reservation with
            | None => ret (Refused "provider_at_capacity")
            | Some r =>
                whileReserved r
                  (i <- call RandomUUID ;;
                   land i (receiveCandidate req served payoutPkScript params script nowSeconds refundAt gross payout))
            end
        end.

Definition receiveQuote (req : EvmReceiveQuoteRequest) : io outcome :=
  unmetered <- metered (rreq_requesterKey req) (rreq_paymentHash req) ;;
  match unmetered, markets deps !! toLowerCase (rreq_tokenAddress req) with
  | Some reason, _ => ret (Refused reason)
  | None, None => ret (Refused "unsupported_token")
  | None, Some served =>
      match arkDestination (hrp ark) (rreq_payoutAddress req) with
      | None => ret (Refused "invalid_payout_address")
      | Some payoutPkScript =>
          match canonical_decimal (rreq_evmAmount req), decimal (rreq_evmAmount req) with
          | true, Some locked =>
              if locked <=? 0 then ret (Refused "invalid_evm_amount")
              else if match tokenLimits served with
                      | Some (minUnits, maxUnits) => (locked <? minUnits) || (maxUnits <? locked)
                      | None => false
                      end
              then ret (Refused "amount_out_of_range")
              else
                priced <- priceLocked served locked ;;
                match priced with
                | inr reason => ret (Refused reason)
                | inl gross => receiveQuotePriced req served payoutPkScript gross
                end
          | _, _ => ret (Refused "invalid_evm_amount")
          end
      end
  end.
End receive.
