(* ===== verification/QuoteProof.v ===== *)
(** * What a quote does

    What the quotes of [QuoteService], the EVM corridors', promise, by the rules
    of [QuoteRules]. *)
From Stdlib Require Import QArith_base Qround.
From S2P Require Import Prelude JsString StateMachine Timelocks EvmPolicy BlockTime Prog SwapDb EvmRow Store EvmStore Covenant Admission Pricing RateLimit Quote QuoteRules QuoteService.
#[local] Open Scope Z_scope.

Section shared.
Context {S Q : Type} `{EqDecision S, EvmQuote Q, SwapShape S}.
#[local] Abbreviation qtriple := (qtriple (S := S) (Q := Q) (R := evm_read)).

Lemma metered_spec key hash d a o :
  qtriple (At d a o) (metered key hash) (λ _, At d a o) (λ _, Clean a o).
Proof.
  unfold metered. destruct key as [key|]; [|by apply q_ret].
  eapply q_bind; [by apply q_read_row|]. intros [r|]; [by apply q_ret|].
  eapply q_bind; [by apply q_look|]. intros []; by apply q_ret.
Qed.

Lemma liveSomewhere_spec peers hash d a o :
  qtriple (At d a o) (liveSomewhere peers hash) (λ _, At d a o) (λ _, Clean a o).
Proof.
  unfold liveSomewhere. eapply q_bind; [by apply q_read_row|].
  intros [r|]; [by apply q_ret|apply livePeers_spec].
Qed.

Lemma land_spec i q d a o (good : string → Q → Prop) :
  good i q → qtriple (At d a o) (land i q) (Settled d a o good) (λ _, Clean a o).
Proof.
  intros Hgood. apply (landing_spec i q). unfold insert.
  eapply q_bind; [by apply (q_look QClock (At d a o) d a o)|]. intros at_.
  set (row := mkRow i state_quoted at_ at_ q ∅).
  eapply q_bind; [apply (insert_row_spec row)|]. intros ?. apply q_pure. intros _.
  eapply q_bind; [apply insert_event_spec|]. intros ?.
  eapply q_conseq; [by apply (get_written i row)|done| |done].
  intros r w [-> Hw]. by exists at_.
Qed.

(** Around a reservation of [n] sats. *)
Lemma reserving_spec n cap d a o refusal (work : Reservation → io (qevt S Q evm_read) Error (QuoteOutcome S Q))
    (P : QuoteOutcome S Q → list (Row S Q) → Opened → Prop) (F : Opened → Prop) :
  adm_wf a → P (Refused refusal) (rows d) o → F o →
  (∀ r a', Holding a r a' → qtriple (At d a' o) (work r)
     (λ x w, q_adm w = a' ∧ P x (rows (q_db w)) (q_open w)) (λ _ w, q_adm w = a' ∧ F (q_open w))) →
  qtriple (At d a o)
    (bind (admission owes_nothing (reserve n cap)) (λ reservation,
       match reservation with None => ret (Refused refusal) | Some r => whileReserved r (work r) end))
    (λ x w, unchanged a (q_adm w) ∧ P x (rows (q_db w)) (q_open w))
    (λ _ w, unchanged a (q_adm w) ∧ F (q_open w)).
Proof.
  intros Hwf HP HF Hwork. unfold admission.
  eapply (q_bind _ _ _ (λ reservation w, ∃ a', At d a' o w ∧
    match reservation with Some res => Holding a res a' | None => a' = a end)).
  - eapply (q_bind _ _ _ (λ r w, ∃ a', At d a' o w ∧
      match r.1 with Some res => Holding a res a' | None => a' = a end)); [|by intros [r ceiling]; apply q_ret].
    eapply q_conseq; [apply (admission_noting_spec owes_nothing None (reserve n cap) d a o _
      (λ b pool, q_ret _ _ _ _ (λ _ H, H)) (reserve_yields n cap a))|done| |].
    + intros [[res|] ceiling] w (a' & Hat & Hr); [exists a'; split; [done|apply Hr]|by exists a'].
    + intros e w (e' & a' & (_ & <- & <-) & ->). done.
  - intros [r|]; apply q_exists; intros a'; apply q_pure; [intros Hh|intros ->].
    + apply (whileReserved_spec r (work r) d a a' o P (λ _ _, F)); [done..|]. by apply Hwork.
    + apply q_ret. by intros w (-> & -> & ->).
Qed.
End shared.

(** ** What an accepted quote promises *)

Definition in_units (served : EvmMarketTerms) (amount : Z) : Prop :=
  match tokenLimits served with Some (lo, hi) => lo ≤ amount ≤ hi | None => True end.

(** The row rebuilds the covenant whose script and address it names. *)
Definition rebuilds `{Arkade} (hrp : string) (c : CovenantScriptRow) (lockupAddress : string)
    (receiverKey clientKey : string) (receiverPk senderPk : list Z) : Prop :=
  ∃ params script, covenantScriptFromRow c = Ok (params, script) ∧
    cov_pkScript c = hex_encode script ∧ lockupAddress = vhtlcAddress params hrp (server params) ∧
    hex_decode receiverKey = Some (receiver params) ∧ hex_decode clientKey = Some (client params) ∧
    receiverScript params = receiverPk ∧ senderScript params = senderPk ∧ legacy params = false.

Definition send_promise `{Arkade} (deps : QuoteDeps) (req : EvmSendQuoteRequest) (i : string) (q : CommonQuote)
    : Prop :=
  ∃ served refundPk receiverPk price amount nowSeconds timeoutAt height blocks end_,
    markets deps !! toLowerCase (req_tokenAddress req) = Some served ∧
    arkDestination (hrp (arkade deps)) (req_refundAddress req) = Some refundPk ∧
    hex_decode (ark_solverPkScript (arkade deps)) = Some receiverPk ∧
    paymentHash q = req_paymentHash req ∧ amountSats q = req_amountSats req ∧
    limit_minSats served ≤ amountSats q ≤ limit_maxSats served ∧
    payoutSats q = payoutSatsFor (amountSats q) (fee served) ∧ 0 < payoutSats q ∧
    convertAmount (payoutSats q) price 8 (decimals (token served)) down = Ok amount ∧
    evmAmount q = pretty amount ∧ 0 < amount ∧ in_units served amount ∧
    evaluateEvmSendLock timeoutAt (refundLocktime q) nowSeconds
      (default EVM_ORDER_MARGIN_SECONDS (orderMarginSeconds (chain deps))) EVM_MIN_CLAIM_WINDOW_SECONDS = Ok LockOk ∧
    blocksForDuration (of_Z (timeoutAt - nowSeconds)) (timelockCadence (chain deps)) = Ok blocks ∧
    evmTimeout q = height + blocks ∧
    (validUntil q = nowSeconds + quoteValiditySeconds (chain deps) ∨
     end_ < validUntil q ≤ end_ + quoteValiditySeconds (chain deps) ∧ validUntil q < refundLocktime q) ∧
    evmClaimAddress q = req_evmClaimAddress req ∧ evmRefundAddress q = hex_encode (solverEvmAddress deps) ∧
    tokenAddress q = token_address (token served) ∧
    rebuilds (hrp (arkade deps)) (evmSendCovenantRowFor i q) (lockupAddress q)
      (ark_solverPubkey (arkade deps)) (req_clientRefundPubkey req) receiverPk refundPk.

(** ** The send quote *)

Lemma hexBytes_Ok s bytes : hexBytes s = Ok bytes ↔ hex_decode s = Some bytes.
Proof. unfold hexBytes. destruct (hex_decode s); naive_solver. Qed.
Lemma hexBytes_nonempty s bytes : hexBytes s = Ok bytes → bytes ≠ [] → s ≠ "".
Proof. intros Hb Hn ->. apply hexBytes_Ok in Hb. by injection Hb as <-. Qed.
Lemma hex_encode_nonempty bytes : bytes ≠ [] → hex_encode bytes ≠ "".
Proof. by destruct bytes. Qed.

(** A covenant row with the parts a script was built from rebuilds it. *)
Lemma covenant_rebuilt `{Arkade} c p script :
  CovenantSwapScript p = Ok script →
  hexBytes (cov_receiverPubkey c) = Ok (receiver p) → hexBytes (cov_serverPubkey c) = Ok (server p) →
  scriptHashFromPaymentHash (cov_paymentHash c) = Ok (preimageHash p) →
  hexBytes (cov_clientRefundPubkey c) = Ok (client p) → hexBytes (cov_emulatorPubkey c) = Ok (emulator p) →
  hexBytes (cov_receiverPkScript c) = Ok (receiverScript p) → hexBytes (cov_refundPkScript c) = Ok (senderScript p) →
  cov_refundLocktime c = covenantRefundLocktime p → cov_claimDelay c = covenantClaimDelay p →
  cov_refundWithoutReceiverDelay c = clientRefundDelay p → cov_refundDelay c = refundWithoutServerDelay p →
  cov_nonInteractiveParameters c = negb (legacy p) →
  covenantScriptFromRow c = Ok (p, script).
Proof.
  intros Hs H1 H2 H3 H4 H5 H6 H7 E1 E2 E3 E4 E5.
  pose proof (CovenantSwapScript_Ok p script Hs) as (Hem & Hse & _).
  unfold covenantScriptFromRow. rewrite !bool_decide_false; cbn [orb].
  - rewrite H1, H2, H3, H4, H5, H6, H7. cbn. rewrite E1, E2, E3, E4, E5, negb_involutive.
    destruct p; cbn in *. rewrite Hs. done.
  - eapply hexBytes_nonempty; [exact H5|]. intros He. rewrite He in Hem. cbn in Hem. lia.
  - eapply hexBytes_nonempty; [exact H7|]. intros He. rewrite He in Hse. done.
Qed.

Section send.
Context `{Arkade} (deps : QuoteDeps) (req : EvmSendQuoteRequest).
Context (decoded_bytes : ∀ s bytes, arkAddressDecode s = Some bytes → Forall is_byte bytes).
#[local] Abbreviation W := (QWorld EvmSend.state CommonQuote).
#[local] Abbreviation conf := (chain deps).

Lemma quoteBinding_id adapter i q b : quoteBinding adapter i q = Ok b → intentId b = i.
Proof.
  unfold quoteBinding, payoutFundingBinding. destruct (sendLockFromRow q); [|done].
  destruct (_ ← throw_if _ _; _) as [b'|e] eqn:Hb; [|done]. intros [= ->].
  repeat (apply bind_Ok in Hb as (? & _ & Hb)). by injection Hb as <-.
Qed.

Lemma sendCandidate_rebuilds served refundPk refundAt th until payout amount q i :
  Forall is_byte refundPk →
  sendCandidate deps req served refundPk refundAt th until payout amount = Ok q →
  (∃ receiverPk, hex_decode (ark_solverPkScript (arkade deps)) = Some receiverPk ∧
    rebuilds (hrp (arkade deps)) (evmSendCovenantRowFor i q) (lockupAddress q)
      (ark_solverPubkey (arkade deps)) (req_clientRefundPubkey req) receiverPk refundPk) ∧
  paymentHash q = req_paymentHash req ∧ amountSats q = req_amountSats req ∧ payoutSats q = payout ∧
  evmAmount q = pretty amount ∧ tokenAddress q = token_address (token served) ∧ evmTimeout q = th ∧
  validUntil q = until ∧ refundLocktime q = refundAt ∧ evmClaimAddress q = req_evmClaimAddress req ∧
  evmRefundAddress q = hex_encode (solverEvmAddress deps).
Proof.
  intros Hbytes Hq. unfold sendCandidate in Hq. apply bind_Ok in Hq as (p & Hp & Hq).
  apply bind_Ok in Hq as (script & Hs & [= <-]). unfold sendCovenant in Hp.
  apply bind_Ok in Hp as (rc & Hrc & Hp). apply bind_Ok in Hp as (sv & Hsv & Hp).
  apply bind_Ok in Hp as (h & Hh & Hp). apply bind_Ok in Hp as (cl & Hcl & Hp).
  apply bind_Ok in Hp as (em & Hem & Hp). apply bind_Ok in Hp as (rs & Hrs & [= <-]).
  split; [|done]. exists rs. split; [by apply hexBytes_Ok|].
  eexists _, script. split_and!; [|done|done|by apply hexBytes_Ok|by apply hexBytes_Ok|done|done|done].
  apply covenant_rebuilt; try done. cbn. apply hexBytes_Ok. by apply hex_decode_encode.
Qed.

(** The candidate as priced, or with the validity its funding was prepared for. *)
Definition send_candidate (served : EvmMarketTerms) (refundPk : list Z) (refundAt th until payout : Z)
    (q : CommonQuote) : Prop :=
  ∃ price amount q0 end_,
    convertAmount payout price 8 (decimals (token served)) down = Ok amount ∧ 0 < amount ∧
    in_units served amount ∧ sendCandidate deps req served refundPk refundAt th until payout amount = Ok q0 ∧
    (q = q0 ∨ ∃ u, q = with_validUntil q0 u ∧ end_ < u ≤ end_ + quoteValiditySeconds conf ∧ u < refundAt).

(** The preparation of [i] may be open. *)
Definition Preparing (d : EvmSendDb) (a : AdmissionControl) (o : Opened) (i : string) (w : W) : Prop :=
  ∃ o', At d a o' w ∧ (o' = o ∨ o' = add_preparation i o).

Lemma prepare_spec adapter i served q b d a o :
  quoteBinding adapter i q = Ok b →
  qtriple (At d a o) (prepare deps adapter i served q b)
    (λ r w, Preparing d a o i w ∧ quoteBinding adapter i r.1 = Ok r.2 ∧
       (r.1 = q ∨ ∃ u end_, r.1 = with_validUntil q u ∧ end_ < u ≤ end_ + quoteValiditySeconds conf ∧
                  u < refundLocktime q))
    (λ _ w, q_adm w = a ∧ (q_open w = o ∨ q_open w = add_preparation i o) ∧ q_db w = d).
Proof.
  intros Hb. pose proof (quoteBinding_id _ _ _ _ Hb) as Hid. unfold prepare.
  eapply q_bind; [by apply (q_look QClock (At d a o) d a o)|]. intros now.
  eapply (q_bind _ _ _ (λ _, At d a o)).
  { apply q_attempt. intros w w' x Hw ->. destruct Hw as (Hd & Ha & Ho). destruct x; [done|]. by split_and!; [|left|]. }
  intros height. eapply (q_bind _ _ _ (λ _, At d a o)).
  { apply q_attempt. intros w w' x Hw ->. destruct Hw as (Hd & Ha & Ho). destruct x; [done|]. by split_and!; [|left|]. }
  intros theight. eapply (q_bind _ _ _ (λ _, Preparing d a o i)).
  { apply q_attempt. intros w w' x (Hd & Ha & Ho) Hh. cbn in Hh. rewrite Hid, Ho in Hh.
    destruct Hh as [->|[-> [e ->]]]; [|by split_and!; [|left|]].
    destruct x; [|by split_and!; [|right|]]. eexists. split; [by split_and!|by right]. }
  intros prepared. eapply (q_bind _ _ _ (λ _, Preparing d a o i)).
  { apply q_call. intros w w' x Hw ->. done. }
  assert (∀ w, Preparing d a o i w → q_adm w = a ∧ (q_open w = o ∨ q_open w = add_preparation i o) ∧ q_db w = d) as Hfail.
  { intros w (o' & (Hd & Ha & <-) & Ho). by split_and!. }
  intros end_. destruct prepared as [until|].
  2: { case_match; [by apply q_throw|]. apply q_ret. intros w Hw. split_and!; [done|done|by left]. }
  destruct (integer until) as [u|]; [|by apply q_throw].
  case_match eqn:Hc; [by apply q_throw|]. bool_to_prop.
  eapply q_bind; [by apply q_lifted; intros e w Hw _; apply Hfail|].
  intros b'. apply q_ret. intros w [Hw Hb']. split_and!; [done|done|]. right. exists u, end_.
  split_and!; [done|lia|lia|lia].
Qed.

(** A send quote that is over: an accepted one may have prepared its funding; any
    other has abandoned what it prepared, or tried to. *)
Definition send_landed (d : EvmSendDb) (o : Opened) (good : string → CommonQuote → Prop)
    (out : QuoteOutcome EvmSend.state CommonQuote) (rs : list EvmSendRow) (op : Opened) : Prop :=
  match out with
  | Accepted row => ∃ i q at_, row = mkRow i EvmSend.quoted at_ at_ q ∅ ∧ rs = rows d ++ [row] ∧
      (op = o ∨ op = add_preparation i o) ∧ good i q
  | Refused _ => rs = rows d ∧ abandoned o op
  end.
Definition SendSettled (d : EvmSendDb) (a : AdmissionControl) (o : Opened) (good : string → CommonQuote → Prop)
    (out : QuoteOutcome EvmSend.state CommonQuote) (w : W) : Prop :=
  q_adm w = a ∧ send_landed d o good out (rows (q_db w)) (q_open w).
Definition SendClean (a : AdmissionControl) (o : Opened) (w : W) : Prop := q_adm w = a ∧ abandoned o (q_open w).
Definition SendQuoted (d : EvmSendDb) (a : AdmissionControl) (o : Opened) (good : string → CommonQuote → Prop)
    (out : QuoteOutcome EvmSend.state CommonQuote) (w : W) : Prop :=
  unchanged a (q_adm w) ∧ send_landed d o good out (rows (q_db w)) (q_open w).
Definition SendFailed (a : AdmissionControl) (o : Opened) (w : W) : Prop :=
  unchanged a (q_adm w) ∧ abandoned o (q_open w).

Lemma Clean_SendFailed a o w : Clean a o w → SendFailed a o w.
Proof. intros [Ha Ho]. unfold SendFailed. rewrite Ha, Ho. split; [done|by left]. Qed.
Lemma Clean_SendClean a o w : Clean a o w → SendClean a o w.
Proof. intros [Ha Ho]. split; [done|by left]. Qed.
Lemma At_SendFailed d a o w : At d a o w → SendFailed a o w.
Proof. intros Hw. by eapply Clean_SendFailed, At_Clean. Qed.
Lemma At_SendRefused d a o good reason w : At d a o w → SendQuoted d a o good (Refused reason) w.
Proof. intros (Hd & Ha & Ho). unfold SendQuoted. rewrite Hd, Ha, Ho. split; [done|]. split; [done|by left]. Qed.

Lemma orAbandon_spec adapter i q b d a o (work : io _ Error (QuoteOutcome EvmSend.state CommonQuote)) good :
  quoteBinding adapter i q = Ok b → (i ∉ preparations o) →
  (∀ o', (o' = o ∨ o' = add_preparation i o) → qtriple (At d a o') work
     (Settled d a o' (λ j q, j = i ∧ good j q)) (λ _, Clean a o')) →
  qtriple (Preparing d a o i) (orAbandon i b work) (SendSettled d a o good) (λ _, SendClean a o).
Proof.
  intros Hb Hi Hwork. pose proof (quoteBinding_id _ _ _ _ Hb) as Hid.
  intros w Hw (o' & Hat & Ho'). unfold orAbandon. apply wp_bind; [apply _|].
  eapply wp_mono; [|by apply (Hwork o' Ho' w)].
  assert (∀ (r : result Error (QuoteOutcome EvmSend.state CommonQuote)) w1,
    q_adm w1 = a → q_open w1 = o' → match r with Ok (Accepted _) => False | Ok _ => rows (q_db w1) = rows d | Err _ => True end →
    wp qhandle (λ _, True) QRely 0 (prog_bind (abandon i b) (λ _, Ret r)) (outcome (SendSettled d a o good) (λ _, SendClean a o)) w1) as Hab.
  { intros r w1 Ha Ho Hr. unfold abandon, try_catch. cbn.
    assert (∀ w2 : W, q_adm w2 = a → q_db w2 = q_db w1 → abandoned o (q_open w2) →
      outcome (SendSettled d a o good) (λ _, SendClean a o) r w2) as Hover.
    { intros w2 Ha2 Hd2 Hop. destruct r as [[]|]; [done|split; [done|split; [by rewrite Hd2|done]]|by split]. }
    event w2 x2 Hh. rewrite Hid, Ho in Hh. destruct x2 as [[]|e]; cbn.
    - intros w3 Hr3 _. rewrite (Hr3 eq_refl). subst w2. apply Hover; [done|done|]. left. cbn. by apply (drop_added i o o').
    - event w3 x3 Hh'. subst w3. intros w4 Hr4 _. rewrite (Hr4 eq_refl). clear w4 Hr4.
      destruct Hh as [->| ->]; (apply Hover; [done|done|]); right; exists i; (split; [done|]).
      + destruct Ho' as [->| ->]; [by left|by right].
      + left. cbn. by rewrite (drop_added i o o'). }
  intros r w1 _ Hr. destruct r as [[row|reason]|e]; cbn in Hr.
  - intros w2 Hr2 _. rewrite (Hr2 eq_refl). destruct Hr as (Ha & j & q' & at_ & Hrow & Hrows & Hop & -> & Hgood).
    split; [done|]. exists i, q', at_. by rewrite Hop.
  - destruct Hr as (Ha & Hrows & Ho). by apply Hab.
  - destruct Hr as (Ha & Ho). by apply Hab.
Qed.

Lemma landPrepared_spec i served refundPk refundAt th until payout q d a o :
  (i ∉ preparations o) → (∃ price amount,
    convertAmount payout price 8 (decimals (token served)) down = Ok amount ∧ 0 < amount ∧
    in_units served amount ∧ sendCandidate deps req served refundPk refundAt th until payout amount = Ok q) →
  qtriple (At d a o) (landPrepared deps i served q)
    (SendSettled d a o (λ _, send_candidate served refundPk refundAt th until payout)) (λ _, SendClean a o).
Proof.
  intros Hi (price & amount & Hconv & Hpos & Hin & Hq).
  assert (refundLocktime q = refundAt) as Hrefund.
  { unfold sendCandidate in Hq. apply bind_Ok in Hq as (? & _ & Hq). by apply bind_Ok in Hq as (? & _ & [= <-]). }
  unfold landPrepared. destruct (fundingIdentity deps) as [adapter|].
  2: { eapply q_conseq; [apply (land_spec i q d a o (λ _, send_candidate served refundPk refundAt th until payout))|done| |].
       - exists price, amount, q, 0. split_and!; try done. by left.
       - intros [row|reason] w [Ha Hout]; (split; [done|]).
         + destruct Hout as (j & q' & at_ & ? & ? & ? & ?). exists j, q', at_. split_and!; try done. by left.
         + destruct Hout. split; [done|by left].
       - intros e w. apply Clean_SendClean. }
  eapply q_bind; [by apply q_lifted; intros e w Hw _; eapply Clean_SendClean, At_Clean|]. intros b.
  apply q_pure. intros Hb.
  eapply (q_bind _ _ _ (λ p w, Preparing d a o i w ∧ match p with
    | None => True
    | Some (q', b') => quoteBinding adapter i q' = Ok b' ∧
        (q' = q ∨ ∃ u end_, q' = with_validUntil q u ∧ end_ < u ≤ end_ + quoteValiditySeconds conf ∧ u < refundAt)
    end)).
  { eapply q_catch.
    - eapply q_bind; [by apply (prepare_spec adapter i served q b)|]. intros [q' b']. apply q_ret.
      intros w (Hw & Hb' & Hq'). by rewrite Hrefund in Hq'.
    - intros e. cbn beta. eapply (q_bind _ _ _ (λ _, Preparing d a o i)).
      + apply q_call. intros w w' x (Ha & Ho & Hd) ->. exists (q_open w). split; [by split_and!|done].
      + intros ?. by apply q_ret. }
  intros [[q' b']|].
  - apply q_pure. intros [Hb' Hq']. apply (orAbandon_spec adapter i q' b'); [done|done|]. intros o' _.
    apply land_spec. split; [done|]. destruct Hq' as [->|(u & end_ & -> & Hu & Hr)].
    + exists price, amount, q, 0. split_and!; try done. by left.
    + exists price, amount, q, end_. split_and!; try done. right. by exists u.
  - eapply q_conseq; [apply (orAbandon_spec adapter i q b d a o _ (λ _ _, False)); [done|done|]| | |done].
    + intros o' _. apply q_ret. by intros w (Hd & Ha & Ho); split; [|split; [by rewrite Hd|]].
    + by intros w [Hw _].
    + intros out w [Ha Hout]. split; [done|]. destruct out; [|done]. by destruct Hout as (? & ? & ? & ? & ? & ? & []).
Qed.

Lemma sendQuoteReserved_spec served refundPk refundAt th until payout d a o :
  qtriple (At d a o) (sendQuoteReserved deps req served refundPk refundAt th until payout)
    (SendSettled d a o (λ _, send_candidate served refundPk refundAt th until payout)) (λ _, SendClean a o).
Proof.
  assert (∀ w reason, At d a o w → SendSettled d a o (λ _, send_candidate served refundPk refundAt th until payout)
            (Refused reason) w) as Hrefuse.
  { intros w reason (Hd & Ha & Ho). split; [done|]. rewrite Hd. split; [done|by left]. }
  unfold sendQuoteReserved.
  eapply (q_bind _ _ _ (λ p w, At d a o w ∧ match p with
    | Some amount => ∃ price, convertAmount payout price 8 (decimals (token served)) down = Ok amount
    | None => True end)).
  { apply (q_catch _ _ _ _ (λ _, At d a o)).
    - eapply (q_bind _ _ _ (λ _, At d a o)).
      { apply q_attempt. intros w w' x Hw ->. by destruct x. }
      intros price. eapply q_bind; [by apply (q_checked "price")|]. intros amount. apply q_ret.
      intros w [Hw Hc]. split; [done|]. by exists price.
    - intros e. by apply q_ret. }
  intros [amount|]; [|by apply q_ret; intros w [Hw _]; apply Hrefuse].
  apply q_pure. intros [price Hconv].
  destruct (amount <=? 0) eqn:Hpos; [by apply q_ret; intros; apply Hrefuse|]. bool_to_prop.
  match goal with |- context [if ?b then _ else _] => destruct b eqn:Hunits end;
    [by apply q_ret; intros; apply Hrefuse|].
  eapply (q_bind _ _ _ (λ i w, At d a o w ∧ i ∉ preparations o)).
  { apply q_call. intros w w' x (Hd & Ha & Ho) [-> Hx]. split; [by split_and!|by rewrite <- Ho]. }
  intros i. apply q_pure. intros Hi.
  eapply q_bind; [by apply q_lifted; intros e w Hw _; eapply Clean_SendClean, At_Clean|]. intros q. apply q_pure. intros Hq.
  apply landPrepared_spec; [done|]. exists price, amount. split_and!; [done|done| |done].
  unfold in_units. destruct (tokenLimits served) as [[lo hi]|]; [|done]. bool_to_prop. lia.
Qed.

Lemma acceptance_ordered sats lo hi delay now margin R T :
  evaluateEvmSendAcceptance sats lo hi delay now margin None = Ok (AcceptEvmSend R T) →
  lo ≤ sats ≤ hi ∧
  evaluateEvmSendLock T R now (default EVM_ORDER_MARGIN_SECONDS margin) EVM_MIN_CLAIM_WINDOW_SECONDS = Ok LockOk.
Proof.
  unfold evaluateEvmSendAcceptance. destruct (_ || _) eqn:Hlim; [done|]. rewrite Z.gtb_ltb in Hlim. bool_to_prop.
  intros He. apply bind_Ok in He as ([|reason] & Hl & He); [|done]. injection He as <- <-. split; [lia|exact Hl].
Qed.

Lemma sendQuoteOrdered_spec served refundPk now R T d a o :
  adm_wf a → Forall is_byte refundPk →
  markets deps !! toLowerCase (req_tokenAddress req) = Some served →
  arkDestination (hrp (arkade deps)) (req_refundAddress req) = Some refundPk →
  limit_minSats served ≤ req_amountSats req ≤ limit_maxSats served →
  evaluateEvmSendLock T R now (default EVM_ORDER_MARGIN_SECONDS (orderMarginSeconds conf))
    EVM_MIN_CLAIM_WINDOW_SECONDS = Ok LockOk →
  qtriple (At d a o) (sendQuoteOrdered deps req served refundPk now R T)
    (SendQuoted d a o (send_promise deps req)) (λ _, SendFailed a o).
Proof.
  intros Hwf Hbytes Hserved Hdest Hlim Hlock. unfold sendQuoteOrdered.
  apply (q_harmless _ _ _ (SendFailed a o) d a o (Clean_SendFailed a o)); [by apply q_ask|]. intros height.
  eapply q_bind; [by apply q_checked; intros; by eapply At_SendFailed|]. intros blocks.
  apply q_pure. intros Hblocks. cbn zeta. set (payout := payoutSatsFor (req_amountSats req) (fee served)).
  destruct (payout <=? 0) eqn:Hpay; [by apply q_ret; intros; apply At_SendRefused|]. bool_to_prop.
  apply (q_harmless _ _ _ (SendFailed a o) d a o (Clean_SendFailed a o)); [apply liveSomewhere_spec|]. intros [|]; [by apply q_ret; intros; apply At_SendRefused|].
  eapply (q_bind _ _ _ (λ _, At d a o)).
  { apply (q_catch _ _ _ _ (λ _, At d a o)).
    - eapply q_bind; [by apply q_lifted|]. intros bytes. apply q_pure. intros _.
      eapply (q_bind _ _ _ (λ _, At d a o)); [|by intros ?; apply q_ret].
      apply q_attempt. intros w w' x Hw ->. by destruct x.
    - intros e. eapply q_bind; [by apply (q_look (QReport _ e) (At d a o) d a o)|]. intros ?. by apply q_ret. }
  intros []; cbn [negb]; [|by apply q_ret; intros; apply At_SendRefused].
  apply (reserving_spec _ _ d a o _ _ (send_landed d o (send_promise deps req)) (abandoned o));
    [done|split; [done|by left]|by left|]. intros r a' _.
  eapply q_conseq; [apply sendQuoteReserved_spec|done| |done].
  intros [row|reason] w [Ha Hout]; split; try done. destruct Hout as (i & q & at_ & Hrow & Hrows & Hop & Hgood).
  exists i, q, at_. split_and!; [done|done|done|].
  destruct Hgood as (price & amount & q0 & end_ & Hconv & Hpos & Hunits & Hq0 & Hq).
  destruct (sendCandidate_rebuilds _ _ _ _ _ _ _ _ i Hbytes Hq0)
    as ((receiverPk & Hrpk & Hre) & H1 & H2 & H3 & H4 & H5 & H6 & H7 & H8 & H9 & H10).
  exists served, refundPk, receiverPk, price, amount, now, T, height, blocks, end_.
  destruct Hq as [->|(u & -> & Hu & Hur)].
  - rewrite H1, H2, H3, H4, H5, H6, H7, H8, H9, H10. split_and!; try done; lia.
  - cbn [with_validUntil paymentHash amountSats payoutSats evmAmount tokenAddress evmTimeout validUntil
      refundLocktime evmClaimAddress evmRefundAddress lockupAddress].
    rewrite H1, H2, H3, H4, H5, H6, H8, H9, H10. split_and!; try done; lia.
Qed.

Lemma sendQuote_spec d a o :
  adm_wf a →
  qtriple (At d a o) (sendQuote deps req) (SendQuoted d a o (send_promise deps req)) (λ _, SendFailed a o).
Proof.
  intros Hwf. unfold sendQuote.
  eapply q_bind; [by apply (q_look AcceptingQuotes (At d a o) d a o)|].
  intros []; cbn [negb]; [|by apply q_ret; intros; apply At_SendRefused].
  apply (q_harmless _ _ _ (SendFailed a o) d a o (Clean_SendFailed a o)); [apply metered_spec|]. intros unmetered.
  destruct unmetered as [reason|]; [by apply q_ret; intros; apply At_SendRefused|].
  destruct (markets deps !! _) as [served|] eqn:Hserved; [|by apply q_ret; intros; apply At_SendRefused].
  destruct (arkDestination _ _) as [refundPk|] eqn:Hdest; [|by apply q_ret; intros; apply At_SendRefused].
  eapply q_bind; [by apply (q_look QClock (At d a o) d a o)|]. intros now.
  eapply q_bind; [by apply q_checked; intros; by eapply At_SendFailed|]. intros acceptance.
  apply q_pure. intros Hacc.
  destruct acceptance as [R T| |reason]; [|by apply q_ret; intros; apply At_SendRefused..].
  apply acceptance_ordered in Hacc as [Hlim Hlock]. apply sendQuoteOrdered_spec; try done.
  unfold arkDestination in Hdest. destruct (arkAddressDecode _) as [bytes|] eqn:Hdec; [|done].
  destruct (String.prefix _ _); [|done]. injection Hdest as <-. by eapply decoded_bytes.
Qed.
End send.

(** ** The receive quote *)

Definition receive_promise `{Arkade} (deps : QuoteDeps) (req : EvmReceiveQuoteRequest) (i : string)
    (q : EvmReceiveQuote) : Prop :=
  let c := receive_common q in
  ∃ served payoutPk senderPk price locked nowSeconds height deadline T,
    markets deps !! toLowerCase (rreq_tokenAddress req) = Some served ∧
    arkDestination (hrp (arkade deps)) (rreq_payoutAddress req) = Some payoutPk ∧
    hex_decode (ark_solverPkScript (arkade deps)) = Some senderPk ∧
    paymentHash c = rreq_paymentHash req ∧ evmAmount c = rreq_evmAmount req ∧
    decimal (rreq_evmAmount req) = Some locked ∧ 0 < locked ∧ in_units served locked ∧
    convertQuoteToBase locked price 8 (decimals (token served)) down = Ok (amountSats c) ∧
    amountSats c ≤ MAX_SAFE_INTEGER ∧ limit_minSats served ≤ amountSats c ≤ limit_maxSats served ∧
    payoutSats c = payoutSatsFor (amountSats c) (fee served) ∧ 0 < payoutSats c ∧
    deadlineSecondsForBlock (rreq_evmTimeout req) height nowSeconds (timelockCadence (chain deps)) = Ok deadline ∧
    integer (Fin deadline) = Some T ∧ evmTimeout c = rreq_evmTimeout req ∧
    evaluateEvmReceiveFund T (refundLocktime c) nowSeconds
      (default EVM_ORDER_MARGIN_SECONDS (orderMarginSeconds (chain deps))) EVM_MIN_CLAIM_WINDOW_SECONDS = Ok FundOk ∧
    validUntil c = nowSeconds + quoteValiditySeconds (chain deps) ∧
    evmClaimAddress c = solverClaimAddress deps ∧ evmRefundAddress c = rreq_evmRefundAddress req ∧
    tokenAddress c = token_address (token served) ∧
    rebuilds (hrp (arkade deps)) (evmReceiveCovenantRowFor i c (payoutPubkey q)) (lockupAddress c)
      (rreq_payoutPubkey req) (ark_solverPubkey (arkade deps)) payoutPk senderPk.

Section receive.
Context `{Arkade} (deps : QuoteDeps) (req : EvmReceiveQuoteRequest).
Context (decoded_bytes : ∀ s bytes, arkAddressDecode s = Some bytes → Forall is_byte bytes).
#[local] Abbreviation W := (QWorld EvmReceive.state EvmReceiveQuote).
#[local] Abbreviation conf := (chain deps).

Lemma receiveDeadlines_ordered margin deadline now R :
  receiveDeadlines margin deadline now = Ok (inl R) →
  ∃ T, integer (Fin deadline) = Some T ∧
    evaluateEvmReceiveFund T R now (default EVM_ORDER_MARGIN_SECONDS margin) EVM_MIN_CLAIM_WINDOW_SECONDS = Ok FundOk.
Proof.
  unfold receiveDeadlines. destruct (integer _) as [T|]; [|done].
  destruct (arkadeRefundLocktimeFor _ _ _ _) as [[R'|]|e] eqn:Hr; [|by repeat case_match|done].
  intros [= <-]. exists T. split; [done|]. unfold arkadeRefundLocktimeFor in Hr.
  apply bind_Ok in Hr as ([|reason] & Hf & Hr); [|done]. injection Hr as <-. exact Hf.
Qed.

Lemma receiveCandidate_rebuilds served payoutPk R p script now gross payout i :
  Forall is_byte payoutPk →
  receiveCovenant deps req payoutPk R = Ok p → CovenantSwapScript p = Ok script →
  let q := receiveCandidate deps req served payoutPk p script now R gross payout in
  ∃ senderPk, hex_decode (ark_solverPkScript (arkade deps)) = Some senderPk ∧
    rebuilds (hrp (arkade deps)) (evmReceiveCovenantRowFor i (receive_common q) (payoutPubkey q))
      (lockupAddress (receive_common q)) (rreq_payoutPubkey req) (ark_solverPubkey (arkade deps)) payoutPk senderPk.
Proof.
  intros Hbytes Hp Hs q. unfold receiveCovenant in Hp.
  apply bind_Ok in Hp as (sv & Hsv & Hp). apply bind_Ok in Hp as (rc & Hrc & Hp).
  apply bind_Ok in Hp as (h & Hh & Hp). apply bind_Ok in Hp as (cl & Hcl & Hp).
  apply bind_Ok in Hp as (em & Hem & Hp). apply bind_Ok in Hp as (ss & Hss & [= <-]).
  exists ss. split; [by apply hexBytes_Ok|].
  eexists _, script. split_and!; [|done|done|by apply hexBytes_Ok|by apply hexBytes_Ok|done|done|done].
  apply covenant_rebuilt; try done. cbn. apply hexBytes_Ok. by apply hex_decode_encode.
Qed.

Lemma receiveQuotePriced_spec served payoutPk price locked gross d a o :
  adm_wf a → Forall is_byte payoutPk →
  markets deps !! toLowerCase (rreq_tokenAddress req) = Some served →
  arkDestination (hrp (arkade deps)) (rreq_payoutAddress req) = Some payoutPk →
  decimal (rreq_evmAmount req) = Some locked → 0 < locked → in_units served locked →
  convertQuoteToBase locked price 8 (decimals (token served)) down = Ok gross → gross ≤ MAX_SAFE_INTEGER →
  qtriple (At d a o) (receiveQuotePriced deps req served payoutPk gross)
    (Quoted d a o (receive_promise deps req)) (λ _, Failed a o).
Proof.
  intros Hwf Hbytes Hserved Hdest Hdec Hpos Hunits Hconv Hsafe. unfold receiveQuotePriced.
  destruct (_ || _) eqn:Hlim; [by apply q_ret; intros; apply At_Refused|]. bool_to_prop. cbn zeta.
  set (payout := payoutSatsFor gross (fee served)).
  destruct (payout <=? 0) eqn:Hpay; [by apply q_ret; intros; apply At_Refused|]. bool_to_prop.
  apply q_step; [apply liveSomewhere_spec|]. intros [|]; [by apply q_ret; intros; apply At_Refused|].
  apply q_step; [by apply q_look|]. intros now. apply q_step; [by apply q_ask|]. intros height.
  eapply q_bind; [by apply q_checked; intros; eapply Clean_Failed, At_Clean|]. intros deadline.
  apply q_pure. intros Hdeadline.
  eapply q_bind; [by apply q_lifted; intros; eapply Clean_Failed, At_Clean|]. intros ordered.
  apply q_pure. intros Hordered. destruct ordered as [R|reason]; [|by apply q_ret; intros; apply At_Refused].
  apply receiveDeadlines_ordered in Hordered as (T & HT & Hfund).
  eapply q_bind; [by apply q_lifted; intros; eapply Clean_Failed, At_Clean|]. intros p. apply q_pure. intros Hp.
  eapply q_bind; [by apply q_lifted; intros; eapply Clean_Failed, At_Clean|]. intros script. apply q_pure. intros Hs.
  apply (reserving_spec _ _ d a o _ _ (landed d o (receive_promise deps req)) (λ op, op = o)); [done..|]. intros r a' _.
  eapply q_bind; [by apply (q_look RandomUUID (At d a' o) d a' o)|]. intros i. apply land_spec.
  destruct (receiveCandidate_rebuilds served payoutPk R p script now gross payout i Hbytes Hp Hs) as (senderPk & Hss & Hre).
  exists served, payoutPk, senderPk, price, locked, now, height, deadline, T.
  cbn [receive_common receiveCandidate paymentHash evmAmount amountSats payoutSats evmTimeout refundLocktime
    validUntil evmClaimAddress evmRefundAddress tokenAddress]. split_and!; try done; lia.
Qed.

Lemma receiveQuote_spec d a o :
  adm_wf a →
  qtriple (At d a o) (receiveQuote deps req) (Quoted d a o (receive_promise deps req)) (λ _, Failed a o).
Proof.
  intros Hwf. unfold receiveQuote. apply q_step; [apply metered_spec|]. intros unmetered.
  destruct unmetered as [reason|]; [by apply q_ret; intros; apply At_Refused|].
  destruct (markets deps !! _) as [served|] eqn:Hserved; [|by apply q_ret; intros; apply At_Refused].
  destruct (arkDestination _ _) as [payoutPk|] eqn:Hdest; [|by apply q_ret; intros; apply At_Refused].
  destruct (canonical_decimal _); [|by apply q_ret; intros; apply At_Refused].
  destruct (decimal _) as [locked|] eqn:Hdec; [|by apply q_ret; intros; apply At_Refused].
  destruct (locked <=? 0) eqn:Hpos; [by apply q_ret; intros; apply At_Refused|]. bool_to_prop.
  match goal with |- context [if ?b then _ else _] => destruct b eqn:Hunits end;
    [by apply q_ret; intros; apply At_Refused|].
  assert (in_units served locked) as Hin.
  { unfold in_units. destruct (tokenLimits served) as [[lo hi]|]; [|done]. bool_to_prop. lia. }
  eapply (q_bind _ _ _ (λ p w, At d a o w ∧ match p with
    | inl gross => ∃ price, convertQuoteToBase locked price 8 (decimals (token served)) down = Ok gross ∧
                            gross ≤ MAX_SAFE_INTEGER
    | inr _ => True end)).
  { unfold priceLocked. apply (q_catch _ _ _ _ (λ _, At d a o)).
    - eapply (q_bind _ _ _ (λ _, At d a o)).
      { apply q_attempt. intros w w' x Hw ->. by destruct x. }
      intros price. eapply q_bind; [by apply (q_checked "price")|]. intros sats. apply q_ret.
      intros w [Hw Hc]. destruct (MAX_SAFE_INTEGER <? sats) eqn:Hs; (split; [done|]); [done|].
      bool_to_prop. by exists price.
    - intros e. by apply q_ret. }
  intros [gross|reason]; [|by apply q_ret; intros w [Hw _]; apply At_Refused].
  apply q_pure. intros (price & Hconv & Hsafe). eapply receiveQuotePriced_spec; try done.
  unfold arkDestination in Hdest. destruct (arkAddressDecode _) as [bytes|] eqn:Hde; [|done].
  destruct (String.prefix _ _); [|done]. injection Hdest as <-. by eapply decoded_bytes.
Qed.
End receive.
