(* ===== verification/QuoteSafety.v ===== *)
(** * Quotes keep their word

    The theorems about the quotes of both EVM corridors, over every run of
    [QuoteService] from any world; a world that answers, in which a quote of
    each is accepted; and the block cadence no receive quote survives. *)
From Stdlib Require Import QArith_base Qround.
From S2P Require Import Prelude JsString StateMachine Timelocks EvmPolicy BlockTime Prog SwapDb EvmRow Store EvmStore Covenant Admission Pricing RateLimit Quote QuoteRules QuoteService QuoteProof.
#[local] Open Scope Z_scope.

(** C25: a send quote is all or nothing and its row keeps its word: however the
    outside answers or fails, the exposure, wallet and inventory counters end
    where they began; a refused quote wrote no row, and neither it nor one that
    throws leaves a preparation of external funding open, unless it asked to
    abandon its own and that failed; an accepted quote added exactly its own row
    and opened at most its own preparation, and that row satisfies
    [send_promise] — sats within the token's limits, a payout that is the give
    less the fee and is priced down into a positive token amount within its
    bounds, an EVM refund a margin before the Arkade refund and a claim window
    away, the solver's own address as the refunder, and a covenant that rebuilds
    from the row to the very script and address the client is told to fund. *)
Theorem send_quote_keeps_its_word {A : Arkade} deps req w r w' :
  (∀ s bytes, arkAddressDecode s = Some bytes → Forall is_byte bytes) →
  adm_wf (q_adm w) → runs (sendQuote deps req) w r w' →
  unchanged (q_adm w) (q_adm w') ∧
  match r with
  | Ok (Accepted row) => ∃ i q at_,
      row = mkRow i EvmSend.quoted at_ at_ q ∅ ∧ rows (q_db w') = rows (q_db w) ++ [row] ∧
      (q_open w' = q_open w ∨ q_open w' = add_preparation i (q_open w)) ∧
      send_promise deps req i q
  | Ok (Refused _) => rows (q_db w') = rows (q_db w) ∧ abandoned (q_open w) (q_open w')
  | Err _ => abandoned (q_open w) (q_open w')
  end.
Proof.
  intros Hbytes Hwf Hr.
  pose proof (qtriple_runs _ _ _ _ w r w' (sendQuote_spec deps req Hbytes (q_db w) (q_adm w) (q_open w) Hwf)
    ltac:(by split_and!) Hr) as Ho.
  destruct r as [[row|reason]|e]; exact Ho.
Qed.

(** C26: a receive quote is all or nothing and its row keeps its word: as on the
    send side, with the roles exchanged — the sats are what the client's
    tokens are worth, rounded down and representable, the payout is what is
    left after the fee, the solver's Arkade refund opens a margin before the
    client's own deadline read at its earliest, and the covenant rebuilt from
    the row pays the client's key at the client's address. *)
Theorem receive_quote_keeps_its_word {A : Arkade} deps req w r w' :
  (∀ s bytes, arkAddressDecode s = Some bytes → Forall is_byte bytes) →
  adm_wf (q_adm w) → runs (receiveQuote deps req) w r w' →
  unchanged (q_adm w) (q_adm w') ∧
  match r with
  | Ok (Accepted row) => ∃ i q at_,
      row = mkRow i EvmReceive.quoted at_ at_ q ∅ ∧ rows (q_db w') = rows (q_db w) ++ [row] ∧
      receive_promise deps req i q
  | Ok (Refused _) => rows (q_db w') = rows (q_db w) ∧ q_open w' = q_open w
  | Err _ => q_open w' = q_open w
  end.
Proof.
  intros Hbytes Hwf Hr.
  pose proof (qtriple_runs _ _ _ _ w r w' (receiveQuote_spec deps req Hbytes (q_db w) (q_adm w) (q_open w) Hwf)
    ltac:(by split_and!) Hr) as Ho.
  destruct r as [[row|reason]|e]; [|exact Ho..].
  destruct Ho as (Ha & i & q & at_ & Hrow & Hrows & _ & Hgood). split; [exact Ha|]. by exists i, q, at_.
Qed.

(** ** Two quotes accepted *)

(** A world that answers: a height, a price, and every route traceable. *)
Definition evm_answers (height : Z) (price : Price) X (q : evm_read X) : option X :=
  match q in evm_read X return option X with
  | QBlockHeight | QTimelockHeight => Some height
  | AssertClaimTraceSupport _ => Some tt
  | FetchPrice _ _ => Some price
  end.

Definition example_p2tr : list Z := 81 :: 32 :: replicate 32 7.
#[local] Instance example_arkade : Arkade := {
  arkAddressDecode s := if String.prefix "ark1" s then Some example_p2tr else None;
  arkAddressServer _ := replicate 32 187;
  vhtlcScript _ := Some (81 :: 32 :: replicate 32 9);
  vhtlcAddress _ hrp _ := hrp +:+ "1swap";
  ripemd160 _ := replicate 20 3;
}.
Definition example_token : string := "0x" +:+ hex_encode (replicate 20 18).
Definition example_deps : QuoteDeps :=
  mkDeps
    (mkArkade "ark" "bb" "aa" (hex_encode (replicate 32 33)) (hex_encode example_p2tr) (mkDelays 512 1024 4608))
    (mkChain ("0x" +:+ hex_encode (replicate 20 7)) 1 12 60 (mkCadence (of_Z 12) (of_Z 13)) 600 None)
    {[ example_token := mkMarket (mkToken example_token 6) "feed" "/usd" 1000 1000000 (Some (1000, 10 ^ 12)) (mkFee 25 150) ]}
    5000000 2 (replicate 20 5) ("0x" +:+ hex_encode (replicate 20 5)) (Some "adapter").
Definition example_hash : string := hex_encode (replicate 32 171).
Definition example_send : EvmSendQuoteRequest :=
  mkSendRequest example_hash example_token 100000 ("0x" +:+ hex_encode (replicate 20 255)) "ark1client" "cc"
    (Some "203.0.113.7") (Some "rfq-1").
Definition example_receive : EvmReceiveQuoteRequest :=
  mkReceiveRequest example_hash example_token "65000000" 21000800 ("0x" +:+ hex_encode (replicate 20 255))
    "ark1client" "cc" (Some "203.0.113.7") (Some "rfq-1").
Definition example_qworld {S Q} : QWorld S Q := mkQWorld (mkDb [] []) new_admission [] (mkOpened ∅ [] ∅).

Lemma example_arkade_bytes s bytes : arkAddressDecode s = Some bytes → Forall is_byte bytes.
Proof.
  cbn. destruct (String.prefix _ s); [|done]. intros [= <-]. unfold example_p2tr, is_byte.
  do 2 (apply Forall_cons; split; [lia|]). apply Forall_replicate. lia.
Qed.
Lemma new_admission_wf : adm_wf new_admission.
Proof. intros i Hi. by apply none_released in Hi. Qed.

Definition send_run := play (q_served 1767225600 0 "uuid-1" (evm_answers 21000000 (mkPrice 65000 0)) id)
  (sendQuote example_deps example_send) example_qworld.
Definition receive_run := play (q_served 1767225600 0 "uuid-1" (evm_answers 21000000 (mkPrice 65000 0)) id)
  (receiveQuote example_deps example_receive) example_qworld.

Example send_run_accepts :
  match send_run with
  | Some (Ok (Accepted row), w) =>
      (payoutSats (quote row), evmAmount (quote row), validUntil (quote row), evmTimeout (quote row),
       refundLocktime (quote row), reserved (q_adm w))
  | _ => (0, "", 0, 0, 0, 0)
  end = (99600, "64740000", 1767225660, 21000138, 1767234600, 0).
Proof. vm_compute. reflexivity. Qed.

Example receive_run_accepts :
  match receive_run with
  | Some (Ok (Accepted row), w) =>
      (amountSats (receive_common (quote row)), payoutSats (receive_common (quote row)),
       refundLocktime (receive_common (quote row)), reserved (q_adm w))
  | _ => (0, 0, 0, 0)
  end = (100000, 99600, 1767228000, 0).
Proof. vm_compute. reflexivity. Qed.

#[local] Opaque sendQuote receiveQuote send_promise receive_promise example_deps.

Lemma send_quote_keeps_its_word_witness :
  ∃ row w', runs (sendQuote example_deps example_send) example_qworld (Ok (Accepted row)) w' ∧
    unchanged new_admission (q_adm w') ∧ ∃ i q at_,
      row = mkRow i EvmSend.quoted at_ at_ q ∅ ∧ rows (q_db w') = [row] ∧
      (q_open w' = mkOpened ∅ [] ∅ ∨ q_open w' = add_preparation i (mkOpened ∅ [] ∅)) ∧
      send_promise example_deps example_send i q.
Proof.
  destruct send_run as [[[[row|reason]|e] w']|] eqn:He;
    [|pose proof send_run_accepts as Hacc; rewrite He in Hacc; discriminate Hacc..].
  exists row, w'. pose proof (play_runs _ _ _ _ _ _ _ _ _ He) as Hr. split; [exact Hr|].
  apply (send_quote_keeps_its_word example_deps example_send example_qworld (Ok (Accepted row)) w'
    example_arkade_bytes new_admission_wf Hr).
Defined.

Lemma receive_quote_keeps_its_word_witness :
  ∃ row w', runs (receiveQuote example_deps example_receive) example_qworld (Ok (Accepted row)) w' ∧
    unchanged new_admission (q_adm w') ∧ ∃ i q at_,
      row = mkRow i EvmReceive.quoted at_ at_ q ∅ ∧ rows (q_db w') = [row] ∧
      receive_promise example_deps example_receive i q.
Proof.
  destruct receive_run as [[[[row|reason]|e] w']|] eqn:He;
    [|pose proof receive_run_accepts as Hacc; rewrite He in Hacc; discriminate Hacc..].
  exists row, w'. pose proof (play_runs _ _ _ _ _ _ _ _ _ He) as Hr. split; [exact Hr|].
  apply (receive_quote_keeps_its_word example_deps example_receive example_qworld (Ok (Accepted row)) w'
    example_arkade_bytes new_admission_wf Hr).
Defined.

(** ** Fractions of a second *)

(** At three quarters of a second per block — a cadence the configuration
    accepts — a client's deadline that is not a multiple of four blocks away
    falls on a fraction of a second, and the quote throws instead of being
    accepted or refused by name; one block later or earlier it may pass. *)
Lemma fractional_deadlines_throw timeoutBlock currentBlock nowSeconds margin slow deadline :
  deadlineSecondsForBlock timeoutBlock currentBlock nowSeconds (mkCadence (Fin (3 # 4)) slow) = Ok deadline →
  (timeoutBlock - currentBlock) mod 4 ≠ 0 →
  receiveDeadlines margin deadline nowSeconds = Err (Thrown "refundLocktime must be an integer").
Proof.
  unfold deadlineSecondsForBlock. intros Hd Hm. apply bind_Ok in Hd as (_ & _ & [= <-]).
  unfold receiveDeadlines. cbn [fastestSecondsPerBlock finite].
  destruct (integer _) eqn:Hi; [|done]. exfalso. revert Hi. cbn -[Z.modulo Z.div].
  destruct (_ =? 0) eqn:Hz; [|done]. bool_to_prop. intros _. apply Hm.
  apply Z.mod_divide in Hz as [k Hk]; [|lia]. apply Z.mod_divide; [lia|]. 
  exists (3 * (timeoutBlock - currentBlock) - (timeoutBlock - currentBlock) * 3 + (timeoutBlock - currentBlock) - (k - nowSeconds)). lia.
Qed.

Example one_block_apart :
  let quoted_at blocks :=
    match deadlineSecondsForBlock blocks 0 1767225600 (mkCadence (Fin (3 # 4)) (of_Z 1)) with
    | Ok deadline => receiveDeadlines None deadline 1767225600
    | Err _ => Ok (inr "cadence")
    end in
  quoted_at 14401 = Err (Thrown "refundLocktime must be an integer") ∧ quoted_at 14400 = Ok (inl 1767229200).
Proof. vm_compute. by split. Qed.
