(* ===== verification/LnSendQuote.v ===== *)
(** * Quotes of the Lightning send service

    [quote()] of [SendSwapService]
    ([packages/solver-corridors/src/send/orchestrator.ts]): the invoice decoded,
    the refund address, the deadlines, the hash against every corridor's store,
    the ladder, the fee, the reservation against the exposure cap and the
    wallet, and the row. A live receive swap of ours on the same invoice makes
    the quote a coupled one. *)
From Stdlib Require Import QArith_base.
From S2P Require Import Prelude Timelocks SendPolicy StateMachine Prog SwapDb EvmRow Invoice Store BaseStore LnSendStore ChainClock.
From S2P Require Import Covenant Admission Pricing Lockup Corridor LnSendService Quote.
#[local] Open Scope Z_scope.

(** [estimateSendFee]'s answer: any doubles. *)
Record FeeEstimate := mkEstimate { est_feeSats : num; est_billableFeeSats : option num }.

Inductive ln_quote_read : Type → Type :=
  | LiveReceiveRow (hash : string) : ln_quote_read (option CoupledReceiveRow)
  | QuoteTip : ln_quote_read Z
  | EstimateSendFee (invoice : string) : ln_quote_read (option FeeEstimate)
  | GetBalance : ln_quote_read num.

#[export] Instance quote_tip : ChainTipProvider ln_quote_read := QuoteTip.

(** What of [SendServiceDeps] a quote reads beyond [LnSendDeps]. *)
Record LnQuoteDeps := mkQuoteDeps {
  send_deps : LnSendDeps;
  ln_arkade : ArkadeOps;
  ln_minSats : Z;
  ln_maxSats : Z;
  invoicePrefix : string;
  ln_maxExposedSats : Z;
  ln_peerStores : nat;
  ln_fee : Fee;
  estimatesFees : bool;
}.

Record QuoteRequest := mkQuoteRequest {
  rawInvoice : string;
  refundAddress : string;
  requesterKey : option string;
  clientRefundKey : string;
  request_rfqId : option string;
}.

(** [{ accepted: true, swap, lockupDeadline } | { accepted: false, reason }] *)
Inductive LnQuoteOutcome :=
  | LnAccepted (swap : SendRow) (lockupDeadline : Z)
  | LnRefused (reason : string).

Definition acceptance_text (r : SendAcceptanceRefusal) : string :=
  match r with
  | acceptance_invoice_expired => "invoice_expired"
  | acceptance_invoice_expires_too_soon => "invoice_expires_too_soon"
  | wrong_network => "wrong_network"
  | amount_out_of_range => "amount_out_of_range"
  | zero_amount_invoice => "zero_amount_invoice"
  | cltv_too_large => "cltv_too_large"
  end.

(** [Number.isSafeInteger(n) && n >= 0] *)
Definition safe_sats (n : num) : option Z :=
  match integer n with
  | Some z => if isSafeInteger z && (0 <=? z) then Some z else None
  | None => None
  end.

(** The estimate of a fee, checked: what routing costs and what of it is billed. *)
Definition checkEstimate (e : FeeEstimate) : result Error (Z * Z) :=
  match safe_sats (est_feeSats e) with
  | None => Err (Thrown "lightning fee estimator returned invalid feeSats")
  | Some feeSats =>
      match est_billableFeeSats e with
      | None => Ok (feeSats, feeSats)
      | Some billable =>
          match safe_sats billable with
          | Some billable =>
              if feeSats <? billable then Err (Thrown "lightning fee estimator returned invalid billableFeeSats")
              else Ok (feeSats, billable)
          | None => Err (Thrown "lightning fee estimator returned invalid billableFeeSats")
          end
      end
  end.

(** A subsidy of the routing comes out of the corridor's cut and no further. *)
Definition quoteFee (fee : Fee) (amountSats : Z) (estimate : option (Z * Z)) : Fee :=
  match estimate with
  | None => fee
  | Some (feeSats, billable) =>
      mkFee (bps fee) (Z.max billable (feeSats - ceil_div (amountSats * bps fee) 10000))
  end.

(** What routing may spend; unestimated, no more than the fee charged. *)
Definition routingBudget (amountSats lockupSats : Z) (estimate : option (Z * Z)) : Z :=
  match estimate with
  | Some (feeSats, _) => feeSats
  | None => Z.min (maxRoutingFeeSats amountSats) (lockupSats - amountSats)
  end.

(** The row as it is rebuilt into a script, [arkade.claim(row, …)], where it has
    every key and script; without one of them the rebuild throws. *)
Definition sendCovenantRow (i : string) (q : SendQuote) : option CovenantScriptRow :=
  emulator ← emulatorPubkey q;
  refund ← refundPkScript q;
  client ← clientRefundPubkey q;
  receiverScript ← receiverPkScript q;
  Some (mkCovenant i (receiverPubkey q) (serverPubkey q) (paymentHash q) (refundLocktime q) (claimDelay q)
    emulator refund (pkScript q) client (refundWithoutReceiverDelay q) (refundDelay q)
    receiverScript (default false (nonInteractiveParameters q))).

Section ln_quote.
Context `{Bolt11Decoder, Arkade} (deps : LnQuoteDeps).
#[local] Open Scope io_scope.
#[local] Abbreviation event := (qevt LnSend.state SendQuote ln_quote_read).
#[local] Abbreviation io := (io event Error).
#[local] Abbreviation outcome := (QuoteOutcome LnSend.state SendQuote).
#[local] Abbreviation ark := (ln_arkade deps).
#[local] Abbreviation denylist := (sendHintScidDenylist (send_deps deps)).

Definition liveReceive (hash : string) : io (option CoupledReceiveRow) :=
  if coupling (send_deps deps) then outside (LiveReceiveRow hash) else ret None.

(** What an invoice we minted demands of no route. *)
Definition quoteCltv (exact : bool) (d : DecodedInvoice) : HtlcCltv :=
  if exact then mkHtlcCltv 0 0 0 0 true
  else mkHtlcCltv (decoded_minFinalCltvBlocks d) (decoded_worstRouteHintCltvBlocks d)
         (decoded_bestRouteHintCltvBlocks d) (dep_routeCltvBudgetBlocks (send_deps deps))
         (dep_enforcesRouteCltv (send_deps deps)).
Definition acceptanceInput (exact : bool) (d : DecodedInvoice) (quotedAt : Z) : SendAcceptanceInput :=
  mkAcceptance (decoded_expiresAt d) (of_Z (decoded_amountSats d)) (decoded_network d) (invoicePrefix deps)
    (ln_minSats deps) (ln_maxSats deps) (quoteCltv exact d) (unilateralClaimDelay (delays ark))
    (lockupTimeout (send_deps deps)) quotedAt.

(** A coupled send is refundable a claim window after the receive it refreshes. *)
Definition coupledDeadline (coupled : option CoupledReceiveRow) (refund : Z) : io Z :=
  match coupled with
  | Some c =>
      receive <- refundDeadlineSeconds (chainTip (send_deps deps)) (coupled_refundLocktime c)
                   DEADLINE_SECONDS_PURPOSE ;;
      ret (Z.max refund (receive + MIN_CLAIM_WINDOW))
  | None => ret refund
  end.

(** [lightningFloatRequirement] *)
Definition lightningFloatRequirement (requiredSats : Z) : io FloatRequirement :=
  balance <- outside GetBalance ;;
  match safe_sats balance with
  | Some available => ret (mkFloat requiredSats (Some available))
  | None => throw (Thrown "lightning backend returned invalid available balance")
  end.

(** What one open row may still cost the wallet. *)
Definition owedFor (r : SendRow) : io Z :=
  coupled <- liveReceive (paymentHash (quote r)) ;;
  if match coupled with
     | Some c => sameInvoice (coupled_invoice c) (invoice (quote r)) | None => false end
  then ret 0
  else
    let payoutSats := match decodeInvoice denylist (invoice (quote r)) with
                      | Ok d => decoded_amountSats d | Err _ => amountSats (quote r) end in
    ret (payoutSats + default (maxRoutingFeeSats payoutSats) (quotedRoutingFeeSats (quote r))).
Fixpoint owedEach (rows : list SendRow) (total : Z) : io Z :=
  match rows with
  | [] => ret total
  | r :: rest => owed <- owedFor r ;; owedEach rest (total + owed)
  end.
Definition owedLightningSats : io Z :=
  rows <- findByStates [LnSend.quoted; LnSend.funded; LnSend.paying] ;;
  owedEach rows 0.

(** The row of an accepted quote, its script built from the very same parts. *)
Definition quoteCandidate (req : QuoteRequest) (d : DecodedInvoice) (refundScript : list Z) (coupled : bool)
    (ladder : UnilateralDelays) (deadline locktime lockupSats routing : Z) : result Error SendQuote :=
  server ← hexBytes (ark_serverPubkey ark);
  receiver ← hexBytes (ark_solverPubkey ark);
  hash ← scriptHashFromPaymentHash (decoded_paymentHash d);
  client ← hexBytes (clientRefundKey req);
  emulator ← hexBytes (ark_emulatorPubkey ark);
  receiverScript ← hexBytes (ark_solverPkScript ark);
  let params := mkParams receiver server hash locktime (unilateralClaimDelay ladder) client
    (unilateralRefundWithoutReceiverDelay ladder) (unilateralRefundDelay ladder) emulator receiverScript
    refundScript false in
  script ← CovenantSwapScript params;
  Ok (mkSendQuote (decoded_invoice d) (decoded_paymentHash d) lockupSats (decoded_expiresAt d)
        (Some deadline) locktime (ark_solverPubkey ark) (ark_solverPubkey ark) (ark_serverPubkey ark)
        (unilateralClaimDelay ladder) (unilateralRefundDelay ladder) (unilateralRefundWithoutReceiverDelay ladder)
        (hex_encode script) (vhtlcAddress params (hrp ark) server) (Some (hex_encode refundScript))
        (Some (ark_emulatorPubkey ark)) (Some (clientRefundKey req)) (Some (ark_solverPkScript ark)) (Some true)
        (if coupled then None else Some routing) (request_rfqId req)).

(** What is done while the exposure and the float are reserved. *)
Definition quoteReserved (req : QuoteRequest) (d : DecodedInvoice) (refundScript : list Z) (coupled : bool)
    (ladder : UnilateralDelays) (deadline lockupSats routing : Z) : io outcome :=
  qlift (hexBytes (ark_serverPubkey ark)) ;;;
  locktime <- absoluteLocktimeFor (chainTip (send_deps deps)) deadline (unilateralClaimDelay ladder) ;;
  q <- qlift (quoteCandidate req d refundScript coupled ladder deadline locktime lockupSats routing) ;;
  i <- call RandomUUID ;;
  landing (insertQuote i q).

Definition capacityRefusal (ceiling : option Ceiling) : string :=
  match ceiling with Some Admission.float => "insufficient_float" | _ => "provider_at_capacity" end.

(** From the ladder on: the price and the reservation. *)
Definition quotePriced (req : QuoteRequest) (d : DecodedInvoice) (refundScript : list Z)
    (coupled : option CoupledReceiveRow) (ladder : UnilateralDelays) (deadline : Z) : io outcome :=
  let isCoupled := bool_decide (is_Some coupled) in
  estimate <- (if isCoupled || negb (estimatesFees deps) then ret None
               else outside (EstimateSendFee (decoded_invoice d))) ;;
  estimate <- match estimate with
              | None => ret None
              | Some e => checked <- qlift (checkEstimate e) ;; ret (Some checked)
              end ;;
  match giveSatsFor 0 (decoded_amountSats d) (quoteFee (ln_fee deps) (decoded_amountSats d) estimate) with
  | None => throw (Thrown "fee")
  | Some lockupSats =>
      let routing := routingBudget (decoded_amountSats d) lockupSats estimate in
      float <- (if isCoupled then ret None
                else required <- lightningFloatRequirement (decoded_amountSats d + routing) ;; ret (Some required)) ;;
      bind (admission_noting (λ _, owedLightningSats) None
              (admitRequest (mkRequest lockupSats (ln_maxExposedSats deps) float None)))
        (λ '(reservation, ceiling),
           match reservation with
           | None => ret (Refused (capacityRefusal ceiling))
           | Some r => whileReserved r (quoteReserved req d refundScript isCoupled ladder deadline lockupSats routing)
           end)
  end.

(** The live receive row of the hash may only be coupled to, and safely. *)
Definition couplingRefusal (coupled : option CoupledReceiveRow) (d : DecodedInvoice) (deadline : Z)
    : io (option string) :=
  match coupled with
  | None => ret None
  | Some c =>
      if bool_decide (coupled_state c ≠ LnReceive.quoted) then ret (Some "duplicate_swap")
      else if bool_decide (decoded_invoice d ≠ toLowerCase (coupled_invoice c))
      then ret (Some "coupled_invoice_mismatch")
      else
        receive <- refundDeadlineSeconds (chainTip (send_deps deps)) (coupled_refundLocktime c)
                     DEADLINE_SECONDS_PURPOSE ;;
        ret (match evaluateCouplingDeadlines deadline receive with
             | Couple => None | CoupledDeadlineUnsafe => Some "coupled_deadline_unsafe" end)
  end.

(** From accepted deadlines on. *)
Definition quoteAccepted (req : QuoteRequest) (d : DecodedInvoice) (refundScript : list Z)
    (coupled : option CoupledReceiveRow) (quotedAt deadline : Z) : io outcome :=
  live <- findLiveByPaymentHash (decoded_paymentHash d) ;;
  match live with
  | Some _ => ret (Refused "duplicate_swap")
  | None =>
      taken <- match requesterKey req with
               | Some key => call (QuoteLimiterTake key) | None => ret true end ;;
      if negb taken then ret (Refused "rate_limited")
      else
      refusal <- couplingRefusal coupled d deadline ;;
      match refusal with
      | Some reason => ret (Refused reason)
      | None =>
          elsewhere <- livePeers (ln_peerStores deps) 0 (decoded_paymentHash d) ;;
          if elsewhere : bool then ret (Refused "duplicate_swap")
          else match unilateralLadderFor (delays ark) deadline quotedAt with
          | Err _ => ret (Refused "cltv_too_large")
          | Ok ladder => quotePriced req d refundScript coupled ladder deadline
          end
      end
  end.

(** Hints the denylist dropped, for the log. *)
Definition reportDropped (d : DecodedInvoice) : io unit :=
  match droppedHints d with
  | [] => ret tt
  | _ => call (QReport (decoded_paymentHash d) (Thrown "dropped route hints"))
  end.

Definition sendQuote (req : QuoteRequest) : io LnQuoteOutcome :=
  hash <- qlift (match paymentHashOf (rawInvoice req) with Ok h => Ok h | Err e => Err (decodeError e) end) ;;
  candidate <- liveReceive hash ;;
  let exact := match candidate with
               | Some c => sameInvoice (rawInvoice req) (coupled_invoice c) | None => false end in
  d <- qlift (match decodeInvoiceWithPolicy (rawInvoice req) denylist (negb exact) with
              | Ok d => Ok d | Err e => Err (decodeError e) end) ;;
  reportDropped d ;;;
  match refundDestination ark (refundAddress req) with
  | None => ret (LnRefused "invalid_refund_address")
  | Some refundScript =>
      quotedAt <- call QClock ;;
      match evaluateSendAcceptance (acceptanceInput exact d quotedAt) with
      | RefuseAcceptance reason => ret (LnRefused (acceptance_text reason))
      | Accept refund lockupDeadline =>
          deadline <- coupledDeadline (if exact then candidate else None) refund ;;
          out <- quoteAccepted req d refundScript candidate quotedAt deadline ;;
          ret (match out with
               | Accepted swap => LnAccepted swap lockupDeadline
               | Refused reason => LnRefused reason
               end)
      end
  end.
End ln_quote.
