(* ===== verification/LnSendQuoteProof.v ===== *)
(** * What a Lightning send quote does

    [LnSendQuote.sendQuote], by the rules of [QuoteRules]: what is read, what is
    reserved and given back, the row that lands and what it promises. *)
From Stdlib Require Import QArith_base.
From S2P Require Import Prelude JsString Timelocks SendPolicy StateMachine Prog SwapDb EvmRow Invoice Store BaseStore LnSendStore ChainClock.
From S2P Require Import Covenant Admission Pricing Lockup Corridor LnSendService Quote QuoteRules QuoteProof LnSendQuote.
#[local] Open Scope Z_scope.

(** ** Economics *)

Lemma quoteFee_ok fee amount estimate :
  corridor_fee fee → (∀ f b, estimate = Some (f, b) → 0 ≤ b) → corridor_fee (quoteFee fee amount estimate).
Proof.
  intros [Hf Hflat] He. destruct estimate as [[f b]|]; [|done]. specialize (He f b eq_refl).
  unfold quoteFee, corridor_fee, fee_ok in *. cbn. lia.
Qed.

(** What the payment may cost, routing included, is within what the client locks. *)
Lemma routing_within fee amount lockup estimate :
  corridor_fee fee → 0 < amount → (∀ f b, estimate = Some (f, b) → 0 ≤ b ≤ f) →
  giveSatsFor 0 amount (quoteFee fee amount estimate) = Some lockup →
  amount ≤ payoutSatsFor lockup (quoteFee fee amount estimate) ∧
  0 ≤ routingBudget amount lockup estimate ∧ amount + routingBudget amount lockup estimate ≤ lockup.
Proof.
  intros Hfee Ha He Hg.
  assert (corridor_fee (quoteFee fee amount estimate)) as Hq.
  { apply quoteFee_ok; [done|]. intros f b Hfb. specialize (He f b Hfb). lia. }
  pose proof (raised_pays _ _ _ _ _ Hg) as Hpay.
  split; [done|].
  assert (0 < lockup) as Hl by (eapply payout_below; [exact Hq|lia]).
  destruct Hfee as [[Hb0 Hb1] Hflat]. destruct Hq as [_ Hqflat]. unfold payoutSatsFor, feeSatsFor in Hpay.
  pose proof (ceil_div_spec (lockup * bps (quoteFee fee amount estimate)) 10000 ltac:(lia)) as Hc1.
  destruct estimate as [[f b]|]; cbn [quoteFee routingBudget bps flatSats] in *.
  - specialize (He f b eq_refl). pose proof (ceil_div_spec (amount * bps fee) 10000 ltac:(lia)) as Hc2. split; [lia|]. nia.
  - unfold maxRoutingFeeSats, MIN_ROUTING_FEE_CAP_SATS. split; [|nia]. apply Z.min_glb; nia.
Qed.

Lemma safe_sats_nonneg n z : safe_sats n = Some z → 0 ≤ z.
Proof. unfold safe_sats. destruct (integer n); [|done]. case_match eqn:H; [|done]. intros [= <-]. bool_to_prop. lia. Qed.

Lemma checkEstimate_Ok e f b : checkEstimate e = Ok (f, b) → 0 ≤ b ≤ f.
Proof.
  unfold checkEstimate. destruct (safe_sats (est_feeSats e)) as [z|] eqn:Hz; [|done].
  apply safe_sats_nonneg in Hz. destruct (est_billableFeeSats e) as [n|]; [|intros [= <- <-]; lia].
  destruct (safe_sats n) as [y|] eqn:Hy; [|done]. apply safe_sats_nonneg in Hy.
  case_match eqn:Hlt; [done|]. intros [= <- <-]. bool_to_prop. lia.
Qed.

(** ** What an accepted quote promises *)

Section quote.
Context `{Bolt11Decoder, Arkade} (deps : LnQuoteDeps) (req : QuoteRequest).
#[local] Abbreviation denylist := (sendHintScidDenylist (send_deps deps)).
#[local] Abbreviation ark := (ln_arkade deps).
#[local] Abbreviation W := (QWorld LnSend.state SendQuote).
#[local] Abbreviation qtriple := (qtriple (S := LnSend.state) (Q := SendQuote) (R := ln_quote_read)).

(** [coupled]: the live receive row of ours on the same invoice, if any. *)
Record ln_promise (others : list SendRow) (lockupDeadline : Z) (i : string) (q : SendQuote) : Prop := {
  p_invoice : ∃ exact d quotedAt refund0 refund ladder,
    decodeInvoiceWithPolicy (rawInvoice req) denylist (negb exact) = Ok d ∧
    invoice q = decoded_invoice d ∧ paymentHash q = decoded_paymentHash d ∧
    invoiceExpiresAt q = decoded_expiresAt d ∧
    evaluateSendAcceptance (acceptanceInput deps exact d quotedAt) = Accept refund0 lockupDeadline ∧
    refund0 ≤ refund ∧ quotedRefundDeadline q = Some refund ∧
    (exact = false → refund0 = refund) ∧
    unilateralLadderFor (delays ark) refund quotedAt = Ok ladder ∧
    claimDelay q = unilateralClaimDelay ladder ∧ refundDelay q = unilateralRefundDelay ladder ∧
    refundWithoutReceiverDelay q = unilateralRefundWithoutReceiverDelay ladder ∧
    (∃ moment, absoluteLocktimeIn refund (unit_of (relativeDelayFrom (claimDelay q))) moment = Ok (refundLocktime q)) ∧
    decoded_amountSats d ≤ amountSats q ∧
    if exact
    then quotedRoutingFeeSats q = None ∧ ∃ c moment,
      coupled_state c = LnReceive.quoted ∧ invoice q = toLowerCase (coupled_invoice c) ∧
      absoluteLocktimeSeconds (coupled_refundLocktime c) moment + MIN_CLAIM_WINDOW ≤ refund
    else ∃ routing, quotedRoutingFeeSats q = Some routing ∧ 0 ≤ routing ∧ decoded_amountSats d + routing ≤ amountSats q;
  p_alone : Forall (λ r, blocks (paymentHash q) r = false) others;
  p_covenant : ∃ receiverPk refundPk c, sendCovenantRow i q = Some c ∧
    hex_decode (ark_solverPkScript ark) = Some receiverPk ∧
    refundDestination ark (refundAddress req) = Some refundPk ∧
    rebuilds (hrp ark) c (lockupAddress q) (ark_solverPubkey ark) (clientRefundKey req) receiverPk refundPk;
}.

(** ** The reads *)

Lemma q_ask_at {Y} (e : qevt LnSend.state SendQuote ln_quote_read (result Error Y)) K d a o :
  q_read e → (∀ w, K w → At d a o w) → qtriple K (attempt e) (λ _, At d a o) (λ _, At d a o).
Proof.
  intros He HK. apply q_attempt. intros w w' x Hw%HK Hh. pose proof (read_same _ _ _ _ _ _ _ He Hh Hw). by destruct x.
Qed.

Lemma liveReceive_at hash d a o :
  qtriple (At d a o) (liveReceive deps hash) (λ _, At d a o) (λ _, At d a o).
Proof. unfold liveReceive. destruct (coupling _); [by apply q_ask_at|by apply q_ret]. Qed.

Lemma owedFor_at r d a o : qtriple (At d a o) (owedFor deps r) (λ _, At d a o) (λ _, At d a o).
Proof.
  unfold owedFor. eapply q_bind; [apply liveReceive_at|]. intros c. case_match; by apply q_ret.
Qed.

Lemma owedEach_at rows total d a o : qtriple (At d a o) (owedEach deps rows total) (λ _, At d a o) (λ _, At d a o).
Proof.
  revert total. induction rows as [|r rows IH]; intros total; cbn [owedEach]; [by apply q_ret|].
  eapply q_bind; [apply owedFor_at|]. intros owed. apply IH.
Qed.

Lemma owedLightningSats_at d a o :
  qtriple (At d a o) (owedLightningSats deps) (λ _, At d a o) (λ _, At d a o).
Proof. unfold owedLightningSats. eapply q_bind; [by apply q_ask_at|]. intros rows. apply owedEach_at. Qed.

Lemma lightningFloatRequirement_spec n d a o :
  qtriple (At d a o) (lightningFloatRequirement n) (λ _, At d a o) (λ _, Clean a o).
Proof.
  unfold lightningFloatRequirement. eapply q_bind; [by apply q_ask|]. intros balance.
  destruct (safe_sats _); [by apply q_ret|]. apply q_throw. intros w. apply At_Clean.
Qed.

(** ** The row *)

Lemma insertQuote_spec i q d a o :
  qtriple (At d a o) (insertQuote i q)
    (λ row w, ∃ at_, row = mkRow i state_quoted at_ at_ q ∅ ∧ Written d a o row w ∧
       Forall (λ r, blocks (paymentHash q) r = false) (rows d))
    (λ e w, Clean a o w ∧ (e = UniqueConstraintError → rows (q_db w) = rows d)).
Proof.
  unfold insertQuote. eapply q_bind; [by apply (q_look QClock (At d a o) d a o)|]. intros at_.
  set (row := mkRow i LnSend.quoted at_ at_ q ∅).
  eapply (q_bind _ _ _ (λ n w, if (n =? 1)%nat
    then Written d a o row w ∧ Forall (λ r, blocks (paymentHash q) r = false) (rows d) else At d a o w)).
  { apply q_attempt. intros w w' x (Hd & Ha & Ho) Hh. cbn in Hh. unfold run_stmt in Hh. rewrite Hd in Hh.
    cbn [exec] in Hh. unfold insert_row in Hh. destruct Hh as [[-> ->]|(e & -> & He & Hw)].
    - destruct (existsb _ _) eqn:Hex; cbn; [by split_and!|].
      case_bool_decide as Hin; cbn; [by split; [split|]; cbn; rewrite ?Hd|].
      destruct (unique_ok _ _); cbn; [|by split; [split|]; cbn; rewrite ?Hd].
      split; [by split_and!|]. apply Forall_forall. intros r Hr. apply not_true_is_false. intros Hb.
      assert (existsb (blocks (paymentHash q)) (rows d) = true) as Hx.
      { apply existsb_exists. exists r. split; [by apply list_elem_of_In|done]. }
      by rewrite Hx in Hex.
    - split; [|done]. destruct Hw as [->| ->]; by split. }
  intros n. destruct (n =? 1)%nat; cbn [negb].
  2: { apply q_throw. intros w Hw. split; [by eapply At_Clean|]. intros _. by destruct Hw as (-> & _). }
  apply (q_pure _ (Written d a o row)). intros Hf.
  eapply q_conseq; [by apply (recorded_spec i row)|done| |done].
  intros r w [-> Hw]. by exists at_.
Qed.

(** ** The stages, from the row back to the request *)

Definition no_block (others : list SendRow) (hash : string) : Prop := Forall (λ r, blocks hash r = false) others.

Definition reserved_row (inv : DecodedInvoice) (refundPk : list Z) (coupled : bool) (ladder : UnilateralDelays)
    (deadline lockup routing : Z) (others : list SendRow) (i : string) (q : SendQuote) : Prop :=
  ∃ locktime moment,
    quoteCandidate deps req inv refundPk coupled ladder deadline locktime lockup routing = Ok q ∧
    absoluteLocktimeIn deadline (unit_of (relativeDelayFrom (unilateralClaimDelay ladder))) moment = Ok locktime ∧
    no_block others (paymentHash q).

Lemma quoteReserved_spec inv refundPk coupled ladder deadline lockup routing d a o :
  qtriple (At d a o) (quoteReserved deps req inv refundPk coupled ladder deadline lockup routing)
    (Settled d a o (reserved_row inv refundPk coupled ladder deadline lockup routing (rows d))) (λ _, Clean a o).
Proof.
  unfold quoteReserved.
  eapply q_bind; [by apply q_lifted; intros e w Hw _; eapply At_Clean|]. intros server. apply q_pure. intros _.
  eapply q_bind; [apply quoted_locktime_spec|]. intros locktime. apply q_pure. intros [moment Hm].
  eapply q_bind; [by apply q_lifted; intros e w Hw _; eapply At_Clean|]. intros q. apply q_pure. intros Hq.
  eapply q_bind; [by apply (q_look RandomUUID (At d a o) d a o)|]. intros i.
  apply (landing_spec i q). eapply q_conseq; [apply insertQuote_spec|done| |done].
  intros row w (at_ & -> & Hw & Hf). exists at_. split_and!; [done|done|]. by exists locktime, moment.
Qed.

Definition priced_row (inv : DecodedInvoice) (refundPk : list Z) (coupled : bool) (ladder : UnilateralDelays)
    (deadline : Z) (others : list SendRow) (i : string) (q : SendQuote) : Prop :=
  ∃ lockup routing,
    decoded_amountSats inv ≤ lockup ∧ 0 ≤ routing ∧ decoded_amountSats inv + routing ≤ lockup ∧
    reserved_row inv refundPk coupled ladder deadline lockup routing others i q.

Lemma quotePriced_spec inv refundPk (coupled : option CoupledReceiveRow) ladder deadline d a o :
  adm_wf a → corridor_fee (ln_fee deps) → 0 < decoded_amountSats inv →
  qtriple (At d a o) (quotePriced deps req inv refundPk coupled ladder deadline)
    (Quoted d a o (priced_row inv refundPk (bool_decide (is_Some coupled)) ladder deadline (rows d))) (λ _, Failed a o).
Proof.
  intros Hwf Hfee Hamount. unfold quotePriced. set (isCoupled := bool_decide (is_Some coupled)).
  apply q_step; [case_match; [by apply q_ret|by apply q_ask]|]. intros estimate.
  eapply (q_bind _ _ _ (λ e w, At d a o w ∧ ∀ f b, e = Some (f, b) → 0 ≤ b ≤ f)).
  { destruct estimate as [e|]; [|by apply q_ret].
    eapply q_bind; [by apply q_lifted; intros; eapply Clean_Failed, At_Clean|]. intros [f b].
    apply q_ret. intros w [Hw He]. split; [done|]. intros f' b' [= <- <-]. by eapply checkEstimate_Ok. }
  intros est. apply q_pure. intros He.
  destruct (giveSatsFor _ _ _) as [lockup|] eqn:Hg; [|by apply q_throw; intros; eapply Clean_Failed, At_Clean].
  destruct (routing_within _ _ _ _ Hfee Hamount He Hg) as (_ & Hr0 & Hr1). cbn zeta.
  set (routing := routingBudget _ _ _) in *.
  apply q_step; [case_match; [by apply q_ret|]|].
  { eapply q_bind; [apply lightningFloatRequirement_spec|]. intros ?. by apply q_ret. }
  intros float. apply reserved_quote_spec; [done| | | |].
  - intros b pool. apply owedLightningSats_at.
  - by apply admit_holds.
  - intros a' ceiling. apply q_pure. intros Hu. apply q_ret. intros w (Hd & Ha & Ho). split; [by rewrite Ha|]. by rewrite Hd.
  - intros r a' _. eapply q_conseq; [apply quoteReserved_spec|done| |done].
    intros [row|reason] w [Ha Hout]; split; try done. destruct Hout as (i & q & at_ & Hrow & Hrows & Hop & Hgood).
    exists i, q, at_. split_and!; [done|done|done|]. exists lockup, routing. split_and!; [lia|done|done|done].
Qed.

Definition coupling_safe (coupled : option CoupledReceiveRow) (inv : DecodedInvoice) (deadline : Z) : Prop :=
  match coupled with
  | None => True
  | Some c =>
      coupled_state c = LnReceive.quoted ∧ decoded_invoice inv = toLowerCase (coupled_invoice c) ∧
      ∃ moment, absoluteLocktimeSeconds (coupled_refundLocktime c) moment + MIN_CLAIM_WINDOW ≤ deadline
  end.

Lemma couplingRefusal_spec coupled inv deadline d a o :
  qtriple (At d a o) (couplingRefusal deps coupled inv deadline)
    (λ r w, At d a o w ∧ (r = None → coupling_safe coupled inv deadline)) (λ _, Clean a o).
Proof.
  unfold couplingRefusal. destruct coupled as [c|]; [|by apply q_ret].
  case_bool_decide as Hs; [by apply q_ret|]. case_bool_decide as Hi; [by apply q_ret|].
  eapply q_bind; [apply quoted_refundDeadline_spec|]. intros receive. apply q_pure. intros [moment ->].
  apply q_ret. intros w Hw. split; [done|]. unfold evaluateCouplingDeadlines. case_match eqn:He; [|done].
  case_match eqn:Hc; [|done]. rewrite Z.geb_leb in *. bool_to_prop. intros _. split_and!; [done|done|]. exists moment. lia.
Qed.

Definition accepted_row (inv : DecodedInvoice) (refundPk : list Z) (coupled : option CoupledReceiveRow)
    (quotedAt deadline : Z) (others : list SendRow) (i : string) (q : SendQuote) : Prop :=
  ∃ ladder, unilateralLadderFor (delays ark) deadline quotedAt = Ok ladder ∧ coupling_safe coupled inv deadline ∧
    priced_row inv refundPk (bool_decide (is_Some coupled)) ladder deadline others i q.

Lemma quoteAccepted_spec inv refundPk coupled quotedAt deadline d a o :
  adm_wf a → corridor_fee (ln_fee deps) → 0 < decoded_amountSats inv →
  qtriple (At d a o) (quoteAccepted deps req inv refundPk coupled quotedAt deadline)
    (Quoted d a o (accepted_row inv refundPk coupled quotedAt deadline (rows d))) (λ _, Failed a o).
Proof.
  intros Hwf Hfee Hamount. unfold quoteAccepted.
  apply q_step; [by apply q_read_row|]. intros [live|]; [by apply q_ret; intros; apply At_Refused|].
  apply q_step; [case_match; [by apply q_look|by apply q_ret]|].
  intros []; cbn [negb]; [|by apply q_ret; intros; apply At_Refused].
  eapply q_bind; [eapply q_conseq; [apply couplingRefusal_spec|done|intros ? ? HP; exact HP|]|].
  { intros e w. apply Clean_Failed. }
  intros [reason|]; [by apply q_ret; intros w [Hw _]; apply At_Refused|]. apply q_pure. intros Hc. specialize (Hc eq_refl).
  apply q_step; [apply livePeers_spec|]. intros [|]; [by apply q_ret; intros; apply At_Refused|].
  destruct (unilateralLadderFor _ _ _) as [ladder|e] eqn:Hl; [|by apply q_ret; intros; apply At_Refused].
  eapply q_conseq; [by apply (quotePriced_spec inv refundPk coupled ladder deadline d a o)|done| |done].
  intros [row|reason] w [Ha Hout]; split; try done. destruct Hout as (i & q & at_ & Hrow & Hrows & Hop & Hgood).
  exists i, q, at_. split_and!; [done|done|done|]. by exists ladder.
Qed.

(** ** The row and its promise *)

Lemma quoteCandidate_rebuilds inv refundPk coupled ladder deadline locktime lockup routing q i :
  Forall is_byte refundPk →
  quoteCandidate deps req inv refundPk coupled ladder deadline locktime lockup routing = Ok q →
  (∃ receiverPk c, hex_decode (ark_solverPkScript ark) = Some receiverPk ∧ sendCovenantRow i q = Some c ∧
    rebuilds (hrp ark) c (lockupAddress q) (ark_solverPubkey ark) (clientRefundKey req)
      receiverPk refundPk) ∧
  invoice q = decoded_invoice inv ∧ paymentHash q = decoded_paymentHash inv ∧ amountSats q = lockup ∧
  invoiceExpiresAt q = decoded_expiresAt inv ∧ quotedRefundDeadline q = Some deadline ∧ refundLocktime q = locktime ∧
  claimDelay q = unilateralClaimDelay ladder ∧ refundDelay q = unilateralRefundDelay ladder ∧
  refundWithoutReceiverDelay q = unilateralRefundWithoutReceiverDelay ladder ∧
  quotedRoutingFeeSats q = (if coupled then None else Some routing).
Proof.
  intros Hbytes Hq. unfold quoteCandidate in Hq.
  apply bind_Ok in Hq as (sv & Hsv & Hq). apply bind_Ok in Hq as (rc & Hrc & Hq).
  apply bind_Ok in Hq as (h & Hh & Hq). apply bind_Ok in Hq as (cl & Hcl & Hq).
  apply bind_Ok in Hq as (em & Hem & Hq). apply bind_Ok in Hq as (rs & Hrs & Hq).
  apply bind_Ok in Hq as (script & Hs & [= <-]).
  split; [|done]. eexists rs, _. split; [by apply hexBytes_Ok|]. split; [reflexivity|].
  exists (mkParams rc sv h locktime (unilateralClaimDelay ladder) cl (unilateralRefundWithoutReceiverDelay ladder)
    (unilateralRefundDelay ladder) em rs refundPk false), script.
  split_and!; [|done|done|by apply hexBytes_Ok|by apply hexBytes_Ok|done|done|done].
  apply covenant_rebuilt; try done. cbn. apply hexBytes_Ok. by apply hex_decode_encode.
Qed.

Lemma acceptance_positive inp R L sats :
  evaluateSendAcceptance inp = Accept R L → ac_invoiceAmountSats inp = of_Z sats → 0 < sats.
Proof.
  unfold evaluateSendAcceptance. intros He Hs. rewrite Hs in He. destruct (negb (String.eqb _ _)); [done|].
  destruct (_ || num_le (of_Z sats) (of_Z 0)) eqn:Hz; [done|]. clear He.
  apply orb_false_iff in Hz as [_ Hz]. rewrite num_le_of_Z in Hz. by bool_to_prop.
Qed.

(** A live receive row is coupled to exactly on its own invoice. *)
Lemma coupled_exactly enforce inv coupled deadline :
  decodeInvoiceWithPolicy (rawInvoice req) denylist enforce = Ok inv → coupling_safe coupled inv deadline →
  bool_decide (is_Some coupled) =
    match coupled with Some c => sameInvoice (rawInvoice req) (coupled_invoice c) | None => false end.
Proof.
  intros Hd Hc. destruct coupled as [c|]; [|done]. destruct Hc as (_ & Hi & _).
  apply read_back in Hd as [Hr _]. unfold sameInvoice. symmetry. apply bool_decide_eq_true. congruence.
Qed.

(** The promise, out of what the stages establish. *)
Lemma promise_kept enforce inv refundPk coupled quotedAt refund0 lockupDeadline deadline others i q :
  (∀ s bytes, arkAddressDecode s = Some bytes → Forall is_byte bytes) →
  let exact := match coupled with Some c => sameInvoice (rawInvoice req) (coupled_invoice c) | None => false end in
  enforce = negb exact →
  decodeInvoiceWithPolicy (rawInvoice req) denylist enforce = Ok inv →
  refundDestination ark (refundAddress req) = Some refundPk →
  evaluateSendAcceptance (acceptanceInput deps exact inv quotedAt) = Accept refund0 lockupDeadline →
  refund0 ≤ deadline → (exact = false → refund0 = deadline) →
  accepted_row inv refundPk coupled quotedAt deadline others i q →
  ln_promise others lockupDeadline i q.
Proof.
  intros Hbytes exact -> Hd Hdest Hacc Hle Heq (ladder & Hladder & Hc & lockup & routing & Hlock & Hr0 & Hr1 & Hrow).
  destruct Hrow as (locktime & moment & Hq & Hm & Hfree).
  pose proof (refundDestination_bytes _ _ _ Hbytes Hdest) as Hpk.
  destruct (quoteCandidate_rebuilds _ _ _ _ _ _ _ _ _ i Hpk Hq)
    as ((receiverPk & c & Hrpk & Hc' & Hre) & H1 & H2 & H3 & H4 & H5 & H6 & H7 & H8 & H9 & H10).
  rewrite (coupled_exactly _ _ _ _ Hd Hc) in H10. fold exact in H10.
  split; [|done|by exists receiverPk, refundPk, c].
  exists exact, inv, quotedAt, refund0, deadline, ladder. rewrite H1, H2, H3, H4, H5, H6, H7, H8, H9, H10.
  split_and!; try done; [by exists moment|].
  pose proof (coupled_exactly _ _ _ _ Hd Hc) as Hex. fold exact in Hex.
  destruct exact; [|by exists routing]. split; [done|]. destruct coupled as [r|]; [|done].
  destruct Hc as (Hs & Hi & m & Hw). by exists r, m.
Qed.

(** ** The quote *)

Definition LnQuoted (d : SendDb) (a : AdmissionControl) (o : Opened) (out : LnQuoteOutcome) (w : W) : Prop :=
  unchanged a (q_adm w) ∧
  match out with
  | LnAccepted row lockupDeadline => ∃ i q at_,
      row = mkRow i LnSend.quoted at_ at_ q ∅ ∧ rows (q_db w) = rows d ++ [row] ∧
      ln_promise (rows d) lockupDeadline i q
  | LnRefused _ => rows (q_db w) = rows d ∧ q_open w = o
  end.
Lemma At_LnRefused d a o reason w : At d a o w → LnQuoted d a o (LnRefused reason) w.
Proof. intros (Hd & Ha & Ho). unfold LnQuoted. rewrite Hd, Ha, Ho. by split. Qed.

Lemma coupledDeadline_spec coupled refund d a o :
  qtriple (At d a o) (coupledDeadline deps coupled refund)
    (λ r w, At d a o w ∧ refund ≤ r ∧ (coupled = None → refund = r)) (λ _, Clean a o).
Proof.
  unfold coupledDeadline. destruct coupled as [c|]; [|by apply q_ret].
  eapply q_bind; [apply quoted_refundDeadline_spec|]. intros receive. apply q_pure. intros _.
  apply q_ret. intros w Hw. split_and!; [done|lia|done].
Qed.

Lemma lnQuote_spec d a o :
  (∀ s bytes, arkAddressDecode s = Some bytes → Forall is_byte bytes) →
  adm_wf a → corridor_fee (ln_fee deps) →
  qtriple (At d a o) (sendQuote deps req) (LnQuoted d a o) (λ _, Failed a o).
Proof.
  intros Hbytes Hwf Hfee. unfold sendQuote.
  eapply q_bind; [by apply q_lifted; intros; eapply Clean_Failed, At_Clean|]. intros hash. apply q_pure. intros _.
  eapply q_bind; [eapply q_conseq; [apply liveReceive_at|done|intros ? ? HP; exact HP|intros e w Hw; by apply Clean_Failed, (At_Clean d)]|].
  intros candidate.
  set (exact := match candidate with Some c => sameInvoice (rawInvoice req) (coupled_invoice c) | None => false end).
  eapply q_bind; [by apply q_lifted; intros; eapply Clean_Failed, At_Clean|]. intros inv. apply q_pure. intros Hd.
  assert (decodeInvoiceWithPolicy (rawInvoice req) denylist (negb exact) = Ok inv) as Hdec by (by case_match; simplify_eq).
  clear Hd. eapply (q_bind _ _ _ (λ _, At d a o)); [unfold reportDropped; case_match; [by apply q_ret|by apply q_look]|].
  intros _. destruct (refundDestination _ _) as [refundPk|] eqn:Hdest; [|by apply q_ret; intros; apply At_LnRefused].
  eapply q_bind; [by apply (q_look QClock (At d a o) d a o)|]. intros quotedAt.
  destruct (evaluateSendAcceptance _) as [refund0 lockupDeadline|reason] eqn:Hacc;
    [|by apply q_ret; intros; apply At_LnRefused].
  assert (0 < decoded_amountSats inv) as Hamount by by eapply acceptance_positive.
  eapply q_bind; [eapply q_conseq; [apply coupledDeadline_spec|done|intros ? ? HP; exact HP|]|].
  { intros e w. apply Clean_Failed. }
  intros deadline. apply q_pure. intros [Hle Heq].
  eapply q_bind; [by apply (quoteAccepted_spec inv refundPk candidate quotedAt deadline d a o)|].
  intros out. apply q_ret. intros w [Ha Hout]. split; [done|]. destruct out as [row|reason]; [|done].
  destruct Hout as (i & q & at_ & Hrow & Hrows & _ & Hgood). exists i, q, at_. split_and!; [done|done|].
  eapply promise_kept; try done. intros He. apply Heq. fold exact in He. by rewrite He.
Qed.
End quote.
