(* ===== verification/LnSendQuoteSafety.v ===== *)
(** * Lightning quotes keep their word

    Over every run of [LnSendQuote.sendQuote] from any world: a quote is all or
    nothing, its row promises what the client was told, and what the tick later
    asks of that row before it pays is granted for as long as the quote is open. *)
From Stdlib Require Import QArith_base.
From S2P Require Import Prelude JsString Timelocks SendPolicy StateMachine Prog SwapDb EvmRow Invoice Store BaseStore LnSendStore ChainClock.
From S2P Require Import Covenant Admission Pricing RateLimit Lockup Corridor LnSendService Quote QuoteRules QuoteProof QuoteSafety LnSendQuote LnSendQuoteProof.
#[local] Open Scope Z_scope.

Section safety.
Context {B : Bolt11Decoder} {A : Arkade}.

Lemma lnQuote_runs deps req w r w' :
  (∀ s bytes, arkAddressDecode s = Some bytes → Forall is_byte bytes) →
  adm_wf (q_adm w) → corridor_fee (ln_fee deps) → runs (sendQuote deps req) w r w' →
  outcome (LnQuoted deps req (q_db w) (q_adm w) (q_open w)) (λ _, Failed (q_adm w) (q_open w)) r w'.
Proof.
  intros Hbytes Hwf Hfee Hr.
  apply (qtriple_runs _ _ _ _ w r w' (lnQuote_spec deps req (q_db w) (q_adm w) (q_open w) Hbytes Hwf Hfee)); [|done].
  by split_and!.
Qed.
End safety.

(** C20: a Lightning quote is all or nothing and its row keeps its word: however
    the outside answers or fails, the exposure, wallet and inventory counters
    end where they began; a refused quote wrote no row; an accepted one added
    exactly its own, when no row of the same payment hash could still be paid
    for, and that row satisfies [ln_promise] — the invoice, hash and expiry are
    the decoded invoice's, the deadline quoted is at least the accepted one and
    the one written into the script, the ladder is stretched to it, the invoice
    and what routing may spend are within what the client locks, a quote
    coupled to a live receive swap of ours is coupled to one still unfunded, on
    the very same invoice, a claim window after that swap's own refund, and the
    covenant rebuilds from the row to the script the client is told to fund. *)
Theorem lightning_quote_keeps_its_word {B : Bolt11Decoder} {A : Arkade} deps req w r w' :
  (∀ s bytes, arkAddressDecode s = Some bytes → Forall is_byte bytes) →
  adm_wf (q_adm w) → corridor_fee (ln_fee deps) → runs (sendQuote deps req) w r w' →
  unchanged (q_adm w) (q_adm w') ∧
  match r with
  | Ok (LnAccepted row lockupDeadline) => ∃ i q at_,
      row = mkRow i LnSend.quoted at_ at_ q ∅ ∧ rows (q_db w') = rows (q_db w) ++ [row] ∧
      ln_promise deps req (rows (q_db w)) lockupDeadline i q
  | Ok (LnRefused _) => rows (q_db w') = rows (q_db w) ∧ q_open w' = q_open w
  | Err _ => q_open w' = q_open w
  end.
Proof.
  intros Hbytes Hwf Hfee Hr. pose proof (lnQuote_runs _ _ _ _ _ Hbytes Hwf Hfee Hr) as Ho.
  destruct r as [[row deadline|reason]|e]; exact Ho.
Qed.

(** C32: what was quoted is paid: while an accepted quote that pays over
    Lightning is open, its row passes the gates of the tick that pays it — the
    stored invoice decodes, the client's solo refund covers the quoted
    deadline, and a lockup funded in full by the lockup deadline finds the
    payment gate open, for any reading of the refund deadline no earlier than
    the one quoted; and the invoice with the routing fee the payment is capped
    at costs no more than the client locked. *)
Theorem lightning_quote_is_payable {B : Bolt11Decoder} {A : Arkade} deps req w row lockupDeadline w' maxFeeSats :
  (∀ s bytes, arkAddressDecode s = Some bytes → Forall is_byte bytes) →
  adm_wf (q_adm w) → corridor_fee (ln_fee deps) →
  0 ≤ lockupTimeout (send_deps deps) ≤ MAX_LOCKUP_TIMEOUT →
  ROUTE_CLTV_BUDGET_BLOCKS ≤ dep_routeCltvBudgetBlocks (send_deps deps) →
  ladder_wf (delays (ln_arkade deps)) →
  runs (sendQuote deps req) w (Ok (LnAccepted row lockupDeadline)) w' →
  quotedRoutingFeeSats (quote row) = Some maxFeeSats →
  ∃ d quotedAt refund,
    decodeInvoice (sendHintScidDenylist (send_deps deps)) (invoice (quote row)) = Ok d ∧
    quotedRefundDeadline (quote row) = Some refund ∧
    (∀ at_, quotedAt ≤ at_ →
       refundWithoutReceiverDelayCovers (refundWithoutReceiverDelay (quote row)) refund at_ = true) ∧
    0 ≤ maxFeeSats ∧ decoded_amountSats d + maxFeeSats ≤ amountSats (quote row) ∧
    (0 ≤ decoded_minFinalCltvBlocks d → 0 ≤ hintCltvBlocks (cltv_of (send_deps deps) d) →
     ∀ t locked deadline, quotedAt ≤ t ≤ lockupDeadline → amountSats (quote row) ≤ locked → refund ≤ deadline →
       evaluateSendPayment (mkPayment (invoiceExpiresAt (quote row)) deadline (of_Z locked)
         (of_Z (amountSats (quote row))) (cltv_of (send_deps deps) d) t) = Pay).
Proof.
  intros Hbytes Hwf Hfee Htimeout Hroute Hladder Hr Hmax.
  destruct (lnQuote_runs _ _ _ _ _ Hbytes Hwf Hfee Hr) as (_ & i & q & at_ & -> & _ & [Hp _ _]).
  cbn [quote] in *.
  destruct Hp as (exact & d & quotedAt & refund0 & refund & ladder & Hd & Hi & Hh & He & Hacc & Hle & Hq & Heq & Hl &
    _ & _ & Hsolo & _ & Hamount & Hrouting).
  destruct exact; [destruct Hrouting as [Hn _]; congruence|]. specialize (Heq eq_refl) as <-.
  destruct Hrouting as (routing & Hr1 & Hr0 & Hr2). assert (routing = maxFeeSats) as -> by congruence.
  destruct (ladder_sound _ _ _ _ Hladder Hl) as (_ & Hcover & _).
  exists d, quotedAt, refund0. rewrite Hi, Hsolo, He. split_and!; try done.
  - by apply read_back in Hd as [_ Hd].
  - intros t Ht. unfold refundWithoutReceiverDelayCovers in *. rewrite Z.geb_leb, Z.leb_le in *. lia.
  - intros Hfin Hhint t locked deadline Ht Hlocked Hdl.
    pose proof (acceptance_positive _ _ _ _ Hacc eq_refl) as Hpos.
    apply (accepted_payable (acceptanceInput deps false d quotedAt) refund0 lockupDeadline); try done. lia.
Qed.

(** ** Two quotes accepted *)

#[local] Existing Instance example_arkade.
#[local] Instance quote_decoder : Bolt11Decoder :=
  λ s, if bool_decide (s = "lnbc1m1example") then Some example_sections else None.

(** The wallet's balance, an estimate of 40 sats of which 30 are billed, and a
    receive swap of ours on the same invoice, or none. *)
Definition ln_answers (receive : option CoupledReceiveRow) X (e : ln_quote_read X) : option X :=
  match e in ln_quote_read X return option X with
  | LiveReceiveRow _ => Some receive
  | QuoteTip => Some 850000
  | EstimateSendFee _ => Some (Some (mkEstimate (of_Z 40) (Some (of_Z 30))))
  | GetBalance => Some (of_Z 10000000)
  end.
Definition ln_example_deps : LnQuoteDeps :=
  mkQuoteDeps
    (mkLnSendDeps "02aa" (Some "lnd") true 900 example_denylist ROUTE_CLTV_BUDGET_BLOCKS true false true false
      false true false true false false false false true 0)
    (mkArkade "ark" (hex_encode (replicate 32 187)) "aa" (hex_encode (replicate 32 33)) (hex_encode example_p2tr)
      (mkDelays 512 1024 4608))
    1000 1000000 "bc" 5000000 2 (mkFee 25 150) true.
Definition ln_example_request : QuoteRequest :=
  mkQuoteRequest "LNBC1M1EXAMPLE" "ark1client" (Some "203.0.113.7") "cc" (Some "rfq-1").
Definition ln_run (receive : option CoupledReceiveRow) :=
  play (q_served 1700000000 0 "uuid-1" (ln_answers receive) id) (sendQuote ln_example_deps ln_example_request) example_qworld.
Definition ln_receive : CoupledReceiveRow :=
  mkCoupled LnReceive.quoted "lnbc1m1example" 1700400000 "5120ee" None None None None.

Definition ln_run_summary (receive : option CoupledReceiveRow) : Z * Z * option Z * option Z * Z :=
  match ln_run receive with
  | Some (Ok (LnAccepted row deadline), w) =>
      (deadline, amountSats (quote row), quotedRoutingFeeSats (quote row), quotedRefundDeadline (quote row), reserved (q_adm w))
  | _ => (0, 0, None, None, 0)
  end.
Example ln_runs_accept :
  ln_run_summary None = (1700000480, 100281, Some 40, Some 1700314400, 0) ∧
  ln_run_summary (Some ln_receive) = (1700000480, 100402, None, Some 1700405400, 0).
Proof. vm_compute. split; reflexivity. Qed.

#[local] Opaque sendQuote.

Lemma ln_example_fee : corridor_fee (ln_fee ln_example_deps).
Proof. by vm_compute. Qed.

Lemma ln_example_ladder : ladder_wf (delays (ln_arkade ln_example_deps)).
Proof.
  change (ladder_wf (mkDelays 512 1024 4608)). split; [by exists seconds|]. vm_compute. split_and!; done.
Qed.

Lemma ln_example_bounds :
  0 ≤ lockupTimeout (send_deps ln_example_deps) ≤ MAX_LOCKUP_TIMEOUT ∧
  ROUTE_CLTV_BUDGET_BLOCKS ≤ dep_routeCltvBudgetBlocks (send_deps ln_example_deps).
Proof. vm_compute. split_and!; done. Qed.

Lemma lightning_quote_keeps_its_word_witness :
  ∃ row w', runs (sendQuote ln_example_deps ln_example_request) example_qworld (Ok (LnAccepted row 1700000480)) w' ∧
    unchanged new_admission (q_adm w') ∧ ∃ i q at_,
      row = mkRow i LnSend.quoted at_ at_ q ∅ ∧ rows (q_db w') = [row] ∧
      ln_promise ln_example_deps ln_example_request [] 1700000480 i q.
Proof.
  destruct (ln_run None) as [[[[row deadline|reason]|e] w']|] eqn:He;
    [|pose proof (proj1 ln_runs_accept) as Hacc; unfold ln_run_summary in Hacc; rewrite He in Hacc; discriminate Hacc..].
  assert (deadline = 1700000480) as ->
    by (pose proof (proj1 ln_runs_accept) as Hacc; unfold ln_run_summary in Hacc; rewrite He in Hacc; congruence).
  exists row, w'. pose proof (play_runs _ _ _ _ _ _ _ _ _ He) as Hr. split; [exact Hr|].
  apply (lightning_quote_keeps_its_word ln_example_deps ln_example_request example_qworld
    (Ok (LnAccepted row 1700000480)) w' example_arkade_bytes new_admission_wf ln_example_fee Hr).
Defined.

Lemma lightning_quote_is_payable_witness :
  ∃ row w', runs (sendQuote ln_example_deps ln_example_request) example_qworld (Ok (LnAccepted row 1700000480)) w' ∧
    ∃ d quotedAt refund,
      decodeInvoice example_denylist (invoice (quote row)) = Ok d ∧ quotedRefundDeadline (quote row) = Some refund ∧
      (∀ at_, quotedAt ≤ at_ →
         refundWithoutReceiverDelayCovers (refundWithoutReceiverDelay (quote row)) refund at_ = true) ∧
      decoded_amountSats d + 40 ≤ amountSats (quote row).
Proof.
  destruct (ln_run None) as [[[[row deadline|reason]|e] w']|] eqn:He;
    [|pose proof (proj1 ln_runs_accept) as Hacc; unfold ln_run_summary in Hacc; rewrite He in Hacc; discriminate Hacc..].
  pose proof (proj1 ln_runs_accept) as Hacc. unfold ln_run_summary in Hacc. rewrite He in Hacc.
  assert (deadline = 1700000480) as -> by congruence.
  assert (quotedRoutingFeeSats (quote row) = Some 40) as Hmax by congruence.
  exists row, w'. pose proof (play_runs _ _ _ _ _ _ _ _ _ He) as Hr. split; [exact Hr|].
  destruct (lightning_quote_is_payable ln_example_deps ln_example_request example_qworld row 1700000480 w' 40
    example_arkade_bytes new_admission_wf ln_example_fee
    (proj1 ln_example_bounds) (proj2 ln_example_bounds) ln_example_ladder Hr Hmax)
    as (d & quotedAt & refund & Hd & Hq & Hcover & _ & Hle & _).
  exists d, quotedAt, refund. split; [exact Hd|]. split; [exact Hq|]. split; [exact Hcover|exact Hle].
Defined.
