(* ===== verification/LnReceiveQuote.v ===== *)
(** * Quotes of the Lightning receive service

    [quote()] of [ReceiveSwapService]
    ([packages/solver-corridors/src/receive/orchestrator.ts]): the give and the
    payout either way round, the client's address, the hash against every
    corridor's store, the reservation, the deadlines and the covenant, the hold
    invoice minted before the row, and the row. *)
From S2P Require Import Prelude JsString Timelocks SendPolicy ReceivePolicy StateMachine Prog SwapDb EvmRow Store BaseStore LnReceiveStore ChainClock.
From S2P Require Import Covenant Admission Pricing Corridor LnReceiveService Quote.
#[local] Open Scope Z_scope.

Definition DEFAULT_HOLD_INVOICE_WINDOW : Z := MAX_REFUND_HORIZON - MIN_CLAIM_WINDOW.
Definition RFQ_PAIR_RECEIVE : string := "lightning:BTC->arkade:BTC".

Inductive hold_quote_read : Type → Type :=
  | LiveCoupledSend (hash : string) : hold_quote_read bool
  | HoldTip : hold_quote_read Z
  | WalletFingerprint : hold_quote_read string
  | HoldForPayable (payableSats : Z) : hold_quote_read Z
  | OnHoldAccepted (hash : string) : hold_quote_read unit.

#[export] Instance hold_tip : ChainTipProvider hold_quote_read := HoldTip.

(** What of [ReceiveServiceDeps] a quote reads beyond [LnReceiveDeps], and which
    optional operations the backend has. *)
Record HoldQuoteDeps := mkHoldQuoteDeps {
  receive_deps : LnReceiveDeps;
  hold_arkade : ArkadeOps;
  hold_minSats : Z;
  hold_maxSats : Z;
  hold_maxExposedSats : Z;
  hold_peerStores : nat;
  hold_pricing : option PricingStrategy;
  hold_fee : option Fee;
  backendName : option string;
  knowsInvoices : bool;        (** [getKnownInvoiceState] *)
  fingerprintsWallet : bool;   (** [walletFingerprint] *)
  matchesPayable : bool;       (** [holdForPayable] *)
  announcesHolds : bool;       (** [onHoldAccepted] *)
}.

Record ReceiveQuoteRequest := mkReceiveRequest {
  req_requesterKey : option string;
  req_paymentHash : string;
  req_amountSats : Z;
  req_amountSide : option AmountSide;
  req_payoutAddress : string;
  req_payoutPubkey : string;
  req_claimPacket : option string;
  req_rfqId : option string;
}.

(** [{ accepted: true, swap, validUntil } | { accepted: false, reason }] *)
Inductive HoldQuoteOutcome :=
  | HoldAccepted (swap : ReceiveRow) (validUntil : Z)
  | HoldRefused (reason : string).

Section hold_quote.
Context `{Arkade} (deps : HoldQuoteDeps) (req : ReceiveQuoteRequest).
#[local] Open Scope io_scope.
#[local] Abbreviation event := (qevt LnReceive.state ReceiveQuote hold_quote_read).
#[local] Abbreviation io := (io event Error).
#[local] Abbreviation ark := (hold_arkade deps).

Definition pricing : PricingStrategy :=
  default (fixedFeePricing 0 (default FREE (hold_fee deps))) (hold_pricing deps).
(** ** The hold invoice *)

(** Close an invoice no swap will settle; no failure matters. *)
Definition retireHold : io unit :=
  if cancelsHolds (receive_deps deps)
  then try_catch (attempt (CancelHoldInvoice (req_paymentHash req))) (λ _, ret tt) else ret tt.

Definition walletFingerprint : io (option string) :=
  if knowsInvoices deps && fingerprintsWallet deps
  then try_catch (identity <- outside WalletFingerprint ;; ret (Some identity)) (λ _, ret None) else ret None.

(** What to hold and to pay out so that the published invoice asks exactly the
    give of an exact-in request. *)
Definition matchHold (give payout : Z) : io (Z * Z + string) :=
  if exactOut (req_amountSide req) || negb (matchesPayable deps) then ret (inl (give, payout))
  else
    hold <- try_catch (sats <- outside (HoldForPayable give) ;; ret (Some sats)) (λ _, ret None) ;;
    match hold with
    | None => ret (inr "payable_amount_unmatchable")
    | Some hold =>
        if (hold <=? 0) || (give <? hold) then ret (inr "payable_amount_unmatchable")
        else
          payout <- priced (payoutFor pricing RFQ_PAIR_RECEIVE hold) ;;
          ret (if payout <=? 0 then inr "fee_consumes_swap" else inl (hold, payout))
    end.

Definition holdParams (hold minFinalCltvBlocks : Z) : CreateHoldInvoiceParams :=
  mkHoldParams hold (req_paymentHash req) DEFAULT_HOLD_INVOICE_WINDOW minFinalCltvBlocks.
Definition quotedCltvBlocks : Z :=
  minFinalCltvBlocksFor (unilateralRefundWithoutReceiverDelay (delays ark)) (dep_acceptUnilateralGap (receive_deps deps)).

(** ** The covenant and the row *)

(** The client claims, the solver refunds. *)
Definition receiveScript (payoutPk : list Z) (locktime : Z) : result Error (CovenantSwapParams * list Z) :=
  server ← hexBytes (ark_serverPubkey ark);
  receiver ← hexBytes (req_payoutPubkey req);
  hash ← scriptHashFromPaymentHash (req_paymentHash req);
  client ← hexBytes (ark_solverPubkey ark);
  emulator ← hexBytes (ark_emulatorPubkey ark);
  sender ← hexBytes (ark_solverPkScript ark);
  let params := mkParams receiver server hash locktime (unilateralClaimDelay (delays ark)) client
    (unilateralRefundWithoutReceiverDelay (delays ark)) (unilateralRefundDelay (delays ark)) emulator
    payoutPk sender false in
  script ← CovenantSwapScript params;
  Ok (params, script).

Definition quotedRow (payoutPk : list Z) (params : CovenantSwapParams) (script : list Z) (locktime validUntil payout : Z)
    (fingerprint : option string) (held : HoldInvoice) : ReceiveQuote :=
  mkReceiveQuote (req_paymentHash req) (held_payableSats held) payout (held_invoice held) fingerprint
    (if knowsInvoices deps then backendName deps else None) validUntil (req_payoutAddress req)
    (hex_encode payoutPk) (req_payoutPubkey req) (req_claimPacket req) locktime (ark_solverPubkey ark)
    (ark_serverPubkey ark) (unilateralClaimDelay (delays ark)) (unilateralRefundDelay (delays ark))
    (unilateralRefundWithoutReceiverDelay (delays ark)) (ark_emulatorPubkey ark) (hex_encode script)
    (vhtlcAddress params (hrp ark) (server params)) (ark_solverPkScript ark) (Some true) (req_rfqId req).

(** The tick a held payment wakes runs later, by itself. *)
Definition tickOnHold (swap : ReceiveRow) : io unit :=
  if announcesHolds deps
  then try_catch (outside (OnHoldAccepted (paymentHash (quote swap)))) (λ e, call (QReport (row_id swap) e))
  else ret tt.

(** The row of a minted invoice. A lost race for the hash leaves the invoice
    alone, the winner's is the one a cancel would close; any other failure
    retires it. *)
Definition landHold (q : ReceiveQuote) (validUntil : Z) : io HoldQuoteOutcome :=
  try_catch
    (i <- call RandomUUID ;;
     swap <- insertQuote i q ;;
     tickOnHold swap ;;;
     ret (HoldAccepted swap validUntil))
    (λ e, match e with
          | UniqueConstraintError => ret (HoldRefused "duplicate_swap")
          | e => retireHold ;;; throw e
          end).

Definition mintAndLand (give hold : Z) (q : HoldInvoice → ReceiveQuote) (validUntil : Z) : io HoldQuoteOutcome :=
  held <- attempt (CreateHoldInvoice (holdParams hold quotedCltvBlocks)) ;;
  if negb (exactOut (req_amountSide req)) && negb (held_payableSats held =? give) then
    retireHold ;;;
    ret (HoldRefused "payable_amount_unmatchable")
  else landHold (q held) validUntil.

(** ** The quote *)

(** What is done while the exposure is reserved. *)
Definition holdReserved (payoutPk : list Z) (give payout : Z) : io HoldQuoteOutcome :=
  qlift (hexBytes (ark_serverPubkey ark)) ;;;
  at_ <- call QClock ;;
  locktime <- absoluteLocktimeFor (chainTip (receive_deps deps)) (at_ + MAX_REFUND_HORIZON)
                (unilateralClaimDelay (delays ark)) ;;
  bind (qlift (receiveScript payoutPk locktime)) (λ '(params, script),
    if quotedCltvBlocks >? MAX_FINAL_CLTV_BLOCKS then ret (HoldRefused "recourse_window_unservable")
    else
      let validUntil := at_ + DEFAULT_HOLD_INVOICE_WINDOW in
      fingerprint <- walletFingerprint ;;
      matched <- matchHold give payout ;;
      match matched with
      | inr reason => ret (HoldRefused reason)
      | inl (hold, payout) =>
          mintAndLand give hold (quotedRow payoutPk params script locktime validUntil payout fingerprint) validUntil
      end).

(** The hash, live here, at a peer or on a send it could be coupled to. *)
Definition hashTaken (hash : string) : io bool :=
  live <- findLiveByPaymentHash hash ;;
  match live with
  | Some _ => ret true
  | None =>
      elsewhere <- livePeers (hold_peerStores deps) 0 hash ;;
      if elsewhere : bool then ret true
      else if coupling (receive_deps deps) then outside (LiveCoupledSend hash) else ret false
  end.

Definition holdQuote : io HoldQuoteOutcome :=
  give <- giveSats pricing RFQ_PAIR_RECEIVE (req_amountSide req) (req_amountSats req) ;;
  if (give <? hold_minSats deps) || (hold_maxSats deps <? give) then ret (HoldRefused "amount_out_of_range")
  else
  payout <- payoutOf pricing RFQ_PAIR_RECEIVE (req_amountSide req) (req_amountSats req) give ;;
  if negb (exactOut (req_amountSide req)) && (payout <=? 0) then ret (HoldRefused "fee_consumes_swap")
  else
  match arkDestination (hrp ark) (req_payoutAddress req) with
  | None => ret (HoldRefused "invalid_payout_address")
  | Some payoutPk =>
      taken <- hashTaken (req_paymentHash req) ;;
      if taken : bool then ret (HoldRefused "duplicate_swap")
      else
      metered <- match req_requesterKey req with
                 | Some key => call (QuoteLimiterTake key) | None => ret true end ;;
      if negb metered then ret (HoldRefused "rate_limited")
      else
      bind (admission_noting owes_nothing None (admitRequest (mkRequest give (hold_maxExposedSats deps) None None)))
        (λ '(reservation, _),
           match reservation with
           | None => ret (HoldRefused "provider_at_capacity")
           | Some r => whileReserved r (holdReserved payoutPk give payout)
           end)
  end.
End hold_quote.
