(* ===== verification/LnReceiveQuoteProof.v ===== *)
(** * What a Lightning receive quote does

    [LnReceiveQuote.holdQuote], by the rules of [QuoteRules]: what is read, what
    is reserved and given back, which hold invoices are asked for and closed,
    the row that lands and what it promises. *)
From S2P Require Import Prelude JsString Timelocks SendPolicy ReceivePolicy StateMachine Prog SwapDb EvmRow Store BaseStore LnReceiveStore ChainClock.
From S2P Require Import Covenant Admission Pricing Corridor LnReceiveService Quote QuoteRules QuoteProof LnReceiveQuote.
#[local] Open Scope Z_scope.
#[local] Open Scope io_scope.

Section quote.
Context `{Arkade} (deps : HoldQuoteDeps) (req : ReceiveQuoteRequest).
#[local] Abbreviation ark := (hold_arkade deps).
#[local] Abbreviation row := ReceiveRow.
#[local] Abbreviation W := (QWorld LnReceive.state ReceiveQuote).
#[local] Abbreviation qtriple := (qtriple (S := LnReceive.state) (Q := ReceiveQuote) (R := hold_quote_read)).

(** ** What an accepted quote promises *)

(** The two amounts, whichever the client named: [hold] is what is held. *)
Definition hold_amounts (hold : Z) (held : HoldInvoice) (q : ReceiveQuote) : Prop :=
  ∃ give, hold_minSats deps ≤ give ≤ hold_maxSats deps ∧ amountSats q = held_payableSats held ∧
    if exactOut (req_amountSide req)
    then giveFor (pricing deps) RFQ_PAIR_RECEIVE (req_amountSats req) = Some give ∧ hold = give ∧
         payoutSats q = req_amountSats req
    else give = req_amountSats req ∧ amountSats q = give ∧ hold ≤ give ∧ 0 < payoutSats q ∧
         payoutFor (pricing deps) RFQ_PAIR_RECEIVE hold = Some (payoutSats q).

(** The deadlines, all of one reading of the clock. *)
Definition hold_deadlines (validUntil : Z) (q : ReceiveQuote) : Prop :=
  ∃ at_ moment, validUntil = at_ + DEFAULT_HOLD_INVOICE_WINDOW ∧ invoiceExpiresAt q = validUntil ∧
    claimDelay q = unilateralClaimDelay (delays ark) ∧
    refundWithoutReceiverDelay q = unilateralRefundWithoutReceiverDelay (delays ark) ∧
    absoluteLocktimeIn (at_ + MAX_REFUND_HORIZON) (unit_of (relativeDelayFrom (claimDelay q))) moment =
      Ok (refundLocktime q) ∧
    quotedCltvBlocks deps ≤ MAX_FINAL_CLTV_BLOCKS.

Definition hold_covenant (i : string) (q : ReceiveQuote) (r : row) : Prop :=
  ∃ payoutPk senderPk, arkDestination (hrp ark) (req_payoutAddress req) = Some payoutPk ∧
    hex_decode (ark_solverPkScript ark) = Some senderPk ∧ payoutAddress q = req_payoutAddress req ∧
    rebuilds (hrp ark) (receiveCovenantRowFor r) (lockupAddress q) (req_payoutPubkey req) (ark_solverPubkey ark)
      payoutPk senderPk.

Record hold_promise (others : list row) (validUntil hold : Z) (held : HoldInvoice) (r : row) : Prop := {
  hp_hash : paymentHash (quote r) = req_paymentHash req;
  hp_invoice : invoice (quote r) = held_invoice held;
  hp_amounts : hold_amounts hold held (quote r);
  hp_deadlines : hold_deadlines validUntil (quote r);
  hp_alone : Forall (λ o, paymentHash (quote o) = req_paymentHash req → state o = LnReceive.refused) others;
  hp_covenant : hold_covenant (row_id r) (quote r) r;
}.

(** ** The hold invoices *)

(** The calls of a cancellation, where the backend has one. *)
Definition cancels : list HoldCall :=
  if cancelsHolds (receive_deps deps) then [Cancelled (req_paymentHash req)] else [].
Definition asked (hold : Z) (answer : result Error HoldInvoice) : HoldCall :=
  Minted (holdParams req hold (quotedCltvBlocks deps)) answer.
Definition add_calls (cs : list HoldCall) (o : Opened) : Opened :=
  mkOpened (preparations o) (hold_calls o ++ cs) (unabandoned o).

(** What a quote that is over has asked of the Lightning backend: an accepted
    one minted its invoice; a refused one minted none, or closed the one it
    minted, or left it to the row that owns the hash; a failed one minted none
    that was answered, or closed it. *)
Definition hold_over (d : ReceiveDb) (o : Opened) (out : HoldQuoteOutcome) (rs : list row) (op : Opened) : Prop :=
  match out with
  | HoldAccepted r validUntil => ∃ i q at_ hold held,
      r = mkRow i LnReceive.quoted at_ at_ q ∅ ∧ rs = rows d ++ [r] ∧
      op = add_calls [asked hold (Ok held)] o ∧ hold_promise (rows d) validUntil hold held r
  | HoldRefused reason => rs = rows d ∧
      (op = o ∨
       ∃ hold held, (reason = "payable_amount_unmatchable" ∧ op = add_calls (asked hold (Ok held) :: cancels) o) ∨
         (reason = "duplicate_swap" ∧ op = add_calls [asked hold (Ok held)] o))
  end.
Definition hold_failed (o op : Opened) : Prop :=
  op = o ∨ (∃ hold e, op = add_calls [asked hold (Err e)] o) ∨
  ∃ hold held, op = add_calls (asked hold (Ok held) :: cancels) o.

Lemma add_calls_nil o : add_calls [] o = o.
Proof. destruct o. unfold add_calls. cbn. by rewrite app_nil_r. Qed.
Lemma add_calls_app cs cs' o : add_calls cs' (add_calls cs o) = add_calls (cs ++ cs') o.
Proof. unfold add_calls. cbn. by rewrite app_assoc. Qed.
Lemma add_call_calls c o : add_call c o = add_calls [c] o.
Proof. done. Qed.

(** Closing an invoice only adds its call. *)
Lemma retireHold_spec (K : W → Prop) o (rest : list row → Prop) a :
  (∀ w, K w → q_adm w = a ∧ q_open w = o ∧ rest (rows (q_db w))) →
  qtriple K (retireHold deps req) (λ _ w, q_adm w = a ∧ q_open w = add_calls cancels o ∧ rest (rows (q_db w)))
    (λ _ _, False).
Proof.
  intros HK. unfold retireHold, cancels. destruct (cancelsHolds _).
  - set (done_ := λ w : W, q_adm w = a ∧ q_open w = add_calls [Cancelled (req_paymentHash req)] o ∧ rest (rows (q_db w))).
    apply (q_catch _ _ _ _ (λ _, done_)); [|by intros ?; apply q_ret].
    apply q_attempt. intros w w' x (Ha & Ho & Hr)%HK ->. cbn in *. subst o.
    destruct x; by split_and!.
  - apply q_ret. intros w (Ha & Ho & Hr)%HK. by rewrite add_calls_nil.
Qed.

(** ** Landing the row *)

Definition lands (d : ReceiveDb) (a : AdmissionControl) (o : Opened) (q : ReceiveQuote) (out : HoldQuoteOutcome)
    (validUntil : Z) (w : W) : Prop :=
  q_adm w = a ∧
  match out with
  | HoldAccepted r valid => ∃ i at_, r = mkRow i LnReceive.quoted at_ at_ (stored q) ∅ ∧ valid = validUntil ∧
      rows (q_db w) = rows d ++ [r] ∧ q_open w = o ∧
      Forall (λ other, paymentHash (quote other) = paymentHash q → state other = LnReceive.refused) (rows d)
  | HoldRefused reason => reason = "duplicate_swap" ∧ rows (q_db w) = rows d ∧ q_open w = o
  end.

Lemma hold_insert_spec i q d a o :
  qtriple (At d a o) (insertQuote i q)
    (λ r w, ∃ at_, r = mkRow i LnReceive.quoted at_ at_ (stored q) ∅ ∧ Written d a o r w ∧
       Forall (λ other, paymentHash (quote other) = paymentHash q → state other = LnReceive.refused) (rows d))
    (λ e w, Clean a o w ∧ (e = UniqueConstraintError → rows (q_db w) = rows d)).
Proof.
  unfold insertQuote. eapply q_bind; [by apply (q_look QClock (At d a o) d a o)|]. intros at_.
  eapply q_conseq; [by apply (inserted_spec i (mkRow i LnReceive.quoted at_ at_ (stored q) ∅))|done| |done].
  intros r w (-> & Hw & Halone). by exists at_.
Qed.

Lemma tickOnHold_spec r (K : W → Prop) : qtriple K (tickOnHold deps r) (λ _, K) (λ _ _, False).
Proof.
  unfold tickOnHold. destruct (announcesHolds _); [|by apply q_ret].
  apply (q_catch _ _ _ _ (λ _, K)).
  - apply q_attempt. intros w w' x Hw ->. by destruct x.
  - intros e. apply q_call. by intros w w' x Hw ->.
Qed.

Lemma landHold_spec q validUntil d a o :
  qtriple (At d a o) (landHold deps req q validUntil) (λ out, lands d a o q out validUntil)
    (λ _ w, q_adm w = a ∧ q_open w = add_calls cancels o).
Proof.
  unfold landHold.
  apply (q_catch _ _ _ _ (λ e w, Clean a o w ∧ (e = UniqueConstraintError → rows (q_db w) = rows d))).
  - eapply q_bind; [by apply (q_look RandomUUID (At d a o) d a o)|]. intros i.
    eapply q_bind; [apply hold_insert_spec|]. intros r.
    eapply q_bind; [eapply q_conseq; [apply tickOnHold_spec|intros ? HP; exact HP|intros ? ? HP; exact HP|done]|]. intros ?.
    apply q_ret. intros w (at_ & -> & (Ha & Ho & Hr & _) & Halone). split; [done|]. by exists i, at_.
  - intros e. destruct (decide (e = UniqueConstraintError)) as [->|He].
    + apply q_ret. intros w [[Ha Ho] Hr]. split; [done|]. by split; [|split; [apply Hr|]].
    + assert (qtriple (λ w, Clean a o w ∧ (e = UniqueConstraintError → rows (q_db w) = rows d))
        (retireHold deps req ;;; throw (A := HoldQuoteOutcome) e) (λ out, lands d a o q out validUntil)
        (λ _ w, q_adm w = a ∧ q_open w = add_calls cancels o)) as Hretire.
      { eapply q_bind; [eapply q_conseq; [apply (retireHold_spec _ o (λ _, True) a)|intros ? HP; exact HP|intros ? ? HP; exact HP|done]|].
        - by intros w [[Ha Ho] _].
        - intros ?. apply q_throw. by intros w (Ha & Ho & _). }
      destruct e; try exact Hretire. by destruct He.
Qed.

(** ** Minting it *)

Lemma mintAndLand_spec payoutPk params script locktime validUntil payout fingerprint give hold d a o :
  (∀ held i at_, (exactOut (req_amountSide req) = false → held_payableSats held = give) →
     let q := quotedRow deps req payoutPk params script locktime validUntil payout fingerprint held in
     Forall (λ other, paymentHash (quote other) = req_paymentHash req → state other = LnReceive.refused) (rows d) →
     hold_promise (rows d) validUntil hold held (mkRow i LnReceive.quoted at_ at_ (stored q) ∅)) →
  qtriple (At d a o)
    (mintAndLand deps req give hold
       (quotedRow deps req payoutPk params script locktime validUntil payout fingerprint) validUntil)
    (λ out w, q_adm w = a ∧ hold_over d o out (rows (q_db w)) (q_open w))
    (λ _ w, q_adm w = a ∧ hold_failed o (q_open w)).
Proof.
  intros Hpromise. unfold mintAndLand.
  eapply (q_bind _ _ _ (λ held, At d a (add_calls [asked hold (Ok held)] o))).
  { apply q_attempt. intros w w' x (Hd & Ha & Ho) ->. cbn in *. rewrite Ho, add_call_calls.
    destruct x as [held|e]; [by split_and!|]. split; [done|]. right. left. by exists hold, e. }
  intros held. destruct (negb (exactOut (req_amountSide req)) && negb (held_payableSats held =? give)) eqn:Hgive.
  - eapply q_bind.
    + eapply q_conseq; [apply (retireHold_spec (At d a (add_calls [asked hold (Ok held)] o))
        (add_calls [asked hold (Ok held)] o) (λ rs, rs = rows d) a)|done|intros ? ? HP; exact HP|done].
      intros w (Hd & Ha & Ho). by rewrite Hd.
    + intros ?. apply q_ret. intros w (Ha & Ho & Hr). split; [done|]. split; [done|]. right. exists hold, held. left.
      by rewrite Ho, add_calls_app.
  - eapply q_conseq; [apply landHold_spec|done| |].
    + intros [r valid|reason] w [Ha Hout]; split; try done.
      * destruct Hout as (i & at_ & -> & -> & Hr & Ho & Halone).
        eexists i, _, at_, hold, held. split_and!; [done|done|done|]. apply Hpromise; [|done].
        intros Hin. rewrite Hin in Hgive. cbn in Hgive. by bool_to_prop.
      * destruct Hout as (-> & Hr & Ho). split; [done|]. right. exists hold, held. by right.
    + intros e w [Ha Ho]. split; [done|]. right. right. exists hold, held. by rewrite Ho, add_calls_app.
Qed.

(** ** What leads up to it *)

Lemma walletFingerprint_spec d a o :
  qtriple (At d a o) (walletFingerprint deps) (λ _, At d a o) (λ _, Clean a o).
Proof.
  unfold walletFingerprint. case_match; [|by apply q_ret].
  apply (q_catch _ _ _ _ (λ _, At d a o)); [|by intros ?; apply q_ret].
  eapply (q_bind _ _ _ (λ _, At d a o)); [|by intros ?; apply q_ret].
  apply q_attempt. intros w w' x Hw ->. by destruct x.
Qed.

(** The hold, and the payout priced off it. *)
Definition matched (give payout hold payout' : Z) : Prop :=
  if exactOut (req_amountSide req) then hold = give ∧ payout' = payout
  else hold ≤ give ∧ 0 < payout' ∧ payoutFor (pricing deps) RFQ_PAIR_RECEIVE hold = Some payout'.

Lemma matchHold_spec give payout d a o :
  (exactOut (req_amountSide req) = false → 0 < payout ∧ payoutFor (pricing deps) RFQ_PAIR_RECEIVE give = Some payout) →
  qtriple (At d a o) (matchHold deps req give payout)
    (λ m w, At d a o w ∧ match m with inl (hold, payout') => matched give payout hold payout' | inr _ => True end)
    (λ _, Clean a o).
Proof.
  intros Hpriced. unfold matchHold, matched. destruct (exactOut (req_amountSide req)) eqn:Hexact; cbn [orb]; [by apply q_ret|].
  destruct (Hpriced eq_refl) as [Hpos Hpay].
  destruct (matchesPayable deps); cbn [negb]; [|apply q_ret; intros w Hw; split; [done|]; split_and!; [lia|done|done]].
  eapply (q_bind _ _ _ (λ _, At d a o)).
  { apply (q_catch _ _ _ _ (λ _, At d a o)); [|by intros ?; apply q_ret].
    eapply (q_bind _ _ _ (λ _, At d a o)); [|by intros ?; apply q_ret].
    apply q_attempt. intros w w' x Hw ->. by destruct x. }
  intros [hold|]; [|by apply q_ret]. destruct ((hold <=? 0) || _) eqn:Hrange; [by apply q_ret|]. bool_to_prop.
  eapply q_bind; [by apply priced_spec|]. intros payout'. apply q_pure. intros Hp.
  apply q_ret. intros w Hw. split; [done|]. destruct (payout' <=? 0) eqn:Hz; [done|]. bool_to_prop. split_and!; [lia|lia|done].
Qed.

Lemma hashTaken_spec hash d a o :
  qtriple (At d a o) (hashTaken deps hash) (λ _, At d a o) (λ _, Clean a o).
Proof.
  unfold hashTaken. eapply q_bind; [by apply q_read_row|]. intros [r|]; [by apply q_ret|].
  eapply q_bind; [apply livePeers_spec|]. intros []; [by apply q_ret|].
  case_match; [by apply q_ask|by apply q_ret].
Qed.

(** The script of the quote is the one its row rebuilds. *)
Lemma quotedRow_rebuilds payoutPk params script locktime validUntil payout fingerprint held i at_ :
  Forall is_byte payoutPk → receiveScript deps req payoutPk locktime = Ok (params, script) →
  arkDestination (hrp ark) (req_payoutAddress req) = Some payoutPk →
  let q := quotedRow deps req payoutPk params script locktime validUntil payout fingerprint held in
  hold_covenant i (stored q) (mkRow i LnReceive.quoted at_ at_ (stored q) ∅).
Proof.
  intros Hbytes Hs Hdest. unfold receiveScript in Hs.
  apply bind_Ok in Hs as (sv & Hsv & Hs). apply bind_Ok in Hs as (rc & Hrc & Hs).
  apply bind_Ok in Hs as (h & Hh & Hs). apply bind_Ok in Hs as (cl & Hcl & Hs).
  apply bind_Ok in Hs as (em & Hem & Hs). apply bind_Ok in Hs as (ss & Hss & Hs).
  apply bind_Ok in Hs as (sc & Hsc & [= <- <-]).
  exists payoutPk, ss. split_and!; [done|by apply hexBytes_Ok|done|].
  eexists _, _. split_and!; [apply covenant_rebuilt; [exact Hsc|..]| | | | | | |]; try done; try by apply hexBytes_Ok.
  cbn. apply hexBytes_Ok. by apply hex_decode_encode.
Qed.

(** ** Under the reservation *)

(** Steps before anything is opened, on the way to what [holdReserved] ends in. *)
Definition over (ok : AdmissionControl → Prop) (d : ReceiveDb) (o : Opened) (out : HoldQuoteOutcome) (w : W) : Prop :=
  ok (q_adm w) ∧ hold_over d o out (rows (q_db w)) (q_open w).
Definition given_up (ok : AdmissionControl → Prop) (o : Opened) (w : W) : Prop := ok (q_adm w) ∧ hold_failed o (q_open w).

Lemma At_HoldRefused (ok : AdmissionControl → Prop) d a o reason w :
  ok a → At d a o w → over ok d o (HoldRefused reason) w.
Proof. intros Hok (Hd & Ha & Ho). unfold over. rewrite Hd, Ha, Ho. split; [done|]. split; [done|by left]. Qed.
Lemma Clean_given_up (ok : AdmissionControl → Prop) a o w : ok a → Clean a o w → given_up ok o w.
Proof. intros Hok [Ha Ho]. unfold given_up. rewrite Ha, Ho. split; [done|by left]. Qed.

Lemma hold_bind {A B} (ok : AdmissionControl → Prop) (K : W → Prop) (M : A → W → Prop) (p : io _ Error A)
    (f : A → io _ Error B) P a o :
  ok a → qtriple K p M (λ _, Clean a o) → (∀ x, qtriple (M x) (f x) P (λ _, given_up ok o)) →
  qtriple K (bind p f) P (λ _, given_up ok o).
Proof.
  intros Hok Hp Hf. eapply q_bind; [|exact Hf]. eapply q_conseq; [exact Hp|done|done|].
  intros e w. by apply Clean_given_up.
Qed.

Lemma holdReserved_spec payoutPk give payout d a o :
  Forall is_byte payoutPk → arkDestination (hrp ark) (req_payoutAddress req) = Some payoutPk →
  hold_minSats deps ≤ give ≤ hold_maxSats deps →
  (if exactOut (req_amountSide req)
   then giveFor (pricing deps) RFQ_PAIR_RECEIVE (req_amountSats req) = Some give ∧ payout = req_amountSats req
   else give = req_amountSats req ∧ 0 < payout ∧ payoutFor (pricing deps) RFQ_PAIR_RECEIVE give = Some payout) →
  qtriple (At d a o) (holdReserved deps req payoutPk give payout)
    (over (λ b, b = a) d o) (λ _, given_up (λ b, b = a) o).
Proof.
  intros Hbytes Hdest Hlim Hamounts. unfold holdReserved.
  eapply hold_bind; [done|by apply q_lifted; intros e w Hw _; eapply At_Clean|]. intros server. apply q_pure. intros _.
  eapply hold_bind; [done|by apply (q_look QClock (At d a o) d a o)|]. intros at_.
  eapply hold_bind; [done|apply quoted_locktime_spec|]. intros locktime. apply q_pure. intros [moment Hm].
  eapply hold_bind; [done|by apply q_lifted; intros e w Hw _; eapply At_Clean|]. intros [params script]. apply q_pure. intros Hs.
  destruct (_ >? _) eqn:Hcltv; [by apply q_ret; intros; apply (At_HoldRefused _ d a o)|].
  rewrite Z.gtb_ltb in Hcltv. bool_to_prop.
  eapply hold_bind; [done|apply walletFingerprint_spec|]. intros fingerprint.
  eapply hold_bind; [done|apply (matchHold_spec give payout d a o)|]; [by intros Hin; rewrite Hin in Hamounts; destruct Hamounts as (_ & ? & ?)|].
  intros [[hold payout']|reason]; apply q_pure; [|intros _; by apply q_ret; intros; apply (At_HoldRefused _ d a o)].
  intros Hmatched. apply mintAndLand_spec. intros held i at0 Hpayable q Halone. split; [done|done| | |done|].
  - exists give. unfold matched in Hmatched. destruct (exactOut (req_amountSide req)).
    + destruct Hamounts as [Hg ->], Hmatched as [-> ->]. split_and!; (done || lia).
    + destruct Hamounts as (-> & _ & _), Hmatched as (Hle & Hpos & Hpay). specialize (Hpayable eq_refl). split_and!; (done || lia).
  - exists at_, moment. by split_and!.
  - by eapply quotedRow_rebuilds.
Qed.

(** ** The quote *)

Lemma holdQuote_spec d a o :
  (∀ s bytes, arkAddressDecode s = Some bytes → Forall is_byte bytes) → adm_wf a →
  qtriple (At d a o) (holdQuote deps req) (over (unchanged a) d o) (λ _, given_up (unchanged a) o).
Proof.
  intros Hbytes Hwf. assert (unchanged a a) as Hok by done. unfold holdQuote.
  eapply hold_bind; [done|by apply giveSats_spec|].
  intros give. apply q_pure. intros Hgive.
  destruct ((give <? _) || _) eqn:Hlim; [by apply q_ret; intros; apply (At_HoldRefused _ d a o)|]. bool_to_prop.
  eapply hold_bind; [done|by apply payoutOf_spec|].
  intros payout. apply q_pure. intros Hpayout.
  destruct (negb (exactOut (req_amountSide req)) && (payout <=? 0)) eqn:Hpos; [by apply q_ret; intros; apply (At_HoldRefused _ d a o)|].
  destruct (arkDestination _ _) as [payoutPk|] eqn:Hdest; [|by apply q_ret; intros; apply (At_HoldRefused _ d a o)].
  eapply hold_bind; [done|apply hashTaken_spec|]. intros [|]; [by apply q_ret; intros; apply (At_HoldRefused _ d a o)|].
  eapply (hold_bind _ _ (λ _, At d a o)); [done|destruct (req_requesterKey req); [by apply q_look|by apply q_ret]|].
  intros [|]; cbn [negb]; [|by apply q_ret; intros; apply (At_HoldRefused _ d a o)].
  apply (reserved_spec owes_nothing _ d a o (hold_over d o) (λ _ _ op, hold_failed o op)
    (λ _, ret (HoldRefused "provider_at_capacity"))); [done|by intros b pool; apply q_ret| |by left| |].
  - by apply admit_holds.
  - intros a' ceiling. apply q_pure. intros Hu. apply q_ret. intros w. by apply At_HoldRefused.
  - intros r a' _. apply holdReserved_spec; [|done|lia|].
    + unfold arkDestination in Hdest. destruct (arkAddressDecode _) as [bytes|] eqn:Hdec; [|done].
      destruct (String.prefix _ _); [|done]. injection Hdest as <-. by eapply Hbytes.
    + destruct (exactOut (req_amountSide req)); [by split|]. cbn in Hpos. bool_to_prop. by split_and!.
Qed.
End quote.
