(* ===== verification/LnReceiveQuoteSafety.v ===== *)
(** * Lightning receive quotes keep their word

    Over every run of [LnReceiveQuote.holdQuote] from any world: a quote is all
    or nothing, an invoice it minted in vain it asks to have cancelled where the
    backend can cancel, its row promises what the client was told, and a payment
    that honours the invoice finds the funding gate of the tick open. *)
From S2P Require Import Prelude JsString Timelocks SendPolicy ReceivePolicy StateMachine Prog SwapDb EvmRow Store BaseStore LnReceiveStore ChainClock.
From S2P Require Import Covenant Admission Pricing RateLimit Corridor LnReceiveService Quote QuoteRules QuoteProof QuoteSafety LnReceiveQuote LnReceiveQuoteProof.
#[local] Open Scope Z_scope.

Section safety.
Context {A : Arkade}.

Lemma holdQuote_runs deps req w r w' :
  (∀ s bytes, arkAddressDecode s = Some bytes → Forall is_byte bytes) →
  adm_wf (q_adm w) → runs (holdQuote deps req) w r w' →
  outcome (over deps req (unchanged (q_adm w)) (q_db w) (q_open w))
    (λ _, given_up deps req (unchanged (q_adm w)) (q_open w)) r w'.
Proof.
  intros Hbytes Hwf Hr.
  apply (qtriple_runs _ _ _ _ w r w' (holdQuote_spec deps req (q_db w) (q_adm w) (q_open w) Hbytes Hwf)); [|done].
  by split_and!.
Qed.
End safety.

(** C21: a hold quote is all or nothing and gives up on no invoice it can close:
    however the outside answers or fails, the exposure counters end where they
    began; an accepted quote added exactly its own row and minted exactly one
    invoice, the one its row names, when every other row of the payment hash was
    closed; a refused one wrote no row, and minted nothing, or minted an invoice
    that did not ask for the client's give and retired it, or lost the race for
    the hash and left the invoice alone — it is the winner's; one that throws
    had no invoice answered, or retired it. To retire an invoice is to ask once
    for its cancellation, whatever the answer, where the backend has
    [cancelHold]; that operation is optional on the port, and without it nothing
    is asked and the invoice is left open. The row satisfies
    [hold_promise]: the give is within the limits, the payout is the one
    requested or what the price leaves of the hold, an exact-in invoice asks
    exactly the give, every deadline is of one reading of the clock, the final
    CLTV delta is one a payer can honour, and the covenant rebuilds from the row
    to the script the solver will fund. *)
Theorem hold_quote_keeps_its_word {A : Arkade} deps req w r w' :
  (∀ s bytes, arkAddressDecode s = Some bytes → Forall is_byte bytes) →
  adm_wf (q_adm w) → runs (holdQuote deps req) w r w' →
  unchanged (q_adm w) (q_adm w') ∧
  match r with
  | Ok out => hold_over deps req (q_db w) (q_open w) out (rows (q_db w')) (q_open w')
  | Err _ => hold_failed deps req (q_open w) (q_open w')
  end.
Proof.
  intros Hbytes Hwf Hr. pose proof (holdQuote_runs _ _ _ _ _ Hbytes Hwf Hr) as Ho. by destruct r.
Qed.

(** C22: what was quoted can be funded: the payout of an accepted quote is
    positive and within what the minted invoice holds; in a deployment whose
    timelocks are seconds the solver's refund opens a claim window after the
    invoice expires; and while the invoice is live, a payment that honours its
    final CLTV delta passes the funding gate as [heldGates] evaluates it, for
    any reading of the refund deadline no later than the one quoted. *)
Theorem quoted_hold_is_fundable {A : Arkade} deps req w row validUntil w' :
  (∀ s bytes, arkAddressDecode s = Some bytes → Forall is_byte bytes) →
  adm_wf (q_adm w) → FairPricing (pricing deps) → 0 < req_amountSats req →
  runs (holdQuote deps req) w (Ok (HoldAccepted row validUntil)) w' →
  ∃ at_ hold held,
    hold_calls (q_open w') = hold_calls (q_open w) ++ [asked deps req hold (Ok held)] ∧
    invoice (quote row) = held_invoice held ∧ 0 < payoutSats (quote row) ≤ hold ∧
    validUntil = invoiceExpiresAt (quote row) ∧ invoiceExpiresAt (quote row) = at_ + DEFAULT_HOLD_INVOICE_WINDOW ∧
    (unit_of (relativeDelayFrom (claimDelay (quote row))) = seconds →
     refundLocktime (quote row) = invoiceExpiresAt (quote row) + MIN_CLAIM_WINDOW) ∧
    ∀ t height deadline, at_ ≤ t < invoiceExpiresAt (quote row) →
      LOCKTIME_THRESHOLD ≤ deadline ≤ at_ + MAX_REFUND_HORIZON →
      evaluateReceiveFunding (mkFunding (invoiceExpiresAt (quote row))
        (Some (htlcDeadlineFromHeight
           (height + hold_minFinalCltvBlocks (holdParams req hold (quotedCltvBlocks deps))) height t))
        deadline (refundWithoutReceiverDelay (quote row)) (dep_acceptUnilateralGap (receive_deps deps)) t) = Ok Fund.
Proof.
  intros Hbytes Hwf Hfair Hpos Hr. destruct (holdQuote_runs _ _ _ _ _ Hbytes Hwf Hr) as (_ & Hover).
  destruct Hover as (i & q & stamp & hold & held & -> & _ & Hop & [_ Hinv Hamounts Hdeadlines _ _]).
  cbn [quote] in *. destruct Hdeadlines as (at_ & moment & -> & Hexp & _ & Hsolo & Hlock & _).
  exists at_, hold, held. rewrite Hop, Hexp, Hsolo.
  assert (0 < payoutSats q ≤ hold) as [Hp Hh].
  { destruct Hamounts as (give & _ & _ & Hside). destruct (exactOut (req_amountSide req)).
    - destruct Hside as (Hg & -> & ->). split; [done|]. by eapply give_covers.
    - destruct Hside as (_ & _ & _ & Hp & Hg). split; [done|]. by eapply payout_within. }
  split_and!; try done.
  - intros Hu. rewrite Hu in Hlock. injection Hlock as <-. unfold DEFAULT_HOLD_INVOICE_WINDOW. lia.
  - intros t height deadline Ht Hd. apply minted_invoice_is_fundable; lia.
Qed.

(** ** Quotes played *)

#[local] Existing Instance example_arkade.

(** A wallet that knows its invoices; where a wrapper adds five sats to what an
    invoice asks for, the hold is five less than the give. *)
Definition hold_answers X (e : hold_quote_read X) : option X :=
  match e in hold_quote_read X return option X with
  | LiveCoupledSend _ => Some false
  | HoldTip => Some 850000
  | WalletFingerprint => Some "wallet-1"
  | HoldForPayable give => Some (give - 5)
  | OnHoldAccepted _ => Some tt
  end.
Definition hold_example_deps (matches : bool) : HoldQuoteDeps :=
  mkHoldQuoteDeps
    (mkLnReceiveDeps false false true false true true true true 330 330 3)
    (mkArkade "ark" (hex_encode (replicate 32 187)) "aa" (hex_encode (replicate 32 33)) (hex_encode example_p2tr)
      (mkDelays 512 1024 4608))
    1000 1000000 5000000 2 None (Some (mkFee 25 150)) (Some "lnd") true true matches true.
Definition hold_example_request (side : option AmountSide) : ReceiveQuoteRequest :=
  mkReceiveRequest (Some "203.0.113.7") example_hash 100000 side "ark1client" "cc" None (Some "rfq-1").
Definition hold_run (matches : bool) (wrapped : Z → Z) (side : option AmountSide) :=
  play (q_served 1700000000 0 "uuid-1" hold_answers wrapped)
    (holdQuote (hold_example_deps matches) (hold_example_request side)) example_qworld.

(** What the client is asked for and paid, until when, and what the backend was asked. *)
Definition hold_run_summary (run : option (result Error HoldQuoteOutcome * QWorld LnReceive.state ReceiveQuote))
    : option (Z * Z * Z * string * nat) :=
  match run with
  | Some (Ok (HoldAccepted row validUntil), w) =>
      Some (amountSats (quote row), payoutSats (quote row), validUntil, "", length (hold_calls (q_open w)))
  | Some (Ok (HoldRefused reason), w) => Some (0, 0, 0, reason, length (hold_calls (q_open w)))
  | _ => None
  end.

(** Exact-in behind a wrapper that is asked, and one that is not; exact-out. *)
Example hold_runs_end :
  hold_run_summary (hold_run true (λ z, z + 5) None) = Some (100000, 99595, 1700001800, "", 1%nat) ∧
  hold_run_summary (hold_run false (λ z, z + 5) None) = Some (0, 0, 0, "payable_amount_unmatchable", 2%nat) ∧
  hold_run_summary (hold_run true (λ z, z + 5) (Some to_side)) = Some (100407, 100000, 1700001800, "", 1%nat).
Proof. vm_compute. split_and!; reflexivity. Qed.

#[local] Opaque holdQuote.

(** The run that the summary describes. *)
Lemma hold_run_accepts :
  ∃ row w', runs (holdQuote (hold_example_deps true) (hold_example_request None)) example_qworld
      (Ok (HoldAccepted row 1700001800)) w' ∧
    amountSats (quote row) = 100000 ∧ payoutSats (quote row) = 99595.
Proof.
  pose proof (proj1 hold_runs_end) as Hend. destruct (hold_run _ _ None) as [[[[row valid|reason]|e] w']|] eqn:He;
    [|discriminate Hend..]. cbn in Hend. injection Hend as Ha Hp -> _.
  exists row, w'. split; [exact (play_runs _ _ _ _ _ _ _ _ _ He)|]. by split.
Qed.
Lemma hold_run_refuses :
  ∃ w', runs (holdQuote (hold_example_deps false) (hold_example_request None)) example_qworld
      (Ok (HoldRefused "payable_amount_unmatchable")) w' ∧ length (hold_calls (q_open w')) = 2%nat.
Proof.
  pose proof (proj1 (proj2 hold_runs_end)) as Hend. destruct (hold_run _ _ None) as [[[[row valid|reason]|e] w']|] eqn:He;
    try discriminate Hend. cbn in Hend. injection Hend as -> Hl.
  exists w'. split; [exact (play_runs _ _ _ _ _ _ _ _ _ He)|]. exact Hl.
Qed.

Lemma hold_quote_keeps_its_word_witness :
  (∃ row w', runs (holdQuote (hold_example_deps true) (hold_example_request None)) example_qworld
      (Ok (HoldAccepted row 1700001800)) w' ∧ unchanged new_admission (q_adm w') ∧
    hold_over (hold_example_deps true) (hold_example_request None) (mkDb [] []) (mkOpened ∅ [] ∅)
      (HoldAccepted row 1700001800) (rows (q_db w')) (q_open w')) ∧
  ∃ w', length (hold_calls (q_open w')) = 2%nat ∧
    hold_over (hold_example_deps false) (hold_example_request None) (mkDb [] []) (mkOpened ∅ [] ∅)
      (HoldRefused "payable_amount_unmatchable") (rows (q_db w')) (q_open w').
Proof.
  split.
  - destruct hold_run_accepts as (row & w' & Hr & _). exists row, w'. split; [exact Hr|].
    exact (hold_quote_keeps_its_word _ _ example_qworld _ w' example_arkade_bytes new_admission_wf Hr).
  - destruct hold_run_refuses as (w' & Hr & Hl). exists w'. split; [exact Hl|].
    apply (hold_quote_keeps_its_word _ _ example_qworld _ w' example_arkade_bytes new_admission_wf Hr).
Defined.

Lemma hold_example_fair : FairPricing (pricing (hold_example_deps true)).
Proof. apply fixedFeePricing_fair. by vm_compute. Qed.

Lemma quoted_hold_is_fundable_witness :
  ∃ row w' at_ hold held,
    runs (holdQuote (hold_example_deps true) (hold_example_request None)) example_qworld
      (Ok (HoldAccepted row 1700001800)) w' ∧
    hold_calls (q_open w') = [asked (hold_example_deps true) (hold_example_request None) hold (Ok held)] ∧
    0 < payoutSats (quote row) ≤ hold ∧ invoiceExpiresAt (quote row) = at_ + DEFAULT_HOLD_INVOICE_WINDOW.
Proof.
  destruct hold_run_accepts as (row & w' & Hr & _).
  assert (0 < req_amountSats (hold_example_request None)) as Hpos by (vm_compute; reflexivity).
  destruct (quoted_hold_is_fundable _ _ example_qworld row 1700001800 w' example_arkade_bytes new_admission_wf
    hold_example_fair Hpos Hr) as (at_ & hold & held & Hcalls & _ & Hp & _ & He & _).
  exists row, w', at_, hold, held. split; [exact Hr|]. split; [exact Hcalls|]. split; [exact Hp|exact He].
Defined.
