(* ===== verification/OnchainSendQuote.v ===== *)
(** * Quotes of the onchain send service

    [quote()] of [OnchainSendSwapService]
    ([packages/solver-corridors/src/send/onchainOrchestrator.ts]): the refund
    address, the give and the payout either way round, the deadlines, the floor
    a payout must clear to be returnable, the hash against every corridor's
    store, the reservation against the exposure cap and the wallet, the covenant
    on Arkade, the HTLC on the bitcoin chain, and the row. *)
From Stdlib Require Import QArith_base.
From S2P Require Import Prelude Timelocks SendPolicy OnchainPolicy StateMachine Prog SwapDb EvmRow Store Covenant Admission Pricing.
From S2P Require Import OnchainRail BaseStore OnchainSendStore OnchainSendService Quote.
#[local] Open Scope Z_scope.

Definition RFQ_PAIR_ONCHAIN_SEND : string := "arkade:BTC->onchain:BTC".

(** What a quote reads off its rails: the sampled sat/vB, the fee of funding an
    HTLC and the last balance of the wallet, none before the first. *)
Inductive onchain_quote_read : Type → Type :=
  | SampledFeeRate : onchain_quote_read (option num)
  | FundingFeeSats : onchain_quote_read Z
  | ReadFloat : onchain_quote_read (option Z).

(** What of [OnchainSendServiceDeps] a quote reads beyond [OnchainDeps]. *)
Record OnchainQuoteDeps := mkOnchainQuoteDeps {
  send_deps : OnchainDeps;
  onchain_arkade : ArkadeOps;
  onchain_minSats : Z;
  onchain_maxSats : Z;
  onchain_maxExposedSats : Z;
  onchain_peerStores : nat;
  onchain_pricing : option PricingStrategy;
  onchain_fee : option Fee;
  readsFloat : bool;        (** [float] *)
  samplesFees : bool;       (** [feeRate] *)
}.

Record OnchainQuoteRequest := mkOnchainRequest {
  req_requesterKey : option string;
  req_paymentHash : string;
  req_amountSats : Z;
  req_amountSide : option AmountSide;
  req_payoutPubkey : string;
  req_refundAddress : string;
  req_clientRefundPubkey : string;
  req_rfqId : option string;
}.

(** [{ accepted: true, swap, lockupDeadline } | { accepted: false, reason }] *)
Inductive OnchainQuoteOutcome :=
  | OnchainAccepted (swap : OnchainRow) (lockupDeadline : Z)
  | OnchainRefused (reason : string).

(** The row as [covenantScriptFromRow] takes it. *)
Definition covenantRowFor (r : OnchainRow) : CovenantScriptRow :=
  let q := quote r in
  mkCovenant (row_id r) (providerPubkey q) (serverPubkey q) (paymentHash q) (refundLocktime q) (claimDelay q)
    (emulatorPubkey q) (refundPkScript q) (pkScript q) (default "null" (clientRefundPubkey q))
    (refundWithoutReceiverDelay q) (refundDelay q) (receiverPkScript q) (default false (nonInteractiveParameters q)).

Section onchain_quote.
Context `{BtcSigner, Arkade} (deps : OnchainQuoteDeps).
#[local] Open Scope io_scope.
#[local] Abbreviation event := (qevt OnchainSend.state OnchainQuote onchain_quote_read).
#[local] Abbreviation io := (io event Error).
#[local] Abbreviation outcome := (QuoteOutcome OnchainSend.state OnchainQuote).
#[local] Abbreviation ark := (onchain_arkade deps).

Definition pricing : PricingStrategy :=
  default (fixedFeePricing 0 (default FREE (onchain_fee deps))) (onchain_pricing deps).

(** The size of the solver's own refund of an HTLC, before there is one. *)
Definition refundVsize : result Error positive :=
  refundSpendVsize (ONCHAIN_NETWORKS (network (send_deps deps))) (refundDestinationScript (send_deps deps)).

(** Dust and the refund's own fee at a sampled rate. *)
Definition payoutFloorAt (vsize : positive) (rate : option num) : num :=
  match ceil_num (num_scale vsize (num_max (default (of_Z 0) rate) (of_Z MIN_RELAY_FEE_RATE))) with
  | Fin fee => Fin (inject_Z ONCHAIN_DUST_SATS + fee)%Q
  | fee => fee
  end.
Definition refundablePayoutFloor : io num :=
  vsize <- qlift refundVsize ;;
  rate <- (if samplesFees deps then outside SampledFeeRate else ret None) ;;
  ret (payoutFloorAt vsize rate).

(** The smallest payout this corridor would fund. *)
Definition minimumPayoutSats : io num :=
  floor <- refundablePayoutFloor ;;
  least <- priced (payoutFor pricing RFQ_PAIR_ONCHAIN_SEND (onchain_minSats deps)) ;;
  ret (num_max floor (of_Z least)).

(** The payout and the fee to broadcast it, of the wallet's last balance. *)
Definition floatRequirement (payout : Z) : io (option FloatRequirement) :=
  if negb (readsFloat deps) then ret None
  else
    fundingFee <- outside FundingFeeSats ;;
    available <- outside ReadFloat ;;
    ret (Some (mkFloat (payout + fundingFee) available)).

(** A hash live here or at a peer is spoken for. *)
Definition spokenFor (hash : string) : io bool :=
  live <- findLiveByPaymentHash hash ;;
  match live with
  | Some _ => ret true
  | None => livePeers (onchain_peerStores deps) 0 hash
  end.

Section request.
Context (req : OnchainQuoteRequest).

(** The lockup: the solver claims, the client refunds. *)
Definition lockupScript (refundPk : list Z) (locktime : Z) (ladder : UnilateralDelays)
    : result Error (CovenantSwapParams * list Z) :=
  server ← hexBytes (ark_serverPubkey ark);
  receiver ← hexBytes (ark_solverPubkey ark);
  hash ← scriptHashFromPaymentHash (req_paymentHash req);
  client ← hexBytes (req_clientRefundPubkey req);
  emulator ← hexBytes (ark_emulatorPubkey ark);
  receiverScript ← hexBytes (ark_solverPkScript ark);
  let params := mkParams receiver server hash locktime (unilateralClaimDelay ladder) client
    (unilateralRefundWithoutReceiverDelay ladder) (unilateralRefundDelay ladder) emulator receiverScript
    refundPk false in
  script ← CovenantSwapScript params;
  Ok (params, script).

(** The HTLC: the client claims, the solver refunds with its Arkade key. *)
Definition payoutHtlc (locktime : Z) : result Error OnchainHtlc :=
  claimKey ← hexBytes (req_payoutPubkey req);
  refundKey ← hexBytes (ark_solverPubkey ark);
  buildOnchainHtlc (mkHtlcParams (ONCHAIN_NETWORKS (network (send_deps deps))) (req_paymentHash req)
    claimKey refundKey locktime).

(** The row of a quote, its scripts built from the very same parts. *)
Definition onchainCandidate (refundPk : list Z) (give payout locktime htlcLocktime minConfirmations : Z)
    (ladder : UnilateralDelays) : result Error OnchainQuote :=
  lockup ← lockupScript refundPk locktime ladder;
  htlc ← payoutHtlc htlcLocktime;
  let '(params, script) := lockup in
  Ok (mkOnchainQuote (req_paymentHash req) give (Some payout) locktime (ark_solverPubkey ark) (ark_serverPubkey ark)
        (unilateralClaimDelay ladder) (unilateralRefundDelay ladder) (unilateralRefundWithoutReceiverDelay ladder)
        (hex_encode script) (vhtlcAddress params (hrp ark) (server params)) (hex_encode refundPk)
        (ark_emulatorPubkey ark) (Some (req_clientRefundPubkey req)) (ark_solverPkScript ark) (Some true)
        (req_payoutPubkey req) (ark_solverPubkey ark) htlcLocktime minConfirmations
        (OnchainRail.address htlc) (hex_encode (OnchainRail.pkScript htlc)) (req_rfqId req)).

(** What is done while the exposure and the float are reserved. *)
Definition onchainReserved (refundPk : list Z) (give payout locktime htlcLocktime minConfirmations : Z) : io outcome :=
  at_ <- call QClock ;;
  ladder <- qthrow "ladder" (unilateralLadderFor (delays ark) (arkadeClaimDeadline htlcLocktime) at_) ;;
  q <- qlift (onchainCandidate refundPk give payout locktime htlcLocktime minConfirmations ladder) ;;
  i <- call RandomUUID ;;
  landing (insertQuote i q).

Definition capacityRefusal (ceiling : option Ceiling) : string :=
  match ceiling with Some Admission.float => "insufficient_float" | _ => "provider_at_capacity" end.

(** From accepted deadlines on: the payout, the hash and the reservation. *)
Definition onchainPriced (refundPk : list Z) (give locktime htlcLocktime minConfirmations : Z) : io outcome :=
  payout <- payoutOf pricing RFQ_PAIR_ONCHAIN_SEND (req_amountSide req) (req_amountSats req) give ;;
  if negb (exactOut (req_amountSide req)) && (payout <=? 0) then ret (Refused "fee_consumes_swap")
  else
  floor <- refundablePayoutFloor ;;
  if num_lt (of_Z payout) floor then ret (Refused "payout_below_dust")
  else
  taken <- spokenFor (req_paymentHash req) ;;
  if taken : bool then ret (Refused "duplicate_swap")
  else
  metered <- match req_requesterKey req with
             | Some key => call (QuoteLimiterTake key) | None => ret true end ;;
  if negb metered then ret (Refused "rate_limited")
  else
  required <- floatRequirement payout ;;
  bind (admission_noting (λ _, owedPayoutSats) None
          (admitRequest (mkRequest give (onchain_maxExposedSats deps) required None)))
    (λ '(reservation, ceiling),
       match reservation with
       | None => ret (Refused (capacityRefusal ceiling))
       | Some r => whileReserved r (onchainReserved refundPk give payout locktime htlcLocktime minConfirmations)
       end).

Definition onchainQuote : io OnchainQuoteOutcome :=
  match refundDestination ark (req_refundAddress req) with
  | None => ret (OnchainRefused "invalid_refund_address")
  | Some refundPk =>
      give <- giveSats pricing RFQ_PAIR_ONCHAIN_SEND (req_amountSide req) (req_amountSats req) ;;
      at_ <- call QClock ;;
      match evaluateOnchainSendAcceptance give (onchain_minSats deps) (onchain_maxSats deps)
              (unilateralClaimDelay (delays ark)) at_ None with
      | OnchainAmountOutOfRange => ret (OnchainRefused "amount_out_of_range")
      | AcceptOnchain locktime htlcLocktime minConfirmations lockupDeadline =>
          out <- onchainPriced refundPk give locktime htlcLocktime minConfirmations ;;
          ret (match out with
               | Accepted swap => OnchainAccepted swap lockupDeadline
               | Refused reason => OnchainRefused reason
               end)
      end
  end.
End request.
End onchain_quote.
