(* ===== verification/OnchainSendQuoteProof.v ===== *)
(** * What an onchain send quote does

    [OnchainSendQuote.onchainQuote], by the rules of [QuoteRules]: what is read,
    what is reserved and given back, the row that lands and what it promises. *)
From Stdlib Require Import QArith Qround.
From S2P Require Import Prelude Timelocks SendPolicy OnchainPolicy StateMachine Prog SwapDb EvmRow Store Covenant Admission Pricing.
From S2P Require Import OnchainRail BaseStore OnchainSendStore OnchainSendService Quote QuoteRules QuoteProof OnchainSendQuote.
#[local] Open Scope Z_scope.
#[local] Open Scope io_scope.

(** A payout that clears the floor pays for its own refund: at any sampled rate
    that is a number. *)
Lemma floor_cleared payout vsize rate :
  num_lt (of_Z payout) (payoutFloorAt vsize rate) = false → rate ≠ Some NaN → ONCHAIN_DUST_SATS + Zpos vsize ≤ payout.
Proof.
  unfold payoutFloorAt, MIN_RELAY_FEE_RATE.
  assert (∀ x, (1 <= x)%Q → num_lt (of_Z payout) (Fin (inject_Z ONCHAIN_DUST_SATS + inject_Z (Qceiling (inject_Z (Zpos vsize) * x)))%Q)
    = false → ONCHAIN_DUST_SATS + Zpos vsize ≤ payout) as Hfin.
  { intros x Hx Hlt. pose proof (Qceiling_relay vsize x Hx) as Hc. rewrite <- inject_Z_plus in Hlt.
    change (Fin (inject_Z ?z)) with (of_Z z) in Hlt. rewrite num_lt_of_Z in Hlt. bool_to_prop. lia. }
  destruct rate as [[q| |negative]|]; intros Hlt Hn; try by destruct Hn.
  - cbn [default] in Hlt. change (of_Z 1) with (Fin (inject_Z 1)) in Hlt.
    destruct (num_max_spec q (inject_Z 1)) as (x & Hx & _ & Hx1 & _).
    unfold default, id in Hlt. rewrite Hx in Hlt. exact (Hfin x Hx1 Hlt).
  - destruct negative; [by apply (Hfin (inject_Z 1))|done].
  - by apply (Hfin (inject_Z 1)).
Qed.

Section quote.
Context `{BtcSigner, Arkade} (deps : OnchainQuoteDeps) (req : OnchainQuoteRequest).
#[local] Abbreviation ark := (onchain_arkade deps).
#[local] Abbreviation row := OnchainRow.
#[local] Abbreviation W := (QWorld OnchainSend.state OnchainQuote).
#[local] Abbreviation qtriple := (qtriple (S := OnchainSend.state) (Q := OnchainQuote) (R := onchain_quote_read)).

(** ** What an accepted quote promises *)

(** The two amounts, whichever the client named, and the floor the payout cleared. *)
Definition quoted_amounts (q : OnchainQuote) : Prop :=
  (if exactOut (req_amountSide req)
   then giveFor (pricing deps) RFQ_PAIR_ONCHAIN_SEND (req_amountSats req) = Some (amountSats q) ∧
        payoutSats q = req_amountSats req
   else amountSats q = req_amountSats req ∧ 0 < payoutSats q ∧
        payoutFor (pricing deps) RFQ_PAIR_ONCHAIN_SEND (amountSats q) = Some (payoutSats q)) ∧
  ∃ vsize rate, refundVsize deps = Ok vsize ∧ num_lt (of_Z (payoutSats q)) (payoutFloorAt vsize rate) = false ∧
    (samplesFees deps = false → rate = None).

(** The deadlines of one reading of the clock, the ladder of a later one. *)
Definition quoted_deadlines (lockupDeadline : Z) (q : OnchainQuote) : Prop :=
  ∃ at_ later ladder,
    evaluateOnchainSendAcceptance (amountSats q) (onchain_minSats deps) (onchain_maxSats deps)
      (unilateralClaimDelay (delays ark)) at_ None =
      AcceptOnchain (refundLocktime q) (htlcLocktime q) (minConfirmations q) lockupDeadline ∧
    unilateralLadderFor (delays ark) (arkadeClaimDeadline (htlcLocktime q)) later = Ok ladder ∧
    claimDelay q = unilateralClaimDelay ladder ∧ refundDelay q = unilateralRefundDelay ladder ∧
    refundWithoutReceiverDelay q = unilateralRefundWithoutReceiverDelay ladder.

(** The lockup the row rebuilds, and the HTLC. *)
Definition quoted_lockup (i : string) (q : OnchainQuote) : Prop :=
  ∃ receiverPk refundPk, hex_decode (ark_solverPkScript ark) = Some receiverPk ∧
    refundDestination ark (req_refundAddress req) = Some refundPk ∧
    ∀ at_, rebuilds (hrp ark) (covenantRowFor (mkRow i OnchainSend.quoted at_ at_ q ∅)) (lockupAddress q)
      (ark_solverPubkey ark) (req_clientRefundPubkey req) receiverPk refundPk.
Definition quoted_htlc (q : OnchainQuote) : Prop :=
  payoutPubkey q = req_payoutPubkey req ∧ htlcPubkey q = ark_solverPubkey ark ∧ providerPubkey q = ark_solverPubkey ark ∧
  ∃ htlc, rebuiltHtlc (send_deps deps) q = Ok htlc ∧ onchainAddress q = OnchainRail.address htlc ∧
    onchainPkScript q = hex_encode (OnchainRail.pkScript htlc).

Definition alone (others : list row) (hash : string) : Prop :=
  Forall (λ o, paymentHash (quote o) = hash → state o = OnchainSend.refused) others.

Record onchain_promise (others : list row) (lockupDeadline : Z) (i : string) (q : OnchainQuote) : Prop := {
  qp_hash : paymentHash q = req_paymentHash req;
  qp_amounts : quoted_amounts q;
  qp_deadlines : quoted_deadlines lockupDeadline q;
  qp_alone : alone others (req_paymentHash req);
  qp_lockup : quoted_lockup i q;
  qp_htlc : quoted_htlc q;
}.

(** ** The row *)

Lemma candidate_kept refundPk give payout locktime htlcAt confirmations ladder q i :
  Forall is_byte refundPk → refundDestination ark (req_refundAddress req) = Some refundPk →
  onchainCandidate deps req refundPk give payout locktime htlcAt confirmations ladder = Ok q →
  quoted_lockup i q ∧ quoted_htlc q ∧ stored q = q ∧
  paymentHash q = req_paymentHash req ∧ amountSats q = give ∧ payoutSats q = payout ∧ refundLocktime q = locktime ∧
  htlcLocktime q = htlcAt ∧ minConfirmations q = confirmations ∧ claimDelay q = unilateralClaimDelay ladder ∧
  refundDelay q = unilateralRefundDelay ladder ∧
  refundWithoutReceiverDelay q = unilateralRefundWithoutReceiverDelay ladder.
Proof.
  intros Hbytes Hdest Hq. unfold onchainCandidate in Hq.
  apply bind_Ok in Hq as ([params script] & Hl & Hq). apply bind_Ok in Hq as (htlc & Hh & [= <-]).
  split; [|split; [|done]].
  - unfold lockupScript in Hl.
    apply bind_Ok in Hl as (sv & Hsv & Hl). apply bind_Ok in Hl as (rc & Hrc & Hl).
    apply bind_Ok in Hl as (h & Hhash & Hl). apply bind_Ok in Hl as (cl & Hcl & Hl).
    apply bind_Ok in Hl as (em & Hem & Hl). apply bind_Ok in Hl as (rs & Hrs & Hl).
    apply bind_Ok in Hl as (sc & Hs & [= <- <-]).
    exists rs, refundPk. split; [by apply hexBytes_Ok|]. split; [done|]. intros at_.
    eexists _, sc. split_and!; [|done|done|by apply hexBytes_Ok|by apply hexBytes_Ok|done|done|done].
    apply covenant_rebuilt; try done. cbn. apply hexBytes_Ok. by apply hex_decode_encode.
  - split_and!; [done|done|done|]. exists htlc. split_and!; [|done|done]. exact Hh.
Qed.

Lemma onchain_insert_spec i q d a o :
  stored q = q →
  qtriple (At d a o) (insertQuote i q)
    (λ r w, ∃ at_, r = mkRow i state_quoted at_ at_ q ∅ ∧ Written d a o r w ∧ alone (rows d) (paymentHash q))
    (λ e w, Clean a o w ∧ (e = UniqueConstraintError → rows (q_db w) = rows d)).
Proof.
  intros Hq. unfold insertQuote. eapply q_bind; [by apply (q_look QClock (At d a o) d a o)|]. intros at_. rewrite Hq.
  eapply q_conseq; [by apply (inserted_spec i (mkRow i OnchainSend.quoted at_ at_ q ∅))|done| |done].
  intros r w (-> & Hw & Halone). by exists at_.
Qed.

(** ** The stages, from the row back to the request *)

Definition reserved_row (refundPk : list Z) (give payout locktime htlcAt confirmations : Z) (others : list row)
    (i : string) (q : OnchainQuote) : Prop :=
  ∃ later ladder,
    unilateralLadderFor (delays ark) (arkadeClaimDeadline htlcAt) later = Ok ladder ∧
    onchainCandidate deps req refundPk give payout locktime htlcAt confirmations ladder = Ok q ∧
    alone others (req_paymentHash req).

Lemma onchainReserved_spec refundPk give payout locktime htlcAt confirmations d a o :
  Forall is_byte refundPk → refundDestination ark (req_refundAddress req) = Some refundPk →
  qtriple (At d a o) (onchainReserved deps req refundPk give payout locktime htlcAt confirmations)
    (Settled d a o (reserved_row refundPk give payout locktime htlcAt confirmations (rows d))) (λ _, Clean a o).
Proof.
  intros Hbytes Hdest. unfold onchainReserved.
  eapply q_bind; [by apply (q_look QClock (At d a o) d a o)|]. intros later.
  eapply q_bind; [by apply q_checked; intros w; apply At_Clean|]. intros ladder. apply q_pure. intros Hladder.
  eapply q_bind; [by apply q_lifted; intros e w Hw _; eapply At_Clean|]. intros q. apply q_pure. intros Hq.
  eapply q_bind; [by apply (q_look RandomUUID (At d a o) d a o)|]. intros i.
  destruct (candidate_kept _ _ _ _ _ _ _ _ i Hbytes Hdest Hq) as (_ & _ & Hs & Hhash & _).
  apply (landing_spec i q). eapply q_conseq; [by apply onchain_insert_spec|done| |done].
  intros r w (at_ & -> & Hw & Hf). exists at_. split_and!; [done|done|]. exists later, ladder. by rewrite <- Hhash.
Qed.

Lemma refundablePayoutFloor_spec d a o :
  qtriple (At d a o) (refundablePayoutFloor deps)
    (λ floor w, At d a o w ∧ ∃ vsize rate, refundVsize deps = Ok vsize ∧ floor = payoutFloorAt vsize rate ∧
       (samplesFees deps = false → rate = None)) (λ _, Clean a o).
Proof.
  unfold refundablePayoutFloor.
  eapply q_bind; [by apply q_lifted; intros e w Hw _; eapply At_Clean|]. intros vsize. apply q_pure. intros Hv.
  eapply (q_bind _ _ _ (λ rate w, At d a o w ∧ (samplesFees deps = false → rate = None))).
  { destruct (samplesFees deps); [|by apply q_ret]. eapply q_conseq; [by apply q_ask|done|by intros ? ? ?|done]. }
  intros rate. apply q_pure. intros Hr. apply q_ret. intros w Hw. split; [done|]. by exists vsize, rate.
Qed.

Lemma floatRequirement_spec payout d a o :
  qtriple (At d a o) (floatRequirement deps payout) (λ _, At d a o) (λ _, Clean a o).
Proof.
  unfold floatRequirement. destruct (readsFloat deps); [|by apply q_ret].
  eapply q_bind; [by apply q_ask|]. intros fee. eapply q_bind; [by apply q_ask|]. intros available. by apply q_ret.
Qed.
Lemma spokenFor_spec hash d a o : qtriple (At d a o) (spokenFor deps hash) (λ _, At d a o) (λ _, Clean a o).
Proof.
  unfold spokenFor. eapply q_bind; [by apply q_read_row|]. intros [r|]; [by apply q_ret|]. apply livePeers_spec.
Qed.
Lemma owedPayoutSats_at d a o :
  qtriple (At d a o) owedPayoutSats (λ _, At d a o) (λ _, At d a o).
Proof.
  apply q_attempt. intros w w' x Hw [-> [->|(e & -> & _)]]; done.
Qed.

Definition priced_row (refundPk : list Z) (give locktime htlcAt confirmations : Z) (others : list row)
    (i : string) (q : OnchainQuote) : Prop :=
  ∃ payout, reserved_row refundPk give payout locktime htlcAt confirmations others i q ∧
    (if exactOut (req_amountSide req) then payout = req_amountSats req
     else 0 < payout ∧ payoutFor (pricing deps) RFQ_PAIR_ONCHAIN_SEND give = Some payout) ∧
    ∃ vsize rate, refundVsize deps = Ok vsize ∧ num_lt (of_Z payout) (payoutFloorAt vsize rate) = false ∧
      (samplesFees deps = false → rate = None).

Lemma onchainPriced_spec refundPk give locktime htlcAt confirmations d a o :
  Forall is_byte refundPk → refundDestination ark (req_refundAddress req) = Some refundPk → adm_wf a →
  qtriple (At d a o) (onchainPriced deps req refundPk give locktime htlcAt confirmations)
    (Quoted d a o (priced_row refundPk give locktime htlcAt confirmations (rows d))) (λ _, Failed a o).
Proof.
  intros Hbytes Hdest Hwf. unfold onchainPriced.
  eapply q_bind; [eapply q_conseq; [apply payoutOf_spec|done|intros ? ? HP; exact HP|intros e w; apply Clean_Failed]|].
  intros payout. apply q_pure. intros Hpayout.
  destruct (negb (exactOut _) && (payout <=? 0)) eqn:Hpos; [by apply q_ret; intros; apply At_Refused|].
  eapply q_bind; [eapply q_conseq; [apply refundablePayoutFloor_spec|done|intros ? ? HP; exact HP|intros e w; apply Clean_Failed]|].
  intros floor. apply q_pure. intros (vsize & rate & Hv & -> & Hr).
  destruct (num_lt _ _) eqn:Hfloor; [by apply q_ret; intros; apply At_Refused|].
  apply q_step; [apply spokenFor_spec|]. intros []; [by apply q_ret; intros; apply At_Refused|].
  apply q_step; [destruct (req_requesterKey req); [by apply q_look|by apply q_ret]|].
  intros []; cbn [negb]; [|by apply q_ret; intros; apply At_Refused].
  apply q_step; [apply floatRequirement_spec|]. intros required.
  apply reserved_quote_spec; [done|by intros b pool; apply owedPayoutSats_at|by apply admit_holds| |].
  - intros a' ceiling. apply q_pure. intros Hu. apply q_ret. intros w (Hd & Ha & Ho). split; [by rewrite Ha|]. by rewrite Hd.
  - intros r a' _. eapply q_conseq; [by apply onchainReserved_spec|done| |done].
    intros [swap|reason] w [Ha Hout]; split; try done. destruct Hout as (i & q & at_ & Hrow & Hrows & Hop & Hgood).
    exists i, q, at_. split_and!; [done|done|done|]. exists payout. split_and!; [done| |by exists vsize, rate].
    destruct (exactOut _); [done|]. cbn in Hpos. bool_to_prop. split; [lia|done].
Qed.

(** ** The quote *)

Definition OnchainQuoted (d : OnchainDb) (a : AdmissionControl) (o : Opened) (out : OnchainQuoteOutcome) (w : W) : Prop :=
  unchanged a (q_adm w) ∧
  match out with
  | OnchainAccepted r lockupDeadline => ∃ i q at_,
      r = mkRow i OnchainSend.quoted at_ at_ q ∅ ∧ rows (q_db w) = rows d ++ [r] ∧
      onchain_promise (rows d) lockupDeadline i q
  | OnchainRefused _ => rows (q_db w) = rows d ∧ q_open w = o
  end.
Lemma At_OnchainRefused d a o reason w : At d a o w → OnchainQuoted d a o (OnchainRefused reason) w.
Proof. intros (Hd & Ha & Ho). unfold OnchainQuoted. rewrite Hd, Ha, Ho. by split. Qed.

(** The promise, out of what the stages establish. *)
Lemma onchain_promise_kept refundPk give at_ locktime htlcAt confirmations lockupDeadline others i q :
  Forall is_byte refundPk → refundDestination ark (req_refundAddress req) = Some refundPk →
  (if exactOut (req_amountSide req)
   then giveFor (pricing deps) RFQ_PAIR_ONCHAIN_SEND (req_amountSats req) = Some give else give = req_amountSats req) →
  evaluateOnchainSendAcceptance give (onchain_minSats deps) (onchain_maxSats deps) (unilateralClaimDelay (delays ark)) at_ None =
    AcceptOnchain locktime htlcAt confirmations lockupDeadline →
  priced_row refundPk give locktime htlcAt confirmations others i q →
  onchain_promise others lockupDeadline i q.
Proof.
  intros Hbytes Hdest Hgive Hacc (payout & (later & ladder & Hladder & Hq & Halone) & Hpay & Hfloor).
  destruct (candidate_kept _ _ _ _ _ _ _ _ i Hbytes Hdest Hq)
    as (Hl & Hh & _ & E1 & E2 & E3 & E4 & E5 & E6 & E7 & E8 & E9).
  split; [done| | |done|done|done].
  - unfold quoted_amounts. rewrite E2, E3. split; [|done]. by destruct (exactOut _).
  - exists at_, later, ladder. by rewrite E2, E4, E5, E6.
Qed.

Lemma onchainQuote_spec d a o :
  (∀ s bytes, arkAddressDecode s = Some bytes → Forall is_byte bytes) → adm_wf a →
  qtriple (At d a o) (onchainQuote deps req) (OnchainQuoted d a o) (λ _, Failed a o).
Proof.
  intros Hbytes Hwf. unfold onchainQuote.
  destruct (refundDestination _ _) as [refundPk|] eqn:Hdest; [|by apply q_ret; intros; apply At_OnchainRefused].
  pose proof (refundDestination_bytes _ _ _ Hbytes Hdest) as Hpk.
  eapply q_bind; [eapply q_conseq; [apply giveSats_spec|done|intros ? ? HP; exact HP|intros e w; apply Clean_Failed]|].
  intros give. apply q_pure. intros Hgive.
  eapply q_bind; [by apply (q_look QClock (At d a o) d a o)|]. intros at_.
  destruct (evaluateOnchainSendAcceptance _ _ _ _ _ _) as [locktime htlcAt confirmations lockupDeadline|] eqn:Hacc;
    [|by apply q_ret; intros; apply At_OnchainRefused].
  eapply q_bind; [by apply onchainPriced_spec|].
  intros out. apply q_ret. intros w [Ha Hout]. split; [done|]. destruct out as [swap|reason]; [|done].
  destruct Hout as (i & q & stamp & Hrow & Hrows & _ & Hgood). exists i, q, stamp. split_and!; [done|done|].
  by eapply onchain_promise_kept.
Qed.
End quote.
