(* ===== verification/OnchainSendQuoteSafety.v ===== *)
(** * Onchain quotes keep their word

    Over every run of [OnchainSendQuote.onchainQuote] from any world: a quote is
    all or nothing, its row promises what the client was told, the funding gate
    of the tick is open for as long as the quote is, and what the solver then
    puts on chain it can always take back. *)
From Stdlib Require Import QArith_base.
From S2P Require Import Prelude Timelocks SendPolicy OnchainPolicy StateMachine Prog SwapDb EvmRow Store Covenant Admission Pricing RateLimit.
From S2P Require Import OnchainRail BaseStore OnchainSendStore OnchainSendService Quote QuoteRules QuoteProof QuoteSafety OnchainSendQuote OnchainSendQuoteProof.
#[local] Open Scope Z_scope.

Section safety.
Context {B : BtcSigner} {A : Arkade}.

Lemma onchainQuote_runs deps req w r w' :
  (∀ s bytes, arkAddressDecode s = Some bytes → Forall is_byte bytes) →
  adm_wf (q_adm w) → runs (onchainQuote deps req) w r w' →
  outcome (OnchainQuoted deps req (q_db w) (q_adm w) (q_open w)) (λ _, Failed (q_adm w) (q_open w)) r w'.
Proof.
  intros Hbytes Hwf Hr.
  apply (qtriple_runs _ _ _ _ w r w' (onchainQuote_spec deps req (q_db w) (q_adm w) (q_open w) Hbytes Hwf)); [|done].
  by split_and!.
Qed.

(** The amounts of a fair price. *)
Lemma quoted_payout_within deps req q :
  FairPricing (pricing deps) → 0 < req_amountSats req → quoted_amounts deps req q → 0 < payoutSats q ≤ amountSats q.
Proof.
  intros Hfair Hpos [Hside _]. destruct (exactOut _).
  - destruct Hside as [Hg Hp]. rewrite Hp. split; [done|]. by eapply give_covers.
  - destruct Hside as (_ & Hp & Hg). split; [done|]. by eapply payout_within.
Qed.

(** Off the floor it cleared, every refund of the quoted HTLC is affordable. *)
Lemma quoted_refund_affordable `{!Sized B} deps q htlc vsize rate txid vout now_rate :
  rebuiltHtlc (send_deps deps) q = Ok htlc → htlcLocktime q < 2 ^ 31 → refundVsize deps = Ok vsize →
  num_lt (of_Z (payoutSats q)) (payoutFloorAt vsize rate) = false → rate ≠ Some NaN →
  affordableFee (estimateRefundTxVsize (spendOf (send_deps deps) q htlc txid vout (payoutSats q))) now_rate
    (payoutSats q) ONCHAIN_DUST_SATS ≠ None.
Proof.
  intros Hh Hlt Hv Hfloor Hrate. apply affordable_iff.
  unfold rebuiltHtlc in Hh. apply bind_Ok in Hh as (ck & _ & Hh). apply bind_Ok in Hh as (rk & _ & Hh).
  unfold spendOf. rewrite (refund_size_is_known _ _ _ _ _ _ _ _ _ Hh Hlt Hv). by eapply floor_cleared.
Qed.
End safety.

(** C23: an onchain quote is all or nothing and its row keeps its word: however
    the outside answers or fails, the exposure and wallet counters end where
    they began; a refused quote wrote no row; an accepted one added exactly its
    own, when every other row of the payment hash was closed, and that row
    satisfies [onchain_promise]: the give is within the limits, the payout is
    the one requested or what the price leaves of the give and clears the floor,
    every deadline is of one reading of the clock, the ladder reaches past the
    last moment the solver may have to claim, the lockup's covenant and the HTLC
    both rebuild from the row to the very scripts and addresses it names. *)
Theorem onchain_quote_keeps_its_word {B : BtcSigner} {A : Arkade} deps req w r w' :
  (∀ s bytes, arkAddressDecode s = Some bytes → Forall is_byte bytes) →
  adm_wf (q_adm w) → runs (onchainQuote deps req) w r w' →
  unchanged (q_adm w) (q_adm w') ∧
  match r with
  | Ok (OnchainAccepted row lockupDeadline) => ∃ i q at_,
      row = mkRow i OnchainSend.quoted at_ at_ q ∅ ∧ rows (q_db w') = rows (q_db w) ++ [row] ∧
      onchain_promise deps req (rows (q_db w)) lockupDeadline i q
  | Ok (OnchainRefused _) => rows (q_db w') = rows (q_db w) ∧ q_open w' = q_open w
  | Err _ => q_open w' = q_open w
  end.
Proof.
  intros Hbytes Hwf Hr. pose proof (onchainQuote_runs _ _ _ _ _ Hbytes Hwf Hr) as Ho.
  destruct r as [[row deadline|reason]|e]; exact Ho.
Qed.

(** C24: what an accepted onchain quote has the solver put on chain it can take
    back, or be paid for: the payout is positive and within what the client
    locks; until the lockup deadline the gate that [whenFunded] asks before
    money moves is open; a claim of the HTLC at the last moment leaves the whole
    claim window before the client's own refund opens, and the refund that needs
    no solver opens no earlier than that claim may be answered; and the HTLC
    rebuilt from the row is the funded one, whose refund the payout can pay for
    at every rate and every later moment, unless the fee rate sampled for the
    quote was not a number, for any locktime before 2038. *)
Theorem quoted_payout_is_recoverable {B : BtcSigner} {A : Arkade} deps req w row lockupDeadline w' :
  Sized B → (∀ s bytes, arkAddressDecode s = Some bytes → Forall is_byte bytes) → adm_wf (q_adm w) →
  FairPricing (pricing deps) → ladder_wf (delays (onchain_arkade deps)) → 0 < req_amountSats req →
  runs (onchainQuote deps req) w (Ok (OnchainAccepted row lockupDeadline)) w' →
  let q := quote row in
  htlcLocktime q < 2 ^ 31 →
  0 < payoutSats q ≤ amountSats q ∧
  (∃ at_ later, lockupDeadline = at_ + DEFAULT_ONCHAIN_LOCKUP_TIMEOUT ∧
     (∀ t, at_ ≤ t ≤ lockupDeadline →
        evaluateOnchainSendFunding (refundLocktime q) (htlcLocktime q) (minConfirmations q) t = FundOnchain) ∧
     latestClaimArrival (htlcLocktime q) + ARKADE_CLAIM_WINDOW_SECONDS ≤ refundLocktime q ∧
     refundWithoutReceiverDelayCovers (refundWithoutReceiverDelay q) (arkadeClaimDeadline (htlcLocktime q)) later = true) ∧
  ∃ htlc rate, rebuiltHtlc (send_deps deps) q = Ok htlc ∧
    hex_encode (OnchainRail.pkScript htlc) = onchainPkScript q ∧ OnchainRail.address htlc = onchainAddress q ∧
    (samplesFees deps = false → rate = None) ∧
    (rate ≠ Some NaN → ∀ txid vout now_rate,
       affordableFee (estimateRefundTxVsize (spendOf (send_deps deps) q htlc txid vout (payoutSats q))) now_rate
         (payoutSats q) ONCHAIN_DUST_SATS ≠ None).
Proof.
  intros Hsized Hbytes Hwf Hfair Hladder Hpos Hr q Hlt.
  destruct (onchainQuote_runs _ _ _ _ _ Hbytes Hwf Hr) as (_ & i & q' & stamp & Hrow & _ & [_ Hamounts Hdl _ _ Hhtlc]).
  assert (q = q') as <- by (unfold q; by rewrite Hrow).
  split; [by eapply quoted_payout_within|]. split.
  - destruct Hdl as (at_ & later & ladder & Hacc & Hl & _ & _ & Hsolo). exists at_, later.
    pose proof (onchain_quote_ordered _ _ _ _ _ _ _ _ _ _ Hacc) as (_ & _ & _ & Harrive & _).
    assert (lockupDeadline = at_ + DEFAULT_ONCHAIN_LOCKUP_TIMEOUT) as Hd.
    { unfold evaluateOnchainSendAcceptance in Hacc. case_match; [done|]. by injection Hacc. }
    split_and!; [done| |done|].
    + intros t Ht. by eapply onchain_funding_gate.
    + rewrite Hsolo. by apply (ladder_sound _ _ _ _ Hladder Hl).
  - destruct Hhtlc as (_ & _ & _ & htlc & Hh & Ha & Hs). destruct Hamounts as [_ (vsize & rate & Hv & Hfloor & Hsample)].
    exists htlc, rate. split_and!; [done|done|done|done|].
    intros Hrate txid vout now_rate. by eapply quoted_refund_affordable.
Qed.

(** ** Quotes played *)

#[local] Existing Instance example_arkade.

(** A library whose sizes are those of lengths: an operation is a byte, a number
    five or two, a push its bytes and one; a leaf of two has a 65 byte block. *)
Definition quote_item (item : ScriptItem) : list Z :=
  match item with
  | Op _ => [0]
  | Num n => replicate (if (2 ^ 23 <=? n) && (n <? 2 ^ 31) then 5 else 2) 1
  | Push bytes => 32 :: bytes
  end.
#[local] Instance quote_signer : BtcSigner := {|
  scriptEncode items := concat (map quote_item items);
  p2tr leaves _ := mkP2TR "bcrt1pquote" (81 :: 32 :: replicate 32 5) ((λ leaf, (replicate 65 7, leaf ++ [LEAF_VERSION])) <$> leaves);
  vsizeWith t w :=
    Pos.of_nat (11 + 41 * (tx_shape t).1 + foldr Nat.add 0 (Nat.add 9 <$> (tx_shape t).2) +
                foldr Nat.add 0 (length <$> w) / 4)%nat;
|}.
Lemma same_width_length a b : same_width a b → length (quote_item a) = length (quote_item b).
Proof.
  destruct a as [x|n|x], b as [y|m|y]; cbn; try done; [|congruence].
  intros [->|[Hn Hm]]; [done|]. rewrite !length_replicate. do 2 case_match; bool_to_prop; lia.
Qed.
Lemma quote_sized : Sized quote_signer.
Proof.
  split.
  - intros t t' w w' Ht Hw. cbn. unfold tx_shape in Ht. injection Ht as -> ->. by rewrite Hw.
  - intros l l' Hl. cbn [scriptEncode quote_signer]. induction Hl as [|a b l l' Hab _ IH]; [done|]. cbn [map concat].
    by rewrite !length_app, IH, (same_width_length _ _ Hab).
  - intros a b n. cbn. by repeat constructor.
Qed.

(** The sampled rate, the fee of a funding and the balance of the wallet. *)
Definition onchain_answers (rate : Z) X (e : onchain_quote_read X) : option X :=
  match e in onchain_quote_read X return option X with
  | SampledFeeRate => Some (Some (of_Z rate))
  | FundingFeeSats => Some 310
  | ReadFloat => Some (Some 2000000)
  end.
Definition onchain_example_deps : OnchainQuoteDeps :=
  mkOnchainQuoteDeps
    (mkOnchainDeps "aa" regtest_network (81 :: 32 :: replicate 32 6) false false false false false false false true 0)
    (mkArkade "ark" (hex_encode (replicate 32 187)) (hex_encode (replicate 32 170)) (hex_encode (replicate 32 33))
      (hex_encode example_p2tr) (mkDelays 512 1024 4608))
    1000 1000000 5000000 2 None (Some (mkFee 25 150)) true true.
Definition onchain_example_request (side : option AmountSide) : OnchainQuoteRequest :=
  mkOnchainRequest (Some "203.0.113.7") example_hash 100000 side (hex_encode (replicate 32 204)) "ark1client" "cc" (Some "rfq-1").
Definition onchain_run (rate : Z) (side : option AmountSide) :=
  play (q_served 1700000000 0 "uuid-1" (onchain_answers rate) id)
    (onchainQuote onchain_example_deps (onchain_example_request side)) example_qworld.

(** What the client locks and is paid, when the HTLC lapses and until when the
    quote is open, or why there is none. *)
Definition onchain_run_summary (run : option (result Error OnchainQuoteOutcome * QWorld OnchainSend.state OnchainQuote))
    : option (Z * Z * Z * Z + string) :=
  match run with
  | Some (Ok (OnchainAccepted row deadline), _) =>
      Some (inl (amountSats (quote row), payoutSats (quote row), htlcLocktime (quote row), deadline))
  | Some (Ok (OnchainRefused reason), _) => Some (inr reason)
  | _ => None
  end.

(** Exact-in, exact-out, and at a rate no payout of this size can return from. *)
Example onchain_runs_end :
  onchain_run_summary (onchain_run 2 None) = Some (inl (100000, 99600, 1700011400, 1700000900)) ∧
  onchain_run_summary (onchain_run 2 (Some to_side)) = Some (inl (100402, 100000, 1700011400, 1700000900)) ∧
  onchain_run_summary (onchain_run 1000 None) = Some (inr "payout_below_dust").
Proof. vm_compute. split_and!; reflexivity. Qed.

#[local] Opaque onchainQuote.

(** The run that the summary describes. *)
Lemma onchain_run_accepts :
  ∃ row w', runs (onchainQuote onchain_example_deps (onchain_example_request None)) example_qworld
      (Ok (OnchainAccepted row 1700000900)) w' ∧
    payoutSats (quote row) = 99600 ∧ htlcLocktime (quote row) = 1700011400.
Proof.
  pose proof (proj1 onchain_runs_end) as Hend. destruct (onchain_run _ None) as [[[[row deadline|reason]|e] w']|] eqn:He;
    try discriminate Hend. cbn in Hend. injection Hend as _ Hp Hl ->.
  exists row, w'. split; [exact (play_runs _ _ _ _ _ _ _ _ _ He)|]. by split.
Qed.

Lemma onchain_quote_keeps_its_word_witness :
  ∃ row w', runs (onchainQuote onchain_example_deps (onchain_example_request None)) example_qworld
      (Ok (OnchainAccepted row 1700000900)) w' ∧ unchanged new_admission (q_adm w') ∧
    ∃ i q at_, row = mkRow i OnchainSend.quoted at_ at_ q ∅ ∧ rows (q_db w') = [row] ∧
      onchain_promise onchain_example_deps (onchain_example_request None) [] 1700000900 i q.
Proof.
  destruct onchain_run_accepts as (row & w' & Hr & _). exists row, w'. split; [exact Hr|].
  exact (onchain_quote_keeps_its_word _ _ example_qworld _ w' example_arkade_bytes new_admission_wf Hr).
Defined.

Lemma onchain_example_fair : FairPricing (pricing onchain_example_deps).
Proof. apply fixedFeePricing_fair. by vm_compute. Qed.
Lemma onchain_example_ladder : ladder_wf (delays (onchain_arkade onchain_example_deps)).
Proof.
  change (ladder_wf (mkDelays 512 1024 4608)). split; [by exists seconds|]. vm_compute. split_and!; done.
Qed.

Lemma quoted_payout_is_recoverable_witness :
  ∃ row w', runs (onchainQuote onchain_example_deps (onchain_example_request None)) example_qworld
      (Ok (OnchainAccepted row 1700000900)) w' ∧ 0 < payoutSats (quote row) ≤ amountSats (quote row) ∧
    (∃ at_, 1700000900 = at_ + DEFAULT_ONCHAIN_LOCKUP_TIMEOUT ∧
       evaluateOnchainSendFunding (refundLocktime (quote row)) (htlcLocktime (quote row)) (minConfirmations (quote row))
         1700000900 = FundOnchain) ∧
    ∃ htlc, rebuiltHtlc (send_deps onchain_example_deps) (quote row) = Ok htlc ∧
      hex_encode (OnchainRail.pkScript htlc) = onchainPkScript (quote row).
Proof.
  destruct onchain_run_accepts as (row & w' & Hr & _ & Hl). exists row, w'. split; [exact Hr|].
  assert (0 < req_amountSats (onchain_example_request None)) as Hpos by (vm_compute; reflexivity).
  assert (htlcLocktime (quote row) < 2 ^ 31) as Hlt by (rewrite Hl; vm_compute; reflexivity).
  destruct (quoted_payout_is_recoverable _ _ example_qworld row 1700000900 w' quote_sized example_arkade_bytes
    new_admission_wf onchain_example_fair onchain_example_ladder Hpos Hr Hlt)
    as (Hp & (at_ & later & Hd & Hgate & _) & htlc & rate & Hh & Hs & _).
  split; [exact Hp|]. split.
  - exists at_. split; [exact Hd|]. apply Hgate. unfold DEFAULT_ONCHAIN_LOCKUP_TIMEOUT, MINUTE in Hd. lia.
  - exists htlc. split; [exact Hh|exact Hs].
Defined.
